(* ===== verification/_CoqProject ===== *)
-Q . S2P
Prelude.v
Key.v
Skiplist.v
Memtable.v
Crc32.v
Monad.v
Fs.v
WalCodec.v
Wal.v
Block.v
Bloom.v
Writer.v
Reader.v
TableIter.v
Heap.v
Merge.v
SSTableList.v
Compactor.v
Tables.v
WalFrame.v
Engine.v
EngineMem.v
EngineFrame.v
EngineInv.v
Scan.v
EngineSpec.v
Waits.v
Snapshot.v
EngineFaults.v
Concurrent.v
