(* ===== verification/Prelude.v ===== *)
(** * WispDB in Rocq

    A verification library of WispDB, a log-structured storage engine for time series (the
    Go packages under src/). A key is a series and a timestamp. A write is appended to the
    write-ahead log and put into a skiplist in memory, the mutable memtable; when that is
    full it is frozen, the log is rotated, and the frozen memtable is flushed to a table
    file, after which the log's segments are removed. A lookup asks the memtables and then
    the tables, newest first; a compaction merges the tables into one; a scan merges all of
    them in memory. The theorems show each part correct on its own and the engine, with all
    of them, to be a finite map that survives crashes.

    ** Files

    Every component has one file with its state, its operations as in the code, its
    invariant and its theorems.

    - [Prelude]: errors and panics ([outcome]), machine integers, little-endian fields, Go
      slices with their bounds checks, and the automation. [Key] (skiplist.Key): the order
      of keys and sorted association lists. [Monad]: state and outcome, and the weakest
      preconditions [wp] that say what holds after an error too. [Fs]: a file system in
      which a schedule of faults makes any call fail, and in which a crash loses any part of
      what was not fsynced.
    - [Skiplist] (skiplist/skiplist.go): nodes in an arena with forward pointers, the random
      levels as a list of draws. [Memtable] (memtable/memtable.go): the write buffer.
    - [Crc32] (hash/crc32): the checksum and what it detects. [WalCodec] and [Wal]
      (wal/wal.go): the record format, and the segments, rotation, reclaiming, replay.
      [WalFrame]: which files a log touches, and the checkpoint protocol with the engine.
    - [Block], [Bloom], [Writer], [Reader], [TableIter] (sstable/block.go, bloom.go,
      writer.go and sstable.go, reader.go, iterator.go): the table file, from a block's
      bytes to the cursor over a whole table. [TableIter] declares the class [Cursor], the
      interface the merges are proved against; tables and memtables are its instances.
    - [Heap] (container/heap, as the code uses it) and [Merge] (compactor/compact.go):
      [CompactSSTables]. [SSTableList] (sstable/sstable_list.go): tables behind pointers
      with reference counts, and the interleavings of their holders. [Compactor]
      (compactor/compact.go, read.go): [CompactAll] on a list. [Tables]: how a list of
      tables and its directory agree, which every call on the list keeps.
    - [Engine] (wisp.go): the struct [Wisp] and its methods. [EngineMem], [EngineInv]: the
      invariant that ties memtables, log, tables and directory together, and every method
      keeping it. [Scan] (wisp.go): [ScanIterator]. [EngineSpec]: the engine refines a map.
      [EngineFrame], [Waits], [Snapshot]: what no call changes, that the waits end, and
      scans under concurrent calls. [EngineFaults]: flushes and freezes that fail.
      [Concurrent]: [flushImmutable] and [Get] in the sections between their locks,
      interleaved with each other, with writes and with freezes.

    ** What the theorems show

    - The engine: [engine_refines_map] (every sequence of calls, scans, closes, crashes and
      restarts answers like a map, without an error), [reads_linearizable] (concurrent reads
      see the writes of one moment, whatever fails), [flush_failure_keeps_contents]
      (a flush that fails anywhere loses nothing), [waits_end], [failed_freeze_refuses_inserts].
    - Scans: [scan_range] (exactly the live keys of the range, in order), [scan_isolated]
      (concurrent calls do not show in a scan).
    - Log: round trips ([record_roundtrip], [wal_roundtrip]), crashes and failing calls
      ([append_crash_safe], [rotate_reclaim], [legacy_log_adopted]), damage
      ([replay_never_panics], [replay_detects_corruption], [torn_tail_poisons_log]).
    - Tables: [table_get] (a table answers like the list it was written from),
      [table_durable], [table_iteration_complete], block and filter round trips, and what
      the checksum and the parsers do on damaged bytes.
    - Merging: [compaction_preserves_lookups], [compaction_output], [compaction_safe],
      [compact_all_correct]; the ways a compaction can go wrong have theorems of their own
      ([compaction_drops_unreadable], [failed_removal_resurrects],
      [overlapping_compactions_close_held], [compaction_hides_concurrent_flush]).
    - List: [held_tables_stay_open] under all interleavings, [load_lists_directory],
      [interrupted_flush_blocks_load].
    - Memory: the skiplist and the memtable refine maps ([insert_refines_map],
      [Lookup_refines_map], [iteration_sorted_complete], [memtable_writes_lookup],
      [freeze_immutable], [IsFull_exact]).

    ** Conventions

    Go integers are [Z] with their wrap-around written out ([u8], [u32], [u64], [i64],
    [SSTableList.i32]); bytes are [list byte]; a slice has its length as capacity. A
    function returning an error yields [Ok] or [Err], a run-time panic is [Panic]. Pointers
    that are shared are indices into a store: skiplist nodes into the arena, table files into
    [SSTableList.store], memtables into [Engine.mems].

    Fuel: loops that are not structural take fuel, and [OutOfFuel] is a result of its own
    that the theorems exclude. [Skiplist.insert] and [Search] use the size of the arena,
    the heap its length, block and log parsers the number of bytes, [flush_loop] one more
    than the number of keys, the waiting loops 3 and 2 rounds ([waits_end]); the merges and
    scans take their fuel as an argument, and one more than the number of entries is enough
    ([compaction_output], [scan_range]).

    Parameters: snappy ([Block.Snappy], with the documented round trip of Encode and Decode)
    and murmur3 ([Bloom.Hash128], any function). Draws of math/rand are arguments. The
    witnesses use [stored] and [toy_hash], a snappy that stores and a concrete hash.

    ** Assumptions

    - A file that was created, renamed or removed is so after a crash without an fsync of
      its directory; a crash keeps a prefix of each file that has all its fsynced bytes.
      After a failed Close a handle is not used again. Reading from a handle that is open
      does not fail; opening, creating, writing, syncing, closing, renaming, removing and
      listing can.
    - Each method runs as one atomic step of its component's mutex. Interleavings are
      modelled where the code has no common lock: references of the table list
      ([SSTableList.step]), a compaction against a flush, whole calls of the engine
      against the steps of a scan ([Snapshot.engine_step]), and the sections of a flush and
      of reads against writes and freezes ([Concurrent.step]). The memory of the skiplist
      is sequentially consistent: a lookup and a write in the same memtable do not overlap.
    - [sort.Slice] keeps the order of tables with equal generations. The allocator panics
      beyond 2^48 bytes. math.Log is the portable algorithm of the Go library.

    ** Not modelled

    The example program, tests and benchmarks; the structs [Footer], [SSTable] and [Record],
    which no code uses; the single-field getters of the skiplist's iterator, which are
    projections of [Entry]; memory that a reader of a table would map or cache.

    ** To do

    A compaction among the sections of [Concurrent], for which [compaction_hides_concurrent_flush]
    is the obstacle; writes and compactions of the engine under failing calls, up to the
    defects above that make an acknowledged write unreadable; a restart after a failed flush. *)
From Stdlib Require Import ZArith Lia Strings.Byte Strings.String.
From stdpp Require Import base list gmap strings sorting.

#[global] Open Scope Z_scope.

(** ** Errors and outcomes

    A Go function returning [(T, error)] yields [Ok] or [Err]; a run-time panic
    is [Panic]; [OutOfFuel] is reached only when a fuel bound of the model was too
    small, which the theorems exclude. *)
Inductive error :=
  | ErrEOF
  | ErrUnexpectedEOF
  | ErrNotExist
  | ErrClosed
  | ErrIO
  | ErrIsDir
  | ErrNegativeOffset
  | ErrWalPayloadShort (have want : Z)
  | ErrWalPayloadTruncated (want have : Z)
  | ErrWalRecordSize (size max : Z)
  | ErrWalChecksum
  | ErrWalClosed
  | ErrWalReplaySegment (id : Z) (e : error)
  | ErrWalMigrate (e : error)
  | ErrBloomCorrupt
  | ErrTableTooSmall
  | ErrTableMagic
  | ErrTableVersion (v : Z)
  | ErrTableIndexSize
  | ErrTableChecksum (got want : Z)
  | ErrBlockSnappy (e : error)
  | ErrBlockEntryLength
  | ErrBlockEntry
  | ErrBlockValue
  | ErrSnappyCorrupt
  | ErrRefNegative
  | ErrOpenTable (gen : Z) (e : error)
  | ErrCompact (e : error)
  | ErrPut
  | ErrDelete
  | ErrRecover (series timestamp : Z).

#[global] Instance error_eq_dec : EqDecision error.
Proof. unfold EqDecision, Decision. decide equality; apply Z.eq_dec. Defined.

Inductive panic :=
  | IndexOutOfRange
  | NilDereference
  | MakeSliceLen
  | DivideByZero
  | TypeAssertion.

#[global] Instance panic_eq_dec : EqDecision panic.
Proof. solve_decision. Defined.

Inductive outcome (A : Type) :=
  | Ok (a : A)
  | Err (e : error)
  | Panic (p : panic)
  | OutOfFuel.
Arguments Ok {A} a.
Arguments Err {A} e.
Arguments Panic {A} p.
Arguments OutOfFuel {A}.

#[global] Instance outcome_eq_dec {A} `{EqDecision A} : EqDecision (outcome A).
Proof. unfold EqDecision, Decision. decide equality; apply (decide (_ = _)). Defined.

#[global] Instance outcome_ret : MRet outcome := @Ok.
#[global] Instance outcome_bind : MBind outcome := λ A B f m,
  match m with
  | Ok a => f a
  | Err e => Err e
  | Panic p => Panic p
  | OutOfFuel => OutOfFuel
  end.

(** A computation that neither panics nor exhausts the model's fuel. *)
Definition no_panic {A} (o : outcome A) : Prop :=
  match o with Ok _ | Err _ => True | _ => False end.

Lemma no_panic_bind {A B} (m : outcome A) (f : A → outcome B) :
  no_panic m → (∀ a, m = Ok a → no_panic (f a)) → no_panic (m ≫= f).
Proof. destruct m; simpl; auto. Qed.

Lemma outcome_bind_Ok {A B} (m : outcome A) (f : A → outcome B) b :
  m ≫= f = Ok b ↔ ∃ a, m = Ok a ∧ f a = Ok b.
Proof. destruct m; cbn; naive_solver. Qed.

(** Peel the binds of a hypothesis [H : (x ← m; k) = Ok r]. *)
Ltac bind_inv H :=
  let a := fresh "a" in let E := fresh "E" in
  apply outcome_bind_Ok in H as (a & E & H).

(** ** Machine integers

    Go integers are [Z]; [u64], [u32], [u8] and [i64] are the conversions that wrap. *)
Definition u8 (z : Z) : Z := z mod 2^8.
Definition u32 (z : Z) : Z := z mod 2^32.
Definition u64 (z : Z) : Z := z mod 2^64.
Definition i64 (z : Z) : Z := (z + 2^63) mod 2^64 - 2^63.

Definition is_u32 (z : Z) : Prop := 0 ≤ z < 2^32.
Definition is_u64 (z : Z) : Prop := 0 ≤ z < 2^64.
Definition is_i64 (z : Z) : Prop := -2^63 ≤ z < 2^63.

#[global] Instance is_u32_dec z : Decision (is_u32 z).
Proof. unfold is_u32. apply _. Defined.
#[global] Instance is_u64_dec z : Decision (is_u64 z).
Proof. unfold is_u64. apply _. Defined.
#[global] Instance is_i64_dec z : Decision (is_i64 z).
Proof. unfold is_i64. apply _. Defined.

Create HintDb word.
Create Rewrite HintDb word.
Create Rewrite HintDb zlen.

Lemma u32_id z : is_u32 z → u32 z = z.
Proof. unfold is_u32, u32. intros. apply Z.mod_small. lia. Qed.
Lemma u64_id z : is_u64 z → u64 z = z.
Proof. unfold is_u64, u64. intros. apply Z.mod_small. lia. Qed.
Lemma i64_id z : is_i64 z → i64 z = z.
Proof. unfold is_i64, i64. intros. rewrite Z.mod_small; lia. Qed.
Lemma u32_range z : is_u32 (u32 z).
Proof. unfold is_u32, u32. apply Z.mod_pos_bound. lia. Qed.
Lemma u64_range z : is_u64 (u64 z).
Proof. unfold is_u64, u64. apply Z.mod_pos_bound. lia. Qed.
Lemma i64_range z : is_i64 (i64 z).
Proof. unfold is_i64, i64. pose proof (Z.mod_pos_bound (z + 2^63) (2^64)). lia. Qed.

(** The conversions int64 -> uint64 -> int64 cancel. *)
Lemma i64_u64 z : is_i64 z → i64 (u64 z) = z.
Proof.
  unfold is_i64, i64, u64. intros.
  rewrite Zplus_mod_idemp_l, Z.mod_small; lia.
Qed.
#[export] Hint Resolve u32_range u64_range i64_range : word.
#[export] Hint Rewrite u32_id u64_id i64_id i64_u64 using (auto with word) : word.

(** ** Bytes *)
Abbreviation byte := Byte.byte.
Abbreviation bytes := (list Byte.byte).

Definition Z_of_byte (b : byte) : Z := Z.of_N (Byte.to_N b).
Definition byte_of_Z (z : Z) : byte :=
  match Byte.of_N (Z.to_N (z mod 256)) with Some b => b | None => x00 end.

#[global] Instance byte_eq_dec : EqDecision byte.
Proof. intros a b. destruct (Byte.byte_eq_dec a b); [by left | by right]. Defined.

#[global] Program Instance byte_countable : Countable byte :=
  inj_countable Byte.to_N Byte.of_N _.
Next Obligation. apply Byte.of_to_N. Qed.

Lemma Z_of_byte_range b : 0 ≤ Z_of_byte b < 256.
Proof. unfold Z_of_byte. pose proof (Byte.to_N_bounded b). lia. Qed.

Lemma byte_of_Z_of_byte b : byte_of_Z (Z_of_byte b) = b.
Proof. by destruct b. Qed.

Lemma Z_of_byte_of_Z z : Z_of_byte (byte_of_Z z) = z mod 256.
Proof.
  unfold byte_of_Z, Z_of_byte.
  pose proof (Z.mod_pos_bound z 256 ltac:(lia)) as Hb.
  destruct (Byte.of_N _) as [b|] eqn:E.
  - apply Byte.to_of_N in E. rewrite E. lia.
  - apply Byte.of_N_None_iff in E. lia.
Qed.

#[global] Instance Z_of_byte_inj : Inj (=) (=) Z_of_byte.
Proof. intros a b H. rewrite <-(byte_of_Z_of_byte a), <-(byte_of_Z_of_byte b). by rewrite H. Qed.

(** ** Little-endian fields: [binary.LittleEndian.PutUintN] and [UintN] *)
Fixpoint le_put (n : nat) (z : Z) : bytes :=
  match n with
  | O => []
  | S n' => byte_of_Z z :: le_put n' (z / 256)
  end.

Fixpoint le_get (bs : bytes) : Z :=
  match bs with
  | [] => 0
  | b :: bs' => Z_of_byte b + 256 * le_get bs'
  end.

Lemma length_le_put n z : length (le_put n z) = n.
Proof. revert z. induction n; intros; simpl; auto. Qed.

Lemma le_get_range bs : 0 ≤ le_get bs < 256 ^ Z.of_nat (length bs).
Proof.
  induction bs as [|b bs IH]; [simpl; lia|].
  change (0 ≤ Z_of_byte b + 256 * le_get bs < 256 ^ Z.of_nat (S (length bs))).
  pose proof (Z_of_byte_range b).
  rewrite Nat2Z.inj_succ, Z.pow_succ_r by lia. lia.
Qed.

Lemma le_get_put n z : le_get (le_put n z) = z mod 256 ^ Z.of_nat n.
Proof.
  revert z. induction n as [|n IH]; intros z; [simpl; by rewrite Z.mod_1_r|].
  change (Z_of_byte (byte_of_Z z) + 256 * le_get (le_put n (z / 256)) = z mod 256 ^ Z.of_nat (S n)).
  rewrite IH, Z_of_byte_of_Z, Nat2Z.inj_succ, Z.pow_succ_r by lia.
  rewrite Z.rem_mul_r by lia. lia.
Qed.

Lemma le_put_get bs : le_put (length bs) (le_get bs) = bs.
Proof.
  induction bs as [|b bs IH]; [done|].
  change (byte_of_Z (Z_of_byte b + 256 * le_get bs)
    :: le_put (length bs) ((Z_of_byte b + 256 * le_get bs) / 256) = b :: bs).
  pose proof (Z_of_byte_range b) as Hb. f_equal.
  - rewrite <-(byte_of_Z_of_byte b) at 2. unfold byte_of_Z.
    rewrite Z.mul_comm, Z.mod_add by lia. done.
  - rewrite Z.mul_comm, Z.div_add, Z.div_small, Z.add_0_l by lia. exact IH.
Qed.

Lemma le_get_put_u32 z : is_u32 z → le_get (le_put 4 z) = z.
Proof. intros. rewrite le_get_put. by apply u32_id. Qed.
Lemma le_get_put_u64 z : is_u64 z → le_get (le_put 8 z) = z.
Proof. intros. rewrite le_get_put. by apply u64_id. Qed.
Lemma i64_le_get_put z : is_i64 z → i64 (le_get (le_put 8 (u64 z))) = z.
Proof. intros. rewrite le_get_put_u64 by auto with word. by apply i64_u64. Qed.
Lemma le_get_u32 bs : length bs = 4%nat → is_u32 (le_get bs).
Proof. intros H. pose proof (le_get_range bs) as Hr. by rewrite H in Hr. Qed.
Lemma le_get_u64 bs : length bs = 8%nat → is_u64 (le_get bs).
Proof. intros H. pose proof (le_get_range bs) as Hr. by rewrite H in Hr. Qed.

#[export] Hint Rewrite length_le_put : word.
#[export] Hint Rewrite le_get_put_u32 le_get_put_u64 i64_le_get_put using (auto with word) : word.
Arguments le_put : simpl never.
Arguments le_get : simpl never.

(** ** Slices

    A Go slice is a list with its length as capacity; indices are Go [int]s, in [Z].
    Every access is checked as the run time checks it. *)
Definition zlen {A} (l : list A) : Z := Z.of_nat (length l).

Definition go_index {A} (l : list A) (i : Z) : outcome A :=
  if i <? 0 then Panic IndexOutOfRange
  else match l !! Z.to_nat i with Some a => Ok a | None => Panic IndexOutOfRange end.

(** [l[i] = a] *)
Definition go_store {A} (l : list A) (i : Z) (a : A) : outcome (list A) :=
  if (0 <=? i) && (i <? zlen l) then Ok (<[Z.to_nat i := a]> l) else Panic IndexOutOfRange.

(** [l[lo:hi]] *)
Definition go_slice {A} (l : list A) (lo hi : Z) : outcome (list A) :=
  if (0 <=? lo) && (lo <=? hi) && (hi <=? zlen l)
  then Ok (take (Z.to_nat (hi - lo)) (drop (Z.to_nat lo) l))
  else Panic IndexOutOfRange.

Definition write_at {A} (dst : list A) (off : nat) (src : list A) : list A :=
  take off dst ++ src ++ drop (off + length src) dst.

(** A [PutUintN(dst[lo:hi], v)], with [src] the encoded field. *)
Definition go_put {A} (dst : list A) (lo hi : Z) (src : list A) : outcome (list A) :=
  if (0 <=? lo) && (lo <=? hi) && (hi <=? zlen dst)
  then Ok (write_at dst (Z.to_nat lo) src)
  else Panic IndexOutOfRange.

(** [copy(dst[lo:], src)]: as many elements as both sides have. *)
Definition go_copy {A} (dst : list A) (lo : Z) (src : list A) : outcome (list A) :=
  if (0 <=? lo) && (lo <=? zlen dst)
  then Ok (write_at dst (Z.to_nat lo) (take (length dst - Z.to_nat lo) src))
  else Panic IndexOutOfRange.

(** [make([]byte, n)]; the allocator of a 64-bit target panics beyond [maxAlloc]. *)
Definition maxAlloc : Z := 2^48.
Definition go_make (n : Z) : outcome bytes :=
  if (n <? 0) || (maxAlloc <? n) then Panic MakeSliceLen else Ok (replicate (Z.to_nat n) x00).

Lemma zlen_nonneg {A} (l : list A) : 0 ≤ zlen l.
Proof. unfold zlen. lia. Qed.
Lemma length_zero_iff_nil_zlen {A} (l : list A) : zlen l = 0 → l = [].
Proof. destruct l; [done|]. unfold zlen. simpl. lia. Qed.
Lemma zlen_app {A} (l k : list A) : zlen (l ++ k) = zlen l + zlen k.
Proof. unfold zlen. rewrite length_app. lia. Qed.
Lemma zlen_cons {A} (a : A) l : zlen (a :: l) = 1 + zlen l.
Proof. unfold zlen. simpl. lia. Qed.
Lemma zlen_nil {A} : zlen (@nil A) = 0.
Proof. done. Qed.
Lemma zlen_le_put n z : zlen (le_put n z) = Z.of_nat n.
Proof. unfold zlen. by rewrite length_le_put. Qed.
Lemma zlen_replicate {A} n (a : A) : zlen (replicate n a) = Z.of_nat n.
Proof. unfold zlen. by rewrite length_replicate. Qed.
Lemma zlen_take {A} n (l : list A) : zlen (take n l) = Z.min (Z.of_nat n) (zlen l).
Proof. unfold zlen. rewrite length_take. lia. Qed.
Lemma zlen_drop {A} n (l : list A) : zlen (drop n l) = Z.max 0 (zlen l - Z.of_nat n).
Proof. unfold zlen. rewrite length_drop. lia. Qed.

#[export] Hint Rewrite @zlen_app @zlen_cons @zlen_nil zlen_le_put @zlen_replicate
  @zlen_take @zlen_drop length_le_put : zlen.

(** Arithmetic on the lengths of concrete layouts. *)
Ltac zlen :=
  autorewrite with zlen in *;
  repeat match goal with
  | |- context [zlen ?l] => lazymatch goal with
      | _ : 0 ≤ zlen l |- _ => fail | _ => pose proof (zlen_nonneg l) end
  | _ : context [zlen ?l] |- _ => lazymatch goal with
      | _ : 0 ≤ zlen l |- _ => fail | _ => pose proof (zlen_nonneg l) end
  end; try lia.

Lemma go_slice_spec {A} (l : list A) lo hi :
  0 ≤ lo ≤ hi → hi ≤ zlen l →
  ∃ r, go_slice l lo hi = Ok r ∧ zlen r = hi - lo.
Proof.
  intros H1 H2. unfold go_slice.
  destruct (_ && _) eqn:E; [|lia]. eexists. split; [done|]. zlen.
Qed.

Lemma go_slice_skip {A} (a rest : list A) lo hi :
  zlen a ≤ lo → lo ≤ hi → go_slice (a ++ rest) lo hi = go_slice rest (lo - zlen a) (hi - zlen a).
Proof.
  intros H1 H2. pose proof (zlen_nonneg a). unfold go_slice. rewrite zlen_app.
  replace (hi <=? zlen a + zlen rest) with (hi - zlen a <=? zlen rest) by lia.
  replace (lo - zlen a <=? hi - zlen a) with (lo <=? hi) by lia.
  replace (0 <=? lo - zlen a) with (0 <=? lo) by lia.
  destruct (_ && _); [|done]. do 2 f_equal; [lia|].
  rewrite drop_app_ge by (unfold zlen in *; lia). f_equal. unfold zlen in *. lia.
Qed.

Lemma go_slice_take {A} (a rest : list A) lo hi :
  lo = 0 → hi = zlen a → go_slice (a ++ rest) lo hi = Ok a.
Proof.
  intros -> ->. pose proof (zlen_nonneg a). unfold go_slice. rewrite zlen_app.
  pose proof (zlen_nonneg rest). destruct (_ && _) eqn:E; [|lia].
  rewrite drop_0. f_equal. rewrite take_app_le by (unfold zlen; lia).
  apply take_ge. unfold zlen. lia.
Qed.

(** The field [mid] of a layout [pre ++ mid ++ post]. *)
Lemma go_slice_mid {A} (pre mid post : list A) lo hi :
  lo = zlen pre → hi = lo + zlen mid → go_slice (pre ++ mid ++ post) lo hi = Ok mid.
Proof.
  intros -> ->. pose proof (zlen_nonneg mid). rewrite go_slice_skip by lia.
  apply go_slice_take; lia.
Qed.

Lemma go_slice_all {A} (l : list A) lo hi : lo = 0 → hi = zlen l → go_slice l lo hi = Ok l.
Proof. intros -> ->. rewrite <-(app_nil_r l) at 1. by apply go_slice_take. Qed.

(** Prove [go_slice (f1 ++ f2 ++ ...) lo hi = Ok fi] on a concrete layout. *)
Ltac slice_field :=
  try match goal with |- go_slice ?d _ _ = _ => is_var d; unfold d end;
  repeat (rewrite go_slice_skip by zlen);
  first [apply go_slice_take; zlen | apply go_slice_all; zlen].

Lemma go_index_mid {A} (pre post : list A) a i :
  i = zlen pre → go_index (pre ++ a :: post) i = Ok a.
Proof.
  intros ->. unfold go_index. pose proof (zlen_nonneg pre).
  destruct (_ <? _) eqn:E; [lia|].
  rewrite lookup_app_r by (unfold zlen; lia).
  replace (_ - _)%nat with 0%nat by (unfold zlen; lia). done.
Qed.

Lemma go_index_field {A} (pre post : list A) a i :
  i = zlen pre → go_index (pre ++ [a] ++ post) i = Ok a.
Proof. apply go_index_mid. Qed.

Lemma go_index_ok {A} (l : list A) i : 0 ≤ i < zlen l → ∃ a, go_index l i = Ok a.
Proof.
  intros H. unfold go_index. destruct (_ <? _) eqn:E; [lia|].
  destruct (lookup_lt_is_Some_2 l (Z.to_nat i)) as [a ->]; [unfold zlen in *; lia|eauto].
Qed.

Lemma write_at_app {A} (pre rest src : list A) :
  write_at (pre ++ rest) (length pre) src = (pre ++ src) ++ drop (length src) rest.
Proof.
  unfold write_at. rewrite take_app_length, <-drop_drop, drop_app_length.
  by rewrite (assoc_L (++)).
Qed.

(** Filling a buffer from left to right: [pre] is written, [rest] is not yet. *)
Lemma go_put_next {A} (pre rest src : list A) lo hi :
  lo = zlen pre → hi = lo + zlen src → zlen src ≤ zlen rest →
  go_put (pre ++ rest) lo hi src = Ok ((pre ++ src) ++ drop (length src) rest).
Proof.
  intros -> -> H. unfold go_put. pose proof (zlen_nonneg pre). pose proof (zlen_nonneg src).
  rewrite zlen_app. destruct (_ && _) eqn:E; [|lia].
  replace (Z.to_nat (zlen pre)) with (length pre) by (unfold zlen; lia).
  by rewrite write_at_app.
Qed.

Lemma go_copy_last {A} (pre rest src : list A) lo :
  lo = zlen pre → zlen src = zlen rest → go_copy (pre ++ rest) lo src = Ok (pre ++ src).
Proof.
  intros -> H. unfold go_copy. pose proof (zlen_nonneg pre). pose proof (zlen_nonneg rest).
  rewrite zlen_app. destruct (_ && _) eqn:E; [|lia].
  replace (Z.to_nat (zlen pre)) with (length pre) by (unfold zlen; lia).
  rewrite write_at_app, length_app, take_ge by (unfold zlen in *; lia).
  rewrite drop_ge, app_nil_r; [done|]. unfold zlen in *; lia.
Qed.

(** Indexing by a loop counter that is never negative. *)
Definition idx {A} (l : list A) (i : nat) : outcome A :=
  match l !! i with Some a => Ok a | None => Panic IndexOutOfRange end.

Definition set_idx {A} (l : list A) (i : nat) (a : A) : outcome (list A) :=
  if decide (i < length l)%nat then Ok (<[i := a]> l) else Panic IndexOutOfRange.

Lemma idx_Some {A} (l : list A) i a : l !! i = Some a → idx l i = Ok a.
Proof. unfold idx. by intros ->. Qed.

(** Storing one byte while filling a buffer from left to right. *)
Lemma go_store_next (pre rest : bytes) i b :
  i = zlen pre → 1 ≤ zlen rest → go_store (pre ++ rest) i b = Ok ((pre ++ [b]) ++ drop 1 rest).
Proof.
  intros -> H. unfold go_store. zlen. destruct (_ && _) eqn:E; [|lia].
  replace (Z.to_nat (zlen pre)) with (length pre + 0)%nat by (unfold zlen; lia).
  destruct rest as [|c rest]; [zlen|]. rewrite insert_app_r. simpl.
  by rewrite <-(assoc_L (++)).
Qed.

(** Evaluate a layout built from [le_put] fields: each field becomes its bytes, unknown. *)
Ltac le_fields :=
  repeat match goal with
  | |- context [le_put ?n ?z] =>
      let l := fresh "l" in let Hl := fresh "Hl" in
      set (l := le_put n z) in *; assert (length l = n) as Hl by apply length_le_put; clearbody l;
      do 9 (try (destruct l as [|? l]; try discriminate Hl));
      try (apply (f_equal pred) in Hl)
  end.

(** Prove a decidable statement about concrete data by evaluating its decision. *)
Ltac by_decide := apply (bool_decide_unpack _); vm_compute; exact I.

(** ** Lists *)
Lemma Forall_snoc {A} (P : A → Prop) l x : Forall P l → P x → Forall P (l ++ [x]).
Proof. intros Hl Hx. apply Forall_app. split; [done|]. by apply Forall_singleton. Qed.

Lemma concat_snoc {A} (l : list (list A)) x : concat (l ++ [x]) = concat l ++ x.
Proof. rewrite concat_app. simpl. by rewrite app_nil_r. Qed.

Lemma elem_of_fst {A B} (l : list (A * B)) a b : (a, b) ∈ l → a ∈ l.*1.
Proof. intros H. apply list_elem_of_fmap. by exists (a, b). Qed.

Lemma filter_all {A} (P : A → Prop) `{!∀ x, Decision (P x)} (l : list A) : (∀ x, x ∈ l → P x) → filter P l = l.
Proof.
  induction l as [|a l IH]; intros Hl; [done|].
  rewrite filter_cons_True by (apply Hl; left). f_equal. apply IH. intros x Hx. apply Hl. by right.
Qed.

Lemma filter_none {A} (P : A → Prop) `{!∀ x, Decision (P x)} (l : list A) : (∀ x, x ∈ l → ¬ P x) → filter P l = [].
Proof.
  induction l as [|a l IH]; intros Hl; [done|].
  rewrite filter_cons_False by (apply Hl; left). apply IH. intros x Hx. apply Hl. by right.
Qed.

Lemma sorted_lookup {A} (R : relation A) l i j x y :
  StronglySorted R l → l !! i = Some x → l !! j = Some y → (i < j)%nat → R x y.
Proof.
  intros Hs. revert i j. induction Hs as [|z l Hs IH Hz]; intros i j Hi Hj Hij; [done|].
  destruct j as [|j]; [lia|]. destruct i as [|i]; simpl in *.
  - simplify_eq. rewrite Forall_forall in Hz. apply Hz. by eapply list_elem_of_lookup_2.
  - eapply IH; eauto with lia.
Qed.

(** An invariant of every step is an invariant of every run. *)
Lemma rtc_preserve {A} (R : A → A → Prop) (P : A → Prop) :
  (∀ x y, R x y → P x → P y) → ∀ x y, rtc R x y → P x → P y.
Proof. intros HR x y. induction 1; eauto. Qed.

Lemma elem_of_concat {A} (x : A) ls : x ∈ concat ls ↔ ∃ l, x ∈ l ∧ l ∈ ls.
Proof.
  induction ls as [|l ls IH]; cbn [concat].
  - split; [by intros ?%not_elem_of_nil|]. by intros (? & _ & ?%not_elem_of_nil).
  - rewrite elem_of_app, IH. setoid_rewrite elem_of_cons. naive_solver.
Qed.
