(* ===== verification/Key.v ===== *)
(** * Keys and key-ordered association lists

    [skiplist.Key] with the order [compare] of skiplist/skiplist.go, shown to be a
    strict total order, and association lists sorted by it: the abstract contents
    of a skiplist, of a memtable and of a table. *)
From Stdlib Require Import ZArith Lia.
From stdpp Require Import base list gmap sorting.
From S2P Require Import Prelude.

Record Key := mkKey { SeriesID : Z; Timestamp : Z }.

#[global] Instance Key_eq_dec : EqDecision Key.
Proof. solve_decision. Defined.
#[global] Program Instance Key_countable : Countable Key :=
  inj_countable' (λ k, (SeriesID k, Timestamp k)) (λ p, mkKey p.1 p.2) _.
Next Obligation. by intros []. Qed.

(** The zero value [Key{}]. *)
Definition zeroKey : Key := mkKey 0 0.

(** The ranges of the Go types uint64 and int64. *)
Definition key_ok (k : Key) : Prop := is_u64 (SeriesID k) ∧ is_i64 (Timestamp k).
#[global] Instance key_ok_dec k : Decision (key_ok k).
Proof. unfold key_ok. apply _. Defined.

Definition compare (a b : Key) : Z :=
  if SeriesID a <? SeriesID b then -1
  else if SeriesID b <? SeriesID a then 1
  else if Timestamp a <? Timestamp b then -1
  else if Timestamp b <? Timestamp a then 1
  else 0.

Definition klt (a b : Key) : Prop := compare a b < 0.
#[global] Instance klt_dec a b : Decision (klt a b).
Proof. unfold klt. apply _. Defined.

(** Split every comparison of the goal and of the hypotheses. *)
Ltac key_cases :=
  unfold klt, compare in *; simpl in *;
  repeat (case_match; simplify_eq/=); try lia.

Lemma compare_lex a b :
  compare a b < 0 ↔ SeriesID a < SeriesID b ∨ (SeriesID a = SeriesID b ∧ Timestamp a < Timestamp b).
Proof. key_cases. Qed.

Lemma compare_eq a b : compare a b = 0 ↔ a = b.
Proof.
  destruct a as [s t], b as [s' t']. split; [|intros [= -> ->]; key_cases].
  intros H. assert (s = s' ∧ t = t') as [-> ->]; [|done]. key_cases.
Qed.

Lemma compare_antisym a b : compare b a = - compare a b.
Proof. key_cases. Qed.

#[global] Instance klt_irreflexive : Irreflexive klt.
Proof. intros a. unfold complement. key_cases. Qed.
#[global] Instance klt_transitive : Transitive klt.
Proof. intros a b c. unfold klt. rewrite !compare_lex. lia. Qed.

Lemma klt_not_refl k : ¬ klt k k.
Proof. apply (irreflexivity klt). Qed.

Lemma klt_asym a b : klt a b → ¬ klt b a.
Proof. intros H1 H2. exact (klt_not_refl _ (transitivity H1 H2)). Qed.

Lemma klt_trichotomy a b : klt a b ∨ a = b ∨ klt b a.
Proof.
  rewrite <-compare_eq. unfold klt. rewrite (compare_antisym b a). lia.
Qed.

Lemma not_klt_cases a b : ¬ klt a b → a = b ∨ klt b a.
Proof. destruct (klt_trichotomy a b) as [|[|]]; tauto. Qed.

(** Transitivity through a non-strict step. *)
Lemma klt_not_klt_trans a b c : klt a b → ¬ klt c b → klt a c.
Proof.
  intros H [->|H']%not_klt_cases; [done|by trans b].
Qed.

Create HintDb key.
#[export] Hint Resolve klt_not_refl klt_asym : key.

(** ** Sorted association lists *)
Section assoc.
Context {V : Type}.
Implicit Types (l : list (Key * V)) (k : Key) (v : V).

Definition ksorted l : Prop := StronglySorted klt l.*1.

Fixpoint alookup k l : option V :=
  match l with
  | [] => None
  | (k', v) :: l' => if decide (k' = k) then Some v else alookup k l'
  end.

Fixpoint ainsert k v l : list (Key * V) :=
  match l with
  | [] => [(k, v)]
  | (k', v') :: l' =>
      if decide (klt k' k) then (k', v') :: ainsert k v l'
      else if decide (k' = k) then (k, v) :: l'
      else (k, v) :: (k', v') :: l'
  end.

(** The association list as a finite map. *)
Definition kmap l : gmap Key V := list_to_map l.

Lemma kmap_lookup k l : kmap l !! k = alookup k l.
Proof.
  induction l as [|[k' v'] l IH]; simpl; [apply lookup_empty|].
  change (<[k' := v']> (kmap l) !! k = if decide (k' = k) then Some v' else alookup k l).
  rewrite lookup_insert. by case_decide.
Qed.

Lemma alookup_app k l1 l2 :
  alookup k (l1 ++ l2) = match alookup k l1 with Some v => Some v | None => alookup k l2 end.
Proof. induction l1 as [|[k' v'] l IH]; simpl; [done|]. by case_decide. Qed.

Lemma alookup_None k l : k ∉ l.*1 → alookup k l = None.
Proof.
  induction l as [|[k' v'] l IH]; simpl; [done|].
  rewrite not_elem_of_cons. intros [??]. rewrite decide_False by done. auto.
Qed.

Lemma alookup_Some_elem k v l : alookup k l = Some v → (k, v) ∈ l.
Proof.
  induction l as [|[k' v'] l IH]; simpl; [done|].
  case_decide; [intros [= ->]; subst; left|right; auto].
Qed.

Lemma alookup_elem k v l : ksorted l → (k, v) ∈ l → alookup k l = Some v.
Proof.
  unfold ksorted. induction l as [|[k' v'] l IH]; simpl; [by rewrite elem_of_nil|].
  intros [Hs Hall]%StronglySorted_inv [[= -> ->]|Hin]%elem_of_cons.
  - by rewrite decide_True.
  - rewrite decide_False; [auto|]. intros ->. rewrite Forall_forall in Hall.
    apply (klt_not_refl k), Hall. by apply (list_elem_of_fmap_2 fst _ _ Hin).
Qed.

Lemma ainsert_keys k v l k' : k' ∈ (ainsert k v l).*1 ↔ k' = k ∨ k' ∈ l.*1.
Proof.
  induction l as [|[a w] l IH]; simpl; [set_solver|].
  repeat case_decide; simpl; set_solver.
Qed.

Lemma ainsert_sorted k v l : ksorted l → ksorted (ainsert k v l).
Proof.
  unfold ksorted. induction l as [|[a w] l IH]; simpl; [repeat constructor|].
  intros [Hs Hall]%StronglySorted_inv.
  repeat case_decide; simplify_eq/=.
  - constructor; [auto|]. apply Forall_forall. intros x [->|Hx]%ainsert_keys; [done|].
    by eapply Forall_forall in Hall.
  - by constructor.
  - destruct (not_klt_cases a k) as [->|]; [done..|].
    constructor; [by constructor|]. constructor; [done|].
    eapply Forall_impl; [exact Hall|]. intros x ?. simpl in *. by trans a.
Qed.

Lemma ainsert_kmap k v l : ksorted l → kmap (ainsert k v l) = <[k := v]> (kmap l).
Proof.
  unfold ksorted, kmap. induction l as [|[a w] l IH]; simpl; [done|].
  intros [Hs Hall]%StronglySorted_inv.
  repeat case_decide; simplify_eq/=.
  - rewrite IH by done. apply insert_insert_ne. intros ->. by eapply klt_not_refl.
  - by rewrite insert_insert_eq.
  - done.
Qed.

(** Where [ainsert] puts the binding when the list is split at [k]. *)
Lemma ainsert_app k v l1 l2 :
  Forall (λ kv, klt kv.1 k) l1 → ainsert k v (l1 ++ l2) = l1 ++ ainsert k v l2.
Proof.
  induction 1 as [|[a w] l Ha Hl IH]; simpl in *; [done|].
  rewrite decide_True by done. by rewrite IH.
Qed.

Lemma ainsert_fresh k v l : Forall (λ kv, klt k kv.1) l → ainsert k v l = (k, v) :: l.
Proof.
  destruct 1 as [|[a w] l Ha Hl]; simpl in *; [done|].
  rewrite decide_False by (by apply klt_asym).
  rewrite decide_False; [done|]. intros ->. by eapply klt_not_refl.
Qed.

Lemma ainsert_same k v w l : ainsert k v ((k, w) :: l) = (k, v) :: l.
Proof. simpl. rewrite decide_False by apply klt_not_refl. by rewrite decide_True. Qed.

Lemma ksorted_app l1 l2 :
  ksorted (l1 ++ l2) ↔ ksorted l1 ∧ ksorted l2 ∧ ∀ a b, a ∈ l1 → b ∈ l2 → klt a.1 b.1.
Proof.
  unfold ksorted. rewrite fmap_app, StronglySorted_app.
  split; [intros (?&?&?)|intros (?&?&?)]; split_and!; auto.
  - intros a b Ha Hb. eauto using list_elem_of_fmap_2.
  - intros x y [a [-> Ha]]%list_elem_of_fmap [b [-> Hb]]%list_elem_of_fmap. auto.
Qed.

Lemma ksorted_NoDup l : ksorted l → NoDup l.*1.
Proof.
  unfold ksorted. intros H. induction H as [|x xs Hs IH Hall]; constructor; [|done].
  intros Hin. rewrite Forall_forall in Hall. by apply (klt_not_refl x), Hall.
Qed.

Lemma kmap_alookup l1 l2 : kmap l1 = kmap l2 → ∀ k, alookup k l1 = alookup k l2.
Proof. intros H k. by rewrite <-!kmap_lookup, H. Qed.

(** Sorted lists with the same map are the same list. *)
Lemma ksorted_kmap_inj l1 l2 : ksorted l1 → ksorted l2 → kmap l1 = kmap l2 → l1 = l2.
Proof.
  intros H1 H2 Hm. pose proof (kmap_alookup _ _ Hm) as Hl.
  assert (∀ l, ksorted l → StronglySorted (λ a b, klt a.1 b.1) l) as Hs.
  { intros l. unfold ksorted. induction l as [|kv l IH]; [constructor|].
    rewrite fmap_cons, !StronglySorted_cons, Forall_fmap. naive_solver. }
  apply (StronglySorted_unique_strong (λ a b, klt a.1 b.1)); [|by apply Hs..|].
  - intros a b _ _ Hab Hba. by destruct (klt_asym _ _ Hab Hba).
  - apply list_to_map_inj; auto using ksorted_NoDup.
Qed.
End assoc.
#[export] Hint Resolve ainsert_sorted : key.
