(* ===== verification/Skiplist.v ===== *)
(** * The skiplist (skiplist/skiplist.go)

    Nodes live in an arena: a [*node] is the index of the node, [None] is nil, and
    allocation appends. The forward pointers, the in-place update of a duplicate key
    and the level structure are those of the code. The theorems relate a well-formed
    arena to the sorted association list it represents. *)
From Stdlib Require Import ZArith Lia Strings.Byte.
From stdpp Require Import base list gmap sorting.
From S2P Require Import Prelude Key.

Abbreviation loc := nat.

Record node := mkNode {
  nKey : Key;
  nValue : bytes;
  nDeleted : bool;
  forward : list (option loc)
}.

Record Skiplist := mkSkiplist {
  arena : list node;
  head : loc;
  maxLevel : nat;
  currTopLevel : nat;
  slength : Z;
  comparator : Key → Key → Z
}.

(** [p.field] for a possibly nil [p]. *)
Definition deref (a : list node) (p : option loc) : outcome node :=
  match p with
  | None => Panic NilDereference
  | Some l => match a !! l with Some n => Ok n | None => Panic NilDereference end
  end.

Definition with_forward (f : list (option loc)) (n : node) : node :=
  mkNode (nKey n) (nValue n) (nDeleted n) f.

(** [l.forward[i] = p] *)
Definition set_forward (a : list node) (l : loc) (i : nat) (p : option loc) : outcome (list node) :=
  n ← deref a (Some l);
  f ← set_idx (forward n) i p;
  Ok (<[l := with_forward f n]> a).

(** The draws [rand.Float32() < 0.5] are the list [coins]; past its end every draw fails. *)
Fixpoint generateRandomLevel_loop (coins : list bool) (level maxLevel : nat) : nat :=
  match coins with
  | true :: coins' =>
      if (level <? maxLevel)%nat then generateRandomLevel_loop coins' (S level) maxLevel else level
  | _ => level
  end.
Definition generateRandomLevel (coins : list bool) (maxLevel : nat) : nat :=
  generateRandomLevel_loop coins 1 maxLevel.

Definition NewSkipList (maxLevel : nat) : Skiplist :=
  mkSkiplist [mkNode zeroKey [] false (replicate maxLevel None)] 0 maxLevel 1 0 compare.

(** The inner loop: follow level [i] while the next key is smaller. *)
Fixpoint walk (fuel : nat) (s : Skiplist) (key : Key) (i : nat) (current : loc) : outcome loc :=
  match fuel with
  | O => OutOfFuel
  | S fuel' =>
      n ← deref (arena s) (Some current);
      nx ← idx (forward n) i;
      match nx with
      | None => Ok current
      | Some l =>
          m ← deref (arena s) (Some l);
          if comparator s (nKey m) key <? 0 then walk fuel' s key i l else Ok current
      end
  end.

(** No level is longer than the arena. *)
Definition walk_fuel (s : Skiplist) : nat := S (length (arena s)).

(** [for i := levels-1; i >= 0; i--], recording the predecessor of every level. *)
Fixpoint descend (s : Skiplist) (key : Key) (levels : nat) (current : loc)
    (update : list (option loc)) : outcome (loc * list (option loc)) :=
  match levels with
  | O => Ok (current, update)
  | S i =>
      current' ← walk (walk_fuel s) s key i current;
      update' ← set_idx update i (Some current');
      descend s key i current' update'
  end.

(** [for i := from; i < from+n; i++ { update[i] = s.head }] *)
Fixpoint raise_update (n from : nat) (h : loc) (update : list (option loc)) : outcome (list (option loc)) :=
  match n with
  | O => Ok update
  | S n' =>
      update' ← set_idx update from (Some h);
      raise_update n' (S from) h update'
  end.

(** The splice of the new node into the levels [i], ..., [i+n-1]. *)
Fixpoint link (n i : nat) (newNode : loc) (update : list (option loc)) (a : list node) : outcome (list node) :=
  match n with
  | O => Ok a
  | S n' =>
      u ← idx update i;
      un ← deref a u;
      nx ← idx (forward un) i;
      a1 ← set_forward a newNode i nx;
      a2 ← match u with Some l => set_forward a1 l i (Some newNode) | None => Panic NilDereference end;
      link n' (S i) newNode update a2
  end.

(** The node at [p] if there is one and its key is [key]. *)
Definition hit (a : list node) (p : option loc) (key : Key) : outcome (option loc) :=
  match p with
  | None => Ok None
  | Some l => n ← deref a p; Ok (if decide (nKey n = key) then Some l else None)
  end.

Definition set_value (value : bytes) (deleted : bool) (n : node) : node :=
  mkNode (nKey n) value deleted (forward n).

Definition insert (s : Skiplist) (coins : list bool) (key : Key) (value : bytes) (deleted : bool)
    : outcome Skiplist :=
  '(_, update) ← descend s key (currTopLevel s) (head s) (replicate (maxLevel s) None);
  u0 ← idx update 0;
  n0 ← deref (arena s) u0;
  next ← idx (forward n0) 0;
  found ← hit (arena s) next key;
  match found with
  | Some l =>
      Ok (mkSkiplist (alter (set_value value deleted) l (arena s))
            (head s) (maxLevel s) (currTopLevel s) (slength s) (comparator s))
  | None =>
      let randomLevel := generateRandomLevel coins (maxLevel s) in
      update' ← raise_update (randomLevel - currTopLevel s) (currTopLevel s) (head s) update;
      let newNode := length (arena s) in
      a ← link randomLevel 0 newNode update'
            (arena s ++ [mkNode key value deleted (replicate randomLevel None)]);
      Ok (mkSkiplist a (head s) (maxLevel s) (Nat.max (currTopLevel s) randomLevel)
            (slength s + 1) (comparator s))
  end.

Definition Insert (s : Skiplist) (coins : list bool) (key : Key) (value : bytes) : outcome Skiplist :=
  insert s coins key value false.

Definition Delete (s : Skiplist) (coins : list bool) (key : Key) : outcome Skiplist :=
  insert s coins key [] true.

(** The descent of [Search], which records no predecessors. *)
Fixpoint search_from (s : Skiplist) (key : Key) (levels : nat) (current : loc) : outcome loc :=
  match levels with
  | O => Ok current
  | S level =>
      current' ← walk (walk_fuel s) s key level current;
      search_from s key level current'
  end.

Definition Search (s : Skiplist) (key : Key) : outcome (option loc) :=
  current ← search_from s key (currTopLevel s) (head s);
  n ← deref (arena s) (Some current);
  next ← idx (forward n) 0;
  hit (arena s) next key.

(** [(value, found, deleted)] *)
Definition Lookup (s : Skiplist) (key : Key) : outcome (bytes * bool * bool) :=
  found ← Search s key;
  match found with
  | None => Ok ([], false, false)
  | Some _ => n ← deref (arena s) found; Ok (nValue n, true, nDeleted n)
  end.

(** ** Iterators

    An iterator is the [current] pointer; it reads the skiplist it was made from. *)
Definition Iterator : Type := option loc.

Definition iterator (s : Skiplist) : outcome Iterator :=
  n ← deref (arena s) (Some (head s)); idx (forward n) 0.

Definition Valid (it : Iterator) : bool := bool_decide (is_Some it).

Definition Next (s : Skiplist) (it : Iterator) : outcome Iterator :=
  match it with
  | None => Ok None
  | Some _ => n ← deref (arena s) it; idx (forward n) 0
  end.

Definition Entry (s : Skiplist) (it : Iterator) : outcome (Key * bytes * bool) :=
  match it with
  | None => Ok (zeroKey, [], false)
  | Some _ => n ← deref (arena s) it; Ok (nKey n, nValue n, nDeleted n)
  end.

Example insert_demo :
  (s1 ← Insert (NewSkipList 4) [true; true] (mkKey 1 5) [x01];
   s2 ← Insert s1 [] (mkKey 1 3) [x02];
   s3 ← Delete s2 [true] (mkKey 0 9);
   s4 ← Insert s3 [true;true;true;true;true] (mkKey 1 3) [x03];
   r ← Lookup s4 (mkKey 1 3);
   d ← Lookup s4 (mkKey 0 9);
   it ← iterator s4;
   e ← Entry s4 it;
   Ok (r, d, e, slength s4)) =
  Ok ([x03], true, false, ([], true, true), (mkKey 0 9, [], true), 3).
Proof. vm_compute. reflexivity. Qed.

(** ** Representation invariant *)
Section proofs.
Local Open Scope nat_scope.
Implicit Types (a : list node) (s : Skiplist) (key : Key) (i : nat) (ls : list loc).

Definition fwd a (l : loc) : list (option loc) :=
  match a !! l with Some n => forward n | None => [] end.
Definition payload a (l : loc) : option (Key * (bytes * bool)) :=
  (λ n, (nKey n, (nValue n, nDeleted n))) <$> a !! l.
Definition key_of a (l : loc) : Key :=
  match a !! l with Some n => nKey n | None => zeroKey end.
Definition ht a (l : loc) : nat := length (fwd a l).

(** The first node of a chain taller than level [i], and the last. *)
Definition first_tall (h : loc → nat) i (ls : list loc) : option loc :=
  list.head (filter (λ l, i < h l) ls).
Definition last_tall (h : loc → nat) i (ls : list loc) : option loc :=
  last (filter (λ l, i < h l) ls).

(** [chain] is the order of the nodes at level 0, the head excluded. *)
Record wf s (chain : list loc) : Prop := {
  wf_cmp : comparator s = compare;
  wf_head : head s = 0;
  wf_top : 1 ≤ currTopLevel s ≤ maxLevel s;
  wf_head_height : ht (arena s) 0 = maxLevel s;
  wf_nodup : NoDup (0 :: chain);
  wf_heights : ∀ l, l ∈ chain → 1 ≤ ht (arena s) l ≤ currTopLevel s;
  wf_sorted : StronglySorted (λ l l', klt (key_of (arena s) l) (key_of (arena s) l')) chain;
  wf_links : ∀ A l B, 0 :: chain = A ++ l :: B → ∀ i, i < ht (arena s) l →
    fwd (arena s) l !! i = Some (first_tall (ht (arena s)) i B);
  wf_length : slength s = Z.of_nat (length chain)
}.

(** The bindings the skiplist holds, in key order. *)
Definition contents s (chain : list loc) : list (Key * (bytes * bool)) :=
  omap (payload (arena s)) chain.

Definition represents s (kvs : list (Key * (bytes * bool))) : Prop :=
  ∃ chain, wf s chain ∧ kvs = contents s chain.

(** *** Chains *)
Lemma first_tall_None h i ls : first_tall h i ls = None → ∀ l, l ∈ ls → ¬ i < h l.
Proof.
  unfold first_tall. rewrite head_None. intros Hf l Hl Hi.
  assert (l ∈ filter (λ l, i < h l) ls) as Hin by (by apply list_elem_of_filter).
  rewrite Hf in Hin. by apply elem_of_nil in Hin.
Qed.

Lemma first_tall_not h i ls : (∀ l, l ∈ ls → ¬ i < h l) → first_tall h i ls = None.
Proof.
  intros H. unfold first_tall. destruct (filter _ ls) as [|x xs] eqn:E; [done|].
  assert (x ∈ filter (λ l, i < h l) ls) as Hin by (rewrite E; left).
  apply list_elem_of_filter in Hin as [??]. naive_solver.
Qed.

Lemma first_tall_app h i (l1 l2 : list loc) :
  first_tall h i (l1 ++ l2) =
    match first_tall h i l1 with Some l => Some l | None => first_tall h i l2 end.
Proof. unfold first_tall. rewrite filter_app. by destruct (filter _ l1). Qed.

Lemma first_tall_Some h i ls d :
  first_tall h i ls = Some d →
  ∃ l1 l2, ls = l1 ++ d :: l2 ∧ i < h d ∧ ∀ l, l ∈ l1 → ¬ i < h l.
Proof.
  induction ls as [|x ls IH]; [done|]. unfold first_tall. rewrite filter_cons.
  case_decide as Hx.
  - intros [= ->]. exists [], ls. split_and!; [done..|]. by intros l ?%elem_of_nil.
  - intros (l1 & l2 & -> & ? & Hl)%IH. exists (x :: l1), l2. split_and!; [done..|].
    intros l [->|]%elem_of_cons; auto.
Qed.

Lemma first_tall_ext h h' i ls :
  (∀ l, l ∈ ls → h l = h' l) → first_tall h i ls = first_tall h' i ls.
Proof.
  intros H. unfold first_tall. f_equal.
  induction ls as [|x ls IH]; [done|]. rewrite !filter_cons, IH by set_solver.
  rewrite (H x) by set_solver. done.
Qed.

Lemma last_tall_mid h i (l1 l2 : list loc) u :
  i < h u → (∀ l, l ∈ l2 → ¬ i < h l) → last_tall h i (l1 ++ u :: l2) = Some u.
Proof.
  intros Hu Hl. unfold last_tall. rewrite filter_app, filter_cons, decide_True by done.
  destruct (filter _ l2) as [|x xs] eqn:E; [by rewrite last_snoc|].
  assert (x ∈ filter (λ l, i < h l) l2) as Hin by (rewrite E; left).
  apply list_elem_of_filter in Hin as [??]. naive_solver.
Qed.

Lemma last_tall_Some h i ls u :
  last_tall h i ls = Some u →
  ∃ l1 l2, ls = l1 ++ u :: l2 ∧ i < h u ∧ ∀ l, l ∈ l2 → ¬ i < h l.
Proof.
  induction ls as [|x ls IH] using rev_ind; [done|].
  unfold last_tall. rewrite filter_app, filter_cons, filter_nil. case_decide as Hx.
  - rewrite last_snoc. intros [= ->]. exists ls, []. split_and!; [done..|]. by intros l ?%elem_of_nil.
  - rewrite app_nil_r. intros (l1 & l2 & -> & ? & Hl)%IH. exists l1, (l2 ++ [x]).
    rewrite <-(assoc_L (++)). split_and!; [done..|].
    intros l [?|?%list_elem_of_singleton]%elem_of_app; [auto|congruence].
Qed.

(** The two ways a split point falls in [l1 ++ l2]. *)
Lemma split_cases (A B l1 l2 : list loc) l :
  l1 ++ l2 = A ++ l :: B →
  (∃ B', l1 = A ++ l :: B' ∧ B = B' ++ l2) ∨ (∃ A', A = l1 ++ A' ∧ l2 = A' ++ l :: B).
Proof.
  intros [(k & -> & Hk)|(k & -> & Hk)]%app_eq_inv; [|right; eauto].
  destruct k as [|x k]; simplify_eq/=; [|left; eauto].
  right. exists []. by rewrite !app_nil_r.
Qed.

Lemma NoDup_split_unique (l A B A' B' : list loc) x :
  NoDup l → l = A ++ x :: B → l = A' ++ x :: B' → A = A' ∧ B = B'.
Proof.
  intros Hnd -> H. revert A' H Hnd.
  induction A as [|y A IH]; intros [|y' A'] H Hnd; simplify_eq/=; [done|..].
  - apply NoDup_cons in Hnd as [[]%not_elem_of_app _]. set_solver.
  - apply NoDup_cons in Hnd as [Hn _]. set_solver.
  - apply NoDup_cons in Hnd as [_ Hnd]. destruct (IH A') as [-> ->]; auto.
Qed.

Lemma ht_lookup a l i : i < ht a l → ∃ n, a !! l = Some n ∧ forward n = fwd a l.
Proof. unfold ht, fwd. destruct (a !! l) as [n|]; [eauto|simpl; lia]. Qed.

Lemma payload_key a l kv : payload a l = Some kv → key_of a l = kv.1.
Proof. unfold payload, key_of. destruct (a !! l); simpl; naive_solver. Qed.

Lemma chain_valid s chain l :
  wf s chain → l ∈ 0 :: chain → ∃ n, arena s !! l = Some n ∧ forward n = fwd (arena s) l.
Proof.
  intros Hwf [->|Hl]%elem_of_cons; apply (ht_lookup _ _ 0).
  - rewrite (wf_head_height _ _ Hwf). pose proof (wf_top _ _ Hwf). lia.
  - pose proof (wf_heights _ _ Hwf l Hl). lia.
Qed.

(** The fuel of [walk] covers every chain. *)
Lemma chain_short s chain : wf s chain → length (0 :: chain) ≤ length (arena s).
Proof.
  intros Hwf. trans (length (seq 0 (length (arena s)))); [|by rewrite length_seq].
  apply submseteq_length, NoDup_submseteq; [apply (wf_nodup _ _ Hwf)|].
  intros l Hl. apply elem_of_seq.
  destruct (chain_valid _ _ _ Hwf Hl) as (n & Hn & _). apply lookup_lt_Some in Hn. lia.
Qed.

Lemma sorted_split (f : loc → Key) key ls :
  StronglySorted (λ l l', klt (f l) (f l')) ls →
  ∃ P Q, ls = P ++ Q ∧ (∀ l, l ∈ P → klt (f l) key) ∧ (∀ l, l ∈ Q → ¬ klt (f l) key).
Proof.
  induction 1 as [|x ls Hs (P & Q & -> & HP & HQ) Hall].
  { exists [], []. split_and!; [done|set_solver..]. }
  rewrite Forall_forall in Hall. destruct (decide (klt (f x) key)) as [Hx|Hx].
  - exists (x :: P), Q. split_and!; [done|set_solver..].
  - exists [], (x :: P ++ Q). split_and!; [done|set_solver|].
    intros l [->|Hl]%elem_of_cons; [done|]. intros Hl'. apply Hx. by trans (f l); [apply Hall|].
Qed.

Lemma split_tail_elem (x c d : loc) (ls A B : list loc) : x :: ls = A ++ c :: B → d ∈ B → d ∈ ls.
Proof.
  intros H Hd. destruct A as [|y A]; injection H as _ ->; [done|].
  apply elem_of_app. right. by right.
Qed.

(** *** Descending towards a key *)
Section descent.
Context (s : Skiplist) (P Q : list loc) (key : Key).
Context (Hwf : wf s (P ++ Q)).
Context (HP : ∀ l, l ∈ P → klt (key_of (arena s) l) key).
Context (HQ : ∀ l, l ∈ Q → ¬ klt (key_of (arena s) l) key).

(** The predecessor at level [i] of the place of [key]. *)
Definition pred_at i (u : loc) : Prop := last_tall (ht (arena s)) i (0 :: P) = Some u.

#[global] Instance pred_at_dec i u : Decision (pred_at i u).
Proof. unfold pred_at. apply _. Defined.

Lemma fwd_before A c B i :
  0 :: P = A ++ c :: B → i < ht (arena s) c →
  fwd (arena s) c !! i = Some (first_tall (ht (arena s)) i (B ++ Q)).
Proof.
  intros HA Hi. apply (wf_links _ _ Hwf A); [|done].
  change (0 :: P ++ Q) with ((0 :: P) ++ Q). by rewrite HA, <-(assoc_L (++)).
Qed.

Lemma walk_spec fuel i A c B :
  0 :: P = A ++ c :: B → i < ht (arena s) c → length B < fuel →
  ∃ u, walk fuel s key i c = Ok u ∧ pred_at i u.
Proof.
  revert A c B. induction fuel as [|fuel IH]; intros A c B HA Hi Hf; [lia|].
  destruct (ht_lookup _ _ _ Hi) as (n & Hn & Hnf). simpl. unfold idx. rewrite Hn. simpl.
  rewrite Hnf, (fwd_before A c B i HA Hi), first_tall_app. simpl. rewrite (wf_cmp _ _ Hwf).
  assert (0 :: P = A ++ c :: B → (∀ l, l ∈ B → ¬ i < ht (arena s) l) → pred_at i c) as Hstop.
  { intros HA' HB. unfold pred_at. rewrite HA'. by apply last_tall_mid. }
  destruct (first_tall _ i B) as [d|] eqn:EB.
  - apply first_tall_Some in EB as (B1 & B2 & -> & Hd & HB1).
    destruct (ht_lookup _ _ _ Hd) as (m & Hm & _). simpl. rewrite Hm. simpl.
    assert (d ∈ P) as HdP.
    { eapply split_tail_elem; [exact HA|]. apply elem_of_app. right. by left. }
    specialize (HP d HdP). unfold key_of in HP. rewrite Hm in HP.
    unfold klt in HP. rewrite (proj2 (Z.ltb_lt _ _) HP).
    apply (IH (A ++ c :: B1) d B2); [by rewrite <-(assoc_L (++))|done|].
    rewrite length_app in Hf. simpl in Hf. lia.
  - pose proof (first_tall_None _ _ _ EB) as HB.
    destruct (first_tall _ i Q) as [d|] eqn:EQ; [|eauto].
    apply first_tall_Some in EQ as (Q1 & Q2 & HQ12 & Hd & _).
    destruct (ht_lookup _ _ _ Hd) as (m & Hm & _). simpl. rewrite Hm. simpl.
    assert (d ∈ Q) as HdQ by (rewrite HQ12; apply elem_of_app; right; left).
    specialize (HQ d HdQ). unfold key_of in HQ. rewrite Hm in HQ.
    unfold klt in HQ. rewrite (proj2 (Z.ltb_nlt _ _) HQ). eauto.
Qed.

Lemma walk_fuel_enough A c B : 0 :: P = A ++ c :: B → length B < walk_fuel s.
Proof.
  intros HA. pose proof (chain_short _ _ Hwf) as Hs. unfold walk_fuel.
  change (0 :: P ++ Q) with ((0 :: P) ++ Q) in Hs. rewrite HA, !length_app in Hs. simpl in Hs. lia.
Qed.

Lemma pred_at_split i u :
  pred_at i u → ∃ A B, 0 :: P = A ++ u :: B ∧ i < ht (arena s) u ∧ ∀ l, l ∈ B → ¬ i < ht (arena s) l.
Proof. apply last_tall_Some. Qed.

(** [descend] finishes, and finds the predecessor of every level it visits. *)
Lemma descend_spec levels c A B update :
  0 :: P = A ++ c :: B → levels ≤ ht (arena s) c → levels ≤ length update →
  ∃ c' update', descend s key levels c update = Ok (c', update') ∧
    search_from s key levels c = Ok c' ∧
    length update' = length update ∧
    (∀ j, j < levels → ∃ u, update' !! j = Some (Some u) ∧ pred_at j u) ∧
    (∀ j, levels ≤ j → update' !! j = update !! j) ∧
    (0 < levels → pred_at 0 c').
Proof.
  revert c A B update. induction levels as [|i IH]; intros c A B update HA Hc Hlen;
    cbn [descend search_from].
  { exists c, update. split_and!; [done..| |done|]; intros; lia. }
  destruct (walk_spec (walk_fuel s) i A c B HA) as (u & Hw & Hu);
    [lia|by eapply walk_fuel_enough|].
  rewrite Hw. cbn [mbind outcome_bind].
  unfold set_idx. rewrite decide_True by lia. cbn [mbind outcome_bind].
  destruct (pred_at_split _ _ Hu) as (A' & B' & HA' & Hiu & _).
  destruct (IH u A' B' (<[i:=Some u]> update)) as (c' & upd' & Hd & Hs & Hl & Hlo & Hhi & Hz);
    [done|lia|rewrite length_insert; lia|].
  exists c', upd'. rewrite length_insert in Hl. split_and!; [done..| | |].
  - intros j Hj. destruct (decide (j = i)) as [->|]; [|apply Hlo; lia].
    exists u. split; [|done]. rewrite Hhi by lia. apply list_lookup_insert_eq. lia.
  - intros j Hj. rewrite Hhi by lia. apply list_lookup_insert_ne. lia.
  - intros _. destruct i; [|apply Hz; lia]. simpl in Hd. by simplify_eq.
Qed.

Lemma descend_top :
  ∃ c update, descend s key (currTopLevel s) (head s) (replicate (maxLevel s) None) = Ok (c, update) ∧
    search_from s key (currTopLevel s) (head s) = Ok c ∧
    length update = maxLevel s ∧
    (∀ j, j < currTopLevel s → ∃ u, update !! j = Some (Some u) ∧ pred_at j u) ∧
    pred_at 0 c ∧ update !! 0 = Some (Some c).
Proof.
  pose proof (wf_top _ _ Hwf) as Ht.
  destruct (descend_spec (currTopLevel s) (head s) [] P (replicate (maxLevel s) None))
    as (c & upd & Hd & Hs & Hl & Hlo & _ & Hz).
  - by rewrite (wf_head _ _ Hwf).
  - rewrite (wf_head _ _ Hwf), (wf_head_height _ _ Hwf). lia.
  - rewrite length_replicate. lia.
  - rewrite length_replicate in Hl. specialize (Hz ltac:(lia)).
    destruct (Hlo 0 ltac:(lia)) as (u & Hu & Hpu). unfold pred_at in *.
    exists c, upd. split_and!; [done..|]. congruence.
Qed.

(** The level-0 successor of the predecessor is the first node not below [key]. *)
Lemma pred_next c :
  pred_at 0 c → ∃ n, arena s !! c = Some n ∧ forward n !! 0 = Some (list.head Q).
Proof using Hwf.
  clear HP HQ. intros (A & B & HA & Hc & HB)%pred_at_split.
  destruct (ht_lookup _ _ _ Hc) as (n & Hn & Hf). exists n. split; [done|].
  rewrite Hf, (fwd_before A c B 0 HA Hc), first_tall_app, first_tall_not by done. f_equal.
  destruct Q as [|q Q']; [done|]. unfold first_tall. rewrite filter_cons, decide_True; [done|].
  assert (q ∈ P ++ q :: Q') as Hq by (apply elem_of_app; right; left).
  pose proof (wf_heights _ _ Hwf q Hq). lia.
Qed.

Lemma pred_fwd i u : pred_at i u → fwd (arena s) u !! i = Some (first_tall (ht (arena s)) i Q).
Proof.
  intros (A & B & HA & Hu & HB)%pred_at_split.
  by rewrite (fwd_before A u B i HA Hu), first_tall_app, first_tall_not by done.
Qed.

Lemma pred_at_top i : currTopLevel s ≤ i < maxLevel s → pred_at i 0.
Proof.
  intros Hi. unfold pred_at. apply (last_tall_mid _ _ [] P 0).
  - rewrite (wf_head_height _ _ Hwf). lia.
  - intros l Hl. assert (l ∈ P ++ Q) as Hl' by (apply elem_of_app; by left).
    pose proof (wf_heights _ _ Hwf l Hl'). lia.
Qed.

Lemma pred_at_old i u : pred_at i u → u < length (arena s) ∧ i < ht (arena s) u.
Proof.
  intros (A & B & HA & Hu & HB)%pred_at_split. split; [|done].
  destruct (ht_lookup _ _ _ Hu) as (n & Hn & _). by apply lookup_lt_Some in Hn.
Qed.
End descent.

(** *** Splicing in a node *)
Lemma set_forward_spec a l i p :
  i < ht a l →
  ∃ a', set_forward a l i p = Ok a' ∧ length a' = length a ∧
    (∀ l', payload a' l' = payload a l') ∧
    (∀ l', ht a' l' = ht a l') ∧
    (∀ l' j, fwd a' l' !! j = if decide (l = l' ∧ i = j) then Some p else fwd a l' !! j).
Proof.
  intros Hi. destruct (ht_lookup _ _ _ Hi) as (n & Hn & Hf).
  unfold set_forward, set_idx. simpl. rewrite Hn. simpl.
  rewrite decide_True by (unfold ht in Hi; congruence). simpl.
  assert (l < length a) as Hl by (by apply lookup_lt_Some in Hn).
  eexists. split; [done|]. rewrite length_insert. split; [done|].
  unfold payload, ht, fwd. split_and!; intros l'; destruct (decide (l = l')) as [<-|Hne].
  - rewrite list_lookup_insert_eq, Hn by done. done.
  - by rewrite list_lookup_insert_ne by done.
  - rewrite list_lookup_insert_eq, Hn by done. simpl. by rewrite length_insert.
  - by rewrite list_lookup_insert_ne by done.
  - intros j. rewrite list_lookup_insert_eq, Hn by done. simpl.
    unfold ht, fwd in Hi. rewrite Hn in Hi.
    destruct (decide (i = j)) as [<-|].
    + rewrite decide_True by done. by apply list_lookup_insert_eq.
    + rewrite decide_False by naive_solver. by apply list_lookup_insert_ne.
  - intros j. rewrite decide_False by naive_solver. by rewrite list_lookup_insert_ne by done.
Qed.

Lemma raise_update_spec n from h update :
  from + n ≤ length update →
  ∃ update', raise_update n from h update = Ok update' ∧ length update' = length update ∧
    ∀ j, update' !! j = if decide (from ≤ j < from + n) then Some (Some h) else update !! j.
Proof.
  revert from update. induction n as [|n IH]; intros from update Hlen; simpl.
  { exists update. split_and!; [done..|]. intros j. by rewrite decide_False by lia. }
  unfold set_idx. rewrite decide_True by lia. simpl.
  destruct (IH (S from) (<[from:=Some h]> update)) as (upd' & -> & Hl & Hj).
  { rewrite length_insert. lia. }
  exists upd'. rewrite length_insert in Hl. split_and!; [done..|].
  intros j. rewrite Hj. destruct (decide (from = j)) as [<-|].
  - rewrite decide_False, decide_True by lia. apply list_lookup_insert_eq. lia.
  - rewrite list_lookup_insert_ne by done. repeat case_decide; try done; lia.
Qed.

Lemma generateRandomLevel_bounds coins m :
  1 ≤ m → 1 ≤ generateRandomLevel coins m ≤ m.
Proof.
  intros Hm. unfold generateRandomLevel.
  assert (∀ level, 1 ≤ level ≤ m → 1 ≤ generateRandomLevel_loop coins level m ≤ m); [|auto].
  induction coins as [|[] coins IH]; intros level Hl; simpl; [lia| |lia].
  destruct (Nat.ltb_spec level m); [apply IH; lia|lia].
Qed.

Section splice.
Context (s : Skiplist) (P Q : list loc) (nd : node).
Context (Hwf : wf s (P ++ Q)).
Let new : loc := length (arena s).
Let start : list node := arena s ++ [nd].

(** After the levels below [k] are spliced. *)
Definition spliced k a : Prop :=
  length a = length start ∧
  (∀ l, payload a l = payload start l) ∧
  (∀ l, ht a l = ht start l) ∧
  (∀ l j, fwd a l !! j =
    if decide (l = new) then
      if decide (j < k) then Some (first_tall (ht (arena s)) j Q) else forward nd !! j
    else if decide (j < k ∧ pred_at s P j l) then Some (Some new) else fwd (arena s) l !! j).

Lemma start_old l : l < new → start !! l = arena s !! l.
Proof. intros Hl. by apply lookup_app_l. Qed.

Lemma start_fwd l : fwd start l = if decide (l = new) then forward nd else fwd (arena s) l.
Proof.
  unfold fwd. case_decide as Hl; [subst l; unfold start, new; by rewrite list_lookup_middle|].
  destruct (decide (l < new)); [by rewrite start_old|].
  rewrite !lookup_ge_None_2; [done|unfold new in *; lia|].
  unfold start, new in *. rewrite length_app. simpl. lia.
Qed.

Lemma spliced_start : spliced 0 start.
Proof.
  split_and!; [done..|]. intros l j. rewrite start_fwd. repeat case_decide; done || lia.
Qed.

Lemma link_spec n k update a :
  spliced k a → k + n = length (forward nd) →
  (∀ j, j < k + n → ∃ u, update !! j = Some (Some u) ∧ pred_at s P j u) →
  ∃ a', link n k new update a = Ok a' ∧ spliced (k + n) a'.
Proof.
  revert k a. induction n as [|n IH]; intros k a (Hlen & Hpay & Hht & Hfwd) Hk Hupd; simpl.
  { rewrite Nat.add_0_r. exists a. done. }
  destruct (Hupd k ltac:(lia)) as (u & Hu & Hpu).
  destruct (pred_at_old _ _ _ _ Hpu) as [Hold Hku].
  unfold idx. rewrite Hu. cbn [mbind outcome_bind].
  assert (u ≠ new) as Hune by (unfold new; lia).
  assert (k < ht a u) as Hau.
  { rewrite Hht. unfold ht. rewrite start_fwd, decide_False by done. done. }
  assert (k < ht a new) as Hanew.
  { rewrite Hht. unfold ht. rewrite start_fwd, decide_True by done. lia. }
  destruct (ht_lookup _ _ _ Hau) as (un & Hun & Hunf). cbn [deref].
  rewrite Hun. cbn [mbind outcome_bind].
  rewrite Hunf, Hfwd, decide_False, decide_False, (pred_fwd _ _ _ Hwf) by (done || lia).
  cbn [mbind outcome_bind].
  destruct (set_forward_spec a new k (first_tall (ht (arena s)) k Q) Hanew)
    as (a1 & -> & Hl1 & Hp1 & Hh1 & Hf1). cbn [mbind outcome_bind].
  destruct (set_forward_spec a1 u k (Some new)) as (a2 & -> & Hl2 & Hp2 & Hh2 & Hf2);
    [by rewrite Hh1|]. cbn [mbind outcome_bind].
  replace (k + S n) with (S k + n) in * by lia. apply IH; [|lia|done].
  split_and!; [congruence|congruence|congruence|].
  intros l j. rewrite Hf2, Hf1, Hfwd.
  destruct (decide (l = new)) as [->|Hl].
  - rewrite decide_False by naive_solver. repeat case_decide; naive_solver by lia.
  - destruct (decide (u = l ∧ k = j)) as [[<- <-]|Hn].
    + by rewrite decide_True by (split; [lia|done]).
    + rewrite decide_False by naive_solver.
      destruct (decide (j < k ∧ pred_at s P j l)) as [[??]|Hnk];
        [by rewrite decide_True by (split; [lia|done])|].
      rewrite decide_False; [done|]. intros [Hj Hpl].
      destruct (decide (j = k)) as [->|]; [|apply Hnk; split; [lia|done]].
      apply Hn. split; [|done]. unfold pred_at in *. congruence.
Qed.

Context (k : nat) (a : list node) (Ha : spliced k a) (Hk : k = length (forward nd)).

Lemma chain_old l : l ∈ 0 :: P ++ Q → l < new.
Proof. intros (n & Hn & _)%(chain_valid _ _ _ Hwf). by apply lookup_lt_Some in Hn. Qed.

Lemma spliced_old l : l < new →
  payload a l = payload (arena s) l ∧ ht a l = ht (arena s) l ∧ key_of a l = key_of (arena s) l.
Proof.
  intros Hl. destruct Ha as (_ & Hpay & Hht & _).
  assert (payload a l = payload (arena s) l) as Hp.
  { rewrite Hpay. unfold payload. by rewrite start_old. }
  split_and!; [done| |].
  - rewrite Hht. unfold ht. rewrite start_fwd, decide_False; [done|lia].
  - unfold payload, key_of in *. destruct (a !! l), (arena s !! l); naive_solver.
Qed.

Lemma spliced_new :
  payload a new = Some (nKey nd, (nValue nd, nDeleted nd)) ∧ ht a new = k ∧ key_of a new = nKey nd.
Proof.
  destruct Ha as (_ & Hpay & Hht & _).
  assert (start !! new = Some nd) as Hnew by (unfold start, new; by rewrite list_lookup_middle).
  assert (payload a new = Some (nKey nd, (nValue nd, nDeleted nd))) as Hp.
  { rewrite Hpay. unfold payload. by rewrite Hnew. }
  split_and!; [done| |by rewrite (payload_key _ _ _ Hp)].
  rewrite Hht. unfold ht. by rewrite start_fwd, decide_True.
Qed.

Lemma spliced_first_tall i ls :
  (∀ l, l ∈ ls → l < new) → first_tall (ht a) i ls = first_tall (ht (arena s)) i ls.
Proof. intros H. apply first_tall_ext. intros l Hl. by apply spliced_old, H. Qed.

Lemma spliced_links A l B i :
  0 :: P ++ new :: Q = A ++ l :: B → i < ht a l →
  fwd a l !! i = Some (first_tall (ht a) i B).
Proof.
  intros HA Hi. pose proof (wf_nodup _ _ Hwf) as Hnd.
  assert (∀ x, x ∈ 0 :: P → x < new) as HoldP.
  { intros x Hx. apply chain_old. rewrite app_comm_cons. apply elem_of_app. by left. }
  assert (∀ x, x ∈ Q → x < new) as HoldQ.
  { intros x Hx. apply chain_old. rewrite app_comm_cons. apply elem_of_app. by right. }
  destruct spliced_new as (_ & Hnewht & _).
  assert (∀ j ls, first_tall (ht a) j (new :: ls) =
    if decide (j < k) then Some new else first_tall (ht a) j ls) as Hcons.
  { intros j ls. unfold first_tall. rewrite filter_cons, Hnewht. by case_decide. }
  destruct Ha as (_ & _ & _ & Hfwd). rewrite Hfwd.
  rewrite app_comm_cons in HA. apply split_cases in HA as [(B' & HA & ->)|(A' & -> & HA)].
  - assert (l < new) as Hl by (apply HoldP; rewrite HA; apply elem_of_app; right; left).
    destruct (spliced_old l Hl) as (_ & Hhl & _). rewrite Hhl in Hi.
    assert (∀ x, x ∈ B' → x < new) as HoldB.
    { intros x Hx. apply HoldP. rewrite HA. apply elem_of_app. right. by right. }
    rewrite decide_False by lia. rewrite (fwd_before _ _ _ Hwf A l B' i HA Hi).
    rewrite !first_tall_app, Hcons, !spliced_first_tall by done.
    destruct (first_tall _ i B') as [d|] eqn:EB.
    + rewrite decide_False; [done|]. intros [_ (A2 & B2 & HA2 & _ & Hno)%pred_at_split].
      assert (NoDup (0 :: P)) as HndP by (rewrite app_comm_cons in Hnd; by apply NoDup_app in Hnd as (? & _ & _)).
      destruct (NoDup_split_unique _ _ _ _ _ _ HndP HA HA2) as [_ <-].
      apply first_tall_Some in EB as (B3 & B4 & -> & Hd & _).
      apply (Hno d); [|done]. apply elem_of_app. right. left.
    + assert (pred_at s P i l) as Hp.
      { unfold pred_at. rewrite HA. apply last_tall_mid; [done|]. by apply first_tall_None. }
      destruct (decide (i < k)); [by rewrite decide_True|]. by rewrite decide_False by naive_solver.
  - destruct A' as [|x A']; injection HA as <- HA.
    + subst B. rewrite decide_True, decide_True, spliced_first_tall by (done || lia). done.
    + assert (l ∈ Q) as Hl by (rewrite HA; apply elem_of_app; right; left).
      specialize (HoldQ l Hl) as Hlt. destruct (spliced_old l Hlt) as (_ & Hhl & _).
      rewrite Hhl in Hi. rewrite decide_False by lia. rewrite decide_False.
      * rewrite spliced_first_tall.
        -- apply (wf_links _ _ Hwf (0 :: P ++ A')); [|done]. simpl. by rewrite HA, <-(assoc_L (++)).
        -- intros x' Hx'. apply HoldQ. rewrite HA. apply elem_of_app. right. by right.
      * intros [_ (A2 & B2 & HA2 & _)%pred_at_split].
        rewrite app_comm_cons in Hnd. apply NoDup_app in Hnd as (_ & Hdisj & _).
        apply (Hdisj l); [|done]. rewrite HA2. apply elem_of_app. right. left.
Qed.

Lemma spliced_wf :
  1 ≤ k ≤ maxLevel s →
  (∀ l, l ∈ P → klt (key_of (arena s) l) (nKey nd)) →
  (∀ l, l ∈ Q → klt (nKey nd) (key_of (arena s) l)) →
  wf (mkSkiplist a (head s) (maxLevel s) (Nat.max (currTopLevel s) k) (slength s + 1) (comparator s))
     (P ++ new :: Q).
Proof.
  intros Hk1 HP HQ. pose proof chain_old as Hold. pose proof (wf_top _ _ Hwf).
  destruct spliced_new as (_ & Hnewht & Hnewkey).
  assert (∀ x, x ∈ P ∨ x ∈ Q → x ∈ 0 :: P ++ Q) as Hin.
  { intros x Hx. right. by apply elem_of_app. }
  split; cbn [arena head maxLevel currTopLevel slength comparator].
  - apply Hwf.
  - apply Hwf.
  - lia.
  - destruct (spliced_old 0) as (_ & -> & _); [apply Hold; left|apply Hwf].
  - rewrite app_comm_cons. rewrite <-(Permutation_middle (0 :: P) Q new).
    apply NoDup_cons. split; [|apply Hwf]. intros Hn%Hold. lia.
  - intros l [Hl|[->|Hl]%elem_of_cons]%elem_of_app; [|lia|].
    + destruct (spliced_old l) as (_ & -> & _); [apply Hold, Hin; by left|].
      assert (l ∈ P ++ Q) as Hl' by (apply elem_of_app; by left).
      pose proof (wf_heights _ _ Hwf l Hl'). lia.
    + destruct (spliced_old l) as (_ & -> & _); [apply Hold, Hin; by right|].
      assert (l ∈ P ++ Q) as Hl' by (apply elem_of_app; by right).
      pose proof (wf_heights _ _ Hwf l Hl'). lia.
  - assert (∀ x, x ∈ P ∨ x ∈ Q → key_of a x = key_of (arena s) x) as Hkey.
    { intros x Hx. by apply spliced_old, Hold, Hin. }
    pose proof (wf_sorted _ _ Hwf) as Hs. apply StronglySorted_app in Hs as (HsPQ & HsP & HsQ).
    assert (∀ ls, (∀ x, x ∈ ls → x ∈ P ∨ x ∈ Q) →
      StronglySorted (λ l l', klt (key_of (arena s) l) (key_of (arena s) l')) ls →
      StronglySorted (λ l l', klt (key_of a l) (key_of a l')) ls) as Htr.
    { intros ls Hls. induction 1 as [|x ls Hs IH Hall]; constructor; [apply IH; set_solver|].
      rewrite Forall_forall in *. intros y Hy. rewrite !Hkey by set_solver. auto. }
    apply StronglySorted_app. split_and!.
    + intros x y Hx [->|Hy]%elem_of_cons.
      * rewrite Hkey, Hnewkey by tauto. auto.
      * rewrite !Hkey by tauto. auto.
    + apply Htr; [tauto|done].
    + constructor; [apply Htr; [tauto|done]|]. apply Forall_forall. intros y Hy.
      rewrite Hnewkey, Hkey by tauto. auto.
  - intros A l B HA i Hi. by apply (spliced_links A).
  - rewrite (wf_length _ _ Hwf), !length_app. simpl. lia.
Qed.
End splice.

(** *** Contents *)
Lemma omap_payload_ext a a' (ls : list loc) :
  (∀ l, l ∈ ls → payload a l = payload a' l) → omap (payload a) ls = omap (payload a') ls.
Proof.
  intros H. apply list_omap_ext, Forall_Forall2_diag, Forall_forall, H.
Qed.

Lemma contents_Forall s ls (R : Key → Prop) :
  (∀ l, l ∈ ls → R (key_of (arena s) l)) → Forall (λ kv, R kv.1) (contents s ls).
Proof.
  intros H. apply Forall_forall. intros kv (l & Hl & Hp)%list_elem_of_omap.
  rewrite <-(payload_key _ _ _ Hp). auto.
Qed.

Lemma contents_app s P Q : contents s (P ++ Q) = contents s P ++ contents s Q.
Proof. apply omap_app. Qed.

Lemma contents_cons s l ls :
  (∃ n, arena s !! l = Some n) →
  ∃ n, arena s !! l = Some n ∧
    contents s (l :: ls) = (nKey n, (nValue n, nDeleted n)) :: contents s ls.
Proof.
  intros [n Hn]. exists n. split; [done|]. unfold contents. simpl.
  unfold payload at 1. by rewrite Hn.
Qed.

Lemma represents_sorted s kvs : represents s kvs → ksorted kvs.
Proof.
  intros (chain & Hwf & ->). unfold ksorted, contents.
  pose proof (wf_sorted _ _ Hwf) as Hs.
  assert (∀ l, l ∈ chain → ∃ n, arena s !! l = Some n) as Hv.
  { intros l Hl. destruct (chain_valid _ _ l Hwf) as (n & Hn & _); [by right|eauto]. }
  clear Hwf. induction Hs as [|x ls Hs IH Hall]; [constructor|].
  destruct (contents_cons s x ls) as (n & Hn & Hc); [apply Hv; left|].
  unfold contents in Hc. rewrite Hc. simpl.
  constructor; [apply IH; intros l Hl; apply Hv; by right|].
  apply Forall_fmap. apply (contents_Forall s ls (λ k, klt (nKey n) k)).
  intros l Hl. rewrite Forall_forall in Hall. specialize (Hall l Hl).
  unfold key_of at 1 in Hall. by rewrite Hn in Hall.
Qed.

Lemma represents_length s kvs : represents s kvs → slength s = Z.of_nat (length kvs).
Proof.
  intros (chain & Hwf & ->). rewrite (wf_length _ _ Hwf). f_equal.
  assert (∀ l, l ∈ chain → ∃ n, arena s !! l = Some n) as Hv.
  { intros l Hl. destruct (chain_valid _ _ l Hwf) as (n & Hn & _); [by right|eauto]. }
  clear Hwf. induction chain as [|x ls IH]; [done|].
  destruct (contents_cons s x ls) as (n & Hn & ->); [apply Hv; left|].
  simpl. rewrite IH; [done|]. intros l Hl. apply Hv. by right.
Qed.

(** What [hit] finds at the first node not below [key]. *)
Lemma hit_spec s P Q key :
  wf s (P ++ Q) →
  ∃ r, hit (arena s) (list.head Q) key = Ok r ∧
    match r with
    | Some l => ∃ Q', Q = l :: Q' ∧ key_of (arena s) l = key
    | None => Forall (λ l, key_of (arena s) l ≠ key) (option_list (list.head Q))
    end.
Proof.
  intros Hwf. destruct Q as [|q Q']; simpl; [by exists None; repeat constructor|].
  destruct (chain_valid _ _ q Hwf) as (n & Hn & _).
  { right. apply elem_of_app. right. left. }
  rewrite Hn. simpl. eexists. split; [done|].
  assert (key_of (arena s) q = nKey n) as Hk by (unfold key_of; by rewrite Hn).
  case_decide; [eexists; split; [done|congruence]|]. repeat constructor. congruence.
Qed.

(** The chain around the place of [key], with the bindings on both sides. *)
Lemma wf_split s chain key :
  wf s chain →
  ∃ P Q, chain = P ++ Q ∧
    (∀ l, l ∈ P → klt (key_of (arena s) l) key) ∧
    (∀ l, l ∈ Q → ¬ klt (key_of (arena s) l) key) ∧
    contents s chain = contents s P ++ contents s Q ∧
    Forall (λ kv, klt kv.1 key) (contents s P).
Proof.
  intros Hwf. destruct (sorted_split _ key _ (wf_sorted _ _ Hwf)) as (P & Q & -> & HP & HQ).
  exists P, Q. split_and!; [done..|apply contents_app|].
  by apply (contents_Forall s P (λ k, klt k key)).
Qed.

Lemma not_hit_above s P Q key :
  wf s (P ++ Q) → (∀ l, l ∈ Q → ¬ klt (key_of (arena s) l) key) →
  Forall (λ l, key_of (arena s) l ≠ key) (option_list (list.head Q)) →
  ∀ l, l ∈ Q → klt key (key_of (arena s) l).
Proof.
  intros Hwf HQ Hne. destruct Q as [|q Q']; [by intros l ?%elem_of_nil|].
  apply Forall_cons_1 in Hne as [Hne _].
  destruct (not_klt_cases (key_of (arena s) q) key) as [|Hq]; [apply HQ; left|congruence|].
  pose proof (wf_sorted _ _ Hwf) as Hs. apply StronglySorted_app in Hs as (_ & _ & Hs).
  apply StronglySorted_inv in Hs as [_ Hall]. rewrite Forall_forall in Hall.
  intros l [->|Hl]%elem_of_cons; [done|]. trans (key_of (arena s) q); [done|]. by apply Hall.
Qed.

(** Overwriting the payload of a node keeps the shape. *)
Lemma set_value_wf s chain q value deleted :
  wf s chain →
  wf (mkSkiplist (alter (set_value value deleted) q (arena s)) (head s) (maxLevel s)
        (currTopLevel s) (slength s) (comparator s)) chain.
Proof.
  intros Hwf. set (a := alter _ q (arena s)).
  assert (∀ l, fwd a l = fwd (arena s) l) as Hf.
  { intros l. unfold fwd, a. destruct (decide (q = l)) as [<-|].
    - rewrite list_lookup_alter_eq. by destruct (arena s !! q).
    - by rewrite list_lookup_alter_ne. }
  assert (∀ l, key_of a l = key_of (arena s) l) as Hk.
  { intros l. unfold key_of, a. destruct (decide (q = l)) as [<-|].
    - rewrite list_lookup_alter_eq. by destruct (arena s !! q).
    - by rewrite list_lookup_alter_ne. }
  assert (∀ l, ht a l = ht (arena s) l) as Hh by (intros l; unfold ht; by rewrite Hf).
  destruct Hwf as [? ? ? ? ? ? Hs Hl ?]. split; cbn [arena head maxLevel currTopLevel slength comparator];
    try done.
  - by rewrite Hh.
  - intros l ?. rewrite Hh. auto.
  - clear -Hs Hk. induction Hs as [|x ls Hs IH Hall]; constructor; [done|].
    eapply Forall_impl; [exact Hall|]. intros y. cbn. by rewrite !Hk.
  - intros A l B HA i Hi. rewrite Hh in Hi. rewrite Hf, (Hl A l B HA i Hi).
    f_equal. by apply first_tall_ext.
Qed.

Lemma set_value_contents s P q Q value deleted :
  wf s (P ++ q :: Q) →
  contents (mkSkiplist (alter (set_value value deleted) q (arena s)) (head s) (maxLevel s)
        (currTopLevel s) (slength s) (comparator s)) (P ++ q :: Q) =
  contents s P ++ (key_of (arena s) q, (value, deleted)) :: contents s Q.
Proof.
  intros Hwf. rewrite contents_app. unfold contents. cbn [arena].
  pose proof (wf_nodup _ _ Hwf) as Hnd.
  apply NoDup_cons in Hnd as [_ Hnd]. apply NoDup_app in Hnd as (_ & HP & Hnd).
  apply NoDup_cons in Hnd as [HQ _].
  assert (∀ l, l ≠ q → payload (alter (set_value value deleted) q (arena s)) l = payload (arena s) l) as Hne.
  { intros l Hl. unfold payload. by rewrite list_lookup_alter_ne. }
  f_equal.
  - apply omap_payload_ext. intros l Hl. apply Hne. intros ->. apply (HP q Hl). left.
  - destruct (chain_valid _ _ q Hwf) as (n & Hn & _); [right; apply elem_of_app; right; left|].
    simpl. unfold payload at 1. rewrite list_lookup_alter_eq, Hn. simpl.
    unfold key_of. rewrite Hn. f_equal. apply omap_payload_ext.
    intros l Hl. apply Hne. by intros ->.
Qed.

(** Inserting or overwriting a binding: [insert] always succeeds and the result
    represents the updated association list, whatever level is drawn. *)
Lemma insert_represents s kvs coins key value deleted :
  represents s kvs →
  ∃ s', insert s coins key value deleted = Ok s' ∧
    represents s' (ainsert key (value, deleted) kvs).
Proof.
  intros (chain & Hwf & ->).
  destruct (wf_split s chain key Hwf) as (P & Q & -> & HP & HQ & Hc & HcP).
  rewrite Hc, ainsert_app by done.
  destruct (descend_top s P Q key Hwf HP HQ) as (c & upd & Hd & _ & Hlen & Hupd & Hc0 & Hupd0).
  destruct (pred_next s P Q Hwf c Hc0) as (n0 & Hn0 & Hnext).
  destruct (hit_spec s P Q key Hwf) as (r & Hr & Hhit).
  unfold insert. rewrite Hd. cbn [mbind outcome_bind].
  rewrite (idx_Some _ _ _ Hupd0). cbn [mbind outcome_bind deref].
  rewrite Hn0. cbn [mbind outcome_bind]. rewrite (idx_Some _ _ _ Hnext). cbn [mbind outcome_bind].
  rewrite Hr. cbn [mbind outcome_bind]. destruct r as [q|].
  - destruct Hhit as (Q' & -> & Hkq). eexists. split; [done|].
    eexists. split; [by apply set_value_wf|].
    rewrite set_value_contents by done. f_equal. rewrite Hkq.
    destruct (contents_cons s q Q') as (n & Hn & ->).
    { destruct (chain_valid _ _ q Hwf) as (n & Hn & _); [right; apply elem_of_app; right; left|eauto]. }
    unfold key_of in Hkq. rewrite Hn in Hkq. rewrite Hkq. by rewrite ainsert_same.
  - pose proof (wf_top _ _ Hwf) as Htop.
    destruct (generateRandomLevel_bounds coins (maxLevel s)) as [Hrl1 Hrl2]; [lia|].
    set (rl := generateRandomLevel coins (maxLevel s)) in *.
    destruct (raise_update_spec (rl - currTopLevel s) (currTopLevel s) (head s) upd)
      as (upd' & -> & _ & Hupd'); [lia|]. cbn [mbind outcome_bind].
    set (nd := mkNode key value deleted (replicate rl None)).
    destruct (link_spec s P Q nd Hwf rl 0 upd' _ (spliced_start s P Q nd)) as (a & -> & Ha).
    { simpl. by rewrite length_replicate. }
    { intros j Hj. rewrite Hupd'. case_decide.
      - exists 0. rewrite (wf_head _ _ Hwf). split; [done|]. apply (pred_at_top s P Q Hwf). lia.
      - apply Hupd. lia. }
    cbn [mbind outcome_bind]. eexists. split; [done|].
    pose proof (not_hit_above s P Q key Hwf HQ Hhit) as HQ'.
    exists (P ++ length (arena s) :: Q). split.
    + apply (spliced_wf s P Q nd Hwf rl a Ha); [simpl; by rewrite length_replicate|lia|done|done].
    + rewrite ainsert_fresh by (apply (contents_Forall s Q (λ k, klt key k)), HQ').
      rewrite contents_app. unfold contents. cbn [arena].
      assert (rl = length (forward nd)) as Hk by (simpl; by rewrite length_replicate).
      pose proof (spliced_old s P Q nd rl a Ha Hk) as Hold.
      pose proof (chain_old s P Q Hwf) as Hlt.
      destruct (spliced_new s P Q nd rl a Ha Hk) as (Hnew & _ & _).
      f_equal; [|csimpl; rewrite Hnew; f_equal];
        apply omap_payload_ext; intros l Hl; symmetry; apply Hold, Hlt; right; apply elem_of_app; tauto.
Qed.

Lemma NewSkipList_represents m : 1 ≤ m → represents (NewSkipList m) [].
Proof.
  intros Hm. exists []. split; [|done].
  assert (ht (arena (NewSkipList m)) 0 = m) as Hh.
  { unfold ht, fwd. simpl. by rewrite length_replicate. }
  split; simpl; try done; try lia.
  - apply NoDup_singleton.
  - by intros l ?%elem_of_nil.
  - constructor.
  - intros A l B HA i Hi. destruct A as [|x A]; simplify_eq/=; [|by destruct A].
    unfold fwd. simpl. rewrite lookup_replicate_2; [done|]. unfold NewSkipList in Hh. simpl in Hh. lia.
Qed.

Lemma Search_spec s P Q key :
  wf s (P ++ Q) →
  (∀ l, l ∈ P → klt (key_of (arena s) l) key) →
  (∀ l, l ∈ Q → ¬ klt (key_of (arena s) l) key) →
  Search s key = hit (arena s) (list.head Q) key.
Proof.
  intros Hwf HP HQ.
  destruct (descend_top s P Q key Hwf HP HQ) as (c & upd & _ & Hs & _ & _ & Hc0 & _).
  destruct (pred_next s P Q Hwf c Hc0) as (n0 & Hn0 & Hnext).
  unfold Search. rewrite Hs. cbn [mbind outcome_bind deref]. rewrite Hn0. cbn [mbind outcome_bind].
  unfold idx. by rewrite Hnext.
Qed.

(** [Lookup] is the lookup of the represented association list. *)
Lemma Lookup_represents s kvs key :
  represents s kvs →
  Lookup s key = Ok match alookup key kvs with
                    | Some (value, deleted) => (value, true, deleted)
                    | None => ([], false, false)
                    end.
Proof.
  intros (chain & Hwf & ->).
  destruct (wf_split s chain key Hwf) as (P & Q & -> & HP & HQ & Hc & HcP).
  rewrite Hc, alookup_app, alookup_None.
  2: { intros (kv & -> & Hkv)%list_elem_of_fmap. rewrite Forall_forall in HcP.
       by eapply klt_not_refl, HcP. }
  unfold Lookup. rewrite (Search_spec s P Q key Hwf HP HQ).
  destruct (hit_spec s P Q key Hwf) as (r & -> & Hhit). cbn [mbind outcome_bind].
  destruct r as [q|].
  - destruct Hhit as (Q' & -> & Hkq).
    destruct (contents_cons s q Q') as (n & Hn & ->).
    { destruct (chain_valid _ _ q Hwf) as (n & Hn & _); [right; apply elem_of_app; right; left|eauto]. }
    unfold key_of in Hkq. rewrite Hn in Hkq. simpl. rewrite Hn, decide_True by done. done.
  - rewrite alookup_None; [done|]. intros (kv & -> & Hkv)%list_elem_of_fmap.
    pose proof (not_hit_above s P Q kv.1 Hwf HQ Hhit) as HQ'.
    pose proof (contents_Forall s Q (λ k, klt kv.1 k) HQ') as Hall.
    rewrite Forall_forall in Hall. by eapply klt_not_refl, Hall.
Qed.

(** *** Iteration *)
Lemma first_tall_0 h ls : (∀ l, l ∈ ls → 0 < h l) → first_tall h 0 ls = list.head ls.
Proof.
  destruct ls as [|x ls]; [done|]. intros H. unfold first_tall.
  rewrite filter_cons, decide_True; [done|]. apply H. left.
Qed.

(** The level-0 pointer of a node is its successor in the chain. *)
Lemma level0_next s chain A l B :
  wf s chain → 0 :: chain = A ++ l :: B →
  ∃ n, arena s !! l = Some n ∧ forward n !! 0 = Some (list.head B).
Proof.
  intros Hwf HA.
  assert (∀ x, x ∈ 0 :: chain → 0 < ht (arena s) x) as Hht.
  { intros x Hx. destruct (wf_top _ _ Hwf). apply elem_of_cons in Hx as [->|Hx].
    - rewrite (wf_head_height _ _ Hwf). lia.
    - pose proof (wf_heights _ _ Hwf x Hx). lia. }
  assert (0 < ht (arena s) l) as Hl.
  { apply Hht. rewrite HA. apply elem_of_app. right. left. }
  destruct (ht_lookup _ _ _ Hl) as (n & Hn & Hf). exists n. split; [done|].
  rewrite Hf, (wf_links _ _ Hwf A l B HA 0 Hl), first_tall_0; [done|].
  intros x Hx. apply Hht. rewrite HA. apply elem_of_app. right. by right.
Qed.

(** [it] is before the bindings [rest]. *)
Definition cursor s (it : Iterator) (rest : list (Key * (bytes * bool))) : Prop :=
  ∃ A B, wf s (A ++ B) ∧ it = list.head B ∧ rest = contents s B.

Lemma iterator_cursor s kvs :
  represents s kvs → ∃ it, iterator s = Ok it ∧ cursor s it kvs.
Proof.
  intros (chain & Hwf & ->). unfold iterator. rewrite (wf_head _ _ Hwf). simpl.
  destruct (level0_next s chain [] 0 chain Hwf eq_refl) as (n & -> & Hf). simpl.
  rewrite (idx_Some _ _ _ Hf). eexists. split; [done|]. by exists [], chain.
Qed.

Lemma cursor_nil s it : cursor s it [] → it = None.
Proof.
  intros (A & B & Hwf & -> & Hc). destruct B as [|l B]; [done|].
  destruct (contents_cons s l B) as (n & _ & Hc'); [|congruence].
  destruct (chain_valid _ _ l Hwf) as (n & Hn & _); [right; apply elem_of_app; right; left|eauto].
Qed.

Lemma cursor_cons s it k v d rest :
  cursor s it ((k, (v, d)) :: rest) →
  Valid it = true ∧ Entry s it = Ok (k, v, d) ∧
  ∃ it', Next s it = Ok it' ∧ cursor s it' rest.
Proof.
  intros (A & B & Hwf & -> & Hc). destruct B as [|l B]; [done|]. simpl.
  destruct (level0_next s (A ++ l :: B) (0 :: A) l B Hwf eq_refl) as (n & Hn & Hf).
  destruct (contents_cons s l B) as (n' & Hn' & Hc'); [eauto|].
  rewrite Hc' in Hc. simplify_eq. rewrite Hn. simpl.
  split_and!; [by apply bool_decide_eq_true|done|].
  rewrite (idx_Some _ _ _ Hf). eexists. split; [done|].
  exists (A ++ [l]), B. by rewrite <-(assoc_L (++)).
Qed.

(** The loop [for it.Valid() { use(it.Entry()); it.Next() }] of the callers. *)
Fixpoint entries_from (fuel : nat) s (it : Iterator) : outcome (list (Key * (bytes * bool))) :=
  match fuel with
  | O => OutOfFuel
  | S fuel' =>
      if Valid it then
        '(k, v, d) ← Entry s it;
        it' ← Next s it;
        rest ← entries_from fuel' s it';
        Ok ((k, (v, d)) :: rest)
      else Ok []
  end.

Lemma entries_from_cursor fuel s it kvs :
  cursor s it kvs → length kvs < fuel → entries_from fuel s it = Ok kvs.
Proof.
  revert fuel it. induction kvs as [|[k [v d]] kvs IH]; intros fuel it Hc Hf;
    (destruct fuel as [|fuel]; [simpl in Hf; lia|]); cbn [entries_from].
  - by rewrite (cursor_nil _ _ Hc).
  - destruct (cursor_cons _ _ _ _ _ _ Hc) as (-> & -> & it' & Hn & Hc').
    cbn [mbind outcome_bind]. rewrite Hn. cbn [mbind outcome_bind].
    rewrite IH; [done..|simpl in Hf; lia].
Qed.

(** ** The skiplist as a finite map *)
Definition skiplist_map s (m : gmap Key (bytes * bool)) : Prop :=
  ∃ kvs, represents s kvs ∧ m = kmap kvs.

Lemma NewSkipList_map n : 1 ≤ n → skiplist_map (NewSkipList n) ∅.
Proof. intros Hn. exists []. split; [by apply NewSkipList_represents|done]. Qed.
End proofs.

Create HintDb skiplist.
#[export] Hint Resolve NewSkipList_represents represents_sorted : skiplist.

(** The claims of this file: the skiplist refines a finite map. *)
Section claims.
Implicit Types (s : Skiplist) (m : gmap Key (bytes * bool)).

(** C12: [Skiplist.insert] always succeeds on a well-formed skiplist — no nil pointer, no
    index out of range, no endless walk — for every level the random draws give, and
    the resulting skiplist is well-formed and holds exactly the old bindings updated at
    the key. *)
Theorem insert_refines_map s m coins key value deleted :
  skiplist_map s m →
  ∃ s', insert s coins key value deleted = Ok s' ∧
    skiplist_map s' (<[key := (value, deleted)]> m).
Proof.
  intros (kvs & Hs & ->).
  destruct (insert_represents s kvs coins key value deleted Hs) as (s' & Hi & Hs').
  exists s'. split; [done|]. eexists. split; [exact Hs'|].
  symmetry. apply ainsert_kmap. eauto with skiplist.
Qed.

Lemma insert_refines_map_witness :
  ∃ s', insert (NewSkipList 16) [true; true; false] (mkKey 7 (-3)) [x01] false = Ok s' ∧
    skiplist_map s' (<[mkKey 7 (-3) := ([x01], false)]> ∅).
Proof. apply (insert_refines_map (NewSkipList 16) ∅). apply NewSkipList_map. lia. Defined.

(** C14: [Skiplist.Lookup] returns the binding of the map — a tombstone is reported as
    found with the deleted flag — and reports absence otherwise. *)
Theorem Lookup_refines_map s m key :
  skiplist_map s m →
  Lookup s key = Ok match m !! key with
                    | Some (value, deleted) => (value, true, deleted)
                    | None => ([], false, false)
                    end.
Proof. intros (kvs & Hs & ->). rewrite (Lookup_represents _ _ _ Hs). by rewrite kmap_lookup. Qed.

Lemma Lookup_refines_map_witness :
  Lookup (NewSkipList 4) (mkKey 1 1) = Ok match (∅ : gmap Key (bytes * bool)) !! mkKey 1 1 with
                    | Some (value, deleted) => (value, true, deleted)
                    | None => ([], false, false)
                    end.
Proof. apply (Lookup_refines_map (NewSkipList 4) ∅). apply NewSkipList_map. lia. Defined.

(** C15: iterating from [Iterator()] with [Valid]/[Entry]/[Next] terminates and visits
    exactly the bindings of the map, in strictly ascending key order. *)
Theorem iteration_sorted_complete s m :
  skiplist_map s m →
  ∃ it kvs, iterator s = Ok it ∧
    entries_from (S (Z.to_nat (slength s))) s it = Ok kvs ∧
    ksorted kvs ∧ kmap kvs = m.
Proof.
  intros (kvs & Hs & ->). destruct (iterator_cursor _ _ Hs) as (it & Hit & Hc).
  exists it, kvs. split_and!; [done| |by apply (represents_sorted s)|done].
  apply entries_from_cursor; [done|]. rewrite (represents_length _ _ Hs). lia.
Qed.

Lemma iteration_sorted_complete_witness :
  ∃ it kvs, iterator (NewSkipList 4) = Ok it ∧
    entries_from (S (Z.to_nat (slength (NewSkipList 4)))) (NewSkipList 4) it = Ok kvs ∧
    ksorted kvs ∧ kmap kvs = ∅.
Proof. apply iteration_sorted_complete. apply NewSkipList_map. lia. Defined.
End claims.
