(* ===== verification/Memtable.v ===== *)
(** * The memtable (memtable/memtable.go)

    The write buffer around the skiplist: its size accounting on uint64, its flush
    threshold and its freeze flag. A memtable is shown to refine a finite map from keys
    to (value, tombstone). *)
From Stdlib Require Import ZArith Lia Strings.Byte.
From stdpp Require Import base list gmap sorting.
From S2P Require Import Prelude Key.
From S2P Require Skiplist.
Import Skiplist (Skiplist, skiplist_map).

Record MemTable := mkMemTable {
  skiplist : Skiplist;
  size : Z;
  mutable : bool;
  flushThreshold : Z
}.

Definition defaultFlushThreshold : Z := 4 * 1024 * 1024.

Definition CreateMemTableWithThreshold (threshold : Z) : MemTable :=
  let threshold := if threshold =? 0 then defaultFlushThreshold else threshold in
  mkMemTable (Skiplist.NewSkipList 16) 0 true threshold.

Definition CreateMemTable : MemTable := CreateMemTableWithThreshold defaultFlushThreshold.

(** [Put] and [Delete] return the memtable and the success flag. *)
Definition Put (m : MemTable) (coins : list bool) (seriesID timestamp : Z) (value : bytes)
    : outcome (MemTable * bool) :=
  if negb (mutable m) then Ok (m, false)
  else
    s ← Skiplist.Insert (skiplist m) coins (mkKey seriesID timestamp) value;
    Ok (mkMemTable s (u64 (size m + u64 (8 + 8 + zlen value))) (mutable m) (flushThreshold m), true).

Definition Delete (m : MemTable) (coins : list bool) (seriesID timestamp : Z)
    : outcome (MemTable * bool) :=
  if negb (mutable m) then Ok (m, false)
  else
    s ← Skiplist.Delete (skiplist m) coins (mkKey seriesID timestamp);
    Ok (mkMemTable s (u64 (size m + (8 + 8 + 1))) (mutable m) (flushThreshold m), true).

Definition Get (m : MemTable) (seriesID timestamp : Z) : outcome (bytes * bool) :=
  '(value, found, deleted) ← Skiplist.Lookup (skiplist m) (mkKey seriesID timestamp);
  if negb found || deleted then Ok ([], false) else Ok (value, true).

Definition Lookup (m : MemTable) (seriesID timestamp : Z) : outcome (bytes * bool * bool) :=
  Skiplist.Lookup (skiplist m) (mkKey seriesID timestamp).

Definition Size (m : MemTable) : Z := size m.
Definition IsFull (m : MemTable) : bool := flushThreshold m <=? size m.
Definition Freeze (m : MemTable) : MemTable :=
  mkMemTable (skiplist m) (size m) false (flushThreshold m).

(** [MemTableIterator] wraps the skiplist iterator. *)
Definition MemTableIterator : Type := Skiplist.Iterator.
Definition iterator (m : MemTable) : outcome MemTableIterator := Skiplist.iterator (skiplist m).
Definition Valid (it : MemTableIterator) : bool := Skiplist.Valid it.
Definition Next (m : MemTable) (it : MemTableIterator) : outcome MemTableIterator :=
  Skiplist.Next (skiplist m) it.
Definition Entry (m : MemTable) (it : MemTableIterator) : outcome (Key * bytes * bool) :=
  Skiplist.Entry (skiplist m) it.

(** ** Representation *)
Definition memtable_map (m : MemTable) (kv : gmap Key (bytes * bool)) : Prop :=
  skiplist_map (skiplist m) kv.

(** A write, as the WAL and the engine order them. *)
Inductive write :=
  | WPut (key : Key) (value : bytes)
  | WDelete (key : Key).

Definition write_key (w : write) : Key := match w with WPut k _ | WDelete k => k end.
Definition write_binding (w : write) : bytes * bool :=
  match w with WPut _ v => (v, false) | WDelete _ => ([], true) end.

(** The bytes [Put] and [Delete] charge. *)
Definition write_cost (w : write) : Z :=
  match w with WPut _ v => 16 + zlen v | WDelete _ => 17 end.

Definition apply_write (m : MemTable) (coins : list bool) (w : write) : outcome (MemTable * bool) :=
  match w with
  | WPut k v => Put m coins (SeriesID k) (Timestamp k) v
  | WDelete k => Delete m coins (SeriesID k) (Timestamp k)
  end.

(** The specification of a write. *)
Definition write_map (kv : gmap Key (bytes * bool)) (w : write) : gmap Key (bytes * bool) :=
  <[write_key w := write_binding w]> kv.

Lemma key_eta k : mkKey (SeriesID k) (Timestamp k) = k.
Proof. by destruct k. Qed.

Lemma u64_add_u64_r a b : u64 (a + u64 b) = u64 (a + b).
Proof. unfold u64. apply Zplus_mod_idemp_r. Qed.

(** One write to a mutable memtable. *)
Lemma apply_write_spec m kv coins w :
  memtable_map m kv → mutable m = true →
  ∃ m', apply_write m coins w = Ok (m', true) ∧
    memtable_map m' (write_map kv w) ∧
    size m' = u64 (size m + write_cost w) ∧
    mutable m' = true ∧ flushThreshold m' = flushThreshold m.
Proof.
  intros (kvs & Hm & ->) Hmut.
  destruct (Skiplist.insert_represents _ kvs coins (write_key w) (write_binding w).1
    (write_binding w).2 Hm) as (s & Hs & Hs').
  assert (∀ sz, memtable_map (mkMemTable s sz (mutable m) (flushThreshold m)) (write_map (kmap kvs) w)) as Hmap.
  { intros sz. eexists. split; [exact Hs'|]. rewrite ainsert_kmap by (by eapply Skiplist.represents_sorted).
    by destruct w. }
  destruct w as [k v|k]; simpl in *; unfold Put, Delete, Skiplist.Insert, Skiplist.Delete;
    rewrite Hmut, key_eta, Hs; simpl; eexists; (split; [done|]); simpl; rewrite <-?Hmut;
    split_and!; try done; try apply Hmap.
  by rewrite u64_add_u64_r.
Qed.

(** A frozen memtable refuses every write and is unchanged. *)
Lemma apply_write_frozen m coins w : mutable m = false → apply_write m coins w = Ok (m, false).
Proof. intros H. destruct w; simpl; unfold Put, Delete; by rewrite H. Qed.

(** A sequence of writes with the draws each one makes. *)
Fixpoint apply_writes (m : MemTable) (ws : list (list bool * write)) : outcome (MemTable * bool) :=
  match ws with
  | [] => Ok (m, true)
  | (coins, w) :: ws' =>
      '(m', ok) ← apply_write m coins w;
      if (ok : bool) then apply_writes m' ws' else Ok (m', false)
  end.

Definition total_cost (ws : list write) : Z := foldr (λ w acc, write_cost w + acc) 0 ws.

Lemma apply_writes_spec m kv ws :
  memtable_map m kv → mutable m = true → is_u64 (size m) →
  ∃ m', apply_writes m ws = Ok (m', true) ∧
    memtable_map m' (foldl write_map kv ws.*2) ∧
    size m' = u64 (size m + total_cost ws.*2) ∧
    mutable m' = true ∧ flushThreshold m' = flushThreshold m.
Proof.
  intros Hm Hmut Hsz. revert m kv Hm Hmut Hsz.
  induction ws as [|[coins w] ws IH]; intros m kv Hm Hmut Hsz; csimpl.
  { exists m. split_and!; try done. by rewrite Z.add_0_r, u64_id. }
  destruct (apply_write_spec m kv coins w Hm Hmut) as (m1 & -> & Hm1 & Hs1 & Hmut1 & Ht1).
  csimpl. destruct (IH m1 _ Hm1 Hmut1) as (m' & Hw & Hm' & Hs' & Hmut' & Ht').
  { rewrite Hs1. apply u64_range. }
  exists m'. split_and!; try done; [|congruence].
  rewrite Hs', Hs1, (Z.add_comm (u64 _)), u64_add_u64_r. f_equal. csimpl. lia.
Qed.

Lemma CreateMemTable_map t :
  memtable_map (CreateMemTableWithThreshold t) ∅ ∧
  mutable (CreateMemTableWithThreshold t) = true ∧ size (CreateMemTableWithThreshold t) = 0.
Proof. split_and!; [apply Skiplist.NewSkipList_map; lia|done..]. Qed.

Lemma Lookup_map m kv s t :
  memtable_map m kv →
  Lookup m s t = Ok match kv !! mkKey s t with
                    | Some (value, deleted) => (value, true, deleted)
                    | None => ([], false, false)
                    end.
Proof.
  intros (kvs & Hm & ->). unfold Lookup. rewrite (Skiplist.Lookup_represents _ _ _ Hm).
  by rewrite kmap_lookup.
Qed.

(** The bindings of a memtable in key order, as its iterator gives them. *)
Lemma iterate_map m kv :
  memtable_map m kv →
  ∃ it kvs, iterator m = Ok it ∧ Skiplist.cursor (skiplist m) it kvs ∧ ksorted kvs ∧ kmap kvs = kv.
Proof.
  intros (kvs & Hm & ->). destruct (Skiplist.iterator_cursor _ _ Hm) as (it & Hit & Hc).
  exists it, kvs. split_and!; try done. by eapply Skiplist.represents_sorted.
Qed.

(** C16: a fresh memtable that receives any sequence of [Put]s and [Delete]s, with any
    skiplist levels drawn, accepts every one of them; afterwards [Lookup] answers with the
    last write of the key (a tombstone for a [Delete]), and [Size] is the total charged
    modulo 2^64. *)
Theorem memtable_writes_lookup threshold ws :
  let m0 := CreateMemTableWithThreshold threshold in
  ∃ m, apply_writes m0 ws = Ok (m, true) ∧
    (∀ s t, Lookup m s t = Ok match foldl write_map ∅ ws.*2 !! mkKey s t with
                              | Some (value, deleted) => (value, true, deleted)
                              | None => ([], false, false)
                              end) ∧
    Size m = u64 (total_cost ws.*2) ∧
    flushThreshold m = (if threshold =? 0 then defaultFlushThreshold else threshold).
Proof.
  intros m0. destruct (CreateMemTable_map threshold) as (Hm0 & Hmut & Hsz).
  destruct (apply_writes_spec m0 ∅ ws Hm0 Hmut) as (m & Hw & Hm & Hs & _ & Ht).
  { unfold m0. rewrite Hsz. unfold is_u64. lia. }
  exists m. split_and!; [done| | |done].
  - intros s t. by apply Lookup_map.
  - unfold Size. by rewrite Hs.
Qed.

(** A frozen memtable is immutable: every later write is refused and changes nothing,
    whatever the sequence, so the snapshot a flush or a scan reads is stable. *)
Lemma freeze_immutable m coins w ws :
  apply_writes (Freeze m) ((coins, w) :: ws) = Ok (Freeze m, false).
Proof. simpl. by rewrite apply_write_frozen. Qed.

(** C17: [IsFull] compares the exact number of bytes charged with the threshold as long as
    the total stays below 2^64; the uint64 counter wraps only beyond. *)
Theorem IsFull_exact threshold ws :
  total_cost ws.*2 < 2^64 →
  ∃ m, apply_writes (CreateMemTableWithThreshold threshold) ws = Ok (m, true) ∧
    (IsFull m = true ↔ flushThreshold m ≤ total_cost ws.*2).
Proof.
  intros Hlt. destruct (CreateMemTable_map threshold) as (Hm0 & Hmut & Hsz).
  destruct (apply_writes_spec _ ∅ ws Hm0 Hmut) as (m & Hw & Hm & Hs & _ & Ht).
  { rewrite Hsz. unfold is_u64. lia. }
  exists m. split; [done|]. unfold IsFull. rewrite Hs, Hsz, Z.add_0_l, u64_id; [lia|].
  split; [|done]. clear. induction ws as [|[c [k v|k]] ws IH]; csimpl;
    [lia|pose proof (zlen_nonneg v); lia|lia].
Qed.

Lemma IsFull_exact_witness :
  ∃ m, apply_writes (CreateMemTableWithThreshold 20) [([], WPut (mkKey 1 1) [x01; x02]); ([true], WDelete (mkKey 1 1))]
         = Ok (m, true) ∧ (IsFull m = true ↔ flushThreshold m ≤ 35).
Proof.
  apply (IsFull_exact 20 [([], WPut (mkKey 1 1) [x01; x02]); ([true], WDelete (mkKey 1 1))]).
  vm_compute. reflexivity.
Defined.
