(* ===== verification/Crc32.v ===== *)
(** * CRC-32 (the standard library's hash/crc32, IEEE polynomial)

    The checksum the WAL stores for every record and the SSTable writer keeps over a
    file. It is executable, streams over writes, and detects every corruption confined
    to four consecutive bytes. *)
From Stdlib Require Import ZArith Lia Strings.Byte.
From stdpp Require Import base list.
From S2P Require Import Prelude.

(** The reversed IEEE polynomial. *)
Definition IEEE : Z := 0xEDB88320.

Definition crc_bit (s : Z) : Z :=
  Z.lxor (Z.shiftr s 1) (if Z.testbit s 0 then IEEE else 0).

Definition crc_byte (s : Z) (b : byte) : Z :=
  Nat.iter 8 crc_bit (Z.lxor s (Z_of_byte b)).

Definition not32 (z : Z) : Z := Z.lxor z (Z.ones 32).

(** [crc32.Update(crc, IEEETable, p)] *)
Definition Update (crc : Z) (p : bytes) : Z := not32 (foldl crc_byte (not32 crc) p).

Definition ChecksumIEEE (p : bytes) : Z := Update 0 p.

Arguments ChecksumIEEE : simpl never.
Arguments crc_byte : simpl never.

Example crc_check :
  ChecksumIEEE [x31; x32; x33; x34; x35; x36; x37; x38; x39] = 0xCBF43926.
Proof. vm_compute. reflexivity. Qed.

Lemma not32_involutive z : not32 (not32 z) = z.
Proof. unfold not32. by rewrite Z.lxor_assoc, Z.lxor_nilpotent, Z.lxor_0_r. Qed.

(** A hash fed in several writes is the hash of their concatenation. *)
Lemma Update_app crc p q : Update crc (p ++ q) = Update (Update crc p) q.
Proof. unfold Update. by rewrite foldl_app, not32_involutive. Qed.

(** ** Ranges *)
Lemma u32_lxor a b : is_u32 a → is_u32 b → is_u32 (Z.lxor a b).
Proof.
  unfold is_u32. intros Ha Hb.
  assert (0 ≤ Z.lxor a b) as Hpos by (apply Z.lxor_nonneg; lia). split; [done|].
  destruct (Z.eq_dec (Z.lxor a b) 0) as [->|Hne]; [lia|].
  apply Z.log2_lt_pow2; [lia|].
  eapply Z.le_lt_trans; [apply Z.log2_lxor; lia|].
  apply Z.max_lub_lt; [destruct (Z.eq_dec a 0) as [->|]|destruct (Z.eq_dec b 0) as [->|]];
    try (simpl; lia); apply Z.log2_lt_pow2; lia.
Qed.

Lemma crc_bit_range s : is_u32 s → is_u32 (crc_bit s).
Proof.
  intros Hs. apply u32_lxor.
  - unfold is_u32 in *. rewrite Z.shiftr_div_pow2 by lia. change (2^1) with 2.
    split; [apply Z.div_pos; lia|apply Z.div_lt_upper_bound; lia].
  - unfold IEEE, is_u32. destruct (Z.testbit s 0); lia.
Qed.

Lemma crc_bits_range n s : is_u32 s → is_u32 (Nat.iter n crc_bit s).
Proof. intros Hs. induction n; simpl; auto using crc_bit_range. Qed.

Lemma byte_u32 b : is_u32 (Z_of_byte b).
Proof. pose proof (Z_of_byte_range b). unfold is_u32. lia. Qed.

Lemma crc_byte_range s b : is_u32 s → is_u32 (crc_byte s b).
Proof. intros Hs. apply crc_bits_range, u32_lxor; auto using byte_u32. Qed.

Lemma foldl_crc_range p s : is_u32 s → is_u32 (foldl crc_byte s p).
Proof. revert s. induction p; simpl; auto using crc_byte_range. Qed.

Lemma not32_range z : is_u32 z → is_u32 (not32 z).
Proof. intros Hz. apply u32_lxor; [done|]. unfold is_u32. vm_compute. split; congruence. Qed.

Lemma Update_range crc p : is_u32 crc → is_u32 (Update crc p).
Proof. intros H. by apply not32_range, foldl_crc_range, not32_range. Qed.

Lemma ChecksumIEEE_range p : is_u32 (ChecksumIEEE p).
Proof. apply Update_range. unfold is_u32. lia. Qed.
#[export] Hint Resolve ChecksumIEEE_range : word.

(** ** Error detection *)
Lemma crc_bit_top s : is_u32 s → Z.testbit (crc_bit s) 31 = Z.testbit s 0.
Proof.
  intros Hs. unfold crc_bit. rewrite Z.lxor_spec, Z.shiftr_spec by lia.
  change (31 + 1) with 32.
  rewrite (Z.bits_above_log2 s 32); [|unfold is_u32 in Hs; lia|].
  - by destruct (Z.testbit s 0).
  - destruct (Z.eq_dec s 0) as [->|]; [simpl; lia|].
    unfold is_u32 in Hs. apply Z.log2_lt_pow2; lia.
Qed.

Lemma crc_bit_inj s t : is_u32 s → is_u32 t → crc_bit s = crc_bit t → s = t.
Proof.
  intros Hs Ht H. assert (Z.testbit s 0 = Z.testbit t 0) as H0.
  { by rewrite <-(crc_bit_top s), <-(crc_bit_top t), H. }
  unfold crc_bit in H. rewrite H0 in H.
  assert (Z.shiftr s 1 = Z.shiftr t 1) as H1.
  { set (c := if Z.testbit t 0 then IEEE else 0) in H.
    rewrite <-(Z.lxor_0_r (Z.shiftr s 1)), <-(Z.lxor_0_r (Z.shiftr t 1)).
    by rewrite <-(Z.lxor_nilpotent c), <-!Z.lxor_assoc, H. }
  rewrite <-!Z.div2_spec in H1. rewrite !Z.bit0_odd in H0.
  rewrite (Z.div2_odd s), (Z.div2_odd t). by rewrite H0, H1.
Qed.

Lemma crc_bits_inj n s t :
  is_u32 s → is_u32 t → Nat.iter n crc_bit s = Nat.iter n crc_bit t → s = t.
Proof.
  intros Hs Ht. induction n as [|n IH]; simpl; [done|].
  intros H. apply IH, crc_bit_inj; auto using crc_bits_range.
Qed.

(** The register is linear in the bits not yet shifted out. *)
Lemma crc_bit_shift s x : crc_bit (Z.lxor s (Z.shiftl x 1)) = Z.lxor (crc_bit s) x.
Proof.
  unfold crc_bit. rewrite Z.shiftr_lxor, Z.lxor_spec.
  rewrite (Z.shiftl_spec_low x 1 0), xorb_false_r by lia.
  rewrite Z.shiftr_shiftl_l, Z.sub_diag, Z.shiftl_0_r by lia.
  by rewrite !Z.lxor_assoc, (Z.lxor_comm x).
Qed.

Lemma crc_bits_shift n s x :
  Nat.iter n crc_bit (Z.lxor s (Z.shiftl x (Z.of_nat n))) = Z.lxor (Nat.iter n crc_bit s) x.
Proof.
  revert s x. induction n as [|n IH]; intros s x; [simpl; by rewrite Z.shiftl_0_r|].
  cbn [Nat.iter nat_rect]. change (nat_rect _ ?a (λ _, ?f) ?k) with (Nat.iter k f a).
  replace (Z.of_nat (S n)) with (1 + Z.of_nat n) by lia.
  rewrite <-Z.shiftl_shiftl by lia. rewrite IH, crc_bit_shift. done.
Qed.

(** The little-endian integer of a byte string, as an exclusive or. *)
Lemma le_get_lxor b p : le_get (b :: p) = Z.lxor (Z_of_byte b) (Z.shiftl (le_get p) 8).
Proof.
  change (le_get (b :: p)) with (Z_of_byte b + 256 * le_get p).
  pose proof (Z_of_byte_range b) as Hb.
  rewrite Z.shiftl_mul_pow2, (Z.mul_comm 256) by lia. change 256 with (2^8).
  apply Z.add_nocarry_lxor, Z.bits_inj'. intros n Hn. rewrite Z.land_spec, Z.bits_0.
  destruct (Z.lt_ge_cases n 8).
  - by rewrite Z.mul_pow2_bits_low, andb_false_r by lia.
  - rewrite (Z.bits_above_log2 (Z_of_byte b) n); [done|lia|].
    destruct (Z.eq_dec (Z_of_byte b) 0) as [->|]; [simpl; lia|].
    assert (Z.log2 (Z_of_byte b) < 8) by (apply Z.log2_lt_pow2; lia). lia.
Qed.

Lemma crc_byte_eq s b : crc_byte s b = Nat.iter 8 crc_bit (Z.lxor s (Z_of_byte b)).
Proof. reflexivity. Qed.

Lemma crc_byte_shift s b x :
  Z.lxor (crc_byte s b) x =
  Nat.iter 8 crc_bit (Z.lxor (Z.lxor s (Z_of_byte b)) (Z.shiftl x 8)).
Proof. rewrite crc_byte_eq. exact (eq_sym (crc_bits_shift 8 _ _)). Qed.

(** Folding bytes is shifting their little-endian integer through the register. *)
Lemma foldl_crc_le p s :
  foldl crc_byte s p = Nat.iter (length p * 8) crc_bit (Z.lxor s (le_get p)).
Proof.
  revert s. induction p as [|b p IH]; intros s; [by rewrite Z.lxor_0_r|].
  change (foldl crc_byte s (b :: p)) with (foldl crc_byte (crc_byte s b) p).
  change (length (b :: p) * 8)%nat with (8 + length p * 8)%nat.
  rewrite IH, crc_byte_shift, le_get_lxor, <-Z.lxor_assoc.
  generalize (Z.lxor (Z.lxor s (Z_of_byte b)) (Z.shiftl (le_get p) 8)). intros z.
  by rewrite Nat.add_comm, Nat.iter_add.
Qed.

Lemma lxor_cancel_l a b c : Z.lxor a b = Z.lxor a c → b = c.
Proof.
  intros H. rewrite <-(Z.lxor_0_l b), <-(Z.lxor_0_l c).
  by rewrite <-(Z.lxor_nilpotent a), !Z.lxor_assoc, H.
Qed.

Lemma crc_byte_inj b s t : is_u32 s → is_u32 t → crc_byte s b = crc_byte t b → s = t.
Proof.
  intros Hs Ht H. pose proof (byte_u32 b).
  rewrite !crc_byte_eq in H. apply crc_bits_inj in H; [|by apply u32_lxor..].
  rewrite !(Z.lxor_comm _ (Z_of_byte b)) in H. by apply lxor_cancel_l in H.
Qed.

Lemma foldl_crc_inj p s t :
  is_u32 s → is_u32 t → foldl crc_byte s p = foldl crc_byte t p → s = t.
Proof.
  revert s t. induction p as [|b p IH]; intros s t Hs Ht H; [done|].
  apply (crc_byte_inj b); [done..|]. apply IH; [by apply crc_byte_range..|exact H].
Qed.

Lemma Update_inj q a b : is_u32 a → is_u32 b → Update a q = Update b q → a = b.
Proof.
  intros Ha Hb H. apply (f_equal not32) in H. unfold Update in H.
  rewrite !not32_involutive in H. apply foldl_crc_inj, (f_equal not32) in H; auto using not32_range.
  by rewrite !not32_involutive in H.
Qed.

Lemma le_get_window v : (length v ≤ 4)%nat → is_u32 (le_get v).
Proof.
  intros Hv. pose proof (le_get_range v) as Hr. unfold is_u32.
  assert (256 ^ Z.of_nat (length v) <= 256 ^ 4) by (apply Z.pow_le_mono_r; lia). lia.
Qed.

Lemma Update_window s w w' :
  is_u32 s → length w = length w' → (length w ≤ 4)%nat → Update s w = Update s w' → w = w'.
Proof.
  intros Hs Hl H4 H. apply (f_equal not32) in H. unfold Update in H.
  rewrite !not32_involutive, !foldl_crc_le, Hl in H.
  apply crc_bits_inj in H.
  - apply lxor_cancel_l in H. by rewrite <-(le_put_get w), <-(le_put_get w'), Hl, H.
  - apply u32_lxor; [by apply not32_range|by apply le_get_window].
  - apply u32_lxor; [by apply not32_range|apply le_get_window; lia].
Qed.

(** Two messages that differ only inside a window of at most four bytes have different
    checksums. *)
Lemma crc_burst p w w' q :
  length w = length w' → (length w ≤ 4)%nat → w ≠ w' →
  ChecksumIEEE (p ++ w ++ q) ≠ ChecksumIEEE (p ++ w' ++ q).
Proof.
  intros Hl H4 Hne H. apply Hne. unfold ChecksumIEEE in H. rewrite !Update_app in H.
  assert (is_u32 (Update 0 p)) as Hs by (apply Update_range; unfold is_u32; lia).
  apply Update_inj in H; [|by apply Update_range..].
  by apply (Update_window _ _ _ Hs Hl H4).
Qed.
