(* ===== verification/Monad.v ===== *)
(** * State and outcome

    Methods that change a struct and the file system are computations [M S A]: they read
    and write a state of type [S] and end in an [outcome A]; the state changes made
    before an error stay, as in Go. *)
From Stdlib Require Import ZArith Lia.
From stdpp Require Import base list.
From S2P Require Import Prelude.

Definition M (S A : Type) : Type := S → outcome A * S.

#[global] Instance M_ret {S} : MRet (M S) := λ A a s, (Ok a, s).
#[global] Instance M_bind {S} : MBind (M S) := λ A B f m s,
  match m s with
  | (Ok a, s') => f a s'
  | (Err e, s') => (Err e, s')
  | (Panic p, s') => (Panic p, s')
  | (OutOfFuel, s') => (OutOfFuel, s')
  end.

Definition lift {S A} (o : outcome A) : M S A := λ s, (o, s).
Definition fail {S A} (e : error) : M S A := lift (Err e).
Definition get {S} : M S S := λ s, (Ok s, s).
Definition put {S} (s : S) : M S unit := λ _, (Ok (), s).

(** [err := m; if err != nil ...]: the error becomes a value. *)
Definition try {S A} (m : M S A) : M S (A + error) := λ s,
  match m s with
  | (Ok a, s') => (Ok (inl a), s')
  | (Err e, s') => (Ok (inr e), s')
  | (Panic p, s') => (Panic p, s')
  | (OutOfFuel, s') => (OutOfFuel, s')
  end.

(** A computation on the second half of a pair: a method that calls the file system. *)
Definition on_snd {X S A} (m : M S A) : M (X * S) A := λ '(x, s),
  let '(r, s') := m s in (r, (x, s')).

(** The struct half of the state. *)
Definition get_fst {X S} : M (X * S) X := λ '(x, s), (Ok x, (x, s)).
Definition put_fst {X S} (x : X) : M (X * S) unit := λ '(_, s), (Ok (), (x, s)).
Definition modify_fst {X S} (f : X → X) : M (X * S) unit := λ '(x, s), (Ok (), (f x, s)).

Lemma bind_Ok {S A B} (m : M S A) (f : A → M S B) s a s' :
  m s = (Ok a, s') → (m ≫= f) s = f a s'.
Proof. unfold mbind, M_bind. by intros ->. Qed.

Lemma bind_Err {S A B} (m : M S A) (f : A → M S B) s e s' :
  m s = (Err e, s') → (m ≫= f) s = (Err e, s').
Proof. unfold mbind, M_bind. by intros ->. Qed.

Lemma try_Ok {S A} (m : M S A) s a s' : m s = (Ok a, s') → try m s = (Ok (inl a), s').
Proof. unfold try. by intros ->. Qed.

Lemma try_Err {S A} (m : M S A) s e s' : m s = (Err e, s') → try m s = (Ok (inr e), s').
Proof. unfold try. by intros ->. Qed.

Lemma on_snd_run {X S A} (m : M S A) (x : X) s r s' :
  m s = (r, s') → on_snd m (x, s) = (r, (x, s')).
Proof. unfold on_snd. by intros ->. Qed.

Lemma bind_assoc {S A B C} (m : M S A) (f : A → M S B) (g : B → M S C) s :
  ((m ≫= f) ≫= g) s = (m ≫= λ a, f a ≫= g) s.
Proof. unfold mbind, M_bind. by destruct (m s) as [[]]. Qed.

Lemma bind_ext {S A B} (m : M S A) (f g : A → M S B) s : (∀ a s, f a s = g a s) → (m ≫= f) s = (m ≫= g) s.
Proof. intros Hf. unfold mbind, M_bind. by destruct (m s) as [[]]. Qed.

Lemma lift_Ok {S A B} (o : outcome A) (f : A → M S B) s a :
  o = Ok a → (lift o ≫= f) s = f a s.
Proof. by intros ->. Qed.

(** Run the first step of a monadic program with a known result. *)
Ltac mstep := first
  [ erewrite bind_Ok; [|solve [eauto]]
  | erewrite bind_Ok; [|apply on_snd_run; solve [eauto]]
  | erewrite bind_Ok; [|apply try_Ok; solve [eauto]]
  | erewrite bind_Ok; [|reflexivity] ].

(** Run a method on a struct of its own and return the struct with the result. *)
Definition run_with {X S A} (x : X) (m : M (X * S) A) : M S (X * A) := λ s,
  match m (x, s) with
  | (Ok a, (x', s')) => (Ok (x', a), s')
  | (Err e, (_, s')) => (Err e, s')
  | (Panic p, (_, s')) => (Panic p, s')
  | (OutOfFuel, (_, s')) => (OutOfFuel, s')
  end.

(** What a run on concrete inputs returned. *)
Definition succeeds {A S} (r : outcome A * S) : bool := match r.1 with Ok _ => true | _ => false end.
Definition result {A S} (d : A) (r : outcome A * S) : A := match r.1 with Ok a => a | _ => d end.

Lemma succeeds_result {A S} (d : A) (r : outcome A * S) : succeeds r = true → r = (Ok (result d r), r.2).
Proof. by destruct r as [[] s]. Qed.

(** ** Weakest preconditions

    [wp m Q s]: the result and final state of [m] from [s] satisfy [Q], whatever the
    result is: the specifications say what holds after an error too. *)
Definition wp {S A} (m : M S A) (Q : outcome A → S → Prop) (s : S) : Prop :=
  let '(r, s') := m s in Q r s'.

Section wp.
Context {X S A B : Type}.
Implicit Types (s : S) (x : X).

Lemma wp_run (m : M S A) Q s r s' : wp m Q s → m s = (r, s') → Q r s'.
Proof. unfold wp. intros H E. by rewrite E in H. Qed.

Lemma wp_elim (m : M S A) Q s : wp m Q s → ∃ r s', m s = (r, s') ∧ Q r s'.
Proof. unfold wp. destruct (m s) as [r s']. eauto. Qed.

Lemma wp_intro (m : M S A) Q s : (∀ r s', m s = (r, s') → Q r s') → wp m Q s.
Proof. unfold wp. destruct (m s). auto. Qed.

Lemma wp_mono (m : M S A) (Q Q' : outcome A → S → Prop) s :
  wp m Q s → (∀ r s', Q r s' → Q' r s') → wp m Q' s.
Proof. unfold wp. destruct (m s). auto. Qed.

Lemma wp_ret (a : A) Q s : Q (Ok a) s → wp (mret a) Q s.
Proof. done. Qed.

Lemma wp_lift (o : outcome A) Q s : Q o s → wp (lift o) Q s.
Proof. done. Qed.

Lemma wp_bind (m : M S A) (f : A → M S B) Q s :
  wp m (λ r s', match r with
    | Ok a => wp (f a) Q s'
    | Err e => Q (Err e) s' | Panic p => Q (Panic p) s' | OutOfFuel => Q OutOfFuel s' end) s →
  wp (m ≫= f) Q s.
Proof. unfold wp, mbind, M_bind. destruct (m s) as [[a|e|p|] s']; auto. Qed.

Lemma wp_try (m : M S A) Q s :
  wp m (λ r s', match r with
    | Ok a => Q (Ok (inl a)) s'
    | Err e => Q (Ok (inr e)) s' | Panic p => Q (Panic p) s' | OutOfFuel => Q OutOfFuel s' end) s →
  wp (try m) Q s.
Proof. unfold wp, try. destruct (m s) as [[a|e|p|] s']; auto. Qed.

Lemma wp_on_snd (m : M S A) (Q : outcome A → X * S → Prop) x s :
  wp m (λ r s', Q r (x, s')) s → wp (on_snd m) Q (x, s).
Proof. unfold wp, on_snd. by destruct (m s). Qed.

Lemma wp_run_with x (m : M (X * S) A) (Q : outcome (X * A) → S → Prop) s :
  wp m (λ r '(x', s'), match r with
    | Ok a => Q (Ok (x', a)) s'
    | Err e => Q (Err e) s' | Panic p => Q (Panic p) s' | OutOfFuel => Q OutOfFuel s' end) (x, s) →
  wp (run_with x m) Q s.
Proof. unfold wp, run_with. destruct (m (x, s)) as [[a|e|p|] [x' s']]; auto. Qed.

Lemma wp_get_fst Q x s : Q (Ok x) (x, s) → wp get_fst Q (x, s).
Proof. done. Qed.
Lemma wp_put_fst x' Q x s : Q (Ok ()) (x', s) → wp (put_fst x') Q (x, s).
Proof. done. Qed.
Lemma wp_modify_fst f Q x s : Q (Ok ()) (f x, s) → wp (modify_fst f) Q (x, s).
Proof. done. Qed.
End wp.

Arguments wp : simpl never.

(** One step of a program whose first call does not touch the file system. *)
Ltac wstep :=
  lazymatch goal with
  | |- wp (mbind _ _) _ _ => apply wp_bind
  | |- wp (try _) _ _ => apply wp_try
  | |- wp (on_snd _) _ _ => apply wp_on_snd
  | |- wp (run_with _ _) _ _ => apply wp_run_with
  | |- wp get_fst _ _ => apply wp_get_fst
  | |- wp (put_fst _) _ _ => apply wp_put_fst
  | |- wp (modify_fst _) _ _ => apply wp_modify_fst
  | |- wp (fail _) _ _ => apply wp_lift
  | |- wp (lift _) _ _ => apply wp_lift
  | |- wp (mret _) _ _ => apply wp_ret
  end; cbv beta iota.
Ltac wsteps := repeat wstep.
