(* ===== verification/Fs.v ===== *)
(** * Files (the os, path/filepath, strings, strconv and fmt calls of the code)

    The file system the WAL and the tables run on, with crashes and failing calls, and
    the file-name arithmetic of segments and generations with its round trip. *)
From Stdlib Require Import ZArith Lia Strings.Byte.
From stdpp Require Import base list gmap sorting.
From S2P Require Import Prelude Monad.

(** ** Names

    A Go string is its bytes. A path is kept as [filepath.Dir] and [filepath.Base] split
    it; [filepath.Join] pairs them again. *)
Record path := mkPath { pdir : bytes; pbase : bytes }.

#[global] Instance path_eq_dec : EqDecision path.
Proof. solve_decision. Defined.
#[global] Program Instance path_countable : Countable path :=
  inj_countable' (λ p, (pdir p, pbase p)) (λ q, mkPath q.1 q.2) _.
Next Obligation. by intros []. Qed.

(** [filepath.Ext]: from the last dot of the last element. *)
Fixpoint ext_rev (acc r : bytes) : bytes :=
  match r with
  | [] => []
  | c :: r' => if decide (c = x2e) then c :: acc else ext_rev (c :: acc) r'
  end.
Definition Ext (name : bytes) : bytes := ext_rev [] (reverse name).

Definition HasPrefix (s pre : bytes) : bool := bool_decide (pre `prefix_of` s).
Definition HasSuffix (s suf : bytes) : bool := bool_decide (suf `suffix_of` s).
Definition TrimPrefix (s pre : bytes) : bytes :=
  if HasPrefix s pre then drop (length pre) s else s.
Definition TrimSuffix (s suf : bytes) : bytes :=
  if HasSuffix s suf then take (length s - length suf) s else s.

Definition digit (d : Z) : byte := byte_of_Z (48 + d).

(** Decimal digits of a uint64, most significant first; 20 digits always suffice. *)
Fixpoint dec_loop (fuel : nat) (z : Z) (acc : bytes) : bytes :=
  match fuel with
  | O => acc
  | S fuel' =>
      let acc' := digit (z mod 10) :: acc in
      if z <? 10 then acc' else dec_loop fuel' (z / 10) acc'
  end.
Definition decimal (z : Z) : bytes := dec_loop 20 z [].

(** [fmt.Sprintf("%06d", z)] *)
Definition sprintf06 (z : Z) : bytes :=
  let d := decimal z in replicate (6 - length d) x30 ++ d.

(** [strconv.ParseUint(s, 10, 64)] *)
Fixpoint parse_loop (acc : Z) (s : bytes) : option Z :=
  match s with
  | [] => Some acc
  | c :: s' =>
      let d := Z_of_byte c - 48 in
      if (0 <=? d) && (d <=? 9) && (acc * 10 + d <? 2^64) then parse_loop (acc * 10 + d) s' else None
  end.
Definition ParseUint (s : bytes) : option Z :=
  match s with [] => None | _ => parse_loop 0 s end.

(** [fmt.Sprintf("%s_%06d%s", prefix, id, ext)] *)
Definition gen_name (prefix : bytes) (id : Z) (ext : bytes) : bytes :=
  prefix ++ [x5f] ++ sprintf06 id ++ ext.

(** The id a directory entry carries, if it is named after [prefix] and [ext]. *)
Definition gen_of_name (prefix ext name : bytes) : option Z :=
  if HasPrefix name (prefix ++ [x5f]) && HasSuffix name ext
  then ParseUint (TrimSuffix (TrimPrefix name (prefix ++ [x5f])) ext)
  else None.

Example gen_name_example :
  gen_name [x77] 42 [x2e; x6c] = [x77; x5f; x30; x30; x30; x30; x34; x32; x2e; x6c].
Proof. vm_compute. reflexivity. Qed.

(** ** The file system *)

(** How the next call behaves: [FShort n] is a write that stops after [n] bytes. *)
Inductive fault := FOk | FFail | FShort (n : nat).

(** A file has the bytes written and how many of them have been fsynced. *)
Inductive inode := File (data : bytes) (synced : nat) | Dir.

Record world := mkWorld {
  dirs : gset bytes;
  files : gmap path inode;
  faults : list fault
}.

Abbreviation IO := (M world).

Definition set_files (f : gmap path inode) (w : world) : world := mkWorld (dirs w) f (faults w).

Definition next_fault : IO fault := λ w,
  match faults w with
  | [] => (Ok FOk, w)
  | f :: fs => (Ok f, mkWorld (dirs w) (files w) fs)
  end.

(** A call that fails when the schedule says so. *)
Definition syscall {A} (k : IO A) : IO A :=
  f ← next_fault; match f with FOk => k | _ => fail ErrIO end.

Definition os_Create (p : path) : IO unit := syscall (λ w,
  match files w !! p with
  | Some Dir => (Err ErrIsDir, w)
  | Some (File _ _) => (Ok (), set_files (<[p := File [] 0]> (files w)) w)
  | None => if decide (pdir p ∈ dirs w)
            then (Ok (), set_files (<[p := File [] 0]> (files w)) w)
            else (Err ErrNotExist, w)
  end).

(** [os.OpenFile(p, os.O_CREATE|os.O_RDWR|os.O_APPEND, 0644)] *)
Definition os_OpenAppend (p : path) : IO unit := syscall (λ w,
  match files w !! p with
  | Some Dir => (Err ErrIsDir, w)
  | Some (File _ _) => (Ok (), w)
  | None => if decide (pdir p ∈ dirs w)
            then (Ok (), set_files (<[p := File [] 0]> (files w)) w)
            else (Err ErrNotExist, w)
  end).

(** [os.Open] and the bytes behind the handle. *)
Definition os_Open (p : path) : IO bytes := syscall (λ w,
  match files w !! p with
  | Some (File data _) => (Ok data, w)
  | Some Dir => (Err ErrIsDir, w)
  | None => (Err ErrNotExist, w)
  end).

(** [os.Stat]: size and [IsDir]. *)
Definition os_Stat (p : path) : IO (Z * bool) := syscall (λ w,
  match files w !! p with
  | Some (File data _) => (Ok (zlen data, false), w)
  | Some Dir => (Ok (0, true), w)
  | None => (Err ErrNotExist, w)
  end).

(** [file.Write]: the number of bytes that reached the file, and the error if any. *)
Definition file_Write (p : path) (data : bytes) : IO (Z * option error) :=
  f ← next_fault;
  ((λ w, match files w !! p with
         | Some (File old synced) =>
             let written := match f with FOk => data | FFail => [] | FShort n => take n data end in
             let err := match f with FOk => None | _ => Some ErrIO end in
             (Ok (zlen written, err), set_files (<[p := File (old ++ written) synced]> (files w)) w)
         | _ => (Ok (0, Some ErrNotExist), w)
         end) : IO (Z * option error)).

Definition file_Sync (p : path) : IO unit := syscall (λ w,
  match files w !! p with
  | Some (File data _) => (Ok (), set_files (<[p := File data (length data)]> (files w)) w)
  | _ => (Err ErrNotExist, w)
  end).

Definition file_Close (p : path) : IO unit := syscall (mret ()).

Definition os_Remove (p : path) : IO unit := syscall (λ w,
  match files w !! p with
  | Some _ => (Ok (), set_files (delete p (files w)) w)
  | None => (Err ErrNotExist, w)
  end).

Definition os_Rename (p q : path) : IO unit := syscall (λ w,
  match files w !! p with
  | Some i => (Ok (), set_files (<[q := i]> (delete p (files w))) w)
  | None => (Err ErrNotExist, w)
  end).

(** Names in byte order, as [os.ReadDir] sorts them. *)
Fixpoint name_leb (a b : bytes) : bool :=
  match a, b with
  | [], _ => true
  | _, [] => false
  | x :: a', y :: b' =>
      if Z_of_byte x <? Z_of_byte y then true
      else if Z_of_byte y <? Z_of_byte x then false else name_leb a' b'
  end.

Fixpoint name_insert (e : bytes * bool) (l : list (bytes * bool)) : list (bytes * bool) :=
  match l with
  | [] => [e]
  | e' :: l' => if name_leb e.1 e'.1 then e :: e' :: l' else e' :: name_insert e l'
  end.

(** The entries of a directory: name and [IsDir]. *)
Definition dir_entries (d : bytes) (w : world) : list (bytes * bool) :=
  foldr name_insert []
    (omap (λ '(p, i), if decide (pdir p = d)
                      then Some (pbase p, match i with Dir => true | _ => false end) else None)
       (map_to_list (files w))).

Definition os_ReadDir (d : bytes) : IO (list (bytes * bool)) := syscall (λ w,
  if decide (d ∈ dirs w) then (Ok (dir_entries d w), w) else (Err ErrNotExist, w)).

(** ** Crashes

    After a crash every file keeps what was fsynced and any prefix of the rest; the calls
    that were to fail are forgotten. *)
Definition crash_inode (i j : inode) : Prop :=
  match i, j with
  | File data synced, File data' synced' =>
      ∃ n, (synced ≤ n)%nat ∧ data' = take n data ∧ synced' = length data'
  | Dir, Dir => True
  | _, _ => False
  end.

Definition crash (w w' : world) : Prop :=
  dirs w' = dirs w ∧ faults w' = [] ∧
  ∀ p, match files w !! p, files w' !! p with
       | Some i, Some j => crash_inode i j
       | None, None => True
       | _, _ => False
       end.

(** The crash that loses every unsynced byte. *)
Definition lose_unsynced (w : world) : world :=
  mkWorld (dirs w)
    ((λ i, match i with
           | File data synced => File (take synced data) (length (take synced data))
           | Dir => Dir
           end) <$> files w) [].

Lemma lose_unsynced_crash w : crash w (lose_unsynced w).
Proof.
  split_and!; [done|done|]. intros p. unfold lose_unsynced. simpl. rewrite lookup_fmap.
  destruct (files w !! p) as [[data synced|]|]; simpl; [|done..]. by exists synced.
Qed.

(** No call is going to fail. *)
Definition quiet (w : world) : Prop := faults w = [].

Lemma syscall_quiet {A} (k : IO A) w : quiet w → syscall k w = k w.
Proof. unfold quiet, syscall, next_fault, mbind, M_bind. by intros ->. Qed.

Lemma set_files_quiet f w : quiet w → quiet (set_files f w).
Proof. done. Qed.

Lemma file_Write_quiet p data w old synced :
  quiet w → files w !! p = Some (File old synced) →
  file_Write p data w = (Ok (zlen data, None), set_files (<[p := File (old ++ data) synced]> (files w)) w).
Proof.
  unfold quiet, file_Write, next_fault, mbind, M_bind. intros -> ->. done.
Qed.

Lemma file_Sync_quiet p w data synced :
  quiet w → files w !! p = Some (File data synced) →
  file_Sync p w = (Ok (), set_files (<[p := File data (length data)]> (files w)) w).
Proof. intros Hq Hp. unfold file_Sync. rewrite syscall_quiet by done. by rewrite Hp. Qed.

Lemma file_Close_quiet p w : quiet w → file_Close p w = (Ok (), w).
Proof. intros Hq. unfold file_Close. by rewrite syscall_quiet. Qed.

Lemma os_Open_quiet p w data synced :
  quiet w → files w !! p = Some (File data synced) → os_Open p w = (Ok data, w).
Proof. intros Hq Hp. unfold os_Open. rewrite syscall_quiet by done. by rewrite Hp. Qed.

Lemma os_Stat_quiet p w data synced :
  quiet w → files w !! p = Some (File data synced) → os_Stat p w = (Ok (zlen data, false), w).
Proof. intros Hq Hp. unfold os_Stat. rewrite syscall_quiet by done. by rewrite Hp. Qed.

Lemma os_OpenAppend_quiet_old p w data synced :
  quiet w → files w !! p = Some (File data synced) → os_OpenAppend p w = (Ok (), w).
Proof. intros Hq Hp. unfold os_OpenAppend. rewrite syscall_quiet by done. by rewrite Hp. Qed.

Lemma os_OpenAppend_quiet_new p w :
  quiet w → files w !! p = None → pdir p ∈ dirs w →
  os_OpenAppend p w = (Ok (), set_files (<[p := File [] 0]> (files w)) w).
Proof.
  intros Hq Hp Hd. unfold os_OpenAppend. rewrite syscall_quiet by done.
  by rewrite Hp, decide_True by done.
Qed.

Lemma os_Create_quiet p w :
  quiet w → files w !! p ≠ Some Dir → pdir p ∈ dirs w →
  os_Create p w = (Ok (), set_files (<[p := File [] 0]> (files w)) w).
Proof.
  intros Hq Hp Hd. unfold os_Create. rewrite syscall_quiet by done.
  destruct (files w !! p) as [[]|]; [done..|]. by rewrite decide_True by done.
Qed.

Lemma os_Remove_quiet p w i :
  quiet w → files w !! p = Some i →
  os_Remove p w = (Ok (), set_files (delete p (files w)) w).
Proof. intros Hq Hp. unfold os_Remove. rewrite syscall_quiet by done. by rewrite Hp. Qed.

Lemma os_ReadDir_quiet d w :
  quiet w → d ∈ dirs w → os_ReadDir d w = (Ok (dir_entries d w), w).
Proof. intros Hq Hd. unfold os_ReadDir. rewrite syscall_quiet by done. by rewrite decide_True by done. Qed.

(** ** Directory entries *)
Lemma elem_name_insert e e' l : e' ∈ name_insert e l ↔ e' = e ∨ e' ∈ l.
Proof.
  induction l as [|x l IH]; simpl; [set_solver|].
  destruct (name_leb _ _); rewrite !elem_of_cons; [done|]. rewrite IH. tauto.
Qed.

Lemma elem_dir_entries d w name isdir :
  (name, isdir) ∈ dir_entries d w ↔
  ∃ i, files w !! mkPath d name = Some i ∧ isdir = match i with Dir => true | _ => false end.
Proof.
  unfold dir_entries.
  assert (∀ l e, e ∈ foldr name_insert [] l ↔ e ∈ l) as Hf.
  { intros l e. induction l as [|x l IH]; simpl; [done|].
    rewrite elem_name_insert, elem_of_cons, IH. done. }
  rewrite Hf, list_elem_of_omap. split.
  - intros ([[pd pb] i] & Hin & Hd). case_decide; simplify_eq/=.
    apply elem_of_map_to_list in Hin. eauto.
  - intros (i & Hi & ->). exists (mkPath d name, i). split; [by apply elem_of_map_to_list|].
    simpl. by rewrite decide_True by done.
Qed.

(** ** Round trip of generated names *)
Lemma digit_value d : 0 ≤ d ≤ 9 → Z_of_byte (digit d) - 48 = d.
Proof. intros Hd. unfold digit. rewrite Z_of_byte_of_Z, Z.mod_small; lia. Qed.

Lemma parse_loop_digit a d s :
  0 ≤ d ≤ 9 → a * 10 + d < 2^64 → parse_loop a (digit d :: s) = parse_loop (a * 10 + d) s.
Proof.
  intros Hd Ha. cbn [parse_loop]. rewrite digit_value by done.
  destruct (_ && _) eqn:E; [done|lia].
Qed.

Lemma parse_dec_loop fuel z acc :
  0 ≤ z < 10 ^ Z.of_nat fuel → z < 2^64 → parse_loop 0 (dec_loop fuel z acc) = parse_loop z acc.
Proof.
  revert z acc. induction fuel as [|fuel IH]; intros z acc Hz Hz'.
  { simpl in Hz. by replace z with 0 by lia. }
  cbn [dec_loop]. pose proof (Z.mod_pos_bound z 10 ltac:(lia)).
  pose proof (Z.div_mod z 10 ltac:(lia)) as Hdm.
  destruct (Z.ltb_spec z 10).
  - rewrite parse_loop_digit by lia. f_equal. rewrite Z.mod_small; lia.
  - rewrite IH, parse_loop_digit; [f_equal; lia|lia|lia| |].
    + split; [apply Z.div_pos; lia|]. apply Z.div_lt_upper_bound; [lia|].
      rewrite Nat2Z.inj_succ, Z.pow_succ_r in Hz by lia. lia.
    + assert (z / 10 ≤ z) by (apply Z.div_le_upper_bound; lia). lia.
Qed.

Lemma parse_zeros n s : parse_loop 0 (replicate n x30 ++ s) = parse_loop 0 s.
Proof. induction n as [|n IH]; simpl; [done|exact IH]. Qed.

Lemma decimal_nonempty z : decimal z ≠ [].
Proof.
  unfold decimal.
  assert (∀ fuel z acc, acc ≠ [] → dec_loop fuel z acc ≠ []) as H.
  { induction fuel as [|f IH]; intros y acc Hacc; cbn [dec_loop]; [done|].
    destruct (_ <? _); [done|]. by apply IH. }
  change (dec_loop 20 z []) with
    (let acc' := [digit (z mod 10)] in if z <? 10 then acc' else dec_loop 19 (z / 10) acc').
  cbv zeta. destruct (_ <? _); [done|]. by apply H.
Qed.

Lemma ParseUint_sprintf06 z : is_u64 z → ParseUint (sprintf06 z) = Some z.
Proof.
  intros Hz. unfold ParseUint, sprintf06.
  destruct (replicate (6 - length (decimal z)) x30 ++ decimal z) as [|c s] eqn:E.
  { apply app_eq_nil in E as [_ E]. by destruct (decimal_nonempty z). }
  rewrite <-E, parse_zeros. unfold decimal, is_u64 in *. rewrite parse_dec_loop; [done| |lia].
  change (10 ^ Z.of_nat 20) with 100000000000000000000. lia.
Qed.

Lemma gen_of_gen_name prefix ext id :
  is_u64 id → gen_of_name prefix ext (gen_name prefix id ext) = Some id.
Proof.
  intros Hid. unfold gen_of_name, gen_name.
  rewrite (assoc_L (++)). unfold HasPrefix at 1.
  rewrite bool_decide_eq_true_2 by apply prefix_app_r, reflexivity.
  unfold HasSuffix at 1. rewrite bool_decide_eq_true_2 by (rewrite (assoc_L (++)); by apply suffix_app_r).
  cbn [andb]. unfold TrimPrefix, HasPrefix.
  rewrite bool_decide_eq_true_2 by apply prefix_app_r, reflexivity. rewrite drop_app_length.
  unfold TrimSuffix, HasSuffix. rewrite bool_decide_eq_true_2 by by apply suffix_app_r.
  rewrite length_app, Nat.add_sub, take_app_length. by apply ParseUint_sprintf06.
Qed.

Lemma gen_name_inj prefix ext id id' :
  is_u64 id → is_u64 id' → gen_name prefix id ext = gen_name prefix id' ext → id = id'.
Proof.
  intros H H' E. apply (gen_of_gen_name prefix ext) in H, H'. rewrite E in H. congruence.
Qed.

(** ** Calls under an arbitrary schedule of failures *)

(** The world after a call: new files, the schedule one shorter. *)
Definition evolves (w : world) (f : gmap path inode) (w' : world) : Prop :=
  dirs w' = dirs w ∧ files w' = f ∧ (quiet w → quiet w').

(** What every specification of a call says of its failure: nothing changed. *)
Definition may_fail {A} (Q : outcome A → world → Prop) (w : world) : Prop :=
  ∀ w', evolves w (files w) w' → ¬ quiet w → Q (Err ErrIO) w'.

Lemma may_fail_quiet {A} (Q : outcome A → world → Prop) w : quiet w → may_fail Q w.
Proof. intros Hq w' _ Hn. by destruct Hn. Qed.
#[export] Hint Resolve may_fail_quiet : core.

Lemma wp_syscall {A} (k : IO A) Q w :
  (∀ w', evolves w (files w) w' → wp k Q w') → may_fail Q w → wp (syscall k) Q w.
Proof.
  intros Hk Hf. unfold syscall. apply wp_bind. unfold wp at 1, next_fault. unfold may_fail, quiet in *.
  destruct (faults w) as [|f fs] eqn:E; cbv beta iota.
  - apply Hk. unfold evolves, quiet. auto.
  - assert (evolves w (files w) (mkWorld (dirs w) (files w) fs)) as He.
    { unfold evolves, quiet. split_and!; [done|done|]. by rewrite E. }
    destruct f; [by apply Hk|by apply Hf..].
Qed.

Lemma evolves_set w w' f : evolves w (files w) w' → evolves w f (set_files f w').
Proof. intros (Hd & _ & Hq). split_and!; [done|done|]. exact Hq. Qed.

Lemma evolves_trans w w' w'' f g : evolves w g w' → evolves w' f w'' → evolves w f w''.
Proof. intros (Hd & _ & Hq) (Hd' & Hf & Hq'). split_and!; [congruence|done|auto]. Qed.

Lemma evolves_not_quiet w w' f : evolves w f w' → ¬ quiet w' → ¬ quiet w.
Proof. intros (_ & _ & Hq) Hn Hq'. auto. Qed.

Lemma evolves_files w f w' : evolves w f w' → files w' = f.
Proof. by intros (_ & ? & _). Qed.

Lemma evolves_same w w' : evolves w (files w) w' → evolves w (files w') w'.
Proof. intros (Hd & _ & Hq). done. Qed.

Section wp_files.
Context (p : path) (w : world) (data : bytes) (synced : nat).
Context (Hp : files w !! p = Some (File data synced)).

Lemma wp_Sync Q :
  (∀ w', evolves w (<[p := File data (length data)]> (files w)) w' → Q (Ok ()) w') →
  may_fail Q w → wp (file_Sync p) Q w.
Proof.
  intros Hk Hf. apply wp_syscall; [|done]. intros w' He. unfold wp.
  destruct He as (Hd & Hfl & Hq). rewrite Hfl, Hp. apply Hk. by split_and!.
Qed.

Lemma wp_Stat Q :
  (∀ w', evolves w (files w) w' → Q (Ok (zlen data, false)) w') → may_fail Q w → wp (os_Stat p) Q w.
Proof.
  intros Hk Hf. apply wp_syscall; [|done]. intros w' He. unfold wp.
  destruct He as (Hd & Hfl & Hq). rewrite Hfl, Hp. apply Hk. by split_and!.
Qed.

Lemma wp_Open Q :
  (∀ w', evolves w (files w) w' → Q (Ok data) w') → may_fail Q w → wp (os_Open p) Q w.
Proof.
  intros Hk Hf. apply wp_syscall; [|done]. intros w' He. unfold wp.
  destruct He as (Hd & Hfl & Hq). rewrite Hfl, Hp. apply Hk. by split_and!.
Qed.

Lemma wp_OpenAppend_old Q :
  (∀ w', evolves w (files w) w' → Q (Ok ()) w') → may_fail Q w → wp (os_OpenAppend p) Q w.
Proof.
  intros Hk Hf. apply wp_syscall; [|done]. intros w' He. unfold wp.
  destruct He as (Hd & Hfl & Hq). rewrite Hfl, Hp. apply Hk. by split_and!.
Qed.

Lemma wp_Remove Q :
  (∀ w', evolves w (delete p (files w)) w' → Q (Ok ()) w') → may_fail Q w → wp (os_Remove p) Q w.
Proof.
  intros Hk Hf. apply wp_syscall; [|done]. intros w' He. unfold wp.
  destruct He as (Hd & Hfl & Hq). rewrite Hfl, Hp. apply Hk. by split_and!.
Qed.

(** A write appends a prefix of the data, all of it when it returns no error. *)
Lemma wp_Write new (Q : outcome (Z * option error) → world → Prop) :
  (∀ n err w', (n ≤ length new)%nat → (err = None → n = length new) → (quiet w → err = None) →
     evolves w (<[p := File (data ++ take n new) synced]> (files w)) w' → Q (Ok (Z.of_nat n, err)) w') →
  wp (file_Write p new) Q w.
Proof.
  intros Hk. unfold file_Write. apply wp_bind. unfold wp at 1, next_fault.
  assert (∀ fs w', w' = mkWorld (dirs w) (files w) fs → (quiet w → quiet w') →
    evolves w (files w) w') as He by (intros fs w' -> Hq; by split_and!).
  destruct (faults w) as [|f fs] eqn:E; cbv beta iota.
  - unfold wp. rewrite Hp. specialize (Hk (length new) None (set_files (<[p := File (data ++ new) synced]> (files w)) w)).
    rewrite take_ge in Hk by done. apply Hk; [done..|]. apply evolves_set. by split_and!.
  - assert (¬ quiet w) as Hnq by (unfold quiet; by rewrite E).
    specialize (He fs _ eq_refl ltac:(done)). unfold wp. cbn [files]. rewrite Hp.
    destruct f as [| |n].
    + specialize (Hk (length new) None). rewrite take_ge in Hk by done. apply Hk; [done..|].
      by apply evolves_set.
    + apply (Hk 0%nat (Some ErrIO)); [lia|done..|]. rewrite take_0. by apply evolves_set.
    + specialize (Hk (n `min` length new)%nat (Some ErrIO)).
      replace (take (n `min` length new) new) with (take n new) in Hk by by rewrite <-take_take, firstn_all.
      unfold zlen. rewrite length_take. apply Hk; [lia|done..|]. by apply evolves_set.
Qed.
End wp_files.

Lemma wp_Close p w Q :
  (∀ w', evolves w (files w) w' → Q (Ok ()) w') → may_fail Q w → wp (file_Close p) Q w.
Proof. intros Hk Hf. apply wp_syscall; [|done]. intros w' He. by apply wp_ret, Hk. Qed.

Lemma wp_OpenAppend_new p w Q :
  files w !! p = None → pdir p ∈ dirs w →
  (∀ w', evolves w (<[p := File [] 0]> (files w)) w' → Q (Ok ()) w') → may_fail Q w →
  wp (os_OpenAppend p) Q w.
Proof.
  intros Hp Hdir Hk Hf. apply wp_syscall; [|done]. intros w' He. unfold wp.
  destruct He as (Hd & Hfl & Hq). rewrite Hfl, Hp, Hd, decide_True by done.
  apply Hk. by split_and!.
Qed.

Lemma wp_ReadDir d w Q :
  d ∈ dirs w →
  (∀ w', evolves w (files w) w' → Q (Ok (dir_entries d w)) w') → may_fail Q w →
  wp (os_ReadDir d) Q w.
Proof.
  intros Hdir Hk Hf. apply wp_syscall; [|done]. intros w' He. unfold wp.
  pose proof He as (Hd & Hfl & Hq). rewrite Hd, decide_True by done.
  replace (dir_entries d w') with (dir_entries d w); [by apply Hk|].
  unfold dir_entries. by rewrite Hfl.
Qed.

(** A file that keeps what was synced and may lose the rest. *)
Lemma crash_lookup w w' p data synced :
  crash w w' → files w !! p = Some (File data synced) →
  ∃ n, (synced ≤ n)%nat ∧ files w' !! p = Some (File (take n data) (length (take n data))).
Proof.
  intros (_ & _ & Hc) Hp. specialize (Hc p). rewrite Hp in Hc.
  destruct (files w' !! p) as [[data' s'|]|]; [|done..].
  destruct Hc as (n & Hn & -> & ->). by exists n.
Qed.

Lemma crash_lookup_inv w w' p j :
  crash w w' → files w' !! p = Some j → ∃ i, files w !! p = Some i ∧ crash_inode i j.
Proof.
  intros (_ & _ & Hc) Hp. specialize (Hc p). rewrite Hp in Hc.
  destruct (files w !! p) as [i|]; [eauto|done].
Qed.

Lemma crash_quiet w w' : crash w w' → quiet w'.
Proof. by intros (_ & ? & _). Qed.

(** Calls that touch one file only. *)
Definition only (p : path) (w w' : world) : Prop :=
  dirs w' = dirs w ∧ (∀ q, q ≠ p → files w' !! q = files w !! q) ∧ (quiet w → quiet w').

Lemma only_trans p w w' w'' : only p w w' → only p w' w'' → only p w w''.
Proof.
  intros (Hd & Hf & Hq) (Hd' & Hf' & Hq'). split_and!; [congruence| |auto].
  intros q Hne. rewrite Hf', Hf; done.
Qed.

Lemma only_same p w w' : evolves w (files w) w' → only p w w'.
Proof. intros (Hd & Hf & Hq). split_and!; [done| |done]. intros q _. by rewrite Hf. Qed.

Lemma only_insert p i w w' : evolves w (<[p := i]> (files w)) w' → only p w w'.
Proof. intros (Hd & Hf & Hq). split_and!; [done| |done]. intros q Hne. rewrite Hf. by rewrite lookup_insert_ne. Qed.

(** One more call on the file after the world [H] leads to. *)
Ltac only_step H :=
  eapply only_trans; [exact H|first [eassumption | by eapply only_same | by eapply only_insert]].

Lemma only_not_quiet p w w' : only p w w' → ¬ quiet w' → ¬ quiet w.
Proof. intros (_ & _ & Hq) Hn Hq'. auto. Qed.

Lemma wp_Create p w Q :
  files w !! p ≠ Some Dir → pdir p ∈ dirs w →
  (∀ w', evolves w (<[p := File [] 0]> (files w)) w' → Q (Ok ()) w') → may_fail Q w →
  wp (os_Create p) Q w.
Proof.
  intros Hp Hdir Hk Hf. apply wp_syscall; [|done]. intros w' He. unfold wp.
  destruct He as (Hd & Hfl & Hq). rewrite Hfl.
  destruct (files w !! p) as [[]|]; [| done|rewrite Hd, decide_True by done]; apply Hk; by split_and!.
Qed.

(** Removing a file that may be gone. *)
Lemma wp_os_Remove_any p wd (Q : outcome unit → world → Prop) :
  (∀ r wd', only p wd wd' → r = Ok () ∨ r = Err ErrNotExist → files wd' !! p = None → Q r wd') →
  (∀ wd', only p wd wd' → ¬ quiet wd → Q (Err ErrIO) wd') →
  wp (os_Remove p) Q wd.
Proof.
  intros HQ Herr. apply wp_syscall; [|intros wd1 He Hq; apply Herr; [by eapply only_same|done]].
  intros wd1 He. unfold wp. rewrite (evolves_files _ _ _ He).
  destruct (files wd !! p) as [i|] eqn:E; apply HQ; [|by left|cbn; apply lookup_delete_eq|by eapply only_same|by right|].
  - destruct He as (Hd & Hf & Hq). split_and!; [done| |done]. intros q Hq'. cbn. by rewrite lookup_delete_ne.
  - by rewrite (evolves_files _ _ _ He).
Qed.

(** A directory lists every name once. *)
Lemma name_insert_perm e l : name_insert e l ≡ₚ e :: l.
Proof.
  induction l as [|y l IH]; simpl; [done|].
  destruct (name_leb _ _); [done|]. rewrite IH. by constructor.
Qed.

Lemma dir_entries_NoDup d w : NoDup (dir_entries d w).
Proof.
  unfold dir_entries.
  assert (∀ l, foldr name_insert [] l ≡ₚ l) as Hp.
  { induction l as [|x l IH]; simpl; [done|]. by rewrite name_insert_perm, IH. }
  rewrite Hp. pose proof (NoDup_fst_map_to_list (files w)) as Hnd. revert Hnd.
  generalize (map_to_list (files w)). induction l as [|[p i] l IH]; [constructor|].
  intros [Hp' Hnd]%NoDup_cons. csimpl. case_decide as Hd; [|by apply IH].
  constructor; [|by apply IH]. intros ([[pd pb] j] & Hin & Hj)%list_elem_of_omap.
  case_decide; simplify_eq/=. apply Hp'. apply list_elem_of_fmap.
  exists (mkPath (pdir p) (pbase p), j). split; [by destruct p|done].
Qed.
