(* ===== verification/WalCodec.v ===== *)
(** * WAL records (wal/wal.go, payload codec, framing and segment parsing)

    The byte layout of a log record, its encoding into a reused buffer, and the parser
    that replays the bytes of one segment, torn tail included. *)
From Stdlib Require Import ZArith Lia Strings.Byte.
From stdpp Require Import base list.
From S2P Require Import Prelude Crc32.

Record WALRecord := mkRecord {
  rTimestamp : Z;
  rSeriesID : Z;
  rDeleted : bool;
  rValue : bytes
}.

Definition recordHeaderSize : Z := 8.
Definition maxRecordSize : Z := Z.shiftl 64 20.
Definition payloadHeaderSize : Z := 8 + 1 + 4 + 8.

Definition payloadEncodedSize (record : WALRecord) : Z := payloadHeaderSize + zlen (rValue record).

Definition flag (b : bool) : byte := if b then x01 else x00.

Definition encodePayload (dst : bytes) (record : WALRecord) : outcome bytes :=
  dst ← go_put dst 0 8 (le_put 8 (u64 (rTimestamp record)));
  dst ← go_store dst 8 (flag (rDeleted record));
  dst ← go_put dst 9 13 (le_put 4 (u32 (zlen (rValue record))));
  dst ← go_put dst 13 21 (le_put 8 (rSeriesID record));
  go_copy dst 21 (rValue record).

Definition serializePayload (record : WALRecord) : outcome bytes :=
  buf ← go_make (payloadEncodedSize record);
  encodePayload buf record.

Definition deserializePayload (data : bytes) : outcome WALRecord :=
  if zlen data <? payloadHeaderSize then Err (ErrWalPayloadShort (zlen data) payloadHeaderSize)
  else
    ts ← go_slice data 0 8;
    del ← go_index data 8;
    len ← go_slice data 9 13;
    sid ← go_slice data 13 21;
    let valueLen := le_get len in
    let valueEnd := payloadHeaderSize + valueLen in
    if zlen data <? valueEnd
    then Err (ErrWalPayloadTruncated valueLen (zlen data - payloadHeaderSize))
    else
      value ← go_slice data payloadHeaderSize valueEnd;
      Ok (mkRecord (i64 (le_get ts)) (le_get sid) (negb (bool_decide (del = x00))) value).

Definition putRecordHeader (buf payload : bytes) : outcome bytes :=
  buf ← go_put buf 0 4 (le_put 4 (ChecksumIEEE payload));
  go_put buf 4 8 (le_put 4 (u32 (zlen payload))).

(** The buffer [AppendRecord] builds; [pooled] is the array of the pooled slice, whatever
    an earlier record left in it. The payload is encoded through [buf[8:]]. *)
Definition frameRecord (pooled : bytes) (record : WALRecord) : outcome bytes :=
  let recordSize := recordHeaderSize + payloadEncodedSize record in
  buf ← (if zlen pooled <? recordSize then go_make recordSize else Ok pooled);
  buf ← go_slice buf 0 recordSize;
  sub ← go_slice buf recordHeaderSize recordSize;
  payload ← encodePayload sub record;
  putRecordHeader (take (Z.to_nat recordHeaderSize) buf ++ payload) payload.

(** [io.ReadFull(reader, make([]byte, n))]: the bytes read and those left. *)
Definition ReadFull (data : bytes) (n : Z) : outcome (bytes * bytes) :=
  if n =? 0 then Ok ([], data)
  else if zlen data =? 0 then Err ErrEOF
  else if zlen data <? n then Err ErrUnexpectedEOF
  else Ok (take (Z.to_nat n) data, drop (Z.to_nat n) data).

Definition is_eof (e : error) : bool := bool_decide (e = ErrEOF).
Definition is_unexpected_eof (e : error) : bool := bool_decide (e = ErrUnexpectedEOF).

(** The loop of [replaySegment] over the bytes of the file. *)
Fixpoint replay_loop (fuel : nat) (tolerateTornTail : bool) (data : bytes) : outcome (list WALRecord) :=
  match fuel with
  | O => OutOfFuel
  | S fuel' =>
      match ReadFull data recordHeaderSize with
      | Err e =>
          if is_eof e then Ok []
          else if tolerateTornTail && is_unexpected_eof e then Ok []
          else Err e
      | Ok (header, data) =>
          c ← go_slice header 0 4;
          n ← go_slice header 4 8;
          let checksum := le_get c in
          let size := le_get n in
          if maxRecordSize <? size then Err (ErrWalRecordSize size maxRecordSize)
          else
            match ReadFull data size with
            | Err e =>
                if tolerateTornTail && (is_eof e || is_unexpected_eof e) then Ok [] else Err e
            | Ok (payload, data) =>
                if negb (ChecksumIEEE payload =? checksum) then Err ErrWalChecksum
                else
                  record ← deserializePayload payload;
                  records ← replay_loop fuel' tolerateTornTail data;
                  Ok (record :: records)
            | Panic p => Panic p
            | OutOfFuel => OutOfFuel
            end
      | Panic p => Panic p
      | OutOfFuel => OutOfFuel
      end
  end.

Definition replay_bytes (tolerateTornTail : bool) (data : bytes) : outcome (list WALRecord) :=
  replay_loop (S (length data)) tolerateTornTail data.

(** ** Layout *)

(** The fields of a record are in the range of their Go types and the log can hold it. *)
Definition record_ok (r : WALRecord) : Prop :=
  is_i64 (rTimestamp r) ∧ is_u64 (rSeriesID r) ∧ payloadEncodedSize r ≤ maxRecordSize.
#[global] Instance record_ok_dec r : Decision (record_ok r).
Proof. unfold record_ok. apply _. Defined.

Definition payload_layout (r : WALRecord) : bytes :=
  le_put 8 (u64 (rTimestamp r)) ++ [flag (rDeleted r)] ++ le_put 4 (u32 (zlen (rValue r)))
  ++ le_put 8 (rSeriesID r) ++ rValue r.

Definition header_layout (payload : bytes) : bytes :=
  le_put 4 (ChecksumIEEE payload) ++ le_put 4 (u32 (zlen payload)).

Definition frame (r : WALRecord) : bytes :=
  header_layout (payload_layout r) ++ payload_layout r.

Definition frames (rs : list WALRecord) : bytes := concat (frame <$> rs).

Arguments frame : simpl never.
Arguments frames : simpl never.
Arguments payload_layout : simpl never.
Arguments header_layout : simpl never.

Lemma zlen_payload_layout r : zlen (payload_layout r) = payloadEncodedSize r.
Proof. unfold payload_layout, payloadEncodedSize, payloadHeaderSize. zlen. Qed.

Lemma zlen_header_layout p : zlen (header_layout p) = recordHeaderSize.
Proof. unfold header_layout, recordHeaderSize. zlen. Qed.

Lemma zlen_frame r : zlen (frame r) = recordHeaderSize + payloadEncodedSize r.
Proof. unfold frame. by rewrite zlen_app, zlen_header_layout, zlen_payload_layout. Qed.

Lemma frames_app rs rs' : frames (rs ++ rs') = frames rs ++ frames rs'.
Proof. unfold frames. by rewrite fmap_app, concat_app. Qed.

Lemma frames_cons r rs : frames (r :: rs) = frame r ++ frames rs.
Proof. done. Qed.

Lemma flag_value b : negb (bool_decide (flag b = x00)) = b.
Proof. by destruct b. Qed.

(** [encodePayload] fills its buffer entirely, whatever it held. *)
Lemma encodePayload_layout dst r :
  zlen dst = payloadEncodedSize r → encodePayload dst r = Ok (payload_layout r).
Proof.
  unfold payloadEncodedSize, payloadHeaderSize. intros Hl. unfold encodePayload.
  rewrite <-(app_nil_l dst) at 1.
  rewrite go_put_next by zlen. cbn [mbind outcome_bind].
  rewrite go_store_next by zlen. cbn [mbind outcome_bind].
  rewrite go_put_next by zlen. cbn [mbind outcome_bind].
  rewrite go_put_next by zlen. cbn [mbind outcome_bind].
  rewrite go_copy_last by zlen.
  unfold payload_layout. by rewrite app_nil_l, <-!(assoc_L (++)).
Qed.

(** The frame does not depend on what the pooled buffer held. *)
Lemma payload_u32 r : payloadEncodedSize r ≤ maxRecordSize → is_u32 (payloadEncodedSize r).
Proof.
  unfold is_u32, payloadEncodedSize, payloadHeaderSize. change maxRecordSize with 67108864.
  pose proof (zlen_nonneg (rValue r)). lia.
Qed.

Lemma frameRecord_frame pooled r :
  is_u32 (payloadEncodedSize r) → frameRecord pooled r = Ok (frame r).
Proof.
  intros [_ Hmax]. unfold frameRecord. set (size := recordHeaderSize + payloadEncodedSize r).
  pose proof (zlen_nonneg (rValue r)).
  assert (0 ≤ size ≤ maxAlloc) as Hsize.
  { unfold size, payloadEncodedSize, payloadHeaderSize, recordHeaderSize, maxAlloc in *. lia. }
  assert (∃ buf, (if zlen pooled <? size then go_make size else Ok pooled) = Ok buf ∧ size ≤ zlen buf)
    as (buf & -> & Hbuf).
  { destruct (Z.ltb_spec (zlen pooled) size); [|eauto]. unfold go_make.
    destruct (_ || _) eqn:E; [lia|]. eexists. split; [done|]. zlen. }
  cbn [mbind outcome_bind].
  destruct (go_slice_spec buf 0 size) as (b & -> & Hb); [lia..|]. cbn [mbind outcome_bind].
  assert (0 ≤ payloadEncodedSize r) as Hp by (unfold payloadEncodedSize, payloadHeaderSize; lia).
  unfold recordHeaderSize in *.
  destruct (go_slice_spec b 8 size) as (sub & -> & Hsub); [lia..|]. cbn [mbind outcome_bind].
  rewrite encodePayload_layout by lia. cbn [mbind outcome_bind].
  set (p := payload_layout r). unfold putRecordHeader.
  assert (length (take (Z.to_nat 8) b) = 8%nat) as Ht.
  { rewrite length_take. unfold zlen in Hb. lia. }
  assert (zlen (take (Z.to_nat 8) b) = 8) as Htz by (unfold zlen; lia).
  rewrite <-(app_nil_l (take _ b ++ p)). rewrite go_put_next by zlen. cbn [mbind outcome_bind].
  rewrite app_nil_l, length_le_put, drop_app_le by lia.
  assert (zlen (drop 4 (take (Z.to_nat 8) b)) = 4) as Hd by zlen.
  rewrite go_put_next by zlen.
  rewrite length_le_put, drop_app_le by (unfold zlen in Hd; lia).
  rewrite (drop_ge (drop _ _)) by (unfold zlen in Hd; lia).
  unfold frame, header_layout. fold p. by rewrite app_nil_l.
Qed.

(** ** Decoding *)
Lemma deserialize_layout r : record_ok r → deserializePayload (payload_layout r) = Ok r.
Proof.
  intros (Hts & Hsid & Hmax). unfold deserializePayload.
  rewrite zlen_payload_layout. unfold payloadEncodedSize, payloadHeaderSize in *.
  pose proof (zlen_nonneg (rValue r)) as Hv.
  destruct (Z.ltb_spec (8 + 1 + 4 + 8 + zlen (rValue r)) (8 + 1 + 4 + 8)); [lia|].
  assert (is_u32 (zlen (rValue r))) as Hlen.
  { unfold is_u32. change maxRecordSize with 67108864 in Hmax. lia. }
  unfold payload_layout. set (data := le_put 8 _ ++ _).
  assert (go_slice data 0 8 = Ok (le_put 8 (u64 (rTimestamp r)))) as -> by slice_field.
  assert (go_index data 8 = Ok (flag (rDeleted r))) as -> by (apply go_index_field; zlen).
  assert (go_slice data 9 13 = Ok (le_put 4 (u32 (zlen (rValue r))))) as -> by slice_field.
  assert (go_slice data 13 21 = Ok (le_put 8 (rSeriesID r))) as -> by slice_field.
  cbn [mbind outcome_bind]. rewrite le_get_put_u32, u32_id by auto with word.
  destruct (Z.ltb_spec (8 + 1 + 4 + 8 + zlen (rValue r)) (8 + 1 + 4 + 8 + zlen (rValue r))); [lia|].
  assert (go_slice data (8 + 1 + 4 + 8) (8 + 1 + 4 + 8 + zlen (rValue r)) = Ok (rValue r)) as -> by slice_field.
  cbn [mbind outcome_bind].
  rewrite flag_value, i64_le_get_put, le_get_put_u64 by done. by destruct r.
Qed.

Lemma deserialize_no_panic data : no_panic (deserializePayload data).
Proof.
  unfold deserializePayload, payloadHeaderSize. destruct (Z.ltb_spec (zlen data) (8 + 1 + 4 + 8)); [done|].
  destruct (go_slice_spec data 0 8) as (a & -> & _); [lia..|]. cbn [mbind outcome_bind].
  destruct (go_index_ok data 8) as (b & ->); [lia|]. cbn [mbind outcome_bind].
  destruct (go_slice_spec data 9 13) as (c & -> & _); [lia..|]. cbn [mbind outcome_bind].
  destruct (go_slice_spec data 13 21) as (d & -> & _); [lia..|]. cbn [mbind outcome_bind].
  pose proof (le_get_range c) as Hc. destruct (Z.ltb_spec (zlen data) (8 + 1 + 4 + 8 + le_get c)); [done|].
  destruct (go_slice_spec data (8 + 1 + 4 + 8) (8 + 1 + 4 + 8 + le_get c)) as (e & -> & _); [lia..|]. done.
Qed.

(** ** Replaying the bytes of a segment *)
Lemma ReadFull_app (a rest : bytes) n : zlen a = n → ReadFull (a ++ rest) n = Ok (a, rest).
Proof.
  intros <-. unfold ReadFull. destruct (Z.eqb_spec (zlen a) 0) as [H0|H0].
  { apply length_zero_iff_nil_zlen in H0 as ->. done. }
  pose proof (zlen_nonneg rest). pose proof (zlen_nonneg a). rewrite zlen_app.
  destruct (Z.eqb_spec (zlen a + zlen rest) 0); [lia|].
  destruct (Z.ltb_spec (zlen a + zlen rest) (zlen a)); [lia|].
  unfold zlen. rewrite Nat2Z.id. by rewrite take_app_length, drop_app_length.
Qed.

Lemma ReadFull_Ok data n a rest :
  ReadFull data n = Ok (a, rest) → 0 ≤ n → data = a ++ rest ∧ zlen a = n.
Proof.
  unfold ReadFull. intros H Hn. destruct (Z.eqb_spec n 0); [by simplify_eq|].
  destruct (Z.eqb_spec (zlen data) 0); [done|]. destruct (Z.ltb_spec (zlen data) n); [done|].
  simplify_eq. rewrite take_drop. split; [done|]. zlen.
Qed.

Lemma ReadFull_short data n :
  zlen data < n → ∃ e, ReadFull data n = Err e ∧ (is_eof e || is_unexpected_eof e) = true ∧
    is_eof e = bool_decide (data = []).
Proof.
  intros H. pose proof (zlen_nonneg data). unfold ReadFull.
  destruct (Z.eqb_spec n 0); [lia|]. destruct (Z.eqb_spec (zlen data) 0) as [He|He].
  - apply length_zero_iff_nil_zlen in He as ->. eauto.
  - destruct (Z.ltb_spec (zlen data) n); [|lia]. eexists. split_and!; [done|done|].
    symmetry. apply bool_decide_eq_false. by intros ->.
Qed.

Lemma ReadFull_cases data n :
  (∃ a rest, ReadFull data n = Ok (a, rest)) ∨ (∃ e, ReadFull data n = Err e).
Proof. unfold ReadFull. repeat case_match; eauto. Qed.

Lemma max_u32 (p : bytes) : zlen p ≤ maxRecordSize → is_u32 (zlen p).
Proof. change maxRecordSize with 67108864. pose proof (zlen_nonneg p). unfold is_u32. lia. Qed.

(** The header of a complete record, parsed. *)
Lemma header_fields p :
  is_u32 (zlen p) →
  go_slice (header_layout p) 0 4 = Ok (le_put 4 (ChecksumIEEE p)) ∧
  go_slice (header_layout p) 4 8 = Ok (le_put 4 (u32 (zlen p))) ∧
  le_get (le_put 4 (ChecksumIEEE p)) = ChecksumIEEE p ∧
  le_get (le_put 4 (u32 (zlen p))) = zlen p.
Proof.
  intros Hp. unfold header_layout. split_and!.
  - slice_field.
  - slice_field.
  - apply le_get_put_u32. auto with word.
  - rewrite le_get_put_u32 by auto with word. by apply u32_id.
Qed.

(** One record, whose payload bytes may have changed on disk. *)
Lemma replay_loop_record fuel tol p p' rest :
  zlen p ≤ maxRecordSize → zlen p' = zlen p →
  replay_loop (S fuel) tol (header_layout p ++ p' ++ rest) =
    if negb (ChecksumIEEE p' =? ChecksumIEEE p) then Err ErrWalChecksum
    else record ← deserializePayload p';
         records ← replay_loop fuel tol rest;
         Ok (record :: records).
Proof.
  intros Hp Hp'. destruct (header_fields p (max_u32 _ Hp)) as (Hs1 & Hs2 & Hv1 & Hv2).
  cbn [replay_loop]. rewrite ReadFull_app by apply zlen_header_layout.
  rewrite Hs1, Hs2. cbn [mbind outcome_bind]. rewrite Hv1, Hv2.
  destruct (Z.ltb_spec maxRecordSize (zlen p)); [lia|].
  by rewrite ReadFull_app.
Qed.

Lemma replay_loop_frame fuel tol r rest :
  record_ok r →
  replay_loop (S fuel) tol (frame r ++ rest) =
    records ← replay_loop fuel tol rest; Ok (r :: records).
Proof.
  intros Hr. unfold frame. rewrite <-(assoc_L (++)).
  rewrite replay_loop_record by (rewrite ?zlen_payload_layout; try done; apply Hr).
  rewrite Z.eqb_refl, deserialize_layout by done. done.
Qed.

Lemma replay_loop_frames fuel tol rs rest :
  Forall record_ok rs →
  replay_loop (length rs + fuel) tol (frames rs ++ rest) =
    records ← replay_loop fuel tol rest; Ok (rs ++ records).
Proof.
  induction 1 as [|r rs Hr Hrs IH].
  { change (frames [] ++ rest) with rest. change (length [] + fuel)%nat with fuel.
    by destruct (replay_loop fuel tol rest). }
  rewrite frames_cons, <-(assoc_L (++)).
  change (length (r :: rs) + fuel)%nat with (S (length rs + fuel)).
  rewrite (replay_loop_frame (length rs + fuel) tol r), IH by done.
  by destruct (replay_loop fuel tol rest).
Qed.

(** The fuel is enough: every round consumes a header. *)
Lemma replay_loop_fuel fuel fuel' tol data :
  (length data < fuel)%nat → (length data < fuel')%nat →
  replay_loop fuel tol data = replay_loop fuel' tol data.
Proof.
  revert fuel' data. induction fuel as [|fuel IH]; intros [|fuel'] data H H'; [lia..|].
  cbn [replay_loop]. destruct (ReadFull data recordHeaderSize) as [[hd d]| | |] eqn:EH; try done.
  apply ReadFull_Ok in EH as [-> Hhd]; [|done].
  destruct (go_slice hd 0 4); [|done..]. destruct (go_slice hd 4 8) as [n| | |]; [|done..].
  cbn [mbind outcome_bind]. destruct (_ <? _); [done|].
  destruct (ReadFull d (le_get n)) as [[p d']| | |] eqn:EP; try done.
  pose proof (le_get_range n) as Hn. apply ReadFull_Ok in EP as [-> Hp]; [|lia].
  destruct (negb _); [done|]. destruct (deserializePayload p); [|done..].
  cbn [mbind outcome_bind]. rewrite (IH fuel'); [done|..];
    rewrite !length_app in *; unfold zlen, recordHeaderSize in *; lia.
Qed.

Lemma replay_loop_no_panic fuel tol data :
  (length data < fuel)%nat → no_panic (replay_loop fuel tol data).
Proof.
  revert data. induction fuel as [|fuel IH]; intros data Hf; [lia|]. cbn [replay_loop].
  destruct (ReadFull_cases data recordHeaderSize) as [(hd & d & EH)|(e & EH)]; rewrite EH;
    [|by repeat case_match].
  apply ReadFull_Ok in EH as [-> Hhd]; [|done]. unfold recordHeaderSize in Hhd.
  destruct (go_slice_spec hd 0 4) as (c & -> & _); [lia..|].
  destruct (go_slice_spec hd 4 8) as (n & -> & _); [lia..|]. cbn [mbind outcome_bind].
  destruct (_ <? _); [done|].
  destruct (ReadFull_cases d (le_get n)) as [(p & d' & EP)|(e & EP)]; rewrite EP; [|by case_match].
  pose proof (le_get_range n) as Hn. apply ReadFull_Ok in EP as [-> Hp]; [|lia].
  destruct (negb _); [done|]. apply no_panic_bind; [apply deserialize_no_panic|].
  intros r _. apply no_panic_bind; [|done]. apply IH.
  rewrite !length_app in Hf. unfold zlen in Hhd. lia.
Qed.

Lemma length_frame r : (8 ≤ length (frame r))%nat.
Proof.
  pose proof (zlen_frame r) as H. pose proof (zlen_nonneg (rValue r)).
  unfold zlen at 1, recordHeaderSize, payloadEncodedSize, payloadHeaderSize in H. lia.
Qed.

Lemma length_frames rs : (length rs ≤ length (frames rs))%nat.
Proof.
  induction rs as [|r rs IH]; [done|]. rewrite frames_cons, length_app.
  pose proof (length_frame r). simpl. lia.
Qed.

(** Complete records, then whatever follows. *)
Lemma replay_bytes_frames tol rs rest :
  Forall record_ok rs →
  replay_bytes tol (frames rs ++ rest) =
    records ← replay_bytes tol rest; Ok (rs ++ records).
Proof.
  intros Hrs. unfold replay_bytes.
  pose proof (length_frames rs). rewrite length_app.
  rewrite (replay_loop_fuel _ (length rs + S (length (frames rs) + length rest))) by (rewrite length_app; lia).
  rewrite replay_loop_frames by done.
  by rewrite (replay_loop_fuel (S (length (frames rs) + length rest)) (S (length rest))) by lia.
Qed.

Lemma replay_bytes_nil tol : replay_bytes tol [] = Ok [].
Proof. done. Qed.

Lemma replay_bytes_complete tol rs :
  Forall record_ok rs → replay_bytes tol (frames rs) = Ok rs.
Proof.
  intros Hrs. rewrite <-(app_nil_r (frames rs)), replay_bytes_frames by done.
  rewrite replay_bytes_nil. cbn. by rewrite app_nil_r.
Qed.

(** A strict prefix of a frame: tolerated at the end of the final segment, an error
    anywhere else. *)
Lemma replay_bytes_torn tol r n :
  record_ok r → (0 < n < length (frame r))%nat →
  replay_bytes tol (take n (frame r)) = Ok [] ∧ tol = true ∨
  (∃ e, replay_bytes tol (take n (frame r)) = Err e) ∧ tol = false.
Proof.
  intros (_ & _ & Hr) Hn. set (p := payload_layout r).
  assert (zlen p ≤ maxRecordSize) as Hp by (unfold p; by rewrite zlen_payload_layout).
  assert (∀ e, (is_eof e || is_unexpected_eof e) = true →
    let res := if tol && (is_eof e || is_unexpected_eof e) then Ok (@nil WALRecord) else Err e in
    res = Ok [] ∧ tol = true ∨ (∃ e', res = Err e') ∧ tol = false) as Hcases.
  { intros e He. cbv zeta. rewrite He. destruct tol; [by left|right; eauto]. }
  assert (zlen (take n (frame r)) = Z.of_nat n) as Hl by (unfold zlen; rewrite length_take; lia).
  unfold replay_bytes. cbn [replay_loop].
  destruct (decide (n < 8)%nat) as [Hn8|Hn8].
  - destruct (ReadFull_short (take n (frame r)) recordHeaderSize) as (e & -> & He & Heof).
    { rewrite Hl. unfold recordHeaderSize. lia. }
    rewrite bool_decide_eq_false_2 in Heof.
    2: { intros E. rewrite E in Hl. unfold zlen in Hl. simpl in Hl. lia. }
    specialize (Hcases e He). by rewrite Heof in *.
  - unfold frame. fold p. pose proof (zlen_header_layout p) as Hh. unfold recordHeaderSize in Hh.
    rewrite take_app_ge by (unfold zlen in Hh; lia).
    rewrite ReadFull_app by apply zlen_header_layout.
    destruct (header_fields p (max_u32 _ Hp)) as (-> & -> & Hv1 & Hv2). cbn [mbind outcome_bind]. rewrite Hv2.
    destruct (Z.ltb_spec maxRecordSize (zlen p)); [lia|].
    destruct (ReadFull_short (take (n - length (header_layout p)) p) (zlen p)) as (e & -> & He & _).
    { unfold frame in Hn. rewrite length_app in Hn. fold p in Hn. unfold zlen in *.
      rewrite length_take. lia. }
    by apply Hcases.
Qed.

Lemma serialize_layout r :
  payloadEncodedSize r ≤ maxRecordSize → serializePayload r = Ok (payload_layout r).
Proof.
  intros Hr. unfold serializePayload, go_make. change maxRecordSize with 67108864 in Hr.
  assert (0 ≤ payloadEncodedSize r).
  { unfold payloadEncodedSize, payloadHeaderSize. pose proof (zlen_nonneg (rValue r)). lia. }
  unfold maxAlloc. destruct (_ || _) eqn:E; [lia|]. cbn [mbind outcome_bind].
  apply encodePayload_layout. zlen.
Qed.

(** ** Claims *)
Section claims.

(** C18: a record survives the log. Whatever the pooled buffer held, [AppendRecord]'s frame
    replays to exactly that record, and [deserializePayload] inverts
    [serializePayload]. *)
Theorem record_roundtrip pooled tol r :
  record_ok r →
  (∃ buf, frameRecord pooled r = Ok buf ∧ replay_bytes tol buf = Ok [r]) ∧
  serializePayload r ≫= deserializePayload = Ok r.
Proof.
  intros Hr. split.
  - exists (frame r). split; [apply frameRecord_frame, payload_u32, Hr|].
    rewrite <-(app_nil_r (frame r)). change (frame r ++ []) with (frames [r]).
    apply replay_bytes_complete. by constructor.
  - rewrite serialize_layout by apply Hr. by apply deserialize_layout.
Qed.

Lemma record_roundtrip_witness :
  (∃ buf, frameRecord [x07; x08] (mkRecord (-5) 7 true [x01]) = Ok buf ∧
    replay_bytes true buf = Ok [mkRecord (-5) 7 true [x01]]) ∧
  serializePayload (mkRecord (-5) 7 true [x01]) ≫= deserializePayload = Ok (mkRecord (-5) 7 true [x01]).
Proof. apply (record_roundtrip [x07; x08] true (mkRecord (-5) 7 true [x01])). by vm_compute. Defined.

(** C19: replaying any bytes at all — a corrupt, truncated or foreign file — terminates with
    records or an error: no slice goes out of range. *)
Theorem replay_never_panics tol data : no_panic (replay_bytes tol data).
Proof. apply replay_loop_no_panic. lia. Qed.

(** A segment that ends in a torn record (a strict prefix of a frame, as a crash leaves
    it) replays all complete records when it is the final segment, and is reported as an
    error when it is not. *)
Lemma replay_torn_tail rs r n :
  Forall record_ok rs → record_ok r → (0 < n < length (frame r))%nat →
  replay_bytes true (frames rs ++ take n (frame r)) = Ok rs ∧
  ∃ e, replay_bytes false (frames rs ++ take n (frame r)) = Err e.
Proof.
  intros Hrs Hr Hn. rewrite !replay_bytes_frames by done. split.
  - destruct (replay_bytes_torn true r n Hr Hn) as [[-> _]|[_ ?]]; [|done]. cbn. by rewrite app_nil_r.
  - destruct (replay_bytes_torn false r n Hr Hn) as [[_ ?]|[[e ->] _]]; [done|]. by exists e.
Qed.

Lemma replay_torn_tail_witness :
  replay_bytes true (frames [mkRecord 1 2 false [x61]] ++ take 11 (frame (mkRecord 3 4 true []))) =
    Ok [mkRecord 1 2 false [x61]] ∧
  ∃ e, replay_bytes false (frames [mkRecord 1 2 false [x61]] ++ take 11 (frame (mkRecord 3 4 true []))) = Err e.
Proof.
  apply (replay_torn_tail [mkRecord 1 2 false [x61]] (mkRecord 3 4 true []) 11).
  - repeat constructor; by vm_compute.
  - by vm_compute.
  - vm_compute. lia.
Defined.

(** C20: corruption of at most four consecutive payload bytes of any record, in any
    segment, is detected: replay stops with the checksum error and returns no record. *)
Theorem replay_detects_corruption tol rs r a w w' b rest :
  Forall record_ok rs → record_ok r →
  payload_layout r = a ++ w ++ b → length w' = length w → (length w ≤ 4)%nat → w' ≠ w →
  replay_bytes tol (frames rs ++ (header_layout (payload_layout r) ++ (a ++ w' ++ b)) ++ rest) =
    Err ErrWalChecksum.
Proof.
  intros Hrs Hr Hp Hl H4 Hne. rewrite replay_bytes_frames by done.
  assert (replay_bytes tol ((header_layout (payload_layout r) ++ (a ++ w' ++ b)) ++ rest) = Err ErrWalChecksum) as ->;
    [|done].
  unfold replay_bytes. rewrite <-(assoc_L (++)).
  rewrite replay_loop_record.
  - destruct (Z.eqb_spec (ChecksumIEEE (a ++ w' ++ b)) (ChecksumIEEE (payload_layout r))) as [E|]; [|done].
    rewrite Hp in E. apply crc_burst in E; [done|lia..|done].
  - rewrite zlen_payload_layout. apply Hr.
  - rewrite Hp. unfold zlen. rewrite !length_app. lia.
Qed.

Lemma replay_detects_corruption_witness :
  replay_bytes false (frames [] ++ (header_layout (payload_layout (mkRecord 1 2 false [x61; x62])) ++
    ((take 21 (payload_layout (mkRecord 1 2 false [x61; x62]))) ++ [x00; x62] ++ [])) ++ []) = Err ErrWalChecksum.
Proof.
  apply (replay_detects_corruption false [] (mkRecord 1 2 false [x61; x62]) _ [x61; x62]).
  - constructor.
  - by vm_compute.
  - by vm_compute.
  - done.
  - simpl. lia.
  - done.
Defined.

(** [AppendRecord] does not check the limit [replaySegment] enforces: the frame of a
    record whose payload is larger than 64 MiB is written like any other, and a segment
    holding it cannot be replayed. *)
Lemma oversized_record_unreadable tol rs r rest :
  Forall record_ok rs → maxRecordSize < payloadEncodedSize r < 2^32 →
  (∀ pooled, frameRecord pooled r = Ok (frame r)) ∧
  replay_bytes tol (frames rs ++ frame r ++ rest) =
    Err (ErrWalRecordSize (payloadEncodedSize r) maxRecordSize).
Proof.
  intros Hrs [Hmax Hr]. set (p := payload_layout r).
  assert (is_u32 (zlen p)) as Hp.
  { unfold p, is_u32. rewrite zlen_payload_layout. change maxRecordSize with 67108864 in Hmax. lia. }
  split.
  { intros pooled. apply frameRecord_frame. unfold p in Hp. by rewrite zlen_payload_layout in Hp. }
  rewrite replay_bytes_frames by done.
  assert (replay_bytes tol (frame r ++ rest) =
    Err (ErrWalRecordSize (payloadEncodedSize r) maxRecordSize)) as ->; [|done].
  destruct (header_fields p Hp) as (Hs1 & Hs2 & Hv1 & Hv2).
  unfold replay_bytes, frame. fold p. rewrite <-(assoc_L (++)). cbn [replay_loop].
  rewrite ReadFull_app by apply zlen_header_layout. rewrite Hs1, Hs2. cbn [mbind outcome_bind].
  rewrite Hv2. unfold p. rewrite zlen_payload_layout.
  destruct (Z.ltb_spec maxRecordSize (payloadEncodedSize r)); [done|lia].
Qed.

Lemma oversized_record_unreadable_witness :
  let r := mkRecord 1 2 false (replicate (Z.to_nat 67108864) x00) in
  (∀ pooled, frameRecord pooled r = Ok (frame r)) ∧
  replay_bytes true (frames [] ++ frame r ++ []) =
    Err (ErrWalRecordSize (payloadEncodedSize r) maxRecordSize).
Proof.
  intros r. apply (oversized_record_unreadable true [] r []); [constructor|].
  unfold r, payloadEncodedSize, payloadHeaderSize. cbn [rValue].
  rewrite zlen_replicate, Z2Nat.id by lia. change maxRecordSize with 67108864. lia.
Defined.
End claims.
