(* ===== verification/Wal.v ===== *)
(** * The segmented write-ahead log (wal/wal.go)

    The [WAL] struct and its methods over the file system of Fs.v: opening (with the
    adoption of a legacy single-file log), appending with rotation and fsync, sealing,
    reclaiming and replaying segments. *)
From Stdlib Require Import ZArith Lia Strings.Byte.
From stdpp Require Import base list gmap sorting.
From S2P Require Import Prelude Crc32 Monad Fs WalCodec.

Definition DefaultMaxSegmentSize : Z := 4 * 1024 * 1024.

Record WAL := mkWAL {
  dir : bytes;
  prefix : bytes;
  ext : bytes;
  maxSegmentSize : Z;
  segmentID : Z;
  size : Z;
  file : option path
}.

Definition with_segment (f : option path) (id sz : Z) (w : WAL) : WAL :=
  mkWAL (dir w) (prefix w) (ext w) (maxSegmentSize w) id sz f.
Definition with_size (sz : Z) (w : WAL) : WAL := with_segment (file w) (segmentID w) sz w.
Definition with_file (f : option path) (w : WAL) : WAL := with_segment f (segmentID w) (size w) w.

Definition segmentPath (w : WAL) (id : Z) : path :=
  mkPath (dir w) (gen_name (prefix w) id (ext w)).

(** [sort.Slice(ids, ...)], ascending. *)
Fixpoint insert_id (id : Z) (ids : list Z) : list Z :=
  match ids with
  | [] => [id]
  | x :: ids' => if id <=? x then id :: ids else x :: insert_id id ids'
  end.
Definition sort_ids (ids : list Z) : list Z := foldr insert_id [] ids.

Definition listSegmentIDs (w : WAL) : IO (list Z) :=
  r ← try (os_ReadDir (dir w));
  match r with
  | inr e => if decide (e = ErrNotExist) then mret [] else fail e
  | inl entries =>
      mret (sort_ids (omap (λ e : bytes * bool,
        if e.2 then None else gen_of_name (prefix w) (ext w) e.1) entries))
  end.

Definition openSegment (id : Z) : M (WAL * world) unit :=
  w ← get_fst;
  on_snd (os_OpenAppend (segmentPath w id));;
  r ← try (on_snd (os_Stat (segmentPath w id)));
  match r with
  | inr e => try (on_snd (file_Close (segmentPath w id)));; fail e
  | inl (n, _) => put_fst (with_segment (Some (segmentPath w id)) id (u64 n) w)
  end.

(** The struct before a segment is opened. *)
Definition new_wal (p : path) (max : Z) : WAL :=
  let max := if max =? 0 then DefaultMaxSegmentSize else max in
  let ext := Ext (pbase p) in
  mkWAL (pdir p) (TrimSuffix (pbase p) ext) ext max 0 0 None.

Definition CreateWALWithSegmentSize (p : path) (max : Z) : IO WAL :=
  let w := new_wal p max in
  ids ← listSegmentIDs w;
  ids ← match ids with
        | [] =>
            st ← try (os_Stat p);
            match st with
            | inl (_, false) =>
                r ← try (os_Rename p (segmentPath w 1));
                match r with inr e => fail (ErrWalMigrate e) | inl _ => mret [1] end
            | _ => mret []
            end
        | _ => mret ids
        end;
  let next := match last ids with Some id => id | None => 1 end in
  '(w', _) ← run_with w (openSegment next);
  mret w'.

Definition CreateWAL (p : path) : IO WAL := CreateWALWithSegmentSize p DefaultMaxSegmentSize.

Definition rotateLocked : M (WAL * world) Z :=
  w ← get_fst;
  let sealed := segmentID w in
  match file w with
  | Some p =>
      on_snd (file_Sync p);;
      on_snd (file_Close p);;
      modify_fst (with_file None)
  | None => mret ()
  end;;
  openSegment (u64 (sealed + 1));;
  mret sealed.

Definition Rotate : M (WAL * world) Z := rotateLocked.

Definition AppendRecord (pooled : bytes) (record : WALRecord) : M (WAL * world) unit :=
  let recordSize := recordHeaderSize + payloadEncodedSize record in
  buf ← lift (frameRecord pooled record);
  w ← get_fst;
  match file w with
  | None => fail ErrWalClosed
  | Some _ =>
      (if (0 <? size w) && (maxSegmentSize w <? u64 (size w + u64 recordSize))
       then rotateLocked;; mret () else mret ());;
      w ← get_fst;
      match file w with
      | None => lift (Panic NilDereference)
      | Some p =>
          '(n, err) ← on_snd (file_Write p buf);
          modify_fst (λ w, with_size (u64 (size w + n)) w);;
          match err with
          | Some e => fail e
          | None => on_snd (file_Sync p)
          end
      end
  end.

Definition CurrentSegment : M (WAL * world) Z := w ← get_fst; mret (segmentID w).

Definition Segments : M (WAL * world) (list Z) := w ← get_fst; on_snd (listSegmentIDs w).

Fixpoint remove_loop (w : WAL) (id : Z) (ids : list Z) (firstErr : option error) : IO (option error) :=
  match ids with
  | [] => mret firstErr
  | sid :: ids' =>
      if (id <? sid) || (sid =? segmentID w) then remove_loop w id ids' firstErr
      else
        r ← try (os_Remove (segmentPath w sid));
        remove_loop w id ids'
          match r, firstErr with
          | inr e, None => if decide (e = ErrNotExist) then None else Some e
          | _, _ => firstErr
          end
  end.

Definition RemoveSegmentsUpTo (id : Z) : M (WAL * world) unit :=
  w ← get_fst;
  ids ← on_snd (listSegmentIDs w);
  firstErr ← on_snd (remove_loop w id ids None);
  match firstErr with Some e => fail e | None => mret () end.

Definition replaySegment (p : path) (tolerateTornTail : bool) : IO (list WALRecord) :=
  r ← try (os_Open p);
  match r with
  | inr e => if decide (e = ErrNotExist) then mret [] else fail e
  | inl data =>
      res ← try (lift (replay_bytes tolerateTornTail data));
      try (file_Close p);;
      match res with inl records => mret records | inr e => fail e end
  end.

Fixpoint replay_segments (w : WAL) (ids : list Z) : IO (list WALRecord) :=
  match ids with
  | [] => mret []
  | id :: ids' =>
      r ← try (replaySegment (segmentPath w id) (bool_decide (ids' = [])));
      match r with
      | inr e => fail (ErrWalReplaySegment id e)
      | inl segmentRecords =>
          records ← replay_segments w ids';
          mret (segmentRecords ++ records)
      end
  end.

Definition Replay : M (WAL * world) (list WALRecord) :=
  w ← get_fst;
  match file w with
  | Some p => on_snd (file_Sync p)
  | None => mret ()
  end;;
  ids ← on_snd (listSegmentIDs w);
  on_snd (replay_segments w ids).

Fixpoint reset_loop (w : WAL) (ids : list Z) : IO unit :=
  match ids with
  | [] => mret ()
  | id :: ids' =>
      r ← try (os_Remove (segmentPath w id));
      match r with
      | inr e => if decide (e = ErrNotExist) then reset_loop w ids' else fail e
      | inl _ => reset_loop w ids'
      end
  end.

Definition Reset : M (WAL * world) unit :=
  w ← get_fst;
  match file w with
  | Some p => on_snd (file_Close p);; modify_fst (with_file None)
  | None => mret ()
  end;;
  w ← get_fst;
  ids ← on_snd (listSegmentIDs w);
  on_snd (reset_loop w ids);;
  openSegment 1.

Definition Close : M (WAL * world) unit :=
  w ← get_fst;
  match file w with
  | None => mret ()
  | Some p =>
      err ← try (on_snd (file_Close p));
      modify_fst (with_file None);;
      match err with inr e => fail e | inl _ => mret () end
  end.

(** A log on an empty directory: append, rotate, reclaim, replay. *)
Definition demo_path : path := mkPath [x64] [x77; x61; x6c; x2e; x6c; x6f; x67].
Definition demo_world : world := mkWorld {[ [x64] ]} ∅ [].
Definition demo_record (t : Z) : WALRecord := mkRecord t 7 false [x61; x62].

Example wal_demo :
  fst (('(w, rs) ← (w ← CreateWALWithSegmentSize demo_path 64;
    run_with w (
      AppendRecord [] (demo_record 1);; AppendRecord [x01] (demo_record 2);;
      AppendRecord [] (demo_record 3);; sealed ← Rotate; AppendRecord [] (demo_record 4);;
      a ← Replay; RemoveSegmentsUpTo sealed;; b ← Replay; ids ← Segments; mret (a, b, ids)));
   mret rs) demo_world) = Ok (demo_record <$> [1; 2; 3; 4], [demo_record 4], [3]).
Proof. vm_compute. reflexivity. Qed.

(** ** Listing *)
Lemma elem_insert_id x id ids : x ∈ insert_id id ids ↔ x = id ∨ x ∈ ids.
Proof.
  induction ids as [|y ids IH]; simpl; [set_solver|].
  destruct (_ <=? _); rewrite !elem_of_cons; [done|]. rewrite IH. tauto.
Qed.

Lemma insert_id_perm id ids : insert_id id ids ≡ₚ id :: ids.
Proof.
  induction ids as [|y ids IH]; simpl; [done|].
  destruct (_ <=? _); [done|]. rewrite IH. by constructor.
Qed.

Lemma sort_ids_perm ids : sort_ids ids ≡ₚ ids.
Proof. induction ids as [|x ids IH]; simpl; [done|]. by rewrite insert_id_perm, IH. Qed.

Lemma insert_id_sorted id ids : StronglySorted Z.le ids → StronglySorted Z.le (insert_id id ids).
Proof.
  induction 1 as [|x ids Hs IH Hall]; simpl; [repeat constructor|].
  rewrite Forall_forall in Hall. destruct (Z.leb_spec id x).
  - constructor; [constructor; [done|by apply Forall_forall]|].
    constructor; [done|]. apply Forall_forall. intros y Hy. specialize (Hall y Hy). lia.
  - constructor; [done|]. apply Forall_forall.
    intros y [->|Hy]%elem_insert_id; [lia|auto].
Qed.

Lemma sort_ids_sorted ids : StronglySorted Z.le (sort_ids ids).
Proof. induction ids; simpl; [constructor|by apply insert_id_sorted]. Qed.

(** A strictly sorted list is the sort of any list with the same elements and no repetition. *)
Lemma sort_ids_unique ids l :
  StronglySorted Z.lt l → NoDup ids → (∀ x, x ∈ ids ↔ x ∈ l) → sort_ids ids = l.
Proof.
  intros Hl Hnd Hel.
  assert (StronglySorted Z.le l) as Hl'.
  { clear -Hl. induction Hl as [|x l Hs IH Hall]; constructor; [done|].
    eapply Forall_impl; [exact Hall|]. simpl. lia. }
  apply (StronglySorted_unique Z.le); [apply sort_ids_sorted|done|].
  rewrite sort_ids_perm. apply NoDup_Permutation; [done| |done].
  clear -Hl. induction Hl as [|x l Hs IH Hall]; constructor; [|done].
  intros Hx. rewrite Forall_forall in Hall. specialize (Hall x Hx). lia.
Qed.

(** The segments of the log on disk, oldest first, with the bytes of each and how many of
    them are fsynced: every segment file is there, and nothing else in the directory has
    a name the listing would take for a segment. *)
Abbreviation segments := (list (Z * (bytes * nat))).

Record wal_files (w : WAL) (wd : world) (segs : segments) : Prop := {
  wf_dir : dir w ∈ dirs wd;
  wf_sorted : StronglySorted Z.lt segs.*1;
  wf_u64 : Forall is_u64 segs.*1;
  wf_present : ∀ id data synced, (id, (data, synced)) ∈ segs →
    files wd !! segmentPath w id = Some (File data synced);
  wf_only : ∀ name i id,
    files wd !! mkPath (dir w) name = Some i →
    gen_of_name (prefix w) (ext w) name = Some id →
    i ≠ Dir ∧ id ∈ segs.*1 ∧ name = gen_name (prefix w) id (ext w)
}.

Lemma listSegmentIDs_spec w wd segs :
  quiet wd → wal_files w wd segs → listSegmentIDs w wd = (Ok segs.*1, wd).
Proof.
  intros Hq Hwf. unfold listSegmentIDs.
  erewrite bind_Ok; [|by apply try_Ok, os_ReadDir_quiet; [|apply Hwf]].
  unfold mret, M_ret. do 2 f_equal. apply sort_ids_unique; [apply Hwf| |].
  - pose proof (dir_entries_NoDup (dir w) wd) as Hnd.
    assert (∀ e, e ∈ dir_entries (dir w) wd → e.2 = false → ∀ id,
      gen_of_name (prefix w) (ext w) e.1 = Some id → e.1 = gen_name (prefix w) id (ext w)) as Hc.
    { intros [name isdir] He ? id Hid. simplify_eq/=.
      apply elem_dir_entries in He as (i & Hi & _).
      by destruct (wf_only _ _ _ Hwf _ _ _ Hi Hid) as (_ & _ & ?). }
    revert Hnd Hc. generalize (dir_entries (dir w) wd). intros l.
    induction l as [|[name isdir] l IH]; [constructor|]. intros [Hn Hnd]%NoDup_cons Hc. csimpl.
    assert (NoDup (omap (λ e : bytes * bool, if e.2 then None
      else gen_of_name (prefix w) (ext w) e.1) l)) as Hl.
    { apply IH; [done|]. intros e He. apply Hc. by right. }
    destruct isdir; [done|]. destruct (gen_of_name _ _ name) as [id|] eqn:Eid; [|done].
    constructor; [|done]. intros ([name' isdir'] & Hin & Hid')%list_elem_of_omap.
    simpl in Hid'. destruct isdir'; [done|]. apply Hn.
    assert (name = gen_name (prefix w) id (ext w)) as -> by (apply (Hc (name, false)); [left|done..]).
    assert (name' = gen_name (prefix w) id (ext w)) as <- by (apply (Hc (name', false)); [by right|done..]).
    done.
  - intros id. rewrite list_elem_of_omap. split.
    + intros ([name isdir] & He & Hid). simpl in Hid. destruct isdir; [done|].
      apply elem_dir_entries in He as (i & Hi & _).
      by destruct (wf_only _ _ _ Hwf _ _ _ Hi Hid) as (_ & ? & _).
    + intros ([id' [data synced]] & -> & Hin)%list_elem_of_fmap.
      pose proof (wf_present _ _ _ Hwf _ _ _ Hin) as Hf.
      exists (gen_name (prefix w) id' (ext w), false). simpl. split.
      * apply elem_dir_entries. eauto.
      * apply gen_of_gen_name. pose proof (wf_u64 _ _ _ Hwf) as Hu. rewrite Forall_forall in Hu.
        by apply Hu; apply elem_of_fst in Hin.
Qed.

(** ** Files of the log *)
Lemma wal_files_cfg w w' wd segs :
  dir w' = dir w → prefix w' = prefix w → ext w' = ext w →
  wal_files w wd segs → wal_files w' wd segs.
Proof.
  intros Hd Hp He [H1 H2 H3 H4 H5]. split; unfold segmentPath in *; rewrite ?Hd, ?Hp, ?He; done.
Qed.

Lemma wal_files_world w wd wd' segs :
  dirs wd' = dirs wd → files wd' = files wd → wal_files w wd segs → wal_files w wd' segs.
Proof. intros Hd Hf [H1 H2 H3 H4 H5]. split; rewrite ?Hd, ?Hf; done. Qed.

Lemma segmentPath_inj w id id' :
  is_u64 id → is_u64 id' → segmentPath w id = segmentPath w id' → id = id'.
Proof. intros H H' [= E]. by eapply gen_name_inj. Qed.

Lemma wal_files_last_fresh w wd segs id sg :
  wal_files w wd (segs ++ [(id, sg)]) → is_u64 id ∧ ∀ x, x ∈ segs.*1 → x < id.
Proof.
  intros [_ Hs Hu _ _]. rewrite fmap_app in Hs, Hu.
  apply Forall_app in Hu as [_ Hu]. apply Forall_cons_1 in Hu as [Hu _].
  apply StronglySorted_app in Hs as (Hlt & _ & _). split; [done|].
  intros x Hx. apply Hlt; [done|]. left.
Qed.

(** Writing the last segment. *)
Lemma wal_files_write w wd segs id sg data synced :
  wal_files w wd (segs ++ [(id, sg)]) →
  wal_files w (set_files (<[segmentPath w id := File data synced]> (files wd)) wd)
    (segs ++ [(id, (data, synced))]).
Proof.
  intros Hwf. destruct (wal_files_last_fresh _ _ _ _ _ Hwf) as [Hid Hfresh].
  destruct Hwf as [H1 H2 H3 H4 H5].
  assert ((segs ++ [(id, (data, synced))]).*1 = (segs ++ [(id, sg)]).*1) as Hk by by rewrite !fmap_app.
  split; rewrite ?Hk; try done.
  - intros id' data' synced' [Hin|Hin%list_elem_of_singleton]%elem_of_app; simpl.
    + rewrite lookup_insert_ne; [apply H4, elem_of_app; by left|].
      rewrite fmap_app, Forall_app, !Forall_forall in H3. destruct H3 as [H3 _].
      assert (id' ∈ segs.*1) as Hin' by by apply elem_of_fst in Hin.
      intros E%segmentPath_inj; [|done|auto]. specialize (Hfresh id' Hin'). lia.
    + simplify_eq. by rewrite lookup_insert_eq.
  - intros name i id' Hi Hg. simpl in Hi.
    destruct (decide (segmentPath w id = mkPath (dir w) name)) as [E|E].
    + rewrite E, lookup_insert_eq in Hi. simplify_eq. split; [done|].
      unfold segmentPath in E. simplify_eq. rewrite gen_of_gen_name in Hg by done. simplify_eq.
      split; [|done]. rewrite fmap_app. apply elem_of_app. right. left.
    + rewrite lookup_insert_ne in Hi by done. by apply H5.
Qed.

(** Creating the next segment. *)
Lemma wal_files_new w wd segs id data synced :
  wal_files w wd segs → is_u64 id → (∀ x, x ∈ segs.*1 → x < id) →
  wal_files w (set_files (<[segmentPath w id := File data synced]> (files wd)) wd)
    (segs ++ [(id, (data, synced))]).
Proof.
  intros [H1 H2 H3 H4 H5] Hid Hfresh. split; simpl; rewrite ?fmap_app; try done.
  - apply StronglySorted_app. split_and!; [|done|repeat constructor].
    intros x y Hx ->%list_elem_of_singleton. auto.
  - apply Forall_app. split; [done|]. constructor; [done|constructor].
  - intros id' data' synced' [Hin|Hin%list_elem_of_singleton]%elem_of_app.
    + rewrite lookup_insert_ne; [by apply H4|].
      rewrite Forall_forall in H3.
      assert (id' ∈ segs.*1) as Hin' by by apply elem_of_fst in Hin.
      intros E%segmentPath_inj; [|done|auto]. specialize (Hfresh id' Hin'). lia.
    + simplify_eq. by rewrite lookup_insert_eq.
  - intros name i id' Hi Hg.
    destruct (decide (segmentPath w id = mkPath (dir w) name)) as [E|E].
    + rewrite E, lookup_insert_eq in Hi. simplify_eq. split; [done|].
      unfold segmentPath in E. simplify_eq. rewrite gen_of_gen_name in Hg by done. simplify_eq.
      split; [|done]. apply elem_of_app. right. left.
    + rewrite lookup_insert_ne in Hi by done.
      destruct (H5 name i id' Hi Hg) as (? & ? & ?). split_and!; [done| |done].
      apply elem_of_app. by left.
Qed.

Lemma wal_files_fresh w wd segs id :
  wal_files w wd segs → is_u64 id → id ∉ segs.*1 → files wd !! segmentPath w id = None.
Proof.
  intros Hwf Hid Hn. destruct (files wd !! segmentPath w id) as [i|] eqn:E; [|done].
  destruct (wf_only _ _ _ Hwf _ _ id E) as (_ & ? & _); [by apply gen_of_gen_name|done].
Qed.

(** The log is open on its last segment. *)
Record wal_open (w : WAL) (wd : world) (segs : segments) (id : Z) (data : bytes) (synced : nat) : Prop := {
  wo_files : wal_files w wd (segs ++ [(id, (data, synced))]);
  wo_file : file w = Some (segmentPath w id);
  wo_id : segmentID w = id;
  wo_size : size w = zlen data;
  wo_small : zlen data ≤ 2^62;
  wo_max : maxSegmentSize w ≤ 2^62
}.

Lemma wo_lookup w wd segs id data synced :
  wal_files w wd (segs ++ [(id, (data, synced))]) →
  files wd !! segmentPath w id = Some (File data synced).
Proof. intros Hwf. apply (wf_present _ _ _ Hwf). apply elem_of_app. right. left. Qed.

(** [openSegment] on a segment that exists, and on a new one. *)
Lemma wp_openSegment_old w wd id data synced Q :
  files wd !! segmentPath w id = Some (File data synced) → zlen data ≤ 2^62 →
  (∀ wd', evolves wd (files wd) wd' →
     Q (Ok ()) (with_segment (Some (segmentPath w id)) id (zlen data) w, wd')) →
  (∀ e wd', evolves wd (files wd) wd' → ¬ quiet wd → Q (Err e) (w, wd')) →
  wp (openSegment id) Q (w, wd).
Proof.
  intros Hl Hs Hok Herr. unfold openSegment. wsteps.
  eapply wp_OpenAppend_old; [done| |intros wd' He Hn; by apply Herr].
  intros wd1 He1. cbv beta iota. wsteps.
  pose proof (evolves_files _ _ _ He1) as Hf1.
  eapply wp_Stat; [by rewrite Hf1| |].
  - intros wd2 He2. cbv beta iota. wsteps. pose proof (zlen_nonneg data).
    rewrite u64_id by (unfold is_u64; lia). rewrite Hf1 in He2. apply Hok. by eapply evolves_trans.
  - intros wd2 He2 Hn. cbv beta iota. wsteps.
    pose proof (evolves_files _ _ _ He2) as Hf2.
    assert (¬ quiet wd) by by eapply evolves_not_quiet.
    assert (evolves wd (files wd) wd2) as He by (rewrite <-Hf1; by eapply evolves_trans).
    apply wp_Close.
    + intros wd3 He3. cbv beta iota. wsteps. apply Herr; [|done].
      rewrite Hf2, Hf1 in He3. by eapply evolves_trans.
    + intros wd3 He3 _. cbv beta iota. wsteps. apply Herr; [|done].
      rewrite Hf2, Hf1 in He3. by eapply evolves_trans.
Qed.

Lemma wp_openSegment_new w wd id Q :
  files wd !! segmentPath w id = None → dir w ∈ dirs wd →
  let f := <[segmentPath w id := File [] 0]> (files wd) in
  (∀ wd', evolves wd f wd' → Q (Ok ()) (with_segment (Some (segmentPath w id)) id 0 w, wd')) →
  (∀ e wd' g, g = files wd ∨ g = f → evolves wd g wd' → ¬ quiet wd → Q (Err e) (w, wd')) →
  wp (openSegment id) Q (w, wd).
Proof.
  intros Hl Hs f Hok Herr. unfold openSegment. wsteps.
  apply wp_OpenAppend_new; [done..| |intros wd' He Hn; apply (Herr _ _ (files wd)); auto].
  intros wd1 He1. cbv beta iota. wsteps.
  pose proof (evolves_files _ _ _ He1) as Hf1.
  eapply wp_Stat; [rewrite Hf1; apply lookup_insert_eq| |].
  - intros wd2 He2. cbv beta iota. wsteps. change (u64 (zlen [])) with 0.
    rewrite Hf1 in He2. apply Hok. by eapply evolves_trans.
  - intros wd2 He2 Hn. cbv beta iota. wsteps.
    pose proof (evolves_files _ _ _ He2) as Hf2.
    assert (¬ quiet wd) by by eapply evolves_not_quiet.
    assert (evolves wd f wd2) as He by (unfold f; rewrite <-Hf1; by eapply evolves_trans).
    apply wp_Close.
    + intros wd3 He3. cbv beta iota. wsteps. apply (Herr _ _ f); [by right| |done].
      rewrite Hf2, Hf1 in He3. by eapply evolves_trans.
    + intros wd3 He3 _. cbv beta iota. wsteps. apply (Herr _ _ f); [by right| |done].
      rewrite Hf2, Hf1 in He3. by eapply evolves_trans.
Qed.

(** ** Contents

    [sealed]: segments that hold complete records only, fsynced. [torn]: what a crash may
    leave of one record. *)
Definition sealed (segs : segments) (rss : list (list WALRecord)) : Prop :=
  Forall2 (λ s rs, s.2.1 = frames rs ∧ s.2.2 = length (frames rs) ∧ Forall record_ok rs) segs rss.

Definition torn (tail : bytes) : Prop :=
  ∃ r n, record_ok r ∧ (n < length (frame r))%nat ∧ tail = take n (frame r).

Lemma torn_nil : torn [].
Proof.
  exists (mkRecord 0 0 false []), 0%nat. split; [by vm_compute|]. split; [|done].
  pose proof (length_frame (mkRecord 0 0 false [])). lia.
Qed.

Lemma replay_bytes_tail rl tail :
  Forall record_ok rl → torn tail → replay_bytes true (frames rl ++ tail) = Ok rl.
Proof.
  intros Hrl (r & n & Hr & Hn & ->). rewrite replay_bytes_frames by done.
  destruct (decide (n = 0)%nat) as [->|Hn0].
  { rewrite take_0, replay_bytes_nil. cbn. by rewrite app_nil_r. }
  destruct (replay_bytes_torn true r n Hr) as [[-> _]|[_ ?]]; [lia| |done].
  cbn. by rewrite app_nil_r.
Qed.

(** ** Replay *)
Lemma replaySegment_quiet p tol wd data synced rs :
  quiet wd → files wd !! p = Some (File data synced) → replay_bytes tol data = Ok rs →
  replaySegment p tol wd = (Ok rs, wd).
Proof.
  intros Hq Hp Hr. unfold replaySegment.
  erewrite bind_Ok; [|by apply try_Ok; eapply os_Open_quiet]. cbv beta iota.
  erewrite bind_Ok; [|apply try_Ok; unfold lift; rewrite Hr; reflexivity].
  by erewrite bind_Ok; [|by apply try_Ok, file_Close_quiet].
Qed.

Lemma replay_segments_quiet w wd segs rss id rl tail synced :
  quiet wd →
  (∀ id data synced, (id, (data, synced)) ∈ segs →
     files wd !! segmentPath w id = Some (File data synced)) →
  files wd !! segmentPath w id = Some (File (frames rl ++ tail) synced) →
  sealed segs rss → Forall record_ok rl → torn tail →
  replay_segments w (segs ++ [(id, (frames rl ++ tail, synced))]).*1 wd = (Ok (concat rss ++ rl), wd).
Proof.
  intros Hq Hpres Hlast Hsealed Hrl Htail.
  induction Hsealed as [|[sid [data sy]] rs segs rss (Hd & _ & Hrs) Hsealed IH].
  - cbn [app fmap list_fmap replay_segments concat].
    rewrite bool_decide_eq_true_2 by done.
    erewrite bind_Ok; [|by apply try_Ok; eapply replaySegment_quiet, replay_bytes_tail]. cbv beta iota.
    erewrite bind_Ok; [|reflexivity]. by rewrite app_nil_r.
  - rewrite <-app_comm_cons, fmap_cons. cbn [replay_segments concat fst].
    simpl in Hd. subst data. rewrite bool_decide_eq_false_2.
    2: { rewrite fmap_app. intros E. by apply app_nil in E as [_ E]. }
    erewrite bind_Ok; [|apply try_Ok; eapply replaySegment_quiet; [done| |by apply (replay_bytes_complete _ rs)]].
    2: { eapply Hpres. left. }
    cbv beta iota. erewrite bind_Ok; [|apply IH].
    + unfold mret, M_ret. by rewrite (assoc_L (++)).
    + intros id' data' sy' Hin. apply Hpres. by right.
Qed.

Definition same_log (w w' : WAL) : Prop :=
  dir w' = dir w ∧ prefix w' = prefix w ∧ ext w' = ext w ∧ maxSegmentSize w' = maxSegmentSize w.

(** ** Appending *)
Lemma wal_files_evolves w wd wd' segs :
  evolves wd (files wd) wd' → wal_files w wd segs → wal_files w wd' segs.
Proof. intros (Hd & Hf & _). by apply wal_files_world. Qed.

Lemma wal_files_write_evolves w wd wd' segs id sg data synced :
  evolves wd (<[segmentPath w id := File data synced]> (files wd)) wd' →
  wal_files w wd (segs ++ [(id, sg)]) → wal_files w wd' (segs ++ [(id, (data, synced))]).
Proof.
  intros (Hd & Hf & _) Hwf%(wal_files_write _ _ _ _ _ data synced).
  by eapply wal_files_world; [..|exact Hwf].
Qed.

Lemma wal_files_new_evolves w wd wd' segs id data synced :
  evolves wd (<[segmentPath w id := File data synced]> (files wd)) wd' →
  wal_files w wd segs → is_u64 id → (∀ x, x ∈ segs.*1 → x < id) →
  wal_files w wd' (segs ++ [(id, (data, synced))]).
Proof.
  intros (Hd & Hf & _) Hwf Hid Hx. eapply wal_files_world; [..|by eapply wal_files_new]; done.
Qed.

Lemma wal_files_next_fresh w wd segs id sg :
  wal_files w wd (segs ++ [(id, sg)]) → ∀ x, x ∈ (segs ++ [(id, sg)]).*1 → x < id + 1.
Proof.
  intros Hwf x Hx. destruct (wal_files_last_fresh _ _ _ _ _ Hwf) as [_ Hf].
  rewrite fmap_app in Hx. apply elem_of_app in Hx as [Hx|Hx%list_elem_of_singleton].
  - specialize (Hf x Hx). lia.
  - simpl in Hx. lia.
Qed.

(** [rotateLocked]: the active segment is synced and sealed and the next one opened; if a
    call fails, the log's files are at worst one empty segment richer. *)
Lemma wp_rotateLocked w wd segs id data synced Q :
  wal_open w wd segs id data synced → id + 1 < 2^64 →
  let segs' := segs ++ [(id, (data, length data))] in
  (∀ w' wd', wal_open w' wd' segs' (id + 1) [] 0 → (quiet wd → quiet wd') →
     w' = with_segment (Some (segmentPath w (id + 1))) (id + 1) 0 w → Q (Ok id) (w', wd')) →
  (∀ e w' wd' sy, (sy = synced ∨ sy = length data) →
     wal_files w' wd' (segs ++ [(id, (data, sy))]) ∨ wal_files w' wd' (segs' ++ [(id + 1, ([], 0%nat))]) →
     same_log w w' →
     ¬ quiet wd → Q (Err e) (w', wd')) →
  wp rotateLocked Q (w, wd).
Proof.
  intros [Hwf Hfile Hid Hsize Hsmall Hmax] Hnext segs' Hok Herr. unfold rotateLocked.
  pose proof (wo_lookup _ _ _ _ _ _ Hwf) as Hl.
  assert (is_u64 id) as Hid64 by by eapply wal_files_last_fresh.
  wsteps. rewrite Hfile, Hid. wsteps.
  eapply wp_Sync; [done| |].
  2: { intros wd' He Hn. apply (Herr _ _ _ synced); [by left| |done..].
       left. by eapply wal_files_evolves. }
  intros wd1 He1. cbv beta iota. wsteps.
  pose proof (wal_files_write_evolves _ _ _ _ _ _ _ _ He1 Hwf) as Hwf1.
  apply wp_Close.
  2: { intros wd' He Hn. cbv beta iota. apply (Herr _ _ _ (length data)); [by right| |done|].
       - left. by eapply wal_files_evolves.
       - by eapply evolves_not_quiet. }
  intros wd2 He2. cbv beta iota. wsteps.
  pose proof (wal_files_evolves _ _ _ _ He2 Hwf1) as Hwf2. fold segs' in Hwf2.
  rewrite u64_id by (unfold is_u64 in *; lia).
  assert (quiet wd → quiet wd2) as Hq2.
  { intros Hq. apply He2. by apply He1. }
  pose proof (wal_files_next_fresh _ _ _ _ _ Hwf2) as Hfresh. fold segs' in Hfresh.
  assert (is_u64 (id + 1)) as Hid1 by (unfold is_u64 in *; lia).
  apply wp_openSegment_new.
  - change (segmentPath (with_file None w) (id + 1)) with (segmentPath w (id + 1)).
    apply (wal_files_fresh _ _ _ _ Hwf2); [done|]. intros Hin. specialize (Hfresh _ Hin). lia.
  - apply Hwf2.
  - intros wd3 He3. cbv beta iota. wsteps. apply Hok.
    + pose proof (wal_files_new_evolves w _ _ _ _ _ _ He3 Hwf2 Hid1 Hfresh) as Hwf3.
      split; try done. by eapply wal_files_cfg; [..|exact Hwf3].
    + intros Hq. by apply He3, Hq2.
    + done.
  - intros e wd3 g Hg He3 Hn. cbv beta iota. apply (Herr _ _ _ (length data)); [by right| |done|auto].
    assert (wal_files (with_file None w) wd2 segs') as Hwf2' by by eapply wal_files_cfg; [..|exact Hwf2].
    destruct Hg as [->| ->]; [left|right].
    + by eapply wal_files_evolves.
    + by eapply wal_files_new_evolves.
Qed.

(** What the disk holds after the segments [pre]: the records [rs], fsynced, and then
    [tail]. *)
Definition wal_disk (pre : segments) (w : WAL) (wd : world) (rs : list WALRecord) (tail : bytes) : Prop :=
  ∃ segs rss id rl synced,
    wal_files w wd ((pre ++ segs) ++ [(id, (frames rl ++ tail, synced))]) ∧ sealed segs rss ∧
    Forall record_ok rl ∧ (length (frames rl) ≤ synced)%nat ∧ zlen (frames rl ++ tail) ≤ 2^62 ∧
    rs = concat rss ++ rl.

(** The log is open and holds [rs] after the segments [pre], all of it fsynced. *)
Definition wal_log (pre : segments) (w : WAL) (wd : world) (rs : list WALRecord) : Prop :=
  ∃ segs rss id rl,
    wal_open w wd (pre ++ segs) id (frames rl) (length (frames rl)) ∧ sealed segs rss ∧
    Forall record_ok rl ∧ rs = concat rss ++ rl.

Lemma sealed_snoc segs rss id rl :
  sealed segs rss → Forall record_ok rl →
  sealed (segs ++ [(id, (frames rl, length (frames rl)))]) (rss ++ [rl]).
Proof. intros Hs Hrl. apply Forall2_app; [done|]. by repeat constructor. Qed.

Lemma frame_small r : record_ok r → 0 < zlen (frame r) ≤ 2^27.
Proof.
  intros (_ & _ & Hr). rewrite zlen_frame. unfold recordHeaderSize, payloadEncodedSize, payloadHeaderSize in *.
  change maxRecordSize with 67108864 in Hr. pose proof (zlen_nonneg (rValue r)). lia.
Qed.

(** The write at the end of [AppendRecord]. *)
Lemma wp_append_write pre w wd segs rss id rl r (Q : outcome unit → WAL * world → Prop) :
  wal_open w wd (pre ++ segs) id (frames rl) (length (frames rl)) → sealed segs rss →
  Forall record_ok rl → record_ok r → zlen (frames rl) + zlen (frame r) ≤ 2^62 →
  (∀ w' wd', wal_log pre w' wd' ((concat rss ++ rl) ++ [r]) → same_log w w' → (quiet wd → quiet wd') →
     segmentID w' = id → size w' = zlen (frames rl) + zlen (frame r) → Q (Ok ()) (w', wd')) →
  (∀ e w' wd' n, wal_disk pre w' wd' (concat rss ++ rl) (take n (frame r)) → same_log w w' →
     ¬ quiet wd → Q (Err e) (w', wd')) →
  wp ('(n, err) ← on_snd (file_Write (segmentPath w id) (frame r));
      modify_fst (λ w, with_size (u64 (size w + n)) w);;
      match err with
      | Some e => fail e
      | None => on_snd (file_Sync (segmentPath w id))
      end) Q (w, wd).
Proof.
  intros [Hwf Hfile Hid Hsize Hsmall Hmax] Hsealed Hrl Hr Hfit Hok Herr.
  pose proof (wo_lookup _ _ _ _ _ _ Hwf) as Hl. pose proof (frame_small r Hr) as Hf.
  wsteps. eapply wp_Write; [done|]. intros n err wd1 Hn Hfull Hq He1. cbv beta iota. wsteps.
  pose proof (wal_files_write_evolves _ _ _ _ _ _ _ _ He1 Hwf) as Hwf1.
  set (w1 := with_size (u64 (size w + Z.of_nat n)) w).
  assert (∀ wd2, evolves wd1 (files wd1) wd2 → wal_disk pre w1 wd2 (concat rss ++ rl) (take n (frame r))) as Hdisk.
  { intros wd2 He2. exists segs, rss, id, rl, (length (frames rl)). split_and!; [|done..| |done].
    - eapply wal_files_cfg; [..|by eapply wal_files_evolves]; done.
    - zlen. }
  destruct err as [e|].
  - apply wp_lift. apply (Herr _ _ _ n); [|done|].
    + apply Hdisk. by eapply evolves_same.
    + intros Hqw. by specialize (Hq Hqw).
  - rewrite Hfull, firstn_all in Hwf1 by done. specialize (Hfull eq_refl). subst n.
    apply wp_on_snd. eapply wp_Sync; [by eapply wo_lookup| |].
    + intros wd2 He2. pose proof (wal_files_write_evolves _ _ _ _ _ _ _ _ He2 Hwf1) as Hwf2.
      assert (frames (rl ++ [r]) = frames rl ++ frame r) as Hfr by (rewrite frames_app; unfold frames at 2; simpl; by rewrite app_nil_r).
      assert (u64 (size w + zlen (frame r)) = zlen (frames rl) + zlen (frame r)) as Hu.
      { pose proof (zlen_nonneg (frames rl)). rewrite Hsize. apply u64_id. unfold is_u64. lia. }
      apply Hok; [|done|intros Hqw; by apply He2, He1|done|exact Hu].
      exists segs, rss, id, (rl ++ [r]). rewrite Hfr. split_and!; [|done| |by rewrite (assoc_L (++))].
      * split; [eapply wal_files_cfg; [..|exact Hwf2]; done|done..| | |done].
        -- rewrite zlen_app. exact Hu.
        -- by rewrite zlen_app.
      * by apply Forall_snoc.
    + intros wd2 He2 Hn2. apply (Herr _ _ _ (length (frame r))); [by apply Hdisk|done|].
      by eapply evolves_not_quiet.
Qed.

Lemma same_log_refl w : same_log w w.
Proof. done. Qed.

Lemma same_log_segmentPath w w' : same_log w w' → segmentPath w' = segmentPath w.
Proof. intros (Hd & Hp & He & _). unfold segmentPath. by rewrite Hd, Hp, He. Qed.

Lemma wal_disk_rotate_failed pre w wd segs rss id rl sy :
  wal_files w wd ((pre ++ segs) ++ [(id, (frames rl, sy))]) ∨
  wal_files w wd (((pre ++ segs) ++ [(id, (frames rl, length (frames rl)))]) ++ [(id + 1, ([], 0%nat))]) →
  (length (frames rl) ≤ sy)%nat → sealed segs rss → Forall record_ok rl → zlen (frames rl) ≤ 2^62 →
  wal_disk pre w wd (concat rss ++ rl) [].
Proof.
  intros [Hwf|Hwf] Hsy Hs Hrl Hsz.
  - exists segs, rss, id, rl, sy. by rewrite app_nil_r.
  - rewrite <-(assoc_L (++) pre segs) in Hwf.
    eexists _, (rss ++ [rl]), _, [], 0%nat. split_and!; [exact Hwf|by apply sealed_snoc|constructor|done|done|].
    by rewrite concat_snoc, app_nil_r.
Qed.

(** [AppendRecord] under any schedule of failures. *)
Lemma wp_AppendRecord pre w wd rs pooled r (Q : outcome unit → WAL * world → Prop) :
  wal_log pre w wd rs → record_ok r → segmentID w + 1 < 2^64 →
  (∀ w' wd', wal_log pre w' wd' (rs ++ [r]) → same_log w w' → (quiet wd → quiet wd') →
     segmentID w ≤ segmentID w' ≤ segmentID w + 1 →
     size w' ≤ Z.max (maxSegmentSize w) (zlen (frame r)) →
     Q (Ok ()) (w', wd')) →
  (∀ e w' wd' n, wal_disk pre w' wd' rs (take n (frame r)) → same_log w w' → ¬ quiet wd →
     Q (Err e) (w', wd')) →
  wp (AppendRecord pooled r) Q (w, wd).
Proof.
  intros (segs & rss & id & rl & Hw & Hsealed & Hrl & ->) Hr Hid Hok Herr. unfold AppendRecord.
  pose proof (frame_small r Hr) as Hf. pose proof (payload_u32 r ltac:(apply Hr)) as Hp32.
  pose proof Hw as [Hwf Hfile Hsid Hsize Hsmall Hmax]. pose proof (zlen_nonneg (frames rl)) as Hl0.
  wsteps. rewrite frameRecord_frame by done. wsteps. rewrite Hfile, <-zlen_frame. wsteps.
  assert (u64 (zlen (frame r)) = zlen (frame r)) as -> by (apply u64_id; unfold is_u64; lia).
  rewrite Hsize, u64_id by (unfold is_u64; lia).
  destruct ((0 <? zlen (frames rl)) && (maxSegmentSize w <? zlen (frames rl) + zlen (frame r))) eqn:E.
  - wsteps. eapply wp_rotateLocked; [done|lia| |].
    + intros w' wd' Hw' Hq' Hwe. pose proof Hw' as [_ Hfile' _ _ _ _]. cbv beta iota. wsteps.
      rewrite Hfile'. apply (wp_append_write pre w' wd' (segs ++ [(id, (frames rl, length (frames rl)))]) (rss ++ [rl]) (id + 1) []);
        [by rewrite (assoc_L (++))|by apply sealed_snoc|constructor|done|
        change (frames []) with (@nil byte); zlen| |].
      * intros w'' wd'' Hlog Hsame Hq'' Hid'' Hsz. apply Hok.
        -- rewrite concat_snoc, app_nil_r in Hlog. exact Hlog.
        -- by rewrite Hwe in Hsame.
        -- auto.
        -- lia.
        -- change (zlen (frames [])) with 0 in Hsz. lia.
      * intros e w'' wd'' n Hdisk Hsame Hn. apply (Herr _ _ _ n); [| |auto].
        -- by rewrite concat_snoc, app_nil_r in Hdisk.
        -- by rewrite Hwe in Hsame.
    + intros e w' wd' sy Hsy Hwf' Hseg Hn. cbv beta iota.
      apply (Herr _ _ _ 0%nat); [|done|done]. rewrite take_0.
      eapply wal_disk_rotate_failed; [exact Hwf'| |done..]. destruct Hsy; lia.
  - wsteps. rewrite Hfile. eapply wp_append_write; [done..|lia| |].
    + intros w' wd' Hlog Hsame Hq' Hid' Hsz. apply Hok; [done|done|done|lia|]. lia.
    + intros e w' wd' n Hdisk Hsame Hn. apply (Herr _ _ _ n); [done..|done].
Qed.

(** ** Opening and replaying a log *)
Lemma openSegment_old w wd segs id data synced :
  quiet wd → wal_files w wd (segs ++ [(id, (data, synced))]) →
  zlen data ≤ 2^62 → maxSegmentSize w ≤ 2^62 →
  ∃ w' wd', openSegment id (w, wd) = (Ok (), (w', wd')) ∧ wal_open w' wd' segs id data synced ∧
    quiet wd' ∧ files wd' = files wd ∧ same_log w w' ∧ dirs wd' = dirs wd.
Proof.
  intros Hq Hwf Hs Hm. pose proof (wo_lookup _ _ _ _ _ _ Hwf) as Hl.
  assert (wp (openSegment id) (λ r s', r = Ok () ∧ wal_open s'.1 s'.2 segs id data synced ∧
    quiet s'.2 ∧ files s'.2 = files wd ∧ same_log w s'.1 ∧ dirs s'.2 = dirs wd) (w, wd)) as Hwp.
  { eapply wp_openSegment_old; [done..| |done]. intros wd' He. cbn.
    split_and!; [done| |by apply He|by apply He|done..|by apply He].
    split; try done. eapply wal_files_cfg; [..|by eapply wal_files_evolves]; done. }
  unfold wp in Hwp. destruct (openSegment id (w, wd)) as [r [w' wd']].
  destruct Hwp as (-> & ? & ? & ? & ? & ?). by exists w', wd'.
Qed.

Lemma openSegment_new w wd segs id :
  quiet wd → wal_files w wd segs → is_u64 id → (∀ x, x ∈ segs.*1 → x < id) →
  maxSegmentSize w ≤ 2^62 →
  ∃ w' wd', openSegment id (w, wd) = (Ok (), (w', wd')) ∧ wal_open w' wd' segs id [] 0 ∧
    quiet wd' ∧ same_log w w'.
Proof.
  intros Hq Hwf Hid Hfresh Hm.
  assert (wp (openSegment id) (λ r s', r = Ok () ∧ wal_open s'.1 s'.2 segs id [] 0 ∧
    quiet s'.2 ∧ same_log w s'.1) (w, wd)) as Hwp.
  { eapply wp_openSegment_new; [|apply Hwf| |done].
    - apply (wal_files_fresh w wd segs); [done..|]. intros Hin. specialize (Hfresh id Hin). lia.
    - intros wd' He. cbn. split_and!; [done| |by apply He|done].
      split; try done. eapply wal_files_cfg; [..|by eapply wal_files_new_evolves]; done. }
  unfold wp in Hwp. destruct (openSegment id (w, wd)) as [r [w' wd']].
  destruct Hwp as (-> & ? & ? & ?). by exists w', wd'.
Qed.

Definition segment_size (max : Z) : Z := if max =? 0 then DefaultMaxSegmentSize else max.

(** [CreateWAL] continues the newest segment it finds. *)
Lemma CreateWAL_old p max wd segs id data synced :
  quiet wd → wal_files (new_wal p max) wd (segs ++ [(id, (data, synced))]) →
  zlen data ≤ 2^62 → segment_size max ≤ 2^62 →
  ∃ w' wd', CreateWALWithSegmentSize p max wd = (Ok w', wd') ∧ wal_open w' wd' segs id data synced ∧
    quiet wd' ∧ files wd' = files wd ∧ same_log (new_wal p max) w' ∧ dirs wd' = dirs wd.
Proof.
  intros Hq Hwf Hs Hm. unfold CreateWALWithSegmentSize.
  destruct (openSegment_old _ _ _ _ _ _ Hq Hwf Hs Hm) as (w' & wd' & Ho & Hw' & Hrest).
  exists w', wd'. split; [|done].
  erewrite bind_Ok; [|by eapply listSegmentIDs_spec]. rewrite fmap_app. cbn [fmap list_fmap fst].
  destruct (segs.*1 ++ [id]) as [|x l] eqn:E; [by destruct (segs.*1)|].
  erewrite bind_Ok; [|reflexivity]. rewrite <-E, last_snoc.
  erewrite bind_Ok; [|unfold run_with; rewrite Ho; reflexivity]. done.
Qed.

(** Nothing there: segment 1 is created. *)
Lemma CreateWAL_empty p max wd :
  quiet wd → wal_files (new_wal p max) wd [] → files wd !! p = None → segment_size max ≤ 2^62 →
  ∃ w' wd', CreateWALWithSegmentSize p max wd = (Ok w', wd') ∧ wal_open w' wd' [] 1 [] 0 ∧
    quiet wd' ∧ same_log (new_wal p max) w'.
Proof.
  intros Hq Hwf Hn Hm. unfold CreateWALWithSegmentSize.
  destruct (openSegment_new _ _ _ 1 Hq Hwf) as (w' & wd' & Ho & Hrest); [done|set_solver|done|].
  exists w', wd'. split; [|done].
  erewrite bind_Ok; [|by eapply listSegmentIDs_spec]. cbn [fmap list_fmap].
  rewrite (bind_Ok _ _ wd [] wd).
  2: { erewrite bind_Ok; [|eapply try_Err; unfold os_Stat;
         rewrite syscall_quiet by done; rewrite Hn; reflexivity]. done. }
  cbn [last]. erewrite bind_Ok; [|unfold run_with; rewrite Ho; reflexivity]. done.
Qed.

(** A log of one file at the base path is adopted as segment 1. *)
Lemma CreateWAL_legacy p max wd data synced :
  quiet wd → wal_files (new_wal p max) wd [] → files wd !! p = Some (File data synced) →
  zlen data ≤ 2^62 → segment_size max ≤ 2^62 →
  ∃ w' wd', CreateWALWithSegmentSize p max wd = (Ok w', wd') ∧ wal_open w' wd' [] 1 data synced ∧
    quiet wd' ∧ files wd' !! p = None ∧ same_log (new_wal p max) w'.
Proof.
  intros Hq Hwf Hp Hs Hm. set (w := new_wal p max) in *.
  assert (p ≠ segmentPath w 1) as Hne.
  { intros E. rewrite E, (wal_files_fresh _ _ _ _ Hwf) in Hp; [done|done|set_solver]. }
  set (wd1 := set_files (<[segmentPath w 1 := File data synced]> (delete p (files wd))) wd).
  assert (wal_files w wd1 ([] ++ [(1, (data, synced))])) as Hwf1.
  { refine (wal_files_new w (set_files (delete p (files wd)) wd) [] 1 data synced _ _ _); [|done|set_solver].
    destruct Hwf as [H1 H2 H3 H4 H5]. split; try done; [set_solver|].
    intros name i id Hi Hg. simpl in Hi.
    apply (H5 name i id); [|done]. by apply lookup_delete_Some in Hi as [_ Hi]. }
  destruct (openSegment_old w wd1 [] 1 data synced) as (w' & wd' & Ho & Hw' & Hq' & Hf' & Hsame & _); [done..|].
  unfold CreateWALWithSegmentSize. fold w. exists w', wd'. split_and!; try done.
  - erewrite bind_Ok; [|by eapply listSegmentIDs_spec]. cbn [fmap list_fmap].
    rewrite (bind_Ok _ _ wd [1] wd1).
    2: { erewrite bind_Ok; [|eapply try_Ok; by eapply os_Stat_quiet]. cbv beta iota.
         erewrite bind_Ok; [|eapply try_Ok; unfold os_Rename; rewrite syscall_quiet by done;
           rewrite Hp; reflexivity]. reflexivity. }
    cbn [last]. fold wd1. erewrite bind_Ok; [|unfold run_with; rewrite Ho; reflexivity]. done.
  - rewrite Hf'. simpl. rewrite lookup_insert_ne by done. apply lookup_delete_eq.
Qed.

Lemma Replay_open w wd segs rss id rl tail synced :
  quiet wd → wal_open w wd segs id (frames rl ++ tail) synced → sealed segs rss →
  Forall record_ok rl → torn tail →
  ∃ wd', Replay (w, wd) = (Ok (concat rss ++ rl), (w, wd')) ∧ quiet wd' ∧
    wal_open w wd' segs id (frames rl ++ tail) (length (frames rl ++ tail)) ∧
    files wd' = <[segmentPath w id := File (frames rl ++ tail) (length (frames rl ++ tail))]> (files wd) ∧ dirs wd' = dirs wd.
Proof.
  intros Hq [Hwf Hfile Hid Hsize Hsmall Hmax] Hsealed Hrl Htail.
  pose proof (wo_lookup _ _ _ _ _ _ Hwf) as Hl.
  set (wd' := set_files (<[segmentPath w id := File (frames rl ++ tail) (length (frames rl ++ tail))]> (files wd)) wd).
  pose proof (wal_files_write _ _ _ _ _ (frames rl ++ tail) (length (frames rl ++ tail)) Hwf) as Hwf'. fold wd' in Hwf'.
  exists wd'. split_and!; [|done|by split|done..].
  unfold Replay. erewrite bind_Ok; [|reflexivity]. rewrite Hfile.
  erewrite bind_Ok; [|apply on_snd_run; by eapply file_Sync_quiet]. fold wd'.
  erewrite bind_Ok; [|apply on_snd_run; by apply listSegmentIDs_spec].
  apply on_snd_run. apply replay_segments_quiet; try done.
  - intros sid data sy Hin. apply (wf_present _ _ _ Hwf'). apply elem_of_app. by left.
  - by eapply wo_lookup.
Qed.

(** ** Crashes *)
Lemma crash_sealed w wd wd' segs rss :
  crash wd wd' → sealed segs rss →
  (∀ id data synced, (id, (data, synced)) ∈ segs → files wd !! segmentPath w id = Some (File data synced)) →
  ∀ id data synced, (id, (data, synced)) ∈ segs → files wd' !! segmentPath w id = Some (File data synced).
Proof.
  intros Hc Hs Hp id data synced Hin. destruct (crash_lookup _ _ _ _ _ Hc (Hp _ _ _ Hin)) as (n & Hn & ->).
  apply list_elem_of_lookup in Hin as [i Hi].
  destruct (Forall2_lookup_l _ _ _ _ _ Hs Hi) as (rs & _ & Hd & Hsy & _). simpl in Hd, Hsy. subst.
  by rewrite take_ge.
Qed.

Lemma crash_disk w wd wd' rs r n :
  record_ok r → crash wd wd' → wal_disk [] w wd rs (take n (frame r)) →
  ∃ m, wal_disk [] w wd' rs (take m (frame r)) ∧ (m ≤ n)%nat.
Proof.
  intros Hr Hc (segs & rss & id & rl & synced & Hwf & Hs & Hrl & Hsy & Hsz & ->).
  destruct (crash_lookup _ _ _ _ _ Hc (wo_lookup _ _ _ _ _ _ Hwf)) as (k & Hk & Hl).
  rewrite take_app_ge in Hl by lia. rewrite take_take in Hl.
  set (m := (((k - length (frames rl)) `min` n))%nat) in *.
  exists m. split; [|lia]. exists segs, rss, id, rl, (length (frames rl ++ take m (frame r))).
  assert (zlen (frames rl ++ take m (frame r)) ≤ zlen (frames rl ++ take n (frame r))) as Hle by (zlen; lia).
  split_and!; [|done|done| |lia|done].
  - pose proof Hwf as [H1 H2 H3 H4 H5]. split.
    + by rewrite (proj1 Hc).
    + by rewrite !fmap_app in *.
    + by rewrite !fmap_app in *.
    + intros sid data sy [Hin|Hin%list_elem_of_singleton]%elem_of_app; [|by simplify_eq].
      eapply crash_sealed; [done..| |done]. intros ? ? ? ?. apply H4, elem_of_app. by left.
    + intros name j sid Hj Hg. destruct (crash_lookup_inv _ _ _ _ Hc Hj) as (i & Hi & Hij).
      destruct (H5 _ _ _ Hi Hg) as (Hd & Hsid & ?). rewrite !fmap_app in *. split_and!; [|done..].
      intros ->. by destruct i.
  - rewrite length_app. lia.
Qed.

Lemma log_disk w wd rs : wal_log [] w wd rs → wal_disk [] w wd rs [].
Proof.
  intros (segs & rss & id & rl & [Hwf _ _ _ Hsmall _] & Hs & Hrl & ->).
  exists segs, rss, id, rl, (length (frames rl)). by rewrite app_nil_r.
Qed.

(** Reopening what a crash left: the record being appended is there entirely or not at
    all. *)
Lemma reopen_disk p max wd rs r m :
  quiet wd → wal_disk [] (new_wal p max) wd rs (take m (frame r)) → record_ok r → segment_size max ≤ 2^62 →
  ∃ w' wd', (w ← CreateWALWithSegmentSize p max; run_with w Replay) wd =
    (Ok (w', if (m <? length (frame r))%nat then rs else rs ++ [r]), wd').
Proof.
  intros Hq (segs & rss & id & rl & synced & Hwf & Hs & Hrl & _ & Hsz & ->) Hr Hm.
  destruct (CreateWAL_old _ _ _ _ _ _ _ Hq Hwf Hsz Hm) as (w & wd1 & Ho & Hw & Hq1 & _).
  assert (∃ wd2, Replay (w, wd1) = (Ok (if (m <? length (frame r))%nat then concat rss ++ rl
    else (concat rss ++ rl) ++ [r]), (w, wd2))) as (wd2 & Hrep).
  { destruct (Nat.ltb_spec m (length (frame r))) as [Hlt|Hge].
    - destruct (Replay_open _ _ _ _ _ _ _ _ Hq1 Hw Hs Hrl) as (wd2 & -> & _); [by exists r, m|eauto].
    - assert (frames rl ++ take m (frame r) = frames (rl ++ [r]) ++ []) as E.
      { rewrite take_ge, frames_app, app_nil_r by lia. unfold frames at 3. simpl. by rewrite app_nil_r. }
      rewrite E in Hw.
      destruct (Replay_open _ _ _ _ _ _ _ _ Hq1 Hw Hs) as (wd2 & -> & _);
        [by apply Forall_snoc|apply torn_nil|]. rewrite (assoc_L (++)). eauto. }
  exists w, wd2. erewrite bind_Ok; [|exact Ho]. unfold run_with. by rewrite Hrep.
Qed.

Lemma wal_disk_cfg w w' wd rs tail :
  dir w' = dir w → prefix w' = prefix w → ext w' = ext w → wal_disk [] w wd rs tail → wal_disk [] w' wd rs tail.
Proof.
  intros Hd Hp He (segs & rss & id & rl & synced & Hwf & H).
  exists segs, rss, id, rl, synced. split; [by eapply wal_files_cfg; [..|exact Hwf]|done].
Qed.

(** ** Appending many records *)
Fixpoint append_all (rs : list (bytes * WALRecord)) : M (WAL * world) unit :=
  match rs with
  | [] => mret ()
  | (pooled, r) :: rs' => AppendRecord pooled r;; append_all rs'
  end.

Lemma wp_append_all pre rs old w wd Q :
  quiet wd → wal_log pre w wd old → Forall (λ x, record_ok x.2) rs → segmentID w + zlen rs < 2^64 →
  (∀ w' wd', quiet wd' → wal_log pre w' wd' (old ++ rs.*2) → same_log w w' → Q (Ok ()) (w', wd')) →
  wp (append_all rs) Q (w, wd).
Proof.
  revert old w wd. induction rs as [|[pooled r] rs IH]; intros old w wd Hq Hlog Hrs Hid HQ.
  { cbn [append_all]. apply wp_ret, HQ; [done| |done]. cbn. by rewrite app_nil_r. }
  apply Forall_cons_1 in Hrs as [Hr Hrs]. rewrite zlen_cons in Hid. pose proof (zlen_nonneg rs).
  cbn [append_all]. wsteps. apply (wp_AppendRecord pre w wd old); [done|done|lia| |done].
  intros w1 wd1 Hlog1 Hsame Hq1 Hid1 _. cbv beta iota.
  apply (IH (old ++ [r])); [auto|done|done|lia|].
  intros w' wd' Hq' Hlog' Hsame'. apply HQ; [done| |].
  - rewrite <-(assoc_L (++)) in Hlog'. exact Hlog'.
  - unfold same_log in *. intuition congruence.
Qed.

(** ** Reclaiming *)
Lemma sorted_remove (a b : list Z) x :
  StronglySorted Z.lt (a ++ x :: b) → StronglySorted Z.lt (a ++ b) ∧ x ∉ a ++ b.
Proof.
  intros (Hab & Ha & Hb)%StronglySorted_app. apply StronglySorted_inv in Hb as [Hb Hx].
  rewrite Forall_forall in Hx. split.
  - apply StronglySorted_app. split_and!; [|done..]. intros y z Hy Hz. apply Hab; [done|by right].
  - intros [Hin|Hin]%elem_of_app.
    + specialize (Hab x x Hin ltac:(left)). lia.
    + specialize (Hx x Hin). lia.
Qed.

Lemma wal_files_delete w wd wd' pre id sg rest :
  evolves wd (delete (segmentPath w id) (files wd)) wd' →
  wal_files w wd (pre ++ (id, sg) :: rest) → wal_files w wd' (pre ++ rest).
Proof.
  intros (Hd & Hf & _) [H1 H2 H3 H4 H5]. rewrite !fmap_app, fmap_cons in *. cbn [fst] in *.
  apply sorted_remove in H2 as [Hs Hni]. rewrite <-fmap_app in Hni.
  apply Forall_app in H3 as [H3 H3']. apply Forall_cons_1 in H3' as [Hid H3'].
  split; rewrite ?fmap_app, ?Hd, ?Hf; [done|done|by apply Forall_app| |].
  - intros id' data synced Hin. rewrite lookup_delete_ne.
    + apply H4. rewrite elem_of_app, elem_of_cons. apply elem_of_app in Hin as [?|?]; auto.
    + pose proof (elem_of_fst _ _ _ Hin) as Hin'. intros E%segmentPath_inj; [|done|].
      * by subst.
      * rewrite fmap_app in Hin'. rewrite Forall_forall in H3, H3'.
        apply elem_of_app in Hin' as [?|?]; auto.
  - intros name i id' [Hne Hi]%lookup_delete_Some Hg. destruct (H5 _ _ _ Hi Hg) as (? & Hin & ->).
    split_and!; [done| |done]. rewrite elem_of_app, elem_of_cons in Hin.
    destruct Hin as [?|[->|?]]; [..|apply elem_of_app; by right]; [apply elem_of_app; by left|done].
Qed.

(** The segments [RemoveSegmentsUpTo] is to keep. *)
Definition kept (w : WAL) (id : Z) (s : Z * (bytes * nat)) : bool :=
  (id <? s.1) || (s.1 =? segmentID w).

Lemma wp_remove_loop w id rest pre wd err Q :
  wal_files w wd (pre ++ rest) →
  (∀ o wd' rest', wal_files w wd' (pre ++ rest') →
     rest' `sublist_of` rest → filter (kept w id) rest `sublist_of` rest' →
     (quiet wd → o = err ∧ rest' = filter (kept w id) rest ∧ quiet wd') → Q (Ok o) wd') →
  wp (remove_loop w id rest.*1 err) Q wd.
Proof.
  revert pre wd err Q. induction rest as [|[sid sg] rest IH]; intros pre wd err Q Hwf HQ.
  { cbn [fmap list_fmap remove_loop]. wsteps. by apply (HQ _ _ []). }
  rewrite fmap_cons. cbn [remove_loop fst].
  assert (wal_files w wd ((pre ++ [(sid, sg)]) ++ rest)) as Hwf' by by rewrite <-(assoc_L (++)).
  assert (filter (kept w id) ((sid, sg) :: rest) = if (id <? sid) || (sid =? segmentID w)
    then (sid, sg) :: filter (kept w id) rest else filter (kept w id) rest) as Hfilter.
  { rewrite filter_cons. case_decide as Hk; unfold kept in Hk; cbn [fst] in Hk; by destruct (_ || _). }
  destruct ((id <? sid) || (sid =? segmentID w)) eqn:E.
  - apply (IH _ _ _ _ Hwf'). intros o wd' rest' H1 H2 H3 H4. rewrite <-(assoc_L (++)) in H1.
    apply (HQ _ _ ((sid, sg) :: rest')); [done|by apply sublist_skip|rewrite Hfilter; by apply sublist_skip|].
    intros Hq. destruct (H4 Hq) as (-> & -> & ?). by rewrite Hfilter.
  - wsteps. destruct sg as [data sy].
    assert (files wd !! segmentPath w sid = Some (File data sy)) as Hl.
    { apply (wf_present _ _ _ Hwf), elem_of_app. right. left. }
    eapply wp_Remove; [exact Hl| |].
    + intros wd1 He1. cbv beta iota. pose proof (wal_files_delete _ _ _ _ _ _ _ He1 Hwf) as Hwf1.
      destruct err; apply (IH _ _ _ _ Hwf1); intros o wd' rest' H1 H2 H3 H4;
        (apply (HQ _ _ rest'); [done|by apply sublist_cons|by rewrite Hfilter|]);
        intros Hq; rewrite Hfilter; by apply H4, He1.
    + intros wd1 He1 Hn. cbv beta iota. pose proof (wal_files_evolves _ _ _ _ He1 Hwf') as Hwf1.
      apply (IH _ _ _ _ Hwf1). intros o wd' rest' H1 H2 H3 _. rewrite <-(assoc_L (++)) in H1.
      apply (HQ _ _ ((sid, (data, sy)) :: rest')); [done|by apply sublist_skip|rewrite Hfilter; by apply sublist_cons|].
      intros Hq. by destruct Hn.
Qed.

Lemma RemoveSegmentsUpTo_quiet w wd id segs :
  quiet wd → wal_files w wd segs →
  ∃ wd', RemoveSegmentsUpTo id (w, wd) = (Ok (), (w, wd')) ∧ quiet wd' ∧
    wal_files w wd' (filter (kept w id) segs).
Proof.
  intros Hq Hwf. unfold RemoveSegmentsUpTo. erewrite bind_Ok; [|reflexivity].
  erewrite bind_Ok; [|by apply on_snd_run; eapply listSegmentIDs_spec].
  assert (wp (remove_loop w id segs.*1 None) (λ r wd', r = Ok None ∧ quiet wd' ∧
    wal_files w wd' (filter (kept w id) segs)) wd) as Hwp.
  { apply (wp_remove_loop _ _ _ [] _ _ _ Hwf). intros o wd' rest' H1 _ _ H4.
    destruct (H4 Hq) as (-> & -> & ?). done. }
  unfold wp in Hwp. destruct (remove_loop w id segs.*1 None wd) as [r wd'] eqn:E.
  destruct Hwp as (-> & Hq' & Hwf'). exists wd'. split; [|done].
  by erewrite bind_Ok; [|by apply on_snd_run].
Qed.

(** Reclaiming up to [k] keeps exactly what was written to later segments. *)
Lemma kept_split w k (pre segs : segments) id sg :
  StronglySorted Z.lt ((pre ++ segs) ++ [(id, sg)]).*1 → segmentID w = id →
  k ∈ pre.*1 → (∀ x, x ∈ pre.*1 → x ≤ k) →
  filter (kept w k) ((pre ++ segs) ++ [(id, sg)]) = segs ++ [(id, sg)].
Proof.
  intros Hs Hid Hk Hpre. rewrite !fmap_app in Hs.
  apply StronglySorted_app in Hs as (Hlt & (Hsegs & _ & _)%StronglySorted_app & _). rewrite !filter_app, (filter_none _ pre).
  - rewrite !filter_all; [done| |].
    + intros [x d] ->%list_elem_of_singleton. unfold kept. simpl.
      by rewrite Hid, Z.eqb_refl, orb_true_r.
    + intros [x d] Hx%elem_of_fst%(Hsegs k x Hk). unfold kept. simpl.
      by replace (k <? x) with true by lia.
  - intros [x d] Hx%elem_of_fst. unfold kept. simpl.
    assert (x < id) by (apply Hlt; [apply elem_of_app; by left|left]).
    specialize (Hpre x Hx). replace (k <? x) with false by lia. replace (x =? segmentID w) with false by lia. by intros [].
Qed.

Lemma Rotate_log w wd rs :
  quiet wd → wal_log [] w wd rs → segmentID w + 1 < 2^64 →
  ∃ w' wd' pre, Rotate (w, wd) = (Ok (segmentID w), (w', wd')) ∧ quiet wd' ∧ wal_log pre w' wd' [] ∧
    segmentID w ∈ pre.*1 ∧ (∀ x, x ∈ pre.*1 → x ≤ segmentID w) ∧ segmentID w' = segmentID w + 1 ∧
    maxSegmentSize w' = maxSegmentSize w.
Proof.
  intros Hq (segs & rss & id & rl & Hw & Hs & Hrl & ->) Hid.
  set (pre := segs ++ [(id, (frames rl, length (frames rl)))]).
  assert (wp rotateLocked (λ r s', r = Ok (segmentID w) ∧ quiet s'.2 ∧ wal_log pre s'.1 s'.2 [] ∧
    segmentID s'.1 = segmentID w + 1 ∧ maxSegmentSize s'.1 = maxSegmentSize w) (w, wd)) as Hwp.
  { pose proof (wo_id _ _ _ _ _ _ Hw) as Hsid.
    eapply wp_rotateLocked; [exact Hw|lia| |done]. intros w' wd' Hw' Hq' ->. cbn.
    rewrite Hsid. split_and!; [done|auto| |done..].
    exists [], [], (id + 1), []. split_and!; [by rewrite app_nil_r|constructor|constructor|done]. }
  unfold wp in Hwp. unfold Rotate. destruct (rotateLocked (w, wd)) as [r [w' wd']].
  destruct Hwp as (-> & Hq' & Hlog & Hid' & Hm). exists w', wd', pre. split_and!; try done.
  { unfold pre. rewrite fmap_app, (wo_id _ _ _ _ _ _ Hw). apply elem_of_app. right. left. }
  intros x Hx. destruct (wo_files _ _ _ _ _ _ Hw) as [_ Hsrt _ _ _].
  rewrite fmap_app in Hsrt. apply StronglySorted_app in Hsrt as (Hlt & _ & _).
  unfold pre in Hx. rewrite fmap_app in Hx. rewrite (wo_id _ _ _ _ _ _ Hw).
  apply elem_of_app in Hx as [Hx|Hx%list_elem_of_singleton]; [|simpl in Hx; lia].
  specialize (Hlt x id Hx ltac:(left)). lia.
Qed.

(** [Reset] after the handle is closed. *)
Lemma wp_reset_loop w segs wd Q :
  quiet wd → wal_files w wd segs →
  (∀ wd', quiet wd' → wal_files w wd' [] → Q (Ok ()) wd') → wp (reset_loop w segs.*1) Q wd.
Proof.
  revert wd. induction segs as [|[id [data sy]] segs IH]; intros wd Hq Hwf HQ.
  { cbn [fmap list_fmap reset_loop]. wsteps. by apply HQ. }
  rewrite fmap_cons. cbn [reset_loop fst]. wsteps.
  assert (files wd !! segmentPath w id = Some (File data sy)) as Hl by (apply (wf_present _ _ _ Hwf); left).
  eapply wp_Remove; [done| |auto]. intros wd1 He. cbv beta iota.
  apply IH; [by apply He| |done]. by eapply (wal_files_delete _ _ _ []).
Qed.

Lemma wp_reset_tail w wd segs (Q : outcome unit → WAL * world → Prop) :
  quiet wd → wal_files w wd segs → maxSegmentSize w ≤ 2^62 →
  (∀ w' wd', quiet wd' → wal_open w' wd' [] 1 [] 0 → Q (Ok ()) (w', wd')) →
  wp (w ← get_fst; ids ← on_snd (listSegmentIDs w); on_snd (reset_loop w ids);; openSegment 1) Q (w, wd).
Proof.
  intros Hq Hwf Hm HQ. wsteps. unfold wp at 1. rewrite (listSegmentIDs_spec _ _ _ Hq Hwf).
  wsteps. apply (wp_reset_loop _ segs); [done..|]. intros wd1 Hq1 Hwf1. cbv beta iota.
  destruct (openSegment_new w wd1 [] 1) as (w' & wd' & Ho & Hw & Hq' & _); [done..|set_solver|done|].
  unfold wp. rewrite Ho. by apply HQ.
Qed.

(** A world with an empty directory, and a log open on its first segment. *)
Definition demo_wal : WAL := with_segment (Some (segmentPath (new_wal demo_path 64) 1)) 1 0 (new_wal demo_path 64).
Definition demo_open : world := set_files {[segmentPath demo_wal 1 := File [] 0]} demo_world.

Lemma demo_empty : wal_files (new_wal demo_path 64) demo_world [].
Proof. split; [set_solver|constructor|constructor|set_solver|done]. Qed.

Lemma demo_log : wal_log [] demo_wal demo_open [].
Proof.
  exists [], [], 1, []. split_and!; [|constructor|constructor|done].
  split; [|done..]. apply (wal_files_new demo_wal demo_world [] 1 [] 0); [|done|set_solver].
  by apply (wal_files_cfg (new_wal demo_path 64)); [..|exact demo_empty].
Qed.

(** ** Claims *)
Section claims.

(** C22: the log of a fresh directory. Whatever is appended, through however many segment
    rotations, comes back from [Replay] exactly, in order. *)
Theorem wal_roundtrip p max wd rs :
  quiet wd → wal_files (new_wal p max) wd [] → files wd !! p = None → segment_size max ≤ 2^62 →
  Forall (λ x, record_ok x.2) rs → zlen rs < 2^63 →
  ∃ w wd', (w ← CreateWALWithSegmentSize p max; run_with w (append_all rs;; Replay)) wd =
    (Ok (w, rs.*2), wd').
Proof.
  intros Hq Hwf Hn Hm Hrs Hlen.
  destruct (CreateWAL_empty _ _ _ Hq Hwf Hn Hm) as (w & wd1 & Ho & Hw & Hq1 & Hsame).
  assert (wp (append_all rs;; Replay) (λ r s', r = Ok rs.*2) (w, wd1)) as Hwp.
  { wsteps. apply (wp_append_all [] rs [] w wd1); [done| |done| |].
    - exists [], [], 1, []. split_and!; [done|constructor|constructor|done].
    - rewrite (wo_id _ _ _ _ _ _ Hw). lia.
    - intros w2 wd2 Hq2 (segs & rss & id & rl & Hw2 & Hs & Hrl & Heq) _. cbv beta iota.
      rewrite <-(app_nil_r (frames rl)) in Hw2.
      destruct (Replay_open _ _ _ _ _ _ _ _ Hq2 Hw2 Hs Hrl torn_nil) as (wd3 & Hr & _).
      unfold wp. rewrite Hr. by rewrite <-Heq. }
  unfold wp in Hwp. destruct ((append_all rs;; Replay) (w, wd1)) as [r [w' wd']] eqn:E. subst r.
  exists w', wd'. erewrite bind_Ok; [|exact Ho]. unfold run_with. by rewrite E.
Qed.

Lemma wal_roundtrip_witness :
  ∃ w wd', (w ← CreateWALWithSegmentSize demo_path 64;
    run_with w (append_all [([], demo_record 1); ([x01], demo_record 2); ([], demo_record 3)];; Replay))
    demo_world = (Ok (w, [demo_record 1; demo_record 2; demo_record 3]), wd').
Proof.
  apply (wal_roundtrip demo_path 64 demo_world [([], demo_record 1); ([x01], demo_record 2); ([], demo_record 3)]).
  - done.
  - exact demo_empty.
  - done.
  - done.
  - repeat constructor; by vm_compute.
  - done.
Defined.

(** A durable append. When no call fails, [AppendRecord] succeeds, the log then holds
    the record after the old ones with every byte fsynced, and the active segment exceeds
    the configured size only if that one record does. *)
Lemma append_durable w wd rs pooled r :
  quiet wd → wal_log [] w wd rs → record_ok r → segmentID w + 1 < 2^64 →
  ∃ w' wd', AppendRecord pooled r (w, wd) = (Ok (), (w', wd')) ∧ quiet wd' ∧
    wal_log [] w' wd' (rs ++ [r]) ∧ size w' ≤ Z.max (maxSegmentSize w) (zlen (frame r)).
Proof.
  intros Hq Hlog Hr Hid.
  assert (wp (AppendRecord pooled r) (λ r0 s', r0 = Ok () ∧ quiet s'.2 ∧ wal_log [] s'.1 s'.2 (rs ++ [r]) ∧
    size s'.1 ≤ Z.max (maxSegmentSize w) (zlen (frame r))) (w, wd)) as Hwp.
  { apply (wp_AppendRecord [] w wd rs); [done..| |done]. intros; cbn. by split_and!; auto. }
  unfold wp in Hwp. destruct (AppendRecord pooled r (w, wd)) as [res [w' wd']].
  destruct Hwp as (-> & ? & ? & ?). by exists w', wd'.
Qed.

Lemma append_durable_witness :
  ∃ w' wd', AppendRecord [x01] (demo_record 5) (demo_wal, demo_open) = (Ok (), (w', wd')) ∧ quiet wd' ∧
    wal_log [] w' wd' ([] ++ [demo_record 5]) ∧
    size w' ≤ Z.max (maxSegmentSize demo_wal) (zlen (frame (demo_record 5))).
Proof. apply append_durable; [done|exact demo_log|by vm_compute|done]. Defined.

(** C2: crash safety of an append, under any schedule of failing calls and short writes and
    any loss of unsynced bytes. Reopening the log and replaying it always succeeds and
    gives the old records, or the old records and the new one; once [AppendRecord] has
    returned without an error, it gives the new one. *)
Theorem append_crash_safe p max w wd rs pooled r res w' wd' wd'' :
  wal_log [] w wd rs → same_log (new_wal p max) w → segment_size max ≤ 2^62 →
  record_ok r → segmentID w + 1 < 2^64 →
  AppendRecord pooled r (w, wd) = (res, (w', wd')) → crash wd' wd'' →
  ∃ rs' w3 wd3, (w ← CreateWALWithSegmentSize p max; run_with w Replay) wd'' = (Ok (w3, rs'), wd3) ∧
    (rs' = rs ∨ rs' = rs ++ [r]) ∧ (res = Ok () → rs' = rs ++ [r]).
Proof.
  intros Hlog (Hd & Hp & He & _) Hm Hr Hid Happ Hc.
  assert (wp (AppendRecord pooled r) (λ r0 s', same_log w s'.1 ∧
    ((r0 = Ok () ∧ wal_disk [] s'.1 s'.2 (rs ++ [r]) (take 0 (frame r))) ∨
     (r0 ≠ Ok () ∧ ∃ n, wal_disk [] s'.1 s'.2 rs (take n (frame r))))) (w, wd)) as Hwp.
  { apply (wp_AppendRecord [] w wd rs); [done..| |].
    - intros w1 wd1 Hlog1 Hsame _ _ _. split; [done|].
      left. split; [done|]. by apply log_disk.
    - intros e w1 wd1 n Hdisk Hsame _. split; [done|]. right. split; [done|]. by exists n. }
  apply (wp_run _ _ _ _ _ Hwp) in Happ as [(Hd' & Hp' & He' & _) Hcase]. cbn [fst snd] in *.
  destruct Hcase as [[-> Hdisk]|[Hne [n Hdisk]]];
    apply (crash_disk _ _ wd'' _ _ _ Hr Hc) in Hdisk as (m & Hdisk & Hle);
    (eapply (wal_disk_cfg _ (new_wal p max)) in Hdisk; [|congruence..]);
    destruct (reopen_disk _ _ _ _ _ _ (crash_quiet _ _ Hc) Hdisk Hr Hm) as (w3 & wd3 & Hrun).
  - exists (rs ++ [r]), w3, wd3. split_and!; [|by right|done]. rewrite Hrun.
    destruct (Nat.ltb_spec m (length (frame r))); [done|]. pose proof (length_frame r). lia.
  - eexists _, w3, wd3. split_and!; [exact Hrun| |done]. destruct (_ <? _)%nat; auto.
Qed.

(** The second write stops after ten bytes, and four of them reach the disk. *)
Definition demo_faulty : world := mkWorld (dirs demo_open) (files demo_open) [FShort 10].
Definition demo_written : world :=
  mkWorld (dirs demo_open) {[segmentPath demo_wal 1 := File (take 10 (frame (demo_record 1))) 0]} [].
Definition demo_crashed : world :=
  mkWorld (dirs demo_open) {[segmentPath demo_wal 1 := File (take 4 (frame (demo_record 1))) 4]} [].

Lemma demo_short_write :
  AppendRecord [] (demo_record 1) (demo_wal, demo_faulty) = (Err ErrIO, (with_size 10 demo_wal, demo_written)).
Proof.
  unfold AppendRecord. erewrite lift_Ok; [|by apply frameRecord_frame].
  erewrite bind_Ok; [|reflexivity]. cbn [file demo_wal with_segment].
  erewrite bind_Ok; [|reflexivity]. erewrite bind_Ok; [|reflexivity]. cbn [file demo_wal with_segment].
  unfold demo_written. set (b := frame (demo_record 1)).
  assert (zlen (take 10 b) = 10) as Hb by (unfold b; by vm_compute). clearbody b.
  erewrite bind_Ok; [|apply on_snd_run; unfold file_Write, demo_faulty; erewrite bind_Ok; [|reflexivity];
    cbn [files demo_open set_files]; rewrite lookup_singleton_eq, insert_singleton_eq; reflexivity].
  by rewrite app_nil_l, Hb.
Qed.

Lemma demo_crash : crash demo_written demo_crashed.
Proof.
  split; [done|]. split; [done|]. intros p. cbn [files demo_written demo_crashed].
  destruct (decide (segmentPath demo_wal 1 = p)) as [<-|Hne].
  - rewrite !lookup_singleton_eq. exists 4%nat. split; [lia|]. by vm_compute.
  - by rewrite !lookup_singleton_ne.
Qed.

Lemma append_crash_safe_witness :
  ∃ rs' w3 wd3, (w ← CreateWALWithSegmentSize demo_path 64; run_with w Replay) demo_crashed = (Ok (w3, rs'), wd3) ∧
    (rs' = [] ∨ rs' = [] ++ [demo_record 1]) ∧ (Err ErrIO = Ok () → rs' = [] ++ [demo_record 1]).
Proof.
  apply (append_crash_safe demo_path 64 demo_wal demo_faulty [] [] (demo_record 1) _
    (with_size 10 demo_wal) demo_written).
  - destruct demo_log as (segs & rss & id & rl & [H1 H2 H3 H4 H5 H6] & H).
    exists segs, rss, id, rl. split; [|exact H]. split; try done.
    by apply (wal_files_world _ demo_open).
  - done.
  - done.
  - by vm_compute.
  - done.
  - exact demo_short_write.
  - exact demo_crash.
Defined.

(** C21: the contract the engine's checkpoint rests on. [Rotate] returns a segment id [k] such
    that everything appended before is in the segments up to [k] and everything appended
    later is not: [RemoveSegmentsUpTo k] then drops the old records and no other. *)
Theorem rotate_reclaim w wd rs new :
  quiet wd → wal_log [] w wd rs → Forall (λ x, record_ok x.2) new → segmentID w + 1 + zlen new < 2^64 →
  ∃ s, (k ← Rotate; append_all new;; RemoveSegmentsUpTo k;; Replay) (w, wd) = (Ok new.*2, s).
Proof.
  intros Hq Hlog Hnew Hid. pose proof (zlen_nonneg new).
  destruct (Rotate_log _ _ _ Hq Hlog) as (w1 & wd1 & pre & Hrot & Hq1 & Hlog1 & Hk & Hpre & Hid1 & _); [lia|].
  erewrite bind_Ok; [|exact Hrot]. set (k := segmentID w) in *.
  assert (wp (append_all new;; RemoveSegmentsUpTo k;; Replay) (λ r s, r = Ok new.*2) (w1, wd1)) as Hwp.
  2: { apply wp_elim in Hwp as (r & s & E & ->). by exists s. }
  wsteps. apply (wp_append_all pre new [] w1 wd1); [done..|lia|].
  intros w2 wd2 Hq2 (segs & rss & id & rl & Hw2 & Hs & Hrl & Heq) _. cbv beta iota. wsteps.
  pose proof Hw2 as [Hwf Hfile Hsid Hsize Hsmall Hmax].
  destruct (RemoveSegmentsUpTo_quiet _ _ k _ Hq2 Hwf) as (wd3 & Hrem & Hq3 & Hwf3).
  unfold wp at 1. rewrite Hrem. cbv beta iota.
  rewrite (kept_split w2 k pre segs id _ (wf_sorted _ _ _ Hwf) Hsid Hk Hpre) in Hwf3.
  assert (wal_open w2 wd3 segs id (frames rl ++ []) (length (frames rl))) as Hw3.
  { rewrite app_nil_r. by split. }
  destruct (Replay_open _ _ _ _ _ _ _ _ Hq3 Hw3 Hs Hrl torn_nil) as (wd4 & Hrep & _).
  unfold wp. by rewrite Hrep, <-Heq.
Qed.

Lemma rotate_reclaim_witness :
  ∃ s, (k ← Rotate; append_all [([], demo_record 1); ([], demo_record 2)];; RemoveSegmentsUpTo k;; Replay)
    (demo_wal, demo_open) = (Ok [demo_record 1; demo_record 2], s).
Proof.
  apply (rotate_reclaim demo_wal demo_open [] [([], demo_record 1); ([], demo_record 2)]).
  - done.
  - exact demo_log.
  - repeat constructor; by vm_compute.
  - done.
Defined.

(** C23: a log of the earlier single-file format is adopted: [CreateWAL] renames it to
    segment 1 and [Replay] returns its complete records, a torn tail dropped. *)
Theorem legacy_log_adopted p max wd rs tail synced :
  quiet wd → wal_files (new_wal p max) wd [] → files wd !! p = Some (File (frames rs ++ tail) synced) →
  zlen (frames rs ++ tail) ≤ 2^62 → segment_size max ≤ 2^62 → Forall record_ok rs → torn tail →
  ∃ w wd', (w ← CreateWALWithSegmentSize p max; run_with w Replay) wd = (Ok (w, rs), wd') ∧
    segmentID w = 1 ∧ files wd' !! p = None.
Proof.
  intros Hq Hwf Hp Hsz Hm Hrs Htail.
  assert (p ≠ segmentPath (new_wal p max) 1) as Hne.
  { intros E. rewrite E, (wal_files_fresh _ _ _ _ Hwf) in Hp; [done|done|set_solver]. }
  destruct (CreateWAL_legacy _ _ _ _ _ Hq Hwf Hp Hsz Hm) as (w & wd1 & Ho & Hw & Hq1 & Hn & Hd & Hpf & He & _).
  destruct (Replay_open w wd1 [] [] 1 rs tail synced) as (wd2 & Hr & _ & _ & Hf2 & _); [done..|constructor|done|done|].
  exists w, wd2. split_and!; [|by apply Hw|].
  - erewrite bind_Ok; [|exact Ho]. unfold run_with. by rewrite Hr.
  - rewrite Hf2, lookup_insert_ne; [done|]. unfold segmentPath in *. by rewrite Hd, Hpf, He.
Qed.

Definition demo_legacy : world :=
  mkWorld (dirs demo_world) {[demo_path := File (frames [demo_record 1] ++ take 9 (frame (demo_record 2))) 0]} [].

Lemma legacy_log_adopted_witness :
  ∃ w wd', (w ← CreateWALWithSegmentSize demo_path 64; run_with w Replay) demo_legacy =
    (Ok (w, [demo_record 1]), wd') ∧ segmentID w = 1 ∧ files wd' !! demo_path = None.
Proof.
  apply (legacy_log_adopted demo_path 64 demo_legacy [demo_record 1] (take 9 (frame (demo_record 2))) 0).
  - done.
  - split; [set_solver|constructor|constructor|set_solver|].
    intros name i id Hi Hg. cbn [files demo_legacy] in Hi.
    apply lookup_singleton_Some in Hi as [E _]. injection E as <-. by vm_compute in Hg.
  - by apply lookup_singleton_eq.
  - by vm_compute.
  - done.
  - repeat constructor; by vm_compute.
  - exists (demo_record 2), 9%nat. split_and!; [by vm_compute| |done]. vm_compute. lia.
Defined.

(** C15: [Reset] empties the log: every segment is removed, segment 1 is opened afresh and
    nothing is left to replay. *)
Lemma reset_empties w wd segs :
  quiet wd → wal_files w wd segs → maxSegmentSize w ≤ 2^62 →
  ∃ w' wd', Reset (w, wd) = (Ok (), (w', wd')) ∧ wal_log [] w' wd' [] ∧ segmentID w' = 1 ∧
    fst (Replay (w', wd')) = Ok [].
Proof.
  intros Hq Hwf Hm.
  assert (wp Reset (λ r s, r = Ok () ∧ quiet s.2 ∧ wal_open s.1 s.2 [] 1 [] 0) (w, wd)) as Hwp.
  { unfold Reset. do 3 wstep. destruct (file w) as [f|].
    - wsteps. apply wp_Close; [|auto]. intros wd1 He. cbv beta iota. wstep.
      apply (wp_reset_tail _ _ segs); [by apply He| |done|done].
      eapply wal_files_cfg; [..|by eapply wal_files_evolves]; done.
    - wstep. by apply (wp_reset_tail _ _ segs). }
  apply wp_elim in Hwp as (r & [w' wd'] & E & -> & Hq' & Hw). exists w', wd'. cbn [fst snd] in *.
  assert (wal_log [] w' wd' []) as Hlog.
  { exists [], [], 1, []. split_and!; [done|constructor|constructor|done]. }
  split_and!; [done|done|by apply Hw|].
  destruct (Replay_open w' wd' [] [] 1 [] [] 0) as (wd2 & Hr & _);
    [done|done|constructor|constructor|apply torn_nil|]. by rewrite Hr.
Qed.

Lemma reset_empties_witness :
  ∃ w' wd', Reset (demo_wal, demo_written) = (Ok (), (w', wd')) ∧ wal_log [] w' wd' [] ∧
    segmentID w' = 1 ∧ fst (Replay (w', wd')) = Ok [].
Proof.
  apply (reset_empties _ _ [(1, (take 10 (frame (demo_record 1)), 0%nat))]); [done| |done].
  apply (wal_files_new demo_wal demo_world [] 1); [|done|set_solver].
  by apply (wal_files_cfg (new_wal demo_path 64)); [..|exact demo_empty].
Defined.

End claims.
