(* ===== verification/Block.v ===== *)
(** * Blocks of a table (sstable/block.go and the block parsers of sstable/reader.go)

    The entry layout, the encoder over the writer's scratch buffer, and the two parsers of
    a decompressed block: [readBlock]'s, which returns every entry, and
    [findEntryInBlock]'s, which stops at a match. Compression is a parameter. *)
From Stdlib Require Import ZArith Lia Strings.Byte.
From stdpp Require Import base list.
From S2P Require Import Prelude Key.

Record Entry := mkEntry {
  eSeriesID : Z;
  eTimestamp : Z;
  eDeleted : bool;
  eValue : bytes
}.

#[global] Instance Entry_eq_dec : EqDecision Entry.
Proof. solve_decision. Defined.

(** ** github.com/golang/snappy

    [Encode(nil, src)] and [Decode(nil, src)]; [MaxEncodedLen] documents the bound. *)
Class Snappy := {
  snappy_Encode : bytes → bytes;
  snappy_Decode : bytes → option bytes;
  snappy_roundtrip src : zlen src < 2^32 → snappy_Decode (snappy_Encode src) = Some src;
  snappy_MaxEncodedLen src : zlen (snappy_Encode src) ≤ 32 + zlen src + zlen src / 6
}.

(** A codec with these properties, for concrete runs: no compression. *)
Program Definition stored : Snappy := {| snappy_Encode b := b; snappy_Decode b := Some b |}.
Next Obligation. done. Qed.
Next Obligation. intros src. simpl. pose proof (zlen_nonneg src). pose proof (Z.div_pos (zlen src) 6). lia. Qed.

(** ** block.go *)
Record Block := mkBlock { Entries : list Entry; Size : Z }.

Definition entryEncodedSize (e : Entry) : Z := u32 (4 + 8 + 8 + 1 + 4 + zlen (eValue e)).

Definition Add (b : Block) (e : Entry) : Block :=
  mkBlock (Entries b ++ [e]) (u32 (Size b + entryEncodedSize e)).

Definition flag (b : bool) : byte := if b then x01 else x00.

Definition encodeEntry (dst : bytes) (e : Entry) : outcome bytes :=
  dst ← go_put dst 0 4 (le_put 4 (u32 (u32 (zlen dst) - 4)));
  dst ← go_put dst 4 12 (le_put 8 (eSeriesID e));
  dst ← go_put dst 12 20 (le_put 8 (u64 (eTimestamp e)));
  dst ← go_store dst 20 (flag (eDeleted e));
  dst ← go_put dst 21 25 (le_put 4 (u32 (zlen (eValue e))));
  go_copy dst 25 (eValue e).

Fixpoint encode_loop (buf : bytes) (offset : Z) (es : list Entry) : outcome bytes :=
  match es with
  | [] => Ok buf
  | e :: es' =>
      let size := entryEncodedSize e in
      sub ← go_slice buf offset (u32 (offset + size));
      sub ← encodeEntry sub e;
      encode_loop (write_at buf (Z.to_nat offset) sub) (u32 (offset + size)) es'
  end.

(** [scratch] is the array behind the writer's buffer: the encoded block and the array it
    leaves behind. *)
Definition Encode (scratch : bytes) (b : Block) : outcome (bytes * bytes) :=
  buf ← (if zlen scratch <? Size b then go_make (Size b) else go_slice scratch 0 (Size b));
  buf' ← encode_loop buf 0 (Entries b);
  Ok (buf', buf' ++ drop (length buf') scratch).

Definition EncodeWithCompression `{Snappy} (scratch : bytes) (b : Block) : outcome (bytes * bytes) :=
  '(encoded, scratch) ← Encode scratch b;
  Ok (snappy_Encode encoded, scratch).

(** ** The parsers of reader.go *)

(** The header of the entry at [pos]: its length and where its body starts. *)
Definition entry_header (data : bytes) (pos : Z) : outcome (Z * Z) :=
  if zlen data <? pos + 4 then Err ErrBlockEntryLength
  else
    l ← go_slice data pos (pos + 4);
    let entryLength := le_get l in
    let pos := pos + 4 in
    if (zlen data <? pos + entryLength) || (entryLength <? 21) then Err ErrBlockEntry
    else Ok (entryLength, pos).

Definition entry_key (data : bytes) (pos : Z) : outcome (Z * Z) :=
  s ← go_slice data pos (pos + 8);
  t ← go_slice data (pos + 8) (pos + 16);
  Ok (le_get s, i64 (le_get t)).

(** The flag and the value of the entry. *)
Definition entry_value (data : bytes) (pos entryLength : Z) : outcome (bool * bytes) :=
  d ← go_index data (pos + 16);
  l ← go_slice data (pos + 17) (pos + 21);
  let valueStart := pos + 21 in
  let valueEnd := valueStart + le_get l in
  if pos + entryLength <? valueEnd then Err ErrBlockValue
  else
    value ← go_slice data valueStart valueEnd;
    Ok (negb (bool_decide (d = x00)), value).

(** The loop of [readBlock]. *)
Fixpoint parse_loop (fuel : nat) (data : bytes) (pos : Z) : outcome (list Entry) :=
  match fuel with
  | O => OutOfFuel
  | S fuel' =>
      if zlen data <=? pos then Ok []
      else
        '(entryLength, pos) ← entry_header data pos;
        '(seriesID, timestamp) ← entry_key data pos;
        '(deleted, value) ← entry_value data pos entryLength;
        entries ← parse_loop fuel' data (pos + entryLength);
        Ok (mkEntry seriesID timestamp deleted value :: entries)
  end.

Definition parse_block (data : bytes) : outcome (list Entry) := parse_loop (S (length data)) data 0.

(** The loop of [findEntryInBlock]: value, found, deleted. *)
Fixpoint find_loop (fuel : nat) (data : bytes) (pos seriesID timestamp : Z) : outcome (bytes * bool * bool) :=
  match fuel with
  | O => OutOfFuel
  | S fuel' =>
      if zlen data <=? pos then Ok ([], false, false)
      else
        '(entryLength, pos) ← entry_header data pos;
        '(entrySeriesID, entryTimestamp) ← entry_key data pos;
        if negb (entrySeriesID =? seriesID) || negb (entryTimestamp =? timestamp)
        then find_loop fuel' data (pos + entryLength) seriesID timestamp
        else
          '(deleted, value) ← entry_value data pos entryLength;
          Ok (value, true, deleted)
  end.

Definition find_in_block (data : bytes) (seriesID timestamp : Z) : outcome (bytes * bool * bool) :=
  find_loop (S (length data)) data 0 seriesID timestamp.

(** ** Layout *)
Definition entry_ok (e : Entry) : Prop :=
  is_u64 (eSeriesID e) ∧ is_i64 (eTimestamp e) ∧ 25 + zlen (eValue e) < 2^32.
#[global] Instance entry_ok_dec e : Decision (entry_ok e).
Proof. unfold entry_ok. apply _. Defined.

Definition ekey (e : Entry) : Key := mkKey (eSeriesID e) (eTimestamp e).

Definition entry_layout (e : Entry) : bytes :=
  le_put 4 (21 + zlen (eValue e)) ++ le_put 8 (eSeriesID e) ++ le_put 8 (u64 (eTimestamp e)) ++
  [flag (eDeleted e)] ++ le_put 4 (zlen (eValue e)) ++ eValue e.

Definition block_layout (es : list Entry) : bytes := concat (entry_layout <$> es).
Definition block_size (es : list Entry) : Z := zlen (block_layout es).

Arguments entry_layout : simpl never.
Arguments block_layout : simpl never.

Lemma zlen_entry_layout e : zlen (entry_layout e) = 25 + zlen (eValue e).
Proof. unfold entry_layout. zlen. Qed.

Lemma block_layout_cons e es : block_layout (e :: es) = entry_layout e ++ block_layout es.
Proof. done. Qed.
Lemma block_layout_app es es' : block_layout (es ++ es') = block_layout es ++ block_layout es'.
Proof. unfold block_layout. by rewrite fmap_app, concat_app. Qed.
Lemma block_layout_snoc es e : block_layout (es ++ [e]) = block_layout es ++ entry_layout e.
Proof. rewrite block_layout_app. unfold block_layout at 2. simpl. by rewrite app_nil_r. Qed.

Lemma block_size_cons e es : block_size (e :: es) = 25 + zlen (eValue e) + block_size es.
Proof. unfold block_size. by rewrite block_layout_cons, zlen_app, zlen_entry_layout. Qed.
Lemma block_size_nonneg es : 0 ≤ block_size es.
Proof. unfold block_size. zlen. Qed.

Lemma entryEncodedSize_exact e : 25 + zlen (eValue e) < 2^32 → entryEncodedSize e = 25 + zlen (eValue e).
Proof.
  intros H. unfold entryEncodedSize. pose proof (zlen_nonneg (eValue e)).
  rewrite u32_id; [lia|]. unfold is_u32. lia.
Qed.

(** [encodeEntry] fills its slice, whatever the slice held. *)
Lemma encodeEntry_layout dst e :
  zlen dst = 25 + zlen (eValue e) → zlen dst < 2^32 → encodeEntry dst e = Ok (entry_layout e).
Proof.
  intros Hl Hmax. pose proof (zlen_nonneg (eValue e)) as Hv. unfold encodeEntry.
  rewrite (u32_id (zlen dst)), (u32_id (zlen dst - 4)), (u32_id (zlen (eValue e))) by (unfold is_u32; lia).
  rewrite Hl. replace (25 + zlen (eValue e) - 4) with (21 + zlen (eValue e)) by lia.
  rewrite <-(app_nil_l dst) at 1.
  rewrite go_put_next by zlen. cbn [mbind outcome_bind].
  rewrite go_put_next by zlen. cbn [mbind outcome_bind].
  rewrite go_put_next by zlen. cbn [mbind outcome_bind].
  rewrite go_store_next by zlen. cbn [mbind outcome_bind].
  rewrite go_put_next by zlen. cbn [mbind outcome_bind].
  rewrite go_copy_last by zlen.
  unfold entry_layout. by rewrite app_nil_l, <-!(assoc_L (++)).
Qed.

Lemma encode_loop_layout pre rest es :
  zlen rest = block_size es → zlen (pre ++ rest) < 2^32 → 
  encode_loop (pre ++ rest) (zlen pre) es = Ok (pre ++ block_layout es).
Proof.
  revert pre rest. induction es as [|e es IH]; intros pre rest Hl Hmax.
  { apply length_zero_iff_nil_zlen in Hl as ->. done. }
  rewrite block_size_cons in Hl. pose proof (block_size_nonneg es). pose proof (zlen_nonneg (eValue e)).
  pose proof (zlen_nonneg pre). rewrite zlen_app in Hmax. cbn [encode_loop].
  rewrite entryEncodedSize_exact, u32_id by (unfold is_u32; lia).
  set (n := 25 + zlen (eValue e)) in *.
  rewrite <-(take_drop (Z.to_nat n) rest).
  assert (zlen (take (Z.to_nat n) rest) = n) as Ht by zlen.
  assert (zlen (drop (Z.to_nat n) rest) = block_size es) as Hd by zlen.
  rewrite go_slice_mid by lia. cbn [mbind outcome_bind].
  rewrite encodeEntry_layout by lia. cbn [mbind outcome_bind].
  rewrite block_layout_cons.
  pose proof (zlen_entry_layout e) as Hle. fold n in Hle.
  replace (write_at _ _ _) with ((pre ++ entry_layout e) ++ drop (Z.to_nat n) rest).
  - replace (zlen pre + n) with (zlen (pre ++ entry_layout e)) by zlen.
    rewrite IH; [by rewrite <-(assoc_L (++))|done|zlen].
  - unfold zlen at 1. rewrite Nat2Z.id, write_at_app. f_equal.
    rewrite drop_app_ge by (unfold zlen in *; lia).
    replace (_ - _)%nat with 0%nat by (unfold zlen in *; lia). done.
Qed.

(** What [Add] maintains while the block's size fits 32 bits. *)
Definition block_ok (b : Block) : Prop := Size b = block_size (Entries b) ∧ Size b < 2^32.

Lemma Encode_layout scratch b :
  block_ok b → Encode scratch b = Ok (block_layout (Entries b), block_layout (Entries b) ++ drop (Z.to_nat (Size b)) scratch).
Proof.
  intros [Hs Hmax]. pose proof (block_size_nonneg (Entries b)). unfold Encode.
  assert (∃ buf, (if zlen scratch <? Size b then go_make (Size b) else go_slice scratch 0 (Size b)) = Ok buf
    ∧ zlen buf = Size b) as (buf & -> & Hbuf).
  { destruct (Z.ltb_spec (zlen scratch) (Size b)).
    - unfold go_make, maxAlloc. destruct (_ || _) eqn:E; [lia|]. eexists. split; [done|]. zlen.
    - destruct (go_slice_spec scratch 0 (Size b)) as (r & -> & Hr); [lia..|].
      exists r. split; [done|lia]. }
  cbn [mbind outcome_bind]. change 0 with (zlen (@nil byte)). rewrite <-(app_nil_l buf).
  rewrite encode_loop_layout by (rewrite ?app_nil_l; lia). cbn [mbind outcome_bind]. rewrite app_nil_l.
  do 4 f_equal. unfold block_size, zlen in *. lia.
Qed.

Lemma Add_ok b e :
  block_ok b → Size b + (25 + zlen (eValue e)) < 2^32 → block_ok (Add b e).
Proof.
  intros [Hs Hmax] He. pose proof (zlen_nonneg (eValue e)). pose proof (block_size_nonneg (Entries b)).
  unfold block_ok, Add. simpl. rewrite entryEncodedSize_exact, u32_id by (unfold is_u32; lia).
  split; [|done]. unfold block_size in *. rewrite block_layout_snoc, zlen_app, zlen_entry_layout. lia.
Qed.

(** ** Parsing a layout *)
Section parse_entry.
Context (pre post : bytes) (e : Entry) (He : entry_ok e).
Let data := pre ++ entry_layout e ++ post.

Lemma entry_value_range : 0 ≤ zlen (eValue e) ∧ is_u32 (21 + zlen (eValue e)) ∧ is_u32 (zlen (eValue e)).
Proof. destruct He as (_ & _ & Hl). pose proof (zlen_nonneg (eValue e)). unfold is_u32. lia. Qed.

Lemma zlen_data : zlen data = zlen pre + (25 + zlen (eValue e)) + zlen post.
Proof. unfold data. rewrite !zlen_app, zlen_entry_layout. lia. Qed.

Lemma entry_header_layout :
  entry_header data (zlen pre) = Ok (21 + zlen (eValue e), zlen pre + 4).
Proof.
  destruct entry_value_range as (Hv & H1 & H2). unfold entry_header. rewrite zlen_data.
  pose proof (zlen_nonneg pre). pose proof (zlen_nonneg post).
  destruct (Z.ltb_spec (zlen pre + (25 + zlen (eValue e)) + zlen post) (zlen pre + 4)); [lia|].
  assert (go_slice data (zlen pre) (zlen pre + 4) = Ok (le_put 4 (21 + zlen (eValue e)))) as ->.
  { unfold data, entry_layout. rewrite <-!(assoc_L (++)). slice_field. }
  cbn [mbind outcome_bind]. rewrite le_get_put_u32 by done.
  destruct (_ || _) eqn:E; [lia|done].
Qed.

Lemma entry_key_layout : entry_key data (zlen pre + 4) = Ok (eSeriesID e, eTimestamp e).
Proof.
  pose proof (zlen_nonneg pre). destruct He as (Hs & Ht & _). unfold entry_key.
  assert (go_slice data (zlen pre + 4) (zlen pre + 4 + 8) = Ok (le_put 8 (eSeriesID e))) as ->.
  { unfold data, entry_layout. rewrite <-!(assoc_L (++)). slice_field. }
  assert (go_slice data (zlen pre + 4 + 8) (zlen pre + 4 + 16) = Ok (le_put 8 (u64 (eTimestamp e)))) as ->.
  { unfold data, entry_layout. rewrite <-!(assoc_L (++)). slice_field. }
  cbn [mbind outcome_bind]. by rewrite le_get_put_u64, i64_le_get_put.
Qed.

Lemma entry_value_layout :
  entry_value data (zlen pre + 4) (21 + zlen (eValue e)) = Ok (eDeleted e, eValue e).
Proof.
  pose proof (zlen_nonneg pre). destruct entry_value_range as (Hv & H1 & H2). unfold entry_value.
  assert (go_index data (zlen pre + 4 + 16) = Ok (flag (eDeleted e))) as ->.
  { unfold data, entry_layout. rewrite <-!(assoc_L (++)), !(assoc_L (++) (le_put 4 _)), !(assoc_L (++) pre).
    rewrite (assoc_L (++) _ (le_put 8 _) ([_] ++ _)). apply go_index_field. zlen. }
  assert (go_slice data (zlen pre + 4 + 17) (zlen pre + 4 + 21) = Ok (le_put 4 (zlen (eValue e)))) as ->.
  { unfold data, entry_layout. rewrite <-!(assoc_L (++)). slice_field. }
  cbn [mbind outcome_bind]. rewrite le_get_put_u32 by done.
  destruct (Z.ltb_spec (zlen pre + 4 + (21 + zlen (eValue e))) (zlen pre + 4 + 21 + zlen (eValue e))); [lia|].
  assert (go_slice data (zlen pre + 4 + 21) (zlen pre + 4 + 21 + zlen (eValue e)) = Ok (eValue e)) as ->.
  { unfold data, entry_layout. rewrite <-!(assoc_L (++)). slice_field. }
  by destruct (eDeleted e).
Qed.
End parse_entry.

Lemma parse_loop_layout fuel pre es :
  Forall entry_ok es → (length es < fuel)%nat →
  parse_loop fuel (pre ++ block_layout es) (zlen pre) = Ok es.
Proof.
  intros Hes. revert fuel pre. induction Hes as [|e es He Hes IH]; intros [|fuel] pre Hf; try (simpl in Hf; lia);
    cbn [parse_loop].
  - change (block_layout []) with (@nil byte). rewrite app_nil_r, Z.leb_refl. done.
  - rewrite block_layout_cons. pose proof (zlen_data pre (block_layout es) e) as Hd.
    pose proof (zlen_nonneg (block_layout es)). pose proof (zlen_nonneg (eValue e)).
    destruct (Z.leb_spec (zlen (pre ++ entry_layout e ++ block_layout es)) (zlen pre)); [lia|].
    rewrite entry_header_layout by done. cbn [mbind outcome_bind].
    rewrite entry_key_layout by done. cbn [mbind outcome_bind].
    rewrite entry_value_layout by done. cbn [mbind outcome_bind].
    replace (zlen pre + 4 + (21 + zlen (eValue e))) with (zlen (pre ++ entry_layout e))
      by (rewrite zlen_app, zlen_entry_layout; lia).
    rewrite (assoc_L (++)), IH by (simpl in Hf; lia). by destruct e.
Qed.

Lemma length_block_layout es : (length es ≤ length (block_layout es))%nat.
Proof.
  induction es as [|e es IH]; [done|]. rewrite block_layout_cons, length_app.
  pose proof (zlen_entry_layout e). pose proof (zlen_nonneg (eValue e)). unfold zlen in *. simpl. lia.
Qed.

Lemma parse_block_layout es : Forall entry_ok es → parse_block (block_layout es) = Ok es.
Proof.
  intros Hes. unfold parse_block. pose proof (length_block_layout es).
  apply (parse_loop_layout _ []); [done|lia].
Qed.

(** ** Parsing arbitrary bytes *)
Lemma entry_header_cases data pos :
  0 ≤ pos →
  (∃ e, entry_header data pos = Err e) ∨
  (∃ l, entry_header data pos = Ok (l, pos + 4) ∧ 21 ≤ l ∧ pos + 4 + l ≤ zlen data).
Proof.
  intros Hp. unfold entry_header. destruct (Z.ltb_spec (zlen data) (pos + 4)); [eauto|].
  destruct (go_slice_spec data pos (pos + 4)) as (l & -> & _); [lia..|]. cbn [mbind outcome_bind].
  destruct (_ || _) eqn:E; [eauto|]. right. eexists. split; [done|]. lia.
Qed.

Lemma entry_key_ok data pos l :
  0 ≤ pos → 21 ≤ l → pos + l ≤ zlen data → ∃ k, entry_key data pos = Ok k.
Proof.
  intros Hp Hl Hd. unfold entry_key.
  destruct (go_slice_spec data pos (pos + 8)) as (s & -> & _); [lia..|].
  destruct (go_slice_spec data (pos + 8) (pos + 16)) as (t & -> & _); [lia..|]. cbn [mbind outcome_bind]. eauto.
Qed.

Lemma entry_value_no_panic data pos l :
  0 ≤ pos → 21 ≤ l → pos + l ≤ zlen data → no_panic (entry_value data pos l).
Proof.
  intros Hp Hl Hd. unfold entry_value.
  destruct (go_index_ok data (pos + 16)) as (d & ->); [lia|].
  destruct (go_slice_spec data (pos + 17) (pos + 21)) as (v & -> & _); [lia..|]. cbn [mbind outcome_bind].
  pose proof (le_get_range v). destruct (Z.ltb_spec (pos + l) (pos + 21 + le_get v)); [done|].
  destruct (go_slice_spec data (pos + 21) (pos + 21 + le_get v)) as (x & -> & _); [lia..|]. done.
Qed.

(** Every entry consumes at least 25 bytes. *)
Lemma parse_loop_no_panic fuel data pos :
  0 ≤ pos → (zlen data < pos + Z.of_nat fuel)%Z → (0 < fuel)%nat → no_panic (parse_loop fuel data pos).
Proof.
  revert pos. induction fuel as [|fuel IH]; intros pos Hp Hf H0; [lia|]. cbn [parse_loop].
  destruct (Z.leb_spec (zlen data) pos); [done|].
  destruct (entry_header_cases data pos Hp) as [(e & ->)|(l & -> & Hl & Hd)]; [done|]. cbn [mbind outcome_bind].
  destruct (entry_key_ok data (pos + 4) l) as ([s t] & ->); [lia..|]. cbn [mbind outcome_bind].
  apply no_panic_bind; [apply entry_value_no_panic; lia|]. intros [d v] _.
  apply no_panic_bind; [apply IH; lia|done].
Qed.

Lemma find_loop_no_panic fuel data pos sid ts :
  0 ≤ pos → (zlen data < pos + Z.of_nat fuel)%Z → (0 < fuel)%nat → no_panic (find_loop fuel data pos sid ts).
Proof.
  revert pos. induction fuel as [|fuel IH]; intros pos Hp Hf H0; [lia|]. cbn [find_loop].
  destruct (Z.leb_spec (zlen data) pos); [done|].
  destruct (entry_header_cases data pos Hp) as [(e & ->)|(l & -> & Hl & Hd)]; [done|]. cbn [mbind outcome_bind].
  destruct (entry_key_ok data (pos + 4) l) as ([s t] & ->); [lia..|]. cbn [mbind outcome_bind].
  destruct (_ || _); [apply IH; lia|].
  apply no_panic_bind; [apply entry_value_no_panic; lia|]. by intros [d v] _.
Qed.

(** The first entry of a key. *)
Fixpoint first_entry (k : Key) (es : list Entry) : option Entry :=
  match es with
  | [] => None
  | e :: es' => if decide (ekey e = k) then Some e else first_entry k es'
  end.

Lemma first_entry_skip k l l' : (∀ e, e ∈ l → ekey e ≠ k) → first_entry k (l ++ l') = first_entry k l'.
Proof.
  induction l as [|e l IH]; intros Hl; [done|]. cbn [app first_entry].
  rewrite decide_False by (apply Hl; left). apply IH. intros x Hx. apply Hl. by right.
Qed.

Lemma first_entry_app k l l' :
  first_entry k (l ++ l') = match first_entry k l with Some e => Some e | None => first_entry k l' end.
Proof. induction l as [|e l IH]; [done|]. cbn [app first_entry]. by case_decide. Qed.

Lemma first_entry_Some k l e : first_entry k l = Some e → e ∈ l ∧ ekey e = k.
Proof.
  induction l as [|x l IH]; [done|]. cbn [first_entry]. case_decide.
  - intros [= <-]. split; [left|done].
  - intros He. destruct (IH He). split; [by right|done].
Qed.

Lemma first_entry_None k l : (∀ e, e ∈ l → ekey e ≠ k) → first_entry k l = None.
Proof. intros Hl. rewrite <-(app_nil_r l). by apply first_entry_skip. Qed.

Lemma first_entry_front k l l' : (∀ e, e ∈ l' → ekey e ≠ k) → first_entry k (l ++ l') = first_entry k l.
Proof.
  intros Hl. induction l as [|e l IH]; cbn [app first_entry]; [by apply first_entry_None|]. by case_decide.
Qed.

(** The three results of [findEntryInBlock]. *)
Definition found_entry (o : option Entry) : bytes * bool * bool :=
  match o with Some e => (eValue e, true, eDeleted e) | None => ([], false, false) end.

Lemma find_loop_parse fuel data pos sid ts es :
  parse_loop fuel data pos = Ok es →
  find_loop fuel data pos sid ts = Ok (found_entry (first_entry (mkKey sid ts) es)).
Proof.
  revert pos es. induction fuel as [|fuel IH]; intros pos es H; [done|]. cbn [parse_loop find_loop] in *.
  destruct (_ <=? _); [by simplify_eq|].
  destruct (entry_header data pos) as [[l pos']| | |]; cbn [mbind outcome_bind] in *; try done.
  destruct (entry_key data pos') as [[s t]| | |]; cbn [mbind outcome_bind] in *; try done.
  destruct (entry_value data pos' l) as [[d v]| | |] eqn:Ev; cbn [mbind outcome_bind] in *; try done.
  destruct (parse_loop fuel data (pos' + l)) as [es'| | |] eqn:Er; cbn [mbind outcome_bind] in *; try done.
  simplify_eq. cbn [first_entry].
  destruct (Z.eqb_spec s sid) as [->|Hs]; cbn [negb orb]; [destruct (Z.eqb_spec t ts) as [->|Ht]|]; cbn [negb].
  all: unfold ekey; cbn [eSeriesID eTimestamp]; case_decide; simplify_eq; auto.
Qed.

(** ** Claims *)
Section claims.

(** C26: a block round-trips. Whatever the scratch buffer held, the encoding of a block built by
    [Add] is exactly [Size] bytes long and parses back to its entries, in order. *)
Theorem block_roundtrip scratch es :
  Forall entry_ok es → block_size es < 2^32 →
  ∃ data scratch', Encode scratch (foldl Add (mkBlock [] 0) es) = Ok (data, scratch') ∧
    zlen data = block_size es ∧ parse_block data = Ok es.
Proof.
  intros Hes Hmax.
  assert (block_ok (foldl Add (mkBlock [] 0) es) ∧ Entries (foldl Add (mkBlock [] 0) es) = es) as [Hok Hent].
  { revert Hmax. induction es as [|e es IH] using rev_ind; [done|]. intros Hmax.
    apply Forall_app in Hes as [Hes He]. unfold block_size in Hmax.
    rewrite block_layout_snoc, zlen_app, zlen_entry_layout in Hmax. pose proof (zlen_nonneg (eValue e)).
    destruct IH as [Hok Hent]; [done|unfold block_size; lia|]. rewrite foldl_snoc. split.
    - apply Add_ok; [done|]. destruct Hok as [-> _]. rewrite Hent. unfold block_size. lia.
    - unfold Add at 1. cbn [Entries]. by rewrite Hent. }
  do 2 eexists. split; [by apply Encode_layout|]. rewrite Hent. split; [done|by apply parse_block_layout].
Qed.

Lemma block_roundtrip_witness :
  ∃ data scratch', Encode [x07; x07] (foldl Add (mkBlock [] 0) [mkEntry 1 (-2) false [x61]; mkEntry 1 3 true []]) =
    Ok (data, scratch') ∧ zlen data = block_size [mkEntry 1 (-2) false [x61]; mkEntry 1 3 true []] ∧
    parse_block data = Ok [mkEntry 1 (-2) false [x61]; mkEntry 1 3 true []].
Proof.
  apply (block_roundtrip [x07; x07] [mkEntry 1 (-2) false [x61]; mkEntry 1 3 true []]);
    [repeat constructor; by vm_compute|done].
Defined.

(** C27: no bytes, however corrupt, make the two block parsers index out of range or loop. *)
Theorem block_parsers_never_panic data sid ts :
  no_panic (parse_block data) ∧ no_panic (find_in_block data sid ts).
Proof. split; [apply parse_loop_no_panic|apply find_loop_no_panic]; unfold zlen; lia. Qed.

(** C22: [findEntryInBlock]'s early exit is an optimisation of a scan of [readBlock]'s result:
    on every block [readBlock] accepts, it returns the first entry with the key, or that
    there is none. *)
Lemma find_is_first_match data sid ts es :
  parse_block data = Ok es →
  find_in_block data sid ts = Ok (found_entry (first_entry (mkKey sid ts) es)).
Proof. apply find_loop_parse. Qed.

Lemma find_is_first_match_witness :
  find_in_block (block_layout [mkEntry 1 (-2) false [x61]; mkEntry 1 3 true [x62]]) 1 3 = Ok ([x62], true, true).
Proof. apply (find_is_first_match _ 1 3 [mkEntry 1 (-2) false [x61]; mkEntry 1 3 true [x62]]). by vm_compute. Defined.
End claims.
