(* ===== verification/Bloom.v ===== *)
(** * The Bloom filter of a table (sstable/bloom.go)

    Sizing in binary64 arithmetic, [Add], [MayContain], and the byte format. The hash
    function, github.com/twmb/murmur3, is a parameter. *)
From Stdlib Require Import ZArith Lia Strings.Byte Floats.SpecFloat.
From stdpp Require Import base list.
From S2P Require Import Prelude.

(** ** float64

    Go's [float64] operations are the IEEE 754 operations of the standard library's
    SpecFloat at precision 53. *)
Module F64.
Abbreviation float64 := spec_float.
Definition prec := 53%Z.
Definition emax := 1024%Z.
Definition add := SFadd prec emax.
Definition sub := SFsub prec emax.
Definition mul := SFmul prec emax.
Definition div := SFdiv prec emax.

Definition of_Z (z : Z) : float64 := binary_normalize prec emax z 0 false.

(** The float with a given bit pattern (finite and normal). *)
Definition of_bits (b : Z) : float64 :=
  binary_normalize prec emax (Z.lor (Z.land b (2^52 - 1)) (2^52)) (Z.shiftr b 52 - 1075) false.

(** The value scaled by [2^k], rounded by [f : numerator -> denominator -> Z]. *)
Definition round_by (f : Z → Z → Z) (x : float64) : float64 :=
  match x with
  | S754_finite s m e =>
      if 0 <=? e then x
      else
        let n := f (cond_Zopp s (Zpos m)) (2 ^ (- e)) in
        binary_normalize prec emax n 0 s
  | _ => x
  end.

(** [math.Ceil] and [math.Round] (half away from zero). *)
Definition Ceil : float64 → float64 := round_by (λ a d, - (- a / d)).
Definition Round : float64 → float64 :=
  round_by (λ a d, if a <? 0 then - ((2 * - a + d) / (2 * d)) else (2 * a + d) / (2 * d)).

(** [uint64(x)]: truncation; out of range, the value amd64 gives. *)
Definition to_u64 (x : float64) : Z :=
  match x with
  | S754_zero _ => 0
  | S754_finite s m e =>
      let t := if 0 <=? e then Zpos m * 2 ^ e else Zpos m / 2 ^ (- e) in
      let v := cond_Zopp s t in
      if (0 <=? v) && (v <? 2^64) then v else 2^63
  | _ => 2^63
  end.

(** [math.Log], the portable algorithm. *)
Definition Ln2Hi := of_bits 0x3fe62e42fee00000.
Definition Ln2Lo := of_bits 0x3dea39ef35793c76.
Definition L1 := of_bits 0x3FE5555555555593.
Definition L2 := of_bits 0x3FD999999997FA04.
Definition L3 := of_bits 0x3FD2492494229359.
Definition L4 := of_bits 0x3FCC71C51D8E78AF.
Definition L5 := of_bits 0x3FC7466496CB03DE.
Definition L6 := of_bits 0x3FC39A09D078C69F.
Definition L7 := of_bits 0x3FC2F112DF3E5244.
Definition HalfSqrt2 := of_bits 0x3fe6a09e667f3bcd.
Definition half := of_bits 0x3fe0000000000000.

Definition Log (x : float64) : float64 :=
  match x with
  | S754_nan | S754_infinity false => x
  | S754_zero _ => S754_infinity true
  | S754_infinity true | S754_finite true _ _ => S754_nan
  | _ =>
      let '(f1, ki) := SFfrexp prec emax x in
      let '(f1, ki) := if SFltb f1 HalfSqrt2 then (mul f1 (of_Z 2), ki - 1) else (f1, ki) in
      let f := sub f1 (of_Z 1) in
      let k := binary_normalize prec emax ki 0 false in
      let s := div f (add (of_Z 2) f) in
      let s2 := mul s s in
      let s4 := mul s2 s2 in
      let t1 := mul s2 (add L1 (mul s4 (add L3 (mul s4 (add L5 (mul s4 L7)))))) in
      let t2 := mul s4 (add L2 (mul s4 (add L4 (mul s4 L6)))) in
      let R := add t1 t2 in
      let hfsq := mul (mul half f) f in
      sub (mul k Ln2Hi) (sub (sub hfsq (add (mul s (add hfsq R)) (mul k Ln2Lo))) f)
  end.

(** The constants [math.Ln2], [math.Ln2 * math.Ln2] and [0.01]. *)
Definition Ln2 := of_bits 0x3fe62e42fefa39ef.
Definition Ln2_Ln2 := of_bits 0x3fdebfbdff82c58f.
Definition one_percent := of_bits 0x3f847ae147ae147b.
End F64.

(** log(0.01) = -4.605170185988092, as Go prints it. *)
Example Log_one_percent : F64.Log F64.one_percent = SFopp (F64.of_bits 0x40126bb1bbb55516).
Proof. vm_compute. reflexivity. Qed.

(** ** github.com/twmb/murmur3 *)
Class Hash128 := {
  Sum128 : bytes → Z * Z;
  Sum128_range b : is_u64 (Sum128 b).1 ∧ is_u64 (Sum128 b).2
}.

(** A hash with these properties, for concrete runs. *)
Program Definition toy_hash : Hash128 := {| Sum128 b := (u64 (le_get b), u64 (le_get b * 3 + 1)) |}.
Next Obligation. intros b. split; apply u64_range. Qed.

Record BloomFilter := mkBloom { Bits : bytes; NumBits : Z; NumHashes : Z }.

(** [numBits] and [numHashes] of [NewBloomFilter]. *)
Definition bloom_bits (expectedKeys : Z) (rate : F64.float64) : Z :=
  let expectedKeys := if expectedKeys =? 0 then 1 else expectedKeys in
  let rate := if SFleb rate (F64.of_Z 0) || SFleb (F64.of_Z 1) rate then F64.one_percent else rate in
  let numBits := F64.to_u64 (F64.Ceil
    (F64.div (F64.mul (SFopp (F64.of_Z expectedKeys)) (F64.Log rate)) F64.Ln2_Ln2)) in
  if numBits <? 1 then 1 else numBits.

Definition bloom_hashes (expectedKeys numBits : Z) : Z :=
  let expectedKeys := if expectedKeys =? 0 then 1 else expectedKeys in
  let numHashes := u32 (F64.to_u64 (F64.Round
    (F64.mul (F64.div (F64.of_Z numBits) (F64.of_Z expectedKeys)) F64.Ln2))) in
  if numHashes <? 1 then 1 else numHashes.

Definition NewBloomFilter (expectedKeys : Z) (falsePositiveRate : F64.float64) : outcome BloomFilter :=
  let numBits := bloom_bits expectedKeys falsePositiveRate in
  let numHashes := bloom_hashes expectedKeys numBits in
  let numBytes := u64 (numBits + 7) / 8 in
  bits ← go_make numBytes;
  Ok (mkBloom bits numBits numHashes).

(** 1000 keys at 1%: 9586 bits and 7 hashes. *)
Example bloom_sizing : (bloom_bits 1000 F64.one_percent, bloom_hashes 1000 9586) = (9586, 7).
Proof. vm_compute. reflexivity. Qed.

Section bloom.
Context `{Hash128}.

Definition hashfunc (key : Z) : Z * Z := Sum128 (le_put 8 key).

Definition position (h1 h2 numBits i : Z) : outcome Z :=
  if numBits =? 0 then Panic DivideByZero else Ok (u64 (h1 + u64 (i * h2)) mod numBits).

Fixpoint add_loop (h1 h2 numBits : Z) (i : Z) (n : nat) (bits : bytes) : outcome bytes :=
  match n with
  | O => Ok bits
  | S n' =>
      position ← position h1 h2 numBits i;
      let byteIndex := position / 8 in
      let bitIndex := position mod 8 in
      b ← go_index bits byteIndex;
      bits ← go_store bits byteIndex (byte_of_Z (Z.lor (Z_of_byte b) (Z.shiftl 1 bitIndex)));
      add_loop h1 h2 numBits (i + 1) n' bits
  end.

Definition Add (b : BloomFilter) (key : Z) : outcome BloomFilter :=
  let '(h1, h2) := hashfunc key in
  bits ← add_loop h1 h2 (NumBits b) 0 (Z.to_nat (NumHashes b)) (Bits b);
  Ok (mkBloom bits (NumBits b) (NumHashes b)).

Fixpoint may_loop (h1 h2 numBits : Z) (i : Z) (n : nat) (bits : bytes) : outcome bool :=
  match n with
  | O => Ok true
  | S n' =>
      position ← position h1 h2 numBits i;
      let byteIndex := position / 8 in
      let bitIndex := position mod 8 in
      b ← go_index bits byteIndex;
      if Z.land (Z_of_byte b) (Z.shiftl 1 bitIndex) =? 0 then Ok false
      else may_loop h1 h2 numBits (i + 1) n' bits
  end.

(** The receiver may be nil. *)
Definition MayContain (b : option BloomFilter) (key : Z) : outcome bool :=
  match b with
  | None => Ok false
  | Some b =>
      if (NumBits b =? 0) || (NumHashes b =? 0) then Ok false
      else
        let '(h1, h2) := hashfunc key in
        may_loop h1 h2 (NumBits b) 0 (Z.to_nat (NumHashes b)) (Bits b)
  end.

(** [for _, key := range keys { b.Add(key) }] *)
Fixpoint add_keys (b : BloomFilter) (keys : list Z) : outcome BloomFilter :=
  match keys with
  | [] => Ok b
  | key :: keys' => b ← Add b key; add_keys b keys'
  end.
End bloom.

Definition Encode (b : BloomFilter) : outcome bytes :=
  buf ← go_make (12 + zlen (Bits b));
  buf ← go_put buf 0 8 (le_put 8 (NumBits b));
  buf ← go_put buf 8 12 (le_put 4 (NumHashes b));
  go_copy buf 12 (Bits b).

Definition DecodeBloomFilter (data : bytes) : outcome BloomFilter :=
  if zlen data <? 12 then Err ErrBloomCorrupt
  else
    n ← go_slice data 0 8;
    h ← go_slice data 8 12;
    bits ← go_slice data 12 (zlen data);
    Ok (mkBloom bits (le_get n) (le_get h)).

(** ** Bits *)

(** Bit [p] of the filter. *)
Definition get_bit (bits : bytes) (p : Z) : bool :=
  match bits !! Z.to_nat (p / 8) with Some b => Z.testbit (Z_of_byte b) (p mod 8) | None => false end.

Lemma Z_of_byte_or b i : 0 ≤ i < 8 →
  Z_of_byte (byte_of_Z (Z.lor (Z_of_byte b) (Z.shiftl 1 i))) = Z.lor (Z_of_byte b) (Z.shiftl 1 i).
Proof.
  intros Hi. rewrite Z_of_byte_of_Z, Z.mod_small; [done|]. pose proof (Z_of_byte_range b).
  split; [apply Z.lor_nonneg; split; [lia|apply Z.shiftl_nonneg; lia]|].
  destruct (Z.eq_dec (Z.lor (Z_of_byte b) (Z.shiftl 1 i)) 0) as [->|Hz]; [lia|].
  assert (0 ≤ Z.lor (Z_of_byte b) (Z.shiftl 1 i)) by (apply Z.lor_nonneg; split; [lia|apply Z.shiftl_nonneg; lia]).
  apply (Z.log2_lt_pow2 _ 8); [lia|]. rewrite Z.log2_lor by (try apply Z.shiftl_nonneg; lia).
  rewrite Z.shiftl_1_l, Z.log2_pow2 by lia.
  destruct (Z.eq_dec (Z_of_byte b) 0) as [->|Hb]; [simpl; lia|].
  assert (Z.log2 (Z_of_byte b) < 8) by (apply Z.log2_lt_pow2; [lia|]; change (2^8) with 256; lia). lia.
Qed.

Lemma land_bit b i : 0 ≤ i → (Z.land (Z_of_byte b) (Z.shiftl 1 i) =? 0) = negb (Z.testbit (Z_of_byte b) i).
Proof.
  intros Hi. rewrite Z.shiftl_1_l. destruct (Z.testbit (Z_of_byte b) i) eqn:E.
  - apply Z.eqb_neq. intros H0. apply (f_equal (λ z, Z.testbit z i)) in H0.
    rewrite Z.land_spec, E, Z.pow2_bits_true, Z.bits_0 in H0 by lia. done.
  - apply Z.eqb_eq, Z.bits_inj'. intros n Hn. rewrite Z.land_spec, Z.bits_0.
    destruct (Z.eq_dec n i) as [->|Hne]; [by rewrite E|]. rewrite Z.pow2_bits_false by done. apply andb_false_r.
Qed.

(** The filter's array has a byte for every bit. *)
Definition bits_ok (numBits : Z) (bits : bytes) : Prop := 0 < numBits ∧ numBits ≤ 8 * zlen bits.

Lemma byte_index numBits bits p : bits_ok numBits bits → 0 ≤ p < numBits → 0 ≤ p / 8 < zlen bits.
Proof.
  intros [H1 H2] Hp. split; [apply Z.div_pos; lia|]. apply Z.div_lt_upper_bound; lia.
Qed.

(** Setting bit [p]. *)
Lemma set_bit numBits bits p :
  bits_ok numBits bits → 0 ≤ p < numBits →
  ∃ b bits', go_index bits (p / 8) = Ok b ∧
    go_store bits (p / 8) (byte_of_Z (Z.lor (Z_of_byte b) (Z.shiftl 1 (p mod 8)))) = Ok bits' ∧
    bits_ok numBits bits' ∧ zlen bits' = zlen bits ∧ get_bit bits' p = true ∧
    ∀ q, 0 ≤ q → get_bit bits q = true → get_bit bits' q = true.
Proof.
  intros Hok Hp. pose proof (byte_index _ _ _ Hok Hp) as Hi. pose proof (Z.mod_pos_bound p 8 ltac:(lia)) as Hm.
  destruct (go_index_ok bits (p / 8) Hi) as (b & Hb). unfold go_index in Hb.
  destruct (Z.ltb_spec (p / 8) 0); [lia|]. destruct (bits !! _) as [b'|] eqn:E; [|done]. injection Hb as ->.
  exists b, (<[Z.to_nat (p / 8) := byte_of_Z (Z.lor (Z_of_byte b) (Z.shiftl 1 (p mod 8)))]> bits).
  assert (length bits = length (<[Z.to_nat (p / 8) := byte_of_Z (Z.lor (Z_of_byte b) (Z.shiftl 1 (p mod 8)))]> bits)) as Hlen
    by by rewrite length_insert.
  split_and!.
  - unfold go_index. destruct (Z.ltb_spec (p / 8) 0); [lia|]. by rewrite E.
  - unfold go_store. destruct (_ && _) eqn:E'; [done|lia].
  - split; [apply Hok|]. unfold zlen. rewrite <-Hlen. apply Hok.
  - unfold zlen. by rewrite <-Hlen.
  - unfold get_bit. rewrite list_lookup_insert_eq by by eapply lookup_lt_Some.
    rewrite Z_of_byte_or, Z.lor_spec, Z.shiftl_1_l, Z.pow2_bits_true, orb_true_r by lia. done.
  - intros q Hq. unfold get_bit. destruct (decide (Z.to_nat (p / 8) = Z.to_nat (q / 8))) as [Heq|Hne].
    + rewrite <-Heq, E, list_lookup_insert_eq by by eapply lookup_lt_Some.
      rewrite Z_of_byte_or, Z.lor_spec by lia. by intros ->.
    + by rewrite list_lookup_insert_ne.
Qed.

Section bloom_lemmas.
Context `{Hash128}.

(** The bit of the [i]-th hash. *)
Definition pos (h1 h2 numBits i : Z) : Z := u64 (h1 + u64 (i * h2)) mod numBits.

Lemma position_ok h1 h2 numBits i :
  0 < numBits → position h1 h2 numBits i = Ok (pos h1 h2 numBits i) ∧ 0 ≤ pos h1 h2 numBits i < numBits.
Proof.
  intros Hn. unfold position, pos. destruct (Z.eqb_spec numBits 0); [lia|].
  split; [done|]. apply Z.mod_pos_bound. lia.
Qed.

Lemma add_loop_spec h1 h2 numBits i n bits :
  bits_ok numBits bits →
  ∃ bits', add_loop h1 h2 numBits i n bits = Ok bits' ∧ bits_ok numBits bits' ∧ zlen bits' = zlen bits ∧
    (∀ q, 0 ≤ q → get_bit bits q = true → get_bit bits' q = true) ∧
    (∀ j, i ≤ j < i + Z.of_nat n → get_bit bits' (pos h1 h2 numBits j) = true).
Proof.
  revert i bits. induction n as [|n IH]; intros i bits Hok; cbn [add_loop].
  { exists bits. split_and!; [done..|]. intros j Hj. lia. }
  destruct (position_ok h1 h2 numBits i) as [-> Hp]; [apply Hok|]. cbn [mbind outcome_bind].
  destruct (set_bit numBits bits _ Hok Hp) as (b & bits1 & -> & Hst & Hok1 & Hl1 & Hset & Hmono).
  cbn [mbind outcome_bind]. rewrite Hst. cbn [mbind outcome_bind].
  destruct (IH (i + 1) bits1 Hok1) as (bits' & -> & Hok' & Hl' & Hmono' & Hset').
  exists bits'. split_and!; [done|done|lia|auto|]. intros j Hj.
  destruct (decide (j = i)) as [->|]; [apply Hmono'; [lia|done]|apply Hset'; lia].
Qed.

Lemma may_loop_spec h1 h2 numBits i n bits :
  bits_ok numBits bits →
  ∃ r, may_loop h1 h2 numBits i n bits = Ok r ∧
    (r = true ↔ ∀ j, i ≤ j < i + Z.of_nat n → get_bit bits (pos h1 h2 numBits j) = true).
Proof.
  revert i. induction n as [|n IH]; intros i Hok; cbn [may_loop].
  { exists true. split; [done|]. split; [|done]. intros _ j Hj. lia. }
  destruct (position_ok h1 h2 numBits i) as [-> Hp]; [apply Hok|]. cbn [mbind outcome_bind].
  pose proof (byte_index _ _ _ Hok Hp) as Hi. destruct (go_index_ok bits _ Hi) as (b & Hb).
  rewrite Hb. cbn [mbind outcome_bind]. rewrite land_bit by (apply Z.mod_pos_bound; lia).
  assert (get_bit bits (pos h1 h2 numBits i) = Z.testbit (Z_of_byte b) (pos h1 h2 numBits i mod 8)) as Hg.
  { unfold get_bit. unfold go_index in Hb. destruct (_ <? 0); [done|].
    destruct (bits !! _); [by injection Hb as ->|done]. }
  destruct (Z.testbit _ _); cbn [negb].
  - destruct (IH (i + 1) Hok) as (r & -> & Hr). exists r. split; [done|]. rewrite Hr. split.
    + intros Hall j Hj. destruct (decide (j = i)) as [->|]; [done|]. apply Hall. lia.
    + intros Hall j Hj. apply Hall. lia.
  - exists false. split; [done|]. split; [done|]. intros Hall. specialize (Hall i ltac:(lia)). congruence.
Qed.

(** A filter [NewBloomFilter] may return. *)
Definition bloom_ok (b : BloomFilter) : Prop := bits_ok (NumBits b) (Bits b) ∧ 0 < NumHashes b.

(** Every bit of [key] is set. *)
Definition holds_key (b : BloomFilter) (key : Z) : Prop :=
  ∀ j, 0 ≤ j < NumHashes b →
    get_bit (Bits b) (pos (hashfunc key).1 (hashfunc key).2 (NumBits b) j) = true.

Lemma MayContain_holds b key :
  bloom_ok b → ∃ r, MayContain (Some b) key = Ok r ∧ (r = true ↔ holds_key b key).
Proof.
  intros [Hb Hh]. unfold MayContain, holds_key. destruct Hb as [Hn Hl].
  destruct (_ || _) eqn:E; [lia|]. destruct (hashfunc key) as [h1 h2].
  destruct (may_loop_spec h1 h2 (NumBits b) 0 (Z.to_nat (NumHashes b)) (Bits b)) as (r & -> & Hr); [done|].
  exists r. split; [done|]. rewrite Hr. by rewrite Z2Nat.id, Z.add_0_l by lia.
Qed.

Lemma Add_spec b key :
  bloom_ok b → ∃ b', Add b key = Ok b' ∧ bloom_ok b' ∧ holds_key b' key ∧
    (∀ k, holds_key b k → holds_key b' k) ∧ zlen (Bits b') = zlen (Bits b) ∧
    NumBits b' = NumBits b ∧ NumHashes b' = NumHashes b.
Proof.
  intros [Hb Hh]. unfold Add, holds_key. destruct (hashfunc key) as [h1 h2].
  destruct (add_loop_spec h1 h2 (NumBits b) 0 (Z.to_nat (NumHashes b)) (Bits b) Hb)
    as (bits' & -> & Hok & Hl & Hmono & Hset). cbn [mbind outcome_bind].
  eexists. split; [done|]. split_and!; try done.
  - simpl. intros j Hj. apply Hset. lia.
  - intros k Hk j Hj. simpl in *. apply Hmono; [|by apply Hk]. unfold pos. apply Z.mod_pos_bound, Hb.
Qed.

Lemma add_keys_spec b keys :
  bloom_ok b → ∃ b', add_keys b keys = Ok b' ∧ bloom_ok b' ∧ zlen (Bits b') = zlen (Bits b) ∧
    NumBits b' = NumBits b ∧ NumHashes b' = NumHashes b ∧
    (∀ k, k ∈ keys ∨ holds_key b k → holds_key b' k).
Proof.
  revert b. induction keys as [|key keys IH]; intros b Hb; cbn [add_keys].
  { exists b. split_and!; try done. intros k [Hk%not_elem_of_nil|Hk]; done. }
  destruct (Add_spec b key Hb) as (b1 & -> & Hb1 & Hk1 & Hmono1 & Hl1 & Hn1 & Hh1). cbn [mbind outcome_bind].
  destruct (IH b1 Hb1) as (b' & -> & Hb' & Hl' & Hn' & Hh' & Hall).
  exists b'. split_and!; try done; try congruence. intros k [[->|Hk]%elem_of_cons|Hk]; apply Hall; auto.
Qed.
End bloom_lemmas.

(** ** Sizing *)
Lemma to_u64_range x : is_u64 (F64.to_u64 x).
Proof.
  unfold F64.to_u64, is_u64. destruct x; try lia.
  destruct (_ && _) eqn:E; lia.
Qed.

Lemma bloom_bits_range n rate : 1 ≤ bloom_bits n rate < 2^64.
Proof.
  unfold bloom_bits. set (z := F64.to_u64 _). pose proof (to_u64_range (F64.Ceil
    (F64.div (F64.mul (SFopp (F64.of_Z (if n =? 0 then 1 else n))) (F64.Log
      (if SFleb rate (F64.of_Z 0) || SFleb (F64.of_Z 1) rate then F64.one_percent else rate))) F64.Ln2_Ln2))) as Hz.
  fold z in Hz. clearbody z. unfold is_u64 in Hz. destruct (Z.ltb_spec z 1); lia.
Qed.

Lemma bloom_hashes_range n b : 1 ≤ bloom_hashes n b < 2^32.
Proof.
  unfold bloom_hashes. set (z := u32 _). assert (is_u32 z) as Hz by apply u32_range.
  clearbody z. unfold is_u32 in Hz. destruct (Z.ltb_spec z 1); lia.
Qed.

(** Any size the allocator grants gives a well-formed filter. *)
Lemma NewBloomFilter_ok n rate :
  bloom_bits n rate ≤ 2^50 →
  ∃ b, NewBloomFilter n rate = Ok b ∧ bloom_ok b ∧ NumBits b = bloom_bits n rate ∧
    NumHashes b = bloom_hashes n (bloom_bits n rate) ∧ zlen (Bits b) = (bloom_bits n rate + 7) / 8.
Proof.
  intros Hmax. pose proof (bloom_bits_range n rate) as Hb. unfold NewBloomFilter.
  set (nb := bloom_bits n rate) in *. clearbody nb.
  rewrite u64_id by (unfold is_u64; lia).
  assert (0 ≤ (nb + 7) / 8 ≤ 2^48) as Hbytes.
  { split; [apply Z.div_pos; lia|]. apply Z.div_le_upper_bound; lia. }
  unfold go_make, maxAlloc. destruct (_ || _) eqn:E; [lia|]. cbn [mbind outcome_bind].
  eexists. split; [done|]. pose proof (bloom_hashes_range n nb).
  assert (zlen (replicate (Z.to_nat ((nb + 7) / 8)) x00) = (nb + 7) / 8) as Hl by zlen.
  split_and!; [|done|done|exact Hl]. unfold bloom_ok, bits_ok. simpl. rewrite Hl.
  pose proof (Z.div_mod (nb + 7) 8 ltac:(lia)). pose proof (Z.mod_pos_bound (nb + 7) 8 ltac:(lia)). lia.
Qed.

(** ** The byte format *)
Definition bloom_layout (b : BloomFilter) : bytes :=
  le_put 8 (NumBits b) ++ le_put 4 (NumHashes b) ++ Bits b.

Lemma zlen_bloom_layout b : zlen (bloom_layout b) = 12 + zlen (Bits b).
Proof. unfold bloom_layout. zlen. Qed.

Lemma filter_Encode_layout b : 12 + zlen (Bits b) ≤ maxAlloc → Encode b = Ok (bloom_layout b).
Proof.
  intros Hl. unfold Encode, go_make. pose proof (zlen_nonneg (Bits b)).
  destruct (_ || _) eqn:E; [lia|]. cbn [mbind outcome_bind].
  set (buf := replicate _ _). assert (zlen buf = 12 + zlen (Bits b)) as Hbuf by (unfold buf; zlen). clearbody buf.
  rewrite <-(app_nil_l buf). rewrite go_put_next by zlen. cbn [mbind outcome_bind].
  rewrite go_put_next by zlen. cbn [mbind outcome_bind]. rewrite go_copy_last by zlen.
  unfold bloom_layout. by rewrite app_nil_l, <-!(assoc_L (++)).
Qed.

Lemma Decode_layout b :
  is_u64 (NumBits b) → is_u32 (NumHashes b) → DecodeBloomFilter (bloom_layout b) = Ok b.
Proof.
  intros Hn Hh. unfold DecodeBloomFilter. rewrite zlen_bloom_layout. pose proof (zlen_nonneg (Bits b)).
  destruct (Z.ltb_spec (12 + zlen (Bits b)) 12); [lia|]. unfold bloom_layout.
  assert (go_slice (le_put 8 (NumBits b) ++ le_put 4 (NumHashes b) ++ Bits b) 0 8 = Ok (le_put 8 (NumBits b))) as -> by slice_field.
  assert (go_slice (le_put 8 (NumBits b) ++ le_put 4 (NumHashes b) ++ Bits b) 8 12 = Ok (le_put 4 (NumHashes b))) as -> by slice_field.
  assert (go_slice (le_put 8 (NumBits b) ++ le_put 4 (NumHashes b) ++ Bits b) 12 (12 + zlen (Bits b)) = Ok (Bits b)) as -> by slice_field.
  cbn [mbind outcome_bind]. rewrite le_get_put_u64, le_get_put_u32 by done. by destruct b.
Qed.

Lemma Decode_no_panic data : no_panic (DecodeBloomFilter data).
Proof.
  unfold DecodeBloomFilter. destruct (Z.ltb_spec (zlen data) 12); [done|].
  destruct (go_slice_spec data 0 8) as (n & -> & _); [lia..|].
  destruct (go_slice_spec data 8 12) as (h & -> & _); [lia..|].
  destruct (go_slice_spec data 12 (zlen data)) as (bits & -> & _); [lia..|]. done.
Qed.

(** ** Claims *)
Section claims.

(** C28: no false negatives. A filter of any granted size, for any rate and any hash
    function, answers true for every key added, and [Add] and [MayContain] never index
    out of range. The answer false is therefore definitive. *)
Theorem bloom_no_false_negatives `{Hash128} n rate keys :
  bloom_bits n rate ≤ 2^50 →
  ∃ b b', NewBloomFilter n rate = Ok b ∧ add_keys b keys = Ok b' ∧
    (∀ k, k ∈ keys → MayContain (Some b') k = Ok true) ∧
    (∀ k, ∃ r, MayContain (Some b') k = Ok r).
Proof.
  intros Hmax. destruct (NewBloomFilter_ok n rate Hmax) as (b & Hb & Hok & _).
  destruct (add_keys_spec b keys Hok) as (b' & Hb' & Hok' & _ & _ & _ & Hall).
  exists b, b'. split_and!; [done|done| |].
  - intros k Hk. destruct (MayContain_holds b' k Hok') as (r & -> & Hr). f_equal. apply Hr, Hall. by left.
  - intros k. destruct (MayContain_holds b' k Hok') as (r & -> & _). eauto.
Qed.

Lemma bloom_no_false_negatives_witness :
  ∃ b b', NewBloomFilter 3 F64.one_percent = Ok b ∧ @add_keys toy_hash b [7; 8; 2^63] = Ok b' ∧
    (∀ k, k ∈ [7; 8; 2^63] → @MayContain toy_hash (Some b') k = Ok true) ∧
    (∀ k, ∃ r, @MayContain toy_hash (Some b') k = Ok r).
Proof. apply (@bloom_no_false_negatives toy_hash 3 F64.one_percent [7; 8; 2^63]). by vm_compute. Defined.

(** C29: a filter survives its table file: [DecodeBloomFilter] inverts [Encode], and the
    decoded filter answers like the original. *)
Theorem bloom_roundtrip b :
  is_u64 (NumBits b) → is_u32 (NumHashes b) → 12 + zlen (Bits b) ≤ maxAlloc →
  ∃ data, Encode b = Ok data ∧ zlen data = 12 + zlen (Bits b) ∧ DecodeBloomFilter data = Ok b.
Proof.
  intros Hn Hh Hl. exists (bloom_layout b). split_and!; [by apply filter_Encode_layout|apply zlen_bloom_layout|by apply Decode_layout].
Qed.

Lemma bloom_roundtrip_witness :
  ∃ data, Encode (mkBloom [x05; xff] 13 2) = Ok data ∧ zlen data = 12 + zlen [x05; xff] ∧
    DecodeBloomFilter data = Ok (mkBloom [x05; xff] 13 2).
Proof. apply (bloom_roundtrip (mkBloom [x05; xff] 13 2)); by vm_compute. Defined.

(** [DecodeBloomFilter] does not compare the bit count with the bytes it has: it accepts
    filters on which [MayContain] indexes out of range, whatever the hash function. *)
Lemma bloom_decode_unchecked `{Hash128} :
  ∃ data b, DecodeBloomFilter data = Ok b ∧ ∀ key, MayContain (Some b) key = Panic IndexOutOfRange.
Proof.
  exists (bloom_layout (mkBloom [] 1 1)), (mkBloom [] 1 1). split; [apply Decode_layout; by vm_compute|].
  intros key. unfold MayContain. cbn [NumBits NumHashes Bits]. destruct (hashfunc key) as [h1 h2].
  change (Z.to_nat 1) with 1%nat. cbn [Z.eqb orb may_loop mbind outcome_bind position].
  by rewrite Z.mod_1_r.
Qed.
End claims.
