(* ===== verification/Writer.v ===== *)
(** * Writing a table (sstable/sstable.go and sstable/writer.go)

    The [Writer] over the file system, and the layout of the file it produces: header,
    compressed blocks, index, Bloom filter, footer. *)
From Stdlib Require Import ZArith Lia Strings.Byte.
From stdpp Require Import base list gmap.
From S2P Require Import Prelude Key Crc32 Monad Fs Block Bloom.

Definition Magic : Z := 0x57495350.
Definition Version : byte := x01.
Definition DefaultBlockSize : Z := 4096.
Definition FooterSize : Z := 52.

Record IndexEntry := mkIndex {
  iSeriesID : Z;
  iTimestamp : Z;
  iOffset : Z;
  iSize : Z
}.

(** [out] is [io.MultiWriter(file, hash)]; [hash] is the running CRC-32. *)
Record Writer := mkWriter {
  wfile : path;
  hash : Z;
  blockSize : Z;
  currentBlock : Block;
  blockBuf : bytes;
  index : list IndexEntry;
  entryCount : Z;
  offset : Z;
  bloomFilter : option BloomFilter;
  bloomKeys : list Z
}.

Definition set_hash (h : Z) (w : Writer) : Writer :=
  mkWriter (wfile w) h (blockSize w) (currentBlock w) (blockBuf w) (index w) (entryCount w)
    (offset w) (bloomFilter w) (bloomKeys w).
Definition set_offset (o : Z) (w : Writer) : Writer :=
  mkWriter (wfile w) (hash w) (blockSize w) (currentBlock w) (blockBuf w) (index w) (entryCount w)
    o (bloomFilter w) (bloomKeys w).
Definition set_block (b : Block) (w : Writer) : Writer :=
  mkWriter (wfile w) (hash w) (blockSize w) b (blockBuf w) (index w) (entryCount w)
    (offset w) (bloomFilter w) (bloomKeys w).
Definition set_buf (b : bytes) (w : Writer) : Writer :=
  mkWriter (wfile w) (hash w) (blockSize w) (currentBlock w) b (index w) (entryCount w)
    (offset w) (bloomFilter w) (bloomKeys w).
Definition set_index (i : list IndexEntry) (w : Writer) : Writer :=
  mkWriter (wfile w) (hash w) (blockSize w) (currentBlock w) (blockBuf w) i (entryCount w)
    (offset w) (bloomFilter w) (bloomKeys w).
Definition set_bloom (b : option BloomFilter) (w : Writer) : Writer :=
  mkWriter (wfile w) (hash w) (blockSize w) (currentBlock w) (blockBuf w) (index w) (entryCount w)
    (offset w) b (bloomKeys w).
Definition set_counts (n : Z) (keys : list Z) (w : Writer) : Writer :=
  mkWriter (wfile w) (hash w) (blockSize w) (currentBlock w) (blockBuf w) (index w) n
    (offset w) (bloomFilter w) keys.

Section writer.
Context `{Snappy, Hash128}.

Abbreviation W := (M (Writer * world)).

(** [w.out.Write(data)] *)
Definition out_Write (data : bytes) : W (Z * option error) :=
  w ← get_fst;
  '(n, err) ← on_snd (file_Write (wfile w) data);
  match err with
  | Some e => mret (n, Some e)
  | None => modify_fst (λ w, set_hash (Update (hash w) data) w);; mret (zlen data, None)
  end.

(** [n, err := w.out.Write(data); if err != nil { return err }] *)
Definition out_Write_ok (data : bytes) : W Z :=
  '(n, err) ← out_Write data;
  match err with Some e => fail e | None => mret n end.

Definition header_bytes (blockSize : Z) : outcome bytes :=
  header ← go_make 12;
  header ← go_put header 0 4 (le_put 4 Magic);
  header ← go_store header 4 Version;
  go_put header 5 9 (le_put 4 blockSize).

Definition writeHeader : W unit :=
  w ← get_fst;
  header ← lift (header_bytes (blockSize w));
  n ← out_Write_ok header;
  modify_fst (λ w, set_offset (u64 (offset w + n)) w).

Definition NewWriter (p : path) (bs : Z) : IO Writer :=
  os_Create p;;
  let w := mkWriter p 0 bs (mkBlock [] 0) [] [] 0 0 None [] in
  r ← try (run_with w writeHeader);
  match r with
  | inr e => try (file_Close p);; fail e
  | inl (w, _) => mret w
  end.

Definition flushBlock : W unit :=
  w ← get_fst;
  match Entries (currentBlock w) with
  | [] => mret ()
  | first :: _ =>
      '(data, buf) ← lift (EncodeWithCompression (blockBuf w) (currentBlock w));
      modify_fst (set_buf buf);;
      w ← get_fst;
      let off := offset w in
      n ← out_Write_ok data;
      modify_fst (λ w, set_index (index w ++ [mkIndex (eSeriesID first) (eTimestamp first) off (u32 n)]) w);;
      modify_fst (λ w, set_offset (u64 (offset w + n)) w);;
      modify_fst (set_block (mkBlock [] 0))
  end.

Definition Add (e : Entry) : W unit :=
  w ← get_fst;
  let entrySize := entryEncodedSize e in
  (if (0 <? zlen (Entries (currentBlock w))) && (blockSize w <? u32 (Size (currentBlock w) + entrySize))
   then flushBlock else mret ());;
  modify_fst (λ w, set_block (Block.Add (currentBlock w) e) w);;
  modify_fst (λ w, set_counts (u64 (entryCount w + 1)) (bloomKeys w ++ [eSeriesID e]) w).

Definition buildBloomFilter : W unit :=
  w ← get_fst;
  b ← lift (NewBloomFilter (entryCount w) F64.one_percent);
  b ← lift (add_keys b (bloomKeys w));
  modify_fst (set_bloom (Some b)).

Definition writeBloomFilter : W (Z * Z) :=
  w ← get_fst;
  let bloomOffset := offset w in
  match bloomFilter w with
  | None => mret (0, 0)
  | Some b =>
      if zlen (Bits b) =? 0 then mret (0, 0)
      else
        data ← lift (Bloom.Encode b);
        n ← out_Write_ok data;
        modify_fst (λ w, set_offset (u64 (offset w + n)) w);;
        mret (bloomOffset, n)
  end.

Definition index_record (e : IndexEntry) : outcome bytes :=
  record ← go_make 28;
  record ← go_put record 0 8 (le_put 8 (iSeriesID e));
  record ← go_put record 8 16 (le_put 8 (u64 (iTimestamp e)));
  record ← go_put record 16 24 (le_put 8 (iOffset e));
  go_put record 24 28 (le_put 4 (iSize e)).

Fixpoint index_bytes (es : list IndexEntry) : outcome bytes :=
  match es with
  | [] => Ok []
  | e :: es' => record ← index_record e; rest ← index_bytes es'; Ok (record ++ rest)
  end.

Definition writeIndex : W (Z * Z) :=
  w ← get_fst;
  let indexOffset := offset w in
  buf ← lift (index_bytes (index w));
  n ← out_Write_ok buf;
  modify_fst (λ w, set_offset (u64 (offset w + n)) w);;
  mret (indexOffset, n).

Definition footer_bytes (indexOffset indexSize bloomOffset bloomSize count sum : Z) : outcome bytes :=
  footer ← go_make FooterSize;
  footer ← go_put footer 0 4 (le_put 4 Magic);
  footer ← go_store footer 4 Version;
  footer ← go_put footer 8 16 (le_put 8 indexOffset);
  footer ← go_put footer 16 24 (le_put 8 indexSize);
  footer ← go_put footer 24 32 (le_put 8 bloomOffset);
  footer ← go_put footer 32 40 (le_put 8 bloomSize);
  footer ← go_put footer 40 48 (le_put 8 count);
  go_put footer 48 52 (le_put 4 sum).

(** The footer goes to the file alone: the checksum does not cover it. *)
Definition writeFooter (indexOffset indexSize bloomOffset bloomSize : Z) : W unit :=
  w ← get_fst;
  footer ← lift (footer_bytes indexOffset indexSize bloomOffset bloomSize (entryCount w) (hash w));
  '(n, err) ← on_snd (file_Write (wfile w) footer);
  match err with
  | Some e => fail e
  | None => modify_fst (λ w, set_offset (u64 (offset w + n)) w)
  end.

Definition Close : W unit :=
  flushBlock;;
  buildBloomFilter;;
  '(indexOffset, indexSize) ← writeIndex;
  '(bloomOffset, bloomSize) ← writeBloomFilter;
  writeFooter indexOffset indexSize bloomOffset bloomSize;;
  w ← get_fst;
  on_snd (file_Sync (wfile w));;
  on_snd (file_Close (wfile w)).

(** [for ... { writer.Add(entry) }] *)
Fixpoint add_entries (es : list Entry) : W unit :=
  match es with
  | [] => mret ()
  | e :: es' => Add e;; add_entries es'
  end.
End writer.

(** ** Layout *)
Definition header_layout (bs : Z) : bytes := le_put 4 Magic ++ [Version] ++ le_put 4 bs ++ replicate 3 x00.

Definition index_entry_layout (e : IndexEntry) : bytes :=
  le_put 8 (iSeriesID e) ++ le_put 8 (u64 (iTimestamp e)) ++ le_put 8 (iOffset e) ++ le_put 4 (iSize e).
Definition index_layout (es : list IndexEntry) : bytes := concat (index_entry_layout <$> es).

Definition footer_layout (indexOffset indexSize bloomOffset bloomSize count sum : Z) : bytes :=
  le_put 4 Magic ++ [Version] ++ replicate 3 x00 ++ le_put 8 indexOffset ++ le_put 8 indexSize ++
  le_put 8 bloomOffset ++ le_put 8 bloomSize ++ le_put 8 count ++ le_put 4 sum.

Arguments header_layout : simpl never.
Arguments index_entry_layout : simpl never.
Arguments index_layout : simpl never.
Arguments footer_layout : simpl never.

Lemma header_bytes_layout bs : header_bytes bs = Ok (header_layout bs).
Proof. unfold header_bytes, header_layout. le_fields. reflexivity. Qed.

Lemma index_record_layout e : index_record e = Ok (index_entry_layout e).
Proof. unfold index_record, index_entry_layout. le_fields. reflexivity. Qed.

Lemma footer_bytes_layout io isz bo bs n sum :
  footer_bytes io isz bo bs n sum = Ok (footer_layout io isz bo bs n sum).
Proof. unfold footer_bytes, footer_layout. le_fields. reflexivity. Qed.

Lemma index_bytes_layout es : index_bytes es = Ok (index_layout es).
Proof.
  induction es as [|e es IH]; [done|]. cbn [index_bytes].
  rewrite index_record_layout. cbn [mbind outcome_bind]. by rewrite IH.
Qed.

(** The blocks of a table and their index, from a given offset on. *)
Section layout.
Context `{Snappy}.

Definition block_bytes (es : list Entry) : bytes := snappy_Encode (block_layout es).
Definition blocks_bytes (bss : list (list Entry)) : bytes := concat (block_bytes <$> bss).

Definition index_of_block (off : Z) (es : list Entry) : IndexEntry :=
  match es with
  | [] => mkIndex 0 0 off 0
  | e :: _ => mkIndex (eSeriesID e) (eTimestamp e) off (zlen (block_bytes es))
  end.

Fixpoint index_of (off : Z) (bss : list (list Entry)) : list IndexEntry :=
  match bss with
  | [] => []
  | es :: bss' => index_of_block off es :: index_of (off + zlen (block_bytes es)) bss'
  end.

Lemma blocks_bytes_snoc bss es : blocks_bytes (bss ++ [es]) = blocks_bytes bss ++ block_bytes es.
Proof. unfold blocks_bytes. rewrite fmap_app. apply concat_snoc. Qed.

Lemma index_of_snoc off bss es :
  index_of off (bss ++ [es]) = index_of off bss ++ [index_of_block (off + zlen (blocks_bytes bss)) es].
Proof.
  revert off. induction bss as [|b bss IH]; intros off; cbn [app index_of].
  - change (zlen (blocks_bytes [])) with 0. by rewrite Z.add_0_r.
  - rewrite IH. unfold blocks_bytes. rewrite fmap_cons. cbn [concat]. rewrite zlen_app.
    do 4 f_equal. lia.
Qed.

Lemma length_index_of off bss : length (index_of off bss) = length bss.
Proof. revert off. induction bss as [|b bss IH]; intros off; simpl; auto. Qed.

Lemma block_bytes_bound es : block_size es < 2^31 → zlen (block_bytes es) < 2^32.
Proof.
  intros Hs. pose proof (snappy_MaxEncodedLen (block_layout es)) as Hm. unfold block_bytes.
  unfold block_size in Hs. pose proof (zlen_nonneg (block_layout es)) as H0. set (n := zlen (block_layout es)) in *.
  assert (n / 6 < 2^29) by (apply Z.div_lt_upper_bound; lia). lia.
Qed.

(** A table of fewer than 2^30 entries stays far below 2^63 bytes. *)
Lemma blocks_bytes_bound bss :
  Forall (λ es, block_size es < 2^31) bss → zlen (blocks_bytes bss) ≤ 2^32 * zlen bss.
Proof.
  induction 1 as [|es bss Hes Hbss IH]; [done|]. unfold blocks_bytes in *.
  rewrite fmap_cons. cbn [concat]. rewrite zlen_app, zlen_cons.
  pose proof (block_bytes_bound es Hes). lia.
Qed.
End layout.

(** Entries a block can hold. *)
Definition small_entry (e : Entry) : Prop := entry_ok e ∧ 25 + zlen (eValue e) < 2^31.
#[global] Instance small_entry_dec e : Decision (small_entry e).
Proof. unfold small_entry. apply _. Defined.

(** What the writer has done: the blocks written, the block being filled, the bytes of the
    file. *)
Section invariant.
Context `{Snappy, Hash128}.

Record writing (p : path) (bs : Z) (bss : list (list Entry)) (cur : list Entry) (w : Writer) (wd : world) : Prop := {
  wr_file : wfile w = p;
  wr_data : ∃ synced, files wd !! p = Some (File (header_layout bs ++ blocks_bytes bss) synced);
  wr_hash : hash w = ChecksumIEEE (header_layout bs ++ blocks_bytes bss);
  wr_bs : blockSize w = bs;
  wr_cur : Entries (currentBlock w) = cur;
  wr_ok : block_ok (currentBlock w) ∧ Size (currentBlock w) < 2^31;
  wr_index : index w = index_of 12 bss;
  wr_count : entryCount w = zlen (concat bss ++ cur);
  wr_offset : offset w = 12 + zlen (blocks_bytes bss);
  wr_keys : bloomKeys w = eSeriesID <$> (concat bss ++ cur);
  wr_blocks : Forall (λ es, es ≠ [] ∧ block_size es < 2^31) bss;
  wr_entries : Forall small_entry (concat bss ++ cur)
}.

Lemma small_total bss cur :
  Forall (λ es, es ≠ [] ∧ block_size es < 2^31) bss → zlen (concat bss ++ cur) < 2^30 →
  zlen (blocks_bytes bss) < 2^62.
Proof.
  intros Hb Hn. assert (zlen bss ≤ zlen (concat bss)) as Hl.
  { clear Hn. induction Hb as [|es bss [Hne _] Hb IH]; [done|]. cbn [concat]. rewrite zlen_cons, zlen_app.
    destruct es; [done|]. rewrite zlen_cons. pose proof (zlen_nonneg es). lia. }
  assert (zlen (blocks_bytes bss) ≤ 2^32 * zlen bss) as Hbound.
  { apply blocks_bytes_bound. eapply Forall_impl; [exact Hb|]. by intros es [_ ?]. }
  rewrite zlen_app in Hn. pose proof (zlen_nonneg cur). lia.
Qed.

(** What a failed call of the writer leaves: only its own file has changed, and the writer
    can still be closed. [N] bounds the entries of the table. *)
Context (N : Z) (HN : N < 2^30).

Record sane (p : path) (w : Writer) (wd : world) : Prop := {
  sn_file : wfile w = p;
  sn_data : ∃ data synced, files wd !! p = Some (File data synced);
  sn_ok : block_ok (currentBlock w) ∧ Size (currentBlock w) < 2^31;
  sn_count : 0 ≤ entryCount w ≤ N
}.

Abbreviation failure p wd Q := (∀ e w' wd', sane p w' wd' → only p wd wd' → ¬ quiet wd → Q (Err e) (w', wd')).

Lemma wp_out_Write_ok w wd data old sy (Q : outcome Z → Writer * world → Prop) :
  files wd !! wfile w = Some (File old sy) →
  (∀ wd', only (wfile w) wd wd' → files wd' !! wfile w = Some (File (old ++ data) sy) →
     Q (Ok (zlen data)) (set_hash (Update (hash w) data) w, wd')) →
  (∀ e wd' d, only (wfile w) wd wd' → files wd' !! wfile w = Some (File d sy) → ¬ quiet wd → Q (Err e) (w, wd')) →
  wp (out_Write_ok data) Q (w, wd).
Proof.
  intros Hl Hok Herr. unfold out_Write_ok, out_Write. wsteps.
  eapply wp_Write; [done|]. intros n err wd1 Hn Hfull Hq He. cbv beta iota.
  destruct err as [e|]; wsteps.
  - eapply Herr; [by eapply only_insert|rewrite (evolves_files _ _ _ He); apply lookup_insert_eq|].
    intros Hqw. by specialize (Hq Hqw).
  - apply Hok; [by eapply only_insert|]. rewrite (evolves_files _ _ _ He), lookup_insert_eq.
    by rewrite Hfull, firstn_all.
Qed.

Lemma writing_sane p bs bss cur w wd wd' d sy :
  writing p bs bss cur w wd → zlen (concat bss ++ cur) ≤ N → files wd' !! p = Some (File d sy) → sane p w wd'.
Proof.
  intros [Hfile _ _ _ _ Hbok _ Hcnt _ _ _ _] Hn Hl. split; [done|eauto|done|].
  rewrite Hcnt. split; [apply zlen_nonneg|done].
Qed.

(** Fields the tail of [Close] never changes. *)
Lemma sane_same p w wd w' wd' d sy :
  sane p w wd → wfile w' = wfile w → currentBlock w' = currentBlock w → entryCount w' = entryCount w →
  files wd' !! p = Some (File d sy) → sane p w' wd'.
Proof. intros [Hf _ Hok Hc] Ef Eb Ec Hl. split; [congruence|eauto|by rewrite Eb|by rewrite Ec]. Qed.

Lemma wp_flushBlock p bs bss cur w wd (Q : outcome unit → Writer * world → Prop) :
  writing p bs bss cur w wd → zlen (concat bss ++ cur) ≤ N →
  (∀ w' wd' bss', writing p bs bss' [] w' wd' → concat bss' = concat bss ++ cur → only p wd wd' →
     Q (Ok ()) (w', wd')) →
  failure p wd Q →
  wp flushBlock Q (w, wd).
Proof.
  intros Hw Hn Hok Herr. pose proof Hw as [Hfile (sy & Hdata) Hhash Hbs Hcur [Hbok Hsz] Hidx Hcnt Hoff Hkeys Hblk Hent].
  unfold flushBlock. wsteps. rewrite Hcur. destruct cur as [|first rest].
  { wsteps. apply (Hok _ _ bss); [done|by rewrite app_nil_r|]. by split_and!. }
  unfold EncodeWithCompression. rewrite Block.Encode_layout by done. rewrite Hcur. cbn [mbind outcome_bind].
  wsteps. set (cur := first :: rest) in *. fold (block_bytes cur).
  pose proof (small_total _ _ Hblk (Z.le_lt_trans _ _ _ Hn HN)) as Hsmall. pose proof (zlen_nonneg (blocks_bytes bss)).
  assert (block_size cur < 2^31) as Hcs.
  { destruct Hbok as [Hs _]. rewrite Hcur in Hs. lia. }
  pose proof (block_bytes_bound cur Hcs) as Hbb. pose proof (zlen_nonneg (block_bytes cur)).
  eapply wp_out_Write_ok; cbn [wfile set_buf]; rewrite ?Hfile; [done| |].
  2: { intros e wd1 d Ho Hl Hq. cbv beta iota. apply Herr; [|done|done].
       split; cbn; [done|eauto|done|]. rewrite Hcnt. split; [apply zlen_nonneg|done]. }
  intros wd1 Honly Hl1. cbv beta iota. wsteps. cbn [offset set_buf set_hash set_index].
  rewrite Hoff, !u32_id, u64_id by (unfold is_u32, is_u64; lia).
  apply (Hok _ _ (bss ++ [cur])); [|by rewrite concat_snoc|done]. split; cbn; try done.
  - exists sy. rewrite blocks_bytes_snoc, (assoc_L (++)). done.
  - unfold ChecksumIEEE in *. by rewrite blocks_bytes_snoc, (assoc_L (++)), Update_app, Hhash.
  - rewrite Hidx, index_of_snoc. done.
  - by rewrite concat_snoc, app_nil_r.
  - rewrite blocks_bytes_snoc, zlen_app. lia.
  - by rewrite concat_snoc, app_nil_r.
  - by apply Forall_snoc.
  - by rewrite concat_snoc, app_nil_r.
Qed.

Lemma writing_push p bs bss cur w wd e :
  writing p bs bss cur w wd → small_entry e → zlen (concat bss ++ cur) ≤ N →
  Size (currentBlock w) + (25 + zlen (eValue e)) < 2^31 →
  writing p bs bss (cur ++ [e])
    (set_counts (u64 (entryCount w + 1)) (bloomKeys w ++ [eSeriesID e]) (set_block (Block.Add (currentBlock w) e) w)) wd.
Proof.
  intros [Hfile Hdata Hhash Hbs Hcur [Hbok Hsz] Hidx Hcnt Hoff Hkeys Hblk Hent] [He Hse] Hn Hfit.
  pose proof (Add_ok (currentBlock w) e Hbok ltac:(lia)) as Hbok'.
  pose proof (zlen_nonneg (concat bss ++ cur)). pose proof (zlen_nonneg (eValue e)).
  assert (entryEncodedSize e = 25 + zlen (eValue e)) as Hes by (apply entryEncodedSize_exact; lia).
  assert (0 ≤ Size (currentBlock w)) by (destruct Hbok as [-> _]; apply block_size_nonneg).
  split; cbn; try done.
  - by rewrite Hcur.
  - split; [done|]. rewrite Hes, u32_id by (unfold is_u32; lia). lia.
  - rewrite (assoc_L (++)), zlen_app, Hcnt. change (zlen [e]) with 1. apply u64_id. unfold is_u64. lia.
  - by rewrite Hkeys, (assoc_L (++)), !fmap_app.
  - rewrite (assoc_L (++)). by apply Forall_snoc.
Qed.

Lemma wp_Add p bs bss cur w wd e (Q : outcome unit → Writer * world → Prop) :
  writing p bs bss cur w wd → small_entry e → zlen (concat bss ++ cur) ≤ N → bs < 2^31 →
  (∀ w' wd' bss' cur', writing p bs bss' cur' w' wd' → concat bss' ++ cur' = (concat bss ++ cur) ++ [e] →
     only p wd wd' → Q (Ok ()) (w', wd')) →
  failure p wd Q →
  wp (Add e) Q (w, wd).
Proof.
  intros Hw He Hn Hbs Hok Herr. pose proof He as [_ Hse]. pose proof (zlen_nonneg (eValue e)).
  assert (entryEncodedSize e = 25 + zlen (eValue e)) as Hes by (apply entryEncodedSize_exact; lia).
  pose proof Hw as [_ _ _ Hwbs Hcur [[Hbs0 _] Hsz] _ _ _ _ _ _]. pose proof (block_size_nonneg (Entries (currentBlock w))).
  unfold Add. wsteps. rewrite Hes, u32_id, Hwbs, Hcur by (unfold is_u32; lia).
  destruct ((0 <? zlen cur) && (bs <? Size (currentBlock w) + (25 + zlen (eValue e)))) eqn:E.
  - eapply wp_flushBlock; [done..| |done].
    intros w1 wd1 bss1 Hw1 Hc Honly. cbv beta iota. wsteps.
    apply (Hok _ _ bss1 ([] ++ [e])); [|by rewrite Hc|done].
    apply (writing_push p bs bss1 [] w1); [done|done|by rewrite app_nil_r, Hc|].
    destruct Hw1 as [_ _ _ _ Hcur1 [[-> _] _] _ _ _ _ _ _]. rewrite Hcur1.
    unfold block_size. change (zlen (block_layout [])) with 0. lia.
  - wsteps. apply (Hok _ _ bss (cur ++ [e])); [|by rewrite (assoc_L (++))|by split_and!].
    apply (writing_push p bs bss cur w); [done..|]. rewrite Hcur in Hbs0.
    destruct cur as [|c cur']; [change (block_size []) with 0 in Hbs0; lia|].
    rewrite zlen_cons in E. pose proof (zlen_nonneg cur'). lia.
Qed.

Lemma wp_add_entries p bs es bss cur w wd (Q : outcome unit → Writer * world → Prop) :
  writing p bs bss cur w wd → Forall small_entry es → zlen ((concat bss ++ cur) ++ es) ≤ N → bs < 2^31 →
  (∀ w' wd' bss' cur', writing p bs bss' cur' w' wd' → concat bss' ++ cur' = (concat bss ++ cur) ++ es →
     only p wd wd' → Q (Ok ()) (w', wd')) →
  failure p wd Q →
  wp (add_entries es) Q (w, wd).
Proof.
  revert bss cur w wd. induction es as [|e es IH]; intros bss cur w wd Hw Hes Hn Hbs Hok Herr; cbn [add_entries].
  { wsteps. apply (Hok _ _ bss cur); [done|by rewrite app_nil_r|by split_and!]. }
  apply Forall_cons_1 in Hes as [He Hes]. rewrite zlen_app, zlen_cons in Hn. pose proof (zlen_nonneg es).
  wsteps. eapply wp_Add; [done|done|lia|done| |done].
  intros w1 wd1 bss1 cur1 Hw1 Hc Honly. cbv beta iota.
  apply (IH bss1 cur1); [done|done| |done| |].
  - rewrite Hc, !zlen_app. change (zlen [e]) with 1. rewrite zlen_app in Hn. lia.
  - intros w' wd' bss' cur' Hw' Hc' Honly'. apply (Hok _ _ bss' cur'); [done| |by eapply only_trans].
    by rewrite Hc', Hc, <-(assoc_L (++) _ [e]).
  - intros e' w' wd' Hf Honly' Hq. apply Herr; [done|by eapply only_trans|by eapply only_not_quiet].
Qed.

(** ** The finished file *)
Definition body_bytes (bs : Z) (bss : list (list Entry)) (b : BloomFilter) : bytes :=
  header_layout bs ++ blocks_bytes bss ++ index_layout (index_of 12 bss) ++ bloom_layout b.

Definition index_offset (bss : list (list Entry)) : Z := 12 + zlen (blocks_bytes bss).
Definition index_size (bss : list (list Entry)) : Z := 28 * zlen bss.

Definition table_footer (bs : Z) (bss : list (list Entry)) (b : BloomFilter) : bytes :=
  footer_layout (index_offset bss) (index_size bss) (index_offset bss + index_size bss) (12 + zlen (Bits b))
    (zlen (concat bss)) (ChecksumIEEE (body_bytes bs bss b)).

Definition table_bytes (bs : Z) (bss : list (list Entry)) (b : BloomFilter) : bytes :=
  body_bytes bs bss b ++ table_footer bs bss b.

(** The blocks hold exactly the entries [es], in order, and the filter knows every series. *)
Record table_ok (bss : list (list Entry)) (b : BloomFilter) (es : list Entry) : Prop := {
  tb_entries : concat bss = es;
  tb_small : Forall small_entry es;
  tb_blocks : Forall (λ es, es ≠ [] ∧ block_size es < 2^31) bss;
  tb_count : zlen es < 2^30;
  tb_bloom : bloom_ok b;
  tb_numbits : is_u64 (NumBits b);
  tb_numhashes : is_u32 (NumHashes b);
  tb_bits : zlen (Bits b) ≤ 2^47 + 1;
  tb_keys : ∀ e, e ∈ es → holds_key b (eSeriesID e)
}.

Lemma zlen_index_layout es : zlen (index_layout es) = 28 * zlen es.
Proof.
  unfold index_layout. induction es as [|e es IH]; [done|]. rewrite fmap_cons. cbn [concat].
  rewrite zlen_app, zlen_cons, IH. unfold index_entry_layout. zlen.
Qed.

Lemma zlen_index_of off bss : zlen (index_of off bss) = zlen bss.
Proof. unfold zlen. by rewrite length_index_of. Qed.

Lemma blocks_le_entries bss : Forall (λ es, es ≠ [] ∧ block_size es < 2^31) bss → zlen bss ≤ zlen (concat bss).
Proof.
  induction 1 as [|es bss [Hne _] Hb IH]; [done|]. cbn [concat]. rewrite zlen_cons, zlen_app.
  destruct es; [done|]. rewrite zlen_cons. pose proof (zlen_nonneg es). lia.
Qed.

(** The tail of [Close], after the last block: filter, index, filter bytes, footer, fsync. *)
Lemma wp_finish p bs bss w wd (Q : outcome unit → Writer * world → Prop) :
  writing p bs bss [] w wd → zlen (concat bss) ≤ N →
  bloom_bits (zlen (concat bss)) F64.one_percent ≤ 2^50 →
  (∀ w' wd' b, table_ok bss b (concat bss) → only p wd wd' →
     files wd' !! p = Some (File (table_bytes bs bss b) (length (table_bytes bs bss b))) →
     Q (Ok ()) (w', wd')) →
  failure p wd Q →
  wp (buildBloomFilter;;
      '(indexOffset, indexSize) ← writeIndex;
      '(bloomOffset, bloomSize) ← writeBloomFilter;
      writeFooter indexOffset indexSize bloomOffset bloomSize;;
      w ← get_fst;
      on_snd (file_Sync (wfile w));;
      on_snd (file_Close (wfile w))) Q (w, wd).
Proof.
  intros Hw Hn Hbits Hok Herr. pose proof Hw as [Hfile (sy & Hdata) Hhash _ _ _ Hidx Hcnt Hoff Hkeys Hblk Hent].
  assert (sane p w wd) as Hsane by (eapply writing_sane; [exact Hw|by rewrite app_nil_r|exact Hdata]).
  rewrite app_nil_r in Hcnt, Hkeys, Hent.
  pose proof (small_total bss [] Hblk ltac:(rewrite app_nil_r; lia)) as Hsmall.
  pose proof (blocks_le_entries bss Hblk) as Hnb. pose proof (zlen_nonneg (blocks_bytes bss)). pose proof (zlen_nonneg bss).
  destruct (NewBloomFilter_ok _ _ Hbits) as (b0 & Hb0 & Hbok0 & Hnb0 & Hnh0 & Hlb0).
  destruct (add_keys_spec b0 (eSeriesID <$> concat bss) Hbok0) as (b & Hb & Hbok & Hlb & Hnbits & Hnh & Hall).
  unfold buildBloomFilter. wsteps. rewrite Hcnt, Hb0. wsteps. rewrite Hkeys, Hb. wsteps.
  set (w1 := set_bloom (Some b) w). unfold writeIndex. wsteps. rewrite index_bytes_layout. wsteps.
  assert (index w1 = index_of 12 bss) as Hidx1 by done. rewrite Hidx1.
  set (idx := index_layout (index_of 12 bss)). assert (zlen idx = index_size bss) as Hzi.
  { unfold idx, index_size. by rewrite zlen_index_layout, zlen_index_of. }
  eapply (wp_out_Write_ok w1); unfold w1; cbn [wfile set_bloom]; rewrite ?Hfile; [exact Hdata| |].
  2: { intros e wd' d Ho Hl Hq. by apply Herr; [eapply sane_same|..]. }
  intros wd1 Ho1 Hl1. cbv beta iota. wsteps. unfold writeBloomFilter. wsteps.
  cbn [bloomFilter set_offset set_hash set_bloom].
  assert (0 < zlen (Bits b)) as Hbpos by (destruct Hbok as [[? ?] _]; lia).
  destruct (Z.eqb_spec (zlen (Bits b)) 0) as [|_]; [lia|].
  assert (zlen (Bits b) ≤ 2^47 + 1) as Hbmax.
  { rewrite Hlb, Hlb0. apply Z.div_le_upper_bound; lia. }
  rewrite filter_Encode_layout by (unfold maxAlloc; lia). wsteps.
  eapply wp_out_Write_ok; cbn [wfile set_bloom set_offset set_hash]; rewrite ?Hfile; [exact Hl1| |].
  2: { intros e wd' d Ho Hl Hq. apply Herr; [by eapply sane_same|only_step Ho1|by apply (only_not_quiet _ _ _ Ho1)]. }
  intros wd2 Ho2 Hl2. cbv beta iota. wsteps. unfold writeFooter. wsteps. rewrite footer_bytes_layout. wsteps.
  cbn [wfile set_offset set_hash set_bloom offset entryCount hash]. rewrite Hfile, Hoff, Hcnt, Hhash.
  assert (only p wd wd2) as Ho12 by only_step Ho1.
  unfold index_size in *.
  rewrite Hzi, zlen_bloom_layout. rewrite !(u64_id (12 + _ + _)) by (unfold is_u64; lia).
  match goal with |- context [file_Write p ?f] => assert (f = table_footer bs bss b) as -> end.
  { unfold table_footer, index_offset, index_size, body_bytes. f_equal.
    unfold ChecksumIEEE. by rewrite <-!Update_app, <-!(assoc_L (++)). }
  eapply wp_Write; [exact Hl2|]. intros n err wd3 Hn3 Hfull Hq3 He3. cbv beta iota.
  assert (only p wd wd3) as Ho13 by only_step Ho12.
  destruct err as [e|]; wsteps.
  { apply Herr; [eapply sane_same; try done; rewrite (evolves_files _ _ _ He3); apply lookup_insert_eq|done|]. intros Hqw. assert (quiet wd2) as Hq2 by by apply Ho12. by specialize (Hq3 Hq2). }
  rewrite Hfull, firstn_all in He3 by done. cbn [wfile set_offset set_hash set_bloom]. rewrite Hfile.
  eapply wp_Sync; [rewrite (evolves_files _ _ _ He3); apply lookup_insert_eq| |].
  2: { intros wd4 He4 Hq4. apply Herr; [eapply sane_same; try done; rewrite (evolves_files _ _ _ He4), (evolves_files _ _ _ He3); apply lookup_insert_eq|only_step Ho13|by apply (only_not_quiet _ _ _ Ho13)]. }
  intros wd4 He4. cbv beta iota. wsteps.
  assert (only p wd wd4) as Ho14 by only_step Ho13.
  apply wp_Close.
  2: { intros wd5 He5 Hq5. apply Herr; [eapply sane_same; try done; rewrite (evolves_files _ _ _ He5), (evolves_files _ _ _ He4); apply lookup_insert_eq|only_step Ho14|by apply (only_not_quiet _ _ _ Ho14)]. }
  intros wd5 He5. apply (Hok _ _ b).
  - pose proof (bloom_bits_range (zlen (concat bss)) F64.one_percent) as Hbr.
    pose proof (bloom_hashes_range (zlen (concat bss)) (bloom_bits (zlen (concat bss)) F64.one_percent)) as Hhr.
    split; try done; [lia|unfold is_u64; rewrite Hnbits, Hnb0; lia|unfold is_u32; rewrite Hnh, Hnh0; lia|].
    intros e He. apply Hall. left. by apply list_elem_of_fmap_2.
  - only_step Ho14.
  - rewrite (evolves_files _ _ _ He5), (evolves_files _ _ _ He4), lookup_insert_eq.
    assert ((((header_layout bs ++ blocks_bytes bss) ++ idx) ++ bloom_layout b) ++ table_footer bs bss b =
      table_bytes bs bss b) as ->; [|done].
    unfold table_bytes, body_bytes. by rewrite <-!(assoc_L (++)).
Qed.

Lemma wp_Close_table p bs bss cur w wd (Q : outcome unit → Writer * world → Prop) :
  writing p bs bss cur w wd → zlen (concat bss ++ cur) ≤ N →
  bloom_bits (zlen (concat bss ++ cur)) F64.one_percent ≤ 2^50 →
  (∀ w' wd' bss' b, table_ok bss' b (concat bss ++ cur) → only p wd wd' →
     files wd' !! p = Some (File (table_bytes bs bss' b) (length (table_bytes bs bss' b))) →
     Q (Ok ()) (w', wd')) →
  failure p wd Q →
  wp Close Q (w, wd).
Proof.
  intros Hw Hn Hbits Hok Herr. unfold Close. wstep.
  eapply wp_flushBlock; [done|done| |done].
  intros w1 wd1 bss1 Hw1 Hc Ho1. cbv beta iota.
  eapply (wp_finish p bs bss1); [done|by rewrite Hc|by rewrite Hc| |].
  - intros w' wd' b Htb Ho Hf. rewrite Hc in Htb. apply (Hok _ _ bss1 b); [done|only_step Ho1|done].
  - intros e w' wd' Hf Ho Hq. apply Herr; [done|only_step Ho1|by apply (only_not_quiet _ _ _ Ho1)].
Qed.

Lemma zlen_table_header bs : zlen (header_layout bs) = 12.
Proof. unfold header_layout. zlen. Qed.

Lemma wp_NewWriter p bs wd (Q : outcome Writer → world → Prop) :
  files wd !! p ≠ Some Dir → pdir p ∈ dirs wd →
  (∀ w' wd', writing p bs [] [] w' wd' → only p wd wd' → Q (Ok w') wd') →
  (∀ e wd', only p wd wd' → ¬ quiet wd → Q (Err e) wd') →
  wp (NewWriter p bs) Q wd.
Proof.
  intros Hp Hd Hok Herr. unfold NewWriter. wsteps. apply wp_Create; [done..| |].
  2: { intros wd' He Hq. apply Herr; [by eapply only_same|done]. }
  intros wd1 He1. cbv beta iota. wsteps. assert (only p wd wd1) as Ho1 by by eapply only_insert.
  unfold writeHeader. wsteps. cbn [blockSize]. rewrite header_bytes_layout. wsteps.
  eapply wp_out_Write_ok; cbn [wfile]; [rewrite (evolves_files _ _ _ He1); apply lookup_insert_eq| |].
  - intros wd2 Ho2 Hl2. cbv beta iota. wsteps. apply Hok; [|only_step Ho1].
    assert (header_layout bs ++ blocks_bytes [] = header_layout bs) as Hnil by apply app_nil_r.
    split; rewrite ?Hnil; [done| | |done..].
    + exists 0%nat. exact Hl2.
    + unfold ChecksumIEEE. cbn [hash set_offset set_hash]. reflexivity.
  - intros e wd' d Ho Hl Hq. cbv beta iota. wsteps. assert (only p wd wd') as Ho' by only_step Ho1.
    apply wp_Close.
    + intros wd3 He3. cbv beta iota. wsteps. apply Herr; [only_step Ho'|by apply (only_not_quiet _ _ _ Ho1)].
    + intros wd3 He3 Hq3. cbv beta iota. wsteps. apply Herr; [only_step Ho'|by apply (only_not_quiet _ _ _ Ho1)].
Qed.
End invariant.

(** Writing a table from start to end, as the flush and the compactor do. *)
Definition write_table `{Snappy, Hash128} (p : path) (bs : Z) (es : list Entry) : IO unit :=
  w ← NewWriter p bs;
  run_with w (add_entries es;; Close);;
  mret ().

(** Size limits under which no counter of the writer wraps. *)
Definition table_fits (bs : Z) (es : list Entry) : Prop :=
  bs < 2^31 ∧ Forall small_entry es ∧ zlen es < 2^30 ∧ bloom_bits (zlen es) F64.one_percent ≤ 2^50.
#[global] Instance table_fits_dec bs es : Decision (table_fits bs es).
Proof. unfold table_fits. apply _. Defined.

(** The filters of tables of up to [n] entries can be allocated. *)
Definition filters_ok (n : Z) : Prop := ∀ m, 0 ≤ m ≤ n → bloom_bits m F64.one_percent ≤ 2^50.

Lemma table_fits_filters n bs es :
  filters_ok n → bs < 2^31 → Forall small_entry es → zlen es ≤ n → n < 2^30 → table_fits bs es.
Proof. intros Hf Hbs Hes Hn Hmax. split_and!; [done|done|lia|]. apply Hf. split; [apply zlen_nonneg|done]. Qed.

(** Closing a writer again after an error: it may fail, but does not panic and touches no
    other file. *)
Section reclose.
Context `{Snappy, Hash128} (N : Z) (HN : N < 2^30) (Hfilters : filters_ok N).

Definition settled {A} (p : path) (wd : world) (r : outcome A) (s : Writer * world) : Prop :=
  (r = OutOfFuel → False) ∧ (∀ e, r ≠ Panic e) ∧ only p wd s.2 ∧ ∃ d sy, files s.2 !! p = Some (File d sy).

Lemma settled_Err {A} p wd e w wd' d sy :
  only p wd wd' → files wd' !! p = Some (File d sy) → settled (A := A) p wd (Err e) (w, wd').
Proof. intros Ho Hl. split_and!; [done|done|done|eauto]. Qed.

Lemma wp_flush_settled p w wd :
  sane N p w wd →
  wp flushBlock (λ r s, settled p wd r s ∧ (r = Ok () → sane N p s.1 s.2)) (w, wd).
Proof.
  intros Hs. pose proof Hs as [Hfile (d & sy & Hl) [Hbok Hsz] Hc]. unfold flushBlock. wsteps.
  assert (only p wd wd) as Hrefl by by split_and!.
  destruct (Entries (currentBlock w)) as [|first rest] eqn:E.
  { wsteps. split; [|done]. split_and!; [done|done|done|eauto]. }
  unfold EncodeWithCompression. rewrite Block.Encode_layout by done. cbn [mbind outcome_bind]. wsteps.
  eapply wp_out_Write_ok; cbn [wfile set_buf]; rewrite ?Hfile; [exact Hl| |].
  2: { intros e wd1 d1 Ho1 Hl1 Hq1. cbv beta iota. split; [by eapply settled_Err|done]. }
  intros wd1 Ho1 Hl1. cbv beta iota. wsteps. split; [split_and!; [done|done|done|eauto]|].
  intros _. cbn [fst snd]. split; [done|eauto| |done]. cbn. split; [|lia].
  split; [done|constructor].
Qed.

Lemma wp_Close_settled p w wd :
  sane N p w wd → wp Close (settled p wd) (w, wd).
Proof.
  intros Hs. unfold Close. wstep. eapply wp_mono; [by apply wp_flush_settled|].
  intros r [w1 wd1] [(Hfu & Hpa & Ho1 & d & sy & Hl1) Hok]. cbn [fst snd] in *.
  destruct r as [[]|e|e|]; [|by eapply settled_Err|by destruct (Hpa e)|by destruct Hfu].
  destruct (Hok eq_refl) as [Hfile _ _ Hc].
  destruct (NewBloomFilter_ok _ _ (Hfilters _ Hc)) as (b0 & Hb0 & Hbok0 & Hnb0 & Hnh0 & Hlb0).
  destruct (add_keys_spec b0 (bloomKeys w1) Hbok0) as (b & Hb & Hbok & Hlb & _).
  unfold buildBloomFilter. wsteps. rewrite Hb0. wsteps. rewrite Hb. wsteps.
  unfold writeIndex. wsteps. rewrite index_bytes_layout. wsteps.
  eapply wp_out_Write_ok; cbn [wfile set_bloom]; rewrite ?Hfile; [exact Hl1| |].
  2: { intros e wd2 d2 Ho2 Hl2 Hq2. cbv beta iota. eapply settled_Err; [only_step Ho1|done]. }
  intros wd2 Ho2 Hl2. cbv beta iota. wsteps. unfold writeBloomFilter. wsteps.
  cbn [bloomFilter set_offset set_hash set_bloom].
  assert (only p wd wd2) as Ho12 by only_step Ho1.
  assert (0 < zlen (Bits b) ≤ 2^47 + 1) as Hbits.
  { specialize (Hfilters _ Hc). destruct Hbok as [[? ?] _]. split; [lia|].
    rewrite Hlb, Hlb0. apply Z.div_le_upper_bound; lia. }
  destruct (Z.eqb_spec (zlen (Bits b)) 0) as [|_]; [lia|].
  rewrite filter_Encode_layout by (unfold maxAlloc; lia). wsteps.
  eapply wp_out_Write_ok; cbn [wfile set_bloom set_offset set_hash]; rewrite ?Hfile; [exact Hl2| |].
  2: { intros e wd3 d3 Ho3 Hl3 Hq3. cbv beta iota. eapply settled_Err; [only_step Ho12|done]. }
  intros wd3 Ho3 Hl3. cbv beta iota. wsteps. unfold writeFooter. wsteps. rewrite footer_bytes_layout. wsteps.
  assert (only p wd wd3) as Ho13 by only_step Ho12.
  cbn [wfile set_offset set_hash set_bloom]. rewrite Hfile.
  eapply wp_Write; [exact Hl3|]. intros n err wd4 Hn4 _ _ He4. cbv beta iota.
  assert (only p wd wd4) as Ho14 by only_step Ho13. pose proof (evolves_files _ _ _ He4) as Hf4.
  destruct err as [e|]; wsteps; [eapply settled_Err; [done|rewrite Hf4; apply lookup_insert_eq]|].
  cbn [wfile set_offset set_hash set_bloom]. rewrite Hfile.
  eapply wp_Sync; [rewrite Hf4; apply lookup_insert_eq| |].
  2: { intros wd5 He5 _. cbv beta iota. eapply settled_Err; [only_step Ho14|].
       rewrite (evolves_files _ _ _ He5), Hf4. apply lookup_insert_eq. }
  intros wd5 He5. cbv beta iota. wsteps. assert (only p wd wd5) as Ho15 by only_step Ho14.
  pose proof (evolves_files _ _ _ He5) as Hf5. apply wp_Close.
  - intros wd6 He6. split_and!; [done|done|only_step Ho15|]. cbn [snd].
    rewrite (evolves_files _ _ _ He6), Hf5, lookup_insert_eq. eauto.
  - intros wd6 He6 _. eapply settled_Err; [only_step Ho15|].
    rewrite (evolves_files _ _ _ He6), Hf5. apply lookup_insert_eq.
Qed.
End reclose.

Section write_table.
Context `{Snappy, Hash128}.

Lemma wp_write_table p bs es wd (Q : outcome unit → world → Prop) :
  files wd !! p ≠ Some Dir → pdir p ∈ dirs wd → table_fits bs es →
  (∀ wd' bss b, table_ok bss b es → only p wd wd' →
     files wd' !! p = Some (File (table_bytes bs bss b) (length (table_bytes bs bss b))) → Q (Ok ()) wd') →
  (∀ e wd', only p wd wd' → ¬ quiet wd → Q (Err e) wd') →
  wp (write_table p bs es) Q wd.
Proof.
  intros Hp Hd (Hbs & Hes & Hn & Hbits) Hok Herr. unfold write_table. wsteps.
  apply wp_NewWriter; [done..| |done]. intros w wd1 Hw Ho1. cbv beta iota. wsteps.
  eapply (wp_add_entries (zlen es) Hn p bs es); [done|done|done|done| |].
  - intros w2 wd2 bss cur Hw2 Hc Ho2. cbv beta iota. simpl in Hc.
    assert (only p wd wd2) as Ho12 by only_step Ho1.
    eapply (wp_Close_table (zlen es) Hn); [done|by rewrite Hc..| |].
    + intros w3 wd3 bss3 b Htb Ho3 Hf. cbv beta iota. wsteps. rewrite Hc in Htb.
      apply (Hok _ bss3 b); [done|only_step Ho12|done].
    + intros e w3 wd3 Hf Ho3 Hq. cbv beta iota. apply Herr; [only_step Ho12|by apply (only_not_quiet _ _ _ Ho12)].
  - intros e w2 wd2 Hf Ho2 Hq. cbv beta iota. apply Herr; [only_step Ho1|by apply (only_not_quiet _ _ _ Ho1)].
Qed.
End write_table.
