(* ===== verification/Reader.v ===== *)
(** * Reading a table (sstable/reader.go)

    Opening a table file (footer, index, filter, checksum), the binary search for a block,
    point lookups and block reads. A [Reader] keeps the bytes behind its handle: table
    files are not written to once they can be opened. *)
From Stdlib Require Import ZArith Lia Strings.Byte.
From stdpp Require Import base list gmap sorting.
From S2P Require Import Prelude Key Crc32 Monad Fs Block Bloom Writer.

Record Reader := mkReader {
  rdata : bytes;
  rindex : list IndexEntry;
  rentryCount : Z;
  rbloom : option BloomFilter
}.

(** [file.ReadAt(make([]byte, n), off)] *)
Definition ReadAt (data : bytes) (n off : Z) : outcome bytes :=
  _ ← go_make n;
  if off <? 0 then Err ErrNegativeOffset
  else if n =? 0 then Ok []
  else if zlen data <? off + n then Err ErrEOF
  else go_slice data off (off + n).

Fixpoint index_loop (data : bytes) (i : Z) (n : nat) : outcome (list IndexEntry) :=
  match n with
  | O => Ok []
  | S n' =>
      let start := i * 28 in
      s ← go_slice data start (start + 8);
      t ← go_slice data (start + 8) (start + 16);
      o ← go_slice data (start + 16) (start + 24);
      z ← go_slice data (start + 24) (start + 28);
      rest ← index_loop data (i + 1) n';
      Ok (mkIndex (le_get s) (i64 (le_get t)) (le_get o) (le_get z) :: rest)
  end.

Definition readIndex (file : bytes) (offset size : Z) : outcome (list IndexEntry) :=
  if negb (size mod 28 =? 0) then Err ErrTableIndexSize
  else
    data ← ReadAt file size (i64 offset);
    index_loop data 0 (Z.to_nat (size / 28)).

Definition readBloomFilter (file : bytes) (offset size : Z) : outcome (option BloomFilter) :=
  if size =? 0 then Ok None
  else
    data ← ReadAt file size (i64 offset);
    filter ← DecodeBloomFilter data;
    Ok (Some filter).

(** The section reader stops at the end of the file; a negative limit reads nothing. *)
Definition verifyChecksum (file : bytes) (dataSize want : Z) : outcome unit :=
  let got := ChecksumIEEE (take (Z.to_nat (i64 dataSize)) file) in
  if got =? want then Ok () else Err (ErrTableChecksum got want).

Definition readFooter (file : bytes) : outcome Reader :=
  if zlen file <? FooterSize then Err ErrTableTooSmall
  else
    footer ← ReadAt file FooterSize (zlen file - FooterSize);
    magic ← go_slice footer 0 4;
    if negb (le_get magic =? Magic) then Err ErrTableMagic
    else
      version ← go_index footer 4;
      if negb (bool_decide (version = Version)) then Err (ErrTableVersion (Z_of_byte version))
      else
        indexOffset ← go_slice footer 8 16;
        indexSize ← go_slice footer 16 24;
        bloomOffset ← go_slice footer 24 32;
        bloomSize ← go_slice footer 32 40;
        count ← go_slice footer 40 48;
        checksum ← go_slice footer 48 52;
        index ← readIndex file (le_get indexOffset) (le_get indexSize);
        bloom ← readBloomFilter file (le_get bloomOffset) (le_get bloomSize);
        let checksumSize :=
          if 0 <? le_get bloomSize then u64 (le_get bloomOffset + le_get bloomSize)
          else u64 (le_get indexOffset + le_get indexSize) in
        verifyChecksum file checksumSize (le_get checksum);;
        Ok (mkReader file index (le_get count) bloom).

Definition OpenReader (p : path) : IO Reader :=
  file ← os_Open p;
  r ← try (syscall (lift (readFooter file)));
  match r with
  | inr e => try (file_Close p);; fail e
  | inl reader => mret reader
  end.

(** [sort.Search(n, f)] *)
Fixpoint search_loop (fuel : nat) (f : Z → outcome bool) (i j : Z) : outcome Z :=
  match fuel with
  | O => OutOfFuel
  | S fuel' =>
      if i <? j then
        let h := Z.shiftr (i + j) 1 in
        b ← f h;
        if negb b then search_loop fuel' f (h + 1) j else search_loop fuel' f i h
      else Ok i
  end.
Definition Search (n : Z) (f : Z → outcome bool) : outcome Z := search_loop (S (Z.to_nat n)) f 0 n.

Definition compareEntries (a b : Entry) : Z :=
  if eSeriesID a <? eSeriesID b then -1
  else if eSeriesID b <? eSeriesID a then 1
  else if eTimestamp a <? eTimestamp b then -1
  else if eTimestamp b <? eTimestamp a then 1
  else 0.

Definition findBlock (r : Reader) (seriesID timestamp : Z) : outcome (option IndexEntry) :=
  if zlen (rindex r) =? 0 then Ok None
  else
    let target := mkEntry seriesID timestamp false [] in
    i ← Search (zlen (rindex r)) (λ i,
      entry ← go_index (rindex r) i;
      Ok (0 <? compareEntries (mkEntry (iSeriesID entry) (iTimestamp entry) false []) target));
    if i =? 0 then Ok None
    else
      entry ← go_index (rindex r) (i - 1);
      Ok (Some entry).

Section reader.
Context `{Snappy, Hash128}.

(** The bytes of a block, decompressed. *)
Definition blockData (r : Reader) (ie : IndexEntry) : outcome bytes :=
  data ← ReadAt (rdata r) (iSize ie) (i64 (iOffset ie));
  match snappy_Decode data with
  | None => Err (ErrBlockSnappy ErrSnappyCorrupt)
  | Some decompressed => Ok decompressed
  end.

Definition readBlock (r : Reader) (ie : IndexEntry) : outcome (list Entry) :=
  data ← blockData r ie;
  parse_block data.

Definition findEntryInBlock (r : Reader) (ie : IndexEntry) (seriesID timestamp : Z) : outcome (bytes * bool * bool) :=
  data ← blockData r ie;
  find_in_block data seriesID timestamp.

Definition MayContain (r : Reader) (seriesID : Z) : outcome bool :=
  match rbloom r with
  | None => Ok true
  | Some b => Bloom.MayContain (Some b) seriesID
  end.

(** Value, found, deleted. *)
Definition Get (r : Reader) (seriesID timestamp : Z) : outcome (bytes * bool * bool) :=
  may ← MayContain r seriesID;
  if negb may then Ok ([], false, false)
  else
    block ← findBlock r seriesID timestamp;
    match block with
    | None => Ok ([], false, false)
    | Some block =>
        '(value, found, deleted) ← findEntryInBlock r block seriesID timestamp;
        if negb found then Ok ([], false, false)
        else if (deleted : bool) then Ok ([], false, true)
        else Ok (value, true, false)
    end.
End reader.

(** ** Reading what the writer wrote *)
Lemma ReadAt_mid pre mid post n off :
  off = zlen pre → n = zlen mid → n ≤ maxAlloc → ReadAt (pre ++ mid ++ post) n off = Ok mid.
Proof.
  intros -> -> Hmax. pose proof (zlen_nonneg pre). pose proof (zlen_nonneg mid). pose proof (zlen_nonneg post).
  unfold ReadAt, go_make. destruct (_ || _) eqn:E; [lia|]. cbn [mbind outcome_bind].
  destruct (Z.ltb_spec (zlen pre) 0); [lia|]. destruct (Z.eqb_spec (zlen mid) 0) as [Hz|Hz].
  { by apply length_zero_iff_nil_zlen in Hz as ->. }
  rewrite !zlen_app. destruct (Z.ltb_spec (zlen pre + (zlen mid + zlen post)) (zlen pre + zlen mid)); [lia|].
  by apply go_slice_mid.
Qed.

Lemma ReadAt_cases file n off :
  (∃ e, ReadAt file n off = Err e) ∨ (n < 0 ∨ maxAlloc < n) ∨
  ∃ data, ReadAt file n off = Ok data ∧ zlen data = n.
Proof.
  unfold ReadAt, go_make. destruct (_ || _) eqn:E; [right; left; lia|]. cbn [mbind outcome_bind].
  destruct (Z.ltb_spec off 0); [eauto|]. destruct (Z.eqb_spec n 0) as [->|]; [right; right; by exists []|].
  destruct (Z.ltb_spec (zlen file) (off + n)); [eauto|].
  destruct (go_slice_spec file off (off + n)) as (d & -> & Hd); [lia..|].
  right. right. exists d. split; [done|lia].
Qed.

Definition index_entry_ok (e : IndexEntry) : Prop :=
  is_u64 (iSeriesID e) ∧ is_i64 (iTimestamp e) ∧ is_u64 (iOffset e) ∧ is_u32 (iSize e).

Lemma index_loop_layout pre es i :
  Forall index_entry_ok es → zlen pre = i * 28 →
  index_loop (pre ++ index_layout es) i (length es) = Ok es.
Proof.
  intros Hes. revert pre i. induction Hes as [|e es (Hs & Ht & Ho & Hz) Hes IH]; intros pre i Hi; [done|].
  cbn [length index_loop]. unfold index_layout. rewrite fmap_cons. cbn [concat]. fold (index_layout es).
  assert (zlen (index_entry_layout e) = 28) as H28 by (unfold index_entry_layout; zlen).
  rewrite <-Hi. pose proof (zlen_nonneg pre).
  assert (go_slice (pre ++ index_entry_layout e ++ index_layout es) (zlen pre) (zlen pre + 8) = Ok (le_put 8 (iSeriesID e))) as ->.
  { unfold index_entry_layout. rewrite <-!(assoc_L (++)). slice_field. }
  assert (go_slice (pre ++ index_entry_layout e ++ index_layout es) (zlen pre + 8) (zlen pre + 16) = Ok (le_put 8 (u64 (iTimestamp e)))) as ->.
  { unfold index_entry_layout. rewrite <-!(assoc_L (++)). slice_field. }
  assert (go_slice (pre ++ index_entry_layout e ++ index_layout es) (zlen pre + 16) (zlen pre + 24) = Ok (le_put 8 (iOffset e))) as ->.
  { unfold index_entry_layout. rewrite <-!(assoc_L (++)). slice_field. }
  assert (go_slice (pre ++ index_entry_layout e ++ index_layout es) (zlen pre + 24) (zlen pre + 28) = Ok (le_put 4 (iSize e))) as ->.
  { unfold index_entry_layout. rewrite <-!(assoc_L (++)). slice_field. }
  cbn [mbind outcome_bind]. rewrite (assoc_L (++)), IH by (rewrite zlen_app; lia). cbn [mbind outcome_bind].
  rewrite !le_get_put_u64, le_get_put_u32, i64_u64 by auto with word. by destruct e.
Qed.

Lemma zlen_footer_layout a b c d e f : zlen (footer_layout a b c d e f) = FooterSize.
Proof. unfold footer_layout, FooterSize. zlen. Qed.

(** The fields of a footer. *)
Lemma footer_fields io isz bo bsz n sum (f := footer_layout io isz bo bsz n sum) :
  go_slice f 0 4 = Ok (le_put 4 Magic) ∧ go_index f 4 = Ok Version ∧
  go_slice f 8 16 = Ok (le_put 8 io) ∧ go_slice f 16 24 = Ok (le_put 8 isz) ∧
  go_slice f 24 32 = Ok (le_put 8 bo) ∧ go_slice f 32 40 = Ok (le_put 8 bsz) ∧
  go_slice f 40 48 = Ok (le_put 8 n) ∧ go_slice f 48 52 = Ok (le_put 4 sum).
Proof.
  unfold f, footer_layout. split_and!.
  2: { apply go_index_field. zlen. }
  all: slice_field.
Qed.

(** Any file that ends in a footer of the writer's format. *)
Lemma readFooter_layout body io isz bo bsz n sum :
  is_u64 io → is_u64 isz → is_u64 bo → is_u64 bsz → is_u64 n → is_u32 sum →
  let file := body ++ footer_layout io isz bo bsz n sum in
  readFooter file =
    (index ← readIndex file io isz;
     bloom ← readBloomFilter file bo bsz;
     verifyChecksum file (if 0 <? bsz then u64 (bo + bsz) else u64 (io + isz)) sum;;
     Ok (mkReader file index n bloom)).
Proof.
  intros Hio Hisz Hbo Hbsz Hn Hsum file. unfold readFooter.
  pose proof (zlen_footer_layout io isz bo bsz n sum) as Hf. pose proof (zlen_nonneg body).
  assert (zlen file = zlen body + FooterSize) as Hl by (unfold file; rewrite zlen_app; lia).
  rewrite Hl. destruct (Z.ltb_spec (zlen body + FooterSize) FooterSize); [lia|].
  assert (ReadAt file FooterSize (zlen body + FooterSize - FooterSize) = Ok (footer_layout io isz bo bsz n sum)) as ->.
  { unfold file. rewrite <-(app_nil_r (footer_layout _ _ _ _ _ _)) at 1.
    apply ReadAt_mid; [lia|done|]. unfold FooterSize, maxAlloc. lia. }
  cbn [mbind outcome_bind].
  destruct (footer_fields io isz bo bsz n sum) as (-> & -> & -> & -> & -> & -> & -> & ->).
  cbn [mbind outcome_bind]. rewrite !le_get_put_u64, !le_get_put_u32 by done.
  change (negb (Magic =? Magic)) with false. cbv iota.
  change (negb (bool_decide (Version = Version))) with false. by cbv iota.
Qed.

Section written.
Context `{Snappy, Hash128}.

(** What a reader promises its clients: its blocks, in index order, hold the entries [es],
    each block non-empty and indexed by its first key, and the filter has no false
    negative. The lookup and the iteration are proved from this alone. *)
Definition block_of (r : Reader) (ie : IndexEntry) (es : list Entry) : Prop :=
  readBlock r ie = Ok es ∧
  match es with [] => False | e :: _ => iSeriesID ie = eSeriesID e ∧ iTimestamp ie = eTimestamp e end.

Definition readable (r : Reader) (es : list Entry) : Prop :=
  ∃ bss, concat bss = es ∧ Forall2 (block_of r) (rindex r) bss ∧
    ∀ sid, ∃ may, MayContain r sid = Ok may ∧ (may = false → ∀ e, e ∈ es → eSeriesID e ≠ sid).

Lemma index_of_ok off bss :
  Forall (λ es, es ≠ [] ∧ block_size es < 2^31) bss → Forall small_entry (concat bss) →
  0 ≤ off → off + zlen (blocks_bytes bss) < 2^63 → Forall index_entry_ok (index_of off bss).
Proof.
  intros Hb. revert off. induction Hb as [|es bss [Hne Hs] Hb IH]; intros off Hsm Hoff Hmax; [constructor|].
  cbn [index_of concat] in *. apply Forall_app in Hsm as [Hes Hsm].
  unfold blocks_bytes in Hmax. rewrite fmap_cons in Hmax. cbn [concat] in Hmax. fold (blocks_bytes bss) in Hmax.
  rewrite zlen_app in Hmax. pose proof (zlen_nonneg (block_bytes es)). pose proof (zlen_nonneg (blocks_bytes bss)).
  pose proof (block_bytes_bound es Hs). constructor; [|apply IH; [done|lia..]].
  destruct es as [|e es]; [done|]. apply Forall_cons_1 in Hes as [[(? & ? & _) _] _].
  split_and!; cbn; try done; unfold is_u64, is_u32; lia.
Qed.

(** Reading back one block of the file. *)
Lemma readBlock_written file idx n bloom pre es post :
  file = pre ++ block_bytes es ++ post → zlen pre < 2^63 → es ≠ [] → block_size es < 2^31 → Forall small_entry es →
  block_of (mkReader file idx n bloom) (index_of_block (zlen pre) es) es.
Proof.
  intros -> Hpre Hne Hs Hsm. pose proof (block_bytes_bound es Hs). pose proof (zlen_nonneg pre).
  destruct es as [|e es]; [done|]. set (b := e :: es) in *. split; [|done].
  unfold readBlock, blockData. cbn [rdata].
  change (iOffset (index_of_block (zlen pre) b)) with (zlen pre).
  change (iSize (index_of_block (zlen pre) b)) with (zlen (block_bytes b)).
  rewrite i64_id by (unfold is_i64; lia).
  rewrite ReadAt_mid by (try done; unfold maxAlloc; lia). cbn [mbind outcome_bind].
  unfold block_bytes. unfold block_size in Hs. rewrite snappy_roundtrip by lia. cbn [mbind outcome_bind].
  apply parse_block_layout. eapply Forall_impl; [exact Hsm|]. by intros x [? _].
Qed.

Lemma blocks_written idx n bloom pre bss post :
  zlen (pre ++ blocks_bytes bss) < 2^63 →
  Forall (λ es, es ≠ [] ∧ block_size es < 2^31) bss → Forall small_entry (concat bss) →
  Forall2 (block_of (mkReader (pre ++ blocks_bytes bss ++ post) idx n bloom)) (index_of (zlen pre) bss) bss.
Proof.
  intros Hl Hb. revert pre Hl. induction Hb as [|es bss [Hne Hs] Hb IH]; intros pre Hl Hsm; [constructor|].
  cbn [index_of concat] in *. apply Forall_app in Hsm as [Hes Hsm].
  unfold blocks_bytes in *. rewrite fmap_cons in *. cbn [concat] in *. fold (blocks_bytes bss) in *.
  rewrite <-(assoc_L (++) (block_bytes es)). rewrite !zlen_app in Hl.
  pose proof (zlen_nonneg (block_bytes es)). pose proof (zlen_nonneg (blocks_bytes bss)).
  constructor; [by eapply readBlock_written; [reflexivity|lia|..]|].
  rewrite <-zlen_app, (assoc_L (++) pre). apply IH; [|done]. rewrite !zlen_app. lia.
Qed.

(** Opening the finished file. *)
Lemma readFooter_written bs bss b es :
  table_ok bss b es →
  readFooter (table_bytes bs bss b) =
    Ok (mkReader (table_bytes bs bss b) (index_of 12 bss) (zlen es) (Some b)).
Proof.
  intros [Hes Hsm Hblk Hn Hbok Hnb Hnh Hbits Hkeys]. subst es.
  pose proof (small_total bss [] Hblk ltac:(by rewrite app_nil_r)) as Hsmall.
  pose proof (blocks_le_entries bss Hblk) as Hle. pose proof (zlen_nonneg (blocks_bytes bss)) as H1.
  pose proof (zlen_nonneg bss) as H2. pose proof (zlen_nonneg (Bits b)) as H3. pose proof (zlen_nonneg (concat bss)) as H4.
  unfold table_bytes at 1, table_footer.
  rewrite readFooter_layout; try (unfold is_u64, index_offset, index_size; lia); [|auto with word].
  fold (table_footer bs bss b). fold (table_bytes bs bss b).
  set (file := table_bytes bs bss b).
  assert (readIndex file (index_offset bss) (index_size bss) = Ok (index_of 12 bss)) as ->.
  { unfold readIndex, index_size, index_offset. rewrite Z.mul_comm, Z.mod_mul by lia. cbn [Z.eqb negb].
    rewrite i64_id by (unfold is_i64; lia).
    assert (file = (header_layout bs ++ blocks_bytes bss) ++ index_layout (index_of 12 bss) ++
      (bloom_layout b ++ table_footer bs bss b)) as ->.
    { unfold file, table_bytes, body_bytes. by rewrite <-!(assoc_L (++)). }
    rewrite ReadAt_mid.
    - cbn [mbind outcome_bind]. rewrite Z.div_mul by lia. unfold zlen. rewrite Nat2Z.id.
      rewrite <-(length_index_of 12 bss). apply (index_loop_layout [] _ 0); [|done].
      apply index_of_ok; [done..|lia|]. lia.
    - by rewrite zlen_app, zlen_table_header.
    - rewrite zlen_index_layout, zlen_index_of. lia.
    - unfold maxAlloc. lia. }
  cbn [mbind outcome_bind].
  assert (readBloomFilter file (index_offset bss + index_size bss) (12 + zlen (Bits b)) = Ok (Some b)) as ->.
  { unfold readBloomFilter. destruct (Z.eqb_spec (12 + zlen (Bits b)) 0); [lia|].
    unfold index_offset, index_size. rewrite i64_id by (unfold is_i64; lia).
    assert (file = (header_layout bs ++ blocks_bytes bss ++ index_layout (index_of 12 bss)) ++ bloom_layout b ++
      table_footer bs bss b) as ->.
    { unfold file, table_bytes, body_bytes. by rewrite <-!(assoc_L (++)). }
    rewrite ReadAt_mid.
    - cbn [mbind outcome_bind]. by rewrite Decode_layout.
    - rewrite !zlen_app, zlen_table_header, zlen_index_layout, zlen_index_of. lia.
    - by rewrite zlen_bloom_layout.
    - unfold maxAlloc. lia. }
  cbn [mbind outcome_bind]. destruct (Z.ltb_spec 0 (12 + zlen (Bits b))); [|lia].
  assert (zlen (body_bytes bs bss b) = index_offset bss + index_size bss + (12 + zlen (Bits b))) as Hbody.
  { unfold body_bytes, index_offset, index_size.
    rewrite !zlen_app, zlen_table_header, zlen_index_layout, zlen_index_of, zlen_bloom_layout. lia. }
  unfold verifyChecksum. rewrite u64_id, i64_id, <-Hbody
    by (unfold is_u64, is_i64, index_offset, index_size; lia).
  assert (take (Z.to_nat (zlen (body_bytes bs bss b))) file = body_bytes bs bss b) as ->.
  { unfold file, table_bytes, zlen. by rewrite Nat2Z.id, take_app_length. }
  by rewrite Z.eqb_refl.
Qed.

Lemma written_readable bs bss b es :
  table_ok bss b es →
  readable (mkReader (table_bytes bs bss b) (index_of 12 bss) (zlen es) (Some b)) es.
Proof.
  intros Htb. pose proof Htb as [Hes Hsm Hblk Hn Hbok Hnb Hnh Hbits Hkeys]. exists bss. split; [done|]. subst es.
  pose proof (small_total bss [] Hblk ltac:(by rewrite app_nil_r)) as Hsmall.
  split.
  - change 12 with (zlen (header_layout bs)) at 2. rewrite <-(zlen_table_header bs).
    unfold table_bytes, body_bytes. rewrite <-!(assoc_L (++)).
    apply blocks_written; [|done..]. rewrite zlen_app, zlen_table_header. lia.
  - intros sid. unfold MayContain. cbn [rbloom].
    destruct (MayContain_holds b sid Hbok) as (may & -> & Hmay). exists may. split; [done|].
    intros -> e He <-. specialize (Hkeys e He). rewrite <-Hmay in Hkeys. done.
Qed.
End written.

(** ** sort.Search *)
Lemma search_loop_spec (f : Z → outcome bool) (P : Z → bool) n fuel i j :
  (∀ k, 0 ≤ k < n → f k = Ok (P k)) → (∀ k k', 0 ≤ k → k ≤ k' → P k = true → P k' = true) →
  0 ≤ i ≤ j → j ≤ n → j - i < Z.of_nat fuel →
  (∀ k, 0 ≤ k < i → P k = false) → (∀ k, j ≤ k < n → P k = true) →
  ∃ r, search_loop fuel f i j = Ok r ∧ 0 ≤ r ≤ n ∧
    (∀ k, 0 ≤ k < r → P k = false) ∧ (∀ k, r ≤ k < n → P k = true).
Proof.
  intros Hf Hmono. revert i j. induction fuel as [|fuel IH]; intros i j Hij Hj Hfuel Hlo Hhi; [lia|].
  cbn [search_loop]. destruct (Z.ltb_spec i j).
  - rewrite Z.shiftr_div_pow2 by lia. change (2^1) with 2.
    assert (i ≤ (i + j) / 2) by (apply Z.div_le_lower_bound; lia).
    assert ((i + j) / 2 < j) by (apply Z.div_lt_upper_bound; lia).
    rewrite Hf by lia. cbn [mbind outcome_bind]. destruct (P ((i + j) / 2)) eqn:E; cbn [negb].
    + apply IH; [lia..|done|]. intros k Hk. apply (Hmono ((i + j) / 2)); [lia|lia|done].
    + apply IH; [lia..| |done]. intros k Hk. destruct (P k) eqn:Ek; [|done].
      rewrite (Hmono k ((i + j) / 2)) in E; [done|lia|lia|done].
  - assert (i = j) as -> by lia. exists j. split_and!; [done|lia|lia|done|done].
Qed.

Lemma sort_Search_spec (f : Z → outcome bool) (P : Z → bool) n :
  0 ≤ n → (∀ k, 0 ≤ k < n → f k = Ok (P k)) → (∀ k k', 0 ≤ k → k ≤ k' → P k = true → P k' = true) →
  ∃ r, Search n f = Ok r ∧ 0 ≤ r ≤ n ∧ (∀ k, 0 ≤ k < r → P k = false) ∧ (∀ k, r ≤ k < n → P k = true).
Proof. intros Hn Hf Hm. apply (search_loop_spec f P n); [done..|lia|lia|lia|lia|lia]. Qed.

(** ** The block of a key *)
Lemma compareEntries_compare a b : compareEntries a b = compare (ekey a) (ekey b).
Proof. done. Qed.

Definition ikey (ie : IndexEntry) : Key := mkKey (iSeriesID ie) (iTimestamp ie).

(** [findBlock]: the last index entry whose key is not above the target. *)
Lemma findBlock_spec r sid ts :
  StronglySorted klt (ikey <$> rindex r) →
  ∃ pre post, findBlock r sid ts = Ok (last pre) ∧ rindex r = pre ++ post ∧
    (∀ ie, ie ∈ pre → ¬ klt (mkKey sid ts) (ikey ie)) ∧ (∀ ie, ie ∈ post → klt (mkKey sid ts) (ikey ie)).
Proof.
  intros Hs. unfold findBlock. set (idx := rindex r) in *. set (k := mkKey sid ts).
  destruct (Z.eqb_spec (zlen idx) 0) as [H0|H0].
  { apply length_zero_iff_nil_zlen in H0 as ->. exists [], []. split_and!; try done; intros ie Hie; by apply not_elem_of_nil in Hie. }
  set (P := λ i : Z, match idx !! Z.to_nat i with Some ie => bool_decide (klt k (ikey ie)) | None => true end).
  destruct (sort_Search_spec (λ i, entry ← go_index idx i;
    Ok (0 <? compareEntries (mkEntry (iSeriesID entry) (iTimestamp entry) false []) (mkEntry sid ts false []))) P (zlen idx))
    as (i & -> & Hi & Hlo & Hhi).
  - apply zlen_nonneg.
  - intros j Hj. unfold P, go_index. destruct (Z.ltb_spec j 0); [lia|].
    destruct (lookup_lt_is_Some_2 idx (Z.to_nat j)) as [ie ->]; [unfold zlen in Hj; lia|].
    cbn [mbind outcome_bind]. f_equal. rewrite compareEntries_compare.
    change (ekey (mkEntry (iSeriesID ie) (iTimestamp ie) false [])) with (ikey ie).
    change (ekey (mkEntry sid ts false [])) with k. rewrite (compare_antisym k (ikey ie)).
    case_bool_decide as Hk; unfold klt in Hk; lia.
  - intros j j' Hj Hj' HP. unfold P in *. destruct (idx !! Z.to_nat j') as [ie'|] eqn:E'; [|done].
    destruct (idx !! Z.to_nat j) as [ie|] eqn:E.
    2: { apply lookup_ge_None in E. apply lookup_lt_Some in E'. lia. }
    apply bool_decide_eq_true in HP. apply bool_decide_eq_true.
    destruct (decide (j = j')) as [->|Hne]; [congruence|].
    trans (ikey ie); [done|]. eapply (sorted_lookup klt _ (Z.to_nat j) (Z.to_nat j')); [exact Hs|..|lia];
      rewrite list_lookup_fmap; [by rewrite E|by rewrite E'].
  - cbn [mbind outcome_bind].
    assert (∀ j ie, idx !! j = Some ie → P (Z.of_nat j) = bool_decide (klt k (ikey ie))) as HP.
    { intros j ie Hj. unfold P. by rewrite Nat2Z.id, Hj. }
    exists (take (Z.to_nat i) idx), (drop (Z.to_nat i) idx). split_and!.
    + destruct (Z.eqb_spec i 0) as [->|Hi0]; [done|]. unfold go_index.
      destruct (Z.ltb_spec (i - 1) 0); [lia|]. unfold zlen in Hi.
      rewrite last_lookup, length_take, lookup_take_lt by lia.
      replace (pred _) with (Z.to_nat (i - 1)) by lia.
      destruct (lookup_lt_is_Some_2 idx (Z.to_nat (i - 1))) as [ie ->]; [lia|]. done.
    + by rewrite take_drop.
    + intros ie (j & Hj)%list_elem_of_lookup. apply lookup_take_Some in Hj as [Hj Hjl].
      specialize (Hlo (Z.of_nat j)). rewrite (HP _ _ Hj) in Hlo. eapply bool_decide_eq_false_1, Hlo. lia.
    + intros ie (j & Hj)%list_elem_of_lookup. rewrite lookup_drop in Hj.
      pose proof (lookup_lt_Some _ _ _ Hj). specialize (Hhi (Z.of_nat (Z.to_nat i + j))).
      rewrite (HP _ _ Hj) in Hhi. eapply bool_decide_eq_true_1, Hhi. unfold zlen. lia.
Qed.

(** ** Point lookups *)

(** [Get]'s answer: a tombstone is reported as deleted, without its value. *)
Definition get_result (o : option Entry) : bytes * bool * bool :=
  match o with
  | None => ([], false, false)
  | Some e => if eDeleted e then ([], false, true) else (eValue e, true, false)
  end.

Definition esorted (es : list Entry) : Prop := StronglySorted klt (ekey <$> es).

Lemma esorted_app l l' :
  esorted (l ++ l') ↔ esorted l ∧ esorted l' ∧ ∀ a b, a ∈ l → b ∈ l' → klt (ekey a) (ekey b).
Proof.
  unfold esorted. rewrite fmap_app, StronglySorted_app.
  split; [intros (Hlt & ? & ?)|intros (? & ? & Hlt)]; split_and!; auto.
  - intros a b Ha Hb. apply Hlt; by apply list_elem_of_fmap_2.
  - intros x y (a & -> & Ha)%list_elem_of_fmap (b & -> & Hb)%list_elem_of_fmap. auto.
Qed.

Section get.
Context `{Snappy, Hash128}.
Implicit Types (r : Reader) (es : list Entry).

(** The first entry of a sorted block is its least. *)
Lemma block_of_least r ie b : block_of r ie b → esorted b → ∀ e, e ∈ b → ¬ klt (ekey e) (ikey ie).
Proof.
  intros [_ Hh]. destruct b as [|h b]; [done|]. destruct Hh as [Hs Ht].
  assert (ikey ie = ekey h) as -> by (unfold ikey, ekey; by rewrite Hs, Ht).
  intros Hsort e [->|He]%elem_of_cons; [apply klt_not_refl|].
  apply (esorted_app [h] b) in Hsort as (_ & _ & Hlt). apply klt_asym, Hlt; [left|done].
Qed.

Lemma block_of_head r ie b : block_of r ie b → ∃ e, e ∈ b ∧ ekey e = ikey ie.
Proof.
  intros [_ Hh]. destruct b as [|h b]; [done|]. destruct Hh as [Hs Ht].
  exists h. split; [left|]. unfold ikey, ekey. by rewrite Hs, Ht.
Qed.

Lemma index_sorted r idx bss :
  Forall2 (block_of r) idx bss → esorted (concat bss) → StronglySorted klt (ikey <$> idx).
Proof.
  induction 1 as [|ie b idx bss Hb Hbs IH]; intros Hs; [constructor|].
  cbn [concat] in Hs. apply esorted_app in Hs as (Hs1 & Hs2 & Hlt). rewrite fmap_cons.
  constructor; [by apply IH|]. apply Forall_forall. intros x (ie' & -> & Hie')%list_elem_of_fmap.
  apply list_elem_of_lookup in Hie' as [i Hi].
  destruct (Forall2_lookup_l _ _ _ _ _ Hbs Hi) as (b' & Hb'i & Hb').
  destruct (block_of_head _ _ _ Hb) as (h & Hh & <-), (block_of_head _ _ _ Hb') as (h' & Hh' & <-).
  apply Hlt; [done|]. apply elem_of_concat. exists b'. split; [done|]. by eapply list_elem_of_lookup_2.
Qed.

Lemma findEntryInBlock_spec r ie b sid ts :
  block_of r ie b → findEntryInBlock r ie sid ts = Ok (found_entry (first_entry (mkKey sid ts) b)).
Proof.
  intros [Hb _]. unfold readBlock, findEntryInBlock in *. destruct (blockData r ie) as [data| | |]; try done.
  cbn [mbind outcome_bind] in *. by apply find_loop_parse.
Qed.

Lemma Get_spec r es sid ts :
  readable r es → esorted es → Get r sid ts = Ok (get_result (first_entry (mkKey sid ts) es)).
Proof.
  intros (bss & <- & Hblk & Hmay) Hs. unfold Get. set (k := mkKey sid ts).
  destruct (Hmay sid) as (may & -> & Hno). cbn [mbind outcome_bind].
  destruct may; cbn [negb].
  2: { rewrite first_entry_None; [done|]. intros e He Hk. apply (Hno eq_refl e He). unfold k, ekey in Hk. congruence. }
  destruct (findBlock_spec r sid ts (index_sorted _ _ _ Hblk Hs)) as (pre & post & -> & Hidx & Hpre & Hpost).
  cbn [mbind outcome_bind]. rewrite Hidx in Hblk. apply Forall2_app_inv_l in Hblk as (bp & bq & Hbp & Hbq & ->).
  rewrite concat_app in *. apply esorted_app in Hs as (Hsp & Hsq & Hlt).
  assert (∀ e, e ∈ concat bq → ekey e ≠ k) as Hq.
  { intros e (b & Hb & Hin)%elem_of_concat Hk. apply list_elem_of_lookup in Hin as [i Hi].
    destruct (Forall2_lookup_r _ _ _ _ _ Hbq Hi) as (ie & Hie & Hof).
    specialize (Hpost ie (list_elem_of_lookup_2 _ _ _ Hie)). fold k in Hpost. rewrite <-Hk in Hpost.
    eapply block_of_least; [exact Hof| |exact Hb|exact Hpost].
    apply list_elem_of_split_length in Hi as (l1 & l2 & -> & _). rewrite concat_app in Hsq. cbn [concat] in Hsq.
    by apply esorted_app in Hsq as (_ & (? & _ & _)%esorted_app & _). }
  destruct (last pre) as [ie|] eqn:Elast.
  - apply last_Some in Elast as (pre' & ->). apply Forall2_app_inv_l in Hbp as (bp' & bl & Hbp' & Hbl & ->).
    apply Forall2_cons_inv_l in Hbl as (b & bl' & Hof & Hnil & ->). apply Forall2_nil_inv_l in Hnil as ->.
    rewrite concat_snoc in *. rewrite (findEntryInBlock_spec _ _ _ _ _ Hof). fold k.
    apply esorted_app in Hsp as (_ & Hsb & Hltp).
    rewrite first_entry_front by done. rewrite first_entry_skip.
    + destruct (first_entry k b) as [e|]; cbn; [|done]. by destruct (eDeleted e).
    + intros e He Hk. destruct (block_of_head _ _ _ Hof) as (h & Hh & Hhk).
      specialize (Hltp e h He Hh). rewrite Hk, Hhk in Hltp. apply (Hpre ie); [apply elem_of_app; right; left|done].
  - apply last_None in Elast as ->. apply Forall2_nil_inv_l in Hbp as ->. cbn [concat app].
    by rewrite first_entry_None.
Qed.
End get.

(** ** Damaged files *)
Section damage.
Context `{Snappy, Hash128}.

Lemma index_loop_total data i n :
  0 ≤ i → (i + Z.of_nat n) * 28 ≤ zlen data → ∃ es, index_loop data i n = Ok es.
Proof.
  revert i. induction n as [|n IH]; intros i Hi Hl; [by exists []|]. cbn [index_loop].
  destruct (go_slice_spec data (i * 28) (i * 28 + 8)) as (s & -> & _); [lia..|].
  destruct (go_slice_spec data (i * 28 + 8) (i * 28 + 16)) as (t & -> & _); [lia..|].
  destruct (go_slice_spec data (i * 28 + 16) (i * 28 + 24)) as (o & -> & _); [lia..|].
  destruct (go_slice_spec data (i * 28 + 24) (i * 28 + 28)) as (z & -> & _); [lia..|].
  destruct (IH (i + 1)) as (es & ->); [lia|lia|]. cbn [mbind outcome_bind]. eauto.
Qed.

Lemma ReadAt_inside file n off :
  0 ≤ off → 0 ≤ n ≤ maxAlloc → off + n ≤ zlen file → ∃ data, ReadAt file n off = Ok data ∧ zlen data = n.
Proof.
  intros Hoff Hn Hl. destruct (ReadAt_cases file n off) as [(e & He)|[|?]]; [|lia|done].
  unfold ReadAt, go_make in He. destruct (_ || _) eqn:E; [lia|]. cbn [mbind outcome_bind] in He.
  destruct (Z.ltb_spec off 0); [lia|]. destruct (n =? 0); [done|].
  destruct (Z.ltb_spec (zlen file) (off + n)); [lia|]. by destruct (go_slice_spec file off (off + n)) as (? & Hs & _); [lia..|rewrite Hs in He].
Qed.

(** The sizes of a finished file. *)
Lemma table_sizes bss b es :
  table_ok bss b es →
  0 ≤ index_offset bss ∧ 0 ≤ index_size bss ≤ 2^36 ∧ 12 ≤ 12 + zlen (Bits b) ≤ maxAlloc ∧
  index_offset bss + index_size bss + (12 + zlen (Bits b)) < 2^63.
Proof.
  intros [Hes Hsm Hblk Hn Hbok Hnb Hnh Hbits Hkeys]. subst es.
  pose proof (small_total bss [] Hblk ltac:(by rewrite app_nil_r)) as Hsmall.
  pose proof (blocks_le_entries bss Hblk) as Hle. pose proof (zlen_nonneg (blocks_bytes bss)).
  pose proof (zlen_nonneg bss). pose proof (zlen_nonneg (Bits b)).
  unfold index_offset, index_size, maxAlloc. lia.
Qed.

Lemma zlen_body bs bss b :
  zlen (body_bytes bs bss b) = index_offset bss + index_size bss + (12 + zlen (Bits b)).
Proof.
  unfold body_bytes, index_offset, index_size.
  rewrite !zlen_app, zlen_table_header, zlen_index_layout, zlen_index_of, zlen_bloom_layout. lia.
Qed.

(** A file whose body was replaced by another of the same length. *)
Lemma readFooter_damaged bs bss b es body :
  table_ok bss b es → zlen body = zlen (body_bytes bs bss b) →
  ChecksumIEEE body ≠ ChecksumIEEE (body_bytes bs bss b) →
  readFooter (body ++ table_footer bs bss b) =
    Err (ErrTableChecksum (ChecksumIEEE body) (ChecksumIEEE (body_bytes bs bss b))).
Proof.
  intros Htb Hl Hne. destruct (table_sizes _ _ _ Htb) as (H1 & H2 & H3 & H4). rewrite zlen_body in Hl.
  assert (is_u64 (zlen (concat bss))) as Hcount.
  { destruct Htb as [-> _ _ ? _ _ _ _ _]. pose proof (zlen_nonneg es). unfold is_u64. lia. }
  unfold table_footer. rewrite readFooter_layout by (try done; try apply ChecksumIEEE_range; unfold is_u64; lia).
  fold (table_footer bs bss b). set (file := body ++ table_footer bs bss b).
  assert (zlen body ≤ zlen file) as Hfile by (unfold file; zlen).
  assert (∃ idx, readIndex file (index_offset bss) (index_size bss) = Ok idx) as (idx & ->).
  { unfold readIndex. rewrite i64_id by (unfold is_i64; lia).
    assert (index_size bss mod 28 = 0) as -> by (unfold index_size; by rewrite Z.mul_comm, Z.mod_mul by lia).
    cbn [Z.eqb negb]. destruct (ReadAt_inside file (index_size bss) (index_offset bss)) as (d & -> & Hd);
      [lia|unfold maxAlloc; lia|lia|]. cbn [mbind outcome_bind].
    apply index_loop_total; [lia|]. unfold index_size in *.
    replace (28 * zlen bss / 28) with (zlen bss) by (rewrite Z.mul_comm, Z.div_mul by lia; done). lia. }
  cbn [mbind outcome_bind].
  assert (∃ bl, readBloomFilter file (index_offset bss + index_size bss) (12 + zlen (Bits b)) = Ok bl) as (bl & ->).
  { unfold readBloomFilter. destruct (Z.eqb_spec (12 + zlen (Bits b)) 0); [lia|].
    rewrite i64_id by (unfold is_i64; lia).
    destruct (ReadAt_inside file (12 + zlen (Bits b)) (index_offset bss + index_size bss)) as (d & -> & Hd); [lia..|].
    cbn [mbind outcome_bind]. unfold DecodeBloomFilter. destruct (Z.ltb_spec (zlen d) 12); [lia|].
    destruct (go_slice_spec d 0 8) as (? & -> & _); [lia..|].
    destruct (go_slice_spec d 8 12) as (? & -> & _); [lia..|].
    destruct (go_slice_spec d 12 (zlen d)) as (? & -> & _); [lia..|]. cbn [mbind outcome_bind]. eauto. }
  cbn [mbind outcome_bind]. destruct (Z.ltb_spec 0 (12 + zlen (Bits b))); [|lia].
  unfold verifyChecksum. rewrite u64_id, i64_id, <-Hl by (unfold is_u64, is_i64; lia).
  assert (take (Z.to_nat (zlen body)) file = body) as ->.
  { unfold file, zlen. by rewrite Nat2Z.id, take_app_length. }
  by destruct (Z.eqb_spec (ChecksumIEEE body) (ChecksumIEEE (body_bytes bs bss b))).
Qed.
End damage.

(** A three-entry table for concrete runs. *)
Definition demo_entries : list Entry := [mkEntry 1 (-2) false [x61]; mkEntry 1 3 true []; mkEntry 7 0 false [x62; x63]].
Definition demo_table : path := mkPath [x64] [x74].
Definition demo_dir : world := mkWorld {[ [x64] ]} ∅ [].

Lemma demo_fits : table_fits 40 demo_entries.
Proof. by_decide. Qed.
Lemma demo_sorted : esorted demo_entries.
Proof. repeat constructor. Qed.

(** A table of one block. *)
Lemma single_block_ok `{Snappy, Hash128} es :
  es ≠ [] → block_size es < 2^31 → table_fits 40 es → ∃ b, table_ok [es] b es.
Proof.
  intros Hne Hs (_ & Hsm & Hn & Hbits).
  destruct (NewBloomFilter_ok _ _ Hbits) as (b0 & _ & Hok0 & Hnb0 & Hnh0 & Hl0).
  destruct (add_keys_spec b0 (eSeriesID <$> es) Hok0) as (b & _ & Hok & Hl & Hnb & Hnh & Hall).
  pose proof (bloom_bits_range (zlen es) F64.one_percent) as Hbr.
  pose proof (bloom_hashes_range (zlen es) (bloom_bits (zlen es) F64.one_percent)) as Hhr.
  exists b. split; try done.
  - cbn. by rewrite app_nil_r.
  - by constructor.
  - unfold is_u64. rewrite Hnb, Hnb0. lia.
  - unfold is_u32. rewrite Hnh, Hnh0. lia.
  - rewrite Hl, Hl0. apply Z.div_le_upper_bound; lia.
  - intros e He. apply Hall. left. by apply list_elem_of_fmap_2.
Qed.

Lemma demo_table_ok `{Snappy, Hash128} : ∃ b, table_ok [demo_entries] b demo_entries.
Proof. apply single_block_ok; [done|by_decide|exact demo_fits]. Qed.

(** ** Claims *)
Section claims.
Context `{Snappy, Hash128}.

(** C6: a table answers point lookups like the sorted list it was written from. Writing any
    strictly sorted entries — over however many blocks — and opening the file gives a
    reader whose [Get] returns, for every key, the value of its entry, its tombstone, or
    nothing: the index search, the filter and the early exit of the block scan never
    change the answer. *)
Theorem table_get p bs es wd :
  quiet wd → files wd !! p ≠ Some Dir → pdir p ∈ dirs wd → table_fits bs es → esorted es →
  ∃ r wd', (write_table p bs es;; OpenReader p) wd = (Ok r, wd') ∧
    ∀ sid ts, Get r sid ts = Ok (get_result (first_entry (mkKey sid ts) es)).
Proof.
  intros Hq Hp Hd Hfit Hs.
  assert (wp (write_table p bs es;; OpenReader p) (λ r _, ∃ r', r = Ok r' ∧ readable r' es) wd) as Hwp.
  { wsteps. apply wp_write_table; [done..| |done].
    intros wd1 bss b Htb Ho Hl. cbv beta iota. assert (quiet wd1) as Hq1 by by apply Ho.
    unfold OpenReader. wsteps. unfold wp at 1. erewrite os_Open_quiet by done. wsteps.
    unfold wp. rewrite syscall_quiet by done. unfold lift. erewrite readFooter_written by done.
    eexists. split; [done|by apply written_readable]. }
  apply wp_elim in Hwp as (r & wd' & Hrun & r' & -> & Hr). exists r', wd'. split; [done|].
  intros sid ts. by apply Get_spec.
Qed.

(** C11: a table that was closed without an error is durable. Whatever calls fail and whatever
    unsynced bytes a crash then loses, the file opens and holds exactly the entries
    written; and in no case is another file of the world touched. *)
Theorem table_durable p bs es wd res wd' wd'' :
  files wd !! p ≠ Some Dir → pdir p ∈ dirs wd → table_fits bs es → esorted es →
  write_table p bs es wd = (res, wd') → crash wd' wd'' →
  (∀ q, q ≠ p → files wd' !! q = files wd !! q) ∧
  (res = Ok () → ∃ r, fst (OpenReader p wd'') = Ok r ∧ readable r es ∧
    ∀ sid ts, Get r sid ts = Ok (get_result (first_entry (mkKey sid ts) es))).
Proof.
  intros Hp Hd Hfit Hs Hrun Hc.
  assert (wp (write_table p bs es) (λ r w, only p wd w ∧ (r = Ok () → ∃ bss b, table_ok bss b es ∧
    files w !! p = Some (File (table_bytes bs bss b) (length (table_bytes bs bss b))))) wd) as Hwp.
  { apply wp_write_table; [done..| |]; [|by intros; split].
    intros w1 bss b Htb Ho Hl. split; [done|]. intros _. by exists bss, b. }
  apply (wp_run _ _ _ _ _ Hwp) in Hrun as [(_ & Hf & _) Hok]. split; [done|].
  intros Hres. destruct (Hok Hres) as (bss & b & Htb & Hl).
  destruct (crash_lookup _ _ _ _ _ Hc Hl) as (n & Hn & Hl'). rewrite take_ge in Hl' by done.
  pose proof (crash_quiet _ _ Hc) as Hq.
  exists (mkReader (table_bytes bs bss b) (index_of 12 bss) (zlen es) (Some b)). split_and!.
  - unfold OpenReader. erewrite bind_Ok; [|by eapply os_Open_quiet].
    erewrite bind_Ok; [|apply try_Ok; rewrite syscall_quiet by done; unfold lift;
      erewrite readFooter_written by done; reflexivity]. done.
  - by apply written_readable.
  - intros sid ts. apply Get_spec; [by apply written_readable|done].
Qed.

(** C25: damage to the data, the index or the filter of a table is detected when it is
    opened: if up to four consecutive bytes before the footer differ, [OpenReader] fails
    with the checksum error. *)
Theorem open_detects_damage bs bss b es pre win post win' :
  table_ok bss b es → body_bytes bs bss b = pre ++ win ++ post →
  length win' = length win → (length win ≤ 4)%nat → win' ≠ win →
  ∃ got want, readFooter ((pre ++ win' ++ post) ++ table_footer bs bss b) = Err (ErrTableChecksum got want).
Proof.
  intros Htb Hbody Hl H4 Hne. do 2 eexists. eapply readFooter_damaged; [exact Htb| |].
  - rewrite Hbody. unfold zlen. by rewrite !length_app, Hl.
  - rewrite Hbody. apply crc_burst; [done|lia|done].
Qed.

(** C30: the checksum does not cover the footer. Clearing the eight bytes of its index size
    turns a table into one that opens without an error, has an empty index, and answers
    every lookup with "not found": the damage is not detected. *)
Theorem footer_not_covered bs bss b es :
  table_ok bss b es →
  let file := body_bytes bs bss b ++
    footer_layout (index_offset bss) 0 (index_offset bss + index_size bss) (12 + zlen (Bits b))
      (zlen (concat bss)) (ChecksumIEEE (body_bytes bs bss b)) in
  ∃ r, readFooter file = Ok r ∧ rindex r = [] ∧ ∀ sid ts, Get r sid ts = Ok ([], false, false).
Proof.
  intros Htb file. destruct (table_sizes _ _ _ Htb) as (H1 & H2 & H3 & H4). pose proof (zlen_body bs bss b) as Hbody.
  assert (is_u64 (zlen (concat bss))) as Hcount.
  { destruct Htb as [-> _ _ ? _ _ _ _ _]. pose proof (zlen_nonneg es). unfold is_u64. lia. }
  exists (mkReader file [] (zlen (concat bss)) (Some b)). split_and!; [|done|].
  - unfold file at 1. rewrite readFooter_layout by (try done; try apply ChecksumIEEE_range; unfold is_u64; lia).
    fold file. unfold readIndex. change (0 mod 28) with 0. cbn [Z.eqb negb].
    unfold ReadAt at 1. rewrite i64_id by (unfold is_i64; lia). change (go_make 0) with (Ok (@nil byte)).
    cbn [mbind outcome_bind]. destruct (Z.ltb_spec (index_offset bss) 0); [lia|]. cbn [Z.eqb mbind outcome_bind].
    change (index_loop [] 0 (Z.to_nat (0 / 28))) with (Ok (@nil IndexEntry)). cbn [mbind outcome_bind].
    unfold readBloomFilter. destruct (Z.eqb_spec (12 + zlen (Bits b)) 0); [lia|]. rewrite i64_id by (unfold is_i64; lia).
    assert (∃ tail, file = (header_layout bs ++ blocks_bytes bss ++ index_layout (index_of 12 bss)) ++ bloom_layout b ++ tail) as (tail & E).
    { eexists. unfold file, body_bytes. by rewrite <-!(assoc_L (++)). }
    rewrite E at 1. rewrite ReadAt_mid.
    + cbn [mbind outcome_bind]. rewrite Decode_layout by apply Htb. cbn [mbind outcome_bind].
      destruct (Z.ltb_spec 0 (12 + zlen (Bits b))); [|lia].
      unfold verifyChecksum. rewrite u64_id, i64_id, <-Hbody by (unfold is_u64, is_i64; lia).
      assert (take (Z.to_nat (zlen (body_bytes bs bss b))) file = body_bytes bs bss b) as ->.
      { unfold file, zlen. by rewrite Nat2Z.id, take_app_length. }
      by rewrite Z.eqb_refl.
    + unfold index_offset, index_size. rewrite !zlen_app, zlen_table_header, zlen_index_layout, zlen_index_of. lia.
    + by rewrite zlen_bloom_layout.
    + lia.
  - intros sid ts. unfold Get, MayContain. cbn [rbloom].
    destruct (MayContain_holds b sid) as (may & -> & _); [apply Htb|]. cbn [mbind outcome_bind]. by destruct may.
Qed.

(** A footer whose index size is a multiple of 28 beyond what can be allocated does not
    make [OpenReader] return an error: the [make] of the index buffer panics. *)
Lemma huge_index_panics body io isz bo bsz n sum :
  is_u64 io → is_u64 isz → is_u64 bo → is_u64 bsz → is_u64 n → is_u32 sum →
  isz mod 28 = 0 → maxAlloc < isz →
  readFooter (body ++ footer_layout io isz bo bsz n sum) = Panic MakeSliceLen.
Proof.
  intros Hio Hisz Hbo Hbsz Hn Hsum Hmod Hmax. rewrite readFooter_layout by done.
  unfold readIndex. rewrite Hmod. cbn [Z.eqb negb]. unfold ReadAt, go_make.
  destruct (_ || _) eqn:E; [done|]. unfold is_u64 in Hisz. lia.
Qed.

End claims.

(** ** The claims at concrete tables *)
Lemma table_get_witness :
  ∃ r wd', ((@write_table stored toy_hash demo_table 40 demo_entries);; OpenReader demo_table) demo_dir = (Ok r, wd') ∧
    ∀ sid ts, @Get stored toy_hash r sid ts = Ok (get_result (first_entry (mkKey sid ts) demo_entries)).
Proof.
  apply (@table_get stored toy_hash demo_table 40 demo_entries demo_dir).
  - done.
  - done.
  - by_decide.
  - exact demo_fits.
  - exact demo_sorted.
Defined.

Lemma table_durable_witness :
  let s := @write_table stored toy_hash demo_table 40 demo_entries demo_dir in
  (∀ q, q ≠ demo_table → files s.2 !! q = files demo_dir !! q) ∧
  (s.1 = Ok () → ∃ r, fst (OpenReader demo_table (lose_unsynced s.2)) = Ok r ∧ @readable stored toy_hash r demo_entries ∧
    ∀ sid ts, @Get stored toy_hash r sid ts = Ok (get_result (first_entry (mkKey sid ts) demo_entries))).
Proof.
  intros s. apply (@table_durable stored toy_hash demo_table 40 demo_entries demo_dir s.1 s.2 (lose_unsynced s.2)).
  - done.
  - by_decide.
  - exact demo_fits.
  - exact demo_sorted.
  - apply surjective_pairing.
  - apply lose_unsynced_crash.
Defined.

Lemma open_detects_damage_witness :
  ∃ bss b post, @body_bytes stored 40 bss b = [] ++ [x50] ++ post ∧
    ∃ got want, readFooter (([] ++ [x51] ++ post) ++ @table_footer stored 40 bss b) = Err (ErrTableChecksum got want).
Proof.
  destruct (@demo_table_ok stored toy_hash) as (b & Htb).
  exists [demo_entries], b. eexists. split; [reflexivity|].
  eapply (@open_detects_damage stored toy_hash 40 [demo_entries] b demo_entries [] [x50] _ [x51] Htb);
    [reflexivity|done|simpl; lia|done].
Defined.

Lemma footer_not_covered_witness :
  ∃ b, let file := @body_bytes stored 40 [demo_entries] b ++
    footer_layout (@index_offset stored [demo_entries]) 0 (@index_offset stored [demo_entries] + index_size [demo_entries])
      (12 + zlen (Bits b)) (zlen (concat [demo_entries])) (ChecksumIEEE (@body_bytes stored 40 [demo_entries] b)) in
  ∃ r, readFooter file = Ok r ∧ rindex r = [] ∧ ∀ sid ts, @Get stored toy_hash r sid ts = Ok ([], false, false).
Proof.
  destruct (@demo_table_ok stored toy_hash) as (b & Htb). exists b.
  exact (@footer_not_covered stored toy_hash 40 [demo_entries] b demo_entries Htb).
Defined.

Lemma huge_index_panics_witness :
  readFooter ([] ++ footer_layout 12 (28 * 2^44) 0 0 0 0) = Panic MakeSliceLen.
Proof. apply (huge_index_panics [] 12 (28 * 2^44) 0 0 0 0); by vm_compute. Defined.
