(* ===== verification/TableIter.v ===== *)
(** * Iterating over a table (sstable/iterator.go)

    The block-at-a-time iterator, and the cursor interface the merges are proved against. *)
From Stdlib Require Import ZArith Lia Strings.Byte.
From stdpp Require Import base list sorting.
From S2P Require Import Prelude Key Block Bloom Writer Reader.

(** ** Cursors

    What a merge needs of an iterator: [yields c es] says that [c] is positioned on the
    first of the entries [es], which it returns in order. *)
Class Cursor (C : Type) := {
  cursor_Valid : C → bool;
  cursor_Entry : C → outcome Entry;
  cursor_Next : C → outcome (bool * C);
  yields : C → list Entry → Prop;
  yields_nil c : yields c [] → cursor_Valid c = false;
  yields_cons c e es : yields c (e :: es) →
    cursor_Valid c = true ∧ cursor_Entry c = Ok e ∧
    ∃ c', cursor_Next c = Ok (bool_decide (es ≠ []), c') ∧ yields c' es
}.

(** ** The iterator *)
Record Iterator := mkIter {
  reader : Reader;
  blockIndex : Z;
  entries : list Entry;
  entryIndex : Z;
  valid : bool
}.

Definition zeroEntry : Entry := mkEntry 0 0 false [].

Section iterator.
Context `{Snappy}.

Fixpoint load_loop (fuel : nat) (it : Iterator) : outcome (bool * Iterator) :=
  match fuel with
  | O => OutOfFuel
  | S fuel' =>
      if blockIndex it <? zlen (rindex (reader it)) then
        indexEntry ← go_index (rindex (reader it)) (blockIndex it);
        match readBlock (reader it) indexEntry with
        | Err _ => Ok (false, mkIter (reader it) (blockIndex it) (entries it) (entryIndex it) false)
        | Ok es =>
            let it := mkIter (reader it) (blockIndex it + 1) (entries it) (entryIndex it) (valid it) in
            match es with
            | [] => load_loop fuel' it
            | _ => Ok (true, mkIter (reader it) (blockIndex it) es 0 true)
            end
        | Panic p => Panic p
        | OutOfFuel => OutOfFuel
        end
      else Ok (false, mkIter (reader it) (blockIndex it) (entries it) (entryIndex it) false)
  end.

Definition loadNextBlock (it : Iterator) : outcome (bool * Iterator) :=
  load_loop (S (Z.to_nat (zlen (rindex (reader it)) - blockIndex it))) it.

(** [Reader.Iterator] *)
Definition Reader_Iterator (r : Reader) : outcome Iterator :=
  '(_, it) ← loadNextBlock (mkIter r 0 [] 0 false);
  Ok it.

Definition Valid (it : Iterator) : bool := valid it.

Definition Entry_ (it : Iterator) : outcome Entry :=
  if negb (valid it) then Ok zeroEntry else go_index (entries it) (entryIndex it).

Definition Key_ (it : Iterator) : outcome Key :=
  if negb (valid it) then Ok zeroKey
  else e ← go_index (entries it) (entryIndex it); Ok (mkKey (eSeriesID e) (eTimestamp e)).

Definition Next (it : Iterator) : outcome (bool * Iterator) :=
  if negb (valid it) then Ok (false, it)
  else
    let it := mkIter (reader it) (blockIndex it) (entries it) (entryIndex it + 1) (valid it) in
    if entryIndex it <? zlen (entries it) then Ok (true, it) else loadNextBlock it.

(** ** What it yields *)

(** The readable, non-empty blocks from [blockIndex] up to the end of the table or to the
    first block that cannot be read. *)
Definition unreadable (r : Reader) (idx : list IndexEntry) : Prop :=
  match idx with [] => True | bad :: _ => ∃ e, readBlock r bad = Err e end.

Definition blocks_left (it : Iterator) (bss : list (list Entry)) : Prop :=
  0 ≤ blockIndex it ∧ ∃ idx rest,
    drop (Z.to_nat (blockIndex it)) (rindex (reader it)) = idx ++ rest ∧
    Forall2 (λ ie es, readBlock (reader it) ie = Ok es ∧ es ≠ []) idx bss ∧ unreadable (reader it) rest.

Definition table_yields (it : Iterator) (es : list Entry) : Prop :=
  match es with
  | [] => valid it = false
  | _ => ∃ done cur bss, valid it = true ∧ entries it = done ++ cur ∧ entryIndex it = zlen done ∧
      cur ≠ [] ∧ blocks_left it bss ∧ es = cur ++ concat bss
  end.

Lemma drop_cons_lookup {A} (l : list A) n x rest :
  drop n l = x :: rest → l !! n = Some x ∧ drop (S n) l = rest.
Proof.
  revert n. induction l as [|y l IH]; intros [|n] Hd; simpl in *; try done; [by simplify_eq|auto].
Qed.

Lemma loadNextBlock_spec it bss :
  blocks_left it bss →
  ∃ it', loadNextBlock it = Ok (bool_decide (concat bss ≠ []), it') ∧ table_yields it' (concat bss).
Proof.
  intros (Hi & idx & rest & Ed & Hbs & Hrest). unfold loadNextBlock. set (fuel := Z.to_nat (zlen _ - _)).
  cbn [load_loop]. destruct Hbs as [|ie es idx bss [Hread Hne] Hbs]; cbn [concat app] in *.
  - destruct rest as [|bad rest].
    + assert (length (drop (Z.to_nat (blockIndex it)) (rindex (reader it))) = 0%nat) as Hlen by by rewrite Ed.
      rewrite length_drop in Hlen. destruct (Z.ltb_spec (blockIndex it) (zlen (rindex (reader it)))) as [Hlt|];
        [unfold zlen in Hlt; lia|]. by eexists.
    + destruct Hrest as (e & Hbad). apply drop_cons_lookup in Ed as [Hie _].
      pose proof (lookup_lt_Some _ _ _ Hie) as Hlt.
      destruct (Z.ltb_spec (blockIndex it) (zlen (rindex (reader it)))); [|unfold zlen in *; lia].
      unfold go_index. destruct (Z.ltb_spec (blockIndex it) 0); [lia|]. rewrite Hie. cbn [mbind outcome_bind].
      rewrite Hbad. by eexists.
  - apply drop_cons_lookup in Ed as [Hie Ed].
    pose proof (lookup_lt_Some _ _ _ Hie) as Hlt.
    destruct (Z.ltb_spec (blockIndex it) (zlen (rindex (reader it)))); [|unfold zlen in *; lia].
    unfold go_index. destruct (Z.ltb_spec (blockIndex it) 0); [lia|]. rewrite Hie. cbn [mbind outcome_bind].
    rewrite Hread. destruct es as [|e es]; [done|]. eexists. split; [by rewrite bool_decide_eq_true_2|].
    cbn [table_yields app]. exists [], (e :: es), bss. split_and!; try done. split; cbn; [lia|].
    replace (Z.to_nat (blockIndex it + 1)) with (S (Z.to_nat (blockIndex it))) by lia. by exists idx, rest.
Qed.

Lemma table_yields_cons it e es :
  table_yields it (e :: es) →
  valid it = true ∧ Entry_ it = Ok e ∧ Key_ it = Ok (ekey e) ∧
  ∃ it', Next it = Ok (bool_decide (es ≠ []), it') ∧ table_yields it' es.
Proof.
  intros (dn & cur & bss & Hv & Hent & Hidx & Hcur & Hleft & Hes).
  destruct cur as [|e' cur]; [done|]. rewrite <-app_comm_cons in Hes. injection Hes as <- Hes.
  assert (go_index (entries it) (entryIndex it) = Ok e) as Hgo by (rewrite Hent; by apply go_index_mid).
  unfold Entry_, Key_, Next. rewrite Hv, Hgo. cbn [negb mbind outcome_bind].
  split_and!; [done..|]. cbn [entryIndex entries reader blockIndex valid].
  rewrite Hent, zlen_app, zlen_cons. pose proof (zlen_nonneg dn). pose proof (zlen_nonneg cur).
  destruct (Z.ltb_spec (entryIndex it + 1) (zlen dn + (1 + zlen cur))) as [Hlt|Hge].
  - destruct cur as [|e' cur]; [zlen|]. subst es. eexists. split; [by rewrite bool_decide_eq_true_2|].
    cbn [app table_yields]. exists (dn ++ [e]), (e' :: cur), bss. cbn [valid entries entryIndex].
    split_and!; try done.
    + by rewrite <-(assoc_L (++)).
    + rewrite zlen_app. change (zlen [e]) with 1. lia.
  - assert (cur = []) as -> by (apply length_zero_iff_nil_zlen; lia). simpl in Hes. subst es.
    by apply loadNextBlock_spec.
Qed.

#[global] Instance table_cursor : Cursor Iterator.
Proof.
  refine {| cursor_Valid := Valid; cursor_Entry := Entry_; cursor_Next := Next; yields := table_yields |}.
  - done.
  - intros it e es Hy. destruct (table_yields_cons it e es Hy) as (? & ? & _ & ?). done.
Defined.

(** Every entry of a cursor, as a client that loops until [Next] fails sees them. *)
Fixpoint drain {C} `{Cursor C} (fuel : nat) (c : C) : outcome (list Entry) :=
  match fuel with
  | O => OutOfFuel
  | S fuel' =>
      if cursor_Valid c then
        e ← cursor_Entry c;
        '(_, c) ← cursor_Next c;
        es ← drain fuel' c;
        Ok (e :: es)
      else Ok []
  end.

Lemma drain_spec {C} `{Cursor C} fuel (c : C) es :
  yields c es → (length es < fuel)%nat → drain fuel c = Ok es.
Proof.
  revert c es. induction fuel as [|fuel IH]; intros c es Hy Hf; [lia|]. cbn [drain].
  destruct es as [|e es]; [by rewrite (yields_nil c Hy)|].
  destruct (yields_cons c e es Hy) as (-> & -> & c' & -> & Hy'). cbn [mbind outcome_bind].
  rewrite (IH c' es) by (simpl in Hf; auto; lia). done.
Qed.
End iterator.

Section readable.
Context `{Snappy, Hash128}.

Lemma iterator_readable r es :
  readable r es → ∃ it, Reader_Iterator r = Ok it ∧ table_yields it es.
Proof.
  intros (bss & <- & Hbs & _). unfold Reader_Iterator.
  destruct (loadNextBlock_spec (mkIter r 0 [] 0 false) bss) as (it & -> & Hy); [|by exists it].
  split; [done|]. cbn [blockIndex reader]. exists (rindex r), []. split_and!; [by rewrite app_nil_r| |done].
  eapply Forall2_impl; [exact Hbs|]. intros ie b [? Hh]. split; [done|]. by destruct b.
Qed.
End readable.

(** ** Claims *)
Section claims.
Context `{Snappy, Hash128}.

(** C33: iterating over a table that was written and opened returns every entry exactly once,
    in the order written, across all block boundaries, and then stops. *)
Theorem table_iteration_complete r es :
  readable r es →
  ∃ it, Reader_Iterator r = Ok it ∧ ∀ fuel, (length es < fuel)%nat → drain fuel it = Ok es.
Proof.
  intros Hr. destruct (iterator_readable r es Hr) as (it & Hit & Hy). exists it. split; [done|].
  intros fuel Hf. by apply (drain_spec fuel it es).
Qed.

(** A block that cannot be read ends the iteration as if the table ended there. A table
    whose first blocks hold [es] and whose next block is unreadable yields [es] and then
    nothing: no error reaches the client, and the blocks after it are never visited. *)
Lemma unreadable_block_ends_iteration r idx bad rest bss e :
  rindex r = idx ++ bad :: rest →
  Forall2 (λ ie es, readBlock r ie = Ok es ∧ es ≠ []) idx bss → readBlock r bad = Err e →
  ∃ it, Reader_Iterator r = Ok it ∧ ∀ fuel, (length (concat bss) < fuel)%nat → drain fuel it = Ok (concat bss).
Proof.
  intros Hidx Hbs Hbad. unfold Reader_Iterator.
  destruct (loadNextBlock_spec (mkIter r 0 [] 0 false) bss) as (it & -> & Hy).
  { split; [done|]. cbn [blockIndex reader]. exists idx, (bad :: rest). split_and!; [done..|by exists e]. }
  exists it. split; [done|]. intros fuel Hf. by apply (drain_spec fuel it (concat bss)).
Qed.
End claims.

Lemma table_iteration_complete_witness :
  ∃ r it, @Reader_Iterator stored r = Ok it ∧
    ∀ fuel, (length demo_entries < fuel)%nat → @drain _ (@table_cursor stored) fuel it = Ok demo_entries.
Proof.
  destruct (@demo_table_ok stored toy_hash) as (b & Htb). eexists.
  apply (@table_iteration_complete stored toy_hash _ demo_entries).
  exact (@written_readable stored toy_hash 40 [demo_entries] b demo_entries Htb).
Defined.

(** A block whose four bytes are no entry. *)
Definition demo_bad : Reader := mkReader [x00; x00; x00; x00] [mkIndex 1 1 0 4] 1 None.

Lemma unreadable_block_ends_iteration_witness :
  ∃ it, @Reader_Iterator stored demo_bad = Ok it ∧
    ∀ fuel, (length (concat (@nil (list Entry))) < fuel)%nat → @drain _ (@table_cursor stored) fuel it = Ok (concat []).
Proof.
  apply (@unreadable_block_ends_iteration stored demo_bad [] (mkIndex 1 1 0 4) [] [] ErrBlockEntry).
  - done.
  - constructor.
  - by vm_compute.
Defined.
