(* ===== verification/Heap.v ===== *)
(** * container/heap

    The binary heap of the Go library the merges use, over a slice ordered by [less]:
    [Push] and [Pop] with the sift loops, that they never index out of range or loop, and
    that [Pop] takes out a least element. *)
From Stdlib Require Import ZArith Lia.
From stdpp Require Import base list.
From S2P Require Import Prelude.

(** [Less] of a heap is a strict weak order. *)
Class WeakOrder {A} (less : A → A → bool) : Prop := {
  less_irrefl a : less a a = false;
  less_trans a b c : less a b = true → less b c = true → less a c = true;
  less_weak a b c : less a b = false → less b c = false → less a c = false
}.

Section heap.
Context {A : Type} (less : A → A → bool).

Definition at_ (h : list A) (i : nat) : outcome A :=
  match h !! i with Some a => Ok a | None => Panic IndexOutOfRange end.

Definition less_at (h : list A) (i j : nat) : outcome bool :=
  a ← at_ h i; b ← at_ h j; Ok (less a b).

(** [h[i], h[j] = h[j], h[i]] *)
Definition swap (h : list A) (i j : nat) : outcome (list A) :=
  a ← at_ h i; b ← at_ h j; Ok (<[j := a]> (<[i := b]> h)).

Fixpoint up (fuel : nat) (h : list A) (j : nat) : outcome (list A) :=
  match fuel with
  | O => OutOfFuel
  | S fuel' =>
      let i := ((j - 1) / 2)%nat in
      if (i =? j)%nat then Ok h
      else
        b ← less_at h j i;
        if negb b then Ok h
        else h ← swap h i j; up fuel' h i
  end.

Fixpoint down (fuel : nat) (h : list A) (i n : nat) : outcome (list A) :=
  match fuel with
  | O => OutOfFuel
  | S fuel' =>
      let j1 := (2 * i + 1)%nat in
      if (n <=? j1)%nat then Ok h
      else
        let j2 := (j1 + 1)%nat in
        right ← (if (j2 <? n)%nat then less_at h j2 j1 else Ok false);
        let j := if (right : bool) then j2 else j1 in
        b ← less_at h j i;
        if negb b then Ok h
        else h ← swap h i j; down fuel' h j n
  end.

Definition Push (h : list A) (x : A) : outcome (list A) :=
  let h := h ++ [x] in up (S (length h)) h (length h - 1).

(** [heap.Pop]: swap the root with the last, sift down, take the last off. *)
Definition Pop (h : list A) : outcome (A * list A) :=
  match length h with
  | O => Panic IndexOutOfRange
  | S n =>
      h ← swap h 0 n;
      h ← down (S (length h)) h 0 n;
      item ← at_ h n;
      Ok (item, take n h)
  end.
End heap.

Example heap_demo :
  (h ← Push Z.ltb [] 5; h ← Push Z.ltb h 3; h ← Push Z.ltb h 8; h ← Push Z.ltb h 1;
   '(a, h) ← Pop Z.ltb h; '(b, h) ← Pop Z.ltb h; '(c, h) ← Pop Z.ltb h;
   Ok (a, b, c, h)) = Ok (1, 3, 5, [8]).
Proof. vm_compute. reflexivity. Qed.

(** ** Correctness *)
Section correct.
Context {A : Type} (less : A → A → bool) `{!WeakOrder less}.
Implicit Types (h : list A).

(** [a] may stand above [b]. *)
Definition le (a b : A) : Prop := less b a = false.

Lemma le_refl a : le a a.
Proof. apply less_irrefl. Qed.

Lemma le_trans a b c : le a b → le b c → le a c.
Proof. unfold le. intros Hab Hbc. by apply (less_weak c b a). Qed.

Lemma less_le a b : less a b = true → le a b.
Proof.
  unfold le. intros H. destruct (less b a) eqn:E; [|done].
  pose proof (less_trans _ _ _ H E) as Ha. by rewrite less_irrefl in Ha.
Qed.

(** The element at [j] and the parent of [j]. *)
Definition parent (j : nat) : nat := ((j - 1) / 2)%nat.

Lemma parent_lt j : (0 < j)%nat → (parent j < j)%nat.
Proof. intros Hj. unfold parent. apply Nat.Div0.div_lt_upper_bound. lia. Qed.

Lemma parent_cases j : (0 < j)%nat → (j = 2 * parent j + 1 ∨ j = 2 * parent j + 2)%nat.
Proof.
  intros Hj. unfold parent. pose proof (Nat.div_mod (j - 1) 2 ltac:(lia)).
  pose proof (Nat.mod_upper_bound (j - 1) 2 ltac:(lia)). lia.
Qed.

Lemma parent_left i : parent (2 * i + 1) = i.
Proof. pose proof (parent_cases (2 * i + 1) ltac:(lia)). lia. Qed.
Lemma parent_right i : parent (2 * i + 2) = i.
Proof. pose proof (parent_cases (2 * i + 2) ltac:(lia)). lia. Qed.

(** The edge from [parent j] to [j] is in order. *)
Definition edge h (j : nat) : Prop :=
  ∀ a b, h !! parent j = Some a → h !! j = Some b → le a b.

(** A heap of the first [n] elements. *)
Definition is_heap n h : Prop := ∀ j, (0 < j < n)%nat → edge h j.

Lemma swap_spec h i j a b :
  h !! i = Some a → h !! j = Some b → i ≠ j →
  ∃ h', swap h i j = Ok h' ∧ h' ≡ₚ h ∧ length h' = length h ∧
    h' !! i = Some b ∧ h' !! j = Some a ∧ ∀ k, k ≠ i → k ≠ j → h' !! k = h !! k.
Proof.
  intros Hi Hj Hne. exists (<[j := a]> (<[i := b]> h)). unfold swap, at_. rewrite Hi, Hj.
  pose proof (lookup_lt_Some _ _ _ Hi). pose proof (lookup_lt_Some _ _ _ Hj). split_and!.
  - done.
  - by apply Permutation_insert_swap.
  - by rewrite !length_insert.
  - by rewrite list_lookup_insert_ne, list_lookup_insert_eq by done.
  - by rewrite list_lookup_insert_eq by (by rewrite length_insert).
  - intros k Hki Hkj. by rewrite !list_lookup_insert_ne by done.
Qed.

(** The heap is in order except that [j] may be too small for its place. *)
Definition almost_up h (j : nat) : Prop :=
  (∀ k, (0 < k < length h)%nat → k ≠ j → edge h k) ∧
  ((0 < j)%nat → ∀ k a b, (0 < k)%nat → parent k = j → h !! parent j = Some a → h !! k = Some b → le a b).

Lemma up_spec fuel h j :
  (j < length h)%nat → (j < fuel)%nat → almost_up h j →
  ∃ h', up less fuel h j = Ok h' ∧ h' ≡ₚ h ∧ is_heap (length h') h'.
Proof.
  revert h j. induction fuel as [|fuel IH]; intros h j Hj Hf [Hedge Hgrand]; [lia|].
  cbn [up]. fold (parent j). destruct (Nat.eqb_spec (parent j) j) as [E|E].
  - exists h. split_and!; [done|done|]. intros k Hk. apply Hedge; [done|]. intros ->.
    pose proof (parent_lt j ltac:(lia)). lia.
  - assert (0 < j)%nat as Hj0 by (destruct j; [done|lia]). pose proof (parent_lt j Hj0) as Hp.
    set (i := parent j) in *.
    destruct (lookup_lt_is_Some_2 h i) as [a Ha]; [lia|]. destruct (lookup_lt_is_Some_2 h j) as [b Hb]; [done|].
    unfold less_at, at_. rewrite Ha, Hb. cbn [mbind outcome_bind]. destruct (less b a) eqn:El; cbn [negb].
    + destruct (swap_spec h i j a b Ha Hb E) as (h' & -> & Hperm & Hlen & Hi' & Hj' & Hk'). cbn [mbind outcome_bind].
      destruct (IH h' i) as (h'' & Hup & Hperm' & Hheap); [lia|lia| |exists h''; split_and!; [done|by rewrite Hperm'|done]].
      apply less_le in El. split.
      * intros k Hk Hki x y Hx Hy. destruct (decide (k = j)) as [->|Hkj].
        { fold i in Hx. rewrite Hi' in Hx. rewrite Hj' in Hy. by simplify_eq. }
        rewrite Hk' in Hy by done. destruct (decide (parent k = i)) as [Hpi|Hpi].
        { rewrite Hpi, Hi' in Hx. simplify_eq. apply (le_trans _ a); [done|].
          apply (Hedge k); [lia|done|by rewrite Hpi|done]. }
        destruct (decide (parent k = j)) as [Hpj|Hpj].
        { rewrite Hpj, Hj' in Hx. simplify_eq. apply (Hgrand Hj0 k); [lia|done..]. }
        rewrite Hk' in Hx by done. apply (Hedge k); [lia|done..].
      * intros Hi0 k x y Hk0 Hpk Hx Hy. pose proof (parent_lt i Hi0) as Hpi.
        rewrite Hk' in Hx by lia. assert (le x a) as Hxa by (apply (Hedge i); [lia|done|done|done]).
        destruct (decide (k = j)) as [->|Hkj]; [rewrite Hj' in Hy; by simplify_eq|].
        pose proof (parent_lt k Hk0). rewrite Hk' in Hy by lia. apply (le_trans _ a); [done|].
        apply (Hedge k); [|done|by rewrite Hpk|done]. apply lookup_lt_Some in Hy. lia.
    + exists h. split_and!; [done|done|]. intros k Hk. destruct (decide (k = j)) as [->|Hkj]; [|by apply Hedge].
      intros x y Hx Hy. fold i in Hx. by simplify_eq.
Qed.

Lemma Push_spec h x :
  is_heap (length h) h → ∃ h', Push less h x = Ok h' ∧ h' ≡ₚ x :: h ∧ is_heap (length h') h'.
Proof.
  intros Hh. unfold Push.
  destruct (up_spec (S (length (h ++ [x]))) (h ++ [x]) (length (h ++ [x]) - 1)) as (h' & -> & Hp & Hheap).
  - rewrite length_app. simpl. lia.
  - lia.
  - rewrite length_app, Nat.add_sub. split.
    + intros k Hk Hne a b Ha Hb. simpl in Hk. rewrite length_app in Hk. simpl in Hk.
      pose proof (parent_lt k ltac:(lia)). rewrite lookup_app_l in Ha, Hb by lia. apply (Hh k); [lia|done..].
    + intros Hj k a b Hk0 Hpk Ha Hb. apply lookup_lt_Some in Hb. rewrite length_app in Hb. simpl in Hb.
      pose proof (parent_lt k Hk0). lia.
  - exists h'. split_and!; [done| |done]. by rewrite Hp, Permutation_app_comm.
Qed.

(** The heap is in order except that [i] may be too large for its place. *)
Definition almost_down n h (i : nat) : Prop :=
  (∀ k, (0 < k < n)%nat → parent k ≠ i → edge h k) ∧
  ((0 < i)%nat → ∀ k a b, (0 < k < n)%nat → parent k = i → h !! parent i = Some a → h !! k = Some b → le a b).

(** The smaller child of [i]. *)
Lemma down_child h i n :
  (n ≤ length h)%nat → (2 * i + 1 < n)%nat →
  ∃ j c, (right ← (if (2 * i + 1 + 1 <? n)%nat then less_at less h (2 * i + 1 + 1) (2 * i + 1) else Ok false);
     Ok (if (right : bool) then (2 * i + 1 + 1)%nat else (2 * i + 1)%nat)) = Ok j ∧
    (j < n)%nat ∧ (0 < j)%nat ∧ parent j = i ∧ h !! j = Some c ∧
    ∀ k d, (0 < k < n)%nat → parent k = i → h !! k = Some d → le c d.
Proof.
  intros Hn H1. destruct (lookup_lt_is_Some_2 h (2 * i + 1)) as [c1 Hc1]; [lia|].
  assert (∀ k, (0 < k)%nat → parent k = i → k = (2 * i + 1)%nat ∨ k = (2 * i + 1 + 1)%nat) as Hk.
  { intros k Hk0 <-. destruct (parent_cases k Hk0); lia. }
  destruct (Nat.ltb_spec (2 * i + 1 + 1) n).
  - destruct (lookup_lt_is_Some_2 h (2 * i + 1 + 1)) as [c2 Hc2]; [lia|].
    unfold less_at, at_. rewrite Hc1, Hc2. cbn [mbind outcome_bind].
    destruct (less c2 c1) eqn:E; [exists (2 * i + 1 + 1)%nat, c2|exists (2 * i + 1)%nat, c1];
      (split_and!; [done|lia|lia| |done|]).
    + rewrite <-Nat.add_assoc. apply parent_right.
    + intros k d Hk' Hp Hd. destruct (Hk k ltac:(lia) Hp) as [-> | ->]; simplify_eq; [by apply less_le|apply le_refl].
    + apply parent_left.
    + intros k d Hk' Hp Hd. destruct (Hk k ltac:(lia) Hp) as [-> | ->]; simplify_eq; [apply le_refl|done].
  - cbn [mbind outcome_bind]. exists (2 * i + 1)%nat, c1. split_and!; [done|lia|lia|apply parent_left|done|].
    intros k d Hk' Hp Hd. destruct (Hk k ltac:(lia) Hp) as [-> | ->]; simplify_eq; [apply le_refl|lia].
Qed.

Lemma down_spec fuel h i n :
  (n ≤ length h)%nat → (i < n)%nat → (n ≤ i + fuel)%nat → almost_down n h i →
  ∃ h', down less fuel h i n = Ok h' ∧ h' ≡ₚ h ∧ length h' = length h ∧ is_heap n h' ∧
    ∀ k, (n ≤ k)%nat → h' !! k = h !! k.
Proof.
  revert h i. induction fuel as [|fuel IH]; intros h i Hn Hin Hf [Hedge Hgrand]; [lia|].
  cbn [down]. destruct (Nat.leb_spec n (2 * i + 1)).
  { exists h. split_and!; try done. intros k Hk. apply Hedge; [done|]. intros Hp.
    destruct (parent_cases k); lia. }
  destruct (down_child h i n) as (j & c & Hch & Hjn & Hj0 & Hpj & Hc & Hmin); [done..|].
  destruct (if (2 * i + 1 + 1 <? n)%nat then _ else _) as [rt|e|pn|]; try done.
  cbn [mbind outcome_bind] in Hch |- *.
  apply (f_equal (λ o, match o with Ok x => x | _ => 0%nat end)) in Hch. cbv beta iota in Hch. rewrite Hch.
  destruct (lookup_lt_is_Some_2 h i) as [a Ha]; [lia|].
  pose proof (parent_lt j Hj0) as Hij. rewrite Hpj in Hij.
  unfold less_at, at_. rewrite Ha, Hc. cbn [mbind outcome_bind]. destruct (less c a) eqn:El; cbn [negb].
  - destruct (swap_spec h i j a c Ha Hc ltac:(lia)) as (h1 & -> & Hperm & Hlen & Hi' & Hj' & Hk'). cbn [mbind outcome_bind].
    apply less_le in El.
    destruct (IH h1 j) as (h' & -> & Hperm' & Hlen' & Hheap & Hrest); [lia|done|lia| |].
    + split.
      * intros k Hk Hpk x y Hx Hy. pose proof (parent_lt k ltac:(lia)).
        destruct (decide (k = i)) as [->|Hki].
        { rewrite Hi' in Hy. simplify_eq. rewrite Hk' in Hx by lia.
          apply (Hgrand ltac:(lia) j); [lia|done..]. }
        destruct (decide (k = j)) as [->|Hkj].
        { rewrite Hpj, Hi' in Hx. rewrite Hj' in Hy. by simplify_eq. }
        rewrite Hk' in Hy by done. destruct (decide (parent k = i)) as [Hpi|Hpi].
        { rewrite Hpi, Hi' in Hx. simplify_eq. apply (Hmin k); [lia|done..]. }
        rewrite Hk' in Hx by done. apply (Hedge k); [lia|done..].
      * intros _ k x y Hk Hpk Hx Hy. pose proof (parent_lt k ltac:(lia)).
        rewrite Hpj, Hi' in Hx. simplify_eq. rewrite Hk' in Hy by lia.
        apply (Hedge k); [lia|lia|by rewrite Hpk|done].
    + exists h'. split_and!; [done|by rewrite Hperm'|lia|done|].
      intros k Hk. rewrite Hrest by done. apply Hk'; lia.
  - exists h. split_and!; try done. intros k Hk. destruct (decide (parent k = i)) as [Hpi|Hpi]; [|by apply Hedge].
    intros x y Hx Hy. rewrite Hpi in Hx. simplify_eq. apply (le_trans _ c); [exact El|]. by apply (Hmin k).
Qed.

(** The root of a heap is a least element. *)
Lemma heap_root n h a :
  is_heap n h → h !! 0%nat = Some a → ∀ k b, (k < n)%nat → h !! k = Some b → le a b.
Proof.
  intros Hh Ha k. induction (lt_wf k) as [k _ IH]. intros b Hk Hb.
  destruct k as [|k]; [simplify_eq; apply le_refl|].
  pose proof (parent_lt (S k) ltac:(lia)) as Hp.
  pose proof (lookup_lt_Some _ _ _ Hb). destruct (lookup_lt_is_Some_2 h (parent (S k))) as [c Hc]; [lia|].
  apply (le_trans _ c); [by apply (IH (parent (S k))); [|lia|]|]. apply (Hh (S k)); [lia|done..].
Qed.

(** [Pop] never panics on a non-empty heap; it returns a least element and leaves the rest,
    still in heap order. *)
Lemma Pop_spec h :
  is_heap (length h) h → h ≠ [] →
  ∃ x h', Pop less h = Ok (x, h') ∧ h ≡ₚ x :: h' ∧ is_heap (length h') h' ∧ ∀ y, y ∈ h' → le x y.
Proof.
  intros Hh Hne. unfold Pop. destruct (length h) as [|n] eqn:Hlen; [by destruct h|].
  destruct (lookup_lt_is_Some_2 h 0) as [a Ha]; [lia|]. destruct (lookup_lt_is_Some_2 h n) as [b Hb]; [lia|].
  assert (∃ h1, swap h 0 n = Ok h1 ∧ h1 ≡ₚ h ∧ length h1 = S n ∧ h1 !! n = Some a ∧
    (∀ k, k ≠ 0%nat → k ≠ n → h1 !! k = h !! k)) as (h1 & -> & Hp1 & Hl1 & Hn1 & Hk1).
  { destruct (decide (0%nat = n)) as [<-|Hn0].
    - unfold swap, at_. rewrite Ha. exists h. simplify_eq.
      split_and!; try done. cbn [mbind outcome_bind]. by rewrite !list_insert_id by (rewrite ?list_insert_id; done).
    - destruct (swap_spec h 0 n a b Ha Hb Hn0) as (h1 & ? & ? & ? & _ & ? & ?). exists h1. split_and!; try done. lia. }
  cbn [mbind outcome_bind].
  assert (∃ h2, down less (S (length h1)) h1 0 n = Ok h2 ∧ h2 ≡ₚ h1 ∧ length h2 = length h1 ∧ is_heap n h2 ∧
    h2 !! n = Some a) as (h2 & -> & Hp2 & Hl2 & Hh2 & Hn2).
  { destruct (decide (n = 0%nat)) as [->|Hn0].
    - exists h1. cbn [down]. destruct (Nat.leb_spec 0 (2 * 0 + 1)); [|lia].
      split_and!; try done. intros k Hk. lia.
    - destruct (down_spec (S (length h1)) h1 0 n) as (h2 & ? & ? & ? & ? & Hrest); [lia..| |].
      + split; [|lia]. intros k Hk Hp x y Hx Hy. pose proof (parent_lt k ltac:(lia)).
        rewrite Hk1 in Hx, Hy by lia. apply (Hh k); [lia|done..].
      + exists h2. split_and!; try done. by rewrite Hrest. }
  cbn [mbind outcome_bind]. unfold at_. rewrite Hn2. cbn [mbind outcome_bind].
  assert (h2 = take n h2 ++ [a]) as Hsplit.
  { rewrite <-(take_drop n h2) at 1. f_equal.
    assert (length (drop n h2) = 1%nat) as Hd by (rewrite length_drop; lia).
    assert (drop n h2 !! 0%nat = Some a) as Hd0 by by rewrite lookup_drop, Nat.add_0_r.
    destruct (drop n h2) as [|x [|]]; simplify_eq/=; done. }
  exists a, (take n h2). assert (h ≡ₚ a :: take n h2) as Hperm.
  { rewrite <-Hp1, <-Hp2, Hsplit at 1. by rewrite Permutation_app_comm. }
  assert (length (take n h2) = n) as Hlt by (rewrite length_take; lia).
  split_and!; [done|done| |].
  - rewrite Hlt. intros k Hk x y Hx Hy. pose proof (parent_lt k ltac:(lia)).
    rewrite lookup_take_lt in Hx, Hy by lia. by apply (Hh2 k).
  - intros y Hy. assert (y ∈ h) as [k Hk]%list_elem_of_lookup by (rewrite Hperm; by right).
    apply (heap_root (S n) h a Hh Ha k); [|done]. apply lookup_lt_Some in Hk. lia.
Qed.
End correct.

(** ** Heaps of images

    A map that keeps the order commutes with the heap operations. *)
Definition outcome_map {A B} (f : A → B) (o : outcome A) : outcome B := a ← o; Ok (f a).

Lemma outcome_map_bind {A B C D} (f : A → B) (g : C → D) (o : outcome A) (k : A → outcome C) (k' : B → outcome D) :
  (∀ a, k' (f a) = outcome_map g (k a)) → outcome_map f o ≫= k' = outcome_map g (o ≫= k).
Proof. intros Hk. destruct o as [a|e|p|]; [apply Hk|done..]. Qed.

Section image.
Context {A B : Type} (less : A → A → bool) (less' : B → B → bool) (f : A → B).
Context (Hless : ∀ a b, less' (f a) (f b) = less a b).
Implicit Types (h : list A).

Lemma at_image h i : at_ (f <$> h) i = outcome_map f (at_ h i).
Proof. unfold at_. rewrite list_lookup_fmap. by destruct (h !! i). Qed.

Lemma less_at_image h i j : less_at less' (f <$> h) i j = less_at less h i j.
Proof.
  unfold less_at. rewrite !at_image. destruct (at_ h i) as [a| | |]; [|done..]. destruct (at_ h j) as [b| | |]; [|done..].
  cbn. by rewrite Hless.
Qed.

Lemma swap_image h i j : swap (f <$> h) i j = outcome_map (fmap f) (swap h i j).
Proof.
  unfold swap. rewrite !at_image. apply outcome_map_bind. intros a. apply outcome_map_bind. intros b. cbn.
  by rewrite !list_fmap_insert.
Qed.

Lemma up_image fuel h j : up less' fuel (f <$> h) j = outcome_map (fmap f) (up less fuel h j).
Proof.
  revert h j. induction fuel as [|fuel IH]; intros h j; [done|]. cbn [up]. destruct (_ =? _)%nat; [done|].
  rewrite less_at_image. destruct (less_at less h j _) as [[]| | |]; cbn [mbind outcome_bind negb]; [|done..].
  rewrite swap_image. apply outcome_map_bind. intros h'. apply IH.
Qed.

Lemma down_image fuel h i n : down less' fuel (f <$> h) i n = outcome_map (fmap f) (down less fuel h i n).
Proof.
  revert h i. induction fuel as [|fuel IH]; intros h i; [done|]. cbn [down]. destruct (_ <=? _)%nat; [done|].
  rewrite less_at_image. destruct (if (_ <? _)%nat then less_at less h _ _ else Ok false) as [right| | |]; cbn [mbind outcome_bind]; [|done..].
  rewrite less_at_image. destruct (less_at less h _ i) as [[]| | |]; cbn [mbind outcome_bind negb]; [|done..].
  rewrite swap_image. apply outcome_map_bind. intros h'. apply IH.
Qed.

Lemma Push_image h x : Push less' (f <$> h) (f x) = outcome_map (fmap f) (Push less h x).
Proof.
  unfold Push. cbv zeta. change [f x] with (f <$> [x]). rewrite <-fmap_app, length_fmap. apply up_image.
Qed.

Lemma Pop_image h : Pop less' (f <$> h) = outcome_map (prod_map f (fmap f)) (Pop less h).
Proof.
  unfold Pop. rewrite length_fmap. destruct (length h) as [|n]; [done|]. rewrite swap_image. apply outcome_map_bind. intros h1.
  rewrite length_fmap, down_image. apply outcome_map_bind. intros h2. rewrite at_image. apply outcome_map_bind. intros item.
  cbn. by rewrite fmap_take.
Qed.
End image.

(** ** Elements

    The operations keep whatever holds of every element. *)
Section elements.
Context {A : Type} (less : A → A → bool) (P : A → Prop).
Implicit Types (h : list A).

Lemma at_elements h i a : Forall P h → at_ h i = Ok a → P a.
Proof. unfold at_. destruct (h !! i) eqn:E; [|done]. intros Hh [= <-]. by eapply Forall_lookup_1. Qed.

Lemma swap_elements h i j h' : Forall P h → swap h i j = Ok h' → Forall P h'.
Proof.
  unfold swap. intros Hh (a & Ha & (b & Hb & [= <-])%outcome_bind_Ok)%outcome_bind_Ok.
  repeat apply Forall_insert; [done|by eapply at_elements..].
Qed.

Lemma up_elements fuel h j h' : Forall P h → up less fuel h j = Ok h' → Forall P h'.
Proof.
  revert h j. induction fuel as [|fuel IH]; intros h j Hh; [done|]. cbn [up]. destruct (_ =? _)%nat; [by intros [= <-]|].
  intros ([] & _ & H)%outcome_bind_Ok; cbn [negb] in H; [|by injection H as <-].
  apply outcome_bind_Ok in H as (h1 & Hsw & H). apply IH in H; [done|]. by eapply swap_elements.
Qed.

Lemma down_elements fuel h i n h' : Forall P h → down less fuel h i n = Ok h' → Forall P h'.
Proof.
  revert h i. induction fuel as [|fuel IH]; intros h i Hh; [done|]. cbn [down]. destruct (_ <=? _)%nat; [by intros [= <-]|].
  intros (right & _ & ([] & _ & H)%outcome_bind_Ok)%outcome_bind_Ok; cbn [negb] in H; [|by injection H as <-].
  apply outcome_bind_Ok in H as (h1 & Hsw & H). apply IH in H; [done|]. by eapply swap_elements.
Qed.

Lemma Push_elements h x h' : Forall P h → P x → Push less h x = Ok h' → Forall P h'.
Proof. intros Hh Hx. apply up_elements, Forall_app. split; [done|by constructor]. Qed.

Lemma Pop_elements h x h' : Forall P h → Pop less h = Ok (x, h') → P x ∧ Forall P h'.
Proof.
  intros Hh. unfold Pop. destruct (length h) as [|n]; [done|].
  intros (h1 & H1 & (h2 & H2 & (y & Hy & [= -> <-])%outcome_bind_Ok)%outcome_bind_Ok)%outcome_bind_Ok.
  apply swap_elements in H1; [|done]. apply down_elements in H2; [|done].
  split; [by eapply at_elements|by apply Forall_take].
Qed.
End elements.
