(* ===== verification/Merge.v ===== *)
(** * The k-way merge of the compactor (compactor/compact.go)

    [CompactSSTables]: the heap of cursors ordered by key and then by generation, newest
    first, the duplicate and tombstone rules, and the writing of the merged table. *)
From Stdlib Require Import ZArith Lia Strings.Byte.
From stdpp Require Import base list gmap sorting.
From S2P Require Import Prelude Key Monad Fs Block Bloom Writer Reader TableIter Heap.

Record CompactorOptions := mkOptions {
  BlockSize : Z;
  IsMajor : bool;
  TargetGen : Z;
  OutputPath : path
}.

(** ** The heap of cursors *)
Section merge.
Context {C : Type} `{Cursor C}.

Record heapItem := mkItem {
  entry : Entry;
  gen : Z;
  sstableIdx : Z;
  iterator : C
}.

(** [minHeap.Less]: key order, then the higher generation. *)
Definition Less (a b : heapItem) : bool :=
  if negb (eSeriesID (entry a) =? eSeriesID (entry b)) then eSeriesID (entry a) <? eSeriesID (entry b)
  else if negb (eTimestamp (entry a) =? eTimestamp (entry b)) then eTimestamp (entry a) <? eTimestamp (entry b)
  else gen b <? gen a.

(** Push the cursor's current entry, if it has one. *)
Definition push_cursor (h : list heapItem) (g idx : Z) (it : C) : outcome (list heapItem) :=
  if cursor_Valid it then
    e ← cursor_Entry it;
    Push Less h (mkItem e g idx it)
  else Ok h.

(** One round of the merge loop: the popped entry and the heap with its cursor advanced. *)
Definition merge_pop (h : list heapItem) : outcome (Entry * list heapItem) :=
  '(item, h) ← Pop Less h;
  '(more, it) ← cursor_Next (iterator item);
  h ← (if (more : bool)
       then e ← cursor_Entry it; Push Less h (mkItem e (gen item) (sstableIdx item) it)
       else Ok h);
  Ok (entry item, h).

Definition same_key (lastKey : option Key) (e : Entry) : bool :=
  match lastKey with
  | Some k => (eSeriesID e =? SeriesID k) && (eTimestamp e =? Timestamp k)
  | None => false
  end.

(** The entries the loop hands to the writer. *)
Fixpoint merge_loop (fuel : nat) (h : list heapItem) (lastKey : option Key) (isMajor : bool) : outcome (list Entry) :=
  match fuel with
  | O => OutOfFuel
  | S fuel' =>
      match h with
      | [] => Ok []
      | _ =>
          '(e, h) ← merge_pop h;
          if same_key lastKey e then merge_loop fuel' h lastKey isMajor
          else
            rest ← merge_loop fuel' h (Some (mkKey (eSeriesID e) (eTimestamp e))) isMajor;
            Ok (if eDeleted e && isMajor then rest else e :: rest)
      end
  end.

(** The same loop with its writer: what [CompactSSTables] runs. It returns outputCount. *)
Fixpoint compact_loop `{Snappy, Hash128} (fuel : nat) (h : list heapItem) (lastKey : option Key)
    (isMajor : bool) (outputCount : Z) : M (Writer * world) Z :=
  match fuel with
  | O => lift OutOfFuel
  | S fuel' =>
      match h with
      | [] => mret outputCount
      | _ =>
          '(e, h) ← lift (merge_pop h);
          if same_key lastKey e then compact_loop fuel' h lastKey isMajor outputCount
          else
            let lastKey := Some (mkKey (eSeriesID e) (eTimestamp e)) in
            if eDeleted e && isMajor then compact_loop fuel' h lastKey isMajor outputCount
            else
              Add e;;
              compact_loop fuel' h lastKey isMajor (outputCount + 1)
      end
  end.
End merge.
Arguments heapItem : clear implicits.

(** ** CompactSSTables

    A table is given by its generation and its reader, nil once closed. *)
Section compact.
Context `{Snappy, Hash128}.

Fixpoint push_tables (idx : Z) (tables : list (Z * option Reader)) (h : list (heapItem Iterator)) : outcome (list (heapItem Iterator)) :=
  match tables with
  | [] => Ok h
  | (g, r) :: tables' =>
      h ← match r with
          | None => Ok h
          | Some r => it ← Reader_Iterator r; push_cursor h g idx it
          end;
      push_tables (idx + 1) tables' h
  end.

Definition set_default_block (opts : CompactorOptions) : CompactorOptions :=
  if BlockSize opts =? 0 then mkOptions DefaultBlockSize (IsMajor opts) (TargetGen opts) (OutputPath opts) else opts.

(** [fuel] bounds the rounds of the merge. The result is the path, generation and reader of
    the new table, or nil. *)
Definition CompactSSTables (fuel : nat) (tables : list (Z * option Reader)) (opts : CompactorOptions) :
    IO (option (path * Z * Reader)) :=
  match tables with
  | [] => mret None
  | _ =>
      let opts := set_default_block opts in
      h ← lift (push_tables 0 tables []);
      match h with
      | [] => mret None
      | _ =>
          w ← try (NewWriter (OutputPath opts) (BlockSize opts));
          match w with
          | inr e => fail (ErrCompact e)
          | inl w =>
              '(_, n) ← run_with w (
                r ← try (n ← compact_loop fuel h None (IsMajor opts) 0; Close;; mret n);
                match r with
                | inl n => mret n
                | inr e => try Close;; try (on_snd (os_Remove (OutputPath opts)));; fail (ErrCompact e)
                end);
              if n =? 0 then
                r ← try (os_Remove (OutputPath opts));
                match r with
                | inr e => if decide (e = ErrNotExist) then mret None else fail (ErrCompact e)
                | inl _ => mret None
                end
              else
                r ← try (OpenReader (OutputPath opts));
                match r with
                | inr e => try (os_Remove (OutputPath opts));; fail (ErrCompact e)
                | inl reader => mret (Some (OutputPath opts, TargetGen opts, reader))
                end
          end
      end
  end.
End compact.

(** ** The order of the heap *)
Section less.
Context {C : Type}.
Implicit Types (a b : heapItem C).

Lemma Less_spec a b :
  Less a b = true ↔ klt (ekey (entry a)) (ekey (entry b)) ∨ (ekey (entry a) = ekey (entry b) ∧ gen b < gen a).
Proof.
  unfold klt. rewrite compare_lex. unfold Less, ekey. cbn [SeriesID Timestamp].
  destruct (Z.eqb_spec (eSeriesID (entry a)) (eSeriesID (entry b))) as [Es|Es]; cbn [negb];
    [destruct (Z.eqb_spec (eTimestamp (entry a)) (eTimestamp (entry b))) as [Et|Et]; cbn [negb]|].
  - rewrite Es, Et, Z.ltb_lt. split; [by right|]. intros [?|[_ ?]]; [lia|done].
  - rewrite Z.ltb_lt. split; [left; lia|]. intros [?|[E _]]; [lia|congruence].
  - rewrite Z.ltb_lt. split; [left; lia|]. intros [?|[E _]]; [lia|congruence].
Qed.

#[global] Instance Less_order : WeakOrder (@Less C).
Proof.
  split.
  - intros a. apply not_true_iff_false. rewrite Less_spec. intros [Hk|[_ ?]]; [by apply klt_not_refl in Hk|lia].
  - intros a b c. rewrite !Less_spec. intros [H1|[H1 ?]] [H2|[H2 ?]].
    + left. by trans (ekey (entry b)).
    + left. by rewrite <-H2.
    + left. by rewrite H1.
    + right. split; [congruence|lia].
  - intros a b c. rewrite <-!not_true_iff_false, !Less_spec. intros H1 H2 [H3|[H3 ?]].
    + destruct (klt_trichotomy (ekey (entry a)) (ekey (entry b))) as [?|[E|H4]]; [tauto| |].
      * rewrite E in *. tauto.
      * apply H2. left. by trans (ekey (entry a)).
    + destruct (klt_trichotomy (ekey (entry a)) (ekey (entry b))) as [?|[E|H4]]; [tauto| |].
      * assert (ekey (entry b) = ekey (entry c)) by congruence.
        destruct (decide (gen b < gen a)); [tauto|]. apply H2. right. split; [done|lia].
      * apply H2. left. by rewrite <-H3.
Qed.

(** [a] may come out before [b]. *)
Lemma le_spec a b :
  le Less a b ↔ klt (ekey (entry a)) (ekey (entry b)) ∨ (ekey (entry a) = ekey (entry b) ∧ gen b ≤ gen a).
Proof.
  unfold le. rewrite <-not_true_iff_false, Less_spec. split.
  - intros Hn. destruct (klt_trichotomy (ekey (entry a)) (ekey (entry b))) as [?|[?|?]]; [by left| |tauto].
    right. split; [done|]. destruct (decide (gen a < gen b)); [|lia]. exfalso. apply Hn. by right.
  - intros [Hk|[Hk ?]] [Hk'|[Hk' ?]]; [by apply (klt_asym _ _ Hk)| | |lia].
    + rewrite Hk' in Hk. by apply klt_not_refl in Hk.
    + rewrite Hk in Hk'. by apply klt_not_refl in Hk'.
Qed.
End less.

(** ** Streams

    The specification side of the heap: the generation and the remaining entries of every
    table not yet exhausted. *)
Abbreviation stream := (Z * list Entry)%type.

(** Of the entries with key [k] in the streams, one of the newest generation; none if there
    is none. *)
Definition is_newest (k : Key) (pend : list stream) (o : option Entry) : Prop :=
  match o with
  | None => ∀ g es, (g, es) ∈ pend → first_entry k es = None
  | Some e => ∃ g es, (g, es) ∈ pend ∧ first_entry k es = Some e ∧
      ∀ g' es', (g', es') ∈ pend → first_entry k es' ≠ None → g' ≤ g
  end.

Definition total (pend : list stream) : nat := sum_list_with (λ s, length s.2) pend.

(** The streams after the entry at the head of one of them is taken. *)
Definition rest_stream (g : Z) (es : list Entry) : list stream :=
  match es with [] => [] | _ => [(g, es)] end.

Section streams.
Context {C : Type} `{Cursor C}.

Definition matches (i : heapItem C) (s : stream) : Prop :=
  gen i = s.1 ∧ ∃ es, s.2 = entry i :: es ∧ yields (iterator i) (entry i :: es).

(** The heap holds exactly the heads of [pend]. *)
Definition holds (h : list (heapItem C)) (pend : list stream) : Prop :=
  is_heap Less (length h) h ∧ ∃ l, l ≡ₚ pend ∧ Forall2 matches h l.

Lemma holds_perm h pend pend' : pend ≡ₚ pend' → holds h pend → holds h pend'.
Proof. intros Hp (Hh & l & Hl & Hf). split; [done|]. exists l. split; [by trans pend|done]. Qed.

Lemma holds_Push h pend g e es idx it :
  holds h pend → yields it (e :: es) →
  ∃ h', Push Less h (mkItem e g idx it) = Ok h' ∧ holds h' ((g, e :: es) :: pend).
Proof.
  intros (Hh & l & Hl & Hf) Hy. destruct (Push_spec Less h (mkItem e g idx it) Hh) as (h' & -> & Hp & Hh').
  exists h'. split; [done|]. split; [done|]. symmetry in Hp.
  destruct (Permutation_Forall2 (l1 := mkItem e g idx it :: h) (l2 := (g, e :: es) :: l) (P := matches) Hp) as (l' & Hl' & Hf').
  - constructor; [|done]. split; [done|]. by exists es.
  - exists l'. split; [by rewrite <-Hl', Hl|done].
Qed.

Lemma push_cursor_spec h pend g idx it es :
  holds h pend → yields it es →
  ∃ h', push_cursor h g idx it = Ok h' ∧ holds h' (rest_stream g es ++ pend).
Proof.
  intros Hh Hy. unfold push_cursor. destruct es as [|e es].
  - rewrite (yields_nil it Hy). by exists h.
  - destruct (yields_cons it e es Hy) as (-> & -> & _). cbn [mbind outcome_bind]. by apply holds_Push.
Qed.

(** One round takes the head of a stream that no other head precedes. *)
Lemma merge_pop_spec h pend :
  holds h pend → pend ≠ [] →
  ∃ g e es pend' h', merge_pop h = Ok (e, h') ∧ pend ≡ₚ (g, e :: es) :: pend' ∧
    holds h' (rest_stream g es ++ pend') ∧
    ∀ g' e' es', (g', e' :: es') ∈ pend' → klt (ekey e) (ekey e') ∨ (ekey e = ekey e' ∧ g' ≤ g).
Proof.
  intros (Hh & l & Hl & Hf) Hne.
  assert (h ≠ []) as Hhne.
  { intros ->. apply Forall2_nil_inv_l in Hf as ->. by apply Permutation_nil_l in Hl. }
  destruct (Pop_spec Less h Hh Hhne) as (x & h1 & Hpop & Hperm & Hh1 & Hmin).
  destruct (Permutation_Forall2 Hperm Hf) as (l1 & Hl1 & Hf1).
  apply Forall2_cons_inv_l in Hf1 as ([g es0] & pend' & (Hg & es & Hes & Hy) & Hf1 & ->). simpl in Hg, Hes. subst g es0.
  unfold merge_pop. rewrite Hpop. cbn [mbind outcome_bind].
  destruct (yields_cons _ _ _ Hy) as (_ & _ & it' & Hnext & Hy'). rewrite Hnext. cbn [mbind outcome_bind].
  assert (holds h1 pend') as Hh1' by (split; [done|by exists pend']).
  assert (∀ g' e' es', (g', e' :: es') ∈ pend' →
    klt (ekey (entry x)) (ekey e') ∨ (ekey (entry x) = ekey e' ∧ g' ≤ gen x)) as Hmin'.
  { intros g' e' es' Hin. apply list_elem_of_lookup in Hin as [i Hi].
    destruct (Forall2_lookup_r _ _ _ _ _ Hf1 Hi) as (y & Hyi & Hgy & esy & Hesy & _). simpl in Hgy, Hesy.
    injection Hesy as -> ->. subst g'.
    apply le_spec, Hmin. by eapply list_elem_of_lookup_2. }
  destruct es as [|e2 es].
  - exists (gen x), (entry x), [], pend', h1. cbn [app rest_stream]. split_and!; [done|by rewrite <-Hl, Hl1|done|done].
  - rewrite bool_decide_eq_true_2 by done. destruct (yields_cons _ _ _ Hy') as (_ & -> & _). cbn [mbind outcome_bind].
    destruct (holds_Push h1 pend' (gen x) e2 es (sstableIdx x) it' Hh1' Hy') as (h2 & -> & Hh2). cbn [mbind outcome_bind].
    exists (gen x), (entry x), (e2 :: es), pend', h2. split_and!; [done|by rewrite <-Hl, Hl1|done|done].
Qed.
End streams.

(** ** The merge *)
Definition streams_ok (pend : list stream) : Prop := ∀ g es, (g, es) ∈ pend → es ≠ [] ∧ esorted es.

(** No entry left is below the last key handled. *)
Definition above (last : option Key) (pend : list stream) : Prop :=
  ∀ kl g es e, last = Some kl → (g, es) ∈ pend → e ∈ es → ¬ klt (ekey e) kl.

(** The tombstone rule of a major compaction. *)
Definition keep (isMajor : bool) (es : list Entry) : list Entry :=
  filter (λ e, negb (eDeleted e && isMajor)) es.

Lemma is_newest_perm k pend pend' o : pend ≡ₚ pend' → is_newest k pend o → is_newest k pend' o.
Proof.
  intros Hp. destruct o as [e|]; simpl.
  - intros (g & es & Hin & He & Hmax). exists g, es. split_and!; [by rewrite <-Hp|done|].
    intros g' es' Hin'. apply Hmax. by rewrite Hp.
  - intros Hn g es Hin. apply (Hn g). by rewrite Hp.
Qed.

Lemma elem_rest_stream g es g' es' : (g', es') ∈ rest_stream g es ↔ g' = g ∧ es' = es ∧ es ≠ [].
Proof. destruct es; simpl; [set_solver|]. rewrite list_elem_of_singleton. naive_solver. Qed.

(** Taking an entry with another key changes nothing for [k]. *)
Lemma is_newest_skip k g e es pend o :
  ekey e ≠ k → is_newest k (rest_stream g es ++ pend) o → is_newest k ((g, e :: es) :: pend) o.
Proof.
  intros Hne.
  assert (first_entry k (e :: es) = first_entry k es) as Hfe by (cbn [first_entry]; by rewrite decide_False).
  destruct o as [x|]; cbn [is_newest].
  - intros (g1 & es1 & Hin & Hx & Hmax). apply elem_of_app in Hin as [(-> & -> & Hes)%elem_rest_stream|Hin].
    + exists g, (e :: es). split_and!; [left|by rewrite Hfe|].
      intros g' es' [[= -> ->]|Hin']%elem_of_cons; [lia|]. intros Hn. apply (Hmax g' es'); [|done].
      apply elem_of_app. by right.
    + exists g1, es1. split_and!; [by right|done|].
      intros g' es' [[= -> ->]|Hin']%elem_of_cons Hn.
      * rewrite Hfe in Hn. apply (Hmax g es); [|done]. apply elem_of_app. left. apply elem_rest_stream.
        split_and!; [done..|]. by intros ->.
      * apply (Hmax g' es'); [|done]. apply elem_of_app. by right.
  - intros Hn g' es' [[= -> ->]|Hin']%elem_of_cons.
    + rewrite Hfe. destruct es as [|e2 es]; [done|]. apply (Hn g). apply elem_of_app. left. by apply elem_rest_stream.
    + apply (Hn g'). apply elem_of_app. by right.
Qed.

(** The popped entry is the newest with its key. *)
Lemma is_newest_hit g e es pend :
  streams_ok pend →
  (∀ g' e' es', (g', e' :: es') ∈ pend → klt (ekey e) (ekey e') ∨ (ekey e = ekey e' ∧ g' ≤ g)) →
  is_newest (ekey e) ((g, e :: es) :: pend) (Some e).
Proof.
  intros Hok Hmin. exists g, (e :: es). split_and!; [left|cbn [first_entry]; by rewrite decide_True|].
  intros g' es' [[= -> ->]|Hin]%elem_of_cons; [lia|]. intros Hn.
  destruct (Hok _ _ Hin) as [Hne Hs]. destruct es' as [|e' es']; [done|].
  destruct (Hmin _ _ _ Hin) as [Hlt|[_ ?]]; [|done]. destruct Hn.
  apply first_entry_None. intros x [->|Hx]%elem_of_cons E.
  - rewrite E in Hlt. by apply klt_not_refl in Hlt.
  - apply (esorted_app [e'] es') in Hs as (_ & _ & Hall).
    specialize (Hall e' x ltac:(left) Hx). rewrite E in Hall. by apply (klt_asym _ _ Hlt).
Qed.

Lemma streams_ok_pop g e es pend :
  streams_ok ((g, e :: es) :: pend) → streams_ok (rest_stream g es ++ pend).
Proof.
  intros Hok g' es' [(-> & -> & Hne)%elem_rest_stream|Hin]%elem_of_app; [|apply (Hok g'); by right].
  split; [done|]. destruct (Hok g (e :: es) ltac:(left)) as [_ Hs].
  by apply (esorted_app [e] es) in Hs as (_ & ? & _).
Qed.

(** Every entry left is at or above the key popped. *)
Lemma above_pop g e es pend :
  streams_ok ((g, e :: es) :: pend) →
  (∀ g' e' es', (g', e' :: es') ∈ pend → klt (ekey e) (ekey e') ∨ (ekey e = ekey e' ∧ g' ≤ g)) →
  above (Some (ekey e)) (rest_stream g es ++ pend).
Proof.
  intros Hok Hmin kl g' es' x [= <-] Hin Hx.
  apply elem_of_app in Hin as [(-> & -> & Hne)%elem_rest_stream|Hin].
  - destruct (Hok g (e :: es) ltac:(left)) as [_ Hs]. apply (esorted_app [e] es) in Hs as (_ & _ & Hall).
    apply klt_asym, Hall; [left|done].
  - destruct (Hok g' es' ltac:(by right)) as [Hne Hs]. destruct es' as [|e' es']; [done|].
    assert (¬ klt (ekey e') (ekey e)) as He'.
    { destruct (Hmin _ _ _ Hin) as [?|[-> _]]; [by apply klt_asym|apply klt_not_refl]. }
    apply elem_of_cons in Hx as [->|Hx]; [done|].
    apply (esorted_app [e'] es') in Hs as (_ & _ & Hall). specialize (Hall e' x ltac:(left) Hx).
    intros Hlt. apply He'. by trans (ekey x).
Qed.

Lemma total_perm pend pend' : pend ≡ₚ pend' → total pend = total pend'.
Proof. intros Hp. unfold total. by rewrite Hp. Qed.

Lemma total_app pend pend' : total (pend ++ pend') = (total pend + total pend')%nat.
Proof. unfold total. by rewrite sum_list_with_app. Qed.

Lemma total_rest g es : total (rest_stream g es) = length es.
Proof. destruct es; [done|]. unfold total. simpl. lia. Qed.

Lemma same_key_spec last e : same_key last e = true ↔ last = Some (ekey e).
Proof.
  unfold same_key, ekey. destruct last as [[s t]|]; [|by split]. cbn [SeriesID Timestamp].
  rewrite andb_true_iff, !Z.eqb_eq. split; [by intros [-> ->]|by intros [= -> ->]].
Qed.

Section merge_loop.
Context {C : Type} `{Cursor C}.

(** What the loop emits, before the tombstone rule: sorted, each entry from a stream, each
    key at most once, and for every key the entry of the newest generation. *)
Definition merged (last : option Key) (pend : list stream) (L : list Entry) : Prop :=
  esorted L ∧
  (∀ e, e ∈ L → ∃ g es, (g, es) ∈ pend ∧ e ∈ es) ∧
  (∀ kl e, last = Some kl → e ∈ L → klt kl (ekey e)) ∧
  ∀ k, (∀ kl, last = Some kl → klt kl k) → is_newest k pend (first_entry k L).

Lemma merged_skip kl g e es pend L :
  kl = ekey e → merged (Some kl) (rest_stream g es ++ pend) L → merged (Some kl) ((g, e :: es) :: pend) L.
Proof.
  intros -> (Hs & Hin & Hlast & Hnew). split_and!; [done| |done|].
  - intros x Hx. destruct (Hin x Hx) as (g' & es' & [(-> & -> & _)%elem_rest_stream|Hp]%elem_of_app & Hxe).
    + exists g, (e :: es). split; [left|by right].
    + exists g', es'. split; [by right|done].
  - intros k Hk. apply is_newest_skip; [|by apply Hnew].
    intros <-. by apply (klt_not_refl (ekey e)), Hk.
Qed.

Lemma merged_emit last g e es pend L :
  streams_ok ((g, e :: es) :: pend) →
  (∀ g' e' es', (g', e' :: es') ∈ pend → klt (ekey e) (ekey e') ∨ (ekey e = ekey e' ∧ g' ≤ g)) →
  (∀ kl, last = Some kl → klt kl (ekey e)) →
  merged (Some (ekey e)) (rest_stream g es ++ pend) L → merged last ((g, e :: es) :: pend) (e :: L).
Proof.
  intros Hok Hmin Hlt (Hs & Hin & Hlast & Hnew). split_and!.
  - apply (esorted_app [e] L). split_and!; [repeat constructor|done|].
    intros a b ->%list_elem_of_singleton Hb. by apply Hlast.
  - intros x [->|Hx]%elem_of_cons; [exists g, (e :: es); split; left|].
    destruct (Hin x Hx) as (g' & es' & [(-> & -> & _)%elem_rest_stream|Hp]%elem_of_app & Hxe).
    + exists g, (e :: es). split; [left|by right].
    + exists g', es'. split; [by right|done].
  - intros kl x Hl [->|Hx]%elem_of_cons; [by apply Hlt|]. trans (ekey e); [by apply Hlt|by apply Hlast].
  - intros k Hk. cbn [first_entry]. case_decide as E.
    + subst k. apply is_newest_hit; [|done]. intros g' es' Hp. apply (Hok g'). by right.
    + destruct (klt_trichotomy (ekey e) k) as [Hek|[?|Hke]]; [|done|].
      * apply is_newest_skip; [done|]. apply Hnew. by intros kl [= <-].
      * assert (∀ l g', (g', l) ∈ (g, e :: es) :: pend → first_entry k l = None) as Hnone.
        { intros l g' Hl. apply first_entry_None. intros x Hx Exk.
          assert (¬ klt (ekey x) (ekey e)) as Hnx.
          { apply elem_of_cons in Hl as [[= -> ->]|Hl].
            - apply elem_of_cons in Hx as [->|Hx]; [apply klt_not_refl|].
              apply (above_pop _ _ _ _ Hok Hmin _ g es x eq_refl); [|done].
              apply elem_of_app. left. apply elem_rest_stream. split_and!; [done..|]. intros ->. by apply not_elem_of_nil in Hx.
            - apply (above_pop _ _ _ _ Hok Hmin _ g' l x eq_refl); [|done]. apply elem_of_app. by right. }
          apply Hnx. by rewrite Exk. }
        rewrite first_entry_None; [intros g' l Hl; by apply (Hnone l g')|].
        intros x Hx <-. specialize (Hlast _ _ eq_refl Hx). by apply (klt_asym _ _ Hke).
Qed.

Lemma merge_loop_spec fuel h pend last isMajor :
  holds h pend → streams_ok pend → above last pend → (total pend < fuel)%nat →
  ∃ L, merge_loop fuel h last isMajor = Ok (keep isMajor L) ∧ merged last pend L.
Proof.
  revert h pend last. induction fuel as [|fuel IH]; intros h pend last Hh Hok Habove Hfuel; [lia|].
  cbn [merge_loop]. destruct (decide (pend = [])) as [->|Hne].
  { destruct Hh as (_ & l & Hl & Hf). apply Permutation_nil_r in Hl as ->. apply Forall2_nil_inv_r in Hf as ->.
    exists []. split; [done|]. split_and!; [constructor|set_solver|set_solver|]. intros k _ g es Hin. set_solver. }
  destruct (merge_pop_spec h pend Hh Hne) as (g & e & es & pend' & h' & Hpop & Hp & Hh' & Hmin).
  destruct h as [|i h]; [by unfold merge_pop in Hpop|]. rewrite Hpop. cbn [mbind outcome_bind].
  assert (streams_ok ((g, e :: es) :: pend')) as Hok' by (intros g' es' Hin; apply (Hok g'); by rewrite Hp).
  pose proof (streams_ok_pop _ _ _ _ Hok') as Hok1. pose proof (above_pop _ _ _ _ Hok' Hmin) as Habove1.
  assert (total (rest_stream g es ++ pend') < fuel)%nat as Hf1.
  { rewrite (total_perm _ _ Hp) in Hfuel. rewrite total_app, total_rest. unfold total in *. simpl in *. lia. }
  assert (∀ last' L, merged last' ((g, e :: es) :: pend') L → merged last' pend L) as Hmp.
  { intros last' L (Ha & Hb & Hc & Hd). split_and!; [done| |done|].
    - intros x Hx. destruct (Hb x Hx) as (g' & es' & Hin & ?). exists g', es'. by rewrite Hp.
    - intros k Hk. eapply is_newest_perm; [by symmetry|by apply Hd]. }
  destruct (same_key last e) eqn:Esk.
  - apply same_key_spec in Esk as ->.
    destruct (IH h' _ (Some (ekey e)) Hh' Hok1 Habove1 Hf1) as (L & HL & Hm). exists L. split; [exact HL|].
    by apply Hmp, merged_skip.
  - destruct (IH h' _ (Some (ekey e)) Hh' Hok1 Habove1 Hf1) as (L & HL & Hm).
    change (mkKey (eSeriesID e) (eTimestamp e)) with (ekey e). rewrite HL. cbn [mbind outcome_bind].
    exists (e :: L). split.
    + f_equal. unfold keep. rewrite filter_cons. by destruct (eDeleted e && isMajor).
    + apply Hmp, merged_emit; [done..| |done]. intros kl ->.
      destruct (not_klt_cases (ekey e) kl) as [E|?]; [|  |done].
      * apply (Habove kl g (e :: es) e eq_refl); [rewrite Hp; left|left].
      * rewrite <-E in Esk. by rewrite (proj2 (same_key_spec _ _) eq_refl) in Esk.
Qed.
End merge_loop.

(** ** The tables merged *)
Section tables.
Context `{Snappy, Hash128}.

(** The streams of a list of tables: those with entries. *)
Definition streams (tabs : list stream) : list stream := filter (λ s, s.2 ≠ []) tabs.

(** What the compactor sees of a table: the entries its iterator yields, which is all of
    them when every block can be read; nothing of a closed table. *)
Definition table_stream (t : Z * option Reader) (s : stream) : Prop :=
  t.1 = s.1 ∧ match t.2 with
              | None => s.2 = []
              | Some r => ∃ it, Reader_Iterator r = Ok it ∧ table_yields it s.2
              end.

Lemma readable_stream g r es : readable r es → table_stream (g, Some r) (g, es).
Proof. intros Hr. split; [done|]. by apply iterator_readable. Qed.

Lemma push_tables_spec idx tables tabs h pend :
  Forall2 table_stream tables tabs → holds h pend →
  ∃ h', push_tables idx tables h = Ok h' ∧ holds h' (streams tabs ++ pend).
Proof.
  intros Ht. revert idx h pend. induction Ht as [|[g o] [g' es] tables tabs (Hg & Hr) Ht IH]; intros idx h pend Hh.
  { by exists h. }
  simpl in Hg, Hr. subst g'. cbn [push_tables]. destruct o as [r|].
  2: { subst es. cbn [mbind outcome_bind]. destruct (IH (idx + 1) h _ Hh) as (h2 & -> & Hh2). by exists h2. }
  destruct Hr as (it & -> & Hy). cbn [mbind outcome_bind].
  destruct (push_cursor_spec h pend g idx it es Hh Hy) as (h1 & -> & Hh1). cbn [mbind outcome_bind].
  destruct (IH (idx + 1) h1 _ Hh1) as (h2 & -> & Hh2). exists h2. split; [done|].
  eapply holds_perm; [|exact Hh2]. unfold streams. rewrite filter_cons. cbn [snd].
  destruct es as [|e es]; case_decide; try done; cbn [rest_stream app].
  by rewrite <-Permutation_middle.
Qed.

Lemma holds_nil {C} `{Cursor C} : holds (@nil (heapItem C)) [].
Proof. split; [intros j Hj; simpl in Hj; lia|]. by exists []. Qed.

Lemma streams_sorted tabs : (∀ g es, (g, es) ∈ tabs → esorted es) → streams_ok (streams tabs).
Proof. intros Hs g es [Hne Hin]%list_elem_of_filter. split; [done|by apply (Hs g)]. Qed.

Lemma is_newest_streams k tabs o : is_newest k (streams tabs) o ↔ is_newest k tabs o.
Proof.
  assert (∀ g es, (g, es) ∈ tabs → first_entry k es ≠ None → (g, es) ∈ streams tabs) as Hin.
  { intros g es Hin Hn. apply list_elem_of_filter. split; [|done]. by destruct es. }
  destruct o as [e|]; simpl.
  - split; intros (g & es & Hp & He & Hmax); exists g, es.
    + apply list_elem_of_filter in Hp as [_ Hp]. split_and!; [done|done|]. intros g' es' Hp' Hn. apply (Hmax g' es'); auto.
    + split_and!; [apply Hin; [done|congruence]|done|]. intros g' es' [_ Hp']%list_elem_of_filter. by apply Hmax.
  - split; intros Hn g es Hp.
    + destruct (first_entry k es) eqn:E; [|done]. rewrite <-E. apply (Hn g), Hin; [done|congruence].
    + apply list_elem_of_filter in Hp as [_ Hp]. by apply (Hn g).
Qed.

(** The writing loop is the merge loop followed by the additions. *)
Lemma compact_loop_eq {C} `{Cursor C} fuel (h : list (heapItem C)) last isMajor n out s :
  merge_loop fuel h last isMajor = Ok out →
  compact_loop fuel h last isMajor n s = (add_entries out;; mret (n + zlen out)) s.
Proof.
  revert h last n out s. induction fuel as [|fuel IH]; intros h last n out s Hm; [done|]. cbn [merge_loop compact_loop] in *.
  destruct h as [|i h]; [simplify_eq; change (zlen []) with 0; by rewrite Z.add_0_r|].
  apply outcome_bind_Ok in Hm as ([e h1] & Hpop & Hm). rewrite Hpop.
  rewrite (bind_Ok _ _ s (e, h1) s) by done. destruct (same_key last e); [by apply IH|].
  apply outcome_bind_Ok in Hm as (rest & Hrest & Hm). injection Hm as <-.
  destruct (eDeleted e && isMajor); [by apply IH|]. cbn [add_entries].
  assert (∀ (m : M (Writer * world) unit) (f g : M (Writer * world) Z) s,
    (∀ s, f s = g s) → (m;; f) s = (m;; g) s) as Hext.
  { intros m f g s0 Hfg. unfold mbind, M_bind. destruct (m s0) as [[] s1]; auto. }
  transitivity ((Add e;; (add_entries rest;; mret (n + 1 + zlen rest))) s).
  { apply Hext. intros s1. by apply IH. }
  rewrite zlen_cons. replace (n + 1 + zlen rest) with (n + (1 + zlen rest)) by lia.
  unfold mbind, M_bind. by destruct (Add e s) as [[] s1].
Qed.
End tables.

(** ** The compaction *)
Section compaction.
Context `{Snappy, Hash128}.

(** The tables a compaction can merge: what they yield is sorted, and small enough for no counter of the
    writer to wrap. *)
Record compactable (tabs : list stream) (opts : CompactorOptions) (wd : world) : Prop := {
  cp_sorted : ∀ g es, (g, es) ∈ tabs → esorted es;
  cp_small : ∀ g es, (g, es) ∈ tabs → Forall small_entry es;
  cp_total : Z.of_nat (total tabs) < 2^30;
  cp_filters : filters_ok (Z.of_nat (total tabs));
  cp_block : BlockSize opts < 2^31;
  cp_file : files wd !! OutputPath opts ≠ Some Dir;
  cp_dir : pdir (OutputPath opts) ∈ dirs wd
}.

(** The result of a compaction whose output is [out]: no table and no new file, or an
    fsynced file and a reader of it. *)
Definition compacted (opts : CompactorOptions) (out : list Entry) (r : option (path * Z * Reader)) (wd wd' : world) : Prop :=
  match r with
  | None => out = [] ∧ (files wd' = files wd ∨ files wd' !! OutputPath opts = None)
  | Some (p, g, reader) => p = OutputPath opts ∧ g = TargetGen opts ∧ readable reader out ∧ out ≠ [] ∧
      ∃ data, files wd' !! OutputPath opts = Some (File data (length data)) ∧ readFooter data = Ok reader
  end.

Lemma total_concat tabs : total tabs = length (concat (snd <$> tabs)).
Proof.
  unfold total. induction tabs as [|[g es] tabs IH]; [done|].
  rewrite fmap_cons. cbn [concat sum_list_with]. by rewrite length_app, IH.
Qed.

Lemma esorted_NoDup es : esorted es → NoDup es.
Proof.
  unfold esorted. intros Hs. apply (NoDup_fmap_1 ekey). induction Hs as [|k ks Hs IH Hall]; [constructor|].
  constructor; [|done]. intros Hin. rewrite Forall_forall in Hall. by apply (klt_not_refl k), Hall.
Qed.

Lemma merged_bounds last tabs L :
  merged last tabs L → (∀ g es, (g, es) ∈ tabs → Forall small_entry es) →
  (length L ≤ total tabs)%nat ∧ Forall small_entry L.
Proof.
  intros (Hs & Hin & _) Hsmall. split.
  - rewrite total_concat. apply submseteq_length, NoDup_submseteq; [by apply esorted_NoDup|].
    intros e (g & es & Ht & He)%Hin. apply elem_of_concat. exists es. split; [done|].
    by apply (list_elem_of_fmap_2 snd _ (g, es)).
  - apply Forall_forall. intros e (g & es & Ht & He)%Hin. specialize (Hsmall _ _ Ht).
    rewrite Forall_forall in Hsmall. auto.
Qed.

Lemma keep_length isMajor L : (length (keep isMajor L) ≤ length L)%nat.
Proof. apply length_filter. Qed.

Lemma keep_Forall (P : Entry → Prop) isMajor L : Forall P L → Forall P (keep isMajor L).
Proof. rewrite !Forall_forall. by intros Hall x [_ ?]%list_elem_of_filter; auto. Qed.

Lemma esorted_filter (P : Entry → Prop) `{!∀ e, Decision (P e)} L : esorted L → esorted (filter P L).
Proof.
  unfold esorted. intros Hs. induction L as [|e L IH]; [constructor|]. rewrite filter_cons.
  rewrite fmap_cons in Hs. apply StronglySorted_inv in Hs as [Hs Hall]. case_decide; [|by apply IH].
  rewrite fmap_cons. constructor; [by apply IH|]. rewrite Forall_forall in *.
  intros k (x & -> & [_ Hx]%list_elem_of_filter)%list_elem_of_fmap. by apply Hall, list_elem_of_fmap_2.
Qed.

Lemma keep_esorted isMajor L : esorted L → esorted (keep isMajor L).
Proof. apply esorted_filter. Qed.

Lemma total_streams tabs : total (streams tabs) = total tabs.
Proof.
  unfold total, streams. induction tabs as [|[g es] tabs IH]; [done|]. rewrite filter_cons.
  case_decide as E; cbn [sum_list_with snd] in *; rewrite IH; [done|].
  by rewrite E.
Qed.

(** The writing half, from a heap that holds the streams of the tables. *)
Lemma wp_write_merged fuel (h : list (heapItem Iterator)) out p bs w wd (Q : outcome Z → Writer * world → Prop) N isMajor :
  merge_loop fuel h None isMajor = Ok out → filters_ok N → N < 2^30 → zlen out ≤ N →
  writing p bs [] [] w wd → Forall small_entry out → bs < 2^31 →
  (∀ w' wd' bss' b, table_ok bss' b out → only p wd wd' →
     files wd' !! p = Some (File (table_bytes bs bss' b) (length (table_bytes bs bss' b))) →
     Q (Ok (zlen out)) (w', wd')) →
  (∀ e w' wd', sane N p w' wd' → only p wd wd' → ¬ quiet wd → Q (Err e) (w', wd')) →
  wp (n ← compact_loop fuel h None isMajor 0; Close;; mret n) Q (w, wd).
Proof.
  intros Hm Hfil HN Hn Hw Hsm Hbs Hok Herr. wstep. unfold wp at 1. rewrite (compact_loop_eq _ _ _ _ _ _ _ Hm).
  apply wp_bind. eapply (wp_add_entries N HN p bs out); [done|done|done|done| |].
  - intros w2 wd2 bss2 cur2 Hw2 Hc Ho2. cbv beta iota. wstep. wstep. simpl in Hc.
    eapply (wp_Close_table N HN); [done|by rewrite Hc| | |].
    + rewrite Hc. apply Hfil. split; [apply zlen_nonneg|done].
    + intros w3 wd3 bss3 b Htb Ho3 Hf. cbv beta iota. wsteps. rewrite Hc in Htb.
      apply (Hok _ _ bss3 b); [done|only_step Ho2|done].
    + intros e w3 wd3 Hf Ho3 Hq. cbv beta iota. apply Herr; [done|only_step Ho2|by apply (only_not_quiet _ _ _ Ho2)].
  - intros e w2 wd2 Hf Ho2 Hq. cbv beta iota. by apply Herr.
Qed.

(** The deferred clean-up after a failed write. *)
Lemma wp_cleanup N p w wd e (Q : outcome Z → Writer * world → Prop) :
  sane N p w wd → filters_ok N → N < 2^30 →
  (∀ w' wd', only p wd wd' → Q (Err (ErrCompact e)) (w', wd')) →
  wp (try Close;; try (on_snd (os_Remove p));; fail (ErrCompact e)) Q (w, wd).
Proof.
  intros Hs Hf HN HQ. wstep. wstep. eapply wp_mono; [by apply (wp_Close_settled N)|].
  intros r [w1 wd1] (Hfu & Hpa & Ho1 & _). cbn [snd] in Ho1.
  assert (wp (try (on_snd (os_Remove p));; fail (ErrCompact e)) Q (w1, wd1)) as Hrm.
  { wsteps. apply wp_os_Remove_any.
    - intros r2 wd2 Ho2 Hr _. destruct Hr as [-> | ->]; cbv beta iota; wsteps; apply HQ; only_step Ho1.
    - intros wd2 Ho2 _. cbv beta iota. wsteps. apply HQ. only_step Ho1. }
  destruct r as [[]|e'|e'|]; [done|done|by destruct (Hpa e')|by destruct Hfu].
Qed.

Lemma merged_nil_heap (h : list (heapItem Iterator)) tabs : holds h tabs → h = [] → tabs = [].
Proof. intros (_ & l & Hl & Hf) ->. apply Forall2_nil_inv_l in Hf as ->. by apply Permutation_nil_l in Hl. Qed.

(** Opening a finished file: the reader, or a failed call. *)
Lemma wp_OpenReader_written bs bss b es p wd sy (Q : outcome Reader → world → Prop) :
  table_ok bss b es → files wd !! p = Some (File (table_bytes bs bss b) sy) →
  (∀ wd', evolves wd (files wd) wd' →
     Q (Ok (mkReader (table_bytes bs bss b) (index_of 12 bss) (zlen es) (Some b))) wd') →
  (∀ e wd', evolves wd (files wd) wd' → ¬ quiet wd → Q (Err e) wd') →
  wp (OpenReader p) Q wd.
Proof.
  intros Htb Hp Hok Herr. unfold OpenReader. wstep. eapply wp_Open; [exact Hp| |].
  2: { intros wd1 He Hq. cbv beta iota. by apply Herr. }
  intros wd1 He1. cbv beta iota. wsteps. apply wp_syscall.
  - intros wd2 He2. wsteps. rewrite (readFooter_written _ _ _ _ Htb). cbv beta iota. wsteps. apply Hok.
    rewrite (evolves_files _ _ _ He1) in He2. by eapply evolves_trans.
  - intros wd2 He2 Hq2. cbv beta iota. rewrite (evolves_files _ _ _ He1) in He2.
    assert (evolves wd (files wd) wd2) as He by by eapply evolves_trans.
    pose proof (evolves_not_quiet _ _ _ He1 Hq2) as Hq.
    wsteps. apply wp_Close.
    + intros wd3 He3. cbv beta iota. wsteps. apply Herr; [|done].
      rewrite (evolves_files _ _ _ He) in He3. by eapply evolves_trans.
    + intros wd3 He3 Hq3. cbv beta iota. wsteps. apply Herr; [|done].
      rewrite (evolves_files _ _ _ He) in He3. by eapply evolves_trans.
Qed.

(** After the last write: nothing is kept of an empty output, a reader is opened otherwise. *)
Lemma wp_CompactSSTables fuel tables tabs opts wd (Q : outcome (option (path * Z * Reader)) → world → Prop) :
  Forall2 table_stream tables tabs → compactable tabs opts wd → (total tabs < fuel)%nat →
  (∀ L r wd', merged None tabs L → only (OutputPath opts) wd wd' →
     compacted opts (keep (IsMajor opts) L) r wd wd' → Q (Ok r) wd') →
  (∀ e wd', only (OutputPath opts) wd wd' → ¬ quiet wd → Q (Err e) wd') →
  wp (CompactSSTables fuel tables opts) Q wd.
Proof.
  intros Htabs [Hsorted Hsmall Htotal Hfilters Hbs Hfile Hdir] Hfuel Hok Herr.
  assert (only (OutputPath opts) wd wd) as Hrefl by by split_and!.
  assert (∀ L, merged None (streams tabs) L → merged None tabs L) as Hstreams.
  { intros L (Hs & Hin & Hlast & Hnew). split_and!; [done| |done|].
    - intros e (g & es & [_ ?]%list_elem_of_filter & ?)%Hin. by exists g, es.
    - intros k Hk. by apply is_newest_streams, Hnew. }
  assert (streams tabs = [] → Q (Ok None) wd) as Hempty.
  { intros Hst. apply (Hok []); [apply Hstreams|done|by split; [|left]]. rewrite Hst.
    split_and!; [constructor|set_solver|set_solver|]. intros k _ g es Hin. by apply not_elem_of_nil in Hin. }
  unfold CompactSSTables. destruct tables as [|t tables].
  { apply Forall2_nil_inv_l in Htabs as ->. wsteps. by apply Hempty. }
  set (ts := t :: tables) in *. set (opts' := set_default_block opts).
  assert (OutputPath opts' = OutputPath opts ∧ IsMajor opts' = IsMajor opts ∧ TargetGen opts' = TargetGen opts ∧
    BlockSize opts' < 2^31) as (Ep & Em & Eg & Hbs').
  { unfold opts', set_default_block, DefaultBlockSize. by destruct (BlockSize opts =? 0). }
  destruct (push_tables_spec 0 ts tabs [] [] Htabs holds_nil) as (h & Hh & Hholds). rewrite app_nil_r in Hholds.
  wsteps. rewrite Hh. cbv beta iota. destruct h as [|i h]; [wsteps; by apply Hempty, (merged_nil_heap [])|].
  set (hp := i :: h) in *. rewrite Ep, Em, Eg.
  destruct (merge_loop_spec fuel hp (streams tabs) None (IsMajor opts) Hholds) as (L & HL & Hm);
    [by apply streams_sorted|done|by rewrite total_streams|].
  apply Hstreams in Hm. destruct (merged_bounds None tabs L Hm Hsmall) as [Hlen HsmL].
  set (out := keep (IsMajor opts) L) in *.
  assert (zlen out ≤ Z.of_nat (total tabs)) as Hlo by (pose proof (keep_length (IsMajor opts) L); unfold zlen, out; lia).
  wsteps. apply wp_NewWriter; [done|done| |].
  2: { intros e wd1 Ho Hq. cbv beta iota. wsteps. by apply Herr. }
  intros w wd1 Hw Ho1. cbv beta iota. do 4 wstep.
  eapply (wp_write_merged fuel hp out (OutputPath opts) (BlockSize opts') _ _ _ (Z.of_nat (total tabs)));
    [done|done|done|done|exact Hw|by apply keep_Forall|done| |].
  2: { intros e w2 wd2 Hs Ho2 Hq2. cbv beta iota. eapply wp_cleanup; [exact Hs|done|done|].
       intros w3 wd3 Ho3. cbv beta iota. assert (only (OutputPath opts) wd wd2) as Ho12 by only_step Ho1.
       apply Herr; [only_step Ho12|by apply (only_not_quiet _ _ _ Ho1)]. }
  intros w2 wd2 bss b Htb Ho2 Hf. cbv beta iota. wsteps.
  assert (only (OutputPath opts) wd wd2) as Ho12 by only_step Ho1.
  destruct (Z.eqb_spec (zlen out) 0) as [Hz|Hz].
  - wsteps. apply wp_os_Remove_any; [intros r wd3 Ho3 Hr Hgone|intros wd3 Ho3 Hq3].
    + assert (Q (Ok None) wd3) as HQ.
      { apply (Hok L); [done|only_step Ho12|]. split; [|by right]. by apply length_zero_iff_nil_zlen. }
      destruct Hr as [-> | ->]; cbv beta iota; wsteps; exact HQ.
    + cbv beta iota. wsteps. apply Herr; [only_step Ho12|by apply (only_not_quiet _ _ _ Ho12)].
  - wsteps. eapply wp_OpenReader_written; [exact Htb|exact Hf| |].
    + intros wd3 He3. cbv beta iota. wsteps. apply (Hok L); [done|only_step Ho12|].
      split_and!; [done|done|by apply written_readable|by intros E; fold out in E; rewrite E in Hz|].
      exists (table_bytes (BlockSize opts') bss b). rewrite (evolves_files _ _ _ He3). split; [done|].
      by rewrite (readFooter_written _ _ _ _ Htb).
    + intros e wd3 He3 Hq3. cbv beta iota. wsteps. assert (only (OutputPath opts) wd wd3) as Ho13 by only_step Ho12.
      pose proof (only_not_quiet _ _ _ Ho12 Hq3) as Hq. apply wp_os_Remove_any.
      * intros r wd4 Ho4 Hr _. destruct Hr as [-> | ->]; cbv beta iota; wsteps; apply Herr; [only_step Ho13|done|only_step Ho13|done].
      * intros wd4 Ho4 _. cbv beta iota. wsteps. apply Herr; [only_step Ho13|done].
Qed.

(** ** Lookups through a list of tables, newest first: the loop of [Wisp.Get] *)
Fixpoint Get_tables (tables : list (Z * option Reader)) (sid ts : Z) : outcome (bytes * bool * bool) :=
  match tables with
  | [] => Ok ([], false, false)
  | (_, None) :: _ => Panic NilDereference
  | (_, Some r) :: tables' =>
      '(value, found, deleted) ← Reader.Get r sid ts;
      if (deleted : bool) then Ok ([], false, true)
      else if (found : bool) then Ok (value, true, false)
      else Get_tables tables' sid ts
  end.

(** Open tables that hold the entries listed. *)
Definition readable_table (t : Z * option Reader) (s : stream) : Prop :=
  t.1 = s.1 ∧ ∃ r, t.2 = Some r ∧ readable r s.2 ∧ esorted s.2.

Lemma Get_tables_spec tables tabs sid ts :
  Forall2 readable_table tables tabs →
  Get_tables tables sid ts = Ok (get_result (first_entry (mkKey sid ts) (concat (snd <$> tabs)))).
Proof.
  induction 1 as [|[g o] [g' es] tables tabs (_ & r & Hr & Hread & Hs) Ht IH]; [done|].
  simpl in Hr, Hread, Hs. subst o. cbn [Get_tables]. rewrite (Get_spec r es sid ts Hread Hs). cbn [mbind outcome_bind].
  rewrite fmap_cons. cbn [concat snd]. rewrite first_entry_app.
  destruct (first_entry (mkKey sid ts) es) as [e|]; cbn [get_result]; [by destruct (eDeleted e)|exact IH].
Qed.

(** In a list of tables ordered by generation the newest entry is the first one. *)
Lemma newest_first k tabs o :
  StronglySorted Z.gt (fst <$> tabs) → is_newest k tabs o → o = first_entry k (concat (snd <$> tabs)).
Proof.
  intros Hs. induction tabs as [|[g es] tabs IH]; rewrite ?fmap_cons in *; cbn [concat fst snd] in *.
  { destruct o as [e|]; [|done]. intros (g & es & Hin & _). by apply not_elem_of_nil in Hin. }
  apply StronglySorted_inv in Hs as [Hs Hall]. rewrite Forall_forall in Hall. rewrite first_entry_app.
  assert (∀ g' es', (g', es') ∈ tabs → g' < g) as Hlt.
  { intros g' es' Hin. apply Z.gt_lt, Hall. by apply (list_elem_of_fmap_2 fst _ (g', es')). }
  intros Hn. destruct (first_entry k es) as [e'|] eqn:E.
  - destruct o as [e|]; [|by rewrite (Hn g es ltac:(left)) in E].
    destruct Hn as (g1 & es1 & [[= -> ->]|Hin]%elem_of_cons & He & Hmax); [congruence|].
    specialize (Hmax g es ltac:(left) ltac:(by rewrite E)). specialize (Hlt _ _ Hin). lia.
  - apply IH; [done|]. destruct o as [e|].
    + destruct Hn as (g1 & es1 & [[= -> ->]|Hin]%elem_of_cons & He & Hmax); [congruence|].
      exists g1, es1. split_and!; [done|done|]. intros g' es' Hin'. apply Hmax. by right.
    + intros g' es' Hin. apply (Hn g'). by right.
Qed.

(** The tombstone rule on lookups. *)
Lemma first_entry_keep isMajor k L :
  esorted L → first_entry k (keep isMajor L) =
    match first_entry k L with Some e => if eDeleted e && isMajor then None else Some e | None => None end.
Proof.
  unfold keep. intros Hs. induction L as [|e L IH]; [done|]. rewrite filter_cons. cbn [first_entry].
  pose proof Hs as Hs1. apply (esorted_app [e] L) in Hs1 as (_ & HsL & Hlt). specialize (IH HsL).
  destruct (eDeleted e && isMajor) eqn:E; cbn [negb Is_true]; [rewrite decide_False by tauto|rewrite decide_True by done].
  - rewrite IH. case_decide as Ek; [|done]. rewrite first_entry_None; [by rewrite E|].
    intros x Hx Exk. specialize (Hlt e x ltac:(left) Hx). rewrite Ek, Exk in Hlt. by apply klt_not_refl in Hlt.
  - cbn [first_entry]. case_decide; [by rewrite E|done].
Qed.

Lemma readable_streams tables tabs :
  Forall2 readable_table tables tabs →
  Forall2 table_stream tables tabs ∧ ∀ g es, (g, es) ∈ tabs → esorted es.
Proof.
  intros Ht. split.
  - eapply Forall2_impl; [exact Ht|]. intros [g o] [g' es] (Hg & r & Hr & Hread & _). simpl in *. subst.
    by apply readable_stream.
  - intros g es [i Hi]%list_elem_of_lookup. destruct (Forall2_lookup_r _ _ _ _ _ Ht Hi) as (t & _ & _ & r & _ & _ & Hs). done.
Qed.

(** The table a compaction leaves in the list. *)
Definition output_tables (r : option (path * Z * Reader)) : list (Z * option Reader) :=
  match r with None => [] | Some (_, g, reader) => [(g, Some reader)] end.

(** The deleted flag of an answer, dropped by a major compaction. *)
Definition after_compaction (isMajor : bool) (o : outcome (bytes * bool * bool)) : outcome (bytes * bool * bool) :=
  '(value, found, deleted) ← o; Ok (value, found, deleted && negb isMajor).

(** The lookups of a merged output. *)
Lemma compacted_lookups isMajor tabs L r sid ts :
  merged None tabs L → StronglySorted Z.gt (fst <$> tabs) →
  match r with None => keep isMajor L = [] | Some (_, _, reader) => readable reader (keep isMajor L) end →
  Get_tables (output_tables r) sid ts =
    after_compaction isMajor (Ok (get_result (first_entry (mkKey sid ts) (concat (snd <$> tabs))))).
Proof.
  intros (HsL & _ & _ & Hnew) Hgens Hout. set (k := mkKey sid ts).
  specialize (Hnew k ltac:(done)). apply newest_first in Hnew; [|done]. rewrite <-Hnew.
  assert (Get_tables (output_tables r) sid ts = Ok (get_result (first_entry k (keep isMajor L)))) as ->.
  { destruct r as [[[p g] reader]|]; [|by rewrite Hout].
    rewrite (Get_tables_spec _ [(g, keep isMajor L)]).
    - cbn. by rewrite app_nil_r.
    - constructor; [|constructor]. split; [done|]. exists reader. split_and!; [done|done|by apply keep_esorted]. }
  rewrite first_entry_keep by done. destruct (first_entry k L) as [e|]; [|done].
  unfold after_compaction, get_result. destruct (eDeleted e) eqn:E, isMajor; cbn; by rewrite ?E.
Qed.

(** Sorted lists are determined by their lookups. *)
Lemma esorted_first es e : esorted es → e ∈ es → first_entry (ekey e) es = Some e.
Proof.
  intros Hs Hin. induction es as [|x es IH]; [by apply not_elem_of_nil in Hin|].
  apply (esorted_app [x] es) in Hs as (_ & Hs & Hlt). cbn [first_entry].
  apply elem_of_cons in Hin as [<-|Hin]; [by rewrite decide_True|]. rewrite decide_False; [by apply IH|].
  specialize (Hlt x e ltac:(left) Hin). intros E. rewrite E in Hlt. by apply klt_not_refl in Hlt.
Qed.

Lemma esorted_ext es es' :
  esorted es → esorted es' → (∀ k, first_entry k es = first_entry k es') → es = es'.
Proof.
  intros Hs Hs' Hk.
  assert (∀ l l', esorted l → (∀ k, first_entry k l = first_entry k l') → ∀ e, e ∈ l → e ∈ l') as Hsub.
  { intros l l' Hl Hkl e He. pose proof (esorted_first l e Hl He) as Hf. rewrite Hkl in Hf.
    by apply first_entry_Some in Hf as [? _]. }
  assert (es ≡ₚ es') as Hp.
  { apply NoDup_Permutation; [by apply esorted_NoDup..|]. intros e. split; apply Hsub; auto. }
  assert (∀ l, esorted l → StronglySorted (λ a b, klt (ekey a) (ekey b)) l) as Hstr.
  { intros l Hl. induction l as [|x l IH]; [constructor|]. apply (esorted_app [x] l) in Hl as (_ & Hl & Hlt).
    constructor; [by apply IH|]. apply Forall_forall. intros y Hy. by apply Hlt; [left|]. }
  eapply (StronglySorted_unique_strong (λ a b, klt (ekey a) (ekey b))); [|by apply Hstr..|done].
  intros a b _ _ Hab Hba. by apply (klt_asym _ _ Hab) in Hba.
Qed.

(** One table alone merges to itself. *)
Lemma merged_single g es L : esorted es → merged None [(g, es)] L → L = es.
Proof.
  intros Hs (HsL & _ & _ & Hnew). apply esorted_ext; [done|done|]. intros k.
  specialize (Hnew k ltac:(done)). apply newest_first in Hnew as ->; [|repeat constructor].
  cbn. by rewrite app_nil_r.
Qed.
End compaction.

(** ** Claims *)
Section claims.
Context `{Snappy, Hash128}.

(** C31: compaction preserves every lookup. Merging any list of open tables, newest first, gives
    a table that answers each [Get] with the same value and found flag as the loop of
    [Wisp.Get] over the tables merged; only the deleted flag of a key that is absent anyway
    is dropped, and only by a major compaction. *)
Theorem compaction_preserves_lookups fuel tables tabs opts wd :
  quiet wd → Forall2 readable_table tables tabs → StronglySorted Z.gt (fst <$> tabs) →
  compactable tabs opts wd → (total tabs < fuel)%nat →
  ∃ r wd', CompactSSTables fuel tables opts wd = (Ok r, wd') ∧
    ∀ sid ts, Get_tables (output_tables r) sid ts = after_compaction (IsMajor opts) (Get_tables tables sid ts).
Proof.
  intros Hq Htabs Hgens Hc Hfuel. destruct (readable_streams _ _ Htabs) as [Hstreams Hsorted].
  destruct (wp_elim (CompactSSTables fuel tables opts) (λ r _, ∃ o, r = Ok o ∧ ∀ sid ts,
    Get_tables (output_tables o) sid ts = after_compaction (IsMajor opts) (Get_tables tables sid ts)) wd)
    as (r & wd' & Hrun & o & -> & Hget); [|by exists o, wd'].
  eapply wp_CompactSSTables; [exact Hstreams|exact Hc|exact Hfuel| |done].
  intros L o wd' Hm _ Hout. exists o. split; [done|]. intros sid ts. rewrite (Get_tables_spec _ _ _ _ Htabs).
  eapply compacted_lookups; [exact Hm|exact Hgens|].
  destruct o as [[[p g] reader]|]; [by destruct Hout as (_ & _ & ? & _)|by destruct Hout].
Qed.

(** C10: what the merged table holds. For any tables — open, closed, or unreadable from some block
    on — the output is strictly sorted, so no key appears twice; each of its entries comes
    from a table and is of the newest generation with its key; a key is missing only if it
    was in no table or, in a major compaction, if its newest entry is a tombstone; and
    there is no output file exactly when nothing is left. The merge always ends. *)
Theorem compaction_output fuel tables tabs opts wd :
  quiet wd → Forall2 table_stream tables tabs → compactable tabs opts wd → (total tabs < fuel)%nat →
  ∃ out r wd', CompactSSTables fuel tables opts wd = (Ok r, wd') ∧ esorted out ∧
    (r = None ↔ out = []) ∧ (∀ p g reader, r = Some (p, g, reader) →
      p = OutputPath opts ∧ g = TargetGen opts ∧ readable reader out) ∧
    (∀ e, e ∈ out → is_newest (ekey e) tabs (Some e) ∧ ¬ (eDeleted e ∧ IsMajor opts)) ∧
    (∀ k, first_entry k out = None → is_newest k tabs None ∨
      IsMajor opts = true ∧ ∃ e, is_newest k tabs (Some e) ∧ eDeleted e = true).
Proof.
  intros Hq Htabs Hc Hfuel.
  destruct (wp_elim (CompactSSTables fuel tables opts) (λ r wd', ∃ L o, r = Ok o ∧ merged None tabs L ∧
    compacted opts (keep (IsMajor opts) L) o wd wd') wd) as (r & wd' & Hrun & L & o & -> & Hm & Ho).
  { eapply wp_CompactSSTables; [exact Htabs|exact Hc|exact Hfuel| |done]. intros L o wd' Hm _ Ho. by exists L, o. }
  destruct Hm as (HsL & _ & _ & Hnew). exists (keep (IsMajor opts) L), o, wd'. split_and!.
  - exact Hrun.
  - by apply keep_esorted.
  - destruct o as [[[p g] reader]|]; [|by destruct Ho]. destruct Ho as (_ & _ & _ & Hne & _). by split.
  - intros p g reader ->. by destruct Ho as (? & ? & ? & _).
  - intros e [Hkeep He]%list_elem_of_filter. split.
    + rewrite <-(esorted_first L e HsL He). by apply Hnew.
    + destruct (eDeleted e), (IsMajor opts); naive_solver.
  - intros k. rewrite first_entry_keep by done. specialize (Hnew k ltac:(done)).
    destruct (first_entry k L) as [e|] eqn:E; [|by left]. destruct (eDeleted e) eqn:Ed, (IsMajor opts) eqn:Em; try done.
    intros _. right. split; [done|]. by exists e.
Qed.

(** C32: a compaction is safe against failing calls and crashes. Whatever calls fail, it returns a
    result or an error; every file but the output, the tables merged included, is as
    before; and if it returned a table, that table survives any crash entire. *)
Theorem compaction_safe fuel tables tabs opts wd res wd' wd'' :
  Forall2 table_stream tables tabs → compactable tabs opts wd → (total tabs < fuel)%nat →
  CompactSSTables fuel tables opts wd = (res, wd') → crash wd' wd'' →
  (∀ q, q ≠ OutputPath opts → files wd' !! q = files wd !! q) ∧
  ((∃ e, res = Err e) ∨ ∃ r, res = Ok r ∧
    ∀ p g reader, r = Some (p, g, reader) → fst (OpenReader (OutputPath opts) wd'') = Ok reader).
Proof.
  intros Htabs Hc Hfuel Hrun Hcrash.
  assert (wp (CompactSSTables fuel tables opts) (λ r wd', only (OutputPath opts) wd wd' ∧
    ((∃ e, r = Err e) ∨ ∃ o L, r = Ok o ∧ compacted opts L o wd wd')) wd) as Hwp.
  { eapply wp_CompactSSTables; [exact Htabs|exact Hc|exact Hfuel| |].
    - intros L o wd1 _ Ho Hout. split; [done|]. right. by exists o, (keep (IsMajor opts) L).
    - intros e wd1 Ho _. split; [done|]. left. by exists e. }
  destruct (wp_run _ _ _ _ _ Hwp Hrun) as [(_ & Hf & _) Hres]. split; [done|].
  destruct Hres as [?|(o & L & -> & Ho)]; [by left|right]. exists o. split; [done|].
  intros p g reader ->. destruct Ho as (_ & _ & _ & _ & data & Hl & Hread).
  destruct (crash_lookup _ _ _ _ _ Hcrash Hl) as (n & Hn & Hl'). rewrite take_ge in Hl' by done.
  pose proof (crash_quiet _ _ Hcrash) as Hq. unfold OpenReader.
  erewrite bind_Ok; [|by eapply os_Open_quiet].
  erewrite bind_Ok; [|apply try_Ok; rewrite syscall_quiet by done; unfold lift; rewrite Hread; reflexivity].
  done.
Qed.

(** C34: a block that cannot be read loses data silently. If the block after the blocks [bss] of a
    table cannot be read, a compaction of the table returns no error: the new table holds
    the entries before that block, and those in it and after it are gone. *)
Theorem compaction_drops_unreadable fuel g r idx bad rest bss e opts wd :
  quiet wd → rindex r = idx ++ bad :: rest →
  Forall2 (λ ie es, readBlock r ie = Ok es ∧ es ≠ []) idx bss → readBlock r bad = Err e →
  concat bss ≠ [] → IsMajor opts = false → compactable [(g, concat bss)] opts wd → (length (concat bss) < fuel)%nat →
  ∃ reader wd', CompactSSTables fuel [(g, Some r)] opts wd = (Ok (Some (OutputPath opts, TargetGen opts, reader)), wd') ∧
    readable reader (concat bss).
Proof.
  intros Hq Hidx Hbs Hbad Hne Hminor Hc Hfuel.
  assert (Forall2 table_stream [(g, Some r)] [(g, concat bss)]) as Htabs.
  { constructor; [|constructor]. split; [done|]. cbn [snd]. unfold Reader_Iterator.
    destruct (loadNextBlock_spec (mkIter r 0 [] 0 false) bss) as (it & -> & Hy); [|by exists it].
    split; [done|]. cbn [blockIndex reader]. exists idx, (bad :: rest). split_and!; [done..|by exists e]. }
  destruct (wp_elim (CompactSSTables fuel [(g, Some r)] opts) (λ r _, ∃ reader,
    r = Ok (Some (OutputPath opts, TargetGen opts, reader)) ∧ readable reader (concat bss)) wd)
    as (res & wd' & Hrun & reader & -> & Hread); [|by exists reader, wd'].
  eapply wp_CompactSSTables; [exact Htabs|exact Hc|cbn; lia| |done].
  intros L o wd' Hm _ Hout. apply merged_single in Hm as ->; [|by apply (cp_sorted _ _ _ Hc g); left].
  assert (keep (IsMajor opts) (concat bss) = concat bss) as Hk.
  { unfold keep. apply filter_all. intros x _. rewrite Hminor. by rewrite andb_false_r. }
  rewrite Hk in Hout. destruct o as [[[p g'] reader]|]; [|by destruct Hout]. destruct Hout as (-> & -> & Hread & _).
  by exists reader.
Qed.
End claims.

(** ** The claims at two small tables *)
Definition demo_newer : list Entry := [mkEntry 1 (-2) true []; mkEntry 1 5 false [x64]].
Definition demo_tabs : list stream := [(2, demo_newer); (1, demo_entries)].
Definition demo_opts (isMajor : bool) : CompactorOptions := mkOptions 0 isMajor 3 demo_table.

Lemma demo_filters : filters_ok 5.
Proof.
  intros m Hm. assert (m ∈ (Z.of_nat <$> seq 0 6)) as Hin.
  { apply list_elem_of_fmap. exists (Z.to_nat m). split; [lia|]. apply elem_of_seq. lia. }
  assert (Forall (λ m, bloom_bits m F64.one_percent ≤ 2^50) (Z.of_nat <$> seq 0 6)) as Hall by by_decide.
  rewrite Forall_forall in Hall. auto.
Qed.

Lemma demo_reader es :
  es ≠ [] → table_fits 40 es → block_size es < 2^31 →
  ∃ r, @readable stored toy_hash r es.
Proof.
  intros Hne Hf Hs. destruct (@single_block_ok stored toy_hash es Hne Hs Hf) as (b & Htb).
  eexists. exact (@written_readable stored toy_hash 40 [es] b es Htb).
Qed.

Lemma demo_newer_sorted : esorted demo_newer.
Proof. repeat constructor. Qed.

Lemma demo_tables : ∃ r2 r1, Forall2 (@readable_table stored toy_hash) [(2, Some r2); (1, Some r1)] demo_tabs.
Proof.
  destruct (demo_reader demo_newer) as (r2 & H2); [done|by_decide|by_decide|].
  destruct (demo_reader demo_entries) as (r1 & H1); [done|by_decide|by_decide|].
  exists r2, r1. constructor; [|constructor; [|constructor]]; (split; [done|]).
  - exists r2. split_and!; [done|exact H2|exact demo_newer_sorted].
  - exists r1. split_and!; [done|exact H1|exact demo_sorted].
Qed.

Lemma demo_compactable_at opts wd :
  BlockSize opts < 2^31 → files wd !! OutputPath opts ≠ Some Dir → pdir (OutputPath opts) ∈ dirs wd →
  compactable demo_tabs opts wd.
Proof.
  intros Hbs Hf Hd. assert (∀ g es, (g, es) ∈ demo_tabs → es = demo_newer ∨ es = demo_entries) as Hin.
  { intros g es [[= -> ->]|[[= -> ->]|Hin]%elem_of_cons]%elem_of_cons; [by left|by right|]. by apply not_elem_of_nil in Hin. }
  split; try done; try exact demo_filters.
  - intros g es [-> | ->]%Hin; [exact demo_newer_sorted|exact demo_sorted].
  - intros g es [-> | ->]%Hin; by_decide.
Qed.

Lemma demo_compactable isMajor : compactable demo_tabs (demo_opts isMajor) demo_dir.
Proof. apply demo_compactable_at; [done|by_decide|by_decide]. Qed.

Lemma compaction_preserves_lookups_witness :
  ∃ tables r wd', @CompactSSTables stored toy_hash 6 tables (demo_opts true) demo_dir = (Ok r, wd') ∧
    ∀ sid ts, @Get_tables stored toy_hash (output_tables r) sid ts =
      after_compaction true (@Get_tables stored toy_hash tables sid ts).
Proof.
  destruct demo_tables as (r2 & r1 & Ht). exists [(2, Some r2); (1, Some r1)].
  apply (@compaction_preserves_lookups stored toy_hash 6 _ demo_tabs (demo_opts true) demo_dir).
  - done.
  - exact Ht.
  - repeat constructor.
  - exact (demo_compactable true).
  - by vm_compute.
Defined.

Lemma compaction_output_witness :
  ∃ tables out r wd', @CompactSSTables stored toy_hash 6 tables (demo_opts true) demo_dir = (Ok r, wd') ∧ esorted out ∧
    (r = None ↔ out = []) ∧ (∀ p g reader, r = Some (p, g, reader) →
      p = demo_table ∧ g = 3 ∧ @readable stored toy_hash reader out) ∧
    (∀ e, e ∈ out → is_newest (ekey e) demo_tabs (Some e) ∧ ¬ (eDeleted e ∧ true)) ∧
    (∀ k, first_entry k out = None → is_newest k demo_tabs None ∨
      true = true ∧ ∃ e, is_newest k demo_tabs (Some e) ∧ eDeleted e = true).
Proof.
  destruct demo_tables as (r2 & r1 & Ht). exists [(2, Some r2); (1, Some r1)].
  apply (@compaction_output stored toy_hash 6 _ demo_tabs (demo_opts true) demo_dir).
  - done.
  - by apply readable_streams in Ht as [? _].
  - exact (demo_compactable true).
  - by vm_compute.
Defined.

Lemma compaction_safe_witness :
  ∃ tables, let s := @CompactSSTables stored toy_hash 6 tables (demo_opts false) demo_dir in
  (∀ q, q ≠ demo_table → files s.2 !! q = files demo_dir !! q) ∧
  ((∃ e, s.1 = Err e) ∨ ∃ r, s.1 = Ok r ∧
    ∀ p g reader, r = Some (p, g, reader) → fst (OpenReader demo_table (lose_unsynced s.2)) = Ok reader).
Proof.
  destruct demo_tables as (r2 & r1 & Ht). exists [(2, Some r2); (1, Some r1)]. intros s.
  apply (@compaction_safe stored toy_hash 6 [(2, Some r2); (1, Some r1)] demo_tabs (demo_opts false) demo_dir s.1 s.2 (lose_unsynced s.2)).
  - by apply readable_streams in Ht as [? _].
  - exact (demo_compactable false).
  - by vm_compute.
  - apply surjective_pairing.
  - apply lose_unsynced_crash.
Defined.

(** A readable block of one entry, then four bytes that are no entry. *)
Definition demo_good_block : bytes := block_layout [mkEntry 1 1 false [x61]].
Definition demo_half : Reader :=
  mkReader (demo_good_block ++ [x00; x00; x00; x00]) [mkIndex 1 1 0 (zlen demo_good_block); mkIndex 2 2 (zlen demo_good_block) 4] 2 None.

Lemma compaction_drops_unreadable_witness :
  ∃ reader wd', @CompactSSTables stored toy_hash 2 [(1, Some demo_half)] (demo_opts false) demo_dir =
      (Ok (Some (demo_table, 3, reader)), wd') ∧
    @readable stored toy_hash reader (concat [[mkEntry 1 1 false [x61]]]).
Proof.
  apply (@compaction_drops_unreadable stored toy_hash 2 1 demo_half [mkIndex 1 1 0 (zlen demo_good_block)]
    (mkIndex 2 2 (zlen demo_good_block) 4) [] [[mkEntry 1 1 false [x61]]] ErrBlockEntry (demo_opts false) demo_dir).
  - done.
  - done.
  - constructor; [|constructor]. split; [by vm_compute|done].
  - by vm_compute.
  - done.
  - done.
  - split; try done; try by_decide.
    + intros g es [[= -> ->]|Hin]%elem_of_cons; [repeat constructor|by apply not_elem_of_nil in Hin].
    + intros g es [[= -> ->]|Hin]%elem_of_cons; [by_decide|by apply not_elem_of_nil in Hin].
    + intros m Hm. apply demo_filters. cbn in Hm. lia.
  - cbn. lia.
Defined.
