(* ===== verification/SSTableList.v ===== *)
(** * The list of open tables (sstable/sstable_list.go)

    Reference-counted table files shared by pointers, the list that owns one reference to
    each of its tables, and the interleavings of its operations. *)
From Stdlib Require Import ZArith Lia Strings.Byte.
From stdpp Require Import base list gmap sorting relations.
From S2P Require Import Prelude Monad Fs Block Bloom Writer Reader.

(** ** The store

    A [*SSTableFile] is an index into the store; a file is never freed. *)
Record SSTableFile := mkFile {
  Path : path;
  Gen : Z;
  sfReader : option Reader;
  refCount : Z;
  unlinked : bool;
  closed : bool
}.

Record SSTableList := mkList {
  store : list SSTableFile;
  tables : list nat;
  nextGen : Z
}.

Definition set_ref (n : Z) (f : SSTableFile) : SSTableFile := mkFile (Path f) (Gen f) (sfReader f) n (unlinked f) (closed f).
Definition set_nil (f : SSTableFile) : SSTableFile := mkFile (Path f) (Gen f) None (refCount f) (unlinked f) (closed f).
Definition set_unlinked (f : SSTableFile) : SSTableFile := mkFile (Path f) (Gen f) (sfReader f) (refCount f) true (closed f).
Definition set_closed (f : SSTableFile) : SSTableFile := mkFile (Path f) (Gen f) (sfReader f) (refCount f) (unlinked f) true.
Definition set_store (s : list SSTableFile) (l : SSTableList) : SSTableList := mkList s (tables l) (nextGen l).
Definition set_tables (ts : list nat) (l : SSTableList) : SSTableList := mkList (store l) ts (nextGen l).
Definition set_nextGen (g : Z) (l : SSTableList) : SSTableList := mkList (store l) (tables l) g.

(** [int32] arithmetic. *)
Definition i32 (z : Z) : Z := (z + 2^31) mod 2^32 - 2^31.

Abbreviation T := (M (SSTableList * world)).

Definition get_file (p : nat) : T SSTableFile :=
  l ← get_fst;
  match store l !! p with Some f => mret f | None => lift (Panic NilDereference) end.
Definition put_file (p : nat) (f : SSTableFile) : T unit := modify_fst (λ l, set_store (<[p := f]> (store l)) l).

Definition NewSSTableFile (path : path) (gen : Z) (reader : Reader) : T nat :=
  l ← get_fst;
  put_fst (set_store (store l ++ [mkFile path gen (Some reader) 1 false false]) l);;
  mret (length (store l)).

Definition IncrRef (p : nat) : T bool :=
  f ← get_file p;
  if (refCount f <=? 0) || unlinked f || closed f then mret false
  else put_file p (set_ref (i32 (refCount f + 1)) f);; mret true.

(** [err != nil && firstErr == nil] *)
Definition first_err (firstErr : option error) (e : unit + error) : option error :=
  match e, firstErr with inr e, None => Some e | _, _ => firstErr end.
Definition ret_err (err : option error) : T unit :=
  match err with None => mret () | Some e => fail e end.

Definition DecrRef (p : nat) : T unit :=
  f ← get_file p;
  let newRef := i32 (refCount f - 1) in
  put_file p (set_ref newRef f);;
  if newRef <? 0 then fail ErrRefNegative
  else if newRef =? 0 then
    firstErr ← match sfReader f with
      | Some _ =>
          e ← try (on_snd (file_Close (Path f)));
          put_file p (set_nil (set_ref newRef f));;
          mret (first_err None e)
      | None => mret None
      end;
    firstErr ← (if unlinked f then
        e ← try (on_snd (os_Remove (Path f)));
        mret (match e with
              | inr err => if decide (err = ErrNotExist) then firstErr else first_err firstErr e
              | inl _ => firstErr
              end)
      else mret firstErr);
    ret_err firstErr
  else mret ().

(** ** The list *)
Definition NextGen : T Z :=
  l ← get_fst;
  put_fst (set_nextGen (u64 (nextGen l + 1)) l);;
  mret (u64 (nextGen l + 1)).

Fixpoint ReleaseTables (ts : list nat) : T unit :=
  match ts with
  | [] => mret ()
  | t :: ts' => try (DecrRef t);; ReleaseTables ts'
  end.

Fixpoint get_loop (ts : list nat) : T (list nat) :=
  match ts with
  | [] => mret []
  | t :: ts' =>
      ok ← IncrRef t;
      res ← get_loop ts';
      mret (if (ok : bool) then t :: res else res)
  end.
Definition GetTables : T (list nat) := l ← get_fst; get_loop (tables l).

(** [sort.Slice] by descending generation; the order of equal generations is not
    specified, and kept here. *)
Definition gen_of (s : list SSTableFile) (p : nat) : Z :=
  match s !! p with Some f => Gen f | None => 0 end.
Fixpoint insert_gen (g : nat → Z) (p : nat) (l : list nat) : list nat :=
  match l with
  | [] => [p]
  | q :: l' => if g p <? g q then q :: insert_gen g p l' else p :: l
  end.
Definition sort_gen (s : list SSTableFile) (l : list nat) : list nat := foldr (insert_gen (gen_of s)) [] l.

(** A reference count of 0 is raised to 1. *)
Definition revive (p : nat) : T unit :=
  f ← get_file p;
  if refCount f =? 0 then put_file p (set_ref 1 f) else mret ().

Definition Add (p : nat) : T unit :=
  revive p;;
  f ← get_file p;
  l ← get_fst;
  (if Gen f <=? nextGen l then mret () else put_fst (set_nextGen (Gen f) l));;
  modify_fst (λ l, set_tables (sort_gen (store l) (tables l ++ [p])) l).

Definition path_of (s : list SSTableFile) (p : nat) : option path := Path <$> s !! p.

(** [ReplaceTables] under the lock: the new list. *)
Definition swap_tables (oldTables : list nat) (newTable : option nat) : T unit :=
  l ← get_fst;
  let kept := filter (λ t, ¬ (path_of (store l) t ∈ path_of (store l) <$> oldTables)) (tables l) in
  match newTable with
  | None => mret ()
  | Some n => revive n
  end;;
  let kept := match newTable with None => kept | Some n => kept ++ [n] end in
  modify_fst (λ l, set_tables (sort_gen (store l) kept) l).

Definition drop_table (p : nat) : T unit :=
  f ← get_file p;
  put_file p (set_unlinked f);;
  DecrRef p.

Fixpoint drop_loop (ts : list nat) (firstErr : option error) : T (option error) :=
  match ts with
  | [] => mret firstErr
  | t :: ts' =>
      e ← try (drop_table t);
      drop_loop ts' (first_err firstErr e)
  end.

Definition ReplaceTables (oldTables : list nat) (newTable : option nat) : T unit :=
  swap_tables oldTables newTable;;
  firstErr ← drop_loop oldTables None;
  ret_err firstErr.

Definition close_table (p : nat) : T unit :=
  f ← get_file p;
  put_file p (set_closed f);;
  DecrRef p.

Fixpoint close_loop (ts : list nat) (closeErr : option error) : T (option error) :=
  match ts with
  | [] => mret closeErr
  | t :: ts' =>
      e ← try (close_table t);
      close_loop ts' (first_err closeErr e)
  end.

Definition Close : T unit :=
  l ← get_fst;
  closeErr ← close_loop (tables l) None;
  modify_fst (set_tables []);;
  ret_err closeErr.

(** ** Loading a directory *)
Definition base_ext (basePath : path) : bytes := Ext (pbase basePath).
Definition base_name (basePath : path) : bytes := TrimSuffix (pbase basePath) (base_ext basePath).

Definition NewPath (basePath : path) (gen : Z) : path :=
  mkPath (pdir basePath) (gen_name (base_name basePath) gen (base_ext basePath)).

(** The loop over the directory entries; it returns the highest generation. *)
Fixpoint load_loop (basePath : path) (entries : list (bytes * bool)) (maxGen : Z) : T Z :=
  match entries with
  | [] => mret maxGen
  | (name, _) :: entries' =>
      match gen_of_name (base_name basePath) (base_ext basePath) name with
      | None => load_loop basePath entries' maxGen
      | Some gen =>
          let path := mkPath (pdir basePath) name in
          r ← try (on_snd (OpenReader path));
          match r with
          | inr e => fail (ErrOpenTable gen e)
          | inl reader =>
              p ← NewSSTableFile path gen reader;
              modify_fst (λ l, set_tables (tables l ++ [p]) l);;
              load_loop basePath entries' (Z.max maxGen gen)
          end
      end
  end.

Definition Load (basePath : path) : T unit :=
  modify_fst (set_tables []);;
  entries ← on_snd (os_ReadDir (pdir basePath));
  maxGen ← load_loop basePath entries 0;
  modify_fst (set_nextGen maxGen);;
  modify_fst (λ l, set_tables (sort_gen (store l) (tables l)) l).

(** ** Reference counts

    [refs] lists the references in existence: one for each place in the list, one for each
    table a reader holds, one for each table replaced but not yet dropped. *)
Definition occ (p : nat) (refs : list nat) : Z := zlen (filter (λ q, q = p) refs).

Record counted (l : SSTableList) (refs : list nat) : Prop := {
  ct_valid : ∀ p, p ∈ refs → is_Some (store l !! p);
  ct_count : ∀ p f, store l !! p = Some f → refCount f = occ p refs;
  ct_open : ∀ p f, store l !! p = Some f → (sfReader f = None ↔ ¬ (p ∈ refs))
}.

Lemma occ_nonneg p refs : 0 ≤ occ p refs.
Proof. apply zlen_nonneg. Qed.

Lemma occ_cons p q refs : occ p (q :: refs) = (if decide (q = p) then 1 else 0) + occ p refs.
Proof. unfold occ. rewrite filter_cons. case_decide; [apply zlen_cons|done]. Qed.

Lemma occ_pos p refs : p ∈ refs ↔ 0 < occ p refs.
Proof.
  induction refs as [|q refs IH]; [split; [by intros ?%not_elem_of_nil|done]|].
  rewrite elem_of_cons, occ_cons, IH. pose proof (occ_nonneg p refs). case_decide; [split; [lia|by left]|].
  split; [intros [?|?]; [congruence|lia]|]. right. lia.
Qed.

Lemma occ_le p refs : occ p refs ≤ zlen refs.
Proof. unfold occ, zlen. pose proof (length_filter (λ q, q = p) refs). lia. Qed.

Lemma counted_perm l refs refs' : refs ≡ₚ refs' → counted l refs → counted l refs'.
Proof.
  intros Hp [Hv Hc Ho]. split.
  - intros p. rewrite <-Hp. apply Hv.
  - intros p f Hf. rewrite (Hc p f Hf). unfold occ, zlen. by rewrite Hp.
  - intros p f Hf. rewrite <-Hp. by apply Ho.
Qed.

(** Nothing but the store matters. *)
Lemma counted_store l l' refs : store l' = store l → counted l refs → counted l' refs.
Proof. intros E [Hv Hc Ho]. split; rewrite E; auto. Qed.

Lemma i32_id z : - 2^31 ≤ z < 2^31 → i32 z = z.
Proof. intros Hz. unfold i32. rewrite Z.mod_small; lia. Qed.

(** What the counting leaves alone. *)
Definition same_list (l l' : SSTableList) : Prop := tables l' = tables l ∧ nextGen l' = nextGen l.
Definition same_file (f f' : SSTableFile) : Prop :=
  Path f' = Path f ∧ Gen f' = Gen f ∧ unlinked f' = unlinked f ∧ closed f' = closed f.

Lemma counted_update l l' p f f' refs refs' :
  counted l refs → store l !! p = Some f → store l' = <[p := f']> (store l) →
  refCount f' = occ p refs' → (∀ q, q ≠ p → occ q refs' = occ q refs) →
  (sfReader f' = None ↔ ¬ (p ∈ refs')) → counted l' refs'.
Proof.
  intros [Hv Hc Ho] Hf Hs Hrc Hocc Hopen.
  assert (∀ q, q ≠ p → (q ∈ refs' ↔ q ∈ refs)) as Hin.
  { intros q Hq. by rewrite !occ_pos, Hocc. }
  pose proof (lookup_lt_Some _ _ _ Hf). split; rewrite Hs.
  - intros q Hq. destruct (decide (q = p)) as [->|Hne]; [rewrite list_lookup_insert_eq by done; eauto|].
    rewrite list_lookup_insert_ne by done. apply Hv. by apply Hin.
  - intros q g. destruct (decide (q = p)) as [->|Hne].
    + rewrite list_lookup_insert_eq by done. by intros [= <-].
    + rewrite list_lookup_insert_ne by done. intros Hg. by rewrite Hocc, (Hc q g Hg).
  - intros q g. destruct (decide (q = p)) as [->|Hne].
    + rewrite list_lookup_insert_eq by done. by intros [= <-].
    + rewrite list_lookup_insert_ne by done. intros Hg. rewrite Hin by done. by apply Ho.
Qed.

Section refs.
Implicit Types (l : SSTableList) (wd : world).

Lemma wp_get_file p l wd f (Q : outcome SSTableFile → SSTableList * world → Prop) :
  store l !! p = Some f → Q (Ok f) (l, wd) → wp (get_file p) Q (l, wd).
Proof. intros Hf HQ. unfold get_file. wsteps. rewrite Hf. by wsteps. Qed.

(** Taking a reference to a table that has one and was neither replaced nor closed. *)
Lemma wp_IncrRef p l wd f refs (Q : outcome bool → SSTableList * world → Prop) :
  counted l refs → store l !! p = Some f → p ∈ refs → unlinked f = false → closed f = false →
  zlen refs < 2^31 - 1 →
  (∀ l', counted l' (p :: refs) → same_list l l' →
     store l' = <[p := set_ref (refCount f + 1) f]> (store l) → Q (Ok true) (l', wd)) →
  wp (IncrRef p) Q (l, wd).
Proof.
  intros Hc Hf Hin Hu Hcl Hmax HQ. unfold IncrRef. wsteps. eapply wp_get_file; [exact Hf|]. cbv beta iota.
  pose proof (ct_count _ _ Hc p f Hf) as Hrc. pose proof (proj1 (occ_pos p refs) Hin). pose proof (occ_le p refs).
  destruct (Z.leb_spec (refCount f) 0); [lia|]. rewrite Hu, Hcl. cbn [orb]. unfold put_file. wsteps.
  rewrite i32_id by lia. apply HQ; [|done|done].
  eapply counted_update; [exact Hc|exact Hf|done|..].
  - cbn. rewrite occ_cons, decide_True by done. lia.
  - intros q Hq. by rewrite occ_cons, decide_False by done.
  - cbn. rewrite (ct_open _ _ Hc p f Hf), elem_of_cons. tauto.
Qed.

(** Giving a reference back. The table is closed, and removed if it was replaced, exactly
    when it was the last one. *)
Lemma wp_DecrRef p l wd f refs (Q : outcome unit → SSTableList * world → Prop) :
  counted l (p :: refs) → store l !! p = Some f → zlen refs < 2^31 - 1 →
  (∀ r l' wd' f', counted l' refs → same_list l l' → store l' = <[p := f']> (store l) → same_file f f' →
     (p ∈ refs → sfReader f' = sfReader f) → only (Path f) wd wd' →
     (p ∈ refs ∨ unlinked f = false → files wd' = files wd) →
     (quiet wd → p ∉ refs → unlinked f = true → files wd' !! Path f = None) →
     (quiet wd → r = Ok ()) → (r = Ok () ∨ r = Err ErrIO) → Q r (l', wd')) →
  wp (DecrRef p) Q (l, wd).
Proof.
  intros Hc Hf Hmax HQ. unfold DecrRef. wsteps. eapply wp_get_file; [exact Hf|]. cbv beta iota zeta.
  pose proof (ct_count _ _ Hc p f Hf) as Hrc. rewrite occ_cons, decide_True in Hrc by done.
  pose proof (occ_nonneg p refs) as H0. pose proof (occ_le p refs). pose proof (lookup_lt_Some _ _ _ Hf) as Hlt.
  rewrite i32_id by lia. unfold put_file. wsteps.
  assert (∀ q, q ≠ p → occ q refs = occ q (p :: refs)) as Hocc by (intros q Hq; by rewrite occ_cons, decide_False).
  destruct (Z.ltb_spec (refCount f - 1) 0); [lia|].
  destruct (Z.eqb_spec (refCount f - 1) 0) as [Hz|Hz].
  - assert (p ∉ refs) as Hnin by (rewrite occ_pos; lia).
    assert (sfReader f ≠ None) as Hopen by (rewrite (ct_open _ _ Hc p f Hf); intros Hn; apply Hn; left).
    destruct (sfReader f) as [rd|]; [|done].
    set (f' := set_nil (set_ref (refCount f - 1) f)).
    assert (∀ s', s' = <[p := f']> (<[p := set_ref (refCount f - 1) f]> (store l)) →
      ∀ l', l' = set_store s' (set_store (<[p := set_ref (refCount f - 1) f]> (store l)) l) →
      counted l' refs ∧ same_list l l' ∧ store l' = <[p := f']> (store l)) as Hfin.
    { intros s' -> l' ->. cbn [store set_store]. rewrite list_insert_insert_eq.
      split_and!; [|done..].
      eapply counted_update; [exact Hc|exact Hf|done|..]; [cbn; lia|exact Hocc|done]. }
    assert (∀ wd1 (r1 : unit + error), evolves wd (files wd) wd1 → (quiet wd → r1 = inl ()) → (r1 = inl () ∨ r1 = inr ErrIO) →
      wp (firstErr ← (if unlinked f then e ← try (on_snd (os_Remove (Path f)));
          mret (match e with inr err => if decide (err = ErrNotExist) then first_err None r1 else first_err (first_err None r1) e
                | inl _ => first_err None r1 end)
          else mret (first_err None r1));
        ret_err firstErr) Q (set_store (<[p := f']> (<[p := set_ref (refCount f - 1) f]> (store l)))
          (set_store (<[p := set_ref (refCount f - 1) f]> (store l)) l), wd1)) as Hend.
    { intros wd1 r1 He1 Hq1 Hr1. destruct (Hfin _ eq_refl _ eq_refl) as (Hc' & Hup & Hst).
      assert (only (Path f) wd wd1) as Ho1 by by eapply only_same.
      pose proof (evolves_files _ _ _ He1) as Hf1. wsteps.
      destruct (unlinked f) eqn:Hu; wsteps.
      - apply wp_os_Remove_any; [intros r2 wd2 Ho2 Hr2 Hgone|intros wd2 Ho2 Hnq].
        + assert (wp (ret_err (first_err None r1)) Q
            (set_store (<[p := f']> (<[p := set_ref (refCount f - 1) f]> (store l)))
              (set_store (<[p := set_ref (refCount f - 1) f]> (store l)) l), wd2)) as Hret.
          { destruct Hr1 as [-> | ->]; cbn [first_err ret_err]; wsteps;
              (apply (HQ _ _ _ f'); try done; try only_step Ho1; try tauto; try by intros [?|?]);
              intros Hq; by specialize (Hq1 Hq). }
          destruct Hr2 as [-> | ->]; cbv beta iota; wsteps; exact Hret.
        + cbv beta iota. wsteps. pose proof (only_not_quiet _ _ _ Ho1 Hnq) as Hnq'.
          destruct Hr1 as [-> | ->]; cbn [first_err ret_err]; wsteps;
            (apply (HQ _ _ _ f'); try done; try only_step Ho1; try tauto; by intros [?|?]).
      - destruct Hr1 as [-> | ->]; cbn [first_err ret_err]; wsteps;
          (apply (HQ _ _ _ f'); try done; try tauto); intros Hq; by specialize (Hq1 Hq). }
    wsteps. apply wp_Close.
    + intros wd1 He1. cbv beta iota. do 3 wstep. by apply (Hend wd1 (inl ())); [| |left].
    + intros wd1 He1 Hnq. cbv beta iota. do 3 wstep. by apply (Hend wd1 (inr ErrIO)); [| |right].
  - assert (p ∈ refs) as Hin by (rewrite occ_pos; lia).
    wsteps. apply (HQ _ _ _ (set_ref (refCount f - 1) f)); try done.
    + eapply counted_update; [exact Hc|exact Hf|done|..]; [cbn; lia|exact Hocc|].
      cbn. rewrite (ct_open _ _ Hc p f Hf), elem_of_cons. tauto.
    + by left.
Qed.
End refs.

(** Setting a flag of a table, then giving back a reference. *)
Lemma wp_flag_DecrRef (flag : SSTableFile → SSTableFile) p l wd f refs (Q : outcome unit → SSTableList * world → Prop) :
  (refCount (flag f) = refCount f ∧ sfReader (flag f) = sfReader f ∧ Path (flag f) = Path f ∧ Gen (flag f) = Gen f) →
  counted l (p :: refs) → store l !! p = Some f → zlen refs < 2^31 - 1 →
  (∀ r l' wd' f', counted l' refs → same_list l l' → store l' = <[p := f']> (store l) → same_file (flag f) f' →
     (p ∈ refs → sfReader f' = sfReader f) → only (Path f) wd wd' →
     (p ∈ refs ∨ unlinked (flag f) = false → files wd' = files wd) →
     (quiet wd → p ∉ refs → unlinked (flag f) = true → files wd' !! Path f = None) →
     (quiet wd → r = Ok ()) → (r = Ok () ∨ r = Err ErrIO) → Q r (l', wd')) →
  wp (f ← get_file p; put_file p (flag f);; DecrRef p) Q (l, wd).
Proof.
  intros (Erc & Erd & Ep & Eg) Hc Hf Hmax HQ. wsteps. eapply wp_get_file; [exact Hf|]. cbv beta iota.
  pose proof (lookup_lt_Some _ _ _ Hf) as Hlt. unfold put_file. wsteps.
  eapply (wp_DecrRef p _ wd (flag f) refs); [|cbn; by rewrite list_lookup_insert_eq|done|].
  - eapply (counted_update l); [exact Hc|exact Hf|done|rewrite Erc; exact (ct_count _ _ Hc p f Hf)|done|].
    rewrite Erd. by apply (ct_open _ _ Hc).
  - intros r l' wd' f' Hcnt Hsame Hs Hf' Hrd Ho H1 H2 H3 H4. rewrite Ep in *. rewrite Erd in Hrd. cbn [store set_store] in Hs.
    rewrite list_insert_insert_eq in Hs. by eapply HQ.
Qed.

(** ** Sorting by generation *)
Lemma insert_gen_perm g p l : insert_gen g p l ≡ₚ p :: l.
Proof.
  induction l as [|q l IH]; [done|]. cbn [insert_gen]. case_match; [|done].
  rewrite IH. apply Permutation_swap.
Qed.

Lemma sort_gen_perm s l : sort_gen s l ≡ₚ l.
Proof. induction l as [|p l IH]; [done|]. cbn. rewrite insert_gen_perm. by f_equiv. Qed.

Definition newest_first (s : list SSTableFile) (l : list nat) : Prop := StronglySorted (λ p q, gen_of s q ≤ gen_of s p) l.

Lemma sort_gen_sorted s l : newest_first s (sort_gen s l).
Proof.
  unfold newest_first. induction l as [|p l IH]; [constructor|]. cbn. fold (sort_gen s l).
  induction IH as [|q l' Hs IH Hall]; cbn [insert_gen]; [repeat constructor|].
  destruct (Z.ltb_spec (gen_of s p) (gen_of s q)).
  - constructor; [done|]. apply Forall_forall. intros x. rewrite insert_gen_perm.
    intros [->|Hx]%elem_of_cons; [lia|]. rewrite Forall_forall in Hall. auto.
  - constructor; [by constructor|]. constructor; [lia|]. eapply Forall_impl; [exact Hall|]. intros x ?. simpl in *. lia.
Qed.

(** ** Interleavings

    What every thread may do next, at the granularity of the code's atomic operations and
    of its critical sections: references are taken one by one by [GetTables] under the read
    lock and given back one by one; the list is swapped under the lock; replaced tables are
    dropped one by one after it; [Close] drops one by one under the lock. *)
Record conf := mkConf {
  cl : SSTableList;
  cw : world;
  held : list nat;
  pending : list nat
}.

Definition all_refs (c : conf) : list nat := tables (cl c) ++ held c ++ pending c.

(** A table no list has had yet. *)
Definition unlisted (c : conf) (p : nat) : Prop :=
  ¬ (p ∈ tables (cl c)) ∧ ¬ (p ∈ pending c) ∧ (∀ f, store (cl c) !! p = Some f → unlinked f = false ∧ closed f = false).

Definition remove_table (p : nat) (l : SSTableList) : SSTableList := set_tables (filter (λ q, q ≠ p) (tables l)) l.

Inductive step : conf → conf → Prop :=
  | step_get l wd h pd p b l' wd' :
      p ∈ tables l → zlen (tables l ++ h ++ pd) < 2^31 - 2 → IncrRef p (l, wd) = (Ok b, (l', wd')) →
      step (mkConf l wd h pd) (mkConf l' wd' (if b then p :: h else h) pd)
  | step_release l wd h pd p h' r l' wd' :
      h ≡ₚ p :: h' → DecrRef p (l, wd) = (r, (l', wd')) →
      step (mkConf l wd h pd) (mkConf l' wd' h' pd)
  | step_new l wd h pd path gen reader data sy p l' wd' :
      ¬ (path ∈ Path <$> store l) → files wd !! path = Some (File data sy) → zlen (tables l ++ h ++ pd) < 2^31 - 2 →
      NewSSTableFile path gen reader (l, wd) = (Ok p, (l', wd')) →
      step (mkConf l wd h pd) (mkConf l' wd' (p :: h) pd)
  | step_add l wd h pd p h' r l' wd' :
      h ≡ₚ p :: h' → unlisted (mkConf l wd h pd) p → Add p (l, wd) = (r, (l', wd')) →
      step (mkConf l wd h pd) (mkConf l' wd' h' pd)
  | step_swap l wd h pd olds new h' r l' wd' :
      NoDup olds → olds ⊆ tables l → h ≡ₚ option_list new ++ h' →
      (∀ n, new = Some n → unlisted (mkConf l wd h pd) n) → swap_tables olds new (l, wd) = (r, (l', wd')) →
      step (mkConf l wd h pd) (mkConf l' wd' h' (olds ++ pd))
  | step_drop l wd h pd p pd' r l' wd' :
      pd ≡ₚ p :: pd' → drop_table p (l, wd) = (r, (l', wd')) →
      step (mkConf l wd h pd) (mkConf l' wd' h pd')
  | step_close l wd h pd p r l' wd' :
      p ∈ tables l → close_table p (l, wd) = (r, (l', wd')) →
      step (mkConf l wd h pd) (mkConf (remove_table p l') wd' h pd)
  | step_env l wd h pd wd' :
      (∀ path, path ∈ Path <$> store l → files wd' !! path = files wd !! path) →
      step (mkConf l wd h pd) (mkConf l wd' h pd).

Record inv (c : conf) : Prop := {
  iv_counted : counted (cl c) (all_refs c);
  iv_nodup : NoDup (tables (cl c));
  iv_listed : ∀ p f, p ∈ tables (cl c) → store (cl c) !! p = Some f → unlinked f = false ∧ closed f = false;
  iv_pending : ∀ p, p ∈ pending c → p ∉ tables (cl c);
  iv_paths : NoDup (Path <$> store (cl c));
  iv_bound : zlen (all_refs c) < 2^31 - 1;
  iv_files : ∀ p f, p ∈ all_refs c → store (cl c) !! p = Some f → ∃ data sy, files (cw c) !! Path f = Some (File data sy)
}.

(** One file changes and the references shrink or are shared differently. *)
Lemma inv_change c l' wd' h' pd' p f f' :
  inv c → store (cl c) !! p = Some f → store l' = <[p := f']> (store (cl c)) → Path f' = Path f →
  counted l' (all_refs (mkConf l' wd' h' pd')) → tables l' ⊆ tables (cl c) → NoDup (tables l') →
  (p ∈ tables l' → unlinked f' = false ∧ closed f' = false) → (∀ q, q ∈ pd' → q ∉ tables l') →
  all_refs (mkConf l' wd' h' pd') ⊆ all_refs c → zlen (all_refs (mkConf l' wd' h' pd')) < 2^31 - 1 →
  only (Path f) (cw c) wd' → (p ∈ all_refs (mkConf l' wd' h' pd') → files wd' = files (cw c)) →
  inv (mkConf l' wd' h' pd').
Proof.
  intros [Hcnt Hnd Hlist Hpend Hpaths Hbound Hfiles] Hf Hs Hp Hcnt' Hsub Hnd' Hp' Hpd Hrefs Hb (_ & Ho & _) Hsame.
  pose proof (lookup_lt_Some _ _ _ Hf) as Hlt.
  split; cbn [cl cw pending] in *; [done|done| |done| |done|].
  - intros q g Hq. rewrite Hs. destruct (decide (q = p)) as [->|Hne].
    + rewrite list_lookup_insert_eq by done. intros [= <-]. auto.
    + rewrite list_lookup_insert_ne by done. apply Hlist, Hsub, Hq.
  - rewrite Hs, list_fmap_insert, Hp. rewrite list_insert_id; [done|]. by rewrite list_lookup_fmap, Hf.
  - intros q g Hq. rewrite Hs. destruct (decide (q = p)) as [->|Hne].
    + rewrite list_lookup_insert_eq by done. intros [= <-]. rewrite Hp, Hsame by done. by apply (Hfiles p); [apply Hrefs|].
    + rewrite list_lookup_insert_ne by done. intros Hg. rewrite Ho; [by apply (Hfiles q); [apply Hrefs|]|].
      intros E. apply Hne. apply (NoDup_lookup (Path <$> store (cl c)) _ _ (Path f)); [done|..]; rewrite list_lookup_fmap; [by rewrite Hg, <-E|by rewrite Hf].
Qed.

Lemma inv_store c p : inv c → p ∈ all_refs c → ∃ f, store (cl c) !! p = Some f ∧ 0 < refCount f ∧ sfReader f ≠ None.
Proof.
  intros Hi Hp. destruct (ct_valid _ _ (iv_counted _ Hi) p Hp) as [f Hf]. exists f. split_and!; [done| |].
  - rewrite (ct_count _ _ (iv_counted _ Hi) p f Hf). by apply occ_pos.
  - rewrite (ct_open _ _ (iv_counted _ Hi) p f Hf). tauto.
Qed.

(** What holders of a table rely on: its path, generation and reader stay. *)
Definition same_table (l l' : SSTableList) (p : nat) : Prop :=
  ∀ f, store l !! p = Some f → ∃ f', store l' !! p = Some f' ∧ Path f' = Path f ∧ Gen f' = Gen f ∧
    sfReader f' = sfReader f ∧ (unlinked f = true → unlinked f' = true).

Lemma same_table_insert l l' p f f' q :
  store l !! p = Some f → store l' = <[p := f']> (store l) → Path f' = Path f → Gen f' = Gen f →
  (q = p → sfReader f' = sfReader f) → (unlinked f = true → unlinked f' = true) → same_table l l' q.
Proof.
  intros Hf Hs Hp Hg Hr Hu g Hgq. rewrite Hs. destruct (decide (q = p)) as [->|Hne].
  - rewrite Hf in Hgq. injection Hgq as <-. exists f'. rewrite list_lookup_insert_eq by by eapply lookup_lt_Some. split_and!; auto.
  - exists g. rewrite list_lookup_insert_ne by done. split_and!; auto.
Qed.

Lemma paths_insert l l' p f f' :
  store l !! p = Some f → store l' = <[p := f']> (store l) → Path f' = Path f → Path <$> store l' = Path <$> store l.
Proof. intros Hf -> Hp. rewrite list_fmap_insert, Hp. apply list_insert_id. by rewrite list_lookup_fmap, Hf. Qed.

Lemma same_table_trans l l' l'' p : same_table l l' p → same_table l' l'' p → same_table l l'' p.
Proof.
  intros H1 H2 f Hf. destruct (H1 f Hf) as (f1 & Hf1 & E1 & E2 & E3 & E4). destruct (H2 f1 Hf1) as (f2 & Hf2 & F1 & F2 & F3 & F4).
  exists f2. split_and!; [done|congruence..|auto].
Qed.

Lemma same_table_store l l' p : store l' = store l → same_table l l' p.
Proof. intros E f Hf. exists f. by rewrite E. Qed.

Section preserve.
Implicit Types (l : SSTableList) (wd : world) (h pd : list nat).

Lemma inv_get l wd h pd p :
  inv (mkConf l wd h pd) → p ∈ tables l → zlen (tables l ++ h ++ pd) < 2^31 - 2 →
  ∃ l', IncrRef p (l, wd) = (Ok true, (l', wd)) ∧ inv (mkConf l' wd (p :: h) pd) ∧ same_list l l' ∧
    Path <$> store l' = Path <$> store l ∧ ∀ q, same_table l l' q.
Proof.
  intros Hi Hp Hb. assert (p ∈ all_refs (mkConf l wd h pd)) as Hin by (unfold all_refs; cbn; set_solver).
  destruct (inv_store _ p Hi Hin) as (f & Hf & _). destruct (iv_listed _ Hi p f Hp Hf) as [Hu Hc].
  destruct (wp_elim (IncrRef p) (λ r s, r = Ok true ∧ s.2 = wd ∧ inv (mkConf s.1 wd (p :: h) pd) ∧ same_list l s.1 ∧
    Path <$> store s.1 = Path <$> store l ∧ ∀ q, same_table l s.1 q) (l, wd))
    as (r & [l' wd'] & Hrun & -> & <- & ?); [|by exists l'].
  eapply (wp_IncrRef p l wd f); [exact (iv_counted _ Hi)|done|done|done|done|unfold all_refs; cbn; lia|].
  intros l1 Hcnt (Ht & Hg) Hs. cbn [fst snd]. split_and!; [done|done| |done|by eapply paths_insert|].
  - assert (p :: all_refs (mkConf l wd h pd) ≡ₚ all_refs (mkConf l1 wd (p :: h) pd)) as Hperm.
    { unfold all_refs. cbn. rewrite Ht. by rewrite <-Permutation_middle. }
    eapply (inv_change (mkConf l wd h pd)); [done|exact Hf|exact Hs|done|by eapply counted_perm|by rewrite Ht|by rewrite Ht; apply (iv_nodup _ Hi)
      |done|by rewrite Ht; apply (iv_pending _ Hi)| | |by split_and!|done].
    + intros q. rewrite <-Hperm. by intros [-> |?]%elem_of_cons.
    + unfold zlen. rewrite <-Hperm. fold (zlen (p :: all_refs (mkConf l wd h pd))). rewrite zlen_cons. unfold all_refs. cbn. lia.
  - intros q. by eapply same_table_insert.
Qed.

Lemma inv_release l wd h pd p h' r l' wd' :
  inv (mkConf l wd h pd) → h ≡ₚ p :: h' → DecrRef p (l, wd) = (r, (l', wd')) → inv (mkConf l' wd' h' pd).
Proof.
  intros Hi Hh Hrun. assert (all_refs (mkConf l wd h pd) ≡ₚ p :: all_refs (mkConf l wd h' pd)) as Hperm.
  { unfold all_refs. cbn. rewrite Hh. cbn [app]. by rewrite <-Permutation_middle. }
  assert (p ∈ all_refs (mkConf l wd h pd)) as Hin by (rewrite Hperm; left).
  destruct (inv_store _ p Hi Hin) as (f & Hf & _). pose proof (iv_bound _ Hi) as Hb.
  unfold zlen in Hb. rewrite Hperm in Hb. fold (zlen (p :: all_refs (mkConf l wd h' pd))) in Hb. rewrite zlen_cons in Hb.
  assert (wp (DecrRef p) (λ _ s, inv (mkConf s.1 s.2 h' pd)) (l, wd)) as Hwp; [|exact (wp_run _ _ _ _ _ Hwp Hrun)].
  eapply (wp_DecrRef p l wd f (all_refs (mkConf l wd h' pd))); [eapply counted_perm; [exact Hperm|exact (iv_counted _ Hi)]|done|lia|].
  intros r1 l1 wd1 f1 Hcnt (Ht & _) Hs (Hp1 & _ & Hu & Hc) _ Ho Hsame _ _ _. cbn [fst snd].
  assert (all_refs (mkConf l1 wd1 h' pd) = all_refs (mkConf l wd h' pd)) as Erefs by (unfold all_refs; cbn; by rewrite Ht).
  eapply (inv_change (mkConf l wd h pd)); [done|exact Hf|exact Hs|exact Hp1|by rewrite Erefs|by rewrite Ht|rewrite Ht; apply (iv_nodup _ Hi)
    | |by rewrite Ht; apply (iv_pending _ Hi)| |rewrite Erefs; lia|exact Ho|].
  - rewrite Ht, Hu, Hc. intros Hp. by apply (iv_listed _ Hi p).
  - rewrite Erefs, Hperm. intros q Hq. by right.
  - rewrite Erefs. intros Hp. apply Hsame. by left.
Qed.

Lemma inv_drop l wd h pd p pd' r l' wd' :
  inv (mkConf l wd h pd) → pd ≡ₚ p :: pd' → drop_table p (l, wd) = (r, (l', wd')) → inv (mkConf l' wd' h pd').
Proof.
  intros Hi Hpd Hrun. assert (all_refs (mkConf l wd h pd) ≡ₚ p :: all_refs (mkConf l wd h pd')) as Hperm.
  { unfold all_refs. cbn. rewrite Hpd. by rewrite <-!Permutation_middle. }
  assert (p ∈ all_refs (mkConf l wd h pd)) as Hin by (rewrite Hperm; left).
  destruct (inv_store _ p Hi Hin) as (f & Hf & _). pose proof (iv_bound _ Hi) as Hb.
  unfold zlen in Hb. rewrite Hperm in Hb. fold (zlen (p :: all_refs (mkConf l wd h pd'))) in Hb. rewrite zlen_cons in Hb.
  assert (¬ (p ∈ tables l)) as Hnt by (apply (iv_pending _ Hi); cbn; rewrite Hpd; left).
  assert (wp (drop_table p) (λ _ s, inv (mkConf s.1 s.2 h pd')) (l, wd)) as Hwp; [|exact (wp_run _ _ _ _ _ Hwp Hrun)].
  eapply (wp_flag_DecrRef set_unlinked p l wd f (all_refs (mkConf l wd h pd'))); [done|eapply counted_perm; [exact Hperm|exact (iv_counted _ Hi)]|done|lia|].
  intros r1 l1 wd1 f1 Hcnt (Ht & _) Hs (Hp1 & _) _ Ho Hsame _ _ _. cbn [fst snd].
  assert (all_refs (mkConf l1 wd1 h pd') = all_refs (mkConf l wd h pd')) as Erefs by (unfold all_refs; cbn; by rewrite Ht).
  eapply (inv_change (mkConf l wd h pd)); [done|exact Hf|exact Hs|exact Hp1|by rewrite Erefs|by rewrite Ht|rewrite Ht; apply (iv_nodup _ Hi)
    |by rewrite Ht| | |rewrite Erefs; lia|exact Ho|].
  - rewrite Ht. intros q Hq. apply (iv_pending _ Hi). cbn. rewrite Hpd. by right.
  - rewrite Erefs, Hperm. intros q Hq. by right.
  - rewrite Erefs. intros Hp. apply Hsame. by left.
Qed.

Lemma remove_perm p (ts : list nat) : NoDup ts → p ∈ ts → ts ≡ₚ p :: filter (λ q, q ≠ p) ts.
Proof.
  intros Hnd Hp. apply NoDup_Permutation; [done| |].
  - constructor; [by intros [? _]%list_elem_of_filter|by apply NoDup_filter].
  - intros q. rewrite elem_of_cons, list_elem_of_filter. destruct (decide (q = p)) as [->|]; tauto.
Qed.

Lemma inv_close l wd h pd p r l' wd' :
  inv (mkConf l wd h pd) → p ∈ tables l → close_table p (l, wd) = (r, (l', wd')) →
  inv (mkConf (remove_table p l') wd' h pd).
Proof.
  intros Hi Hp Hrun. pose proof (iv_nodup _ Hi) as Hnd. cbn in Hnd. pose proof (remove_perm p (tables l) Hnd Hp) as Hrm.
  set (rest := filter (λ q, q ≠ p) (tables l) ++ h ++ pd).
  assert (all_refs (mkConf l wd h pd) ≡ₚ p :: rest) as Hperm by (unfold all_refs; cbn [cl held pending]; by rewrite Hrm).
  assert (p ∈ all_refs (mkConf l wd h pd)) as Hin by (rewrite Hperm; left).
  destruct (inv_store _ p Hi Hin) as (f & Hf & _). pose proof (iv_bound _ Hi) as Hb.
  unfold zlen in Hb. rewrite Hperm in Hb. fold (zlen (p :: rest)) in Hb. rewrite zlen_cons in Hb.
  destruct (iv_listed _ Hi p f Hp Hf) as [Hu _].
  assert (wp (close_table p) (λ _ s, inv (mkConf (remove_table p s.1) s.2 h pd)) (l, wd)) as Hwp; [|exact (wp_run _ _ _ _ _ Hwp Hrun)].
  eapply (wp_flag_DecrRef set_closed p l wd f rest); [done|eapply counted_perm; [exact Hperm|exact (iv_counted _ Hi)]|done|lia|].
  intros r1 l1 wd1 f1 Hcnt (Ht & _) Hs (Hp1 & _) _ Ho Hsame _ _ _. cbn [fst snd].
  assert (all_refs (mkConf (remove_table p l1) wd1 h pd) = rest) as Erefs by (unfold all_refs, rest; cbn; by rewrite Ht).
  assert (∀ q, q ∈ tables (remove_table p l1) ↔ q ≠ p ∧ q ∈ tables l) as Hrem.
  { intros q. cbn. by rewrite Ht, list_elem_of_filter. }
  eapply (inv_change (mkConf l wd h pd)); [done|exact Hf|exact Hs|exact Hp1| | | | | | |rewrite Erefs; lia|exact Ho|].
  - rewrite Erefs. exact (counted_store l1 (remove_table p l1) rest eq_refl Hcnt).
  - intros q. rewrite Hrem. by intros [_ ?].
  - cbn. rewrite Ht. by apply NoDup_filter.
  - rewrite Hrem. tauto.
  - intros q Hq. rewrite Hrem. intros [_ ?]. by apply (iv_pending _ Hi q).
  - rewrite Erefs, Hperm. intros q Hq. by right.
  - rewrite Erefs. intros Hq. apply Hsame. by left.
Qed.

(** Steps that leave the files of the store alone and share the references differently. *)
Lemma inv_share l wd h pd l' h' pd' :
  inv (mkConf l wd h pd) → store l' = store l → all_refs (mkConf l' wd h' pd') ≡ₚ all_refs (mkConf l wd h pd) →
  NoDup (tables l') → (∀ p f, p ∈ tables l' → store l !! p = Some f → unlinked f = false ∧ closed f = false) →
  (∀ p, p ∈ pd' → ¬ (p ∈ tables l')) → inv (mkConf l' wd h' pd').
Proof.
  intros Hi Hs Hrefs Hnd Hlist Hpd. split; cbn [cl cw pending]; rewrite ?Hs; [|done..|exact (iv_paths _ Hi)| |].
  - eapply counted_store; [exact Hs|]. eapply counted_perm; [symmetry; exact Hrefs|exact (iv_counted _ Hi)].
  - unfold zlen. rewrite Hrefs. exact (iv_bound _ Hi).
  - intros p f. rewrite Hrefs. apply (iv_files _ Hi).
Qed.

Lemma inv_new l wd h pd path gen reader data sy p l' wd' :
  inv (mkConf l wd h pd) → ¬ (path ∈ Path <$> store l) → files wd !! path = Some (File data sy) →
  zlen (tables l ++ h ++ pd) < 2^31 - 2 → NewSSTableFile path gen reader (l, wd) = (Ok p, (l', wd')) →
  inv (mkConf l' wd' (p :: h) pd).
Proof.
  intros [[Hv Hc Ho] Hnd Hlist Hpend Hpaths Hbound Hfiles] Hfresh Hl Hb Hrun.
  unfold NewSSTableFile, mbind, M_bind, get_fst, put_fst, mret, M_ret in Hrun. simplify_eq.
  cbn [cl cw held pending] in *. set (f := mkFile path gen (Some reader) 1 false false).
  assert (∀ q, q ∈ tables l ++ h ++ pd → q ≠ length (store l)) as Hlt.
  { intros q Hq. apply Hv in Hq as [g Hg%lookup_lt_Some]. lia. }
  assert (all_refs (mkConf (set_store (store l ++ [f]) l) wd' (length (store l) :: h) pd) ≡ₚ length (store l) :: (tables l ++ h ++ pd)) as Hperm.
  { unfold all_refs. cbn. by rewrite <-Permutation_middle. }
  assert (occ (length (store l)) (tables l ++ h ++ pd) = 0) as Hocc.
  { pose proof (occ_nonneg (length (store l)) (tables l ++ h ++ pd)).
    destruct (decide (0 < occ (length (store l)) (tables l ++ h ++ pd))) as [Hin%occ_pos|]; [by apply Hlt in Hin|lia]. }
  assert (∀ q g, (store l ++ [f]) !! q = Some g → store l !! q = Some g ∨ (q = length (store l) ∧ g = f)) as Hcases.
  { intros q g [?|[Hq Hg]]%lookup_app_Some; [by left|]. apply list_lookup_singleton_Some in Hg as [Hq' <-].
    right. split; [lia|done]. }
  split; cbn [cl cw held pending].
  - eapply counted_perm; [symmetry; exact Hperm|]. split; cbn [store set_store].
    + intros q [-> |Hq]%elem_of_cons; [rewrite lookup_app_r, Nat.sub_diag by lia; by eexists|].
      apply Hv in Hq as [g Hg]. exists g. by apply lookup_app_l_Some.
    + intros q g [Hg|[-> ->]]%Hcases; rewrite occ_cons.
      * rewrite decide_False; [by apply Hc|]. apply lookup_lt_Some in Hg. lia.
      * rewrite decide_True by done. cbn. unfold all_refs in *. cbn in Hocc. lia.
    + intros q g [Hg|[-> ->]]%Hcases; rewrite elem_of_cons.
      * rewrite (Ho q g Hg). apply lookup_lt_Some in Hg. split; [|tauto]. intros Hn [-> |?]; [lia|done].
      * split; [done|]. intros Hn. destruct Hn. by left.
  - done.
  - intros q g Hq [Hg|[-> ->]]%Hcases; [by apply (Hlist q)|done].
  - done.
  - cbn. rewrite fmap_app. apply NoDup_app. split_and!; [done| |apply NoDup_singleton].
    intros x Hx ->%list_elem_of_singleton. done.
  - unfold zlen. rewrite Hperm. fold (zlen (length (store l) :: tables l ++ h ++ pd)). rewrite zlen_cons. lia.
  - intros q g. rewrite Hperm. intros Hq [Hg|[-> ->]]%Hcases; [|by exists data, sy].
    apply elem_of_cons in Hq as [-> |Hq]; [apply lookup_lt_Some in Hg; lia|by apply (Hfiles q)].
Qed.

Lemma inv_env l wd h pd wd' :
  inv (mkConf l wd h pd) → (∀ path, path ∈ Path <$> store l → files wd' !! path = files wd !! path) → inv (mkConf l wd' h pd).
Proof.
  intros [Hc Hnd Hlist Hpend Hpaths Hbound Hfiles] Henv. split; try done.
  intros p f Hp Hf. cbn [cw]. rewrite Henv; [by apply (Hfiles p f)|]. apply (list_elem_of_fmap_2 Path _ f).
  by eapply list_elem_of_lookup_2.
Qed.

(** A table that is referenced needs no reviving. *)
Lemma revive_referenced l wd refs p :
  counted l refs → p ∈ refs → revive p (l, wd) = (Ok (), (l, wd)).
Proof.
  intros [Hv Hc _] Hp. destruct (Hv p Hp) as [f Hf]. unfold revive, get_file, mbind, M_bind, get_fst.
  rewrite Hf. cbv beta iota delta [mret M_ret]. apply occ_pos in Hp. rewrite (Hc p f Hf).
  destruct (Z.eqb_spec (occ p refs) 0); [lia|done].
Qed.

Lemma Add_run l wd refs p f :
  counted l refs → p ∈ refs → store l !! p = Some f →
  Add p (l, wd) = (Ok (), (mkList (store l) (sort_gen (store l) (tables l ++ [p])) (Z.max (nextGen l) (Gen f)), wd)).
Proof.
  intros Hcnt Hp Hf. unfold Add. erewrite bind_Ok by by eapply revive_referenced.
  unfold get_file, mbind, M_bind, get_fst, put_fst, modify_fst. rewrite Hf. cbv beta iota delta [mret M_ret].
  destruct l as [s ts g]. cbn in *. destruct (Z.leb_spec (Gen f) g); [by rewrite Z.max_l by lia|by rewrite Z.max_r by lia].
Qed.

Lemma inv_add l wd h pd p h' r l' wd' :
  inv (mkConf l wd h pd) → h ≡ₚ p :: h' → unlisted (mkConf l wd h pd) p → Add p (l, wd) = (r, (l', wd')) →
  inv (mkConf l' wd' h' pd).
Proof.
  intros Hi Hh (Hnt & Hnp & Hflags) Hrun.
  assert (p ∈ all_refs (mkConf l wd h pd)) as Hin by (unfold all_refs; cbn; rewrite Hh; set_solver).
  destruct (inv_store _ p Hi Hin) as (f & Hf & _). rewrite (Add_run l wd _ p f (iv_counted _ Hi) Hin Hf) in Hrun. simplify_eq.
  set (ts := sort_gen (store l) (tables l ++ [p])). assert (ts ≡ₚ tables l ++ [p]) as Hts by apply sort_gen_perm.
  eapply inv_share; [exact Hi|done| | | |].
  - unfold all_refs. cbn. rewrite Hts, Hh. rewrite <-(assoc_L (++)). done.
  - cbn. fold ts. rewrite Hts. apply NoDup_app. split_and!; [apply (iv_nodup _ Hi)| |apply NoDup_singleton].
    by intros q Hq ->%list_elem_of_singleton.
  - intros q g. cbn. fold ts. rewrite Hts. intros [Hq| ->%list_elem_of_singleton]%elem_of_app; [by apply (iv_listed _ Hi q)|apply Hflags].
  - intros q Hq. cbn. fold ts. rewrite Hts. intros [Hq'| ->%list_elem_of_singleton]%elem_of_app; [by apply (iv_pending _ Hi q)|done].
Qed.

(** With distinct paths, the paths of [ReplaceTables] tell tables apart. *)
Lemma path_of_inj l p q :
  NoDup (Path <$> store l) → is_Some (store l !! p) → path_of (store l) p = path_of (store l) q → p = q.
Proof.
  intros Hnd [f Hf]. unfold path_of. rewrite Hf. intros Hq. symmetry in Hq.
  apply fmap_Some in Hq as (g & Hg & Hp).
  apply (NoDup_lookup (Path <$> store l) _ _ (Path f)); [done|..]; rewrite list_lookup_fmap; [by rewrite Hf|by rewrite Hg, Hp].
Qed.

Definition kept (l : SSTableList) (olds : list nat) : list nat := filter (λ t, ¬ (t ∈ olds)) (tables l).

Lemma kept_paths l olds :
  NoDup (Path <$> store l) → (∀ p, p ∈ tables l → is_Some (store l !! p)) →
  filter (λ t, ¬ (path_of (store l) t ∈ path_of (store l) <$> olds)) (tables l) = kept l olds.
Proof.
  intros Hnd. unfold kept. induction (tables l) as [|t ts IH]; intros Hv; [done|].
  rewrite !filter_cons, IH by (intros p Hp; apply Hv; by right).
  assert (path_of (store l) t ∈ path_of (store l) <$> olds ↔ t ∈ olds) as Hiff.
  { rewrite list_elem_of_fmap. split; [|by eauto]. intros (q & Hq & Hin).
    rewrite (path_of_inj l t q Hnd (Hv t ltac:(left)) Hq). done. }
  destruct (decide (t ∈ olds)); [rewrite !decide_False by tauto|rewrite !decide_True by tauto]; done.
Qed.

Lemma kept_perm l olds : NoDup olds → NoDup (tables l) → olds ⊆ tables l → tables l ≡ₚ olds ++ kept l olds.
Proof.
  intros Ho Ht Hsub. apply NoDup_Permutation; [done| |].
  - apply NoDup_app. split_and!; [done| |by apply NoDup_filter]. intros p Hp [? _]%list_elem_of_filter. done.
  - intros p. unfold kept. rewrite elem_of_app, list_elem_of_filter. destruct (decide (p ∈ olds)); [|tauto].
    split; [by left|]. by intros _; apply Hsub.
Qed.

Lemma swap_run l wd refs olds new :
  counted l refs → NoDup (Path <$> store l) → tables l ⊆ refs → (∀ n, new = Some n → n ∈ refs) →
  swap_tables olds new (l, wd) = (Ok (), (set_tables (sort_gen (store l) (kept l olds ++ option_list new)) l, wd)).
Proof.
  intros Hcnt Hnd Hsub Hnew. unfold swap_tables. rewrite <-(kept_paths l olds Hnd) by (intros p Hp; by apply (ct_valid _ _ Hcnt), Hsub).
  unfold mbind at 1, M_bind at 1, get_fst. cbv beta iota zeta. destruct new as [n|].
  - erewrite bind_Ok by (eapply revive_referenced; [exact Hcnt|by apply Hnew]). done.
  - cbn [option_list option_rect]. rewrite app_nil_r. done.
Qed.

Lemma inv_swap l wd h pd olds new h' r l' wd' :
  inv (mkConf l wd h pd) → NoDup olds → olds ⊆ tables l → h ≡ₚ option_list new ++ h' →
  (∀ n, new = Some n → unlisted (mkConf l wd h pd) n) → swap_tables olds new (l, wd) = (r, (l', wd')) →
  inv (mkConf l' wd' h' (olds ++ pd)).
Proof.
  intros Hi Hnd Hsub Hh Hnew Hrun. pose proof (iv_nodup _ Hi) as Hndt. cbn in Hndt.
  assert (∀ n, new = Some n → n ∈ h) as Hnh by (intros n ->; rewrite Hh; left).
  rewrite (swap_run l wd _ olds new (iv_counted _ Hi) (iv_paths _ Hi)) in Hrun.
  2: { unfold all_refs. cbn. set_solver. }
  2: { intros n Hn. unfold all_refs. cbn. specialize (Hnh n Hn). set_solver. }
  simplify_eq. set (ts := sort_gen (store l) (kept l olds ++ option_list new)).
  assert (ts ≡ₚ kept l olds ++ option_list new) as Hts by apply sort_gen_perm.
  assert (∀ p, p ∈ ts → (p ∈ tables l ∧ ¬ (p ∈ olds)) ∨ new = Some p) as Hin.
  { intros p. rewrite Hts, elem_of_app. unfold kept. rewrite list_elem_of_filter.
    destruct new as [n|]; cbn; [rewrite list_elem_of_singleton|]; set_solver. }
  eapply inv_share; [exact Hi|done| | | |].
  - unfold all_refs. cbn. fold ts. rewrite Hts, Hh, (kept_perm l olds) by done. solve_Permutation.
  - cbn. fold ts. rewrite Hts. apply NoDup_app. split_and!; [by apply NoDup_filter| |destruct new; [apply NoDup_singleton|constructor]].
    intros p [_ Hp]%list_elem_of_filter. destruct new as [n|]; cbn; [|by intros ?%not_elem_of_nil].
    intros ->%list_elem_of_singleton. by destruct (Hnew n eq_refl).
  - cbn. intros p f [[Hp _]| Hp]%Hin; [by apply (iv_listed _ Hi p)|by apply (Hnew p Hp)].
  - cbn. intros p [Hp|Hp]%elem_of_app [[Ht Ho]|Hn]%Hin; [done| | |].
    + destruct (Hnew p Hn) as [Hnt _]. by apply Hnt, Hsub.
    + by apply (iv_pending _ Hi p).
    + by destruct (Hnew p Hn) as (_ & ? & _).
Qed.
End preserve.

Lemma step_inv c c' : step c c' → inv c → inv c'.
Proof.
  intros Hs Hi. destruct Hs.
  - edestruct inv_get as (l2 & E & Hi' & _); [exact Hi|eassumption|eassumption|].
    match goal with Hr : IncrRef _ _ = _ |- _ => rewrite E in Hr; injection Hr as <- <- <- end. exact Hi'.
  - by eapply inv_release.
  - by eapply inv_new.
  - by eapply inv_add.
  - by eapply inv_swap.
  - by eapply inv_drop.
  - by eapply inv_close.
  - by eapply inv_env.
Qed.

Lemma start_inv wd g : inv (mkConf (mkList [] [] g) wd [] []).
Proof. split; cbn; try done; try set_solver; try constructor. - set_solver. - done. - done. Qed.

(** ** Whole calls, one at a time *)
Section calls.
Implicit Types (l : SSTableList) (wd : world) (h pd ts : list nat).

Lemma inv_held_perm l wd h h' pd : h ≡ₚ h' → inv (mkConf l wd h pd) → inv (mkConf l wd h' pd).
Proof.
  intros Hh Hi. eapply inv_share; [exact Hi|done| |exact (iv_nodup _ Hi)|exact (iv_listed _ Hi)|exact (iv_pending _ Hi)].
  unfold all_refs. cbn. by rewrite Hh.
Qed.

Lemma get_loop_spec ts l wd h pd :
  inv (mkConf l wd h pd) → ts ⊆ tables l → zlen (tables l ++ h ++ pd) + zlen ts < 2^31 - 1 →
  ∃ l', get_loop ts (l, wd) = (Ok ts, (l', wd)) ∧ inv (mkConf l' wd (ts ++ h) pd) ∧ same_list l l' ∧
    Path <$> store l' = Path <$> store l ∧ ∀ q, same_table l l' q.
Proof.
  revert l h. induction ts as [|t ts IH]; intros l h Hi Hsub Hb.
  { exists l. split_and!; [done|done|done|done|]. intros q. by apply same_table_store. }
  rewrite zlen_cons in Hb. pose proof (zlen_nonneg ts).
  destruct (inv_get l wd h pd t Hi) as (l1 & Hrun & Hi1 & [Ht1 Hg1] & Hp1 & Hsame1); [apply Hsub; left|lia|].
  destruct (IH l1 (t :: h) Hi1) as (l2 & Hrun2 & Hi2 & [Ht2 Hg2] & Hp2 & Hsame2).
  { rewrite Ht1. intros q Hq. apply Hsub. by right. }
  { rewrite Ht1, !zlen_app, zlen_cons. rewrite !zlen_app in Hb. lia. }
  exists l2. cbn [get_loop]. erewrite bind_Ok by exact Hrun. erewrite bind_Ok by exact Hrun2. split_and!; [done| | |congruence|].
  - eapply inv_held_perm; [|exact Hi2]. cbn [app]. by rewrite Permutation_middle.
  - split; congruence.
  - intros q. by eapply same_table_trans.
Qed.

(** Dropping replaced tables that are still held removes nothing. *)
Lemma drop_loop_held ts l wd h pd :
  quiet wd → inv (mkConf l wd h (ts ++ pd)) → ts ⊆ h →
  ∃ l' wd', drop_loop ts None (l, wd) = (Ok None, (l', wd')) ∧ inv (mkConf l' wd' h pd) ∧ same_list l l' ∧
    (∀ q, same_table l l' q) ∧ (∀ q f, q ∈ ts → store l' !! q = Some f → unlinked f = true) ∧ files wd' = files wd ∧ dirs wd' = dirs wd ∧ quiet wd'.
Proof.
  revert l wd. induction ts as [|t ts IH]; intros l wd Hq Hi Hsub.
  { exists l, wd. split_and!; try done. - intros q. by apply same_table_store. - by intros q f ?%not_elem_of_nil. }
  assert (all_refs (mkConf l wd h (t :: ts ++ pd)) ≡ₚ t :: all_refs (mkConf l wd h (ts ++ pd))) as Hperm.
  { unfold all_refs. cbn. by rewrite <-!Permutation_middle. }
  assert (t ∈ all_refs (mkConf l wd h (ts ++ pd))) as Hin.
  { unfold all_refs. cbn. apply elem_of_app. right. apply elem_of_app. left. apply Hsub. left. }
  cbn [app] in Hi. destruct (inv_store _ t Hi ltac:(rewrite Hperm; left)) as (f & Hf & _). pose proof (iv_bound _ Hi) as Hb.
  unfold zlen in Hb. rewrite Hperm in Hb. fold (zlen (t :: all_refs (mkConf l wd h (ts ++ pd)))) in Hb. rewrite zlen_cons in Hb.
  destruct (wp_elim (drop_table t) (λ r s, r = Ok () ∧ same_list l s.1 ∧ (∀ q, same_table l s.1 q) ∧
    (∀ g, store s.1 !! t = Some g → unlinked g = true) ∧ files s.2 = files wd ∧ dirs s.2 = dirs wd ∧ quiet s.2) (l, wd))
    as (r & [l1 wd1] & Hrun & -> & Hl1 & Hs1 & Hu1 & Hf1 & Hd1 & Hq1).
  { eapply (wp_flag_DecrRef set_unlinked t l wd f (all_refs (mkConf l wd h (ts ++ pd)))); [done|eapply counted_perm; [exact Hperm|exact (iv_counted _ Hi)]|done|lia|].
    intros r l' wd' f' _ Hl' Hs (Hp & Hg & Hu & _) Hrd (Hd & _ & Hq') Hsame _ Hr _. cbn [fst snd]. split_and!; auto.
    - intros q. eapply same_table_insert; [exact Hf|exact Hs|done|done|by intros _; apply Hrd|by intros _; rewrite Hu].
    - intros g. rewrite Hs, list_lookup_insert_eq by by eapply lookup_lt_Some. intros [= <-]. by rewrite Hu. }
  cbn [fst snd] in *. pose proof (inv_drop l wd h (t :: ts ++ pd) t (ts ++ pd) _ l1 wd1 Hi ltac:(done) Hrun) as Hi1.
  destruct (IH l1 wd1 Hq1 Hi1) as (l2 & wd2 & Hrun2 & Hi2 & Hl2 & Hs2 & Hu2 & Hf2 & Hd2 & Hq2); [intros q Hq'; apply Hsub; by right|].
  exists l2, wd2. cbn [drop_loop]. erewrite bind_Ok by (apply try_Ok; exact Hrun). split_and!; try congruence.
  - exact Hrun2.
  - split; destruct Hl1, Hl2; congruence.
  - intros q. by eapply same_table_trans.
  - intros q g [-> |Hq']%elem_of_cons Hg; [|by apply (Hu2 q)].
    destruct (inv_store _ t Hi1) as (g1 & Hg1 & _).
    { unfold all_refs. cbn. apply elem_of_app. right. apply elem_of_app. left. apply Hsub. left. }
    destruct (Hs2 t g1 Hg1) as (g2 & Hg2 & _ & _ & _ & Hu). rewrite Hg in Hg2. injection Hg2 as <-. apply Hu. by apply Hu1.
Qed.

Lemma release_one t l wd h pd :
  quiet wd → inv (mkConf l wd (t :: h) pd) →
  let R := tables l ++ h ++ pd in
  ∃ f f' l' wd', store l !! t = Some f ∧ DecrRef t (l, wd) = (Ok (), (l', wd')) ∧ inv (mkConf l' wd' h pd) ∧ same_list l l' ∧
    store l' = <[t := f']> (store l) ∧ Path f' = Path f ∧ unlinked f' = unlinked f ∧ (∀ q, q ∈ R → same_table l l' q) ∧
    dirs wd' = dirs wd ∧ quiet wd' ∧
    (∀ path, Path f ≠ path ∨ t ∈ R ∨ unlinked f = false → files wd' !! path = files wd !! path) ∧
    (¬ (t ∈ R) → unlinked f = true → files wd' !! Path f = None).
Proof.
  intros Hq Hi R. assert (all_refs (mkConf l wd (t :: h) pd) ≡ₚ t :: R) as Hperm.
  { unfold all_refs, R. cbn. by rewrite <-Permutation_middle. }
  destruct (inv_store _ t Hi ltac:(rewrite Hperm; left)) as (f & Hf & _). pose proof (iv_bound _ Hi) as Hb. cbn [cl] in Hf.
  unfold zlen in Hb. rewrite Hperm in Hb. fold (zlen (t :: R)) in Hb. rewrite zlen_cons in Hb.
  destruct (wp_elim (DecrRef t) (λ r s, r = Ok () ∧ same_list l s.1 ∧ (∃ f', store s.1 = <[t := f']> (store l) ∧ Path f' = Path f ∧ unlinked f' = unlinked f) ∧
    (∀ q, q ∈ R → same_table l s.1 q) ∧ dirs s.2 = dirs wd ∧ quiet s.2 ∧
    (∀ path, Path f ≠ path ∨ t ∈ R ∨ unlinked f = false → files s.2 !! path = files wd !! path) ∧
    (¬ (t ∈ R) → unlinked f = true → files s.2 !! Path f = None)) (l, wd))
    as (r & [l1 wd1] & Hrun & -> & Hl1 & (f' & Hs1 & Hp1 & Hu1) & Hrest).
  { eapply (wp_DecrRef t l wd f R); [eapply counted_perm; [exact Hperm|exact (iv_counted _ Hi)]|done|lia|].
    intros r l' wd' f' _ Hl' Hs (Hp & Hg & Hu & _) Hrd (Hd & Ho & Hq') Hsame Hgone Hr _. cbn [fst snd]. split_and!; auto.
    - exists f'. by split_and!.
    - intros q Hin. eapply same_table_insert; [exact Hf|exact Hs|done|done|by intros ->; apply Hrd|by rewrite Hu].
    - intros path [Hne|Hin]; [by apply Ho|]. by rewrite Hsame. }
  cbn [fst snd] in *. exists f, f', l1, wd1. split_and!; try done; [by eapply inv_release|apply Hrest..].
Qed.

(** Giving back held tables: those replaced meanwhile and held by nobody else are removed,
    nothing else is. *)
Lemma ReleaseTables_spec ts l wd h pd :
  quiet wd → inv (mkConf l wd (ts ++ h) pd) →
  let rest := tables l ++ h ++ pd in
  ∃ l' wd', ReleaseTables ts (l, wd) = (Ok (), (l', wd')) ∧ inv (mkConf l' wd' h pd) ∧ same_list l l' ∧
    (∀ q, q ∈ rest → same_table l l' q) ∧ dirs wd' = dirs wd ∧ quiet wd' ∧
    (∀ path, (∀ p f, p ∈ ts → store l !! p = Some f → Path f = path → p ∈ rest ∨ unlinked f = false) → files wd' !! path = files wd !! path) ∧
    (∀ p f, p ∈ ts → ¬ (p ∈ rest) → store l !! p = Some f → unlinked f = true → files wd' !! Path f = None).
Proof.
  intros Hq Hi rest. subst rest. revert l wd Hq Hi. induction ts as [|t ts IH]; intros l wd Hq Hi.
  { exists l, wd. split_and!; try done. - intros q _. by apply same_table_store. - by intros p f ?%not_elem_of_nil. }
  destruct (release_one t l wd (ts ++ h) pd Hq Hi) as (f & f' & l1 & wd1 & Hf & Hrun & Hi1 & Hl1 & Hs1 & Hp1 & Hu1 & Hsame1 & Hd1 & Hq1 & Hfiles1 & Hgone1).
  destruct (IH l1 wd1 Hq1 Hi1) as (l2 & wd2 & Hrun2 & Hi2 & Hl2 & Hsame2 & Hd2 & Hq2 & Hkeep2 & Hgone2).
  pose proof Hl1 as [Ht1 _]. rewrite Ht1 in Hsame2, Hkeep2, Hgone2.
  assert (∀ p g, p ∈ ts → store l1 !! p = Some g → ∃ g0, store l !! p = Some g0 ∧ Path g = Path g0 ∧ unlinked g = unlinked g0) as Hback.
  { intros p g _. rewrite Hs1. destruct (decide (p = t)) as [->|Hne].
    - rewrite list_lookup_insert_eq by by eapply lookup_lt_Some. intros [= <-]. by exists f.
    - rewrite list_lookup_insert_ne by done. by exists g. }
  exists l2, wd2. cbn [ReleaseTables]. erewrite bind_Ok by (apply try_Ok; exact Hrun). split_and!; try congruence.
  - split; destruct Hl1, Hl2; congruence.
  - intros q Hin. eapply same_table_trans; [apply Hsame1|by apply Hsame2]. set_solver.
  - intros path Hpath. rewrite Hkeep2.
    + apply Hfiles1. destruct (decide (Path f = path)) as [E|]; [|by left]. right.
      destruct (Hpath t f ltac:(left) Hf E); [left; set_solver|by right].
    + intros p g Hp Hg E. destruct (Hback p g Hp Hg) as (g0 & Hg0 & Eg & Eu). rewrite Eu.
      apply (Hpath p g0); [by right|done|congruence].
  - intros p g Hp Hnr Hg Hu. destruct (decide (p ∈ ts)) as [Hpts|Hpts].
    + destruct (ct_valid _ _ (iv_counted _ Hi1) p) as [g1 Hg1]; [unfold all_refs; cbn; set_solver|].
      destruct (Hback p g1 Hpts Hg1) as (g0 & Hg0 & Eg & Eu). rewrite Hg in Hg0. injection Hg0 as <-.
      rewrite <-Eg. apply (Hgone2 p g1); [done|done|done|congruence].
    + apply elem_of_cons in Hp as [-> |?]; [|done]. rewrite Hf in Hg. injection Hg as <-.
      rewrite Hkeep2; [apply Hgone1; [set_solver|done]|].
      intros p g Hp Hg E. exfalso. destruct (Hback p g Hp Hg) as (g0 & Hg0 & Eg & _).
      assert (p = t) as ->; [|done]. apply (path_of_inj l p t (iv_paths _ Hi) ltac:(by eexists)).
      unfold path_of. rewrite Hg0, Hf. cbn. congruence.
Qed.
End calls.

(** ** Loading

    The table a directory entry stands for, if it is named like one and can be opened. *)
Definition table_file (basePath : path) (wd : world) (name : bytes) : option SSTableFile :=
  gen ← gen_of_name (base_name basePath) (base_ext basePath) name;
  match files wd !! mkPath (pdir basePath) name with
  | Some (File data _) =>
      match readFooter data with
      | Ok reader => Some (mkFile (mkPath (pdir basePath) name) gen (Some reader) 1 false false)
      | _ => None
      end
  | _ => None
  end.

Definition is_table_name (basePath : path) (name : bytes) : Prop :=
  is_Some (gen_of_name (base_name basePath) (base_ext basePath) name).

Definition max_gen (fs : list SSTableFile) (g : Z) : Z := foldl (λ g f, Z.max g (Gen f)) g fs.

Lemma OpenReader_quiet p wd data sy reader :
  quiet wd → files wd !! p = Some (File data sy) → readFooter data = Ok reader → OpenReader p wd = (Ok reader, wd).
Proof.
  intros Hq Hl Hr. unfold OpenReader. erewrite bind_Ok by by eapply os_Open_quiet.
  erewrite bind_Ok; [|apply try_Ok; rewrite syscall_quiet by done; unfold lift; by rewrite Hr]. done.
Qed.

Lemma load_loop_quiet basePath wd entries maxGen l :
  quiet wd → (∀ name d, (name, d) ∈ entries → is_table_name basePath name → is_Some (table_file basePath wd name)) →
  let fs := omap (λ e, table_file basePath wd e.1) entries in
  load_loop basePath entries maxGen (l, wd) =
    (Ok (max_gen fs maxGen), (mkList (store l ++ fs) (tables l ++ seq (length (store l)) (length fs)) (nextGen l), wd)).
Proof.
  intros Hq. revert maxGen l. induction entries as [|[name d] entries IH]; intros maxGen l Hall; cbn [load_loop omap list_omap fst].
  { cbn [max_gen foldl length seq]. rewrite !app_nil_r. by destruct l. }
  assert (∀ name d, (name, d) ∈ entries → is_table_name basePath name → is_Some (table_file basePath wd name)) as Hall'.
  { intros n d' Hn. apply (Hall n d'). by right. }
  destruct (gen_of_name (base_name basePath) (base_ext basePath) name) as [gen|] eqn:Eg.
  - destruct (Hall name d ltac:(left) ltac:(by eexists)) as [f Hf]. rewrite Hf. unfold table_file in Hf. rewrite Eg in Hf.
    cbn [mbind option_bind] in Hf. destruct (files wd !! _) as [[data sy|]|] eqn:El; try done.
    destruct (readFooter data) as [reader| | |] eqn:Er; try done. injection Hf as <-.
    erewrite bind_Ok; [|apply try_Ok, on_snd_run; by eapply OpenReader_quiet].
    unfold NewSSTableFile. unfold mbind at 1 2 3 4, M_bind at 1 2 3 4, get_fst, put_fst, modify_fst. cbn [mret M_ret].
    rewrite IH by done. cbn [set_store set_tables store tables nextGen]. rewrite length_app. cbn [length max_gen foldl seq].
    rewrite <-!(assoc_L (++)). cbn [app]. by rewrite Nat.add_1_r.
  - rewrite IH by done. unfold table_file. by rewrite Eg.
Qed.

(** Every matching file of the directory is a table that opens. *)
Definition dir_ok (basePath : path) (wd : world) : Prop :=
  ∀ name i, files wd !! mkPath (pdir basePath) name = Some i → is_table_name basePath name → is_Some (table_file basePath wd name).

(** The tables of a directory, in its order. *)
Definition dir_tables (basePath : path) (wd : world) : list SSTableFile :=
  omap (λ e, table_file basePath wd e.1) (dir_entries (pdir basePath) wd).

Lemma table_file_path basePath wd name f : table_file basePath wd name = Some f → Path f = mkPath (pdir basePath) name.
Proof.
  unfold table_file. destruct (gen_of_name _ _ _); [|done]. cbn [mbind option_bind].
  destruct (files wd !! _) as [[data sy|]|]; try done. destruct (readFooter data); try done. by intros [= <-].
Qed.

Lemma table_file_exists basePath wd name f :
  table_file basePath wd name = Some f → ∃ data sy, files wd !! mkPath (pdir basePath) name = Some (File data sy).
Proof.
  unfold table_file. destruct (gen_of_name _ _ _); [|done]. cbn [mbind option_bind].
  destruct (files wd !! _) as [[data sy|]|]; try done. eauto.
Qed.

Lemma dir_tables_spec basePath wd f : f ∈ dir_tables basePath wd ↔ ∃ name, table_file basePath wd name = Some f.
Proof.
  unfold dir_tables. rewrite list_elem_of_omap. split; [by intros ([name d] & _ & ?); exists name|].
  intros (name & Hf). destruct (table_file_exists _ _ _ _ Hf) as (data & sy & Hl).
  exists (name, false). split; [|done]. apply elem_dir_entries. by exists (File data sy).
Qed.

Lemma dir_tables_paths basePath wd : NoDup (Path <$> dir_tables basePath wd).
Proof.
  unfold dir_tables. pose proof (dir_entries_NoDup (pdir basePath) wd) as Hnd.
  assert (NoDup (dir_entries (pdir basePath) wd).*1) as Hnd1.
  { apply NoDup_fmap_fst; [|done]. intros name d d'. rewrite !elem_dir_entries.
    intros (i & Hi & ->) (j & Hj & ->). rewrite Hi in Hj. by injection Hj as ->. }
  clear Hnd. induction (dir_entries _ _) as [|[name d] es IH]; [constructor|]. cbn [omap list_omap fst].
  rewrite fmap_cons in Hnd1. apply NoDup_cons in Hnd1 as [Hnin Hnd1]. specialize (IH Hnd1).
  destruct (table_file basePath wd name) as [f|] eqn:E; [|done]. rewrite fmap_cons. constructor; [|done].
  rewrite (table_file_path _ _ _ _ E). intros (g & Hg & (x & Hx & Hxg)%list_elem_of_omap)%list_elem_of_fmap.
  apply table_file_path in Hxg. rewrite Hxg in Hg. injection Hg as ->. apply Hnin. cbn [fst]. exact (list_elem_of_fmap_2 fst _ x Hx).
Qed.

Lemma max_gen_spec fs g : g ≤ max_gen fs g ∧ ∀ f, f ∈ fs → Gen f ≤ max_gen fs g.
Proof.
  revert g. induction fs as [|f fs IH]; intros g; cbn [max_gen foldl]; [split; [lia|by intros f ?%not_elem_of_nil]|].
  destruct (IH (Z.max g (Gen f))) as [H1 H2]. split; [unfold max_gen in *; lia|].
  intros x [-> |Hx]%elem_of_cons; [unfold max_gen in *; lia|by apply H2].
Qed.

Lemma Load_quiet basePath wd l :
  quiet wd → pdir basePath ∈ dirs wd → dir_ok basePath wd →
  let fs := dir_tables basePath wd in
  let s := store l ++ fs in
  Load basePath (l, wd) = (Ok (), (mkList s (sort_gen s (seq (length (store l)) (length fs))) (max_gen fs 0), wd)).
Proof.
  intros Hq Hd Hall. unfold Load. unfold mbind at 1, M_bind at 1, modify_fst.
  erewrite bind_Ok by (apply on_snd_run; by apply os_ReadDir_quiet).
  erewrite bind_Ok by (apply load_loop_quiet; [done|]; intros name d (i & Hi & _)%elem_dir_entries; by apply (Hall name i)).
  done.
Qed.

(** One file that cannot be opened fails the whole load. *)
Lemma load_loop_bad basePath wd entries maxGen l bad gen e :
  quiet wd →
  (∀ name d, (name, d) ∈ entries → is_table_name basePath name → name ≠ bad → is_Some (table_file basePath wd name)) →
  gen_of_name (base_name basePath) (base_ext basePath) bad = Some gen →
  (∃ data sy, files wd !! mkPath (pdir basePath) bad = Some (File data sy) ∧ readFooter data = Err e) →
  bad ∈ entries.*1 → fst (load_loop basePath entries maxGen (l, wd)) = Err (ErrOpenTable gen e).
Proof.
  intros Hq Hall Hgen (data & sy & Hl & Hr). revert maxGen l.
  induction entries as [|[name d] entries IH]; intros maxGen l Hin; [by apply not_elem_of_nil in Hin|].
  rewrite fmap_cons in Hin. cbn [load_loop fst] in *.
  assert (∀ name d, (name, d) ∈ entries → is_table_name basePath name → name ≠ bad → is_Some (table_file basePath wd name)) as Hall'.
  { intros n d' Hn. apply (Hall n d'). by right. }
  destruct (decide (name = bad)) as [->|Hne].
  - rewrite Hgen. rewrite (bind_Ok _ _ _ (inr e) (l, wd)); [reflexivity|]. apply try_Err, on_snd_run. unfold OpenReader.
    erewrite bind_Ok by by eapply os_Open_quiet.
    erewrite bind_Ok by (apply try_Err; rewrite syscall_quiet by done; unfold lift; by rewrite Hr).
    cbv beta iota. erewrite bind_Ok by (apply try_Ok; by apply file_Close_quiet). done.
  - apply elem_of_cons in Hin as [?|Hin]; [congruence|].
    destruct (gen_of_name (base_name basePath) (base_ext basePath) name) as [g|] eqn:Eg; [|by apply IH].
    destruct (Hall name d ltac:(left) ltac:(by eexists) Hne) as [f Hf]. unfold table_file in Hf. rewrite Eg in Hf.
    cbn [mbind option_bind] in Hf. destruct (files wd !! mkPath (pdir basePath) name) as [[dt s|]|] eqn:En; try done.
    destruct (readFooter dt) as [reader| | |] eqn:Er; try done.
    erewrite bind_Ok; [|apply try_Ok, on_snd_run; by eapply OpenReader_quiet].
    unfold NewSSTableFile. unfold mbind at 1 2 3 4, M_bind at 1 2 3 4, get_fst, put_fst, modify_fst. cbn [mret M_ret].
    by apply IH.
Qed.

Lemma NewPath_name basePath g :
  is_u64 g → gen_of_name (base_name basePath) (base_ext basePath) (pbase (NewPath basePath g)) = Some g.
Proof. apply gen_of_gen_name. Qed.

(** Creating a writer in a world where no call fails. *)
Lemma NewWriter_quiet p bs wd :
  quiet wd → files wd !! p = None → pdir p ∈ dirs wd →
  ∃ w wd', NewWriter p bs wd = (Ok w, wd') ∧ quiet wd' ∧ dirs wd' = dirs wd ∧
    files wd' = <[p := File (header_layout bs) 0]> (files wd).
Proof.
  intros Hq Hl Hd.
  destruct (wp_elim (NewWriter p bs) (λ r wd', ∃ w, r = Ok w ∧ quiet wd' ∧ dirs wd' = dirs wd ∧
    files wd' = <[p := File (header_layout bs) 0]> (files wd)) wd) as (r & wd' & Hrun & w & -> & H); [|by exists w, wd'].
  unfold NewWriter. wsteps. apply wp_Create; [by rewrite Hl|done| |by apply may_fail_quiet].
  intros wd1 (Hd1 & Hf1 & Hq1). cbv beta iota. wsteps. unfold writeHeader. wsteps. rewrite header_bytes_layout.
  wsteps. unfold out_Write_ok, out_Write. wsteps. eapply wp_Write; [cbn [wfile]; rewrite Hf1; apply lookup_insert_eq|].
  intros n err wd2 _ Hfull Hq2 (Hd2 & Hf2 & Hq2'). cbv beta iota. rewrite Hq2 by auto. cbv beta iota. wsteps.
  eexists. split_and!; [done|auto|congruence|]. rewrite Hf2, Hf1, Hfull, firstn_all, insert_insert_eq by auto. done.
Qed.

(** ** Claims *)


(** Two compactions of one list that overlap, and a reader: [Compact] has no lock of its own. *)
Definition two_compactions (p2 p3 : path) (r2 r3 : Reader) : T (list nat) :=
  held ← GetTables;
  t1 ← GetTables;
  t2 ← GetTables;
  n1 ← NewSSTableFile p2 2 r2;
  ReplaceTables t1 (Some n1);;
  ReleaseTables t1;;
  n2 ← NewSSTableFile p3 3 r3;
  ReplaceTables t2 (Some n2);;
  ReleaseTables t2;;
  mret held.

Definition demo_base : path := mkPath [x64] [x74; x2e; x73].
Definition demo_files : world := mkWorld {[ [x64] ]} {[ NewPath demo_base 1 := File [] 0 ]} [].



(** C35: loading finds every table. In a directory whose matching files can all be opened, [Load]
    succeeds and lists exactly those files, once each, newest generation first, with one
    reference and their own reader; a table stored under [NewPath] of a generation is one of
    them, with that generation; and [NextGen] will exceed every generation listed. *)
Theorem load_lists_directory basePath wd l :
  quiet wd → pdir basePath ∈ dirs wd → dir_ok basePath wd →
  ∃ l', Load basePath (l, wd) = (Ok (), (l', wd)) ∧ NoDup (tables l') ∧ newest_first (store l') (tables l') ∧
    (∀ f, (∃ name, table_file basePath wd name = Some f) ↔ ∃ p, p ∈ tables l' ∧ store l' !! p = Some f) ∧
    (∀ g data sy reader, is_u64 g → files wd !! NewPath basePath g = Some (File data sy) → readFooter data = Ok reader →
      ∃ p, p ∈ tables l' ∧ store l' !! p = Some (mkFile (NewPath basePath g) g (Some reader) 1 false false)) ∧
    (∀ p f, p ∈ tables l' → store l' !! p = Some f → Gen f ≤ nextGen l').
Proof.
  intros Hq Hd Hall. rewrite (Load_quiet basePath wd l Hq Hd Hall). set (fs := dir_tables basePath wd).
  eexists. split; [done|]. cbn [store tables nextGen]. set (s := store l ++ fs). set (ps := seq _ _).
  assert (∀ p f, p ∈ sort_gen s ps → s !! p = Some f → f ∈ fs) as Hin.
  { intros p f. rewrite sort_gen_perm. intros Hp%elem_of_seq Hf. unfold s in Hf. rewrite lookup_app_r in Hf by lia.
    by eapply list_elem_of_lookup_2. }
  assert (∀ f, f ∈ fs → ∃ p, p ∈ sort_gen s ps ∧ s !! p = Some f) as Hex.
  { intros f [i Hi]%list_elem_of_lookup. exists (length (store l) + i)%nat. split.
    - rewrite sort_gen_perm. apply elem_of_seq. apply lookup_lt_Some in Hi. lia.
    - unfold s. rewrite lookup_app_r by lia. by replace (_ + i - _)%nat with i by lia. }
  split_and!.
  - rewrite sort_gen_perm. apply NoDup_seq.
  - apply sort_gen_sorted.
  - intros f. rewrite <-dir_tables_spec. split; [apply Hex|]. intros (p & Hp & Hf). by eapply Hin.
  - intros g data sy reader Hg Hl Hr. apply Hex, dir_tables_spec. exists (pbase (NewPath basePath g)).
    unfold table_file. rewrite NewPath_name by done. cbn [mbind option_bind].
    change (mkPath (pdir basePath) (pbase (NewPath basePath g))) with (NewPath basePath g). by rewrite Hl, Hr.
  - intros p f Hp Hf. apply max_gen_spec. by eapply Hin.
Qed.

(** C36: a flush cut short by a crash makes the directory unloadable. If a crash comes right after
    the table file of a flush or a compaction was created, the file is left empty under its
    final name, and from then on [Load] fails, although every other table is intact. *)
Theorem interrupted_flush_blocks_load basePath bs g wd l :
  quiet wd → pdir basePath ∈ dirs wd → dir_ok basePath wd → is_u64 g → files wd !! NewPath basePath g = None →
  (∀ p data sy, files wd !! p = Some (File data sy) → sy = length data) →
  ∃ w wd', NewWriter (NewPath basePath g) bs wd = (Ok w, wd') ∧ crash wd' (lose_unsynced wd') ∧
    fst (Load basePath (l, lose_unsynced wd')) = Err (ErrOpenTable g ErrTableTooSmall).
Proof.
  intros Hq Hd Hall Hg Hfresh Hsync. destruct (NewWriter_quiet (NewPath basePath g) bs wd Hq Hfresh Hd) as (w & wd' & Hrun & Hq' & Hd' & Hf').
  exists w, wd'. split_and!; [done|apply lose_unsynced_crash|]. set (wd2 := lose_unsynced wd').
  assert (files wd2 !! NewPath basePath g = Some (File [] 0)) as Hnew.
  { unfold wd2, lose_unsynced. cbn [files]. by rewrite Hf', lookup_fmap, lookup_insert_eq. }
  assert (∀ q, q ≠ NewPath basePath g → files wd2 !! q = files wd !! q) as Hold.
  { intros q Hne. unfold wd2, lose_unsynced. cbn [files]. rewrite Hf', lookup_fmap, lookup_insert_ne by done.
    destruct (files wd !! q) as [[data sy|]|] eqn:E; cbn; [|done..]. by rewrite (Hsync _ _ _ E), firstn_all. }
  unfold Load. unfold mbind at 1, M_bind at 1, modify_fst.
  erewrite bind_Ok by (apply on_snd_run; apply os_ReadDir_quiet; [done|unfold wd2; cbn; by rewrite Hd']).
  pose proof (load_loop_bad basePath wd2 (dir_entries (pdir basePath) wd2) 0 (set_tables [] l)
    (pbase (NewPath basePath g)) g ErrTableTooSmall) as Hbad.
  unfold mbind at 1, M_bind at 1. destruct (load_loop _ _ _ _) as [r [l1 wd3]]. cbn [fst] in Hbad. rewrite Hbad; [done|done| |by apply NewPath_name| |].
  - intros name d (i & Hi & _)%elem_dir_entries Hn Hne. unfold table_file in *. rewrite Hold in * by (intros E; apply Hne; by injection E).
    by apply (Hall name i).
  - exists [], 0%nat. split; [exact Hnew|by vm_compute].
  - apply (list_elem_of_fmap_2 fst _ (pbase (NewPath basePath g), false)), elem_dir_entries. by exists (File [] 0).
Qed.

Lemma demo_dir_ok : dir_ok demo_base (mkWorld {[ [x64] ]} ∅ []).
Proof. intros name i Hi. cbn in Hi. by rewrite lookup_empty in Hi. Qed.

(** A directory with one table. *)
Definition demo_stored (b : BloomFilter) : world :=
  mkWorld {[ [x64] ]} {[ NewPath demo_base 1 := File (@table_bytes stored 40 [demo_entries] b) 0 ]} [].

Lemma demo_stored_ok b : @table_ok toy_hash [demo_entries] b demo_entries → dir_ok demo_base (demo_stored b).
Proof.
  intros Htb name i Hi _. cbn in Hi. apply lookup_singleton_Some in Hi as [Hp <-].
  injection Hp as <-. unfold table_file.
  change (gen_of_name _ _ _) with (gen_of_name (base_name demo_base) (base_ext demo_base) (pbase (NewPath demo_base 1))).
  rewrite NewPath_name by done. cbn [mbind option_bind]. change (mkPath (pdir demo_base) _) with (NewPath demo_base 1).
  unfold demo_stored. cbn [files]. rewrite lookup_singleton_eq.
  rewrite (@readFooter_written stored toy_hash 40 [demo_entries] b demo_entries Htb). by eexists.
Qed.

Lemma load_lists_directory_witness :
  ∃ b, let wd := demo_stored b in
  ∃ l', Load demo_base (mkList [] [] 0, wd) = (Ok (), (l', wd)) ∧
    NoDup (tables l') ∧ newest_first (store l') (tables l') ∧
    (∀ f, (∃ name, table_file demo_base wd name = Some f) ↔ ∃ p, p ∈ tables l' ∧ store l' !! p = Some f) ∧
    (∀ g data sy reader, is_u64 g → files wd !! NewPath demo_base g = Some (File data sy) → readFooter data = Ok reader →
      ∃ p, p ∈ tables l' ∧ store l' !! p = Some (mkFile (NewPath demo_base g) g (Some reader) 1 false false)) ∧
    (∀ p f, p ∈ tables l' → store l' !! p = Some f → Gen f ≤ nextGen l').
Proof.
  destruct (@demo_table_ok stored toy_hash) as (b & Htb). exists b.
  apply (load_lists_directory demo_base (demo_stored b) (mkList [] [] 0)).
  - done.
  - change ([x64] ∈ ({[ [x64] ]} : gset bytes)); by apply elem_of_singleton.
  - exact (demo_stored_ok b Htb).
Defined.

Lemma interrupted_flush_blocks_load_witness :
  ∃ w wd', NewWriter (NewPath demo_base 7) 4096 (mkWorld {[ [x64] ]} ∅ []) = (Ok w, wd') ∧ crash wd' (lose_unsynced wd') ∧
    fst (Load demo_base (mkList [] [] 0, lose_unsynced wd')) = Err (ErrOpenTable 7 ErrTableTooSmall).
Proof.
  apply (interrupted_flush_blocks_load demo_base 4096 7 (mkWorld {[ [x64] ]} ∅ []) (mkList [] [] 0)).
  - done.
  - by_decide.
  - exact demo_dir_ok.
  - by_decide.
  - done.
  - intros p data sy Hp. cbn in Hp. by rewrite lookup_empty in Hp.
Defined.
