(* ===== verification/Compactor.v ===== *)
(** * The compactor (compactor/compact.go, compactor/read.go)

    [CompactAll] and [CompactRange]: a merge of listed tables, and the exchange of the
    tables merged for the result, over the reference counts of the list. *)
From Stdlib Require Import ZArith Lia Strings.Byte.
From stdpp Require Import base list gmap sorting.
From S2P Require Import Prelude Monad Fs Block Bloom Writer Reader Merge SSTableList.

(** What the merge sees of a listed table. *)
Definition table_of (l : SSTableList) (p : nat) : Z * option Reader :=
  match store l !! p with Some f => (Gen f, sfReader f) | None => (0, None) end.

Section compactor.
Context `{Snappy, Hash128}.

(** A [Compactor] is its list. [fuel] bounds the rounds of the merge. *)
Definition CompactRange (fuel : nat) (ts : list nat) (basePath : path) (isMajor : bool) : T unit :=
  match ts with
  | [] => mret ()
  | _ =>
      r ← try (
        targetGen ← NextGen;
        l ← get_fst;
        let outputPath := NewPath basePath targetGen in
        newFile ← on_snd (CompactSSTables fuel (table_of l <$> ts) (mkOptions DefaultBlockSize isMajor targetGen outputPath));
        new ← match newFile with
              | None => mret None
              | Some (p, g, reader) => n ← NewSSTableFile p g reader; mret (Some n)
              end;
        ReplaceTables ts new);
      ReleaseTables ts;;
      match r with inr e => fail e | inl _ => mret () end
  end.

Definition CompactAll (fuel : nat) (basePath : path) (isMajor : bool) : T unit :=
  ts ← GetTables;
  CompactRange fuel ts basePath isMajor.
End compactor.

(** The tables a lookup walks through. *)
Definition list_tables (l : SSTableList) : list (Z * option Reader) := table_of l <$> tables l.

Lemma table_of_same l l' p : is_Some (store l !! p) → same_table l l' p → table_of l' p = table_of l p.
Proof. intros [f Hf] Hs. destruct (Hs f Hf) as (f' & Hf' & _ & Hg & Hr & _). unfold table_of. rewrite Hf, Hf'. congruence. Qed.

Lemma tables_of_same l l' (ts : list nat) :
  (∀ p, p ∈ ts → is_Some (store l !! p)) → (∀ p, p ∈ ts → same_table l l' p) → table_of l' <$> ts = table_of l <$> ts.
Proof.
  intros Hv Hs. induction ts as [|t ts IH]; [done|]. rewrite !fmap_cons, IH by (intros p Hp; (apply Hv || apply Hs); by right).
  f_equal. apply table_of_same; [apply Hv|apply Hs]; left.
Qed.

(** ** A compaction between other calls *)
Section compact.
Context `{Snappy, Hash128}.

(** The list can be compacted: open tables, newest first, with entries a merge can write to
    the fresh path of the next generation. *)
Record ready (l : SSTableList) (wd : world) (tabs : list stream) (basePath : path) (isMajor : bool) : Prop := {
  rd_quiet : quiet wd;
  rd_inv : inv (mkConf l wd [] []);
  rd_tables : Forall2 readable_table (list_tables l) tabs;
  rd_gens : StronglySorted Z.gt (fst <$> tabs);
  rd_next : 0 ≤ nextGen l < 2^64 - 1;
  rd_fresh : ¬ (NewPath basePath (nextGen l + 1) ∈ Path <$> store l);
  rd_compactable : compactable tabs (mkOptions DefaultBlockSize isMajor (nextGen l + 1) (NewPath basePath (nextGen l + 1))) wd;
  rd_bound : 2 * zlen (tables l) < 2^31 - 3
}.

(** What the exchange leaves. *)
Record exchanged (l : SSTableList) (wd : world) (r : option (path * Z * Reader)) (l' : SSTableList) (wd' : world) : Prop := {
  ex_inv : inv (mkConf l' wd' [] []);
  ex_tables : list_tables l' = output_tables r;
  ex_removed : ∀ p f, p ∈ tables l → store l !! p = Some f → files wd' !! Path f = None;
  ex_kept : ∀ q, (∀ p f, p ∈ tables l → store l !! p = Some f → Path f ≠ q) → files wd' !! q = files wd !! q;
  ex_dirs : dirs wd' = dirs wd;
  ex_quiet : quiet wd';
  ex_next : nextGen l' = nextGen l
}.

(** From the merged table to the end of the call: exchange, drop, release. *)
Lemma exchange_spec l wd new r :
  quiet wd → inv (mkConf l wd (option_list new ++ tables l) []) →
  (∀ n, new = Some n → unlisted (mkConf l wd (option_list new ++ tables l) []) n) →
  list_tables (set_tables (option_list new) l) = output_tables r →
  ∃ l' wd', (r ← try (ReplaceTables (tables l) new); ReleaseTables (tables l);; match r with inr e => fail e | inl _ => mret () end) (l, wd) =
    (Ok (), (l', wd')) ∧ exchanged l wd r l' wd'.
Proof.
  intros Hq Hi Hnew Hout. pose proof (iv_nodup _ Hi) as Hnd. cbn in Hnd.
  assert (kept l (tables l) = []) as Hkept by (apply filter_none; intros p Hp; tauto).
  assert (∀ n, new = Some n → n ∈ all_refs (mkConf l wd (option_list new ++ tables l) [])) as Hnref.
  { intros n ->. unfold all_refs. cbn. apply elem_of_app. right. left. }
  pose proof (swap_run l wd (all_refs (mkConf l wd (option_list new ++ tables l) [])) (tables l) new (iv_counted _ Hi) (iv_paths _ Hi)
    ltac:(unfold all_refs; cbn; set_solver) Hnref) as Hswap.
  rewrite Hkept in Hswap. cbn [app] in Hswap. set (l1 := set_tables (sort_gen (store l) (option_list new)) l) in *.
  assert (tables l1 = option_list new) as Ht1 by (unfold l1; cbn; by destruct new).
  pose proof (inv_swap l wd (option_list new ++ tables l) [] (tables l) new (tables l) _ l1 wd Hi Hnd ltac:(done) ltac:(done) Hnew Hswap) as Hi1.
  destruct (drop_loop_held (tables l) l1 wd (tables l) [] Hq Hi1 ltac:(done)) as (l2 & wd2 & Hdrop & Hi2 & [Ht2 Hg2] & Hs2 & Hu2 & Hf2 & Hd2 & Hq2).
  destruct (ReleaseTables_spec (tables l) l2 wd2 [] [] Hq2) as (l3 & wd3 & Hrel & Hi3 & [Ht3 Hg3] & Hs3 & Hd3 & Hq3 & Hkeep & Hgone).
  { by rewrite app_nil_r. }
  assert (∀ p f, p ∈ tables l → store l !! p = Some f → ∃ f2, store l2 !! p = Some f2 ∧ Path f2 = Path f ∧ unlinked f2 = true) as Hold.
  { intros p f Hp Hf. destruct (Hs2 p f Hf) as (f2 & Hf2' & Hp2 & _). exists f2. split_and!; [done..|]. by apply (Hu2 p). }
  exists l3, wd3. split.
  - erewrite bind_Ok; [|apply try_Ok; unfold ReplaceTables; erewrite bind_Ok by exact Hswap; erewrite bind_Ok by exact Hdrop; reflexivity].
    cbv beta iota. erewrite bind_Ok by exact Hrel. done.
  - assert (tables l3 = option_list new) as Htl by congruence. split; [exact Hi3| | | |congruence|done|cbn in Hg2; congruence].
    + rewrite <-Hout. unfold list_tables. rewrite Htl. cbn [tables set_tables].
      assert (∀ n, n ∈ option_list new → is_Some (store l !! n)) as Hv.
      { intros n Hn. destruct new as [m|]; [|by apply not_elem_of_nil in Hn]. apply list_elem_of_singleton in Hn as ->.
        by apply (ct_valid _ _ (iv_counted _ Hi)), Hnref. }
      change (table_of (set_tables (option_list new) l)) with (table_of l).
      apply tables_of_same; [done|]. intros n Hn. eapply same_table_trans; [exact (Hs2 n)|].
      apply Hs3. rewrite Ht2, Ht1. set_solver.
    + intros p f Hp Hf. destruct (Hold p f Hp Hf) as (f2 & Hf2' & <- & Hu). apply (Hgone p f2); [done| |done|done].
      rewrite Ht2, Ht1, !app_nil_r. intros Hin. destruct new as [n|]; [|by apply not_elem_of_nil in Hin].
      apply list_elem_of_singleton in Hin as ->. by destruct (Hnew n eq_refl).
    + intros q Hpath. rewrite Hkeep, Hf2; [done|]. intros p f2 Hp Hf2' E. exfalso.
      destruct (ct_valid _ _ (iv_counted _ Hi) p) as [f Hf]; [unfold all_refs; cbn; set_solver|].
      destruct (Hold p f Hp Hf) as (f2' & Hf2'' & Ep & _). apply (Hpath p f Hp Hf). congruence.
Qed.

Lemma CompactRange_cons fuel ts basePath isMajor :
  ts ≠ [] → CompactRange fuel ts basePath isMajor =
    (r ← try (
        targetGen ← NextGen;
        l ← get_fst;
        let outputPath := NewPath basePath targetGen in
        newFile ← on_snd (CompactSSTables fuel (table_of l <$> ts) (mkOptions DefaultBlockSize isMajor targetGen outputPath));
        new ← match newFile with
              | None => mret None
              | Some (p, g, reader) => n ← NewSSTableFile p g reader; mret (Some n)
              end;
        ReplaceTables ts new);
      ReleaseTables ts;;
      match r with inr e => fail e | inl _ => mret () end).
Proof. by destruct ts. Qed.

(** Running a prefix of a [try] block. *)
Lemma try_bind_Ok {S A B D} (m : M S A) (f : A → M S B) (k : B + error → M S D) s a s' :
  m s = (Ok a, s') → (r ← try (m ≫= f); k r) s = (r ← try (f a); k r) s'.
Proof. intros Hm. unfold mbind, M_bind, try. by rewrite Hm. Qed.

(** Adding the file of the merged table to the store. *)
Lemma new_file_spec l wd h out gen reader data sy :
  inv (mkConf l wd h []) → ¬ (out ∈ Path <$> store l) → files wd !! out = Some (File data sy) → zlen (tables l ++ h) < 2^31 - 2 →
  ∃ n l', NewSSTableFile out gen reader (l, wd) = (Ok n, (l', wd)) ∧ inv (mkConf l' wd (n :: h) []) ∧
    same_list l l' ∧ (∀ q, same_table l l' q) ∧ unlisted (mkConf l' wd (n :: h) []) n ∧ table_of l' n = (gen, Some reader).
Proof.
  intros Hi Hfresh Hl Hb. eexists _, _. split; [reflexivity|].
  split; [|split; [done|split; [|split; [split; [|split; [by intros ?%not_elem_of_nil|]]|]]]].
  - eapply (inv_new l wd h [] out gen reader data sy); [done|done|done|by rewrite app_nil_r|reflexivity].
  - intros q f Hf. exists f. cbn [store set_store]. rewrite (lookup_app_l_Some _ _ _ _ Hf). by split_and!.
  - cbn. intros Hin. destruct (ct_valid _ _ (iv_counted _ Hi) (length (store l))) as [g Hg%lookup_lt_Some]; [unfold all_refs; cbn; set_solver|cbn in Hg; lia].
  - cbn. intros f. rewrite lookup_app_r, Nat.sub_diag by lia. by intros [= <-].
  - unfold table_of. cbn. by rewrite lookup_app_r, Nat.sub_diag by lia.
Qed.

Lemma CompactAll_spec fuel basePath isMajor l wd tabs :
  ready l wd tabs basePath isMajor → tables l ≠ [] → (total tabs < fuel)%nat →
  let out := NewPath basePath (nextGen l + 1) in
  ∃ L r l' wd', CompactAll fuel basePath isMajor (l, wd) = (Ok (), (l', wd')) ∧ merged None tabs L ∧
    inv (mkConf l' wd' [] []) ∧ list_tables l' = output_tables r ∧ nextGen l' = nextGen l + 1 ∧ dirs wd' = dirs wd ∧ quiet wd' ∧
    match r with
    | None => keep isMajor L = [] ∧ (files wd' !! out = files wd !! out ∨ files wd' !! out = None)
    | Some (p, g, reader) => p = out ∧ g = nextGen l + 1 ∧ readable reader (keep isMajor L) ∧
        ∃ data, files wd' !! out = Some (File data (length data)) ∧ readFooter data = Ok reader
    end ∧
    (∀ p f, p ∈ tables l → store l !! p = Some f → files wd' !! Path f = None) ∧
    (∀ q, q ≠ out → (∀ p f, p ∈ tables l → store l !! p = Some f → Path f ≠ q) → files wd' !! q = files wd !! q).
Proof.
  intros [Hq Hi Htabs Hgens Hnext Hfresh Hcomp Hb] Hne Hfuel out.
  destruct (get_loop_spec (tables l) l wd [] [] Hi ltac:(done)) as (l1 & Hget & Hi1 & [Ht1 Hg1] & Epaths1 & Hs1).
  { cbn [app]. rewrite app_nil_r. lia. }
  rewrite app_nil_r in Hi1. set (l2 := set_nextGen (nextGen l + 1) l1).
  assert (inv (mkConf l2 wd (tables l) [])) as Hi2.
  { eapply inv_share; [exact Hi1|done|done|exact (iv_nodup _ Hi1)|exact (iv_listed _ Hi1)|exact (iv_pending _ Hi1)]. }
  assert (∀ q, same_table l l2 q) as Hs2 by exact Hs1.
  assert (Path <$> store l2 = Path <$> store l) as Epaths by exact Epaths1.
  assert (∀ p, p ∈ tables l → is_Some (store l !! p)) as Hv.
  { intros p Hp. apply (ct_valid _ _ (iv_counted _ Hi)). unfold all_refs. cbn. set_solver. }
  assert (table_of l2 <$> tables l = list_tables l) as Etabs by (apply tables_of_same; auto).
  destruct (readable_streams _ _ Htabs) as [Hstreams _].
  set (opts := mkOptions DefaultBlockSize isMajor (nextGen l + 1) out) in *.
  destruct (wp_elim (CompactSSTables fuel (list_tables l) opts) (λ r wd', ∃ L o, r = Ok o ∧ merged None tabs L ∧ only out wd wd' ∧
    compacted opts (keep isMajor L) o wd wd') wd) as (r0 & wd1 & Hrun & L & o & -> & Hm & (Hd1 & Ho1 & Hq1) & Hout).
  { eapply wp_CompactSSTables; [exact Hstreams|exact Hcomp|exact Hfuel| |done]. intros L o wd' Hm Ho Hc. by exists L, o. }
  assert (inv (mkConf l2 wd1 (tables l) [])) as Hi3.
  { eapply inv_env; [exact Hi2|]. rewrite Epaths. intros q Hin. apply Ho1. by intros ->. }
  unfold CompactAll, GetTables. erewrite bind_Ok by (unfold mbind, M_bind, get_fst; exact Hget).
  rewrite CompactRange_cons by done.
  erewrite try_bind_Ok by (unfold NextGen, mbind, M_bind, get_fst, put_fst, mret, M_ret; reflexivity).
  rewrite Hg1, u64_id by (unfold is_u64; lia). fold l2. erewrite try_bind_Ok by reflexivity. cbv beta zeta.
  rewrite Etabs. fold out. fold opts. erewrite try_bind_Ok by (apply on_snd_run; exact Hrun).
  assert (∃ new l3, (match o with None => mret None | Some (p, g, reader) => n ← NewSSTableFile p g reader; mret (Some n) end : T _)
      (l2, wd1) = (Ok new, (l3, wd1)) ∧ inv (mkConf l3 wd1 (option_list new ++ tables l) []) ∧ same_list l2 l3 ∧ (∀ q, same_table l2 l3 q) ∧
      (∀ n, new = Some n → unlisted (mkConf l3 wd1 (option_list new ++ tables l) []) n) ∧
      list_tables (set_tables (option_list new) l3) = output_tables o) as (new & l3 & Hnew & Hi4 & [Ht3 Hg3] & Hs3 & Hunl & Houtt).
  { destruct o as [[[p g] reader]|].
    - destruct Hout as (-> & -> & _ & _ & data & Hl & _).
      destruct (new_file_spec l2 wd1 (tables l) out (nextGen l + 1) reader data (length data) Hi3) as (n & l3 & Hn & Hi4 & Hl3 & Hs3 & Hunl & Htab);
        [by rewrite Epaths|exact Hl|cbn; rewrite Ht1, zlen_app; lia|].
      exists (Some n), l3. split; [by erewrite bind_Ok by exact Hn|]. split_and!; [done|apply Hl3..|done|by intros m [= <-]|].
      cbn. unfold list_tables. cbn. change (table_of (set_tables [n] l3) n) with (table_of l3 n). by rewrite Htab.
    - exists None, l2. split_and!; try done. by intros q; apply same_table_store. }
  erewrite try_bind_Ok by exact Hnew.
  assert (tables l3 = tables l) as Htl by (cbn in Ht3; congruence).
  assert (quiet wd1) as Hqw by by apply Hq1.
  rewrite <-Htl in Hi4, Hunl. destruct (exchange_spec l3 wd1 new o Hqw Hi4 Hunl Houtt) as (l4 & wd2 & Hex & [Hi5 Htab Hrem Hkeep Hd2 Hq2 Hn4]).
  rewrite Htl in *.
  assert (∀ p f, p ∈ tables l → store l !! p = Some f → ∃ f3, store l3 !! p = Some f3 ∧ Path f3 = Path f) as Hf3.
  { intros p f Hp Hf. destruct (Hs2 p f Hf) as (f2 & Hf2 & Ep & _). destruct (Hs3 p f2 Hf2) as (f3 & Hf3 & Ep' & _). exists f3. split; [done|congruence]. }
  assert (∀ q, (∀ p f, p ∈ tables l → store l !! p = Some f → Path f ≠ q) → files wd2 !! q = files wd1 !! q) as Hkeep'.
  { intros q Hpq. apply Hkeep. intros p f3 Hp Hf E. destruct (Hv p Hp) as [f Hf0]. destruct (Hf3 p f Hp Hf0) as (f3' & Hf3' & Ep).
    apply (Hpq p f Hp Hf0). congruence. }
  exists L, o, l4, wd2. split_and!; [exact Hex|done|done|done|cbn in Hg3; congruence|congruence|done| | |].
  - assert (files wd2 !! out = files wd1 !! out) as Eout.
    { apply Hkeep'. intros p f Hp Hf E. apply Hfresh. fold out. rewrite <-E.
      apply list_elem_of_fmap_2. by eapply list_elem_of_lookup_2. }
    destruct o as [[[p g] reader]|].
    + destruct Hout as (-> & -> & Hread & _ & data & Hl & Hr). split_and!; [done..|].
      exists data. split; [|done]. by rewrite Eout.
    + destruct Hout as [-> Hfs]. split; [done|]. rewrite Eout. change (OutputPath opts) with out in Hfs.
      destruct Hfs as [-> | ->]; auto.
  - intros p f Hp Hf. destruct (Hf3 p f Hp Hf) as (f3 & Hf3' & <-). by apply (Hrem p).
  - intros q Hq' Hpq. rewrite Hkeep' by done. by apply Ho1.
Qed.
End compact.

(** ** Claims *)
Section claims.
Context `{Snappy, Hash128}.

(** C5: [CompactAll] exchanges all tables for their merge and nothing else. In a quiet list that is
    ready, it succeeds; every lookup through the list gives the value and found flag it
    gave before; the list then has at most the one new table, of the next generation; the
    files of the old tables are removed and no other file of the directory is touched; and
    the counts are those of a list nobody holds tables of, so nothing leaks. *)
Theorem compact_all_correct fuel basePath isMajor l wd tabs :
  ready l wd tabs basePath isMajor → tables l ≠ [] → (total tabs < fuel)%nat →
  let out := NewPath basePath (nextGen l + 1) in
  ∃ l' wd', CompactAll fuel basePath isMajor (l, wd) = (Ok (), (l', wd')) ∧
    (∀ sid ts, Get_tables (list_tables l') sid ts = after_compaction isMajor (Get_tables (list_tables l) sid ts)) ∧
    (length (tables l') ≤ 1)%nat ∧ (∀ g r, (g, r) ∈ list_tables l' → g = nextGen l + 1) ∧
    (∀ p f, p ∈ tables l → store l !! p = Some f → files wd' !! Path f = None) ∧
    (∀ q, q ≠ out → (∀ p f, p ∈ tables l → store l !! p = Some f → Path f ≠ q) → files wd' !! q = files wd !! q) ∧
    inv (mkConf l' wd' [] []) ∧ quiet wd'.
Proof.
  intros Hready Hne Hfuel out. pose proof Hready as [_ _ Htabs Hgens _ _ _ _].
  destruct (CompactAll_spec fuel basePath isMajor l wd tabs Hready Hne Hfuel)
    as (L & r & l' & wd' & Hrun & Hm & Hi & Htab & _ & _ & Hq & Hr & Hrem & Hkeep).
  exists l', wd'. split; [exact Hrun|]. split_and!; [| | |done|done|done|done].
  - intros sid ts. rewrite Htab, (Get_tables_spec _ _ _ _ Htabs).
    eapply compacted_lookups; [exact Hm|exact Hgens|]. destruct r as [[[p g] reader]|]; [|by apply Hr]. by destruct Hr as (_ & _ & ? & _).
  - replace (length (tables l')) with (length (list_tables l')) by (unfold list_tables; apply length_fmap). rewrite Htab.
    destruct r as [[[p g] reader]|]; cbn; lia.
  - intros g o. rewrite Htab. destruct r as [[[p g'] reader]|]; [|by intros ?%not_elem_of_nil].
    intros [= -> _]%list_elem_of_singleton. by destruct Hr as (_ & -> & _).
Qed.
End claims.

(** ** The claims at small lists *)
Definition demo_list (r2 r1 : Reader) : SSTableList :=
  mkList [mkFile (NewPath demo_base 2) 2 (Some r2) 1 false false; mkFile (NewPath demo_base 1) 1 (Some r1) 1 false false] [0; 1]%nat 2.
Definition demo_two_files : world :=
  mkWorld {[ [x64] ]} (<[NewPath demo_base 2 := File [] 0]> {[NewPath demo_base 1 := File [] 0]}) [].

Lemma demo_two_inv r2 r1 : inv (mkConf (demo_list r2 r1) demo_two_files [] []).
Proof.
  assert (∀ p f, store (demo_list r2 r1) !! p = Some f →
    (p = 0%nat ∧ f = mkFile (NewPath demo_base 2) 2 (Some r2) 1 false false) ∨
    (p = 1%nat ∧ f = mkFile (NewPath demo_base 1) 1 (Some r1) 1 false false)) as Hcases.
  { intros [|[|p]] f Hf; [by injection Hf as <-; left|by injection Hf as <-; right|by simpl in Hf]. }
  split; [split| | | | | |].
  - intros p Hp. assert (p = 0%nat ∨ p = 1%nat) as [-> | ->] by (unfold all_refs in Hp; cbn in Hp; set_solver); by eexists.
  - by intros p f [[-> ->]|[-> ->]]%Hcases.
  - intros p f [[-> ->]|[-> ->]]%Hcases; (split; [done|]); intros Hn; destruct Hn; unfold all_refs; cbn; set_solver.
  - by_decide.
  - by intros p f _ [[-> ->]|[-> ->]]%Hcases.
  - by intros p ?%not_elem_of_nil.
  - cbn. by_decide.
  - done.
  - intros p f _ [[-> ->]|[-> ->]]%Hcases; exists [], 0%nat; by vm_compute.
Qed.

Lemma demo_ready : ∃ r2 r1, @ready stored toy_hash (demo_list r2 r1) demo_two_files demo_tabs demo_base true.
Proof.
  destruct demo_tables as (r2 & r1 & Ht). exists r2, r1. split.
  - done.
  - apply demo_two_inv.
  - exact Ht.
  - repeat constructor.
  - cbn. lia.
  - cbn. by_decide.
  - apply demo_compactable_at; [done|by_decide|by_decide].
  - done.
Qed.

Lemma compact_all_correct_witness :
  ∃ l, let out := NewPath demo_base 3 in
  ∃ l' wd', @CompactAll stored toy_hash 6 demo_base true (l, demo_two_files) = (Ok (), (l', wd')) ∧
    (∀ sid ts, @Get_tables stored toy_hash (list_tables l') sid ts = after_compaction true (@Get_tables stored toy_hash (list_tables l) sid ts)) ∧
    (length (tables l') ≤ 1)%nat ∧ (∀ g r, (g, r) ∈ list_tables l' → g = 2 + 1) ∧
    (∀ p f, p ∈ tables l → store l !! p = Some f → files wd' !! Path f = None) ∧
    (∀ q, q ≠ out → (∀ p f, p ∈ tables l → store l !! p = Some f → Path f ≠ q) → files wd' !! q = files demo_two_files !! q) ∧
    inv (mkConf l' wd' [] []) ∧ quiet wd'.
Proof.
  destruct demo_ready as (r2 & r1 & Hready). exists (demo_list r2 r1).
  apply (@compact_all_correct stored toy_hash 6 demo_base true (demo_list r2 r1) demo_two_files demo_tabs Hready).
  - done.
  - by vm_compute.
Defined.

(** ** A deletion undone

    Generation 1 holds a value, generation 2 its tombstone; the merge of both is empty. *)
Definition demo_value : list Entry := [mkEntry 1 1 false [x61]].
Definition demo_tombstone : list Entry := [mkEntry 1 1 true []].

Definition set_faults (fs : list fault) : T unit := λ '(l, w), (Ok (), (l, mkWorld (dirs w) (files w) fs)).
(** A restart after a crash: the list of what the directory then holds. *)
Definition reload (basePath : path) : T unit := λ '(l, w), Load basePath (mkList [] [] 0, lose_unsynced w).
Definition lookup_list `{Snappy, Hash128} (sid ts : Z) : T (bytes * bool * bool) :=
  l ← get_fst; lift (Get_tables (list_tables l) sid ts).

(** Two tables written and loaded; a major compaction in which the call numbered [n] fails;
    a restart; and a lookup before, after, and after the restart. *)
Definition compact_and_restart `{Snappy, Hash128} (n : nat) : IO (list (bytes * bool * bool)) :=
  write_table (NewPath demo_base 1) 40 demo_value;;
  write_table (NewPath demo_base 2) 40 demo_tombstone;;
  '(l, _) ← run_with (mkList [] [] 0) (Load demo_base);
  '(_, answers) ← run_with l (
    a ← lookup_list 1 1;
    set_faults (replicate n FOk ++ [FFail]);;
    CompactAll 3 demo_base true;;
    b ← lookup_list 1 1;
    reload demo_base;;
    c ← lookup_list 1 1;
    mret [a; b; c]);
  mret answers.


(** ** A compaction and a flush

    The compaction has taken its tables; a flush adds generation 2, which overwrites the
    key; the compaction then takes its generation and goes on. *)
Definition demo_overwrite : list Entry := [mkEntry 1 1 false [x62]].

Definition compaction_around_flush `{Snappy, Hash128} : IO (list (bytes * bool * bool)) :=
  write_table (NewPath demo_base 1) 40 demo_value;;
  '(l, _) ← run_with (mkList [] [] 0) (Load demo_base);
  '(_, answers) ← run_with l (
    ts ← GetTables;
    gen ← NextGen;
    on_snd (write_table (NewPath demo_base gen) 40 demo_overwrite);;
    reader ← on_snd (OpenReader (NewPath demo_base gen));
    t ← NewSSTableFile (NewPath demo_base gen) gen reader;
    Add t;;
    a ← lookup_list 1 1;
    CompactRange 3 ts demo_base true;;
    b ← lookup_list 1 1;
    mret [a; b]);
  mret answers.

