(* ===== verification/Tables.v ===== *)
(** * The table directory (sstable/sstable_list.go, compactor/compact.go)

    What the engine relies on: the open tables of a list, newest first, are exactly the
    table files of the directory, and every call of the engine on the list keeps it so. *)
From Stdlib Require Import ZArith Lia Strings.Byte.
From stdpp Require Import base list gmap sorting.
From S2P Require Import Prelude Key Monad Fs Block Bloom Writer Reader Merge SSTableList Compactor.

(** ** Labels

    No operation but [NewSSTableFile] changes the path or the generation of a file of the
    store, or adds one, whatever calls fail. *)
Definition label (f : SSTableFile) : path * Z := (Path f, Gen f).
Definition labels (l : SSTableList) : list (path * Z) := label <$> store l.

Section labels.
Context (L : list (path * Z)).

(** [m] keeps the labels [L], and its result satisfies [P]. *)
Definition relabels {A} (m : T A) (P : A → Prop) : Prop :=
  ∀ s, labels s.1 = L → wp m (λ r s', labels s'.1 = L ∧ ∀ a, r = Ok a → P a) s.

Abbreviation any := (λ _, True).

Lemma rl_weaken {A} (m : T A) P Q : relabels m P → (∀ a, P a → Q a) → relabels m Q.
Proof. intros Hm HP s Hs. eapply wp_mono; [by apply Hm|]. intros r s' [H1 H2]. split; [done|]. intros a Ha. by apply HP, H2. Qed.

Lemma rl_bind {A B} (m : T A) (f : A → T B) P Q : relabels m P → (∀ a, P a → relabels (f a) Q) → relabels (m ≫= f) Q.
Proof.
  intros Hm Hf s Hs. apply wp_bind. eapply wp_mono; [by apply Hm|]. intros r s' [H1 H2].
  destruct r as [a| | |]; [|by split..]. by apply Hf; [apply H2|].
Qed.

Lemma rl_lift {A} (o : outcome A) : relabels (lift o) (λ a, o = Ok a).
Proof. intros s Hs. by apply wp_lift. Qed.

Lemma rl_ret {A} (a : A) : relabels (mret a) any.
Proof. intros s Hs. by apply wp_ret. Qed.

Lemma rl_try {A} (m : T A) P : relabels m P → relabels (try m) any.
Proof. intros Hm s Hs. apply wp_try. eapply wp_mono; [by apply Hm|]. intros r s' [H1 _]. by destruct r. Qed.

Lemma rl_on_snd {A} (m : IO A) : relabels (on_snd m) any.
Proof. intros [l wd] Hs. apply wp_on_snd. apply wp_intro. done. Qed.

Lemma rl_get_fst : relabels get_fst any.
Proof. intros [l wd] Hs. by apply wp_get_fst. Qed.

Lemma rl_modify f : (∀ l, labels (f l) = labels l) → relabels (modify_fst f) any.
Proof. intros Hf [l wd] Hs. apply wp_modify_fst. split; [|done]. cbn. by rewrite Hf. Qed.

Lemma rl_get_file p : relabels (get_file p) (λ f, L !! p = Some (label f)).
Proof.
  intros [l wd] Hs. unfold get_file. wsteps. destruct (store l !! p) as [f|] eqn:E; wsteps; [|done].
  split; [done|]. intros a [= <-]. rewrite <-Hs. cbn. unfold labels. by rewrite list_lookup_fmap, E.
Qed.

Lemma rl_put_file p f : L !! p = Some (label f) → relabels (put_file p f) any.
Proof.
  intros Hp [l wd] Hs. apply wp_modify_fst. split; [|done]. cbn. unfold labels. cbn [store set_store].
  rewrite list_fmap_insert. cbn in Hs. unfold labels in Hs. by rewrite Hs, list_insert_id.
Qed.

Lemma rl_IncrRef p : relabels (IncrRef p) any.
Proof.
  unfold IncrRef. eapply rl_bind; [apply rl_get_file|]. intros f Hf. cbv beta in Hf. destruct (_ || _); [apply rl_ret|].
  eapply rl_bind; [by apply rl_put_file|intros; apply rl_ret].
Qed.

Lemma rl_ret_err e : relabels (ret_err e) any.
Proof. destruct e; [|apply rl_ret]. eapply rl_weaken; [apply rl_lift|done]. Qed.

Lemma rl_fail {A} e : relabels (fail e : T A) any.
Proof. eapply rl_weaken; [apply rl_lift|done]. Qed.

Lemma rl_DecrRef p : relabels (DecrRef p) any.
Proof.
  unfold DecrRef. eapply rl_bind; [apply rl_get_file|]. intros f Hf. cbv beta in Hf.
  eapply rl_bind; [by apply rl_put_file|]. intros _ _. destruct (_ <? 0); [apply rl_fail|]. destruct (_ =? 0); [|apply rl_ret].
  eapply (rl_bind _ _ any).
  { destruct (sfReader f); [|apply rl_ret]. eapply rl_bind; [eapply rl_try, rl_on_snd|]. intros e _.
    eapply rl_bind; [by apply rl_put_file|intros; apply rl_ret]. }
  intros e _. eapply (rl_bind _ _ any).
  { destruct (unlinked f); [|apply rl_ret]. eapply rl_bind; [eapply rl_try, rl_on_snd|]. intros; apply rl_ret. }
  intros; apply rl_ret_err.
Qed.

Lemma rl_ReleaseTables ts : relabels (ReleaseTables ts) any.
Proof. induction ts as [|t ts IH]; [apply rl_ret|]. eapply rl_bind; [eapply rl_try, rl_DecrRef|intros; exact IH]. Qed.

Lemma rl_get_loop ts : relabels (get_loop ts) any.
Proof.
  induction ts as [|t ts IH]; [apply rl_ret|]. eapply rl_bind; [apply rl_IncrRef|]. intros ok _.
  eapply rl_bind; [exact IH|]. intros; apply rl_ret.
Qed.

Lemma rl_revive p : relabels (revive p) any.
Proof. eapply rl_bind; [apply rl_get_file|]. intros f Hf. cbv beta in Hf. destruct (_ =? 0); [by apply rl_put_file|apply rl_ret]. Qed.

Lemma rl_swap_tables olds new : relabels (swap_tables olds new) any.
Proof.
  unfold swap_tables. eapply rl_bind; [apply rl_get_fst|]. intros l _.
  eapply (rl_bind _ _ any); [destruct new; [apply rl_revive|apply rl_ret]|]. intros; by apply rl_modify.
Qed.

Lemma rl_drop_loop ts e : relabels (drop_loop ts e) any.
Proof.
  revert e. induction ts as [|t ts IH]; intros e; [apply rl_ret|]. eapply rl_bind; [|intros; apply IH].
  eapply rl_try, rl_bind; [apply rl_get_file|]. intros f Hf. eapply rl_bind; [by apply rl_put_file|intros; apply rl_DecrRef].
Qed.

Lemma rl_ReplaceTables olds new : relabels (ReplaceTables olds new) any.
Proof.
  eapply rl_bind; [apply rl_swap_tables|]. intros _ _. eapply rl_bind; [apply rl_drop_loop|intros; apply rl_ret_err].
Qed.
End labels.

(** The table of a merge has the path and the generation asked for. *)
Lemma CompactSSTables_label `{Snappy, Hash128} fuel tables opts wd :
  wp (CompactSSTables fuel tables opts) (λ r _, ∀ p g reader, r = Ok (Some (p, g, reader)) → p = OutputPath opts ∧ g = TargetGen opts) wd.
Proof.
  unfold CompactSSTables. destruct tables; [by wsteps|].
  assert (OutputPath (set_default_block opts) = OutputPath opts ∧ TargetGen (set_default_block opts) = TargetGen opts) as [<- <-].
  { unfold set_default_block. by destruct (_ =? 0). }
  cbv zeta. do 2 wstep. destruct (push_tables _ _ _) as [[|i h]| | |]; try done. do 2 wstep.
  apply wp_intro. intros r wd1 _. destruct r as [w|e| |]; try done.
  do 2 wstep. apply wp_intro. intros r [w' wd2] _. destruct r as [n| | |]; try done. cbv beta iota.
  destruct (n =? 0).
  - do 2 wstep. apply wp_intro. intros r wd3 _. destruct r as [|e| |]; try done. cbv beta iota. destruct (decide _); by wsteps.
  - do 2 wstep. apply wp_intro. intros r wd3 _. destruct r as [reader|e| |]; try done.
    + wsteps. by intros ? ? ? [= <- <- _].
    + do 2 wstep. apply wp_intro. intros r wd4 _. destruct r; try done; by wsteps.
Qed.

(** A compaction adds at most the file of the next generation. *)
Lemma CompactRange_labels `{Snappy, Hash128} fuel ts base isMajor l wd :
  wp (CompactRange fuel ts base isMajor) (λ _ s, labels s.1 = labels l ∨
    ∃ g, g = u64 (nextGen l + 1) ∧ labels s.1 = labels l ++ [(NewPath base g, g)]) (l, wd).
Proof.
  set (post := λ s : SSTableList * world, labels s.1 = labels l ∨
    ∃ g, g = u64 (nextGen l + 1) ∧ labels s.1 = labels l ++ [(NewPath base g, g)]).
  assert (∀ A (m : T A) s, post s → (∀ L, relabels L m (λ _, True)) → wp m (λ _ s', post s') s) as Hpost.
  { intros A m s Hs Hm. eapply wp_mono; [by apply (Hm (labels s.1))|]. intros r s' [E _]. unfold post. by rewrite E. }
  destruct ts as [|t ts]; [by left|]. rewrite CompactRange_cons by done.
  apply wp_bind, wp_try. eapply (wp_mono _ (λ _ s, post s)).
  - unfold NextGen. wsteps. cbv zeta. wsteps. eapply wp_mono; [apply CompactSSTables_label|].
    intros r wd1 Hr. destruct r as [[[[p g] reader]|]| | |]; try by left.
    + destruct (Hr p g reader eq_refl) as [-> ->]. unfold NewSSTableFile. wsteps. cbv zeta. apply Hpost; [|intros; apply rl_ReplaceTables].
      right. eexists. split; [done|]. unfold labels. cbn. by rewrite fmap_app.
    + wsteps. apply Hpost; [by left|intros; apply rl_ReplaceTables].
  - intros r s Hs. assert (∀ B (k : T B) s, post s → (∀ L, relabels L k (λ _, True)) →
      wp (ReleaseTables (t :: ts) ≫= λ _, k) (λ _ s', post s') s) as Hrel.
    { intros B k s' Hs' Hk. apply Hpost; [done|]. intros L. eapply rl_bind; [apply rl_ReleaseTables|intros; apply Hk]. }
    destruct r as [[]| | |]; try done; (apply Hrel; [done|]); intros; [apply rl_ret|apply rl_fail].
Qed.

(** ** The listing

    [tabs]: generation and entries of every table, newest first. *)
Section listing.
Context `{Snappy, Hash128} (base : path).

(** A path named like a table. *)
Definition in_tables (q : path) : Prop := pdir q = pdir base ∧ is_table_name base (pbase q).

Record listing (l : SSTableList) (wd : world) (tabs : list stream) : Prop := {
  ls_inv : inv (mkConf l wd [] []);
  ls_tables : Forall2 readable_table (list_tables l) tabs;
  ls_gens : StronglySorted Z.gt (fst <$> tabs);
  ls_next : 0 ≤ nextGen l < 2^64;
  ls_store : ∀ p f, store l !! p = Some f → Path f = NewPath base (Gen f) ∧ 0 ≤ Gen f ≤ nextGen l;
  ls_disk : ∀ q i, files wd !! q = Some i → in_tables q →
    ∃ p f data r, p ∈ tables l ∧ store l !! p = Some f ∧ Path f = q ∧ i = File data (length data) ∧
      sfReader f = Some r ∧ readFooter data = Ok r;
  ls_dir : pdir base ∈ dirs wd;
  ls_small : Forall (λ s, Forall small_entry s.2) tabs
}.

Lemma NewPath_in_tables g : is_u64 g → in_tables (NewPath base g).
Proof. intros Hg. split; [done|]. red. rewrite NewPath_name by done. by eexists. Qed.

Lemma NewPath_inj g g' : is_u64 g → is_u64 g' → NewPath base g = NewPath base g' → g = g'.
Proof. intros Hg Hg' E. pose proof (NewPath_name base g Hg) as E'. rewrite E, NewPath_name in E' by done. by injection E'. Qed.

Lemma listing_gen_u64 l wd tabs p f : listing l wd tabs → store l !! p = Some f → is_u64 (Gen f).
Proof. intros Hl Hf. pose proof (ls_store _ _ _ Hl _ _ Hf). pose proof (ls_next _ _ _ Hl). unfold is_u64. lia. Qed.

Lemma listing_path l wd tabs p f : listing l wd tabs → store l !! p = Some f → in_tables (Path f).
Proof.
  intros Hl Hf. destruct (ls_store _ _ _ Hl _ _ Hf) as [-> _]. by eapply NewPath_in_tables, listing_gen_u64.
Qed.

Lemma listing_outside l wd wd' tabs :
  dirs wd' = dirs wd → (∀ q, in_tables q → files wd' !! q = files wd !! q) → listing l wd tabs → listing l wd' tabs.
Proof.
  intros Hd Hf Hl. pose proof Hl as [H1 H2 H3 H4 H5 H6 H7 H8]. split; try done.
  - eapply inv_env; [exact H1|]. intros q (f & -> & (p & Hp)%list_elem_of_lookup)%list_elem_of_fmap.
    apply Hf. by eapply listing_path.
  - intros q i Hi Hq. apply H6; [|done]. by rewrite <-Hf.
  - by rewrite Hd.
Qed.

(** The path of the next generation is unused. *)
Lemma next_fresh l wd tabs g :
  listing l wd tabs → nextGen l < g → is_u64 g →
  ¬ (NewPath base g ∈ Path <$> store l) ∧ files wd !! NewPath base g = None.
Proof.
  intros Hl Hg Hu. assert (∀ p f, store l !! p = Some f → Path f ≠ NewPath base g) as Hne.
  { intros p f Hf E. pose proof (listing_gen_u64 _ _ _ _ _ Hl Hf). destruct (ls_store _ _ _ Hl _ _ Hf) as [E' Hle].
    rewrite E' in E. apply NewPath_inj in E; [lia|done..]. }
  split.
  - intros (f & E & (p & Hp)%list_elem_of_lookup)%list_elem_of_fmap. by eapply Hne.
  - destruct (files wd !! NewPath base g) as [i|] eqn:Ei; [|done].
    destruct (ls_disk _ _ _ Hl _ _ Ei (NewPath_in_tables g Hu)) as (p & f & _ & _ & _ & Hf & E & _). by destruct (Hne p f Hf).
Qed.

Lemma readable_tables_length l tabs : Forall2 readable_table (list_tables l) tabs → length tabs = length (tables l).
Proof. intros Ht%Forall2_length. unfold list_tables in Ht. by rewrite length_fmap in Ht. Qed.

Lemma labels_lookup l l' p f : labels l' = labels l → store l' !! p = Some f → ∃ f0, store l !! p = Some f0 ∧ Path f = Path f0 ∧ Gen f = Gen f0.
Proof.
  intros E Hf. assert (labels l !! p = Some (label f)) as Hp by (rewrite <-E; unfold labels; by rewrite list_lookup_fmap, Hf).
  unfold labels in Hp. rewrite list_lookup_fmap in Hp. destruct (store l !! p) as [f0|]; [|done]. exists f0. by injection Hp.
Qed.

Lemma listing_valid l wd tabs p : listing l wd tabs → p ∈ tables l → is_Some (store l !! p).
Proof. intros Hl Hp. apply (ct_valid _ _ (iv_counted _ (ls_inv _ _ _ Hl))). unfold all_refs. cbn. set_solver. Qed.

Lemma listing_same l l' wd tabs :
  listing l wd tabs → inv (mkConf l' wd [] []) → same_list l l' → labels l' = labels l →
  (∀ p, p ∈ tables l → same_table l l' p) → listing l' wd tabs.
Proof.
  intros Hl Hi [Ht Hg] Hlab Hs. pose proof Hl as [H1 H2 H3 H4 H5 H6 H7 H8]. split; try done.
  - unfold list_tables. rewrite Ht, (tables_of_same l l'); [done|intros; by eapply listing_valid|done].
  - by rewrite Hg.
  - intros p f Hf. destruct (labels_lookup _ _ _ _ Hlab Hf) as (f0 & Hf0 & -> & ->). rewrite Hg. by apply (H5 p).
  - intros q i Hi' Hq. destruct (H6 q i Hi' Hq) as (p & f & data & r & Hp & Hf & E & E' & Hr & Hr').
    destruct (Hs p Hp f Hf) as (f' & Hf' & E1 & E2 & E3 & _). exists p, f', data, r. rewrite Ht. split_and!; congruence.
Qed.

(** *** Reading: the tables are held, read and given back *)
Lemma list_read l wd :
  quiet wd → inv (mkConf l wd [] []) → 2 * zlen (tables l) < 2^31 - 3 →
  ∃ l1 l2, GetTables (l, wd) = (Ok (tables l), (l1, wd)) ∧ table_of l1 <$> tables l = list_tables l ∧
    ReleaseTables (tables l) (l1, wd) = (Ok (), (l2, wd)) ∧ inv (mkConf l2 wd [] []) ∧ same_list l l2 ∧
    labels l2 = labels l ∧ ∀ p, p ∈ tables l → same_table l l2 p.
Proof.
  intros Hq Hi Hb.
  destruct (get_loop_spec (tables l) l wd [] [] Hi ltac:(done)) as (l1 & Hget & Hi1 & [Ht1 Hg1] & _ & Hs1).
  { cbn [app]. rewrite app_nil_r. lia. }
  destruct (ReleaseTables_spec (tables l) l1 wd [] [] Hq Hi1) as (l2 & wd2 & Hrel & Hi2 & [Ht2 Hg2] & Hs2 & Hd2 & Hq2 & Hkeep & _).
  assert (∀ p, p ∈ tables l → is_Some (store l !! p)) as Hv.
  { intros p Hp. apply (ct_valid _ _ (iv_counted _ Hi)). unfold all_refs. cbn. set_solver. }
  assert (files wd2 = files wd) as Ef.
  { apply map_eq. intros q. apply Hkeep. intros p f Hp Hf _. right.
    destruct (iv_listed _ Hi1 p f) as [? _]; [by rewrite <-Ht1 in Hp|done|done]. }
  assert (wd2 = wd) as ->.
  { destruct wd as [D F q], wd2 as [D2 F2 q2]. unfold quiet in *. cbn in *. congruence. }
  exists l1, l2. split_and!; [exact Hget|by apply tables_of_same; auto|exact Hrel|exact Hi2|unfold same_list; split; congruence| |].
  - destruct (wp_run _ _ _ _ _ (rl_get_loop (labels l) (tables l) (l, wd) eq_refl) Hget) as [E1 _].
    by destruct (wp_run _ _ _ _ _ (rl_ReleaseTables (labels l) (tables l) (l1, wd) E1) Hrel).
  - intros p Hp. eapply same_table_trans; [apply Hs1|]. apply Hs2. rewrite Ht1. set_solver.
Qed.

Lemma listing_read l wd tabs :
  quiet wd → listing l wd tabs → 2 * zlen (tables l) < 2^31 - 3 →
  ∃ l1 l2, GetTables (l, wd) = (Ok (tables l), (l1, wd)) ∧ table_of l1 <$> tables l = list_tables l ∧
    ReleaseTables (tables l) (l1, wd) = (Ok (), (l2, wd)) ∧ listing l2 wd tabs ∧ same_list l l2.
Proof.
  intros Hq Hl Hb. destruct (list_read l wd Hq (ls_inv _ _ _ Hl) Hb) as (l1 & l2 & Hget & Htabs & Hrel & Hi2 & Hsl & Hlab & Hs).
  exists l1, l2. split_and!; try done; try apply Hsl. by eapply listing_same.
Qed.

Lemma occ_NoDup p ts : NoDup ts → occ p ts = if decide (p ∈ ts) then 1 else 0.
Proof.
  induction 1 as [|q ts Hq Hnd IH]; [by rewrite decide_False by apply not_elem_of_nil|]. rewrite occ_cons, IH.
  destruct (decide (q = p)) as [->|Hne].
  - rewrite decide_False by done. rewrite !decide_True by (done || left). lia.
  - destruct (decide (p ∈ ts)), (decide (p ∈ q :: ts)) as [Hin|Hin]; set_solver.
Qed.

(** *** Closing: the only reference to every table is the list's *)
Lemma get_file_run p l wd f : store l !! p = Some f → get_file p (l, wd) = (Ok f, (l, wd)).
Proof. intros Hf. unfold get_file. erewrite bind_Ok by reflexivity. by rewrite Hf. Qed.

Lemma DecrRef_last p l wd f :
  quiet wd → store l !! p = Some f → refCount f = 1 → unlinked f = false →
  ∃ f', DecrRef p (l, wd) = (Ok (), (set_store (<[p := f']> (store l)) l, wd)).
Proof.
  intros Hq Hf Hr Hu. unfold DecrRef. erewrite bind_Ok by by apply get_file_run. cbv zeta. rewrite Hr, Hu.
  erewrite bind_Ok by reflexivity. change (i32 (1 - 1)) with 0. cbn [Z.ltb Z.compare Z.eqb].
  destruct (sfReader f) as [r|].
  - rewrite bind_assoc. erewrite bind_Ok by (apply try_Ok, on_snd_run; unfold file_Close; rewrite syscall_quiet by done; reflexivity).
    rewrite bind_assoc. erewrite bind_Ok by reflexivity. erewrite bind_Ok by reflexivity. erewrite bind_Ok by reflexivity.
    eexists. cbn. by rewrite list_insert_insert_eq.
  - erewrite bind_Ok by reflexivity. erewrite bind_Ok by reflexivity. by eexists.
Qed.

Lemma close_table_quiet p l wd f :
  quiet wd → store l !! p = Some f → refCount f = 1 → unlinked f = false →
  ∃ l', close_table p (l, wd) = (Ok (), (l', wd)) ∧ ∀ q, q ≠ p → store l' !! q = store l !! q.
Proof.
  intros Hq Hf Hr Hu. pose proof (lookup_lt_Some _ _ _ Hf) as Hlt. unfold close_table. erewrite bind_Ok by by apply get_file_run.
  erewrite bind_Ok by reflexivity. set (l1 := set_store (<[p := set_closed f]> (store l)) l).
  destruct (DecrRef_last p l1 wd (set_closed f) Hq) as (f' & Hrun); [by apply list_lookup_insert_eq|done|done|].
  eexists. split; [exact Hrun|]. intros q Hne. cbn. by rewrite !list_lookup_insert_ne by done.
Qed.

Lemma close_loop_quiet ts l wd :
  quiet wd → NoDup ts → (∀ p, p ∈ ts → ∃ f, store l !! p = Some f ∧ refCount f = 1 ∧ unlinked f = false) →
  ∃ l', close_loop ts None (l, wd) = (Ok None, (l', wd)).
Proof.
  intros Hq Hnd. revert l. induction Hnd as [|p ts Hp Hnd IH]; intros l Hall; [by exists l|].
  destruct (Hall p ltac:(left)) as (f & Hf & Hr & Hu). destruct (close_table_quiet p l wd f Hq Hf Hr Hu) as (l1 & Hrun & Hrest).
  cbn [close_loop]. erewrite bind_Ok by (apply try_Ok; exact Hrun). apply IH. intros q Hin. rewrite Hrest; [apply Hall; by right|].
  by intros ->.
Qed.

Lemma listing_close l wd tabs : quiet wd → listing l wd tabs → ∃ l', Close (l, wd) = (Ok (), (l', wd)).
Proof.
  intros Hq Hl. destruct (close_loop_quiet (tables l) l wd Hq (iv_nodup _ (ls_inv _ _ _ Hl))) as (l' & Hrun).
  - intros p Hp. destruct (listing_valid _ _ _ p Hl Hp) as [f Hf]. exists f. split; [done|].
    split; [|by apply (iv_listed _ (ls_inv _ _ _ Hl) p f)].
    rewrite (ct_count _ _ (iv_counted _ (ls_inv _ _ _ Hl)) p f Hf). unfold all_refs. cbn [cl held pending]. rewrite !app_nil_r.
    rewrite occ_NoDup by apply (iv_nodup _ (ls_inv _ _ _ Hl)). by rewrite decide_True.
  - unfold Close. erewrite bind_Ok by reflexivity. erewrite bind_Ok by exact Hrun. by eexists.
Qed.

(** *** Adding the newest table *)
Lemma StronglySorted_weaken {A} (R R' : A → A → Prop) l :
  StronglySorted R l → (∀ x y, x ∈ l → y ∈ l → R x y → R' x y) → StronglySorted R' l.
Proof.
  induction 1 as [|x l Hs IH Hx]; intros HR; constructor.
  - apply IH. intros y z Hy Hz. apply HR; by right.
  - rewrite Forall_forall in *. intros y Hy. apply HR; [by left|by right|by apply Hx].
Qed.

Lemma readable_tables_gens ts tabs : Forall2 readable_table ts tabs → fst <$> tabs = fst <$> ts.
Proof. induction 1 as [|x s xs tabs (E & _) _ IH]; [done|]. rewrite !fmap_cons. by rewrite E, IH. Qed.

Lemma sort_gen_newest s ts n :
  StronglySorted (λ p q, gen_of s p > gen_of s q) ts → (∀ p, p ∈ ts → gen_of s p < gen_of s n) → sort_gen s (ts ++ [n]) = n :: ts.
Proof.
  intros Hs Hn. unfold sort_gen. induction Hs as [|t ts Hs IH Ht]; [done|]. cbn [app foldr]. rewrite IH.
  - cbn [insert_gen]. destruct (Z.ltb_spec (gen_of s t) (gen_of s n)); [|specialize (Hn t ltac:(left)); lia]. f_equal.
    destruct ts as [|t' ts]; [done|]. cbn [insert_gen]. apply Forall_cons in Ht as [Ht _].
    by destruct (Z.ltb_spec (gen_of s t) (gen_of s t')); [lia|].
  - intros p Hp. apply Hn. by right.
Qed.

Lemma tables_gens l tabs : Forall2 readable_table (list_tables l) tabs → fst <$> tabs = gen_of (store l) <$> tables l.
Proof.
  intros Ht. rewrite (readable_tables_gens _ _ Ht).
  unfold list_tables. rewrite <-list_fmap_compose. apply list_fmap_ext. intros i p Hp. unfold table_of, gen_of. cbn.
  by destruct (store l !! p).
Qed.

Lemma tables_sorted l tabs :
  Forall2 readable_table (list_tables l) tabs → StronglySorted Z.gt (fst <$> tabs) →
  StronglySorted (λ p q, gen_of (store l) p > gen_of (store l) q) (tables l).
Proof.
  intros Ht Hs. rewrite (tables_gens _ _ Ht) in Hs.
  clear -Hs. induction (tables l) as [|p ts IH]; [constructor|].
  rewrite fmap_cons in Hs. apply StronglySorted_cons in Hs as [Hf Hs]. constructor; [by apply IH|].
  rewrite Forall_forall in Hf. apply Forall_forall. intros q Hq. apply Hf. by apply list_elem_of_fmap_2.
Qed.

(** A file newer than every table goes to the front. *)
Lemma list_add l wd h tabs g out reader data sy :
  inv (mkConf l wd h []) → Forall2 readable_table (list_tables l) tabs → StronglySorted Z.gt (fst <$> tabs) →
  (∀ p f, store l !! p = Some f → 0 ≤ Gen f < g) → g ≤ nextGen l → ¬ (out ∈ Path <$> store l) →
  files wd !! out = Some (File data sy) → zlen (tables l ++ h) < 2^31 - 2 →
  let n := length (store l) in
  let l3 := mkList (store l ++ [mkFile out g (Some reader) 1 false false]) (n :: tables l) (nextGen l) in
  ∃ l2, NewSSTableFile out g reader (l, wd) = (Ok n, (l2, wd)) ∧ Add n (l2, wd) = (Ok (), (l3, wd)) ∧ inv (mkConf l3 wd h []) ∧
    (∀ p, is_Some (store l !! p) → store l3 !! p = store l !! p) ∧ list_tables l3 = (g, Some reader) :: list_tables l.
Proof.
  intros Hi Htabs Hgens Hst Hg Hfresh Hfile Hb n l3.
  destruct (new_file_spec l wd h out g reader data sy Hi Hfresh Hfile Hb) as (n' & l2 & Hn & Hi2 & _ & _ & Hun & Htab).
  injection Hn as <- <-. fold n in Hi2, Hun, Htab. set (f := mkFile out g (Some reader) 1 false false) in *.
  set (l2 := set_store (store l ++ [f]) l) in *. assert (store l2 !! n = Some f) as Hf by (cbn; by rewrite lookup_app_r, Nat.sub_diag by lia).
  assert (∀ p, is_Some (store l !! p) → store l3 !! p = store l !! p) as Hold.
  { intros p Hp%lookup_lt_is_Some. cbn. by rewrite lookup_app_l. }
  assert (∀ p, p ∈ tables l → is_Some (store l !! p)) as Hv.
  { intros p Hp. apply (ct_valid _ _ (iv_counted _ Hi)). unfold all_refs. cbn. set_solver. }
  pose proof (Add_run l2 wd (all_refs (mkConf l2 wd (n :: h) [])) n f (iv_counted _ Hi2) ltac:(unfold all_refs; cbn; set_solver) Hf) as Hadd.
  cbn [Gen f] in Hadd. change (nextGen l2) with (nextGen l) in Hadd. rewrite Z.max_l in Hadd by done. change (tables l2) with (tables l) in Hadd.
  assert (∀ p, p ∈ tables l → gen_of (store l2) p = gen_of (store l) p) as Egen.
  { intros p Hp. unfold gen_of. change (store l2) with (store l3). by rewrite Hold by by apply Hv. }
  rewrite (sort_gen_newest (store l2)) in Hadd; cycle 1.
  { eapply StronglySorted_weaken; [exact (tables_sorted _ _ Htabs Hgens)|]. intros p q Hp Hq. by rewrite !Egen by done. }
  { intros p Hp. rewrite Egen by done. replace (gen_of (store l2) n) with g by (unfold gen_of; by rewrite Hf). unfold gen_of.
    destruct (Hv p Hp) as [f0 Hf0]. rewrite Hf0. apply (Hst p f0 Hf0). }
  exists l2. split_and!; [done|exact Hadd|by eapply (inv_add l2 wd (n :: h))|done|].
  unfold list_tables. cbn [tables l3]. rewrite fmap_cons. change (table_of l3 n) with (table_of l2 n). rewrite Htab. f_equal.
  apply list_fmap_ext. intros i p Hp. unfold table_of. by rewrite Hold by by eapply Hv, list_elem_of_lookup_2.
Qed.

Lemma listing_gen_le l wd tabs g : listing l wd tabs → g ∈ fst <$> tabs → 0 ≤ g ≤ nextGen l.
Proof.
  intros Hl. rewrite (tables_gens _ _ (ls_tables _ _ _ Hl)). intros (p & -> & Hp)%list_elem_of_fmap.
  destruct (listing_valid _ _ _ _ Hl Hp) as [f Hf]. unfold gen_of. rewrite Hf. by apply (ls_store _ _ _ Hl p).
Qed.

Lemma listing_add l wd tabs wd1 reader es data :
  let g := nextGen l + 1 in
  let out := NewPath base g in
  listing l wd tabs → g < 2^64 → only out wd wd1 → files wd1 !! out = Some (File data (length data)) →
  readFooter data = Ok reader → readable reader es → esorted es → Forall small_entry es → zlen (tables l) < 2^31 - 3 →
  ∃ n l2 l3, NewSSTableFile out g reader (set_nextGen g l, wd1) = (Ok n, (l2, wd1)) ∧ Add n (l2, wd1) = (Ok (), (l3, wd1)) ∧
    listing l3 wd1 ((g, es) :: tabs) ∧ nextGen l3 = g ∧ length (tables l3) = S (length (tables l)).
Proof.
  intros g out Hl Hg (Hd & Hout & _) Hfile Hrd Hread Hsort Hsmall Hb. pose proof Hl as [Hi Htabs Hgens Hnext Hst Hdisk Hdir Hsm].
  assert (is_u64 g) as Hgu by (unfold is_u64, g; lia). destruct (next_fresh l wd tabs g Hl ltac:(lia) Hgu) as [Hfresh Hnone]. fold out in Hfresh, Hnone.
  assert (inv (mkConf (set_nextGen g l) wd1 [] [])) as Hi1.
  { apply (inv_share l wd1 [] []); [|done|done|exact (iv_nodup _ Hi)|exact (iv_listed _ Hi)|exact (iv_pending _ Hi)].
    eapply inv_env; [exact Hi|]. intros q Hin. apply Hout. by intros ->. }
  destruct (list_add (set_nextGen g l) wd1 [] tabs g out reader data (length data) Hi1 Htabs Hgens) as (l2 & Hn & Hadd & Hi3 & Hold & Hlt);
    [|done|done|done|cbn; rewrite app_nil_r; lia|].
  { intros p f Hf. destruct (Hst p f Hf). lia. }
  set (n := length (store (set_nextGen g l))) in *. set (l3 := mkList _ _ _) in *. set (f := mkFile out g (Some reader) 1 false false) in *.
  exists n, l2, l3. split; [exact Hn|]. split; [exact Hadd|]. split; [|done].
  assert (∀ p f0, store l3 !! p = Some f0 → store l !! p = Some f0 ∨ (p = n ∧ f0 = f)) as Hcases.
  { intros p f0 [?|[Hp Hg']]%lookup_app_Some; [by left|]. apply list_lookup_singleton_Some in Hg' as [E <-]. right. split; [unfold n; cbn in *; lia|done]. }
  split; try done.
  - rewrite Hlt. constructor; [|done]. split; [done|]. by exists reader.
  - rewrite fmap_cons. constructor; [done|]. apply Forall_forall. intros g' Hg'.
    pose proof (listing_gen_le _ _ _ _ Hl Hg'). cbn. lia.
  - intros p f0 [Hf0|[-> ->]]%Hcases; [destruct (Hst p f0 Hf0); cbn; split; [done|lia]|cbn; split; [done|lia]].
  - intros q i Hq' Hin. destruct (decide (q = out)) as [->|Hne].
    + rewrite Hfile in Hq'. injection Hq' as <-. exists n, f, data, reader. split_and!; [left| |done..].
      cbn. by rewrite lookup_app_r, Nat.sub_diag by lia.
    + rewrite Hout in Hq' by done. destruct (Hdisk q i Hq' Hin) as (p & f0 & d & r & Hp & Hf0 & E & E' & Hr & Hr').
      exists p, f0, d, r. split_and!; [by right| |done..]. by rewrite Hold by by eexists.
  - by rewrite Hd.
  - by constructor.
Qed.

(** *** Compacting *)
Definition kept_entry (isMajor : bool) (o : option Entry) : option Entry :=
  match o with Some e => if eDeleted e && isMajor then None else Some e | None => None end.

(** The entries of all tables, newest first. *)
Definition table_entries (tabs : list stream) : list Entry := concat (snd <$> tabs).

Lemma listing_ready isMajor l wd tabs :
  quiet wd → listing l wd tabs → nextGen l + 1 < 2^64 → Z.of_nat (total tabs) < 2^30 → filters_ok (Z.of_nat (total tabs)) →
  2 * zlen (tables l) < 2^31 - 3 → ready l wd tabs base isMajor.
Proof.
  intros Hq Hl Hg Htot Hfil Hb. pose proof Hl as [Hi Htabs Hgens Hnext Hst Hdisk Hdir Hsm].
  assert (is_u64 (nextGen l + 1)) as Hgu by (unfold is_u64; lia).
  destruct (next_fresh l wd tabs (nextGen l + 1) Hl ltac:(lia) Hgu) as [Hfresh Hnone].
  split; try done; [lia|]. split; try done.
  - intros g es Hin. exact (proj2 (readable_streams _ _ Htabs) g es Hin).
  - intros g es Hin. rewrite Forall_forall in Hsm. exact (Hsm _ Hin).
  - cbn. by rewrite Hnone.
Qed.

(** The store after a compaction. *)
Lemma CompactAll_labels fuel isMajor l wd tabs r l' wd' :
  listing l wd tabs → nextGen l + 1 < 2^64 → 2 * zlen (tables l) < 2^31 - 3 →
  CompactAll fuel base isMajor (l, wd) = (r, (l', wd')) →
  labels l' = labels l ∨ labels l' = labels l ++ [(NewPath base (nextGen l + 1), nextGen l + 1)].
Proof.
  intros Hl Hg Hb. pose proof (ls_next _ _ _ Hl) as Hnext.
  destruct (get_loop_spec (tables l) l wd [] [] (ls_inv _ _ _ Hl) ltac:(done)) as (l1 & Hget & _ & [_ Hg1] & _).
  { cbn [app]. rewrite app_nil_r. lia. }
  unfold CompactAll, GetTables. erewrite bind_Ok by (unfold mbind, M_bind, get_fst; exact Hget). intros Hrun.
  pose proof (wp_run _ _ _ _ _ (CompactRange_labels fuel (tables l) base isMajor l1 wd) Hrun) as Hlab. cbn in Hlab.
  destruct (wp_run _ _ _ _ _ (rl_get_loop (labels l) (tables l) (l, wd) eq_refl) Hget) as [E1 _]. cbn in E1.
  rewrite E1, Hg1, u64_id in Hlab by (unfold is_u64; lia). destruct Hlab as [|(g & -> & ?)]; auto.
Qed.

Lemma listing_compact fuel isMajor l wd tabs :
  quiet wd → listing l wd tabs → nextGen l + 1 < 2^64 → Z.of_nat (total tabs) < 2^30 → filters_ok (Z.of_nat (total tabs)) →
  2 * zlen (tables l) < 2^31 - 3 → (total tabs < fuel)%nat →
  ∃ l' wd' tabs', CompactAll fuel base isMajor (l, wd) = (Ok (), (l', wd')) ∧ listing l' wd' tabs' ∧ quiet wd' ∧
    dirs wd' = dirs wd ∧ (∀ q, ¬ in_tables q → files wd' !! q = files wd !! q) ∧
    nextGen l' ≤ nextGen l + 1 ∧ (total tabs' ≤ total tabs)%nat ∧ (length (tables l') ≤ length (tables l))%nat ∧
    ∀ k, first_entry k (table_entries tabs') = kept_entry isMajor (first_entry k (table_entries tabs)).
Proof.
  intros Hq Hl Hg Htot Hfil Hb Hfuel. pose proof Hl as [Hi Htabs Hgens Hnext Hst Hdisk Hdir Hsm].
  destruct (decide (tables l = [])) as [He|He].
  { pose proof (readable_tables_length _ _ Htabs) as Hlen. rewrite He in Hlen. destruct tabs; [|done].
    exists l, wd, []. split; [|split_and!; try done; lia]. unfold CompactAll, GetTables.
    rewrite (bind_Ok _ _ (l, wd) [] (l, wd)); [done|]. erewrite bind_Ok by reflexivity. by rewrite He. }
  pose proof (listing_ready isMajor l wd tabs Hq Hl Hg Htot Hfil Hb) as Hready.
  destruct (CompactAll_spec fuel base isMajor l wd tabs Hready He Hfuel)
    as (L & r & l' & wd' & Hrun & Hm & Hi' & Htab & Hn & Hd & Hq' & Hr & Hrem & Hkeep).
  set (out := NewPath base (nextGen l + 1)) in *. assert (is_u64 (nextGen l + 1)) as Hgu by (unfold is_u64; lia).
  destruct (next_fresh l wd tabs (nextGen l + 1) Hl ltac:(lia) Hgu) as [Hfresh Hnone]. fold out in Hfresh, Hnone.
  set (tabs' := match r with None => [] | Some (_, g, _) => [(g, keep isMajor L)] end).
  pose proof Hm as (HsL & _ & _ & Hnew). assert (∀ g es, (g, es) ∈ tabs → Forall small_entry es) as Hsm'.
  { intros g es Hin. rewrite Forall_forall in Hsm. exact (Hsm _ Hin). }
  destruct (merged_bounds _ _ _ Hm Hsm') as [HlenL HsmL].
  assert (Forall2 readable_table (list_tables l') tabs') as Htabs'.
  { rewrite Htab. destruct r as [[[p g] reader]|]; [|constructor]. destruct Hr as (-> & -> & Hread & _). constructor; [|constructor].
    split; [done|]. exists reader. split_and!; [done|done|by apply keep_esorted]. }
  assert (total tabs' ≤ length (keep isMajor L) ∧ length (tables l') ≤ 1)%nat as [Htot' Hlen'].
  { rewrite <-(readable_tables_length _ _ Htabs'). destruct r as [[[p g] reader]|]; cbn; lia. }
  exists l', wd', tabs'. split; [exact Hrun|]. split_and!; try done; try lia.
  - assert (∀ p f, store l' !! p = Some f → Path f = NewPath base (Gen f) ∧ 0 ≤ Gen f ≤ nextGen l') as Hst'.
    { intros p f Hf. rewrite Hn. assert (labels l' !! p = Some (label f)) as Hp by (unfold labels; by rewrite list_lookup_fmap, Hf).
      destruct (CompactAll_labels _ _ _ _ _ _ _ _ Hl Hg Hb Hrun) as [E|E]; rewrite E in Hp.
      2: apply lookup_app_Some in Hp as [Hp|[_ Hp]].
      3: { apply list_lookup_singleton_Some in Hp as [_ Hp]. unfold label in Hp. injection Hp as Ep Eg. rewrite <-Eg. split; [by rewrite Ep|lia]. }
      all: unfold labels in Hp; rewrite list_lookup_fmap in Hp; destruct (store l !! p) as [f0|] eqn:E0; [|done];
        injection Hp as <- <-; destruct (Hst p f0 E0); (split; [done|lia]). }
    split; try done.
    + destruct r as [[[p g] reader]|]; repeat constructor.
    + rewrite Hn. lia.
    + intros q i Hi0 Hq0. destruct (decide (q = out)) as [->|Hne].
      * destruct r as [[[p g] reader]|].
        -- destruct Hr as (-> & -> & _ & data & Hfile & Hrd). rewrite Hfile in Hi0. injection Hi0 as <-.
           cbn in Htab. unfold list_tables in Htab. destruct (tables l') as [|n [|]] eqn:Et; try done. injection Htab as Htab.
           unfold table_of in Htab. destruct (store l' !! n) as [f|] eqn:Ef; [|done]. injection Htab as Eg Er.
           exists n, f, data, reader. destruct (Hst' n f Ef) as [Ep _]. split_and!; try done; [left|by rewrite Ep, Eg].
        -- destruct Hr as [_ [E|E]]; congruence.
      * destruct (files wd !! q) as [i0|] eqn:Eq0.
        -- destruct (Hdisk q i0 Eq0 Hq0) as (p & f & _ & _ & Hp & Hf & <- & _). by rewrite (Hrem p f Hp Hf) in Hi0.
        -- rewrite Hkeep, Eq0 in Hi0; [done|done|]. intros p f Hp Hf E.
           destruct (iv_files _ Hi p f) as (d & sy & Hfl); [unfold all_refs; cbn; set_solver|done|]. cbn in Hfl. congruence.
    + by rewrite Hd.
    + destruct r as [[[p g] reader]|]; [|constructor]. constructor; [|constructor]. by apply keep_Forall.
  - intros q Hq0. apply Hkeep.
    + intros ->. by apply Hq0, NewPath_in_tables.
    + intros p f Hp Hf <-. by eapply Hq0, listing_path.
  - etrans; [exact Htot'|]. etrans; [apply keep_length|done].
  - destruct (tables l); [done|]. cbn. lia.
  - intros k. specialize (Hnew k ltac:(done)). apply Merge.newest_first in Hnew; [|done]. fold (table_entries tabs) in Hnew. rewrite <-Hnew.
    replace (table_entries tabs') with (keep isMajor L); [by apply first_entry_keep|].
    destruct r as [[[p g] reader]|]; cbn; [by rewrite app_nil_r|]. by destruct Hr as [-> _].
Qed.

(** *** Restarting *)
Lemma listing_crash l wd wd' tabs : listing l wd tabs → crash wd wd' → listing l wd' tabs.
Proof.
  intros Hl Hc. apply (listing_outside l wd); [by apply Hc| |done]. intros q Hq.
  destruct (files wd !! q) as [i|] eqn:Ei.
  - destruct (ls_disk _ _ _ Hl q i Ei Hq) as (p & f & data & r & _ & _ & _ & -> & _).
    destruct (crash_lookup _ _ _ _ _ Hc Ei) as (n & Hn & ->). by rewrite take_ge by lia.
  - destruct (files wd' !! q) as [j|] eqn:Ej; [|done]. destruct (crash_lookup_inv _ _ _ _ Hc Ej) as (i & Hi & _). congruence.
Qed.

(** The files [Load] finds are the listed ones. *)
Lemma dir_tables_listing l wd tabs f :
  listing l wd tabs →
  f ∈ dir_tables base wd ↔ ∃ p f0 r, p ∈ tables l ∧ store l !! p = Some f0 ∧ sfReader f0 = Some r ∧ f = mkFile (Path f0) (Gen f0) (Some r) 1 false false.
Proof.
  intros Hl. rewrite dir_tables_spec. split.
  - intros [name Hf]. unfold table_file in Hf. destruct (gen_of_name _ _ name) as [g|] eqn:Eg; [|done]. cbn in Hf.
    destruct (files wd !! _) as [[data sy|]|] eqn:Ei; try done. destruct (readFooter data) as [r| | |] eqn:Er; try done. injection Hf as <-.
    destruct (ls_disk _ _ _ Hl _ _ Ei) as (p & f0 & d & r' & Hp & Hf0 & E & [= -> ->] & Hr & Hr'); [split; [done|by eexists]|].
    destruct (ls_store _ _ _ Hl p f0 Hf0) as [Ep _]. exists p, f0, r. split_and!; [done|done|congruence|].
    rewrite <-E. f_equal. rewrite Ep in E. injection E as E. rewrite <-E in Eg. 
    pose proof (NewPath_name base (Gen f0) ltac:(by eapply listing_gen_u64)) as Eg'. cbn in Eg'. congruence.
  - intros (p & f0 & r & Hp & Hf0 & Hr & ->). pose proof (listing_path _ _ _ _ _ Hl Hf0) as [Ed Hn].
    destruct (iv_files _ (ls_inv _ _ _ Hl) p f0) as (d & sy & Hfl); [unfold all_refs; cbn; set_solver|done|]. cbn in Hfl.
    destruct (ls_disk _ _ _ Hl _ _ Hfl) as (p1 & f1 & d1 & r1 & Hp1 & Hf1 & E & [= -> ->] & Hr1 & Hr1'); [by split|].
    assert (p1 = p) as ->.
    { apply (path_of_inj l p1 p); [exact (iv_paths _ (ls_inv _ _ _ Hl))|by eexists|]. unfold path_of. rewrite Hf1, Hf0. cbn. by rewrite E. }
    rewrite Hf0 in Hf1. injection Hf1 as <-. rewrite Hr in Hr1. injection Hr1 as <-.
    destruct (ls_store _ _ _ Hl p f0 Hf0) as [Ep _]. exists (pbase (Path f0)). unfold table_file.
    rewrite <-Ed. replace (mkPath (pdir (Path f0)) (pbase (Path f0))) with (Path f0) by (by destruct (Path f0)).
    rewrite Ep at 1. rewrite NewPath_name by (by eapply listing_gen_u64). cbn [mbind option_bind]. by rewrite Hfl, Hr1'.
Qed.

(** A list just loaded. *)
Lemma loaded_inv fs ts g wd :
  ts ≡ₚ seq 0 (length fs) → zlen fs < 2^31 - 1 → NoDup (Path <$> fs) →
  (∀ f, f ∈ fs → sfReader f ≠ None ∧ refCount f = 1 ∧ unlinked f = false ∧ closed f = false ∧
     ∃ data sy, files wd !! Path f = Some (File data sy)) →
  inv (mkConf (mkList fs ts g) wd [] []).
Proof.
  intros Hts Hb Hnd Hfs. assert (∀ p, p ∈ ts ↔ (p < length fs)%nat) as Hin by (intros p; rewrite Hts, elem_of_seq; lia).
  assert (all_refs (mkConf (mkList fs ts g) wd [] []) = ts) as Hrefs by (unfold all_refs; cbn; by rewrite app_nil_r).
  assert (NoDup ts) as Hndt by (rewrite Hts; apply NoDup_seq).
  assert (∀ p f, fs !! p = Some f → p ∈ ts ∧ f ∈ fs) as Hlook.
  { intros p f Hp. split; [apply Hin; by eapply lookup_lt_Some|by eapply list_elem_of_lookup_2]. }
  split; rewrite ?Hrefs; cbn [cl cw tables store held pending].
  - split; cbn [store].
    + intros p Hp%Hin. by apply lookup_lt_is_Some.
    + intros p f Hp. destruct (Hlook p f Hp) as [Hp' Hf]. rewrite (occ_NoDup _ _ Hndt), decide_True by done. by apply Hfs.
    + intros p f Hp. destruct (Hlook p f Hp) as [Hp' Hf]. split; [intros E; by destruct (proj1 (Hfs f Hf))|done].
  - done.
  - intros p f _ Hp. destruct (Hlook p f Hp) as [_ Hf]. by destruct (Hfs f Hf) as (_ & _ & ? & ? & _).
  - by intros p ?%not_elem_of_nil.
  - done.
  - unfold zlen in *. rewrite (Permutation_length Hts), length_seq. done.
  - intros p f _ Hp. destruct (Hlook p f Hp) as [_ Hf]. by destruct (Hfs f Hf) as (_ & _ & _ & _ & ?).
Qed.

Lemma max_gen_le fs g b : g ≤ b → (∀ f, f ∈ fs → Gen f ≤ b) → max_gen fs g ≤ b.
Proof.
  revert g. induction fs as [|f fs IH]; intros g Hg Hb; [done|]. cbn. apply IH; [|intros; apply Hb; by right].
  apply Z.max_lub; [done|apply Hb; left].
Qed.

Lemma listing_load l wd tabs g0 :
  quiet wd → listing l wd tabs →
  ∃ l', Load base (mkList [] [] g0, wd) = (Ok (), (l', wd)) ∧ listing l' wd tabs ∧ nextGen l' ≤ nextGen l ∧
    length (tables l') = length (tables l).
Proof.
  intros Hq Hl. pose proof Hl as [Hi Htabs Hgens Hnext Hst Hdisk Hdir Hsm].
  assert (dir_ok base wd) as Hok.
  { intros name i Hf Hn. destruct (Hdisk _ i Hf) as (p & f & data & r & Hp & Hf0 & E & -> & Hr & Hr'); [by split|].
    destruct Hn as [g Hg]. unfold table_file. rewrite Hg. cbn [mbind option_bind]. rewrite Hf, Hr'. by eexists. }
  pose proof (Load_quiet base wd (mkList [] [] g0) Hq Hdir Hok) as Hload. cbn [store app length] in Hload.
  set (fs := dir_tables base wd) in *. set (ts := sort_gen fs (seq 0 (length fs))) in *. set (l' := mkList fs ts (max_gen fs 0)) in *.
  assert (ts ≡ₚ seq 0 (length fs)) as Hts by apply sort_gen_perm.
  assert (∀ f, f ∈ fs → ∃ p f0 r, p ∈ tables l ∧ store l !! p = Some f0 ∧ sfReader f0 = Some r ∧ f = mkFile (Path f0) (Gen f0) (Some r) 1 false false) as Hfs
    by (intros f; apply (dir_tables_listing l wd tabs f Hl)).
  assert (∀ g o, (g, o) ∈ list_tables l' ↔ (g, o) ∈ list_tables l) as Hsame.
  { intros g o. unfold list_tables. rewrite !list_elem_of_fmap. split.
    - intros (p & E & Hp). unfold table_of in E. cbn [store tables l'] in E, Hp. rewrite Hts, elem_of_seq in Hp.
      destruct (lookup_lt_is_Some_2 fs p) as [f Hf]; [lia|]. rewrite Hf in E. injection E as -> ->.
      destruct (Hfs f) as (q & f0 & r & Hq0 & Hf0 & Hr & ->); [by eapply list_elem_of_lookup_2|].
      exists q. split; [|done]. unfold table_of. by rewrite Hf0, Hr.
    - intros (p & E & Hp). destruct (listing_valid _ _ _ _ Hl Hp) as [f0 Hf0]. unfold table_of in E. rewrite Hf0 in E. injection E as -> ->.
      destruct (sfReader f0) as [r|] eqn:Hr.
      2: { exfalso. eapply (proj1 (ct_open _ _ (iv_counted _ Hi) p f0 Hf0) Hr). unfold all_refs. cbn. set_solver. }
      assert (mkFile (Path f0) (Gen f0) (Some r) 1 false false ∈ fs) as [j Hj]%list_elem_of_lookup.
      { apply (dir_tables_listing l wd tabs _ Hl). by exists p, f0, r. }
      exists j. cbn [store tables l']. split; [unfold table_of; cbn [store l']; by rewrite Hj|].
      rewrite Hts, elem_of_seq. apply lookup_lt_Some in Hj. lia. }
  assert (NoDup (fst <$> tabs)) as Hnd.
  { clear -Hgens. induction Hgens as [|x xs Hs IH Hx]; constructor; [|done]. intros Hin. rewrite Forall_forall in Hx. specialize (Hx x Hin). lia. }
  rewrite (readable_tables_gens _ _ Htabs) in Hnd.
  assert (∀ f, f ∈ fs → Path f = NewPath base (Gen f) ∧ is_u64 (Gen f) ∧ Gen f ≤ nextGen l) as Hpath.
  { intros f (p & f0 & r & Hp & Hf0 & Hr & ->)%Hfs. cbn. destruct (Hst p f0 Hf0). split_and!; [done|by eapply listing_gen_u64|lia]. }
  assert (∀ p, p ∈ ts → ∃ f, fs !! p = Some f ∧ f ∈ fs) as Hlook.
  { intros p Hp. rewrite Hts, elem_of_seq in Hp. destruct (lookup_lt_is_Some_2 fs p) as [f Hf]; [lia|]. exists f. split; [done|by eapply list_elem_of_lookup_2]. }
  assert (list_tables l' = list_tables l) as Elist.
  { assert (list_tables l' ≡ₚ list_tables l) as Hperm.
    { apply NoDup_Permutation; [|by eapply NoDup_fmap_1|by intros [g o]].
      unfold list_tables. cbn [tables l']. apply NoDup_fmap_2_strong; [|rewrite Hts; apply NoDup_seq].
      intros p q Hp Hq0 E. destruct (Hlook p Hp) as (f & Hf & Hf'), (Hlook q Hq0) as (f' & Hg & Hg'). unfold table_of in E. cbn [store l'] in E.
      rewrite Hf, Hg in E. injection E as E _. eapply (NoDup_lookup (Path <$> fs)); [apply dir_tables_paths| |].
      - rewrite list_lookup_fmap, Hf. done.
      - rewrite list_lookup_fmap, Hg. cbn. destruct (Hpath f Hf') as [-> _], (Hpath f' Hg') as [-> _]. by rewrite E. }
    set (R := λ a b : Z * option Reader, b.1 ≤ a.1). apply (StronglySorted_unique_strong R); [| | |done].
    - intros [g o] [g' o'] Hx Hy H1 H2. unfold R in *. cbn in *. assert (g' = g) as -> by lia. rewrite Hperm in Hx.
      apply list_elem_of_lookup in Hx as [i Hx], Hy as [j Hy].
      assert (i = j) as ->; [|congruence]. eapply (NoDup_lookup _ _ _ g Hnd); rewrite list_lookup_fmap; [by rewrite Hx|by rewrite Hy].
    - unfold list_tables. cbn [tables l']. pose proof (sort_gen_sorted fs (seq 0 (length fs))) as Hs. fold ts in Hs. unfold newest_first in Hs.
      clear -Hs. induction Hs as [|p ts Hs IH Hp]; [constructor|]. rewrite fmap_cons. constructor; [exact IH|].
      rewrite Forall_forall in Hp. apply Forall_forall. intros x (q & -> & Hq)%list_elem_of_fmap. specialize (Hp q Hq).
      unfold R, table_of, gen_of in *. cbn in *. by destruct (fs !! p), (fs !! q).
    - rewrite (readable_tables_gens _ _ Htabs) in Hgens. clear -Hgens. unfold R. induction (list_tables l) as [|x xs IH]; [constructor|].
      rewrite fmap_cons in Hgens. apply StronglySorted_cons in Hgens as [Hf Hs]. constructor; [by apply IH|].
      rewrite Forall_forall in Hf. apply Forall_forall. intros y Hy. specialize (Hf y.1 ltac:(by apply list_elem_of_fmap_2)). lia. }
  assert (length ts = length (tables l)) as Hlen.
  { apply (f_equal length) in Elist. unfold list_tables in Elist. by rewrite !length_fmap in Elist. }
  exists l'. split; [exact Hload|]. pose proof (max_gen_spec fs 0) as [Hg0 Hgle].
  assert (nextGen l' ≤ nextGen l) as Hle by (apply max_gen_le; [lia|intros f Hf; by apply Hpath]).
  split; [|done]. split; try done.
  - apply loaded_inv; [done| |apply dir_tables_paths|].
    + pose proof (iv_bound _ Hi) as Hb. unfold all_refs, zlen in *. cbn in Hb. rewrite app_nil_r in Hb.
      rewrite <-Hlen, (Permutation_length Hts), length_seq in Hb. done.
    + intros f Hf. pose proof (Hfs f Hf) as (p & f0 & r & _ & _ & _ & E). rewrite E. cbn. split_and!; [done..|].
      apply dir_tables_spec in Hf as [name Hf]. destruct (table_file_exists _ _ _ _ Hf) as (d & sy & Hd).
      rewrite E in Hf. pose proof (table_file_path _ _ _ _ Hf) as Ep. cbn in Ep. rewrite Ep. eauto.
  - by rewrite Elist.
  - cbn in *. lia.
  - intros p f Hf. cbn [store l'] in Hf. apply list_elem_of_lookup_2 in Hf. destruct (Hpath f Hf) as (E & Hu & _). split; [done|].
    unfold is_u64 in Hu. specialize (Hgle f Hf). cbn. lia.
  - intros q i Hi0 Hq0. destruct (Hdisk q i Hi0 Hq0) as (p & f & data & r & Hp & Hf & E & Ei & Hr & Hr').
    assert (mkFile (Path f) (Gen f) (Some r) 1 false false ∈ fs) as [j Hj]%list_elem_of_lookup.
    { apply (dir_tables_listing l wd tabs _ Hl). by exists p, f, r. }
    eexists j, _, data, r. cbn [store tables l']. split_and!; [|exact Hj|done..]. rewrite Hts, elem_of_seq. apply lookup_lt_Some in Hj. lia.
Qed.
End listing.
