(* ===== verification/WalFrame.v ===== *)
(** * The log in its directory (wal/wal.go)

    What the engine relies on besides the contents of the log: the log touches no file
    that is not named like one of its segments, and other files do not matter to it; the
    checkpoint protocol of the flush; and reopening after a crash. *)
From Stdlib Require Import ZArith Lia Strings.Byte.
From stdpp Require Import base list gmap sorting.
From S2P Require Import Prelude Monad Fs WalCodec Wal.

(** ** Names *)
Lemma parse_loop_u64 a s z : is_u64 a → parse_loop a s = Some z → is_u64 z.
Proof.
  revert a. induction s as [|c s IH]; intros a Ha; cbn [parse_loop]; [by intros [= <-]|].
  destruct (_ && _) eqn:E; [|done]. apply IH. unfold is_u64 in *. lia.
Qed.

Lemma gen_of_name_u64 pre e name id : gen_of_name pre e name = Some id → is_u64 id.
Proof.
  unfold gen_of_name. destruct (_ && _); [|done]. generalize (TrimSuffix (TrimPrefix name (pre ++ [x5f])) e).
  intros s. unfold ParseUint. destruct s; [done|]. by apply parse_loop_u64.
Qed.

(** A path named like a segment. *)
Definition in_log (w : WAL) (q : path) : Prop :=
  pdir q = dir w ∧ is_Some (gen_of_name (prefix w) (ext w) (pbase q)).

Lemma segmentPath_in_log w id : is_u64 id → in_log w (segmentPath w id).
Proof. intros H. split; [done|]. cbn. rewrite gen_of_gen_name by done. by eexists. Qed.

Lemma in_log_same w w' q : same_log w w' → in_log w' q ↔ in_log w q.
Proof. unfold in_log. by intros (-> & -> & -> & _). Qed.

(** ** Frames *)
Definition log_frame (w : WAL) (wd wd' : world) : Prop :=
  dirs wd' = dirs wd ∧ ∀ q, ¬ in_log w q → files wd' !! q = files wd !! q.

Lemma log_frame_refl w wd : log_frame w wd wd.
Proof. done. Qed.

Lemma log_frame_trans w wd wd' wd'' : log_frame w wd wd' → log_frame w wd' wd'' → log_frame w wd wd''.
Proof. intros [H1 H2] [H3 H4]. split; [congruence|]. intros q Hq. by rewrite H4, H2. Qed.

Lemma only_log_frame w p wd wd' : in_log w p → only p wd wd' → log_frame w wd wd'.
Proof. intros Hp (H1 & H2 & _). split; [done|]. intros q Hq. apply H2. by intros ->. Qed.

Lemma evolves_log_frame w wd wd' : evolves wd (files wd) wd' → log_frame w wd wd'.
Proof. intros (H1 & H2 & _). split; [done|]. intros q _. by rewrite H2. Qed.

(** Other files do not matter to the log. *)
Lemma wal_files_outside w wd wd' segs :
  dirs wd' = dirs wd → (∀ q, in_log w q → files wd' !! q = files wd !! q) → wal_files w wd segs → wal_files w wd' segs.
Proof.
  intros Hd Hf [H1 H2 H3 H4 H5]. split; [by rewrite Hd|done|done| |].
  - intros id data sy Hin. rewrite Hf; [by eapply H4|]. apply segmentPath_in_log.
    rewrite Forall_forall in H3. apply H3, list_elem_of_fmap. by exists (id, (data, sy)).
  - intros name i id Hi Hg. eapply H5; [|exact Hg]. rewrite <-Hf; [exact Hi|]. split; [done|]. cbn. by rewrite Hg.
Qed.

Lemma wal_log_outside pre w wd wd' rs :
  dirs wd' = dirs wd → (∀ q, in_log w q → files wd' !! q = files wd !! q) → wal_log pre w wd rs → wal_log pre w wd' rs.
Proof.
  intros Hd Hf (segs & rss & id & rl & [H1 H2 H3 H4 H5 H6] & H). exists segs, rss, id, rl. split; [|exact H].
  split; [by eapply wal_files_outside|done..].
Qed.

(** ** What the methods touch *)
Definition handle_ok (w : WAL) : Prop := is_u64 (segmentID w) ∧ ∀ p, file w = Some p → in_log w p.

Definition keeps {A} (w : WAL) (wd : world) (r : outcome A) (s : WAL * world) : Prop :=
  log_frame w wd s.2 ∧ same_log w s.1 ∧ handle_ok s.1.

(** Calls on one file, whatever they return. *)
Section calls.
Context {A : Type} (p : path) (wd : world).

Lemma wp_syscall_only (k : IO A) (Q : outcome A → world → Prop) :
  (∀ wd', wp k (λ _, only p wd') wd') → (∀ r wd', only p wd wd' → Q r wd') → wp (syscall k) Q wd.
Proof.
  intros Hk HQ. apply wp_syscall.
  - intros wd' He. eapply wp_mono; [apply Hk|]. intros r wd'' Ho. apply HQ. eapply only_trans; [by apply only_same|done].
  - intros wd' He _. by apply HQ, only_same.
Qed.

Lemma only_refl : only p wd wd.
Proof. done. Qed.

Lemma only_set f : (∀ q, q ≠ p → f !! q = files wd !! q) → only p wd (set_files f wd).
Proof. done. Qed.
End calls.

Ltac only_syscall p :=
  intros; unfold os_OpenAppend, os_Stat, os_Open, file_Sync, file_Close, os_Remove; apply (wp_syscall_only p); [|done];
  intros; unfold wp; repeat case_match; simplify_eq; try apply only_refl; apply only_set; intros; by rewrite ?lookup_insert_ne, ?lookup_delete_ne by done.

Section only.
Context (p : path) (wd : world).
Lemma only_OpenAppend (Q : outcome unit → world → Prop) : (∀ r wd', only p wd wd' → Q r wd') → wp (os_OpenAppend p) Q wd.
Proof. only_syscall p. Qed.
Lemma only_Stat (Q : outcome (Z * bool) → world → Prop) : (∀ r wd', only p wd wd' → Q r wd') → wp (os_Stat p) Q wd.
Proof. only_syscall p. Qed.
Lemma only_Open (Q : outcome bytes → world → Prop) : (∀ r wd', only p wd wd' → Q r wd') → wp (os_Open p) Q wd.
Proof. only_syscall p. Qed.
Lemma only_Sync (Q : outcome unit → world → Prop) : (∀ r wd', only p wd wd' → Q r wd') → wp (file_Sync p) Q wd.
Proof. only_syscall p. Qed.
Lemma only_Close (Q : outcome unit → world → Prop) : (∀ r wd', only p wd wd' → Q r wd') → wp (file_Close p) Q wd.
Proof. intros. by apply (wp_syscall_only p). Qed.
Lemma only_Remove (Q : outcome unit → world → Prop) : (∀ r wd', only p wd wd' → Q r wd') → wp (os_Remove p) Q wd.
Proof. only_syscall p. Qed.
Lemma only_Write data (Q : outcome (Z * option error) → world → Prop) :
  (∀ r wd', only p wd wd' → Q r wd') → wp (file_Write p data) Q wd.
Proof.
  intros HQ. unfold wp, file_Write, next_fault, mbind, M_bind.
  destruct wd as [D F [|f fs]]; cbn; repeat case_match; simplify_eq; apply HQ; (split_and!; cbn; [done| |done]);
    intros; by rewrite ?lookup_insert_ne by done.
Qed.
End only.

#[local] Hint Resolve log_frame_refl only_log_frame segmentPath_in_log u64_range : core.

(** ** Frames of the methods, under any schedule of failures *)
Section frames.
Implicit Types (w : WAL) (wd : world).

Lemma same_log_trans w w' w'' : same_log w w' → same_log w' w'' → same_log w w''.
Proof. unfold same_log. intuition congruence. Qed.

Lemma keeps_weaken {A B} w wd (r : outcome A) (r' : outcome B) s : keeps w wd r s → keeps w wd r' s.
Proof. done. Qed.

Lemma keeps_intro {A} w wd (r : outcome A) w' wd' :
  log_frame w wd wd' → same_log w w' → handle_ok w' → keeps w wd r (w', wd').
Proof. done. Qed.

Lemma keeps_trans {A B} w wd w1 wd1 (r1 : outcome A) (r : outcome B) s :
  keeps w wd r1 (w1, wd1) → keeps w1 wd1 r s → keeps w wd r s.
Proof.
  destruct s as [w2 wd2]. intros (H1 & H2 & _) (H3 & H4 & H5 & H6). apply keeps_intro; [|by eapply same_log_trans|split; [done|]].
  - eapply log_frame_trans; [exact H1|]. destruct H3 as [? H3]. split; [done|]. intros q Hq. apply H3.
    by rewrite (in_log_same _ _ _ H2).
  - exact H6.
Qed.

(** A file of the log was touched. *)
Lemma keeps_only {A} w wd wd' p (r : outcome A) :
  handle_ok w → in_log w p → only p wd wd' → keeps w wd r (w, wd').
Proof. intros H1 H2 H3. apply keeps_intro; [eauto|apply same_log_refl|done]. Qed.

Lemma frame_openSegment id w wd : handle_ok w → is_u64 id → wp (openSegment id) (keeps w wd) (w, wd).
Proof.
  intros Hw Hid. unfold openSegment. wsteps. apply only_OpenAppend. intros r wd1 H1.
  assert (in_log w (segmentPath w id)) as Hp by eauto.
  destruct r; try by eapply keeps_only. wsteps. apply only_Stat. intros r wd2 H2.
  assert (only (segmentPath w id) wd wd2) as Ho by by eapply only_trans.
  destruct r as [[n d]| | |]; cbv beta iota; wsteps; try by eapply keeps_only.
  - apply keeps_intro; [by eapply only_log_frame|done|]. split; [done|]. by intros p [= <-].
  - apply only_Close. intros r wd3 H3. assert (only (segmentPath w id) wd wd3) as Ho' by by eapply only_trans.
    destruct r; cbv beta iota; wsteps; by eapply keeps_only.
Qed.

Lemma frame_rotateLocked w wd : handle_ok w → wp rotateLocked (keeps w wd) (w, wd).
Proof.
  intros Hw. unfold rotateLocked. wsteps.
  assert (∀ w' wd', keeps w wd (Ok tt) (w', wd') → wp (openSegment (u64 (segmentID w + 1))) (λ r s', match r with
    | Ok _ => wp (mret (segmentID w)) (keeps w wd) s' | Err e => keeps w wd (Err e : outcome Z) s'
    | Panic p => keeps w wd (Panic p : outcome Z) s' | OutOfFuel => keeps w wd (OutOfFuel : outcome Z) s' end) (w', wd')) as Hopen.
  { intros w' wd' Hk. eapply wp_mono; [apply frame_openSegment; [apply Hk|apply u64_range]|].
    intros r [w2 wd2] H2. pose proof (keeps_trans _ _ _ _ _ _ _ Hk H2). by destruct r; [wsteps|..]. }
  destruct (file w) as [p|] eqn:Ef.
  - assert (in_log w p) as Hp by by apply Hw. wsteps. apply only_Sync. intros r wd1 H1.
    destruct r; try by eapply keeps_only. wsteps. apply only_Close. intros r wd2 H2.
    assert (only p wd wd2) by by eapply only_trans. destruct r; try by eapply keeps_only. do 2 wstep.
    wsteps. apply Hopen. apply keeps_intro; [by eapply only_log_frame|done|]. by split; [apply Hw|].
  - wsteps. apply Hopen. by apply keeps_intro; [|apply same_log_refl|].
Qed.

Lemma frame_AppendRecord pooled r w wd : handle_ok w → wp (AppendRecord pooled r) (keeps w wd) (w, wd).
Proof.
  intros Hw. assert (keeps w wd (Ok tt) (w, wd)) as Hk0 by (by apply keeps_intro; [|apply same_log_refl|]).
  unfold AppendRecord. wsteps. destruct (frameRecord pooled r) as [buf| | |]; try exact Hk0. wsteps.
  destruct (file w) eqn:E0; [|by wsteps]. wstep.
  eapply (wp_mono _ (keeps w wd)).
  { destruct (_ && _); [|by wsteps]. wsteps. eapply wp_mono; [by apply frame_rotateLocked|].
    intros r1 s H1. destruct r1; [wsteps|..]; done. }
  intros r1 [w1 wd1] H1. destruct r1; [|done..]. wsteps.
  destruct (file w1) as [p1|] eqn:E1; [|by wsteps]. wsteps. apply only_Write. intros r2 wd2 H2.
  assert (in_log w1 p1) as Hp by by apply H1.
  assert (∀ A (r : outcome A) wd' w', only p1 wd1 wd' → keeps w1 wd1 (Ok tt) (w', wd1) → keeps w wd r (w', wd')) as Hend.
  { intros A r' wd' w' Ho Hs. eapply keeps_trans; [exact H1|]. destruct Hs as (_ & ? & ? & ?).
    by apply keeps_intro; [eapply only_log_frame|..]. }
  assert (keeps w1 wd1 (Ok tt) (w1, wd1)) as Hk1 by (by apply keeps_intro; [|apply same_log_refl|apply H1]).
  destruct r2 as [[n err]| | |]; try by eapply Hend. wsteps.
  destruct err; wsteps; [by eapply Hend|]. apply only_Sync. intros r3 wd3 H3.
  eapply Hend; [by eapply only_trans|done].
Qed.

Lemma frame_listSegmentIDs w wd (Q : outcome (list Z) → world → Prop) :
  (∀ r wd', log_frame w wd wd' → (∀ ids, r = Ok ids → Forall is_u64 ids) → Q r wd') → wp (listSegmentIDs w) Q wd.
Proof.
  intros HQ. unfold listSegmentIDs. wsteps. apply wp_syscall.
  2: { intros wd' He _. cbv beta iota. destruct (decide _); wsteps; (apply HQ; [by apply evolves_log_frame|done]). }
  intros wd' He. unfold wp. destruct (decide _); cbv beta iota.
  - apply HQ; [by apply evolves_log_frame|]. intros ids [= <-]. apply Forall_forall. intros id Hid.
    rewrite sort_ids_perm in Hid. apply list_elem_of_omap in Hid as ([name d] & _ & Hg). cbn in Hg. destruct d; [done|].
    by eapply gen_of_name_u64.
  - destruct (decide _); [|done]. apply HQ; [by apply evolves_log_frame|]. by intros ids [= <-].
Qed.

Lemma frame_remove_loop w k ids err wd (Q : outcome (option error) → world → Prop) :
  Forall is_u64 ids → (∀ r wd', log_frame w wd wd' → Q r wd') → wp (remove_loop w k ids err) Q wd.
Proof.
  intros Hids. revert err wd. induction Hids as [|id ids Hid Hids IH]; intros err wd HQ; cbn [remove_loop].
  { wsteps. by apply HQ. }
  destruct (_ || _); [by apply IH|]. wsteps. apply only_Remove. intros r wd1 H1.
  assert (log_frame w wd wd1) by eauto. destruct r; try by apply HQ.
  - apply IH. intros. apply HQ. by eapply log_frame_trans.
  - apply IH. intros. apply HQ. by eapply log_frame_trans.
Qed.

Lemma frame_RemoveSegmentsUpTo k w wd : handle_ok w → wp (RemoveSegmentsUpTo k) (keeps w wd) (w, wd).
Proof.
  intros Hw. assert (∀ A (r : outcome A) wd', log_frame w wd wd' → keeps w wd r (w, wd')) as Hk.
  { intros. by apply keeps_intro; [|apply same_log_refl|]. }
  unfold RemoveSegmentsUpTo. wsteps. apply frame_listSegmentIDs. intros r wd1 H1 Hids. destruct r as [ids| | |]; try by apply Hk.
  wsteps. apply frame_remove_loop; [by apply Hids|]. intros r wd2 H2. assert (log_frame w wd wd2) by by eapply log_frame_trans.
  destruct r as [[e|]| | |]; wsteps; by apply Hk.
Qed.
End frames.

(** ** The checkpoint protocol

    Between a freeze and the end of its flush the log holds the records [old] of the frozen
    memtable in segments up to [k], and those of the mutable one, [rs], after them. *)
Definition log_sealed (w : WAL) (wd : world) (old rs : list WALRecord) (k : Z) : Prop :=
  ∃ pre rss, wal_log pre w wd rs ∧ sealed pre rss ∧ old = concat rss ∧ k ∈ pre.*1 ∧ ∀ x, x ∈ pre.*1 → x ≤ k.

(** What the engine knows of its log: with a frozen memtable, its records and the segment
    they end in. *)
Definition log_state (w : WAL) (wd : world) (frozen : option (list WALRecord * Z)) (rs : list WALRecord) : Prop :=
  match frozen with
  | None => wal_log [] w wd rs
  | Some (old, k) => log_sealed w wd old rs k
  end.

Definition frozen_records (frozen : option (list WALRecord * Z)) : list WALRecord :=
  match frozen with Some (old, _) => old | None => [] end.

Lemma wal_log_handle pre w wd rs : wal_log pre w wd rs → handle_ok w.
Proof.
  intros (segs & rss & id & rl & [H1 H2 H3 _ _ _] & _). assert (is_u64 id) as Hid by by eapply wal_files_last_fresh.
  split; [by rewrite H3|]. intros p Hp. rewrite H2 in Hp. injection Hp as <-. by apply segmentPath_in_log.
Qed.

Lemma log_state_handle w wd frozen rs : log_state w wd frozen rs → handle_ok w.
Proof. destruct frozen as [[old k]|]; [intros (pre & rss & H & _)|intros H]; by eapply wal_log_handle. Qed.

Lemma log_state_outside w wd wd' frozen rs :
  dirs wd' = dirs wd → (∀ q, in_log w q → files wd' !! q = files wd !! q) → log_state w wd frozen rs → log_state w wd' frozen rs.
Proof.
  intros Hd Hf. destruct frozen as [[old k]|]; [intros (pre & rss & H & H')|intros H].
  - exists pre, rss. split; [by eapply wal_log_outside|done].
  - by eapply wal_log_outside.
Qed.

(** Sealed or not, the log is one sequence of records. *)
Lemma log_state_all w wd frozen rs : log_state w wd frozen rs → wal_log [] w wd (frozen_records frozen ++ rs).
Proof.
  destruct frozen as [[old k]|]; [|done]. intros (pre & rss & (segs & rss' & id & rl & H1 & H2 & H3 & ->) & Hs & -> & _).
  exists (pre ++ segs), (rss ++ rss'), id, rl. split_and!; [done|by apply Forall2_app|done|].
  cbn. by rewrite concat_app, (assoc_L (++)).
Qed.

Lemma log_Append pooled r w wd frozen rs :
  quiet wd → log_state w wd frozen rs → record_ok r → segmentID w + 1 < 2^64 →
  ∃ w' wd', AppendRecord pooled r (w, wd) = (Ok (), (w', wd')) ∧ log_state w' wd' frozen (rs ++ [r]) ∧ quiet wd' ∧
    same_log w w' ∧ log_frame w wd wd' ∧ segmentID w ≤ segmentID w' ≤ segmentID w + 1.
Proof.
  intros Hq Hlog Hr Hid.
  assert (∃ pre, wal_log pre w wd rs ∧ ∀ w' wd', wal_log pre w' wd' (rs ++ [r]) → log_state w' wd' frozen (rs ++ [r])) as (pre & Hp & Hback).
  { destruct frozen as [[old k]|]; [|by exists []]. destruct Hlog as (pre & rss & H & H'). exists pre. split; [done|]. intros. by exists pre, rss. }
  pose proof (λ a b, wp_run _ _ (w, wd) a b (frame_AppendRecord pooled r w wd (wal_log_handle _ _ _ _ Hp))) as Hframe.
  assert (wp (AppendRecord pooled r) (λ r' s', r' = Ok () ∧ log_state s'.1 s'.2 frozen (rs ++ [r]) ∧ quiet s'.2 ∧
    segmentID w ≤ segmentID s'.1 ≤ segmentID w + 1) (w, wd)) as Hwp.
  { eapply wp_AppendRecord; [exact Hp|done|done| |done]. intros w' wd' H1 H2 H3 H4 _. split; [done|]. split; [by apply Hback|]. auto. }
  apply wp_elim in Hwp as (r' & [w' wd'] & E & -> & H1 & H2 & H3). destruct (Hframe _ _ E) as (H4 & H5 & _).
  by exists w', wd'.
Qed.

Lemma log_Rotate w wd rs :
  quiet wd → log_state w wd None rs → segmentID w + 1 < 2^64 →
  ∃ w' wd', Rotate (w, wd) = (Ok (segmentID w), (w', wd')) ∧ log_state w' wd' (Some (rs, segmentID w)) [] ∧ quiet wd' ∧
    same_log w w' ∧ log_frame w wd wd' ∧ segmentID w' = segmentID w + 1.
Proof.
  intros Hq Hlog Hid.
  pose proof (λ a b, wp_run _ _ (w, wd) a b (frame_rotateLocked w wd (log_state_handle _ _ _ _ Hlog))) as Hframe.
  destruct Hlog as (segs & rss & id & rl & Hw & Hs & Hrl & ->). cbn [app] in Hw.
  pose proof (wo_id _ _ _ _ _ _ Hw) as Hsid.
  assert (wp rotateLocked (λ r s', r = Ok (segmentID w) ∧ quiet s'.2 ∧ segmentID s'.1 = segmentID w + 1 ∧
    log_state s'.1 s'.2 (Some (concat rss ++ rl, segmentID w)) []) (w, wd)) as Hwp.
  { eapply wp_rotateLocked; [exact Hw|lia| |done]. intros w' wd' Hw' Hq' ->. cbn.
    rewrite Hsid. split_and!; [done|auto|done|]. eexists (segs ++ [(id, (frames rl, length (frames rl)))]), (rss ++ [rl]).
    split_and!.
    - exists [], [], (id + 1), []. split_and!; [by rewrite app_nil_r|constructor|constructor|done].
    - by apply sealed_snoc.
    - by rewrite concat_snoc.
    - rewrite fmap_app. apply elem_of_app. right. left.
    - intros x Hx. destruct (wo_files _ _ _ _ _ _ Hw) as [_ Hsrt _ _ _]. rewrite fmap_app in Hsrt, Hx.
      apply StronglySorted_app in Hsrt as (Hlt & _ & _).
      apply elem_of_app in Hx as [Hx|Hx%list_elem_of_singleton]; [|simpl in Hx; lia]. specialize (Hlt x id Hx ltac:(left)). lia. }
  apply wp_elim in Hwp as (r' & [w' wd'] & E & -> & H1 & H2 & H3). destruct (Hframe _ _ E) as (H4 & H5 & _).
  by exists w', wd'.
Qed.

(** After the flush: the frozen records go, the others stay. *)
Lemma log_Remove w wd old k rs :
  quiet wd → log_state w wd (Some (old, k)) rs →
  ∃ wd', RemoveSegmentsUpTo k (w, wd) = (Ok (), (w, wd')) ∧ log_state w wd' None rs ∧ quiet wd' ∧ log_frame w wd wd'.
Proof.
  intros Hq Hlog. pose proof (λ a b, wp_run _ _ (w, wd) a b (frame_RemoveSegmentsUpTo k w wd (log_state_handle _ _ _ _ Hlog))) as Hframe.
  destruct Hlog as (pre & rss0 & (segs & rss & id & rl & Hw & Hs & Hrl & ->) & _ & _ & Hk & Hpre).
  pose proof Hw as [Hwf Hfile Hsid Hsize Hsmall Hmax].
  destruct (RemoveSegmentsUpTo_quiet _ _ k _ Hq Hwf) as (wd' & Hrem & Hq' & Hwf').
  rewrite (kept_split w k pre segs id _ (wf_sorted _ _ _ Hwf) Hsid Hk Hpre) in Hwf'.
  destruct (Hframe _ _ Hrem) as (H4 & _). exists wd'. split_and!; [done| |done|apply H4..].
  exists segs, rss, id, rl. by split_and!; [split|..].
Qed.

(** Reopening after a crash: every record is back, in one sequence. *)
Lemma log_reopen p max w wd wd' rs :
  log_state w wd None rs → same_log (new_wal p max) w → segment_size max ≤ 2^62 → crash wd wd' →
  ∃ w1 wd1, CreateWALWithSegmentSize p max wd' = (Ok w1, wd1) ∧ files wd1 = files wd' ∧ dirs wd1 = dirs wd' ∧ quiet wd1 ∧
    same_log w w1 ∧ segmentID w1 = segmentID w ∧ log_state w1 wd1 None rs.
Proof.
  intros Hlog Hsame Hm Hc. pose proof (crash_quiet _ _ Hc) as Hq. destruct Hlog as (segs & rss & id & rl & Hw & Hs & Hrl & ->).
  cbn [app] in Hw. pose proof Hw as [Hwf Hfile Hsid Hsize Hsmall Hmax]. 
  assert (wal_files w wd' (segs ++ [(id, (frames rl, length (frames rl)))])) as Hwf'.
  { destruct Hwf as [H1 H2 H3 H4 H5]. split; [by rewrite (proj1 Hc)|done|done| |].
    - assert (sealed (segs ++ [(id, (frames rl, length (frames rl)))]) (rss ++ [rl])) as Hs' by by apply sealed_snoc.
      exact (crash_sealed _ _ _ _ _ Hc Hs' H4).
    - intros name j sid Hj Hg. destruct (crash_lookup_inv _ _ _ _ Hc Hj) as (i & Hi & Hij).
      destruct (H5 _ _ _ Hi Hg) as (Hd & Hsid' & ?). split_and!; [|done..]. intros ->. by destruct i. }
  destruct Hsame as (E1 & E2 & E3 & E4).
  assert (wal_files (new_wal p max) wd' (segs ++ [(id, (frames rl, length (frames rl)))])) as Hwf0 by by eapply wal_files_cfg; [..|exact Hwf'].
  destruct (CreateWAL_old _ _ _ _ _ _ _ Hq Hwf0 Hsmall Hm) as (w1 & wd1 & Ho & Hw1 & Hq1 & Hf1 & (S1 & S2 & S3 & S4) & Hd1).
  exists w1, wd1. split_and!; try done; try congruence.
  - unfold same_log. split_and!; congruence.
  - rewrite Hsid. apply Hw1.
  - by exists segs, rss, id, rl.
Qed.

Lemma log_Replay w wd rs :
  quiet wd → log_state w wd None rs →
  ∃ wd', Replay (w, wd) = (Ok rs, (w, wd')) ∧ log_state w wd' None rs ∧ quiet wd' ∧ log_frame w wd wd'.
Proof.
  intros Hq (segs & rss & id & rl & Hw & Hs & Hrl & ->). cbn [app] in Hw.
  assert (wal_open w wd segs id (frames rl ++ []) (length (frames rl))) as Hw0 by by rewrite app_nil_r.
  destruct (Replay_open _ _ _ _ _ _ _ _ Hq Hw0 Hs Hrl torn_nil) as (wd' & Hrep & Hq' & Hw' & Hf & Hd).
  rewrite app_nil_r in Hw', Hf. exists wd'. split; [done|]. split; [by exists segs, rss, id, rl|]. split; [done|].
  split; [done|]. intros q Hin. rewrite Hf, lookup_insert_ne; [done|]. intros <-. apply Hin, segmentPath_in_log.
  by eapply wal_files_last_fresh, (wo_files _ _ _ _ _ _ Hw).
Qed.

(** A fresh log. *)
Lemma CreateWAL_empty_eq p max wd :
  quiet wd → wal_files (new_wal p max) wd [] → files wd !! p = None →
  CreateWALWithSegmentSize p max wd = ('(w', _) ← run_with (new_wal p max) (openSegment 1); mret w') wd.
Proof.
  intros Hq Hwf Hn. unfold CreateWALWithSegmentSize.
  erewrite bind_Ok; [|by eapply listSegmentIDs_spec]. cbn [fmap list_fmap]. rewrite (bind_Ok _ _ wd [] wd); [done|].
  erewrite bind_Ok; [|eapply try_Err; unfold os_Stat; rewrite syscall_quiet by done; rewrite Hn; reflexivity]. done.
Qed.

Lemma log_create p max wd :
  quiet wd → wal_files (new_wal p max) wd [] → files wd !! p = None → segment_size max ≤ 2^62 →
  ∃ w wd', CreateWALWithSegmentSize p max wd = (Ok w, wd') ∧ log_state w wd' None [] ∧ quiet wd' ∧
    same_log (new_wal p max) w ∧ segmentID w = 1 ∧ log_frame (new_wal p max) wd wd'.
Proof.
  intros Hq Hwf Hn Hm. destruct (CreateWAL_empty p max wd Hq Hwf Hn Hm) as (w & wd' & Hrun & Hw & Hq' & Hsame).
  exists w, wd'. split; [exact Hrun|]. split; [exists [], [], 1, []; by split_and!; [exact Hw|constructor|constructor|]|]. split_and!; try done; [apply Hw|].
  rewrite CreateWAL_empty_eq in Hrun by done.
  assert (handle_ok (new_wal p max)) as Hh by by split.
  pose proof (λ a b, wp_run _ _ (new_wal p max, wd) a b (frame_openSegment 1 _ wd Hh ltac:(done))) as Hframe.
  unfold run_with, mbind, M_bind in Hrun. destruct (openSegment 1 (new_wal p max, wd)) as [[]  [w1 wd1]]; try done.
  injection Hrun as <- <-. by destruct (Hframe _ _ eq_refl).
Qed.
