(* ===== verification/Engine.v ===== *)
(** * The engine (wisp.go)

    The [Wisp] struct and its methods, each as one atomic call: the memtables behind
    pointers, the log, the list of tables, the freeze and the flush, recovery and closing. *)
From Stdlib Require Import ZArith Lia Strings.Byte.
From stdpp Require Import base list gmap sorting.
From S2P Require Import Prelude Key Monad Fs WalCodec Block Bloom Reader Merge.
From S2P Require Skiplist Memtable Wal Writer SSTableList Compactor.
Import Memtable (MemTable).
Import Wal (WAL).
Import Writer (Writer).
Import SSTableList (SSTableList).

(** ** Configuration

    An empty path and a nil list are [None]. *)
Record WispConfig := mkConfig {
  WALPath : option path;
  SSTablePath : option path;
  SSTableBlockSize : Z;
  MemTableFlushThreshold : Z;
  WALMaxSegmentSize : Z;
  cSSTableList : option SSTableList
}.

Definition defaultWALPath : path := mkPath [x2e] [x77; x61; x6c; x2e; x6c; x6f; x67].
Definition defaultSSTablePath : path := mkPath [x2e] [x64; x61; x74; x61; x2e; x73; x73; x74].
Definition defaultMemTableThreshold : Z := 4 * 1024 * 1024.
Definition empty_list : SSTableList := SSTableList.mkList [] [] 0.

Definition DefaultWispConfig : WispConfig :=
  mkConfig (Some defaultWALPath) (Some defaultSSTablePath) Writer.DefaultBlockSize defaultMemTableThreshold
    Wal.DefaultMaxSegmentSize (Some empty_list).

(** ** The struct

    A [*MemTable] is an index into [mems]. The configuration is the one with its defaults
    filled in. *)
Record Wisp := mkWisp {
  sstPath : path;
  blockSize : Z;
  threshold : Z;
  wal : option WAL;
  mems : list MemTable;
  mutableMemTable : nat;
  immutableMemTable : option nat;
  immutableWALSegment : Z;
  sstableWriter : option Writer;
  sstables : SSTableList
}.

Definition set_wal (x : option WAL) (w : Wisp) : Wisp :=
  mkWisp (sstPath w) (blockSize w) (threshold w) x (mems w) (mutableMemTable w) (immutableMemTable w) (immutableWALSegment w) (sstableWriter w) (sstables w).
Definition set_mems (x : list MemTable) (w : Wisp) : Wisp :=
  mkWisp (sstPath w) (blockSize w) (threshold w) (wal w) x (mutableMemTable w) (immutableMemTable w) (immutableWALSegment w) (sstableWriter w) (sstables w).
Definition set_mutable (x : nat) (w : Wisp) : Wisp :=
  mkWisp (sstPath w) (blockSize w) (threshold w) (wal w) (mems w) x (immutableMemTable w) (immutableWALSegment w) (sstableWriter w) (sstables w).
Definition set_immutable (x : option nat) (w : Wisp) : Wisp :=
  mkWisp (sstPath w) (blockSize w) (threshold w) (wal w) (mems w) (mutableMemTable w) x (immutableWALSegment w) (sstableWriter w) (sstables w).
Definition set_segment (x : Z) (w : Wisp) : Wisp :=
  mkWisp (sstPath w) (blockSize w) (threshold w) (wal w) (mems w) (mutableMemTable w) (immutableMemTable w) x (sstableWriter w) (sstables w).
Definition set_writer (x : option Writer) (w : Wisp) : Wisp :=
  mkWisp (sstPath w) (blockSize w) (threshold w) (wal w) (mems w) (mutableMemTable w) (immutableMemTable w) (immutableWALSegment w) x (sstables w).
Definition set_sstables (x : SSTableList) (w : Wisp) : Wisp :=
  mkWisp (sstPath w) (blockSize w) (threshold w) (wal w) (mems w) (mutableMemTable w) (immutableMemTable w) (immutableWALSegment w) (sstableWriter w) x.

Abbreviation E := (M (Wisp * world)).

(** Calls on the parts. *)
Definition on_list {A} (m : M (SSTableList * world) A) : E A := λ '(w, wd),
  let '(r, (l, wd')) := m (sstables w, wd) in (r, (set_sstables l w, wd')).
Definition on_wal {A} (m : M (WAL * world) A) : E A := λ '(w, wd),
  match wal w with
  | None => (Panic NilDereference, (w, wd))
  | Some x => let '(r, (x', wd')) := m (x, wd) in (r, (set_wal (Some x') w, wd'))
  end.
Definition get_mem (p : nat) : E MemTable :=
  w ← get_fst;
  match mems w !! p with Some m => mret m | None => lift (Panic NilDereference) end.
Definition put_mem (p : nat) (m : MemTable) : E unit := modify_fst (λ w, set_mems (<[p := m]> (mems w)) w).

Section engine.
Context `{Snappy, Hash128}.

(** ** Freezing and flushing *)
Definition freezeMutableLocked : E unit :=
  w ← get_fst;
  m ← get_mem (mutableMemTable w);
  put_mem (mutableMemTable w) (Memtable.Freeze m);;
  modify_fst (set_immutable (Some (mutableMemTable w)));;
  sealed ← on_wal Wal.Rotate;
  modify_fst (set_segment sealed);;
  w ← get_fst;
  put_fst (set_mutable (length (mems w)) (set_mems (mems w ++ [Memtable.CreateMemTableWithThreshold (threshold w)]) w)).

(** The loop over the memtable; [flush_fuel] is one more than its number of keys. *)
Fixpoint flush_loop (fuel : nat) (m : MemTable) (it : Memtable.MemTableIterator) : M (Writer * world) unit :=
  match fuel with
  | O => lift OutOfFuel
  | S fuel' =>
      if Memtable.Valid it then
        '(key, value, deleted) ← lift (Memtable.Entry m it);
        Writer.Add (mkEntry (SeriesID key) (Timestamp key) deleted value);;
        it ← lift (Memtable.Next m it);
        flush_loop fuel' m it
      else mret ()
  end.
Definition flush_fuel (m : MemTable) : nat := S (Z.to_nat (Skiplist.slength (Memtable.skiplist m))).

(** The table file of a flush, from the writer to its reader. *)
Definition write_memtable (path : path) (m : MemTable) : E unit :=
  w ← get_fst;
  writer ← on_snd (Writer.NewWriter path (blockSize w));
  modify_fst (set_writer (Some writer));;
  it ← lift (Memtable.iterator m);
  r ← try (on_snd (run_with writer (
    e ← try (flush_loop (flush_fuel m) m it);
    match e with
    | inr err => try Writer.Close;; fail err
    | inl _ => Writer.Close
    end)));
  match r with
  | inr err => modify_fst (set_writer None);; fail err
  | inl _ => mret ()
  end.

Definition flushImmutable (imm : nat) : E unit :=
  w ← get_fst;
  let sealedSegment := immutableWALSegment w in
  if decide (immutableMemTable w = Some imm) then
    nextGen ← on_list SSTableList.NextGen;
    let path := SSTableList.NewPath (sstPath w) nextGen in
    m ← get_mem imm;
    write_memtable path m;;
    r ← try (on_snd (OpenReader path));
    match r with
    | inr err => modify_fst (set_writer None);; fail err
    | inl reader =>
        newSST ← on_list (SSTableList.NewSSTableFile path nextGen reader);
        on_list (SSTableList.Add newSST);;
        modify_fst (set_writer None);;
        w ← get_fst;
        (if decide (immutableMemTable w = Some imm) then modify_fst (set_immutable None) else mret ());;
        w ← get_fst;
        match wal w with
        | Some _ => if 0 <? sealedSegment then on_wal (Wal.RemoveSegmentsUpTo sealedSegment) else mret ()
        | None => mret ()
        end
    end
  else mret ().

(** [for w.mutableMemTable.IsFull()]: a flush, a freeze, and the test of the fresh memtable. *)
Fixpoint prepare_loop (fuel : nat) : E unit :=
  match fuel with
  | O => lift OutOfFuel
  | S fuel' =>
      w ← get_fst;
      m ← get_mem (mutableMemTable w);
      if Memtable.IsFull m then
        match immutableMemTable w with
        | Some imm => flushImmutable imm
        | None => freezeMutableLocked
        end;;
        prepare_loop fuel'
      else mret ()
  end.
Definition prepareMutableMemTableLocked : E unit := prepare_loop 3.

(** [if immToFlush != nil { w.flushImmutable(immToFlush) }] *)
Definition flush_pending : E unit :=
  w ← get_fst;
  match immutableMemTable w with Some imm => flushImmutable imm | None => mret () end.

(** ** Reads and writes

    [pooled] is the log's pooled buffer, [coins] the draws of the skiplist. *)
Definition Insert (pooled : bytes) (coins : list bool) (seriesID timestamp : Z) (value : bytes) : E unit :=
  prepareMutableMemTableLocked;;
  on_wal (Wal.AppendRecord pooled (mkRecord timestamp seriesID false value));;
  w ← get_fst;
  m ← get_mem (mutableMemTable w);
  '(m', ok) ← lift (Memtable.Put m coins seriesID timestamp value);
  put_mem (mutableMemTable w) m';;
  if negb ok then fail ErrPut else flush_pending.

Definition Delete (pooled : bytes) (coins : list bool) (seriesID timestamp : Z) : E unit :=
  prepareMutableMemTableLocked;;
  on_wal (Wal.AppendRecord pooled (mkRecord timestamp seriesID true []));;
  w ← get_fst;
  m ← get_mem (mutableMemTable w);
  '(m', ok) ← lift (Memtable.Delete m coins seriesID timestamp);
  put_mem (mutableMemTable w) m';;
  if negb ok then fail ErrDelete else flush_pending.

(** A memtable's answer, if it has one. *)
Definition mem_answer (m : MemTable) (seriesID timestamp : Z) : outcome (option (bytes * bool * bool)) :=
  '(value, found, deleted) ← Memtable.Lookup m seriesID timestamp;
  Ok (if (found : bool) then Some (if (deleted : bool) then ([], false, true) else (value, true, false)) else None).

(** Value, found, deleted. *)
Definition Get (seriesID timestamp : Z) : E (bytes * bool * bool) :=
  w ← get_fst;
  tables ← on_list SSTableList.GetTables;
  r ← try (
    mut ← get_mem (mutableMemTable w);
    a ← lift (mem_answer mut seriesID timestamp);
    match a with
    | Some answer => mret answer
    | None =>
        a ← match immutableMemTable w with
            | Some p => imm ← get_mem p; lift (mem_answer imm seriesID timestamp)
            | None => mret None
            end;
        match a with
        | Some answer => mret answer
        | None => w ← get_fst; lift (Get_tables (Compactor.table_of (sstables w) <$> tables) seriesID timestamp)
        end
    end);
  on_list (SSTableList.ReleaseTables tables);;
  match r with inr e => fail e | inl answer => mret answer end.

Definition Compact (fuel : nat) : E unit :=
  w ← get_fst;
  on_list (Compactor.CompactAll fuel (sstPath w) true).

Definition Flush : E unit :=
  w ← get_fst;
  imm ← match immutableMemTable w with
        | Some imm => mret (Some imm)
        | None =>
            m ← get_mem (mutableMemTable w);
            if (0 <? Memtable.Size m) && negb (Memtable.IsFull m)
            then freezeMutableLocked;; w ← get_fst; mret (immutableMemTable w)
            else mret None
        end;
  match imm with Some imm => flushImmutable imm | None => mret () end.

(** ** Opening and closing *)
Fixpoint recover_loop (coins : nat → list bool) (i : nat) (records : list WALRecord) : E unit :=
  match records with
  | [] => mret ()
  | record :: records' =>
      w ← get_fst;
      m ← get_mem (mutableMemTable w);
      '(m', ok) ← lift (if rDeleted record
        then Memtable.Delete m (coins i) (rSeriesID record) (rTimestamp record)
        else Memtable.Put m (coins i) (rSeriesID record) (rTimestamp record) (rValue record));
      put_mem (mutableMemTable w) m';;
      if negb ok then fail (ErrRecover (rSeriesID record) (rTimestamp record))
      else recover_loop coins (S i) records'
  end.

Definition Recover (coins : nat → list bool) : E unit :=
  records ← on_wal Wal.Replay;
  recover_loop coins 0 records.

(** [errors.Is(err, os.ErrNotExist)] *)
Definition is_not_exist (e : error) : bool :=
  match e with ErrNotExist | ErrOpenTable _ ErrNotExist => true | _ => false end.

Definition openSSTables : E unit :=
  w ← get_fst;
  r ← try (on_list (SSTableList.Load (sstPath w)));
  match r with
  | inr e => if is_not_exist e then mret () else fail e
  | inl _ => mret ()
  end.

Definition Close : E unit :=
  Flush;;
  e1 ← try (on_list SSTableList.Close);
  w ← get_fst;
  let closeErr := SSTableList.first_err None e1 in
  closeErr ← match sstableWriter w with
    | Some writer =>
        e2 ← try (on_snd (run_with writer Writer.Close;; mret ()));
        modify_fst (set_writer None);;
        mret (SSTableList.first_err closeErr e2)
    | None => mret closeErr
    end;
  w ← get_fst;
  closeErr ← match wal w with
    | Some _ =>
        e3 ← try (on_wal Wal.Close);
        modify_fst (set_wal None);;
        mret (SSTableList.first_err closeErr e3)
    | None => mret closeErr
    end;
  match closeErr with Some e => fail e | None => mret () end.

Definition or_default (z d : Z) : Z := if z =? 0 then d else z.

Definition CreateWispWithConfig (coins : nat → list bool) (config : WispConfig) : IO Wisp :=
  let walPath := default defaultWALPath (WALPath config) in
  let sstPath := default defaultSSTablePath (SSTablePath config) in
  let threshold := or_default (MemTableFlushThreshold config) defaultMemTableThreshold in
  walInstance ← Wal.CreateWALWithSegmentSize walPath (or_default (WALMaxSegmentSize config) Wal.DefaultMaxSegmentSize);
  let wisp := mkWisp sstPath (or_default (SSTableBlockSize config) Writer.DefaultBlockSize) threshold (Some walInstance)
    [Memtable.CreateMemTableWithThreshold threshold] 0 None 0 None (default empty_list (cSSTableList config)) in
  '(wisp, _) ← run_with wisp (
    r ← try openSSTables;
    match r with
    | inr e => try Close;; fail e
    | inl _ =>
        r ← try (Recover coins);
        match r with
        | inr e => try Close;; fail e
        | inl _ => mret ()
        end
    end);
  mret wisp.

Definition CreateWisp (coins : nat → list bool) : IO Wisp := CreateWispWithConfig coins DefaultWispConfig.

(** ** Snapshots for scans *)
Fixpoint snapshot_loop (fuel : nat) : E unit :=
  match fuel with
  | O => lift OutOfFuel
  | S fuel' =>
      w ← get_fst;
      m ← get_mem (mutableMemTable w);
      match immutableMemTable w with
      | Some imm => if 0 <? Memtable.Size m then flushImmutable imm;; snapshot_loop fuel' else mret ()
      | None => mret ()
      end
  end.

(** The frozen memtable, if there is one, and the tables held. *)
Definition snapshotForScan : E (option nat * list nat) :=
  snapshot_loop 2;;
  w ← get_fst;
  m ← get_mem (mutableMemTable w);
  (if 0 <? Memtable.Size m then freezeMutableLocked else mret ());;
  w ← get_fst;
  tables ← on_list SSTableList.GetTables;
  mret (immutableMemTable w, tables).
End engine.
