(* ===== verification/EngineMem.v ===== *)
(** * Memtables, log records and table entries (wisp.go)

    The three forms a write takes: a record of the log, a binding of a memtable and an
    entry of a table; the flush loop that turns a memtable into a table, and the recovery
    loop that turns a log into a memtable. *)
From Stdlib Require Import ZArith Lia.
From stdpp Require Import base list gmap sorting.
From S2P Require Import Prelude Key Monad Fs WalCodec Block Bloom Writer Reader Engine.
From S2P Require Skiplist Memtable.
Import Memtable (MemTable, memtable_map, write, WPut, WDelete, write_map, write_cost).

(** ** Forms of a write *)
Definition entry_of (kv : Key * (bytes * bool)) : Entry := mkEntry (SeriesID kv.1) (Timestamp kv.1) kv.2.2 kv.2.1.

Definition record_write (r : WALRecord) : write :=
  let k := mkKey (rSeriesID r) (rTimestamp r) in
  if rDeleted r then WDelete k else WPut k (rValue r).

(** The memtable a log gives. *)
Definition replay_map (rs : list WALRecord) : gmap Key (bytes * bool) := foldl write_map ∅ (record_write <$> rs).

Lemma replay_map_snoc rs r : replay_map (rs ++ [r]) = write_map (replay_map rs) (record_write r).
Proof. unfold replay_map. by rewrite fmap_app, foldl_app. Qed.

Definition binding_of (e : Entry) : bytes * bool := (eValue e, eDeleted e).

Lemma ekey_entry_of kv : ekey (entry_of kv) = kv.1.
Proof. by destruct kv as [[s t] [v d]]. Qed.

Lemma binding_entry_of kv : binding_of (entry_of kv) = kv.2.
Proof. by destruct kv as [k [v d]]. Qed.

Lemma entries_esorted kvs : ksorted kvs → esorted (entry_of <$> kvs).
Proof.
  unfold ksorted, esorted. rewrite <-list_fmap_compose. intros H. rewrite (list_fmap_ext _ fst); [done|].
  intros i kv _. apply ekey_entry_of.
Qed.

Lemma first_entry_entries k kvs : binding_of <$> first_entry k (entry_of <$> kvs) = alookup k kvs.
Proof.
  induction kvs as [|[k' b] kvs IH]; [done|]. rewrite fmap_cons. cbn [first_entry alookup].
  rewrite ekey_entry_of. cbn [fst]. destruct (decide (k' = k)) as [->|Hne].
  - cbn. by rewrite binding_entry_of.
  - exact IH.
Qed.

(** Bindings the writer of a table accepts. *)
Definition small_map (m : gmap Key (bytes * bool)) : Prop := ∀ k b, m !! k = Some b → small_entry (entry_of (k, b)).

Lemma small_entries kvs : ksorted kvs → small_map (kmap kvs) → Forall small_entry (entry_of <$> kvs).
Proof.
  intros Hs Hsm. apply Forall_fmap, Forall_forall. intros [k b] Hin. apply Hsm. rewrite kmap_lookup. by apply alookup_elem.
Qed.

Lemma record_small r : record_ok r → small_entry (entry_of (Memtable.write_key (record_write r), Memtable.write_binding (record_write r))).
Proof.
  intros (H1 & H2 & H3). unfold payloadEncodedSize in H3. change maxRecordSize with 67108864 in H3.
  change payloadHeaderSize with 21 in H3. unfold record_write.
  destruct (rDeleted r); (split; [split_and!; [done|done|]|]); cbn [eValue entry_of fst snd Memtable.write_binding]; zlen.
Qed.

Lemma replay_small rs : Forall record_ok rs → small_map (replay_map rs).
Proof.
  induction rs as [|r rs IH] using rev_ind; [by intros _ k b Hb%(lookup_empty_Some k b)|].
  intros [H1 H2]%Forall_app k b. apply Forall_inv in H2. rewrite replay_map_snoc. unfold write_map.
  intros [[<- <-]|[_ Hb]]%lookup_insert_Some; [exact (record_small _ H2)|exact (IH H1 k b Hb)].
Qed.

Lemma size_kmap kvs : ksorted kvs → size (kmap kvs : gmap Key (bytes * bool)) = length kvs.
Proof. intros Hs. by apply map_size_list_to_map, ksorted_NoDup. Qed.

(** ** The flush loop *)
Section flush.
Context `{Snappy, Hash128}.

Lemma flush_loop_eq fuel m it kvs s :
  Skiplist.cursor (Memtable.skiplist m) it kvs → (length kvs < fuel)%nat →
  flush_loop fuel m it s = add_entries (entry_of <$> kvs) s.
Proof.
  revert it kvs s. induction fuel as [|fuel IH]; intros it kvs s Hc Hf; [lia|]. destruct kvs as [|[k [v d]] kvs].
  - by rewrite (Skiplist.cursor_nil _ _ Hc).
  - destruct (Skiplist.cursor_cons _ _ _ _ _ _ Hc) as (Hv & He & it' & Hn & Hc'). cbn [flush_loop].
    unfold Memtable.Valid. rewrite Hv. unfold Memtable.Entry. rewrite (lift_Ok _ _ _ _ He). cbv beta iota. rewrite fmap_cons. cbn [add_entries].
    unfold mbind, M_bind. unfold entry_of at 1. cbn [fst snd]. destruct (Add _ s) as [[]s']; [|done..].
    unfold Memtable.Next. rewrite Hn. cbn [lift]. apply IH; [done|cbn in Hf; lia].
Qed.

Lemma memtable_length m km : memtable_map m km → Skiplist.slength (Memtable.skiplist m) = Z.of_nat (size km).
Proof.
  intros (kvs & Hr & ->). rewrite (Skiplist.represents_length _ _ Hr), size_kmap; [done|].
  by eapply Skiplist.represents_sorted.
Qed.

Lemma wp_ext {S A} (m m' : M S A) Q s : m s = m' s → wp m' Q s → wp m Q s.
Proof. unfold wp. by intros ->. Qed.

(** Writing a memtable to a fresh table file, whatever calls fail. *)
Lemma wp_write_memtable N path m km w wd (Q : outcome unit → Wisp * world → Prop) :
  filters_ok N → N < 2^30 → memtable_map m km → Z.of_nat (size km) ≤ N → small_map km → blockSize w < 2^31 →
  files wd !! path ≠ Some Dir → pdir path ∈ dirs wd →
  (∀ x wd' kvs bss b, ksorted kvs → kmap kvs = km → table_ok bss b (entry_of <$> kvs) → only path wd wd' →
     files wd' !! path = Some (File (table_bytes (blockSize w) bss b) (length (table_bytes (blockSize w) bss b))) →
     Q (Ok ()) (set_writer x w, wd')) →
  (∀ e x wd', only path wd wd' → ¬ quiet wd → Q (Err e) (set_writer x w, wd')) →
  wp (write_memtable path m) Q (w, wd).
Proof.
  intros Hfil HN Hm Hsize Hsm Hbs Hfile Hdir Hok Herr. destruct (Memtable.iterate_map _ _ Hm) as (it & kvs & Hit & Hc & Hs & Hkm).
  assert (length kvs = size km) as Hlen by (by rewrite <-Hkm, size_kmap).
  assert (Forall small_entry (entry_of <$> kvs)) as Hsme by (apply small_entries; [done|by rewrite Hkm]).
  assert (zlen (entry_of <$> kvs) ≤ N) as HNl by (unfold zlen; rewrite length_fmap; lia).
  unfold write_memtable. wsteps. apply wp_NewWriter; [done|done| |].
  2: { intros e wd1 Ho Hq. cbv beta iota. replace w with (set_writer (sstableWriter w) w) by (by destruct w). by apply Herr. }
  intros wr wd1 Hw Ho1. cbv beta iota. wsteps. rewrite Hit. cbv beta iota. do 6 wstep.
  eapply wp_ext; [eapply flush_loop_eq; [exact Hc|unfold flush_fuel; rewrite (memtable_length _ _ Hm); lia]|].
  eapply (wp_add_entries N HN path (blockSize w) _ [] []); [exact Hw|done|done|done| |].
  - intros w2 wd2 bss2 cur2 Hw2 Hcc Ho2. cbn [app concat] in Hcc. cbv beta iota.
    eapply (wp_Close_table N HN); [exact Hw2|by rewrite Hcc|rewrite Hcc; apply Hfil; split; [apply zlen_nonneg|done]| |].
    + intros w3 wd3 bss b Htb Ho3 Hf. cbv beta iota. wsteps. rewrite Hcc in Htb.
      apply (Hok _ _ kvs bss b); [done..| |done]. eapply only_trans; [exact Ho1|]. by eapply only_trans.
    + intros e w3 wd3 _ Ho3 Hq. cbv beta iota. wsteps. apply (Herr e None wd3); [eapply only_trans; [exact Ho1|by eapply only_trans]|].
      by apply (only_not_quiet _ _ _ Ho1), (only_not_quiet _ _ _ Ho2).
  - intros e w2 wd2 Hsane Ho2 Hq. cbv beta iota. do 2 wstep. eapply wp_mono; [by apply (wp_Close_settled N)|].
    intros r [w3 wd3] (Hfu & Hpa & Ho3 & _). cbn [snd] in Ho3.
    assert (only path wd wd3) as Ho by (eapply only_trans; [exact Ho1|by eapply only_trans]).
    assert (¬ quiet wd) as Hq' by by apply (only_not_quiet _ _ _ Ho1).
    destruct r as [[]|e'|e'|]; [| |by destruct (Hpa e')|by destruct Hfu]; cbv beta iota; wsteps; by apply (Herr e None wd3).
Qed.
End flush.
