(* ===== verification/EngineFrame.v ===== *)
(** * Frames of the engine's methods (wisp.go)

    What a method of a [Wisp] may do to its struct, whatever its calls return: a preorder on
    structs that every step of the program respects. *)
From Stdlib Require Import ZArith Lia.
From stdpp Require Import base list gmap.
From S2P Require Import Prelude Monad Fs Engine.
From S2P Require Memtable Wal SSTableList.
Import Memtable (MemTable).

Section within.
Context (R : Wisp → Wisp → Prop) `{!PreOrder R}.

(** [m] moves the struct along [R]. *)
Definition within {A} (m : E A) : Prop := ∀ s, wp m (λ _ s', R s.1 s'.1) s.

Lemma within_run {A} (m : E A) s r s' : within m → m s = (r, s') → R s.1 s'.1.
Proof. intros Hm Hrun. exact (wp_run _ _ _ _ _ (Hm s) Hrun). Qed.

Lemma within_bind {A B} (m : E A) (f : A → E B) : within m → (∀ a, within (f a)) → within (m ≫= f).
Proof.
  intros Hm Hf s. apply wp_bind. eapply wp_mono; [apply Hm|]. intros r s1 H1. destruct r as [a|e|p|]; [|done..].
  eapply wp_mono; [apply Hf|]. intros r2 s2 H2. by trans s1.1.
Qed.

Lemma within_lift {A} (o : outcome A) : within (lift o).
Proof. intros s. apply wp_lift. reflexivity. Qed.
Lemma within_ret {A} (a : A) : within (mret a).
Proof. intros s. apply wp_ret. reflexivity. Qed.
Lemma within_fail {A} e : within (fail e : E A).
Proof. apply within_lift. Qed.
Lemma within_try {A} (m : E A) : within m → within (try m).
Proof. intros Hm s. apply wp_try. eapply wp_mono; [apply Hm|]. by intros [] s' H. Qed.
Lemma within_on_snd {A} (m : IO A) : within (on_snd m).
Proof. intros [w wd]. apply wp_on_snd, wp_intro. intros r s' _. reflexivity. Qed.
Lemma within_get_fst : within get_fst.
Proof. intros [w wd]. apply wp_get_fst. reflexivity. Qed.
Lemma within_modify f : (∀ w, R w (f w)) → within (modify_fst f).
Proof. intros Hf [w wd]. apply wp_modify_fst, Hf. Qed.
Lemma within_get_mem p : within (get_mem p).
Proof. intros [w wd]. unfold get_mem. wstep. wstep. destruct (mems w !! p); wsteps; reflexivity. Qed.
Lemma within_on_list {A} (m : M (SSTableList.SSTableList * world) A) : (∀ w l, R w (set_sstables l w)) → within (on_list m).
Proof. intros Hl [w wd]. unfold wp, on_list. destruct (m _) as [r [l wd']]. apply Hl. Qed.
Lemma within_on_wal {A} (m : M (Wal.WAL * world) A) : (∀ w x, R w (set_wal x w)) → within (on_wal m).
Proof. intros Hx [w wd]. unfold wp, on_wal. destruct (wal w); [|reflexivity]. destruct (m _) as [r [x wd']]. apply Hx. Qed.
End within.

(** The rules are in the hint database; [update] stands for a rule of the client's own, and
    [side] proves what a step does to the struct. *)
Create HintDb within.
#[export] Hint Resolve within_lift within_ret within_fail within_on_snd within_get_fst within_get_mem : within.

Ltac within_steps update side :=
  repeat lazymatch goal with
  | |- within _ (mbind _ _) => first [update | apply within_bind; [try typeclasses eauto| |intros ?]]
  | |- within _ (try _) => apply within_try
  | |- within _ (modify_fst _) => apply within_modify; side
  | |- within _ (on_list _) => apply within_on_list; side
  | |- within _ (on_wal _) => apply within_on_wal; [try typeclasses eauto|side]
  | |- within _ (match ?x with _ => _ end) => destruct x
  | |- within _ (let x := _ in _) => cbv zeta
  | |- within _ _ => solve [eauto 3 with within typeclass_instances]
  end.
