(* ===== verification/EngineInv.v ===== *)
(** * The invariant of the engine (wisp.go)

    How memtables, log, tables and directory fit together between two calls of a [Wisp],
    and that every method keeps it: in a world where no call fails each method returns
    without an error and does to the contents what it says. *)
From Stdlib Require Import ZArith Lia.
From stdpp Require Import base list gmap sorting.
From S2P Require Import Prelude Key Monad Fs WalCodec Block Bloom Reader Merge Tables WalFrame Engine EngineMem.
From S2P Require Skiplist Memtable Wal Writer SSTableList Compactor.
Import Memtable (MemTable, memtable_map, write_map, write_cost, total_cost).
Import Wal (WAL).
Import SSTableList (SSTableList, NewPath).

(** ** Calls on the parts *)
Lemma on_list_run {A} (m : M (SSTableList * world) A) w wd r l' wd' :
  m (sstables w, wd) = (r, (l', wd')) → on_list m (w, wd) = (r, (set_sstables l' w, wd')).
Proof. unfold on_list. by intros ->. Qed.

Lemma on_wal_run {A} (m : M (WAL * world) A) w wd x r x' wd' :
  wal w = Some x → m (x, wd) = (r, (x', wd')) → on_wal m (w, wd) = (r, (set_wal (Some x') w, wd')).
Proof. unfold on_wal. by intros -> ->. Qed.

Lemma get_mem_run p w wd m : mems w !! p = Some m → get_mem p (w, wd) = (Ok m, (w, wd)).
Proof. intros H. unfold get_mem. erewrite bind_Ok by reflexivity. by rewrite H. Qed.

(** ** Contents *)

(** The binding of a key: in the mutable memtable, else the frozen one, else the tables. *)
Definition lookup_view (rs old : list WALRecord) (tabs : list stream) (k : Key) : option (bytes * bool) :=
  match replay_map rs !! k with
  | Some b => Some b
  | None => match replay_map old !! k with
            | Some b => Some b
            | None => binding_of <$> first_entry k (table_entries tabs)
            end
  end.

(** The value a binding stands for. *)
Definition live (b : option (bytes * bool)) : option bytes :=
  match b with Some (v, false) => Some v | _ => None end.

Definition segment (w : Wisp) : Z := match wal w with Some x => Wal.segmentID x | None => 0 end.

Section engine.
Context `{Snappy, Hash128} (wpath : path) (wmax : Z) (base : path).

(** No file is named like a segment of the log and like a table. *)
Definition separate : Prop := ∀ q, in_log (Wal.new_wal wpath wmax) q → ¬ in_tables base q.

(** [rs] are the records of the mutable memtable, [frozen] those of the frozen one. *)
Record engine (w : Wisp) (wd : world) (rs : list WALRecord) (frozen : option (list WALRecord)) (tabs : list stream) : Prop := {
  en_quiet : quiet wd;
  en_log : ∃ x, wal w = Some x ∧ log_state x wd ((λ old, (old, immutableWALSegment w)) <$> frozen) rs ∧
    Wal.same_log (Wal.new_wal wpath wmax) x ∧ 1 ≤ Wal.segmentID x;
  en_records : Forall record_ok rs ∧ Forall record_ok (default [] frozen);
  en_segment : frozen ≠ None → 0 < immutableWALSegment w;
  en_tables : listing base (sstables w) wd tabs;
  en_mutable : ∃ m, mems w !! mutableMemTable w = Some m ∧ memtable_map m (replay_map rs) ∧ Memtable.mutable m = true ∧
    Memtable.flushThreshold m = threshold w ∧ Memtable.size m = total_cost (record_write <$> rs);
  en_immutable : match frozen, immutableMemTable w with
    | None, None => True
    | Some old, Some p => p ≠ mutableMemTable w ∧ ∃ m, mems w !! p = Some m ∧ memtable_map m (replay_map old)
    | _, _ => False
    end;
  en_config : sstPath w = base ∧ 0 < threshold w ∧ blockSize w < 2^31;
  en_writer : sstableWriter w = None
}.

(** [N] bounds the entries a table may get. [room e s g t]: no counter overflows in [e] more
    writes, [s] segments, [g] generations and [t] tables. *)
Context (N : Z) (HN : N < 2^28) (Hfilters : Writer.filters_ok N) (Hmax : Wal.segment_size wmax ≤ 2^62) (Hsep : separate).

Record room (w : Wisp) (rs old : list WALRecord) (tabs : list stream) (e s g t : Z) : Prop := {
  ro_entries : zlen rs + zlen old + Z.of_nat (total tabs) + e ≤ N;
  ro_segments : segment w + s < 2^64;
  ro_gens : SSTableList.nextGen (sstables w) + g < 2^64;
  ro_tables : 2 * (zlen (SSTableList.tables (sstables w)) + t) < 2^31 - 6
}.

Lemma replay_size rs : (size (replay_map rs) ≤ length rs)%nat.
Proof.
  induction rs as [|r rs IH] using rev_ind; [done|]. rewrite replay_map_snoc, length_app. unfold write_map. cbn.
  rewrite map_size_insert. destruct (replay_map rs !! _); cbn; lia.
Qed.

Lemma total_cost_snoc ws x : total_cost (ws ++ [x]) = total_cost ws + write_cost x.
Proof. unfold total_cost. rewrite foldr_app. cbn. induction ws as [|y ws IH]; cbn; [lia|]. rewrite IH. lia. Qed.

Lemma total_cost_bounds rs : Forall record_ok rs → 16 * zlen rs ≤ total_cost (record_write <$> rs) ≤ 2^27 * zlen rs.
Proof.
  induction 1 as [|r rs (_ & _ & Hr) Hrs IH]; [done|]. rewrite fmap_cons. unfold total_cost in *. cbn [foldr].
  assert (16 ≤ write_cost (record_write r) ≤ 2^27).
  { unfold payloadEncodedSize in Hr. change maxRecordSize with 67108864 in Hr. change payloadHeaderSize with 21 in Hr.
    pose proof (zlen_nonneg (rValue r)). unfold record_write. destruct (rDeleted r); cbn [write_cost]; lia. }
  rewrite zlen_cons. lia.
Qed.

(** ** The flush *)
Lemma only_log_outside x out wd wd' :
  Wal.same_log (Wal.new_wal wpath wmax) x → in_tables base out → only out wd wd' → ∀ q, in_log x q → files wd' !! q = files wd !! q.
Proof. intros Hs Hout (_ & Ho & _) q Hq. apply Ho. intros ->. by apply (Hsep out); [rewrite <-(in_log_same _ _ _ Hs)|]. Qed.

Lemma log_frame_tables x wd wd' :
  Wal.same_log (Wal.new_wal wpath wmax) x → log_frame x wd wd' → ∀ q, in_tables base q → files wd' !! q = files wd !! q.
Proof. intros Hs [_ Hf] q Hq. apply Hf. rewrite (in_log_same _ _ _ Hs). intros Hin. by apply (Hsep q). Qed.

Lemma flushImmutable_ok w wd rs old tabs imm e s g t :
  engine w wd rs (Some old) tabs → immutableMemTable w = Some imm → room w rs old tabs e s g t → 0 ≤ e → 1 ≤ g → 1 ≤ t →
  ∃ w' wd' es, flushImmutable imm (w, wd) = (Ok (), (w', wd')) ∧
    engine w' wd' rs None ((SSTableList.nextGen (sstables w) + 1, es) :: tabs) ∧
    (∀ k, binding_of <$> first_entry k es = replay_map old !! k) ∧ (length es ≤ length old)%nat ∧
    segment w' = segment w ∧ SSTableList.nextGen (sstables w') = SSTableList.nextGen (sstables w) + 1 ∧
    length (SSTableList.tables (sstables w')) = S (length (SSTableList.tables (sstables w))) ∧
    mems w' = mems w ∧ mutableMemTable w' = mutableMemTable w ∧ immutableMemTable w' = None ∧ threshold w' = threshold w.
Proof.
  intros [Hq (x & Hx & Hlog & Hsame & Hid) Hrec Hseg Htab Hmut Himm (Hbase & Hthr & Hbs) Hwr] Himm0 [R1 R2 R3 R4] He Hg Ht.
  rewrite Himm0 in Himm. destruct Himm as (Hne & mi & Hmi & Hmap). cbn in Hlog, Hrec.
  pose proof (ls_next _ _ _ _ Htab) as Hnext. set (gen := SSTableList.nextGen (sstables w) + 1) in *.
  set (out := NewPath base gen). assert (is_u64 gen) as Hgu by (unfold is_u64, gen; lia).
  assert (in_tables base out) as Hout by by apply NewPath_in_tables.
  destruct (next_fresh base _ _ _ gen Htab ltac:(lia) Hgu) as [_ Hnone]. fold out in Hnone.
  unfold flushImmutable. erewrite bind_Ok by reflexivity. cbv zeta. rewrite decide_True by done.
  erewrite bind_Ok by (apply on_list_run; reflexivity). rewrite u64_id by (unfold is_u64 in *; lia). fold gen.
  set (w1 := set_sstables (SSTableList.set_nextGen gen (sstables w)) w). rewrite Hbase. fold out.
  erewrite bind_Ok by (apply (get_mem_run imm w1); exact Hmi).
  pose proof (zlen_nonneg rs). pose proof (zlen_nonneg old).
  destruct (wp_elim (write_memtable out mi) (λ r s, r = Ok () ∧ ∃ y kvs bss b, s.1 = set_writer y w1 ∧ ksorted kvs ∧ kmap kvs = replay_map old ∧
    Writer.table_ok bss b (entry_of <$> kvs) ∧ only out wd s.2 ∧
    files s.2 !! out = Some (File (Writer.table_bytes (blockSize w) bss b) (length (Writer.table_bytes (blockSize w) bss b)))) (w1, wd))
    as (r & [w2 wd1] & Hrun & -> & y & kvs & bss & b & E & Hs & Hkm & Htb & Ho & Hfile).
  { apply (wp_write_memtable N out mi (replay_map old)); try done; [lia| | |by rewrite Hnone|exact (ls_dir _ _ _ _ Htab)|].
    - pose proof (replay_size old). unfold zlen in *. lia.
    - apply replay_small, Hrec.
    - intros y wd' kvs bss b. by split; [|exists y, kvs, bss, b]. }
  cbn [fst snd] in E, Ho, Hfile. subst w2. erewrite bind_Ok by exact Hrun.
  set (es := entry_of <$> kvs) in *. set (data := Writer.table_bytes (blockSize w) bss b) in *.
  assert (quiet wd1) as Hq1 by by apply Ho.
  pose proof (readFooter_written (blockSize w) bss b es Htb) as Hrd. fold data in Hrd.
  set (reader := mkReader data (Writer.index_of 12 bss) (zlen es) (Some b)) in *.
  erewrite bind_Ok by (apply try_Ok, on_snd_run; by eapply SSTableList.OpenReader_quiet). cbv beta iota.
  destruct (listing_add base (sstables w) wd tabs wd1 reader es data Htab) as (p & l2 & l3 & Hnew & Hadd & Hl3 & Hg3 & Hlen3);
    [lia|done|done|done|by eapply written_readable|by apply entries_esorted| |lia|].
  { apply small_entries; [done|]. rewrite Hkm. apply replay_small, Hrec. }
  fold gen out in Hnew, Hl3, Hg3.
  erewrite bind_Ok by (apply on_list_run; exact Hnew). erewrite bind_Ok by (apply on_list_run; exact Hadd).
  erewrite bind_Ok by reflexivity. erewrite bind_Ok by reflexivity.
  set (w3 := set_writer None (set_sstables l3 w)). change (set_writer None _) with w3.
  change (immutableMemTable w3) with (immutableMemTable w). rewrite decide_True by done.
  erewrite bind_Ok by reflexivity. erewrite bind_Ok by reflexivity. cbn [wal set_immutable w3 set_writer set_sstables]. rewrite Hx.
  assert (0 < immutableWALSegment w) as Hk by by apply Hseg. rewrite (proj2 (Z.ltb_lt _ _) Hk).
  assert (log_state x wd1 (Some (old, immutableWALSegment w)) rs) as Hlog1.
  { eapply log_state_outside; [apply Ho|by eapply only_log_outside|exact Hlog]. }
  destruct (log_Remove _ _ _ _ _ Hq1 Hlog1) as (wd2 & Hrem & Hlog2 & Hq2 & Hframe).
  exists (set_wal (Some x) (set_immutable None w3)), wd2, es.
  split; [by apply (on_wal_run _ (set_immutable None w3) wd1 x)|].
  split_and!; try done.
  - split; cbn [wal sstables mems mutableMemTable immutableMemTable immutableWALSegment threshold sstPath blockSize sstableWriter
      set_wal set_immutable w3 set_writer set_sstables]; try done.
    + by exists x.
    + split; [apply Hrec|constructor].
    + eapply listing_outside; [apply Hframe|by eapply log_frame_tables|exact Hl3].
  - intros k. unfold es. by rewrite first_entry_entries, <-kmap_lookup, Hkm.
  - unfold es. rewrite length_fmap, <-size_kmap, Hkm by done. apply replay_size.
  - unfold segment. cbn. by rewrite Hx.
Qed.

(** ** The freeze *)
Lemma freeze_ok w wd rs tabs e s g t :
  engine w wd rs None tabs → room w rs [] tabs e s g t → 1 ≤ s →
  ∃ w' wd', freezeMutableLocked (w, wd) = (Ok (), (w', wd')) ∧ engine w' wd' [] (Some rs) tabs ∧
    segment w' = segment w + 1 ∧ sstables w' = sstables w ∧ threshold w' = threshold w ∧
    immutableMemTable w' = Some (mutableMemTable w) ∧
    mems w' !! mutableMemTable w' = Some (Memtable.CreateMemTableWithThreshold (threshold w)).
Proof.
  intros [Hq (x & Hx & Hlog & Hsame & Hid) Hrec Hseg Htab (m & Hm & Hmap & Hmt & Hth & Hsz) Himm (Hbase & Hthr & Hbs) Hwr] [R1 R2 R3 R4] Hn.
  cbn in Hlog. unfold segment in *. rewrite Hx in R2.
  unfold freezeMutableLocked. erewrite bind_Ok by reflexivity. erewrite bind_Ok by (apply get_mem_run; exact Hm).
  erewrite bind_Ok by reflexivity. erewrite bind_Ok by reflexivity.
  set (w1 := set_immutable _ _). destruct (log_Rotate x wd rs Hq Hlog ltac:(lia)) as (x' & wd' & Hrot & Hlog' & Hq' & Hs' & Hframe & Hid').
  erewrite bind_Ok by (apply (on_wal_run _ w1 wd x); [exact Hx|exact Hrot]).
  erewrite bind_Ok by reflexivity. erewrite bind_Ok by reflexivity.
  pose proof (lookup_lt_Some _ _ _ Hm) as Hlt.
  set (fresh := Memtable.CreateMemTableWithThreshold (threshold w)). eexists _, wd'. split; [reflexivity|].
  destruct (Memtable.CreateMemTable_map (threshold w)) as (Hf1 & Hf2 & Hf3). fold fresh in Hf1, Hf2, Hf3.
  cbn [w1 wal sstables mems mutableMemTable immutableMemTable immutableWALSegment threshold sstPath blockSize sstableWriter
      set_wal set_immutable set_writer set_sstables set_segment set_mutable set_mems segment].
  assert ((<[mutableMemTable w := Memtable.Freeze m]> (mems w) ++ [fresh]) !! length (<[mutableMemTable w := Memtable.Freeze m]> (mems w)) = Some fresh)
    as Hfresh by (by rewrite lookup_app_r, Nat.sub_diag by lia).
  split_and!; try done.
  split; cbn [w1 wal sstables mems mutableMemTable immutableMemTable immutableWALSegment threshold sstPath blockSize sstableWriter
      set_wal set_immutable set_writer set_sstables set_segment set_mutable set_mems]; try done.
  - exists x'. split_and!; try done; [|lia]. by eapply same_log_trans.
  - split; [constructor|apply Hrec].
  - intros _. lia.
  - eapply listing_outside; [apply Hframe|by eapply log_frame_tables|exact Htab].
  - exists fresh. split_and!; try done. unfold fresh, Memtable.CreateMemTableWithThreshold.
    destruct (Z.eqb_spec (threshold w) 0); [lia|done].
  - rewrite length_insert. split; [lia|]. exists (Memtable.Freeze m). split; [|exact Hmap].
    rewrite lookup_app_l by (by rewrite length_insert). by rewrite list_lookup_insert_eq.
  - by rewrite Hx.
Qed.

(** ** One write *)
Definition put_record (pooled : bytes) (coins : list bool) (r : WALRecord) : E bool :=
  on_wal (Wal.AppendRecord pooled r);;
  w ← get_fst;
  m ← get_mem (mutableMemTable w);
  '(m', ok) ← lift (Memtable.apply_write m coins (record_write r));
  put_mem (mutableMemTable w) m';;
  mret ok.

Lemma put_record_ok w wd rs frozen tabs pooled coins r e s g t :
  engine w wd rs frozen tabs → record_ok r → room w rs (default [] frozen) tabs e s g t → 1 ≤ e → 1 ≤ s →
  ∃ w' wd', put_record pooled coins r (w, wd) = (Ok true, (w', wd')) ∧ engine w' wd' (rs ++ [r]) frozen tabs ∧
    segment w ≤ segment w' ≤ segment w + 1 ∧ sstables w' = sstables w ∧ immutableMemTable w' = immutableMemTable w.
Proof.
  intros [Hq (x & Hx & Hlog & Hsame & Hid) Hrec Hseg Htab (m & Hm & Hmap & Hmt & Hth & Hsz) Himm (Hbase & Hthr & Hbs) Hwr] Hr [R1 R2 R3 R4] He Hs0.
  unfold segment in *. rewrite Hx in R2.
  destruct (log_Append pooled r x wd _ rs Hq Hlog Hr ltac:(lia)) as (x' & wd' & Happ & Hlog' & Hq' & Hs' & Hframe & Hid').
  destruct (Memtable.apply_write_spec m _ coins (record_write r) Hmap Hmt) as (m' & Happly & Hmap' & Hsz' & Hmt' & Hth').
  unfold put_record. erewrite bind_Ok by (eapply on_wal_run; [exact Hx|exact Happ]).
  erewrite bind_Ok by reflexivity. erewrite bind_Ok by (apply get_mem_run; exact Hm). rewrite (lift_Ok _ _ _ _ Happly). cbv beta iota.
  erewrite bind_Ok by reflexivity. eexists _, wd'. split; [reflexivity|].
  cbn [wal sstables mems mutableMemTable immutableMemTable set_wal set_mems]. rewrite Hx. split; [|split_and!; try done; lia].
  assert (Forall record_ok (rs ++ [r])) as Hrec' by (apply Forall_app; split; [apply Hrec|by constructor]).
  pose proof (lookup_lt_Some _ _ _ Hm) as Hlt.
  split; cbn [wal sstables mems mutableMemTable immutableMemTable immutableWALSegment threshold sstPath blockSize sstableWriter
      set_wal set_mems]; try done.
  - exists x'. split_and!; try done; [|lia]. by eapply same_log_trans.
  - split; [done|apply Hrec].
  - eapply listing_outside; [apply Hframe|by eapply log_frame_tables|exact Htab].
  - exists m'. rewrite list_lookup_insert_eq by done. rewrite replay_map_snoc. split_and!; try done; [congruence|].
    pose proof (total_cost_bounds _ Hrec') as Hb. rewrite zlen_app in Hb. rewrite fmap_app in Hb |- *. cbn [fmap list_fmap] in Hb |- *.
    rewrite total_cost_snoc in Hb |- *. rewrite Hsz', Hsz, u64_id; [done|]. change (zlen [r]) with 1 in Hb.
    pose proof (zlen_nonneg rs). pose proof (zlen_nonneg (default [] frozen)). unfold is_u64. lia.
  - destruct frozen as [old|], (immutableMemTable w) as [p|]; try done. destruct Himm as (Hne & mi & Hmi & Hmap0).
    split; [done|]. exists mi. by rewrite list_lookup_insert_ne.
Qed.

(** ** Steps that keep the contents

    [view_eq]: every key has the same binding before and after. *)
Definition view_eq (rs old : list WALRecord) (tabs : list stream) (rs' old' : list WALRecord) (tabs' : list stream) : Prop :=
  ∀ k, lookup_view rs' old' tabs' k = lookup_view rs old tabs k.

Lemma room_weaken w rs old tabs e s g t e' s' g' t' :
  room w rs old tabs e s g t → e' ≤ e → s' ≤ s → g' ≤ g → t' ≤ t → room w rs old tabs e' s' g' t'.
Proof. intros [R1 R2 R3 R4]. split; lia. Qed.

Lemma lookup_view_freeze rs tabs : view_eq rs [] tabs [] rs tabs.
Proof. intros k. unfold lookup_view. cbn [default]. by destruct (replay_map rs !! k). Qed.

Lemma flush_step w wd rs old tabs imm e s g t :
  engine w wd rs (Some old) tabs → immutableMemTable w = Some imm → room w rs old tabs e s g t → 0 ≤ e → 1 ≤ g → 1 ≤ t →
  ∃ w' wd' tabs', flushImmutable imm (w, wd) = (Ok (), (w', wd')) ∧ engine w' wd' rs None tabs' ∧
    room w' rs [] tabs' e s (g - 1) (t - 1) ∧ view_eq rs old tabs rs [] tabs' ∧
    mems w' = mems w ∧ mutableMemTable w' = mutableMemTable w ∧ immutableMemTable w' = None ∧ threshold w' = threshold w.
Proof.
  intros He Himm Hr H1 H2 H3.
  destruct (flushImmutable_ok _ _ _ _ _ _ _ _ _ _ He Himm Hr H1 H2 H3) as (w' & wd' & es & Hrun & He' & Hes & Hlen & E1 & E2 & E3 & E4 & E5 & E6 & E7).
  eexists w', wd', _. split; [exact Hrun|]. split; [exact He'|]. split.
  - destruct Hr as [R1 R2 R3 R4]. split; [|by rewrite E1|rewrite E2; lia|].
    + unfold zlen in *. cbn. unfold total in *. cbn. lia.
    + unfold zlen in *. rewrite E3. lia.
  - split; [|done]. intros k. unfold lookup_view. destruct (replay_map rs !! k); [done|]. unfold table_entries. rewrite fmap_cons. cbn [concat snd].
    rewrite first_entry_app. pose proof (Hes k) as Hk. cbn. destruct (replay_map old !! k) as [b|].
    + destruct (first_entry k es) as [e0|]; [exact Hk|done].
    + by destruct (first_entry k es).
Qed.

Lemma freeze_step w wd rs tabs e s g t :
  engine w wd rs None tabs → room w rs [] tabs e s g t → 1 ≤ s →
  ∃ w' wd', freezeMutableLocked (w, wd) = (Ok (), (w', wd')) ∧ engine w' wd' [] (Some rs) tabs ∧
    room w' [] rs tabs e (s - 1) g t ∧ immutableMemTable w' = Some (mutableMemTable w) ∧ sstables w' = sstables w ∧ threshold w' = threshold w ∧
    mems w' !! mutableMemTable w' = Some (Memtable.CreateMemTableWithThreshold (threshold w)).
Proof.
  intros He Hr Hs. destruct (freeze_ok _ _ _ _ _ _ _ _ He Hr Hs) as (w' & wd' & Hrun & He' & E1 & E2 & E3 & E4 & E5).
  exists w', wd'. split; [exact Hrun|]. split; [exact He'|]. split; [|done].
  destruct Hr as [R1 R2 R3 R4]. split; rewrite ?E1, ?E2; [|lia|lia|lia]. change (zlen (@nil WALRecord)) with 0 in *. lia.
Qed.

(** The memtable is full. *)
Definition full (w : Wisp) : bool :=
  match mems w !! mutableMemTable w with Some m => Memtable.IsFull m | None => false end.

Lemma prepare_loop_S fuel w wd m :
  mems w !! mutableMemTable w = Some m →
  prepare_loop (S fuel) (w, wd) =
    if Memtable.IsFull m
    then ((match immutableMemTable w with Some imm => flushImmutable imm | None => freezeMutableLocked end);; prepare_loop fuel) (w, wd)
    else (Ok (), (w, wd)).
Proof.
  intros Hm. cbn [prepare_loop]. erewrite bind_Ok by reflexivity. erewrite bind_Ok by (apply get_mem_run; exact Hm).
  by destruct (Memtable.IsFull m).
Qed.

Lemma fresh_not_full thr : 0 < thr → Memtable.IsFull (Memtable.CreateMemTableWithThreshold thr) = false.
Proof.
  intros Ht. unfold Memtable.IsFull, Memtable.CreateMemTableWithThreshold. destruct (Z.eqb_spec thr 0); [lia|].
  cbn. destruct (Z.leb_spec thr 0); [lia|done].
Qed.

(** [prepareMutableMemTableLocked] ends, with a memtable that is not full. *)
Lemma prepare_ok w wd rs frozen tabs e s g t :
  engine w wd rs frozen tabs → room w rs (default [] frozen) tabs e s g t → 0 ≤ e → 1 ≤ s → 1 ≤ g → 1 ≤ t →
  ∃ w' wd' rs' frozen' tabs', prepareMutableMemTableLocked (w, wd) = (Ok (), (w', wd')) ∧ engine w' wd' rs' frozen' tabs' ∧
    room w' rs' (default [] frozen') tabs' e (s - 1) (g - 1) (t - 1) ∧ view_eq rs (default [] frozen) tabs rs' (default [] frozen') tabs' ∧
    full w' = false.
Proof.
  intros He Hr H1 H2 H3 H4. pose proof (en_mutable _ _ _ _ _ He) as (m & Hm & _). unfold prepareMutableMemTableLocked.
  destruct (full w) eqn:Efull; unfold full in Efull; rewrite Hm in Efull.
  2: { exists w, wd, rs, frozen, tabs. rewrite (prepare_loop_S _ _ _ _ Hm), Efull. split_and!; try done; [eapply room_weaken; [exact Hr|lia..]|].
       unfold full. by rewrite Hm. }
  assert (∀ fuel w wd rs tabs e g t, engine w wd rs None tabs → room w rs [] tabs e s g t → full w = true → ∃ w' wd',
    prepare_loop (S (S fuel)) (w, wd) = (Ok (), (w', wd')) ∧ engine w' wd' [] (Some rs) tabs ∧ room w' [] rs tabs e (s - 1) g t ∧ full w' = false) as Hfreeze.
  { clear -H2 HN Hmax Hsep. intros fuel w wd rs tabs e g t He Hr Hf. pose proof (en_mutable _ _ _ _ _ He) as (m & Hm & _).
    rewrite (prepare_loop_S _ _ _ _ Hm). unfold full in Hf. rewrite Hm in Hf. rewrite Hf.
    pose proof (en_immutable _ _ _ _ _ He) as Himm. destruct (immutableMemTable w) as [p|]; [done|].
    destruct (freeze_step _ _ _ _ _ _ _ _ He Hr H2) as (w' & wd' & Hrun & He' & Hr' & _ & _ & _ & Hfresh).
    erewrite bind_Ok by exact Hrun. pose proof (en_config _ _ _ _ _ He) as (_ & Hthr & _).
    rewrite (prepare_loop_S _ _ _ _ Hfresh), fresh_not_full by done.
    exists w', wd'. split_and!; try done. unfold full. rewrite Hfresh. by apply fresh_not_full. }
  pose proof (en_immutable _ _ _ _ _ He) as Himm. destruct frozen as [old|], (immutableMemTable w) as [p|] eqn:Ep; try done.
  - destruct (flush_step _ _ _ _ _ _ _ _ _ _ He Ep Hr H1 H3 H4) as (w1 & wd1 & tabs1 & Hrun & He1 & Hr1 & Hv & Em & Emu & Eim & _).
    rewrite (prepare_loop_S _ _ _ _ Hm), Efull, Ep. erewrite bind_Ok by exact Hrun.
    destruct (Hfreeze 0%nat _ _ _ _ _ _ _ He1 Hr1) as (w2 & wd2 & Hrun2 & He2 & Hr2 & Hf2).
    { unfold full. by rewrite Em, Emu, Hm. }
    exists w2, wd2, [], (Some rs), tabs1. split_and!; try done. all: intros k; cbn [default]; by rewrite lookup_view_freeze, (Hv k).
  - destruct (Hfreeze 1%nat w wd rs tabs e g t He Hr) as (w2 & wd2 & Hrun2 & He2 & Hr2 & Hf2); [unfold full; by rewrite Hm|].
    exists w2, wd2, [], (Some rs), tabs. split_and!; try done; [eapply room_weaken; [exact Hr2|lia..]|..].
    all: intros k; cbn [default]; by rewrite lookup_view_freeze.
Qed.

(** After a write the frozen memtable, if there is one, is flushed. *)
Lemma flush_pending_ok w wd rs frozen tabs e s g t :
  engine w wd rs frozen tabs → room w rs (default [] frozen) tabs e s g t → 0 ≤ e → 1 ≤ g → 1 ≤ t →
  ∃ w' wd' tabs', flush_pending (w, wd) = (Ok (), (w', wd')) ∧ engine w' wd' rs None tabs' ∧
    room w' rs [] tabs' e s (g - 1) (t - 1) ∧ view_eq rs (default [] frozen) tabs rs [] tabs'.
Proof.
  intros He Hr H1 H2 H3. unfold flush_pending. erewrite bind_Ok by reflexivity.
  pose proof (en_immutable _ _ _ _ _ He) as Himm. destruct frozen as [old|], (immutableMemTable w) as [p|] eqn:Ep; try done.
  - destruct (flush_step _ _ _ _ _ _ _ _ _ _ He Ep Hr H1 H2 H3) as (w1 & wd1 & tabs1 & Hrun & He1 & Hr1 & Hv & _).
    by exists w1, wd1, tabs1.
  - exists w, wd, tabs. split_and!; try done. eapply room_weaken; [exact Hr|lia..].
Qed.

(** ** Writes *)
Lemma lookup_view_write rs old tabs r k :
  lookup_view (rs ++ [r]) old tabs k =
    if decide (Memtable.write_key (record_write r) = k) then Some (Memtable.write_binding (record_write r)) else lookup_view rs old tabs k.
Proof.
  unfold lookup_view. rewrite replay_map_snoc. unfold write_map. destruct (decide _) as [<-|Hne].
  - by rewrite lookup_insert_eq.
  - by rewrite lookup_insert_ne.
Qed.

(** Both writing methods, from the record on. *)
Definition write_op (pooled : bytes) (coins : list bool) (r : WALRecord) (err : error) : E unit :=
  prepareMutableMemTableLocked;;
  ok ← put_record pooled coins r;
  if negb ok then fail err else flush_pending.

Ltac same_steps := unfold write_op; apply bind_ext; intros _ s1; unfold put_record;
  rewrite bind_assoc; apply bind_ext; intros _ s2; rewrite bind_assoc; apply bind_ext; intros w s3;
  rewrite bind_assoc; apply bind_ext; intros m s4; rewrite bind_assoc; apply bind_ext; intros [m' ok] s5;
  rewrite bind_assoc; apply bind_ext; by intros _ s6.

Lemma Insert_write_op pooled coins sid ts v s :
  Insert pooled coins sid ts v s = write_op pooled coins (mkRecord ts sid false v) ErrPut s.
Proof. unfold Insert. same_steps. Qed.

Lemma Delete_write_op pooled coins sid ts s :
  Delete pooled coins sid ts s = write_op pooled coins (mkRecord ts sid true []) ErrDelete s.
Proof. unfold Delete. same_steps. Qed.

Lemma write_op_ok w wd rs frozen tabs pooled coins r err e s g t :
  engine w wd rs frozen tabs → room w rs (default [] frozen) tabs e s g t → record_ok r → 1 ≤ e → 2 ≤ s → 2 ≤ g → 2 ≤ t →
  ∃ w' wd' rs' tabs', write_op pooled coins r err (w, wd) = (Ok (), (w', wd')) ∧ engine w' wd' rs' None tabs' ∧
    room w' rs' [] tabs' (e - 1) (s - 2) (g - 2) (t - 2) ∧
    ∀ k, lookup_view rs' [] tabs' k = if decide (Memtable.write_key (record_write r) = k) then Some (Memtable.write_binding (record_write r))
                                      else lookup_view rs (default [] frozen) tabs k.
Proof.
  intros He Hr Hrec H1 H2 H3 H4. unfold write_op.
  destruct (prepare_ok _ _ _ _ _ _ _ _ _ He Hr ltac:(lia) ltac:(lia) ltac:(lia) ltac:(lia)) as (w1 & wd1 & rs1 & fr1 & tabs1 & Hrun1 & He1 & Hr1 & Hv1 & _).
  erewrite bind_Ok by exact Hrun1.
  destruct (put_record_ok _ _ _ _ _ pooled coins r _ _ _ _ He1 Hrec Hr1 ltac:(lia) ltac:(lia)) as (w2 & wd2 & Hrun2 & He2 & Hseg & Hl & _).
  erewrite bind_Ok by exact Hrun2. cbn [negb].
  assert (room w2 (rs1 ++ [r]) (default [] fr1) tabs1 (e - 1) (s - 2) (g - 1) (t - 1)) as Hr2.
  { destruct Hr1 as [R1 R2 R3 R4]. split; rewrite ?Hl; [rewrite zlen_app; change (zlen [r]) with 1; lia|lia|lia|lia]. }
  destruct (flush_pending_ok _ _ _ _ _ _ _ _ _ He2 Hr2 ltac:(lia) ltac:(lia) ltac:(lia)) as (w3 & wd3 & tabs3 & Hrun3 & He3 & Hr3 & Hv3).
  exists w3, wd3, (rs1 ++ [r]), tabs3. split; [exact Hrun3|]. split; [exact He3|]. split; [eapply room_weaken; [exact Hr3|lia..]|].
  intros k. rewrite (Hv3 k), lookup_view_write. destruct (decide _); [done|]. apply Hv1.
Qed.

(** ** Reads *)
Definition answer (o : option (bytes * bool)) : bytes * bool * bool :=
  match o with None => ([], false, false) | Some (v, d) => if d then ([], false, true) else (v, true, false) end.

Lemma get_result_answer o : get_result o = answer (binding_of <$> o).
Proof. destruct o as [e|]; [|done]. cbn. by destruct (eDeleted e). Qed.

Lemma mem_answer_spec m kv sid ts :
  memtable_map m kv → mem_answer m sid ts = Ok (answer ∘ Some <$> kv !! mkKey sid ts).
Proof.
  intros Hm. unfold mem_answer. rewrite (Memtable.Lookup_map _ _ sid ts Hm). by destruct (kv !! mkKey sid ts) as [[v []]|].
Qed.

Lemma engine_sstables l w wd rs frozen tabs :
  engine w wd rs frozen tabs → listing base l wd tabs → engine (set_sstables l w) wd rs frozen tabs.
Proof. intros [H1 H2 H3 H4 H5 H6 H7 H8 H9] Hl. by split. Qed.

Lemma Get_ok w wd rs frozen tabs sid ts e s g t :
  engine w wd rs frozen tabs → room w rs (default [] frozen) tabs e s g t → 0 ≤ t →
  ∃ w', Get sid ts (w, wd) = (Ok (answer (lookup_view rs (default [] frozen) tabs (mkKey sid ts))), (w', wd)) ∧
    engine w' wd rs frozen tabs ∧ room w' rs (default [] frozen) tabs e s g t.
Proof.
  intros He [R1 R2 R3 R4] Ht. pose proof He as [Hq _ _ _ Htab (m & Hm & Hmap & _) Himm _ _]. set (k := mkKey sid ts).
  destruct (listing_read base _ _ _ Hq Htab ltac:(lia)) as (l1 & l2 & Hget & Htabs & Hrel & Hl2 & [Et Eg]).
  exists (set_sstables l2 w). split.
  2: { split; [by apply engine_sstables|]. split; cbn [sstables set_sstables]; rewrite ?Et, ?Eg; done. }
  unfold Get. erewrite bind_Ok by reflexivity. erewrite bind_Ok by (apply on_list_run; exact Hget).
  set (w1 := set_sstables l1 w).
  erewrite (bind_Ok _ _ _ (inl (answer (lookup_view rs (default [] frozen) tabs k))) (w1, wd)).
  - erewrite bind_Ok by (apply (on_list_run _ w1); exact Hrel). done.
  - apply try_Ok. erewrite bind_Ok by (apply (get_mem_run _ w1); exact Hm). rewrite (lift_Ok _ _ _ _ (mem_answer_spec _ _ sid ts Hmap)).
    fold k. unfold lookup_view. destruct (replay_map rs !! k) as [b|] eqn:Eb; cbn [fmap option_fmap option_map]; [done|].
    erewrite (bind_Ok _ _ _ (answer ∘ Some <$> replay_map (default [] frozen) !! k) (w1, wd)).
    + destruct (replay_map (default [] frozen) !! k) as [b|] eqn:Ei; cbn [fmap option_fmap option_map]; [done|].
      erewrite bind_Ok by reflexivity. cbn [sstables w1 set_sstables]. rewrite Htabs.
      unfold lift. rewrite (Get_tables_spec _ _ sid ts (ls_tables _ _ _ _ Htab)). by rewrite get_result_answer.
    + destruct frozen as [old|], (immutableMemTable w) as [p|]; try done. destruct Himm as (_ & mi & Hmi & Hmapi).
      erewrite bind_Ok by (apply (get_mem_run _ w1); exact Hmi). unfold lift. by rewrite (mem_answer_spec _ _ sid ts Hmapi).
Qed.

(** ** Flush and Compact *)
Lemma Flush_ok w wd rs frozen tabs e s g t :
  engine w wd rs frozen tabs → room w rs (default [] frozen) tabs e s g t → 0 ≤ e → 1 ≤ s → 1 ≤ g → 1 ≤ t →
  ∃ w' wd' rs' tabs', Flush (w, wd) = (Ok (), (w', wd')) ∧ engine w' wd' rs' None tabs' ∧
    room w' rs' [] tabs' e (s - 1) (g - 1) (t - 1) ∧ view_eq rs (default [] frozen) tabs rs' [] tabs' ∧
    (rs' = [] ∨ frozen ≠ None ∨ full w = true).
Proof.
  intros He Hr H1 H2 H3 H4. unfold Flush. erewrite bind_Ok by reflexivity.
  pose proof (en_immutable _ _ _ _ _ He) as Himm. destruct frozen as [old|], (immutableMemTable w) as [p|] eqn:Ep; try done.
  - erewrite bind_Ok by reflexivity. destruct (flush_step _ _ _ _ _ _ _ _ _ _ He Ep Hr H1 H3 H4) as (w1 & wd1 & tabs1 & Hrun & He1 & Hr1 & Hv & _).
    exists w1, wd1, rs, tabs1. split; [exact Hrun|]. split; [done|]. split; [eapply room_weaken; [exact Hr1|lia..]|]. split; [done|]. right. by left.
  - pose proof (en_mutable _ _ _ _ _ He) as (m & Hm & _ & _ & _ & Hsz).
    destruct ((0 <? Memtable.Size m) && negb (Memtable.IsFull m)) eqn:Ec.
    + destruct (freeze_step _ _ _ _ _ _ _ _ He Hr H2) as (w1 & wd1 & Hrun & He1 & Hr1 & Ei & _).
      erewrite bind_Ok.
      2: { erewrite bind_Ok by (apply get_mem_run; exact Hm). rewrite Ec. erewrite bind_Ok by exact Hrun. by erewrite bind_Ok by reflexivity. }
      rewrite Ei. destruct (flush_step _ _ _ _ _ _ _ _ _ _ He1 Ei Hr1 H1 H3 H4) as (w2 & wd2 & tabs2 & Hrun2 & He2 & Hr2 & Hv & _).
      exists w2, wd2, [], tabs2. split_and!; try done; first [by left|intros k; by rewrite (Hv k), lookup_view_freeze].
    + erewrite bind_Ok.
      2: { erewrite bind_Ok by (apply get_mem_run; exact Hm). by rewrite Ec. }
      exists w, wd, rs, tabs. split; [done|]. split; [done|]. split; [eapply room_weaken; [exact Hr|lia..]|]. split; [done|].
      apply andb_false_iff in Ec as [Ec|Ec].
      * left. apply Z.ltb_ge in Ec. unfold Memtable.Size in Ec. rewrite Hsz in Ec.
        pose proof (total_cost_bounds _ (proj1 (en_records _ _ _ _ _ He))). apply length_zero_iff_nil_zlen. pose proof (zlen_nonneg rs). lia.
      * right. right. unfold full. rewrite Hm. by apply negb_false_iff.
Qed.

(** Closing leaves the directory of an engine that was just flushed, [w1]. *)
Lemma Close_ok w wd rs frozen tabs e s g t :
  engine w wd rs frozen tabs → room w rs (default [] frozen) tabs e s g t → 0 ≤ e → 1 ≤ s → 1 ≤ g → 1 ≤ t →
  ∃ w' w1 wd' rs' tabs', Close (w, wd) = (Ok (), (w', wd')) ∧ wal w' = None ∧ engine w1 wd' rs' None tabs' ∧
    room w1 rs' [] tabs' e (s - 1) (g - 1) (t - 1) ∧ view_eq rs (default [] frozen) tabs rs' [] tabs'.
Proof.
  intros He Hr H1 H2 H3 H4. destruct (Flush_ok _ _ _ _ _ _ _ _ _ He Hr H1 H2 H3 H4) as (w1 & wd1 & rs1 & tabs1 & Hrun & He1 & Hr1 & Hv & _).
  pose proof (en_quiet _ _ _ _ _ He1) as Hq. destruct (en_log _ _ _ _ _ He1) as (x & Hx & Hlog & _).
  destruct (listing_close base _ _ _ Hq (en_tables _ _ _ _ _ He1)) as (l' & Hclose).
  assert (∃ x', Wal.Close (x, wd1) = (Ok (), (x', wd1))) as (x' & Hwc).
  { unfold Wal.Close. erewrite bind_Ok by reflexivity. destruct (Wal.file x) as [p|]; [|by eexists].
    erewrite bind_Ok by (apply try_Ok, on_snd_run; unfold file_Close; rewrite syscall_quiet by done; reflexivity).
    erewrite bind_Ok by reflexivity. by eexists. }
  unfold Close. erewrite bind_Ok by exact Hrun. erewrite bind_Ok by (apply try_Ok, on_list_run; exact Hclose).
  erewrite bind_Ok by reflexivity. cbn [sstableWriter set_sstables]. rewrite (en_writer _ _ _ _ _ He1).
  erewrite bind_Ok by reflexivity. erewrite bind_Ok by reflexivity. cbn [wal set_sstables]. rewrite Hx, bind_assoc.
  erewrite bind_Ok by (apply try_Ok; eapply (on_wal_run _ (set_sstables l' w1)); [exact Hx|exact Hwc]).
  rewrite bind_assoc. erewrite bind_Ok by reflexivity. erewrite bind_Ok by reflexivity.
  eexists _, w1, wd1, rs1, tabs1. split; [reflexivity|]. by split_and!.
Qed.

(** What a major compaction keeps of a binding of the tables. *)
Lemma Compact_ok fuel w wd rs frozen tabs e s g t :
  engine w wd rs frozen tabs → room w rs (default [] frozen) tabs e s g t → 0 ≤ e → 1 ≤ g → 0 ≤ t → (total tabs < fuel)%nat →
  ∃ w' wd' tabs', Compact fuel (w, wd) = (Ok (), (w', wd')) ∧ engine w' wd' rs frozen tabs' ∧
    room w' rs (default [] frozen) tabs' e s (g - 1) t ∧
    (∀ k, live (lookup_view rs (default [] frozen) tabs' k) = live (lookup_view rs (default [] frozen) tabs k)) ∧
    (∀ k b, lookup_view rs (default [] frozen) tabs' k = Some b → lookup_view rs (default [] frozen) tabs k = Some b).
Proof.
  intros He [R1 R2 R3 R4] H1 H2 H3 Hfuel. pose proof He as [Hq (x & Hx & Hlog & Hsame & Hid) Hrec Hseg Htab Hmut Himm (Hbase & Hthr & Hbs) Hwr].
  pose proof (zlen_nonneg rs). pose proof (zlen_nonneg (default [] frozen)).
  destruct (listing_compact base fuel true (sstables w) wd tabs Hq Htab) as (l' & wd' & tabs' & Hrun & Hl' & Hq' & Hd' & Hf' & Hg' & Htot & Hlen & Hview);
    [lia|lia| |lia|done|].
  { intros z Hz. apply Hfilters. lia. }
  exists (set_sstables l' w), wd', tabs'. split.
  { unfold Compact. erewrite bind_Ok by reflexivity. rewrite Hbase. by apply on_list_run. }
  split; [|split; [|split]].
  - split; try done. exists x. split_and!; try done. eapply log_state_outside; [exact Hd'| |exact Hlog].
    intros q Hin. apply Hf'. apply Hsep. by rewrite <-(in_log_same _ _ _ Hsame).
  - split; cbn [sstables set_sstables]; [lia|done|lia|unfold zlen in *; lia].
  - intros k. unfold lookup_view. destruct (replay_map rs !! k); [done|]. destruct (replay_map _ !! k); [done|]. rewrite Hview.
    destruct (first_entry k (table_entries tabs)) as [en|]; [|done]. cbn. destruct en as [a b [] v]; done.
  - intros k b. unfold lookup_view. destruct (replay_map rs !! k); [done|]. destruct (replay_map _ !! k); [done|]. rewrite Hview.
    destruct (first_entry k (table_entries tabs)) as [en|]; [|done]. cbn. by destruct en as [a b' [] v].
Qed.

(** ** Opening

    Recovery replays the records into the fresh memtable. *)
Lemma recover_loop_ok coins i w wd done records m :
  mems w !! mutableMemTable w = Some m → memtable_map m (replay_map done) → Memtable.mutable m = true →
  Memtable.size m = total_cost (record_write <$> done) → Forall record_ok (done ++ records) → zlen (done ++ records) < 2^30 →
  ∃ m', recover_loop coins i records (w, wd) = (Ok (), (set_mems (<[mutableMemTable w := m']> (mems w)) w, wd)) ∧
    memtable_map m' (replay_map (done ++ records)) ∧ Memtable.mutable m' = true ∧
    Memtable.flushThreshold m' = Memtable.flushThreshold m ∧ Memtable.size m' = total_cost (record_write <$> (done ++ records)).
Proof.
  revert i w done m. induction records as [|r records IH]; intros i w done m Hm Hmap Hmt Hsz Hok Hlen.
  { exists m. rewrite app_nil_r. split_and!; try done. rewrite list_insert_id by done. by destruct w. }
  destruct (Memtable.apply_write_spec m _ (coins i) (record_write r) Hmap Hmt) as (m1 & Happly & Hmap1 & Hsz1 & Hmt1 & Hth1).
  pose proof (lookup_lt_Some _ _ _ Hm) as Hlt. cbn [recover_loop]. erewrite bind_Ok by reflexivity. erewrite bind_Ok by (apply get_mem_run; exact Hm).
  assert ((if rDeleted r then Memtable.Delete m (coins i) (rSeriesID r) (rTimestamp r)
    else Memtable.Put m (coins i) (rSeriesID r) (rTimestamp r) (rValue r)) = Ok (m1, true)) as Happly'.
  { rewrite <-Happly. unfold record_write. by destruct (rDeleted r). }
  rewrite (lift_Ok _ _ _ _ Happly'). cbv beta iota. erewrite bind_Ok by reflexivity. cbn [negb].
  rewrite (assoc_L (++) done [r] records : done ++ r :: records = (done ++ [r]) ++ records) in Hok, Hlen |- *.
  set (w1 := set_mems (<[mutableMemTable w := m1]> (mems w)) w).
  destruct (IH (S i) w1 (done ++ [r]) m1) as (m' & Hrun & H1 & H2 & H3 & H4); try done.
  - cbn. by rewrite list_lookup_insert_eq.
  - by rewrite replay_map_snoc.
  - apply Forall_app in Hok as [Hok _]. pose proof (total_cost_bounds _ Hok) as Hb. rewrite zlen_app in Hlen. pose proof (zlen_nonneg records).
    rewrite Hsz1, Hsz, fmap_app in *. cbn [fmap list_fmap] in *. rewrite total_cost_snoc in *. rewrite u64_id; [done|].
    pose proof (zlen_nonneg (done ++ [r])). unfold is_u64. lia.
  - exists m'. split_and!; try done; [|congruence]. rewrite Hrun. cbn. by rewrite list_insert_insert_eq.
Qed.

Lemma foldl_write_map m0 ws k :
  foldl write_map m0 ws !! k = match foldl write_map ∅ ws !! k with Some b => Some b | None => m0 !! k end.
Proof.
  induction ws as [|x ws IH] using rev_ind; cbn; [by rewrite lookup_empty|]. rewrite !foldl_app. cbn. unfold write_map at 1 3.
  destruct (decide (Memtable.write_key x = k)) as [<-|Hne]; [by rewrite !lookup_insert_eq|by rewrite !lookup_insert_ne].
Qed.

Lemma lookup_view_replay rs old tabs k : lookup_view (old ++ rs) [] tabs k = lookup_view rs old tabs k.
Proof.
  unfold lookup_view, replay_map at 1. rewrite fmap_app, foldl_app. fold (replay_map old). rewrite foldl_write_map.
  fold (replay_map rs). destruct (replay_map rs !! k); [done|]. destruct (replay_map old !! k); [done|]. done.
Qed.

(** The configuration opens this log and these tables. *)
Definition opens (config : WispConfig) : Prop :=
  default defaultWALPath (WALPath config) = wpath ∧ or_default (WALMaxSegmentSize config) Wal.DefaultMaxSegmentSize = wmax ∧
  default defaultSSTablePath (SSTablePath config) = base ∧ 0 ≤ MemTableFlushThreshold config ∧ SSTableBlockSize config < 2^31 ∧
  default empty_list (cSSTableList config) = empty_list.

(** From an opened log and loaded tables on. *)
Lemma create_ok coins config wd x wd1 rs l tabs e s g t :
  opens config → Wal.CreateWALWithSegmentSize wpath wmax wd = (Ok x, wd1) → quiet wd1 → log_state x wd1 None rs →
  Wal.same_log (Wal.new_wal wpath wmax) x → 1 ≤ Wal.segmentID x → Forall record_ok rs →
  SSTableList.Load base (empty_list, wd1) = (Ok (), (l, wd1)) → listing base l wd1 tabs →
  zlen rs + Z.of_nat (total tabs) + e ≤ N → 0 ≤ e → Wal.segmentID x + s < 2^64 → SSTableList.nextGen l + g < 2^64 →
  2 * (zlen (SSTableList.tables l) + t) < 2^31 - 6 →
  ∃ w' wd', CreateWispWithConfig coins config wd = (Ok w', wd') ∧ engine w' wd' rs None tabs ∧ room w' rs [] tabs e s g t.
Proof.
  intros (C1 & C2 & C3 & Hth & Hbs & C6) Hwal Hq Hlog Hsame Hid Hrec Hload Hl R1 He R2 R3 R4.
  unfold CreateWispWithConfig. cbv zeta. rewrite C1, C2, C3, C6. erewrite bind_Ok by exact Hwal.
  set (thr := or_default (MemTableFlushThreshold config) defaultMemTableThreshold).
  assert (0 < thr) as Hthr by (unfold thr, or_default, defaultMemTableThreshold; destruct (Z.eqb_spec (MemTableFlushThreshold config) 0); lia).
  set (bs := or_default (SSTableBlockSize config) Writer.DefaultBlockSize).
  assert (bs < 2^31) as Hbs' by (unfold bs, or_default; destruct (_ =? 0); [done|lia]).
  set (fresh := Memtable.CreateMemTableWithThreshold thr). set (w0 := mkWisp base bs thr (Some x) [fresh] 0 None 0 None empty_list).
  destruct (Memtable.CreateMemTable_map thr) as (Hf1 & Hf2 & Hf3). fold fresh in Hf1, Hf2, Hf3.
  destruct (log_Replay _ _ _ Hq Hlog) as (wd2 & Hrep & Hlog2 & Hq2 & Hframe).
  set (w1 := set_sstables l w0). pose proof (zlen_nonneg rs) as Hrs0.
  destruct (recover_loop_ok coins 0 (set_wal (Some x) w1) wd2 [] rs fresh) as (m' & Hrun & H1 & H2 & H3 & H4); try done; [cbn; lia|].
  cbn [app] in *. eexists _, wd2. split.
  { erewrite bind_Ok.
    2: { unfold run_with. fold w0. erewrite bind_Ok.
         2: { apply try_Ok. unfold openSSTables. erewrite bind_Ok by reflexivity.
              erewrite bind_Ok by (apply try_Ok, on_list_run; exact Hload). reflexivity. }
         cbv beta iota. fold w1. erewrite bind_Ok.
         2: { apply try_Ok. unfold Recover. erewrite bind_Ok by (eapply (on_wal_run _ w1); [reflexivity|exact Hrep]). exact Hrun. }
         reflexivity. }
    reflexivity. }
  split.
  - split; cbn; try done.
    + by exists x.
    + eapply listing_outside; [apply Hframe|by eapply log_frame_tables|exact Hl].
    + exists m'. split_and!; try done. rewrite H3. unfold fresh, Memtable.CreateMemTableWithThreshold.
      destruct (Z.eqb_spec thr 0); [lia|done].
  - split; cbn; [change (zlen (@nil WALRecord)) with 0; lia|done|done|done].
Qed.

(** After a crash: every write is back. *)
Lemma restart_ok coins config w wd wd' rs frozen tabs e s g t :
  opens config → engine w wd rs frozen tabs → room w rs (default [] frozen) tabs e s g t → 0 ≤ e → crash wd wd' →
  ∃ w' wd'' rs', CreateWispWithConfig coins config wd' = (Ok w', wd'') ∧ engine w' wd'' rs' None tabs ∧
    room w' rs' [] tabs e s g t ∧ view_eq rs (default [] frozen) tabs rs' [] tabs.
Proof.
  intros Hopen [Hq (x & Hx & Hlog & Hsame & Hid) Hrec Hseg Htab Hmut Himm _ _] [R1 R2 R3 R4] He Hc.
  apply log_state_all in Hlog. set (all := default [] frozen ++ rs).
  assert (frozen_records ((λ old, (old, immutableWALSegment w)) <$> frozen) = default [] frozen) as E by by destruct frozen.
  rewrite E in Hlog. fold all in Hlog.
  destruct (log_reopen wpath wmax x wd wd' all Hlog Hsame Hmax Hc) as (x1 & wd1 & Hwal & Hf1 & Hd1 & Hq1 & Hsame1 & Hid1 & Hlog1).
  assert (listing base (sstables w) wd1 tabs) as Htab1.
  { apply (listing_outside base _ wd'); [done|by intros q _; rewrite Hf1|]. by eapply listing_crash. }
  destruct (listing_load base _ _ _ 0 Hq1 Htab1) as (l' & Hload & Hl' & Hg' & Hlen').
  unfold segment in R2. rewrite Hx in R2.
  destruct (create_ok coins config wd' x1 wd1 all l' tabs e s g t Hopen Hwal Hq1 Hlog1) as (w' & wd'' & Hrun & He' & Hr'); try done.
  - by eapply same_log_trans.
  - lia.
  - apply Forall_app. by destruct Hrec.
  - unfold all. rewrite zlen_app. lia.
  - lia.
  - lia.
  - unfold zlen in *. rewrite Hlen'. lia.
  - exists w', wd'', all. split_and!; try done. intros k. apply lookup_view_replay.
Qed.

(** In a directory without a log and without tables. *)
Lemma create_fresh_ok coins config wd e s g t :
  opens config → quiet wd → Wal.wal_files (Wal.new_wal wpath wmax) wd [] → files wd !! wpath = None → pdir base ∈ dirs wd →
  (∀ q, in_tables base q → files wd !! q = None) → 0 ≤ e ≤ N → s < 2^64 - 1 → g < 2^64 → 2 * t < 2^31 - 6 →
  ∃ w wd', CreateWispWithConfig coins config wd = (Ok w, wd') ∧ engine w wd' [] None [] ∧ room w [] [] [] e s g t.
Proof.
  intros Hopen Hq Hwf Hn Hdir Htab He Hs Hg Ht.
  destruct (log_create wpath wmax wd Hq Hwf Hn Hmax) as (x & wd1 & Hwal & Hlog & Hq1 & Hsame & Hid & Hframe).
  assert (∀ q, in_tables base q → files wd1 !! q = None) as Htab1.
  { intros q Hq0. rewrite <-(Htab q Hq0). apply Hframe. intros Hin. by apply (Hsep q). }
  assert (listing base empty_list wd1 []) as Hl.
  { split; try done.
    - apply SSTableList.start_inv.
    - constructor.
    - intros q i Hi Hq0. by rewrite Htab1 in Hi.
    - destruct Hframe as [-> _]. done. }
  destruct (listing_load base _ _ _ 0 Hq1 Hl) as (l' & Hload & Hl' & Hg' & Hlen').
  change (SSTableList.nextGen empty_list) with 0 in Hg'.
  apply (create_ok coins config wd x wd1 [] l' [] e s g t Hopen Hwal Hq1 Hlog Hsame); try done; [lia|..].
  - change (zlen (@nil WALRecord)) with 0. cbn. lia.
  - lia.
  - lia.
  - lia.
  - unfold zlen. rewrite Hlen'. cbn. lia.
Qed.
End engine.
