(* ===== verification/Scan.v ===== *)
(** * Range scans (wisp.go)

    [ScanIterator]: the merge of the frozen memtable and the open tables through a heap
    ordered by key and source, restricted to one series and a range of timestamps. *)
From Stdlib Require Import ZArith Lia Strings.Byte.
From stdpp Require Import base list gmap sorting.
From S2P Require Import Prelude Key Monad Fs WalCodec Block Bloom Reader TableIter Heap Merge Tables WalFrame Engine EngineMem EngineInv.
From S2P Require Skiplist Memtable SSTableList Compactor.
Import Memtable (MemTable, MemTableIterator, memtable_map).

(** ** The heap of sources *)

(** [iterator interface{}]: an iterator of the memtable [p] points to, or of a table. *)
Inductive source :=
  | MemIter (p : nat) (it : MemTableIterator)
  | TblIter (it : Iterator).

Record scanHeapItem := mkScanItem {
  sKey : Key;
  sValue : bytes;
  sDeleted : bool;
  sGen : Z;
  sourceIdx : Z;
  sIterator : source
}.

(** [scanMinHeap.Less]: key order, then the lower source. *)
Definition Less (a b : scanHeapItem) : bool :=
  if negb (SeriesID (sKey a) =? SeriesID (sKey b)) then SeriesID (sKey a) <? SeriesID (sKey b)
  else if negb (Timestamp (sKey a) =? Timestamp (sKey b)) then Timestamp (sKey a) <? Timestamp (sKey b)
  else sourceIdx a <? sourceIdx b.

Record ScanIterator := mkScan {
  heap : list scanHeapItem;
  seriesID : Z;
  startTs : Z;
  endTs : Z;
  tables : list nat;
  lastKey : option Key;
  valid : bool;
  currentKey : Key;
  currentVal : bytes
}.

Definition set_heap (h : list scanHeapItem) (it : ScanIterator) : ScanIterator :=
  mkScan h (seriesID it) (startTs it) (endTs it) (tables it) (lastKey it) (valid it) (currentKey it) (currentVal it).
Definition set_last (k : Key) (it : ScanIterator) : ScanIterator :=
  mkScan (heap it) (seriesID it) (startTs it) (endTs it) (tables it) (Some k) (valid it) (currentKey it) (currentVal it).
Definition set_invalid (it : ScanIterator) : ScanIterator :=
  mkScan (heap it) (seriesID it) (startTs it) (endTs it) (tables it) (lastKey it) false (currentKey it) (currentVal it).
Definition set_current (k : Key) (v : bytes) (it : ScanIterator) : ScanIterator :=
  mkScan (heap it) (seriesID it) (startTs it) (endTs it) (tables it) (Some k) true k v.

(** The memtables an iterator may read are those of the engine. *)
Section iterate.
Context `{Snappy} (ms : list MemTable).

(** [heap.Pop], then the popped source advanced and pushed back unless it is exhausted. *)
Definition scan_pop (h : list scanHeapItem) : outcome (scanHeapItem * list scanHeapItem) :=
  '(item, h) ← Pop Less h;
  if sourceIdx item =? 0 then
    match sIterator item with
    | MemIter p memIt =>
        m ← match ms !! p with Some m => Ok m | None => Panic NilDereference end;
        memIt ← Memtable.Next m memIt;
        if Memtable.Valid memIt then
          '(k, v, d) ← Memtable.Entry m memIt;
          h ← Push Less h (mkScanItem k v d 0 0 (MemIter p memIt));
          Ok (item, h)
        else Ok (item, h)
    | TblIter _ => Panic TypeAssertion
    end
  else
    match sIterator item with
    | TblIter sstIt =>
        '(more, sstIt) ← Next sstIt;
        if (more : bool) then
          k ← Key_ sstIt;
          e ← Entry_ sstIt;
          h ← Push Less h (mkScanItem k (eValue e) (eDeleted e) (sGen item) (sourceIdx item) (TblIter sstIt));
          Ok (item, h)
        else Ok (item, h)
    | MemIter _ _ => Panic TypeAssertion
    end.

Definition same_last (lastKey : option Key) (key : Key) : bool :=
  match lastKey with
  | Some k => (SeriesID k =? SeriesID key) && (Timestamp k =? Timestamp key)
  | None => false
  end.

(** [for it.heap.Len() > 0]; [fuel] bounds the rounds. *)
Fixpoint next_loop (fuel : nat) (it : ScanIterator) : outcome (bool * ScanIterator) :=
  match fuel with
  | O => OutOfFuel
  | S fuel' =>
      match heap it with
      | [] => Ok (false, set_invalid it)
      | _ =>
          '(item, h) ← scan_pop (heap it);
          let it := set_heap h it in
          let key := sKey item in
          if negb (SeriesID key =? seriesID it) then next_loop fuel' it
          else if (Timestamp key <? startTs it) || (endTs it <? Timestamp key) then next_loop fuel' it
          else if same_last (lastKey it) key then next_loop fuel' it
          else if sDeleted item then next_loop fuel' (set_last key it)
          else Ok (true, set_current key (sValue item) it)
      end
  end.

(** [ScanIterator.Next] *)
Definition ScanNext (fuel : nat) (it : ScanIterator) : outcome (bool * ScanIterator) :=
  match heap it with
  | [] => Ok (false, set_invalid it)
  | _ => next_loop fuel it
  end.

Definition ScanValid (it : ScanIterator) : bool := valid it.

Definition ScanEntry (it : ScanIterator) : Key * bytes * bool :=
  if negb (valid it) then (zeroKey, [], false) else (currentKey it, currentVal it, false).

(** The frozen memtable's iterator, pushed if it has an entry. *)
Definition push_mem (imm : option nat) (h : list scanHeapItem) : outcome (list scanHeapItem) :=
  match imm with
  | None => Ok h
  | Some p =>
      m ← match ms !! p with Some m => Ok m | None => Panic NilDereference end;
      it ← Memtable.iterator m;
      if Memtable.Valid it then
        '(key, value, deleted) ← Memtable.Entry m it;
        Push Less h (mkScanItem key value deleted 0 0 (MemIter p it))
      else Ok h
  end.

(** [for idx, tbl := range tables]; a closed table is skipped. *)
Fixpoint push_tables (idx : Z) (ts : list (Z * option Reader)) (h : list scanHeapItem) : outcome (list scanHeapItem) :=
  match ts with
  | [] => Ok h
  | (g, r) :: ts' =>
      h ← match r with
          | None => Ok h
          | Some r =>
              it ← Reader_Iterator r;
              if Valid it then
                key ← Key_ it;
                e ← Entry_ it;
                Push Less h (mkScanItem key (eValue e) (eDeleted e) g (1 + idx) (TblIter it))
              else Ok h
          end;
      push_tables (idx + 1) ts' h
  end.
End iterate.

(** [Wisp.Scan] *)
Definition Scan `{Snappy, Hash128} (sid start stop : Z) : E ScanIterator :=
  '(imm, ts) ← snapshotForScan;
  w ← get_fst;
  h ← lift (push_mem (mems w) imm []);
  h ← lift (push_tables 0 (Compactor.table_of (sstables w) <$> ts) h);
  mret (mkScan h sid start stop ts None false zeroKey []).

(** [ScanIterator.Close] *)
Definition ScanClose (it : ScanIterator) : E unit := on_list (SSTableList.ReleaseTables (tables it)).

(** A client's loop: [for it.Next() { it.Entry() }]. *)
Fixpoint scan_loop `{Snappy} (ms : list MemTable) (n fuel : nat) (it : ScanIterator) : outcome (list (Key * bytes)) :=
  match n with
  | O => OutOfFuel
  | S n' =>
      '(more, it) ← ScanNext ms fuel it;
      if (more : bool) then
        let '(k, v, _) := ScanEntry it in
        rest ← scan_loop ms n' fuel it;
        Ok ((k, v) :: rest)
      else Ok []
  end.

(** [Scan], the loop, and [Close]. *)
Definition scan_all `{Snappy, Hash128} (fuel : nat) (sid start stop : Z) : E (list (Key * bytes)) :=
  it ← Scan sid start stop;
  w ← get_fst;
  out ← lift (scan_loop (mems w) fuel fuel it);
  ScanClose it;;
  mret out.

(** ** The scan as a merge

    An item of the scan is an item of the compactor's merge whose generation is the source
    counted downwards: the two orders are then the same. *)
Definition to_item (i : scanHeapItem) : heapItem source :=
  mkItem (mkEntry (SeriesID (sKey i)) (Timestamp (sKey i)) (sDeleted i) (sValue i)) (- sourceIdx i) 0 (sIterator i).

Lemma Less_to_item a b : Merge.Less (to_item a) (to_item b) = Less a b.
Proof.
  unfold Merge.Less, Less. cbn. destruct (SeriesID (sKey a) =? _); [|done]. destruct (Timestamp (sKey a) =? _); [|done].
  cbn. apply eq_true_iff_eq. rewrite !Z.ltb_lt. lia.
Qed.

#[local] Arguments Push : simpl never.
#[local] Arguments Pop : simpl never.

(** The assertion on the source's type succeeds. *)
Definition source_ok (i : scanHeapItem) : Prop :=
  match sIterator i with MemIter _ _ => sourceIdx i = 0 | TblIter _ => sourceIdx i ≠ 0 end.

Section sources.
Context `{Snappy} (ms : list MemTable).

Definition source_Valid (c : source) : bool :=
  match c with MemIter _ it => Memtable.Valid it | TblIter it => Valid it end.

Definition source_mem (p : nat) : outcome MemTable :=
  match ms !! p with Some m => Ok m | None => Panic NilDereference end.

Definition source_Entry (c : source) : outcome Entry :=
  match c with
  | MemIter p it => m ← source_mem p; '(k, v, d) ← Memtable.Entry m it; Ok (entry_of (k, (v, d)))
  | TblIter it => Entry_ it
  end.

Definition source_Next (c : source) : outcome (bool * source) :=
  match c with
  | MemIter p it => m ← source_mem p; it ← Memtable.Next m it; Ok (Memtable.Valid it, MemIter p it)
  | TblIter it => '(more, it) ← Next it; Ok (more, TblIter it)
  end.

Definition source_yields (c : source) (es : list Entry) : Prop :=
  match c with
  | MemIter p it => ∃ m kvs, ms !! p = Some m ∧ Skiplist.cursor (Memtable.skiplist m) it kvs ∧ es = entry_of <$> kvs
  | TblIter it => table_yields it es
  end.

Lemma mem_cursor_valid m it kvs : Skiplist.cursor (Memtable.skiplist m) it kvs → Memtable.Valid it = bool_decide (kvs ≠ []).
Proof.
  destruct kvs as [|[k [v d]] kvs]; intros Hc; [by rewrite (Skiplist.cursor_nil _ _ Hc)|].
  destruct (Skiplist.cursor_cons _ _ _ _ _ _ Hc) as (Hv & _). unfold Memtable.Valid. by rewrite Hv.
Qed.

#[global] Instance source_cursor : Cursor source.
Proof.
  refine {| cursor_Valid := source_Valid; cursor_Entry := source_Entry; cursor_Next := source_Next; yields := source_yields |}.
  - intros [p it|it] Hy; [|exact Hy]. destruct Hy as (m & kvs & _ & Hc & E). symmetry in E. apply fmap_nil_inv in E as ->.
    cbn. by rewrite (mem_cursor_valid _ _ _ Hc).
  - intros [p it|it] e es Hy; cbn in *.
    + destruct Hy as (m & kvs & Hm & Hc & E). destruct kvs as [|[k [v d]] kvs]; [done|]. rewrite fmap_cons in E. injection E as -> ->.
      destruct (Skiplist.cursor_cons _ _ _ _ _ _ Hc) as (Hv & He & it' & Hn & Hc').
      unfold source_mem. rewrite Hm. cbn [mbind outcome_bind]. unfold Memtable.Entry, Memtable.Next. rewrite He, Hn. cbn [mbind outcome_bind].
      split_and!; [exact Hv|done|]. exists (MemIter p it'). split; [|by exists m, kvs].
      rewrite (mem_cursor_valid _ _ _ Hc'). by destruct kvs.
    + destruct (table_yields_cons it e es Hy) as (Hv & He & _ & it' & Hn & Hy'). split_and!; [done|done|].
      rewrite Hn. by exists (TblIter it').
Defined.

Lemma Key_Entry it : Key_ it = (e ← Entry_ it; Ok (ekey e)).
Proof. unfold Key_, Entry_. by destruct (TableIter.valid it). Qed.

(** A round of the scan is a round of the merge. *)
Lemma scan_pop_image h :
  Forall source_ok h → merge_pop (to_item <$> h) = outcome_map (λ '(item, h'), (entry (to_item item), to_item <$> h')) (scan_pop ms h).
Proof.
  intros Hok. unfold merge_pop, scan_pop. rewrite (Pop_image Less Merge.Less to_item Less_to_item).
  destruct (Pop Less h) as [[item h']|err|pn|] eqn:Epop; [|reflexivity..]. cbn [outcome_map mbind outcome_bind prod_map].
  destruct (Pop_elements _ _ _ _ _ Hok Epop) as [Hi Hok']. destruct item as [key val del g idx [p it|it]]; cbn in Hi |- *.
  - subst idx. cbn. unfold source_mem. destruct (ms !! p) as [m|] eqn:Em; [|done]. cbn.
    destruct (Memtable.Next m it) as [it'| | |]; [|done..]. cbn. destruct (Memtable.Valid it'); [|done]. unfold source_mem. rewrite Em. cbn.
    destruct (Memtable.Entry m it') as [[[k v] d]| | |]; [|done..]. cbn.
    match goal with |- context [Push Merge.Less _ ?x] => change x with (to_item (mkScanItem k v d 0 0 (MemIter p it'))) end.
    rewrite (Push_image Less Merge.Less to_item Less_to_item). by destruct (Push Less h' _).
  - destruct (Z.eqb_spec idx 0); [done|]. destruct (Next it) as [[[] it']| | |]; [|done..]. cbn.
    rewrite Key_Entry. destruct (Entry_ it') as [e| | |]; [|done..]. cbn.
    replace (mkItem e (- idx) 0 (TblIter it')) with (to_item (mkScanItem (ekey e) (eValue e) (eDeleted e) g idx (TblIter it')))
      by (by destruct e).
    rewrite (Push_image Less Merge.Less to_item Less_to_item). by destruct (Push Less h' _).
Qed.

Lemma scan_pop_elements h item h' : Forall source_ok h → scan_pop ms h = Ok (item, h') → Forall source_ok h'.
Proof.
  intros Hok. unfold scan_pop. intros ([x h1] & Hpop & H1)%outcome_bind_Ok. destruct (Pop_elements _ _ _ _ _ Hok Hpop) as [Hi Hok1].
  destruct (Z.eqb_spec (sourceIdx x) 0), (sIterator x) as [p it|it]; try done.
  - apply outcome_bind_Ok in H1 as (m & _ & (it' & _ & H1)%outcome_bind_Ok). destruct (Memtable.Valid it'); [|by simplify_eq].
    apply outcome_bind_Ok in H1 as ([[k v] d] & _ & (h2 & Hpush & H1)%outcome_bind_Ok). simplify_eq.
    by eapply Push_elements; [exact Hok1| |exact Hpush].
  - apply outcome_bind_Ok in H1 as ([[] it'] & _ & H1); [|by simplify_eq].
    apply outcome_bind_Ok in H1 as (k & _ & (e & _ & (h2 & Hpush & H1)%outcome_bind_Ok)%outcome_bind_Ok). simplify_eq.
    by eapply Push_elements; [exact Hok1| |exact Hpush].
Qed.

(** ** The keys a scan returns *)
Context (sid start stop : Z).

Definition in_range (k : Key) : bool := (SeriesID k =? sid) && ((start <=? Timestamp k) && (Timestamp k <=? stop)).

(** Of a merged list, the live entries in the range. *)
Definition picked (L : list Entry) : list Entry := filter (λ e, in_range (ekey e) && negb (eDeleted e)) L.

Lemma picked_cons e L : picked (e :: L) = if in_range (ekey e) && negb (eDeleted e) then e :: picked L else picked L.
Proof. unfold picked. rewrite filter_cons. by destruct (_ && _). Qed.

Lemma same_last_spec last k : same_last last k = true ↔ last = Some k.
Proof.
  destruct last as [[s t]|], k as [s' t']; cbn; [|by split]. rewrite andb_true_iff, !Z.eqb_eq.
  split; [by intros [-> ->]|by intros [= -> ->]].
Qed.

(** The heap [h] is about to merge to [L]. The merge remembers the last key it popped, [gl];
    the scan remembers [sl], the last one in its range: on the keys of the range that are
    left they agree. *)
Record scanning (g : nat) (h : list scanHeapItem) (gl sl : option Key) (pend : list stream) (L : list Entry) : Prop := {
  sc_sources : Forall source_ok h;
  sc_holds : holds (to_item <$> h) pend;
  sc_streams : streams_ok pend;
  sc_above : above gl pend;
  sc_merge : merge_loop g (to_item <$> h) gl false = Ok L;
  sc_last : ∀ n es e, (n, es) ∈ pend → e ∈ es → in_range (ekey e) = true → gl = Some (ekey e) ↔ sl = Some (ekey e)
}.

(** The heads left after a pop. *)
Lemma pop_left n e es pend pend' x :
  pend ≡ₚ (n, e :: es) :: pend' → (∃ m l, (m, l) ∈ rest_stream n es ++ pend' ∧ x ∈ l) → ∃ m l, (m, l) ∈ pend ∧ x ∈ l.
Proof.
  intros Hp (m & l & [(-> & -> & _)%elem_rest_stream|Hin]%elem_of_app & Hx).
  - exists n, (e :: es). split; [rewrite Hp; left|by right].
  - exists m, l. split; [rewrite Hp; by right|done].
Qed.

Lemma scanning_step g h gl sl pend L :
  scanning g h gl sl pend L → h ≠ [] →
  ∃ item h' e g' gl' pend' L', scan_pop ms h = Ok (item, h') ∧ sKey item = ekey e ∧ sValue item = eValue e ∧ sDeleted item = eDeleted e ∧
    total pend = S (total pend') ∧
    if in_range (ekey e) && negb (same_last sl (ekey e))
    then L = e :: L' ∧ scanning g' h' (Some (ekey e)) (Some (ekey e)) pend' L'
    else picked L = picked L' ∧ scanning g' h' gl' sl pend' L'.
Proof.
  intros [Hok Hh Hs Ha Hm Hl] Hne. assert (pend ≠ []) as Hpne.
  { intros ->. destruct Hh as (_ & l & Hl0 & Hf). apply Permutation_nil_r in Hl0 as ->. apply Forall2_nil_inv_r, fmap_nil_inv in Hf. done. }
  destruct (merge_pop_spec _ _ Hh Hpne) as (n & e & es & pend' & h1 & Hpop & Hp & Hh1 & Hmin).
  pose proof (scan_pop_image h Hok) as Him. rewrite Hpop in Him. destruct (scan_pop ms h) as [[item h']| | |] eqn:Esp; [|done..].
  cbn in Him. injection Him as Ee ->. pose proof (scan_pop_elements _ _ _ Hok Esp) as Hok'.
  set (rest := rest_stream n es ++ pend') in *.
  assert (streams_ok ((n, e :: es) :: pend')) as Hs' by (intros m l Hin; apply (Hs m); by rewrite Hp).
  pose proof (streams_ok_pop _ _ _ _ Hs') as Hs1. pose proof (above_pop _ _ _ _ Hs' Hmin) as Ha1. fold rest in Hs1, Ha1.
  assert (total pend = S (total rest)) as Htot.
  { rewrite (total_perm _ _ Hp). unfold rest. rewrite total_app, total_rest. unfold total. cbn. lia. }
  assert (∀ m l x, (m, l) ∈ rest → x ∈ l → ∃ m' l', (m', l') ∈ pend ∧ x ∈ l') as Hleft.
  { intros m l x Hin Hx. eapply pop_left; [exact Hp|]. by exists m, l. }
  destruct g as [|g]; [done|]. cbn [merge_loop] in Hm. destruct (to_item <$> h) as [|i0 h0] eqn:Eh; [by apply fmap_nil_inv in Eh|].
  rewrite <-Eh in Hpop, Hm. rewrite Hpop in Hm. cbn [mbind outcome_bind] in Hm.
  assert (∃ m l, (m, l) ∈ pend ∧ e ∈ l) as (m0 & l0 & Hin0 & He0) by (exists n, (e :: es); split; [rewrite Hp|]; left).
  pose proof (Hl m0 l0 e Hin0 He0) as Hle.
  assert (same_key gl e = true → in_range (ekey e) && negb (same_last sl (ekey e)) = false) as Hskip.
  { intros Hsk%same_key_spec. destruct (in_range (ekey e)); [|done]. apply Hle in Hsk; [|done]. apply same_last_spec in Hsk. by rewrite Hsk. }
  assert (sKey item = ekey e ∧ sValue item = eValue e ∧ sDeleted item = eDeleted e) as Hitem by (rewrite Ee; by destruct item as [[]]).
  destruct (same_key gl e) eqn:Esk.
  { exists item, h', e, g, gl, rest, L. split_and!; try apply Hitem; [done..|]. rewrite Hskip by done. split; [done|]. split; try done.
    - apply same_key_spec in Esk. by rewrite Esk.
    - intros m l x Hin Hx. destruct (Hleft m l x Hin Hx) as (m' & l' & Hin' & Hx'). by apply (Hl m' l'). }
  apply outcome_bind_Ok in Hm as (L' & HL' & Hm). rewrite andb_false_r in Hm. injection Hm as <-.
  exists item, h', e, g, (Some (ekey e)), rest, L'. split_and!; try apply Hitem; [done..|].
  destruct (in_range (ekey e)) eqn:Er; cbn [andb].
  - destruct (same_last sl (ekey e)) eqn:Esl; cbn [negb].
    + exfalso. apply same_last_spec, Hle, same_key_spec in Esl; [congruence|done].
    + split; [done|]. by split.
  - split; [by rewrite picked_cons, Er|]. split; try done. intros m l x Hin Hx Hrx. split.
    + intros E. assert (ekey e = ekey x) by congruence. congruence.
    + intros Hsl. destruct (Hleft m l x Hin Hx) as (m' & l' & Hin' & Hx'). apply (Hl m' l' x Hin' Hx' Hrx) in Hsl as ->.
      destruct (not_klt_cases (ekey e) (ekey x)) as [E|Hlt].
      { by apply (Ha (ekey x) m0 l0 e). }
      * congruence.
      * by apply (Ha1 (ekey e) m l x eq_refl Hin Hx) in Hlt.
Qed.

Definition ranged (it : ScanIterator) : Prop := seriesID it = sid ∧ startTs it = start ∧ endTs it = stop.

(** One round of the loop. *)
Lemma next_loop_S fuel it item h :
  ranged it → heap it ≠ [] → scan_pop ms (heap it) = Ok (item, h) →
  next_loop ms (S fuel) it =
    if in_range (sKey item) && negb (same_last (lastKey it) (sKey item))
    then if sDeleted item then next_loop ms fuel (set_last (sKey item) (set_heap h it))
         else Ok (true, set_current (sKey item) (sValue item) (set_heap h it))
    else next_loop ms fuel (set_heap h it).
Proof.
  intros (R1 & R2 & R3) Hne Hpop. cbn [next_loop]. destruct (heap it) as [|i h0]; [done|]. rewrite Hpop.
  cbn [mbind outcome_bind seriesID startTs endTs lastKey set_heap]. rewrite R1, R2, R3. unfold in_range. rewrite !Z.leb_antisym.
  destruct (_ =? _), (_ <? _), (_ <? _); try done.
  by destruct (same_last _ _).
Qed.

(** One call of [Next] returns the next entry of the range. *)
Definition next_entry (fuel : nat) (it : ScanIterator) (L : list Entry) (n : nat) : Prop :=
  match picked L with
  | [] => ∃ it', next_loop ms fuel it = Ok (false, it')
  | e :: rest => ∃ it' g gl pend L', next_loop ms fuel it = Ok (true, it') ∧ ScanEntry it' = (ekey e, eValue e, false) ∧
      ranged it' ∧ scanning g (heap it') gl (lastKey it') pend L' ∧ picked L' = rest ∧ (total pend < n)%nat
  end.

Lemma next_loop_spec fuel it g gl pend L :
  ranged it → scanning g (heap it) gl (lastKey it) pend L → (total pend < fuel)%nat → next_entry fuel it L (total pend).
Proof.
  revert it g gl pend L. induction fuel as [|fuel IH]; intros it g gl pend L Hr Hsc Hf; [lia|].
  destruct (decide (heap it = [])) as [Eh|Hne].
  { destruct g as [|g]; pose proof (sc_merge _ _ _ _ _ _ Hsc) as Hm; rewrite Eh in Hm; [done|]. injection Hm as <-.
    unfold next_entry. cbn [next_loop picked filter list_filter]. rewrite Eh. by eexists. }
  destruct (scanning_step _ _ _ _ _ _ Hsc Hne) as (item & h' & e & g' & gl' & pend' & L' & Hpop & Ek & Ev & Ed & Htot & Hstep).
  pose proof (next_loop_S fuel it item h' Hr Hne Hpop) as Hn. rewrite Ek, Ev, Ed in Hn.
  assert (∀ it1 gl1, ranged it1 → scanning g' (heap it1) gl1 (lastKey it1) pend' L' → next_loop ms (S fuel) it = next_loop ms fuel it1 →
    picked L = picked L' → next_entry (S fuel) it L (total pend)) as Hgo.
  { intros it1 gl1 Hr1 Hsc1 E1 E2. specialize (IH it1 g' gl1 pend' L' Hr1 Hsc1 ltac:(lia)). unfold next_entry in IH |- *.
    rewrite E1, E2. destruct (picked L') as [|e1 rest]; [exact IH|].
    destruct IH as (it' & g2 & gl2 & pend2 & L2 & H1 & H2 & H3 & H4 & H5 & H6). exists it', g2, gl2, pend2, L2. split_and!; try done. lia. }
  destruct (in_range (ekey e)) eqn:Er; cbn [andb] in *; [destruct (same_last (lastKey it) (ekey e)); cbn [negb] in *|].
  - destruct Hstep as [Hp Hsc']. by apply (Hgo (set_heap h' it) gl').
  - destruct Hstep as [-> Hsc']. destruct (eDeleted e) eqn:Edel.
    + apply (Hgo (set_last (ekey e) (set_heap h' it)) (Some (ekey e))); [done..|]. by rewrite picked_cons, Er, Edel.
    + unfold next_entry. rewrite picked_cons, Er, Edel, Hn. cbn [andb negb].
      eexists _, g', _, pend', L'. split_and!; try done. lia.
  - destruct Hstep as [Hp Hsc']. by apply (Hgo (set_heap h' it) gl').
Qed.

(** The client's loop returns them all. *)
Lemma scan_loop_spec n fuel it g gl pend L :
  ranged it → scanning g (heap it) gl (lastKey it) pend L → (total pend < fuel)%nat → (total pend < n)%nat →
  scan_loop ms n fuel it = Ok ((λ e, (ekey e, eValue e)) <$> picked L).
Proof.
  revert it g gl pend L. induction n as [|n IH]; intros it g gl pend L Hr Hsc Hf Hn; [lia|]. cbn [scan_loop].
  assert (ScanNext ms fuel it = next_loop ms fuel it) as ->.
  { unfold ScanNext. destruct fuel; [lia|]. cbn [next_loop]. by destruct (heap it). }
  pose proof (next_loop_spec fuel it g gl pend L Hr Hsc Hf) as Hnext. unfold next_entry in Hnext.
  destruct (picked L) as [|e rest]; [by destruct Hnext as (it' & ->)|].
  destruct Hnext as (it' & g' & gl' & pend' & L' & -> & He & Hr' & Hsc' & <- & Hlt). cbn [mbind outcome_bind]. rewrite He.
  rewrite (IH it' g' gl' pend' L' Hr' Hsc' ltac:(lia) ltac:(lia)). done.
Qed.

(** ** The heap of a new scan *)

(** The tables as sources 1, 2, ... *)
Fixpoint renumber (idx : Z) (tabs : list stream) : list stream :=
  match tabs with
  | [] => []
  | (_, es) :: tabs' => (- (1 + idx), es) :: renumber (idx + 1) tabs'
  end.

Lemma renumber_entries idx tabs : snd <$> renumber idx tabs = snd <$> tabs.
Proof. revert idx. induction tabs as [|[g es] tabs IH]; intros idx; [done|]. cbn [renumber]. by rewrite !fmap_cons, IH. Qed.

Lemma renumber_sorted idx tabs n : - (1 + idx) < n → Forall (Z.gt n) (fst <$> renumber idx tabs) ∧ StronglySorted Z.gt (fst <$> renumber idx tabs).
Proof.
  revert idx n. induction tabs as [|[g es] tabs IH]; intros idx n Hn; cbn [renumber]; [split; constructor|]. rewrite fmap_cons. cbn [fst].
  split; constructor; [lia|apply (IH (idx + 1) n); lia|apply (IH (idx + 1) n); lia|apply (IH (idx + 1) (- (1 + idx))); lia].
Qed.

(** The heap holds [pend], and every assertion on it will succeed. *)
Definition holds_sources (h : list scanHeapItem) (pend : list stream) : Prop := holds (to_item <$> h) pend ∧ Forall source_ok h.

Lemma Push_source h pend i e es :
  holds_sources h pend → source_ok i → entry (to_item i) = e → yields (sIterator i) (e :: es) →
  ∃ h', Push Less h i = Ok h' ∧ holds_sources h' ((- sourceIdx i, e :: es) :: pend).
Proof.
  intros [Hh Hok] Hi <- Hy. destruct (holds_Push _ _ (- sourceIdx i) _ _ 0 (sIterator i) Hh Hy) as (h1 & Hpush & Hh1).
  change (mkItem _ _ _ _) with (to_item i) in Hpush. rewrite (Push_image Less Merge.Less to_item Less_to_item) in Hpush.
  apply outcome_bind_Ok in Hpush as (h' & Hpush & [= <-]). exists h'. split; [done|]. split; [done|]. by eapply Push_elements.
Qed.

Lemma push_mem_spec p m km :
  ms !! p = Some m → memtable_map m km →
  ∃ kvs h, push_mem ms (Some p) [] = Ok h ∧ ksorted kvs ∧ kmap kvs = km ∧ holds_sources h (rest_stream 0 (entry_of <$> kvs)).
Proof.
  intros Hm Hmap. destruct (Memtable.iterate_map _ _ Hmap) as (it & kvs & Hit & Hc & Hs & Hkm). exists kvs.
  assert (holds_sources [] []) as Hnil by (split; [apply holds_nil|constructor]).
  unfold push_mem. rewrite Hm. cbn [mbind outcome_bind]. rewrite Hit. cbn [mbind outcome_bind].
  rewrite (mem_cursor_valid _ _ _ Hc). destruct kvs as [|[k [v d]] kvs].
  - rewrite bool_decide_eq_false_2 by (by intros []). by exists [].
  - rewrite bool_decide_eq_true_2 by done. destruct (Skiplist.cursor_cons _ _ _ _ _ _ Hc) as (_ & He & _).
    unfold Memtable.Entry. rewrite He. cbn [mbind outcome_bind].
    destruct (Push_source [] [] (mkScanItem k v d 0 0 (MemIter p it)) (entry_of (k, (v, d))) (entry_of <$> kvs) Hnil) as (h & Hpush & Hh); [done|done| |].
    + by exists m, ((k, (v, d)) :: kvs).
    + by exists h.
Qed.

Lemma keep_minor L : keep false L = L.
Proof. unfold keep. induction L as [|e L IH]; [done|]. rewrite filter_cons, andb_false_r. by rewrite decide_True, IH by done. Qed.

Lemma push_sources_spec idx ts tabs h pend :
  Forall2 table_stream ts tabs → 0 ≤ idx → holds_sources h pend →
  ∃ h', push_tables idx ts h = Ok h' ∧ holds_sources h' (streams (renumber idx tabs) ++ pend).
Proof.
  intros Ht. revert idx h pend. induction Ht as [|[g o] [g' es] ts tabs (_ & Hr) Ht IH]; intros idx h pend Hidx Hh; [by exists h|].
  cbn [snd] in Hr. cbn [push_tables renumber]. unfold streams. rewrite filter_cons. fold (streams (renumber (idx + 1) tabs)). cbn [snd].
  assert (∃ h1, match o with
      | None => Ok h
      | Some r => it ← Reader_Iterator r;
          if Valid it then key ← Key_ it; e ← Entry_ it; Push Less h (mkScanItem key (eValue e) (eDeleted e) g (1 + idx) (TblIter it)) else Ok h
      end = Ok h1 ∧ holds_sources h1 (rest_stream (- (1 + idx)) es ++ pend)) as (h1 & -> & Hh1).
  { destruct o as [r|]; [|subst es; by exists h]. destruct Hr as (it & -> & Hy). cbn [mbind outcome_bind]. destruct es as [|e es].
    - change (Valid it) with (TableIter.valid it). cbn [table_yields] in Hy. rewrite Hy. by exists h.
    - destruct (table_yields_cons it e es Hy) as (Hv & He & Hk & _). unfold Valid. rewrite Hv, Hk, He. cbn [mbind outcome_bind].
      apply Push_source; [done|cbn; lia|by destruct e|exact Hy]. }
  cbn [mbind outcome_bind]. destruct (IH (idx + 1) h1 _ ltac:(lia) Hh1) as (h2 & -> & Hh2). exists h2. split; [done|].
  destruct Hh2 as [Hh2 Hok]. split; [|done]. eapply holds_perm; [|exact Hh2].
  destruct es as [|e es]; case_decide; try done; cbn [rest_stream app]. by rewrite <-Permutation_middle.
Qed.

(** From a memtable with the bindings [km] and the tables [tabs]: the heap merges to a list
    that answers every key like the memtable and then the tables. *)
Lemma scan_heap_spec imm km ts tabs :
  match imm with None => km = ∅ | Some p => ∃ m, ms !! p = Some m ∧ memtable_map m km end →
  Forall2 table_stream ts tabs → (∀ g es, (g, es) ∈ tabs → esorted es) →
  ∃ h1 h g pend L, push_mem ms imm [] = Ok h1 ∧ push_tables 0 ts h1 = Ok h ∧ scanning g h None None pend L ∧
    total pend = (size km + total tabs)%nat ∧ esorted L ∧
    ∀ k, binding_of <$> first_entry k L = match km !! k with Some b => Some b | None => binding_of <$> first_entry k (table_entries tabs) end.
Proof.
  intros Himm Hts Hsort.
  assert (∃ kvs h1, push_mem ms imm [] = Ok h1 ∧ ksorted kvs ∧ kmap kvs = km ∧ holds_sources h1 (rest_stream 0 (entry_of <$> kvs)))
    as (kvs & h1 & Hpush & Hs & Hkm & Hh1).
  { destruct imm as [p|]; [destruct Himm as (m & Hm & Hmap); by eapply push_mem_spec|]. subst km. exists [], [].
    split_and!; [done|constructor|done|]. split; [apply holds_nil|constructor]. }
  destruct (push_sources_spec 0 ts tabs h1 _ Hts ltac:(lia) Hh1) as (h & Hpt & Hh & Hok).
  set (mem := entry_of <$> kvs) in *. set (pend := streams (renumber 0 tabs) ++ rest_stream 0 mem) in *.
  assert (pend ≡ₚ streams ((0, mem) :: renumber 0 tabs)) as Hperm.
  { unfold pend, streams. rewrite filter_cons. cbn [snd]. destruct mem; case_decide; try done; cbn [rest_stream].
    - by rewrite app_nil_r.
    - by rewrite Permutation_app_comm. }
  assert (∀ g es, (g, es) ∈ (0, mem) :: renumber 0 tabs → esorted es) as Hsorts.
  { intros g es [[= -> ->]|Hin]%elem_of_cons; [by apply entries_esorted|].
    apply (list_elem_of_fmap_2 snd _ (g, es)) in Hin. rewrite renumber_entries in Hin. apply list_elem_of_fmap in Hin as ([g' es'] & E & Hin). cbn in E. subst es'. by eapply Hsort. }
  assert (streams_ok pend) as Hst by (intros g es Hin; rewrite Hperm in Hin; by eapply streams_sorted).
  assert (above None pend) as Hab by done.
  destruct (merge_loop_spec (S (total pend)) _ pend None false Hh Hst Hab ltac:(lia)) as (L & HL & Hm).
  exists h1, h, (S (total pend)), pend, L. split_and!; [done|done| | | |].
  - split; try done. by rewrite HL, keep_minor.
  - rewrite (total_perm _ _ Hperm), total_streams. unfold total. cbn [sum_list_with snd]. unfold mem.
    rewrite length_fmap, <-Hkm, size_kmap by done. f_equal. fold (total (renumber 0 tabs)) (total tabs).
    by rewrite !total_concat, renumber_entries.
  - apply Hm.
  - intros k. destruct Hm as (_ & _ & _ & Hnew). specialize (Hnew k ltac:(done)).
    apply (is_newest_perm _ _ _ _ Hperm), (proj1 (is_newest_streams _ _ _)), Merge.newest_first in Hnew.
    + rewrite Hnew. rewrite fmap_cons, renumber_entries. cbn [concat snd]. rewrite first_entry_app. fold (table_entries tabs).
      pose proof (first_entry_entries k kvs) as Hf. fold mem in Hf. rewrite <-kmap_lookup, Hkm in Hf. rewrite <-Hf.
      by destruct (first_entry k mem).
    + rewrite fmap_cons. cbn [fst]. constructor; apply (renumber_sorted 0 tabs 0); lia.
Qed.

End sources.

(** ** Scanning the engine *)

(** What a scan of the contents [view] returns: the live keys of the range, in ascending
    order. *)
Definition scan_of (view : Key → option bytes) (sid start stop : Z) (out : list (Key * bytes)) : Prop :=
  ksorted out ∧ ∀ k v, (k, v) ∈ out ↔ in_range sid start stop k = true ∧ view k = Some v.

Lemma picked_scan sid start stop view L :
  esorted L → (∀ k, live (binding_of <$> first_entry k L) = view k) →
  scan_of view sid start stop ((λ e, (ekey e, eValue e)) <$> picked sid start stop L).
Proof.
  intros Hs Hview. split.
  - unfold ksorted. rewrite <-list_fmap_compose. change (fst ∘ _) with ekey. by apply esorted_filter.
  - intros k v. rewrite <-Hview. split.
    + intros (e & [= -> ->] & [Hp He]%list_elem_of_filter)%list_elem_of_fmap. apply Is_true_true, andb_true_iff in Hp as [Hr Hd].
      split; [done|]. rewrite (esorted_first L e Hs He). cbn. apply negb_true_iff in Hd. by rewrite Hd.
    + intros [Hr Hl]. destruct (first_entry k L) as [e|] eqn:E; [|done]. cbn in Hl. destruct (eDeleted e) eqn:Ed; [done|]. injection Hl as <-.
      apply first_entry_Some in E as [He <-]. apply list_elem_of_fmap. exists e. split; [done|]. apply list_elem_of_filter.
      split; [|done]. by rewrite Hr, Ed.
Qed.

Section engine.
Context `{Snappy, Hash128} (wpath : path) (wmax : Z) (base : path).
Context (N : Z) (HN : N < 2^28) (Hfilters : Writer.filters_ok N) (Hsep : separate wpath wmax base).

Abbreviation engine := (engine wpath wmax base).
Abbreviation room := (room N).

Lemma snapshot_loop_S fuel w wd m :
  mems w !! mutableMemTable w = Some m →
  snapshot_loop (S fuel) (w, wd) =
    match immutableMemTable w with
    | Some imm => if 0 <? Memtable.Size m then (flushImmutable imm;; snapshot_loop fuel) (w, wd) else (Ok (), (w, wd))
    | None => (Ok (), (w, wd))
    end.
Proof.
  intros Hm. cbn [snapshot_loop]. erewrite bind_Ok by reflexivity. erewrite bind_Ok by (apply get_mem_run; exact Hm).
  destruct (immutableMemTable w) as [p|]; [|done]. by destruct (0 <? Memtable.Size m).
Qed.

(** An empty mutable memtable has no records. *)
Lemma engine_empty w wd rs frozen tabs m :
  engine w wd rs frozen tabs → mems w !! mutableMemTable w = Some m → (0 <? Memtable.Size m) = false → rs = [].
Proof.
  intros He Hm Hz. destruct (en_mutable _ _ _ _ _ _ _ _ He) as (m' & Hm' & _ & _ & _ & Hsz). simplify_eq.
  pose proof (total_cost_bounds _ (proj1 (en_records _ _ _ _ _ _ _ _ He))). pose proof (zlen_nonneg rs).
  unfold Memtable.Size in Hz. apply Z.ltb_ge in Hz. apply length_zero_iff_nil_zlen. lia.
Qed.

(** The wait for a flush ends. *)
Lemma snapshot_loop_ok w wd rs frozen tabs e s g t :
  engine w wd rs frozen tabs → room w rs (default [] frozen) tabs e s g t → 0 ≤ e → 1 ≤ g → 1 ≤ t →
  ∃ w' wd' frozen' tabs', snapshot_loop 2 (w, wd) = (Ok (), (w', wd')) ∧ engine w' wd' rs frozen' tabs' ∧
    room w' rs (default [] frozen') tabs' e s (g - 1) (t - 1) ∧ view_eq rs (default [] frozen) tabs rs (default [] frozen') tabs' ∧
    (rs = [] ∨ frozen' = None).
Proof.
  intros He Hr H1 H2 H3. pose proof (en_mutable _ _ _ _ _ _ _ _ He) as (m & Hm & _). rewrite (snapshot_loop_S _ _ _ _ Hm).
  pose proof (en_immutable _ _ _ _ _ _ _ _ He) as Himm. destruct frozen as [old|], (immutableMemTable w) as [p|] eqn:Ep; try done.
  - destruct (0 <? Memtable.Size m) eqn:Ez.
    + destruct (flush_step wpath wmax base N HN Hfilters Hsep _ _ _ _ _ _ _ _ _ _ He Ep Hr H1 H2 H3) as (w1 & wd1 & tabs1 & Hrun & He1 & Hr1 & Hv & Em & Emu & Eim & _).
      erewrite bind_Ok by exact Hrun. rewrite (snapshot_loop_S 0 w1 wd1 m) by (by rewrite Em, Emu). rewrite Eim.
      exists w1, wd1, None, tabs1. split_and!; try done. by right.
    + pose proof (engine_empty _ _ _ _ _ _ He Hm Ez) as ->. exists w, wd, (Some old), tabs. split_and!; try done; [by eapply room_weaken; [exact Hr|lia..]|by left].
  - exists w, wd, None, tabs. split_and!; try done; [by eapply room_weaken; [exact Hr|lia..]|by right].
Qed.

(** The snapshot: the mutable memtable is empty, the frozen one and the tables have all
    the contents, and the tables are held. *)
Lemma snapshot_ok w wd rs frozen tabs e s g t :
  engine w wd rs frozen tabs → room w rs (default [] frozen) tabs e s g t → 0 ≤ e → 1 ≤ s → 1 ≤ g → 1 ≤ t →
  ∃ w1 wd1 frozen1 tabs1 l1 l2,
    let ts := SSTableList.tables (sstables w1) in
    snapshotForScan (w, wd) = (Ok (immutableMemTable w1, ts), (set_sstables l1 w1, wd1)) ∧
    engine w1 wd1 [] frozen1 tabs1 ∧ room w1 [] (default [] frozen1) tabs1 e (s - 1) (g - 1) (t - 1) ∧
    view_eq rs (default [] frozen) tabs [] (default [] frozen1) tabs1 ∧
    Compactor.table_of l1 <$> ts = Compactor.list_tables (sstables w1) ∧
    SSTableList.ReleaseTables ts (l1, wd1) = (Ok (), (l2, wd1)) ∧ listing base l2 wd1 tabs1 ∧ SSTableList.same_list (sstables w1) l2.
Proof.
  intros He Hr H1 H2 H3 H4.
  destruct (snapshot_loop_ok _ _ _ _ _ _ _ _ _ He Hr H1 H3 H4) as (w0 & wd0 & fr0 & tabs0 & Hrun0 & He0 & Hr0 & Hv0 & Hcase).
  unfold snapshotForScan. erewrite bind_Ok by exact Hrun0. erewrite bind_Ok by reflexivity.
  pose proof (en_mutable _ _ _ _ _ _ _ _ He0) as (m & Hm & _). erewrite bind_Ok by (apply get_mem_run; exact Hm).
  assert (∃ w1 wd1 fr1, (if 0 <? Memtable.Size m then freezeMutableLocked else mret ()) (w0, wd0) = (Ok (), (w1, wd1)) ∧
    engine w1 wd1 [] fr1 tabs0 ∧ room w1 [] (default [] fr1) tabs0 e (s - 1) (g - 1) (t - 1) ∧
    view_eq rs (default [] fr0) tabs0 [] (default [] fr1) tabs0) as (w1 & wd1 & fr1 & Hrun1 & He1 & Hr1 & Hv1).
  { destruct (0 <? Memtable.Size m) eqn:Ez.
    - assert (fr0 = None) as ->.
      { destruct Hcase as [->|?]; [|done]. destruct (en_mutable _ _ _ _ _ _ _ _ He0) as (m' & Hm' & _ & _ & _ & Hsz). simplify_eq.
        unfold Memtable.Size in Ez. by rewrite Hsz in Ez. }
      destruct (freeze_step wpath wmax base N Hsep _ _ _ _ _ _ _ _ He0 Hr0 H2) as (w1 & wd1 & Hrun & He1 & Hr1 & _).
      exists w1, wd1, (Some rs). split_and!; try done. all: intros k; apply lookup_view_freeze.
    - pose proof (engine_empty _ _ _ _ _ _ He0 Hm Ez) as ->. exists w0, wd0, fr0. split_and!; try done.
      eapply room_weaken; [exact Hr0|lia..]. }
  erewrite bind_Ok by exact Hrun1. erewrite bind_Ok by reflexivity.
  destruct (listing_read base _ _ _ (en_quiet _ _ _ _ _ _ _ _ He1) (en_tables _ _ _ _ _ _ _ _ He1)) as (l1 & l2 & Hget & Htabs & Hrel & Hl2 & Hsame).
  { pose proof (ro_tables _ _ _ _ _ _ _ _ _ Hr1). lia. }
  exists w1, wd1, fr1, tabs0, l1, l2. erewrite bind_Ok by (apply on_list_run; exact Hget). split_and!; try done.
  intros k. by rewrite (Hv1 k), (Hv0 k).
Qed.

(** A whole scan. *)
Lemma scan_all_ok fuel sid start stop w wd rs frozen tabs e s g t :
  engine w wd rs frozen tabs → room w rs (default [] frozen) tabs e s g t → 0 ≤ e → 1 ≤ s → 1 ≤ g → 1 ≤ t → N < Z.of_nat fuel →
  ∃ w' wd' frozen' tabs' out, scan_all fuel sid start stop (w, wd) = (Ok out, (w', wd')) ∧ engine w' wd' [] frozen' tabs' ∧
    room w' [] (default [] frozen') tabs' e (s - 1) (g - 1) (t - 1) ∧
    view_eq rs (default [] frozen) tabs [] (default [] frozen') tabs' ∧
    scan_of (λ k, live (lookup_view rs (default [] frozen) tabs k)) sid start stop out.
Proof.
  intros He Hr H1 H2 H3 H4 Hfuel.
  destruct (snapshot_ok _ _ _ _ _ _ _ _ _ He Hr H1 H2 H3 H4) as (w1 & wd1 & fr1 & tabs1 & l1 & l2 & Hsnap & He1 & Hr1 & Hv1 & Htabs & Hrel & Hl2 & [Et Eg]).
  set (ts := SSTableList.tables (sstables w1)) in *. set (w2 := set_sstables l1 w1) in *. set (old := default [] fr1) in *.
  destruct (readable_streams _ _ (ls_tables _ _ _ _ (en_tables _ _ _ _ _ _ _ _ He1))) as [Hts Hsort].
  destruct (scan_heap_spec (mems w2) sid start stop (immutableMemTable w1) (replay_map old) (Compactor.list_tables (sstables w1)) tabs1)
    as (h1 & h & n & pend & L & Hpm & Hpt & Hsc & Htot & HsL & Hlook); [|exact Hts|exact Hsort|].
  { pose proof (en_immutable _ _ _ _ _ _ _ _ He1) as Himm. unfold old. destruct fr1 as [old'|], (immutableMemTable w1); try done. apply Himm. }
  assert (total pend < fuel)%nat as Hf.
  { pose proof (ro_entries _ _ _ _ _ _ _ _ _ Hr1). pose proof (replay_size old). pose proof (zlen_nonneg (@nil WALRecord)).
    unfold zlen in *. lia. }
  set (it := mkScan h sid start stop ts None false zeroKey []).
  assert (Scan sid start stop (w, wd) = (Ok it, (w2, wd1))) as Hscan.
  { unfold Scan. erewrite bind_Ok by exact Hsnap. cbv beta iota. erewrite bind_Ok by reflexivity. rewrite (lift_Ok _ _ _ _ Hpm).
    cbn [sstables w2 set_sstables]. rewrite Htabs. by rewrite (lift_Ok _ _ _ _ Hpt). }
  pose proof (scan_loop_spec (mems w2) sid start stop fuel fuel it n None pend L ltac:(done) Hsc Hf Hf) as Hloop.
  exists (set_sstables l2 w2), wd1, fr1, tabs1, ((λ e, (ekey e, eValue e)) <$> picked sid start stop L). split_and!.
  - unfold scan_all. erewrite bind_Ok by exact Hscan. erewrite bind_Ok by reflexivity. rewrite (lift_Ok _ _ _ _ Hloop).
    erewrite bind_Ok by (apply (on_list_run _ w2); exact Hrel). done.
  - exact (engine_sstables _ _ _ l2 w1 _ _ _ _ He1 Hl2).
  - destruct Hr1 as [R1 R2 R3 R4]. split; cbn [sstables set_sstables w2]; rewrite ?Et, ?Eg; done.
  - exact Hv1.
  - apply picked_scan; [done|]. intros k. rewrite Hlook, <-(Hv1 k). done.
Qed.
End engine.

(** ** Claims *)
Section claims.
Context `{Snappy, Hash128}.

(** What the sources of a scan hold for a key: the memtable decides, then the tables in the
    order of the list. *)
Definition sources_view (km : gmap Key (bytes * bool)) (tabs : list stream) (k : Key) : option bytes :=
  live (match km !! k with Some b => Some b | None => binding_of <$> first_entry k (table_entries tabs) end).

(** C4: a scan is exact. For a frozen memtable and any list of tables, the iterator built
    as [Scan] builds it returns through [Next] and [Entry] exactly the live keys of its
    series from [startTs] to [endTs], each once, in ascending order, with the value of the
    first source that has the key; a tombstone hides the key in every later source. It
    ends, and asserts no source to be of the wrong type, for tables with equal or unordered
    generations too. *)
Theorem scan_range ms imm km ts tabs sid start stop held fuel :
  match imm with None => km = ∅ | Some p => ∃ m, ms !! p = Some m ∧ memtable_map m km end →
  Forall2 table_stream ts tabs → (∀ g es, (g, es) ∈ tabs → esorted es) → (size km + total tabs < fuel)%nat →
  ∃ h1 h out, push_mem ms imm [] = Ok h1 ∧ push_tables 0 ts h1 = Ok h ∧
    scan_loop ms fuel fuel (mkScan h sid start stop held None false zeroKey []) = Ok out ∧
    scan_of (sources_view km tabs) sid start stop out.
Proof.
  intros Himm Hts Hsort Hf. destruct (scan_heap_spec ms sid start stop imm km ts tabs Himm Hts Hsort)
    as (h1 & h & n & pend & L & Hpm & Hpt & Hsc & Htot & HsL & Hlook).
  eexists h1, h, _. split; [done|]. split; [done|]. split; [eapply scan_loop_spec; [done|exact Hsc|lia..]|].
  apply picked_scan; [done|]. intros k. by rewrite Hlook.
Qed.
End claims.

(** A memtable that deletes a key of a table and has one of its own. *)
Definition demo_writes : list Memtable.write := [Memtable.WDelete (mkKey 1 (-2)); Memtable.WPut (mkKey 1 1) [x64]].

Lemma scan_range_witness :
  ∃ m r h1 h out, push_mem [m] (Some 0%nat) [] = Ok h1 ∧ @push_tables stored 0 [(1, Some r)] h1 = Ok h ∧
    @scan_loop stored [m] 50 50 (mkScan h 1 (-5) 9 [0%nat] None false zeroKey []) = Ok out ∧
    scan_of (sources_view (foldl Memtable.write_map ∅ demo_writes) [(1, demo_entries)]) 1 (-5) 9 out.
Proof.
  destruct (Memtable.CreateMemTable_map 0) as (H1 & H2 & H3).
  destruct (Memtable.apply_writes_spec _ ∅ ((λ w, ([], w)) <$> demo_writes) H1 H2) as (m & _ & Hm & _); [by rewrite H3|].
  destruct (@demo_table_ok stored toy_hash) as (b & Htb).
  pose proof (@written_readable stored toy_hash 40 [demo_entries] b demo_entries Htb) as Hr.
  eexists m, _. apply (@scan_range stored [m] (Some 0%nat) _ [(1, Some _)] [(1, demo_entries)] 1 (-5) 9 [0%nat] 50).
  - by exists m.
  - constructor; [|constructor]. by apply (@readable_stream stored toy_hash).
  - intros g es [[= -> ->]|Hin]%elem_of_cons; [by_decide|by apply not_elem_of_nil in Hin].
  - vm_compute. lia.
Defined.
