(* ===== verification/EngineSpec.v ===== *)
(** * The engine as a map (wisp.go)

    The abstract specification of a [Wisp], a finite map from keys to values, and the
    theorem that every sequence of calls, crashes included, implements it. *)
From Stdlib Require Import ZArith Lia Strings.Byte.
From stdpp Require Import base list gmap sorting.
From S2P Require Import Prelude Key Monad Fs WalCodec Block Bloom Reader Merge Tables WalFrame Engine EngineMem EngineInv Scan.
From S2P Require Skiplist Memtable Wal Writer SSTableList Compactor.

(** ** Specification *)
Abbreviation store := (gmap Key bytes).

(** The calls of a client. [OScan] is [Scan], [Next] until it fails, and the iterator's
    [Close]. [OReopen] is [Close] and [CreateWispWithConfig], [ORestart] a crash and
    [CreateWispWithConfig]; in between unsynced bytes are lost or kept as [loss] says. *)
Inductive op :=
  | OInsert (pooled : bytes) (coins : list bool) (k : Key) (v : bytes)
  | ODelete (pooled : bytes) (coins : list bool) (k : Key)
  | OGet (k : Key)
  | OScan (fuel : nat) (seriesID start stop : Z)
  | OFlush
  | OCompact (fuel : nat)
  | OReopen (coins : nat → list bool) (loss : world → world)
  | ORestart (coins : nat → list bool) (loss : world → world).

Definition spec_op (o : op) (kv : store) : store :=
  match o with
  | OInsert _ _ k v => <[k := v]> kv
  | ODelete _ _ k => delete k kv
  | _ => kv
  end.

(** The answers a lookup may give: the value; without one, the deleted flag tells a
    tombstone that is still there. *)
Definition agrees (v : option bytes) (a : bytes * bool * bool) : Prop :=
  match v with
  | Some v => a = (v, true, false)
  | None => a = ([], false, true) ∨ a = ([], false, false)
  end.

(** What a [Get] and a scan return. *)
Inductive reply :=
  | RGet (a : bytes * bool * bool)
  | RScan (out : list (Key * bytes)).

(** The replies to a sequence of calls on a map. *)
Fixpoint spec_run (ops : list op) (kv : store) (answers : list reply) : Prop :=
  match ops with
  | [] => answers = []
  | OGet k :: ops' => match answers with
      | RGet a :: answers' => agrees (kv !! k) a ∧ spec_run ops' kv answers'
      | _ => False
      end
  | OScan _ sid start stop :: ops' => match answers with
      | RScan out :: answers' => scan_of (λ k, kv !! k) sid start stop out ∧ spec_run ops' kv answers'
      | _ => False
      end
  | o :: ops' => spec_run ops' (spec_op o kv) answers
  end.

Section run.
Context `{Snappy, Hash128} (config : WispConfig).

Definition restart (coins : nat → list bool) (loss : world → world) : E unit := λ '(w, wd),
  match CreateWispWithConfig coins config (loss wd) with
  | (Ok w', wd') => (Ok (), (w', wd'))
  | (Err e, wd') => (Err e, (w, wd'))
  | (Panic p, wd') => (Panic p, (w, wd'))
  | (OutOfFuel, wd') => (OutOfFuel, (w, wd'))
  end.

Fixpoint run (ops : list op) : E (list reply) :=
  match ops with
  | [] => mret []
  | o :: ops' =>
      match o with
      | OInsert pooled coins k v => Insert pooled coins (SeriesID k) (Timestamp k) v;; run ops'
      | ODelete pooled coins k => Delete pooled coins (SeriesID k) (Timestamp k);; run ops'
      | OGet k => a ← Get (SeriesID k) (Timestamp k); answers ← run ops'; mret (RGet a :: answers)
      | OScan fuel sid start stop => out ← scan_all fuel sid start stop; answers ← run ops'; mret (RScan out :: answers)
      | OFlush => Flush;; run ops'
      | OCompact fuel => Compact fuel;; run ops'
      | OReopen coins loss => Close;; restart coins loss;; run ops'
      | ORestart coins loss => restart coins loss;; run ops'
      end
  end.

(** A client's program from a directory. *)
Definition session (coins : nat → list bool) (ops : list op) : IO (list reply) :=
  w ← CreateWispWithConfig coins config;
  '(_, answers) ← run_with w (run ops);
  mret answers.

(** Arguments in the range of their Go types, values a log record can hold, fuel for
    [entries] table entries. *)
Definition op_ok (entries : Z) (o : op) : Prop :=
  match o with
  | OInsert _ _ k v => record_ok (mkRecord (Timestamp k) (SeriesID k) false v)
  | ODelete _ _ k => key_ok k
  | OGet _ | OFlush => True
  | OScan fuel _ _ _ | OCompact fuel => entries < Z.of_nat fuel
  | OReopen _ loss | ORestart _ loss => ∀ wd, crash wd (loss wd)
  end.
End run.

(** ** Refinement *)
Section refine.
Context `{Snappy, Hash128} (config : WispConfig) (wpath : path) (wmax : Z) (base : path) (N : Z).
Context (HN : N < 2^28) (Hfilters : Writer.filters_ok N) (Hmax : Wal.segment_size wmax ≤ 2^62) (Hsep : separate wpath wmax base).
Context (Hopens : opens wpath wmax base config).

(** The engine holds the map [kv] and has room for [n] more calls. *)
Definition tracks (w : Wisp) (wd : world) (kv : store) (n : Z) : Prop := ∃ rs frozen tabs,
  engine wpath wmax base w wd rs frozen tabs ∧ room N w rs (default [] frozen) tabs n (2 * n) (2 * n) (2 * n) ∧
  ∀ k, kv !! k = live (lookup_view rs (default [] frozen) tabs k).

Lemma agrees_answer b : agrees (live b) (answer b).
Proof. destruct b as [[v []]|]; cbn; auto. Qed.

Lemma tracks_write w wd kv n pooled coins r err :
  tracks w wd kv n → record_ok r → 1 ≤ n →
  ∃ w' wd', write_op pooled coins r err (w, wd) = (Ok (), (w', wd')) ∧
    tracks w' wd' (match live (Some (Memtable.write_binding (record_write r))) with
                   | Some v => <[Memtable.write_key (record_write r) := v]> kv
                   | None => delete (Memtable.write_key (record_write r)) kv end) (n - 1).
Proof.
  intros (rs & frozen & tabs & He & Hr & Hkv) Hrec Hn.
  destruct (write_op_ok wpath wmax base N HN Hfilters Hsep w wd rs frozen tabs pooled coins r err _ _ _ _ He Hr Hrec)
    as (w' & wd' & rs' & tabs' & Hrun & He' & Hr' & Hv); [lia..|].
  exists w', wd'. split; [exact Hrun|]. exists rs', None, tabs'. split; [exact He'|]. split; [eapply room_weaken; [exact Hr'|lia..]|].
  intros k. change (default [] None) with (@nil WALRecord). rewrite Hv. destruct (decide _) as [<-|Hne].
  - destruct (live _); [by rewrite lookup_insert_eq|by rewrite lookup_delete_eq].
  - destruct (live (Some _)); [by rewrite lookup_insert_ne|by rewrite lookup_delete_ne].
Qed.

Lemma tracks_Get w wd kv n k :
  tracks w wd kv n → 0 ≤ n →
  ∃ a w', Get (SeriesID k) (Timestamp k) (w, wd) = (Ok a, (w', wd)) ∧ agrees (kv !! k) a ∧ tracks w' wd kv n.
Proof.
  intros (rs & frozen & tabs & He & Hr & Hkv) Hn.
  destruct (Get_ok wpath wmax base N w wd rs frozen tabs (SeriesID k) (Timestamp k) _ _ _ _ He Hr) as (w' & Hrun & He' & Hr'); [lia|].
  rewrite Memtable.key_eta in Hrun. eexists _, w'. split; [exact Hrun|]. split; [rewrite Hkv; apply agrees_answer|].
  by exists rs, frozen, tabs.
Qed.

Lemma tracks_Flush w wd kv n :
  tracks w wd kv n → 1 ≤ n → ∃ w' wd', Flush (w, wd) = (Ok (), (w', wd')) ∧ tracks w' wd' kv (n - 1).
Proof.
  intros (rs & frozen & tabs & He & Hr & Hkv) Hn.
  destruct (Flush_ok wpath wmax base N HN Hfilters Hsep w wd rs frozen tabs _ _ _ _ He Hr)
    as (w' & wd' & rs' & tabs' & Hrun & He' & Hr' & Hv & _); [lia..|].
  exists w', wd'. split; [exact Hrun|]. exists rs', None, tabs'. split; [exact He'|]. split; [eapply room_weaken; [exact Hr'|lia..]|].
  intros k. change (default [] None) with (@nil WALRecord). by rewrite Hkv, (Hv k).
Qed.

Lemma tracks_Compact fuel w wd kv n :
  tracks w wd kv n → 1 ≤ n → N < Z.of_nat fuel → ∃ w' wd', Compact fuel (w, wd) = (Ok (), (w', wd')) ∧ tracks w' wd' kv (n - 1).
Proof.
  intros (rs & frozen & tabs & He & Hr & Hkv) Hn Hfuel. assert (total tabs < fuel)%nat as Hf.
  { pose proof (ro_entries _ _ _ _ _ _ _ _ _ Hr). pose proof (zlen_nonneg rs). pose proof (zlen_nonneg (default [] frozen)). lia. }
  destruct (Compact_ok wpath wmax base N HN Hfilters Hsep fuel w wd rs frozen tabs _ _ _ _ He Hr)
    as (w' & wd' & tabs' & Hrun & He' & Hr' & Hv & _); [lia..|done|].
  exists w', wd'. split; [exact Hrun|]. exists rs, frozen, tabs'. split; [exact He'|]. split; [eapply room_weaken; [exact Hr'|lia..]|].
  intros k. by rewrite Hkv, Hv.
Qed.

Lemma tracks_restart coins loss w wd kv n :
  tracks w wd kv n → 0 ≤ n → (∀ wd, crash wd (loss wd)) →
  ∃ w' wd', restart config coins loss (w, wd) = (Ok (), (w', wd')) ∧ tracks w' wd' kv n.
Proof.
  intros (rs & frozen & tabs & He & Hr & Hkv) Hn Hloss.
  destruct (restart_ok wpath wmax base N HN Hmax Hsep coins config w wd (loss wd) rs frozen tabs _ _ _ _ Hopens He Hr)
    as (w' & wd' & rs' & Hrun & He' & Hr' & Hv); [lia|done|].
  exists w', wd'. split; [unfold restart; by rewrite Hrun|]. exists rs', None, tabs. split; [exact He'|]. split; [exact Hr'|].
  intros k. change (default [] None) with (@nil WALRecord). by rewrite Hkv, (Hv k).
Qed.

Lemma scan_of_ext view view' sid start stop out :
  (∀ k, view k = view' k) → scan_of view sid start stop out → scan_of view' sid start stop out.
Proof. intros Hv [Hs Hout]. split; [done|]. intros k v. by rewrite Hout, Hv. Qed.

Lemma tracks_scan fuel sid start stop w wd kv n :
  tracks w wd kv n → 1 ≤ n → N < Z.of_nat fuel →
  ∃ out w' wd', scan_all fuel sid start stop (w, wd) = (Ok out, (w', wd')) ∧ scan_of (λ k, kv !! k) sid start stop out ∧ tracks w' wd' kv (n - 1).
Proof.
  intros (rs & frozen & tabs & He & Hr & Hkv) Hn Hfuel.
  destruct (scan_all_ok wpath wmax base N HN Hfilters Hsep fuel sid start stop w wd rs frozen tabs _ _ _ _ He Hr)
    as (w' & wd' & frozen' & tabs' & out & Hrun & He' & Hr' & Hv & Hout); [lia..|].
  exists out, w', wd'. split; [exact Hrun|]. split; [by eapply scan_of_ext; [|exact Hout]|].
  exists [], frozen', tabs'. split; [exact He'|]. split; [eapply room_weaken; [exact Hr'|lia..]|]. intros k. by rewrite Hkv, (Hv k).
Qed.

Lemma tracks_reopen coins loss w wd kv n :
  tracks w wd kv n → 1 ≤ n → (∀ wd, crash wd (loss wd)) →
  ∃ w' wd', (Close;; restart config coins loss) (w, wd) = (Ok (), (w', wd')) ∧ tracks w' wd' kv (n - 1).
Proof.
  intros (rs & frozen & tabs & He & Hr & Hkv) Hn Hloss.
  destruct (Close_ok wpath wmax base N HN Hfilters Hsep w wd rs frozen tabs _ _ _ _ He Hr)
    as (w0 & w1 & wd1 & rs1 & tabs1 & Hrun & _ & He1 & Hr1 & Hv); [lia..|].
  destruct (tracks_restart coins loss w1 wd1 kv (n - 1)) as (w' & wd' & Hre & Ht); [|lia|done|].
  { exists rs1, None, tabs1. split; [exact He1|]. split; [eapply room_weaken; [exact Hr1|lia..]|].
    intros k. change (default [] None) with (@nil WALRecord). by rewrite Hkv, (Hv k). }
  exists w', wd'. split; [|done]. erewrite bind_Ok by exact Hrun. unfold restart in Hre |- *. by destruct (CreateWispWithConfig _ _ _) as [[]].
Qed.

Lemma tracks_run ops w wd kv n :
  tracks w wd kv n → Forall (op_ok N) ops → zlen ops ≤ n →
  ∃ answers s', run config ops (w, wd) = (Ok answers, s') ∧ spec_run ops kv answers.
Proof.
  revert w wd kv n. induction ops as [|o ops IH]; intros w wd kv n Ht Hok Hn; [by eexists [], _|].
  apply Forall_cons in Hok as [Ho Hok]. rewrite zlen_cons in Hn. pose proof (zlen_nonneg ops) as Hl.
  assert (∀ w' wd' kv' m, tracks w' wd' kv' m → n - 1 ≤ m →
    ∃ answers s', run config ops (w', wd') = (Ok answers, s') ∧ spec_run ops kv' answers) as Hrest.
  { intros w' wd' kv' m Ht' Hm. apply (IH w' wd' kv' m); [done|done|lia]. }
  destruct o as [pooled coins k v|pooled coins k|k|fuel sid start stop| |fuel|coins loss|coins loss]; cbn [run spec_run spec_op].
  - destruct (tracks_write w wd kv n pooled coins (mkRecord (Timestamp k) (SeriesID k) false v) ErrPut Ht Ho ltac:(lia)) as (w' & wd' & Hrun & Ht').
    erewrite bind_Ok by (rewrite Insert_write_op; exact Hrun). unfold record_write in Ht'. cbn in Ht'. rewrite Memtable.key_eta in Ht'.
    by eapply Hrest.
  - destruct (tracks_write w wd kv n pooled coins (mkRecord (Timestamp k) (SeriesID k) true []) ErrDelete Ht) as (w' & wd' & Hrun & Ht').
    { destruct Ho as [Hs Hts]. split_and!; [done|done|by vm_compute]. }
    { lia. }
    erewrite bind_Ok by (rewrite Delete_write_op; exact Hrun). unfold record_write in Ht'. cbn in Ht'. rewrite Memtable.key_eta in Ht'.
    by eapply Hrest.
  - destruct (tracks_Get w wd kv n k Ht ltac:(lia)) as (a & w' & Hrun & Ha & Ht'). erewrite bind_Ok by exact Hrun.
    destruct (Hrest w' wd kv n Ht' ltac:(lia)) as (answers & s' & Hrun' & Hspec). erewrite bind_Ok by exact Hrun'.
    by exists (RGet a :: answers), s'.
  - destruct (tracks_scan fuel sid start stop w wd kv n Ht ltac:(lia) Ho) as (out & w' & wd' & Hrun & Hout & Ht'). erewrite bind_Ok by exact Hrun.
    destruct (Hrest w' wd' kv _ Ht' ltac:(lia)) as (answers & s' & Hrun' & Hspec). erewrite bind_Ok by exact Hrun'.
    by exists (RScan out :: answers), s'.
  - destruct (tracks_Flush w wd kv n Ht ltac:(lia)) as (w' & wd' & Hrun & Ht'). erewrite bind_Ok by exact Hrun. by eapply Hrest.
  - destruct (tracks_Compact fuel w wd kv n Ht ltac:(lia) Ho) as (w' & wd' & Hrun & Ht'). erewrite bind_Ok by exact Hrun. by eapply Hrest.
  - destruct (tracks_reopen coins loss w wd kv n Ht ltac:(lia) Ho) as (w' & wd' & Hrun & Ht'). rewrite <-bind_assoc.
    erewrite bind_Ok by exact Hrun. by eapply Hrest.
  - destruct (tracks_restart coins loss w wd kv n Ht ltac:(lia) Ho) as (w' & wd' & Hrun & Ht'). erewrite bind_Ok by exact Hrun.
    eapply Hrest; [exact Ht'|lia].
Qed.
End refine.

(** ** Claims *)
Section claims.
Context `{Snappy, Hash128}.

(** C1: a [Wisp] is a map. Open it on a directory without a log and without tables of its
    names and make any calls of [Insert], [Delete], [Get], [Scan], [Flush], [Compact] and
    [Close], with restarts after a [Close] or a crash anywhere between two of them, which
    lose any unsynced bytes: every call returns without an error; every [Get] gives the
    value last written for the key, however the key moved between memtables, log and
    tables, and none if the key was deleted or never written; every scan gives exactly the
    live keys of its series in its range, in ascending order, with those values. The number of calls is below 2^28, and bounds the size
    of a bloom filter that can be allocated. *)
Theorem engine_refines_map config wpath wmax base coins ops wd :
  opens wpath wmax base config → separate wpath wmax base → Wal.segment_size wmax ≤ 2^62 →
  quiet wd → Wal.wal_files (Wal.new_wal wpath wmax) wd [] → files wd !! wpath = None → pdir base ∈ dirs wd →
  (∀ q, in_tables base q → files wd !! q = None) →
  zlen ops < 2^28 → Writer.filters_ok (zlen ops) → Forall (op_ok (zlen ops)) ops →
  ∃ answers wd', session config coins ops wd = (Ok answers, wd') ∧ spec_run ops ∅ answers.
Proof.
  intros Hopens Hsep Hmax Hq Hwf Hn Hdir Htab Hlen Hfil Hops. pose proof (zlen_nonneg ops) as Hl. set (N := zlen ops) in *.
  destruct (create_fresh_ok wpath wmax base N ltac:(lia) Hmax Hsep coins config wd N (2 * N) (2 * N) (2 * N) Hopens Hq Hwf Hn Hdir Htab)
    as (w & wd1 & Hrun & He & Hr); [lia..|].
  destruct (tracks_run config wpath wmax base N Hlen Hfil Hmax Hsep Hopens ops w wd1 ∅ N) as (answers & [w' wd'] & Hrun' & Hspec); [|done|lia|].
  { exists [], None, []. split; [exact He|]. split; [exact Hr|]. intros k. by rewrite lookup_empty. }
  exists answers, wd'. split; [|done]. unfold session. erewrite bind_Ok by exact Hrun. unfold run_with, mbind, M_bind. by rewrite Hrun'.
Qed.
End claims.

(** ** The claims at the default configuration *)
Definition demo_home : world := mkWorld {[ [x2e] ]} ∅ [].
Definition demo_key (t : Z) : Key := mkKey 7 t.
Definition no_coins : nat → list bool := λ _, [].

(** Writes on both sides of a flush, a deletion, a compaction, and a crash at the end. *)
Definition demo_ops : list op :=
  [OInsert [] [true] (demo_key 1) [x61]; OFlush; OInsert [x01] [] (demo_key 2) [x62]; ODelete [] [] (demo_key 1);
   OFlush; OCompact 20; OInsert [] [] (demo_key 3) []; ORestart no_coins lose_unsynced; OGet (demo_key 2);
   OScan 100 7 2 3; OReopen no_coins lose_unsynced].

Lemma default_separate : separate defaultWALPath Wal.DefaultMaxSegmentSize defaultSSTablePath.
Proof.
  intros [d name] [_ [id Hlog]] [_ [g Htab]]. cbn [pbase] in *.
  assert (∀ pre e i, gen_of_name pre e name = Some i → (pre ++ [x5f]) `prefix_of` name) as Hpre.
  { intros pre e i Hi. unfold gen_of_name in Hi. destruct (HasPrefix name (pre ++ [x5f])) eqn:E; [|done]. by apply bool_decide_eq_true in E. }
  apply Hpre in Hlog as [r1 ->], Htab as [r2 Htab]. cbv in Htab. discriminate.
Qed.

Lemma demo_home_log : Wal.wal_files (Wal.new_wal defaultWALPath Wal.DefaultMaxSegmentSize) demo_home [].
Proof. split; [set_solver|constructor|constructor|set_solver|done]. Qed.

Lemma small_filters n : n ≤ 20 → Writer.filters_ok n.
Proof.
  intros Hn m Hm. assert (m ∈ (Z.of_nat <$> seq 0 21)) as Hin.
  { apply list_elem_of_fmap. exists (Z.to_nat m). split; [lia|]. apply elem_of_seq. lia. }
  assert (Forall (λ m, Bloom.bloom_bits m F64.one_percent ≤ 2^50) (Z.of_nat <$> seq 0 21)) as Hall by by_decide.
  rewrite Forall_forall in Hall. auto.
Qed.

Lemma engine_refines_map_witness :
  ∃ answers wd', @session stored toy_hash DefaultWispConfig no_coins demo_ops demo_home = (Ok answers, wd') ∧ spec_run demo_ops ∅ answers.
Proof.
  apply (@engine_refines_map stored toy_hash DefaultWispConfig defaultWALPath Wal.DefaultMaxSegmentSize defaultSSTablePath no_coins demo_ops demo_home).
  - by split_and!.
  - exact default_separate.
  - by vm_compute.
  - done.
  - exact demo_home_log.
  - done.
  - set_solver.
  - done.
  - by vm_compute.
  - by apply small_filters.
  - unfold demo_ops. repeat (apply Forall_cons; split; [first [exact lose_unsynced_crash | by vm_compute]|]). by apply Forall_nil.
Defined.
