(* ===== verification/Waits.v ===== *)
(** * The waiting loops of the engine end (wisp.go)

    [prepareMutableMemTableLocked] and [snapshotForScan] loop until a flush has landed: how
    many rounds they can take, from any state and whatever their calls return. *)
From Stdlib Require Import ZArith Lia Strings.Byte.
From stdpp Require Import base list gmap relations.
From S2P Require Import Prelude Monad Fs Block Bloom Reader Engine EngineFrame EngineInv EngineSpec.
From S2P Require Memtable Wal SSTableList.
Import Memtable (MemTable).

(** ** What a flush and a freeze leave *)

(** The memtables and the pointers to them stay, but a frozen one may be dropped. *)
Definition drops (w w' : Wisp) : Prop :=
  threshold w' = threshold w ∧ mems w' = mems w ∧ mutableMemTable w' = mutableMemTable w ∧
  (immutableMemTable w' = immutableMemTable w ∨ immutableMemTable w' = None).

#[global] Instance drops_preorder : PreOrder drops.
Proof.
  split; [intros w; split_and!; try done; by left|]. intros w1 w2 w3 (H1 & H2 & H3 & H4) (H5 & H6 & H7 & H8). split_and!; [congruence..|].
  destruct H8 as [->| ->]; [done|by right].
Qed.

Ltac dropped := intros; split_and!; [done..|first [by left|by right]].
Ltac dropping := within_steps fail dropped.

Section waits.
Context `{Snappy, Hash128}.

Lemma drops_write_memtable path m : within drops (write_memtable path m).
Proof. unfold write_memtable. dropping. Qed.
#[local] Hint Resolve drops_write_memtable : within.

Lemma drops_flush imm : within drops (flushImmutable imm).
Proof. unfold flushImmutable. dropping. Qed.

(** Steps of a program that do not matter to what it ends in without an error. *)
Lemma wp_forget {A B} (m : E A) (f : A → E B) (Q : B → Wisp * world → Prop) s :
  (∀ a s', wp (f a) (λ r s', ∀ b, r = Ok b → Q b s') s') → wp (m ≫= f) (λ r s', ∀ b, r = Ok b → Q b s') s.
Proof. intros Hf. apply wp_bind, wp_intro. intros [a|e|p|] s' _; [apply Hf|done..]. Qed.

(** After a flush without an error its memtable is no longer waiting. *)
Lemma flush_clears imm s s' : flushImmutable imm s = (Ok (), s') → immutableMemTable s'.1 ≠ Some imm.
Proof.
  intros Hrun. assert (wp (flushImmutable imm) (λ r s', ∀ b, r = Ok b → immutableMemTable s'.1 ≠ Some imm) s) as Hwp;
    [|exact (wp_run _ _ _ _ _ Hwp Hrun () eq_refl)]. clear Hrun s'. destruct s as [w0 wd0].
  unfold flushImmutable. do 2 wstep. cbv zeta. case_decide as Hd; [|wsteps; by intros].
  do 4 (apply wp_forget; intros ? ?). match goal with |- context [match ?r with _ => _ end] => destruct r end; [|apply wp_forget; intros; wsteps; by intros].
  do 3 (apply wp_forget; intros ? [? ?]). do 3 wstep.
  assert (∀ w wd, immutableMemTable w ≠ Some imm → wp (w ← get_fst;
    match wal w with
    | Some _ => if 0 <? immutableWALSegment w0 then on_wal (Wal.RemoveSegmentsUpTo (immutableWALSegment w0)) else mret ()
    | None => mret ()
    end) (λ r s', ∀ b, r = Ok b → immutableMemTable s'.1 ≠ Some imm) (w, wd)) as Htail.
  { intros wt wdt Hw. eapply wp_mono; [refine ((_ : within drops _) _); dropping|].
    intros r1 s1 (_ & _ & _ & Hi) _ _. by destruct Hi as [->| ->]. }
  case_decide; wstep; by apply Htail.
Qed.

(** A freeze without an error leaves a fresh memtable for the writes. *)
Lemma freeze_fresh s s' :
  freezeMutableLocked s = (Ok (), s') →
  mems s'.1 !! mutableMemTable s'.1 = Some (Memtable.CreateMemTableWithThreshold (threshold s.1)) ∧ threshold s'.1 = threshold s.1.
Proof.
  intros Hrun. assert (wp freezeMutableLocked (λ r s', ∀ b, r = Ok b →
    mems s'.1 !! mutableMemTable s'.1 = Some (Memtable.CreateMemTableWithThreshold (threshold s.1)) ∧ threshold s'.1 = threshold s.1) s) as Hwp;
    [|exact (wp_run _ _ _ _ _ Hwp Hrun () eq_refl)]. clear Hrun s'. destruct s as [w wd].
  unfold freezeMutableLocked, get_mem, put_mem. wsteps. destruct (mems w !! mutableMemTable w) as [m|]; [|wsteps; by intros].
  do 6 wstep. unfold wp at 1, on_wal. cbn [wal set_immutable set_mems]. destruct (wal w) as [x|]; [|by intros].
  destruct (Wal.Rotate (x, wd)) as [[k|e|p|] [x' wd']]; try by intros. wsteps. intros _ _. cbn. split; [|done].
  by rewrite lookup_app_r, Nat.sub_diag by lia.
Qed.

(** ** The rounds of the loops *)

(** One round of [for w.mutableMemTable.IsFull()]. *)
Definition prepare_body : E unit :=
  w ← get_fst;
  match immutableMemTable w with
  | Some imm => flushImmutable imm
  | None => freezeMutableLocked
  end.
Definition prepare_round (s s' : Wisp * world) : Prop := full s.1 = true ∧ prepare_body s = (Ok (), s').

(** One round of the wait of a scan. *)
Definition wait_round (s s' : Wisp * world) : Prop :=
  (∃ m, mems s.1 !! mutableMemTable s.1 = Some m ∧ 0 < Memtable.Size m) ∧
  ∃ imm, immutableMemTable s.1 = Some imm ∧ flushImmutable imm s = (Ok (), s').

Lemma prepare_loop_rounds fuel s s' : prepare_round s s' → prepare_loop (S fuel) s = prepare_loop fuel s'.
Proof.
  destruct s as [w wd]. unfold prepare_round, full, prepare_body. cbn [fst]. intros [Hf Hb].
  destruct (mems w !! mutableMemTable w) as [m|] eqn:Em; [|done]. rewrite (prepare_loop_S _ _ _ _ Em), Hf. by erewrite bind_Ok by exact Hb.
Qed.

Lemma wait_loop_rounds fuel s s' : wait_round s s' → snapshot_loop (S fuel) s = snapshot_loop fuel s'.
Proof.
  destruct s as [w wd]. intros [(m & Hm & Hs) (imm & Hi & Hb)]. cbn [fst] in *. cbn [snapshot_loop].
  erewrite bind_Ok by reflexivity. erewrite bind_Ok by (apply get_mem_run; exact Hm). rewrite Hi, (proj2 (Z.ltb_lt _ _) Hs).
  by erewrite bind_Ok by exact Hb.
Qed.

(** A flush that lands leaves nothing waiting. *)
Lemma flush_lands imm w wd s' :
  immutableMemTable w = Some imm → flushImmutable imm (w, wd) = (Ok (), s') → immutableMemTable s'.1 = None ∧ threshold s'.1 = threshold w.
Proof.
  intros Hi Hrun. pose proof (within_run drops _ _ _ _ (drops_flush imm) Hrun) as (Ht & _ & _ & Hd). pose proof (flush_clears _ _ _ Hrun) as Hne.
  cbn [fst] in *. split; [|done]. destruct Hd as [Hd|Hd]; [congruence|done].
Qed.

Lemma frozen_round s s' : 0 < threshold s.1 → immutableMemTable s.1 = None → prepare_round s s' → full s'.1 = false.
Proof.
  destruct s as [w wd]. cbn [fst]. intros Ht Hi [_ Hb]. unfold prepare_body in Hb. rewrite (bind_Ok _ _ _ w (w, wd)), Hi in Hb by done.
  destruct (freeze_fresh _ _ Hb) as [Hm _]. unfold full. rewrite Hm. by apply fresh_not_full.
Qed.

End waits.

(** An engine with the smallest threshold, full after one write: one round freezes it. *)
Definition tiny_config : WispConfig := mkConfig None None 0 1 0 None.
Definition tiny_created := @CreateWispWithConfig stored toy_hash no_coins tiny_config demo_home.
Definition tiny_blank : Wisp := mkWisp defaultSSTablePath 0 0 None [] 0 None 0 None empty_list.
Definition tiny_full : Wisp * world := (@Insert stored toy_hash [] [] 7 1 [x61] (result tiny_blank tiny_created, tiny_created.2)).2.
Definition tiny_frozen : Wisp * world := (@prepare_body stored toy_hash tiny_full).2.

