(* ===== verification/Snapshot.v ===== *)
(** * Scans under concurrent calls (wisp.go)

    The calls of an engine as steps of a state machine, in any order and with any failure,
    and what no call ever changes: a memtable once frozen. A scan that runs between such
    calls returns what it would have returned alone. *)
From Stdlib Require Import ZArith Lia Strings.Byte.
From stdpp Require Import base list gmap sorting relations.
From S2P Require Import Prelude Key Monad Fs WalCodec Block Bloom Reader TableIter Heap Engine EngineMem EngineFrame Scan EngineSpec.
From S2P Require Skiplist Memtable Wal Writer SSTableList Compactor.
Import Memtable (MemTable).

(** ** Frozen memtables *)

(** The memtable being flushed is frozen. *)
Definition frozen_ok (w : Wisp) : Prop :=
  ∀ p, immutableMemTable w = Some p → ∃ m, mems w !! p = Some m ∧ Memtable.mutable m = false.

Record advances (w w' : Wisp) : Prop := {
  ev_frozen : ∀ p m, mems w !! p = Some m → Memtable.mutable m = false → mems w' !! p = Some m;
  ev_ok : frozen_ok w → frozen_ok w'
}.

#[global] Instance advances_preorder : PreOrder advances.
Proof.
  split; [by split|]. intros w1 w2 w3 [H1 H2] [H3 H4]. split; [|by auto]. intros p m Hm Hf. apply H3; [|done]. by apply H1.
Qed.

(** The same memtables, or none being flushed. *)
Lemma advances_same w w' : mems w' = mems w → (immutableMemTable w' = immutableMemTable w ∨ immutableMemTable w' = None) → advances w w'.
Proof.
  intros Em Ei. split; [by rewrite Em|]. intros Hok p Hp. rewrite Em. apply Hok. destruct Ei as [<-|Ei]; [done|congruence].
Qed.

(** ** Computations that keep them *)
Abbreviation calm := (within advances).

(** Writing a memtable back: a frozen one comes back unchanged. *)
Lemma calm_update {A B} p (f : MemTable → outcome (MemTable * A)) (k : A → E B) :
  (∀ m m' a, f m = Ok (m', a) → Memtable.mutable m = false → m' = m) → (∀ a, calm (k a)) →
  calm (m ← get_mem p; '(m', a) ← lift (f m); put_mem p m';; k a).
Proof.
  intros Hf Hk [w wd]. apply wp_bind. unfold get_mem. do 2 wstep. destruct (mems w !! p) as [m|] eqn:Em; [|wsteps; reflexivity].
  do 3 wstep. destruct (f m) as [[m' a]|e|pn|] eqn:Efm; try reflexivity.
  unfold put_mem. do 2 wstep. eapply wp_mono; [apply Hk|]. intros r s' Hev. refine (PreOrder_Transitive _ _ _ _ Hev). cbn [fst].
  assert (∀ q n, mems w !! q = Some n → Memtable.mutable n = false → <[p:=m']> (mems w) !! q = Some n) as Hkeep.
  { intros q n Hq Hn. destruct (decide (q = p)) as [->|Hne]; [|by rewrite list_lookup_insert_ne].
    simplify_eq. rewrite (Hf _ _ _ Efm Hn). by eapply list_lookup_insert_eq, lookup_lt_Some. }
  split; [exact Hkeep|]. intros Hok q Hq. destruct (Hok q Hq) as (n & Hn & Hfz). exists n. split; [by apply Hkeep|done].
Qed.

Ltac calms := within_steps ltac:(apply calm_update; [try solve [eauto with within]|intros ?]) ltac:(intros; apply advances_same; [done|first [by left | by right]]).

Lemma Put_frozen coins sid ts v m m' b : Memtable.Put m coins sid ts v = Ok (m', b) → Memtable.mutable m = false → m' = m.
Proof. unfold Memtable.Put. intros H Hm. rewrite Hm in H. by injection H. Qed.

Lemma Delete_frozen coins sid ts m m' b : Memtable.Delete m coins sid ts = Ok (m', b) → Memtable.mutable m = false → m' = m.
Proof. unfold Memtable.Delete. intros H Hm. rewrite Hm in H. by injection H. Qed.

#[local] Hint Resolve Put_frozen Delete_frozen : within.

Section calls.
Context `{Snappy, Hash128}.

(** The pointer being flushed is the one just frozen. *)
Lemma calm_freeze : calm freezeMutableLocked.
Proof.
  intros [w wd]. unfold freezeMutableLocked, get_mem. wsteps. destruct (mems w !! mutableMemTable w) as [m|] eqn:Em; [|wsteps; reflexivity].
  unfold put_mem. do 6 wstep. set (ms := <[mutableMemTable w := Memtable.Freeze m]> (mems w)).
  assert (∀ p n, mems w !! p = Some n → Memtable.mutable n = false → ms !! p = Some n) as Hkeep.
  { intros p n Hp Hn. unfold ms. destruct (decide (p = mutableMemTable w)) as [->|Hne]; [|by rewrite list_lookup_insert_ne].
    rewrite list_lookup_insert_eq by by eapply lookup_lt_Some. rewrite Em in Hp. injection Hp as ->. f_equal.
    unfold Memtable.Freeze. rewrite <-Hn. by destruct n. }
  set (w1 := set_immutable (Some (mutableMemTable w)) (set_mems ms w)).
  assert (advances w w1) as H1.
  { split; [exact Hkeep|]. intros _ p [= <-]. exists (Memtable.Freeze m). split; [|done].
    by eapply list_lookup_insert_eq, lookup_lt_Some. }
  eapply wp_mono; [apply (within_on_wal advances Wal.Rotate ltac:(intros; apply advances_same; [done|by left]) (w1, wd))|]. intros r [w2 wd2] H2. cbn [fst] in *.
  destruct r as [sealed|e|p|]; cbv beta iota; [|by trans w1..]. wsteps. cbn [fst]. trans w1; [exact H1|]. trans w2; [exact H2|].
  split; [|intros Hok p Hp; destruct (Hok p Hp) as (n & Hn & Hf); exists n; split; [|done]]; cbn [mems set_mutable set_mems set_segment].
  - intros p n Hp _. by rewrite lookup_app_l by by eapply lookup_lt_Some.
  - by rewrite lookup_app_l by by eapply lookup_lt_Some.
Qed.

Lemma calm_write_memtable path m : calm (write_memtable path m).
Proof. unfold write_memtable. calms. Qed.
#[local] Hint Resolve calm_freeze calm_write_memtable : within.

Lemma calm_flushImmutable imm : calm (flushImmutable imm).
Proof. unfold flushImmutable. calms. Qed.
#[local] Hint Resolve calm_flushImmutable : within.

Lemma calm_prepare fuel : calm (prepare_loop fuel).
Proof. induction fuel as [|fuel IH]; cbn [prepare_loop]; calms. Qed.

Lemma calm_flush_pending : calm flush_pending.
Proof. unfold flush_pending. calms. Qed.
#[local] Hint Resolve calm_prepare calm_flush_pending : within.

Lemma calm_Insert pooled coins sid ts v : calm (Insert pooled coins sid ts v).
Proof. unfold Insert, prepareMutableMemTableLocked. calms. Qed.

Lemma calm_Delete pooled coins sid ts : calm (Delete pooled coins sid ts).
Proof. unfold Delete, prepareMutableMemTableLocked. calms. Qed.

Lemma calm_Get sid ts : calm (Get sid ts).
Proof. unfold Get. calms. Qed.

Lemma calm_Compact fuel : calm (Compact fuel).
Proof. unfold Compact. calms. Qed.

Lemma calm_Flush : calm Flush.
Proof. unfold Flush. calms. Qed.
#[local] Hint Resolve calm_Flush : within.

Lemma calm_Close : calm Close.
Proof. unfold Close. calms. Qed.

Lemma calm_snapshot fuel : calm (snapshot_loop fuel).
Proof. induction fuel as [|fuel IH]; cbn [snapshot_loop]; calms. Qed.
#[local] Hint Resolve calm_snapshot : within.

Lemma calm_snapshotForScan : calm snapshotForScan.
Proof. unfold snapshotForScan. calms. Qed.
#[local] Hint Resolve calm_snapshotForScan : within.

Lemma calm_Scan sid start stop : calm (Scan sid start stop).
Proof. unfold Scan. calms. Qed.

Lemma calm_recover coins i records : calm (recover_loop coins i records).
Proof.
  revert i. induction records as [|r records IH]; intros i; cbn [recover_loop]; calms. intros ? ? ?. destruct (rDeleted r); eauto with within.
Qed.

(** ** The engine as a state machine

    A step is a call of any client, whole, with whatever outcome, or a change of the
    directory by someone else or by a change of luck. *)
Inductive engine_step : Wisp * world → Wisp * world → Prop :=
  | step_Insert pooled coins sid ts v s r s' : Insert pooled coins sid ts v s = (r, s') → engine_step s s'
  | step_Delete pooled coins sid ts s r s' : Delete pooled coins sid ts s = (r, s') → engine_step s s'
  | step_Get sid ts s r s' : Get sid ts s = (r, s') → engine_step s s'
  | step_Flush s r s' : Flush s = (r, s') → engine_step s s'
  | step_Compact fuel s r s' : Compact fuel s = (r, s') → engine_step s s'
  | step_Scan sid start stop s r s' : Scan sid start stop s = (r, s') → engine_step s s'
  | step_ScanClose it s r s' : ScanClose it s = (r, s') → engine_step s s'
  | step_Close s r s' : Close s = (r, s') → engine_step s s'
  | step_world w wd wd' : engine_step (w, wd) (w, wd').

Lemma step_advances s s' : engine_step s s' → advances s.1 s'.1.
Proof.
  destruct 1 as [pooled coins sid ts v s r s' Hr|pooled coins sid ts s r s' Hr|sid ts s r s' Hr|s r s' Hr|fuel s r s' Hr|sid start stop s r s' Hr|it s r s' Hr|s r s' Hr|w wd wd'].
  9: reflexivity. all: refine (within_run advances _ _ _ _ _ Hr).
  - apply calm_Insert. - apply calm_Delete. - apply calm_Get. - apply calm_Flush. - apply calm_Compact. - apply calm_Scan.
  - apply within_on_list. intros; apply advances_same; [done|by left].
  - apply calm_Close.
Qed.

Lemma steps_advance s s' : rtc engine_step s s' → advances s.1 s'.1.
Proof. induction 1 as [|s1 s2 s3 Hs _ IH]; [reflexivity|]. trans s2.1; [by apply step_advances|done]. Qed.
End calls.

(** ** What an iterator reads *)
Section isolation.
Context `{Snappy, Hash128}.

(** [ms'] has the frozen memtables of [ms]. *)
Definition keeps_frozen (ms ms' : list MemTable) : Prop :=
  ∀ p m, ms !! p = Some m → Memtable.mutable m = false → ms' !! p = Some m.

(** The iterator of an item is that of a frozen memtable, or of a table, whose reader is
    open while the scan holds the table. *)
Definition reads_frozen (ms : list MemTable) (i : scanHeapItem) : Prop :=
  match sIterator i with MemIter p _ => ∃ m, ms !! p = Some m ∧ Memtable.mutable m = false | TblIter _ => True end.

Lemma scan_pop_stable ms ms' h :
  keeps_frozen ms ms' → Forall (reads_frozen ms) h →
  scan_pop ms' h = scan_pop ms h ∧ ∀ item h', scan_pop ms h = Ok (item, h') → Forall (reads_frozen ms) h'.
Proof.
  intros Hk Hh. unfold scan_pop. destruct (Pop Less h) as [[x h1]|e|p|] eqn:Epop; [|done..]. cbn [mbind outcome_bind].
  destruct (Pop_elements _ _ _ _ _ Hh Epop) as [Hx Hh1]. unfold reads_frozen in Hx.
  assert (∀ k v d g i c h2 item h', reads_frozen ms (mkScanItem k v d g i c) → Push Less h1 (mkScanItem k v d g i c) = Ok h2 →
    Ok (x, h2) = Ok (item, h') → Forall (reads_frozen ms) h') as Hpush.
  { intros k v d g i c h2 item h' Hc Hp Heq. injection Heq as <- <-. by eapply Push_elements; [exact Hh1|exact Hc|exact Hp]. }
  destruct (sourceIdx x =? 0), (sIterator x) as [p it|it]; try done.
  - destruct Hx as (m & Hm & Hf). rewrite Hm, (Hk _ _ Hm Hf). split; [done|]. intros item h'. cbn [mbind outcome_bind].
    intros (it' & _ & Hr)%outcome_bind_Ok. destruct (Memtable.Valid it'); [|by simplify_eq].
    apply outcome_bind_Ok in Hr as ([[k v] d] & _ & (h2 & Hp & Hr)%outcome_bind_Ok).
    eapply Hpush; [|exact Hp|exact Hr]. by exists m.
  - split; [done|]. intros item h'. intros ([[] it'] & _ & Hr)%outcome_bind_Ok; [|by simplify_eq].
    apply outcome_bind_Ok in Hr as (k & _ & (e & _ & (h2 & Hp & Hr)%outcome_bind_Ok)%outcome_bind_Ok).
    by eapply Hpush; [|exact Hp|exact Hr].
Qed.

Lemma next_loop_stable ms ms' fuel it :
  keeps_frozen ms ms' → Forall (reads_frozen ms) (heap it) →
  next_loop ms' fuel it = next_loop ms fuel it ∧ ∀ b it', next_loop ms fuel it = Ok (b, it') → Forall (reads_frozen ms) (heap it').
Proof.
  intros Hk. revert it. induction fuel as [|fuel IH]; intros it Hh; [done|]. cbn [next_loop].
  destruct (scan_pop_stable ms ms' (heap it) Hk Hh) as [-> Hp].
  destruct (heap it) as [|i h] eqn:Eh; [split; [done|]; intros b it' [= <- <-]; cbn; by rewrite Eh|].
  destruct (scan_pop ms (i :: h)) as [[item h']|e|p|]; [|done..]. specialize (Hp item h' eq_refl). cbn [mbind outcome_bind].
  repeat match goal with |- context [if ?c then _ else _] => destruct c end; try by apply IH.
  split; [done|]. by intros b it' [= <- <-].
Qed.

Lemma ScanNext_stable ms ms' fuel it :
  keeps_frozen ms ms' → Forall (reads_frozen ms) (heap it) →
  ScanNext ms' fuel it = ScanNext ms fuel it ∧ ∀ b it', ScanNext ms fuel it = Ok (b, it') → Forall (reads_frozen ms) (heap it').
Proof.
  intros Hk Hh. unfold ScanNext. pose proof (next_loop_stable ms ms' fuel it Hk Hh) as Hn.
  destruct (heap it) as [|i h] eqn:E; [|exact Hn]. split; [done|]. intros b it' [= <- <-]. cbn. by rewrite E.
Qed.

(** A new scan reads frozen memtables only. *)
Lemma snapshotForScan_frozen s : wp snapshotForScan (λ r s', ∀ imm ts, r = Ok (imm, ts) → immutableMemTable s'.1 = imm) s.
Proof.
  unfold snapshotForScan. apply wp_bind, wp_intro. intros [[]|e|p|] s1 _; try done.
  apply wp_bind, wp_intro. intros [w|e|p|] s2 _; try done. apply wp_bind, wp_intro. intros [m|e|p|] s3 _; try done.
  apply wp_bind, wp_intro. intros [[]|e|p|] [w4 wd4] _; try done. do 3 wstep. unfold wp, on_list. destruct (SSTableList.GetTables (sstables w4, wd4)) as [r [l wd]].
  destruct r as [ts|e|p|]; try done. wsteps. by intros imm ts' [= <- _].
Qed.

Lemma push_mem_reads ms imm h :
  (∀ p, imm = Some p → ∃ m, ms !! p = Some m ∧ Memtable.mutable m = false) → push_mem ms imm [] = Ok h → Forall (reads_frozen ms) h.
Proof.
  intros Himm. unfold push_mem. destruct imm as [p|]; [|intros [= <-]; constructor]. destruct (Himm p eq_refl) as (m & Hm & Hf). rewrite Hm.
  cbn [mbind outcome_bind]. intros (it & _ & Hr)%outcome_bind_Ok. destruct (Memtable.Valid it); [|injection Hr as <-; constructor].
  apply outcome_bind_Ok in Hr as ([[k v] d] & _ & Hp). eapply Push_elements; [| |exact Hp]; [constructor|by exists m].
Qed.

Lemma push_tables_reads ms idx ts h h' : Forall (reads_frozen ms) h → push_tables idx ts h = Ok h' → Forall (reads_frozen ms) h'.
Proof.
  revert idx h. induction ts as [|[g r] ts IH]; intros idx h Hh; cbn [push_tables]; [by intros [= <-]|].
  intros (h1 & H1 & Hr)%outcome_bind_Ok. eapply IH; [|exact Hr]. destruct r as [r|]; [|by injection H1 as <-].
  apply outcome_bind_Ok in H1 as (it & _ & H1). destruct (Valid it); [|by injection H1 as <-].
  apply outcome_bind_Ok in H1 as (k & _ & (e & _ & Hp)%outcome_bind_Ok). by eapply Push_elements; [exact Hh| |exact Hp].
Qed.

Lemma Scan_reads sid start stop s it s1 :
  frozen_ok s.1 → Scan sid start stop s = (Ok it, s1) → Forall (reads_frozen (mems s1.1)) (heap it).
Proof.
  intros Hok Hrun. assert (wp (Scan sid start stop) (λ r s', ∀ it, r = Ok it → Forall (reads_frozen (mems s'.1)) (heap it)) s) as Hwp;
    [|by eapply (wp_run _ _ _ _ _ Hwp Hrun)].
  unfold Scan. apply wp_bind, wp_intro. intros r [w wd] Hsnap.
  pose proof (wp_run _ _ _ _ _ (snapshotForScan_frozen s) Hsnap) as Himm. pose proof (within_run advances _ _ _ _ calm_snapshotForScan Hsnap) as [_ Hok'].
  specialize (Hok' Hok). destruct r as [[imm ts]|e|p|]; try done. specialize (Himm imm ts eq_refl). cbn [fst] in *. wsteps.
  destruct (push_mem (mems w) imm []) as [h1|e|p|] eqn:E1; try done. cbv beta iota. wsteps.
  destruct (push_tables 0 _ h1) as [h2|e|p|] eqn:E2; try done. cbv beta iota. wsteps. intros it' [= <-]. cbn [heap fst].
  eapply push_tables_reads; [|exact E2]. eapply push_mem_reads; [|exact E1]. intros p ->. by apply Hok'.
Qed.

(** An engine just opened has nothing to flush. *)
Lemma CreateWisp_frozen coins config wd w wd' : CreateWispWithConfig coins config wd = (Ok w, wd') → frozen_ok w.
Proof.
  intros Hrun. assert (wp (CreateWispWithConfig coins config) (λ r _, ∀ w, r = Ok w → frozen_ok w) wd) as Hwp;
    [|by eapply (wp_run _ _ _ _ _ Hwp Hrun)].
  unfold CreateWispWithConfig. cbv zeta. apply wp_bind, wp_intro. intros [x|e|p|] wd1 _; try done. apply wp_bind, wp_run_with.
  set (w0 := mkWisp _ _ _ _ _ _ _ _ _ _). eapply wp_mono; [refine (_ : wp _ (λ _ s', advances w0 s'.1) _)|].
  - assert (calm openSSTables) by (unfold openSSTables; calms). assert (calm (Recover coins)) by (pose proof calm_recover; unfold Recover; calms).
    match goal with |- wp ?m _ _ => assert (calm m) as Hm by (pose proof calm_Close; calms) end. apply Hm.
  - intros r [w1 wd2] [_ Hok]. destruct r as [[]|e|p|]; try done. wsteps. intros w' [= <-]. by apply Hok.
Qed.

(** A client's loop whose [i]-th [Next] runs when the engine's memtables are [arenas i]. *)
Fixpoint scan_over (arenas : nat → list MemTable) (i n fuel : nat) (it : ScanIterator) : outcome (list (Key * bytes)) :=
  match n with
  | O => OutOfFuel
  | S n' =>
      '(more, it) ← ScanNext (arenas i) fuel it;
      if (more : bool) then
        let '(k, v, _) := ScanEntry it in
        rest ← scan_over arenas (S i) n' fuel it;
        Ok ((k, v) :: rest)
      else Ok []
  end.

Lemma scan_over_stable ms arenas i n fuel it :
  (∀ i, keeps_frozen ms (arenas i)) → Forall (reads_frozen ms) (heap it) → scan_over arenas i n fuel it = scan_loop ms n fuel it.
Proof.
  intros Hk. revert i it. induction n as [|n IH]; intros i it Hh; [done|]. cbn [scan_over scan_loop].
  destruct (ScanNext_stable ms (arenas i) fuel it (Hk i) Hh) as [-> Hn].
  destruct (ScanNext ms fuel it) as [[[] it']|e|p|]; try done. cbn [mbind outcome_bind].
  rewrite IH; [done|]. by apply (Hn true).
Qed.

End isolation.

(** ** The claim on a running engine *)
(** A write, a scan opened, the key deleted and everything flushed before its first [Next]. *)
Definition demo_created := @CreateWispWithConfig stored toy_hash no_coins DefaultWispConfig demo_home.
Definition demo_blank : Wisp := mkWisp defaultSSTablePath 0 0 None [] 0 None 0 None empty_list.
Definition demo_opened : Wisp * world := (result demo_blank demo_created, demo_created.2).
Definition demo_written : Wisp * world := (@Insert stored toy_hash [] [] 7 1 [x61] demo_opened).2.
Definition demo_scanned := @Scan stored toy_hash 7 0 9 demo_written.
Definition demo_scan : ScanIterator := result (mkScan [] 0 0 0 [] None false zeroKey []) demo_scanned.
Definition demo_deleted : Wisp * world := (@Delete stored toy_hash [] [] 7 1 demo_scanned.2).2.
Definition demo_flushed : Wisp * world := (@Flush stored toy_hash demo_deleted).2.

