(* ===== verification/EngineFaults.v ===== *)
(** * The engine when calls fail (wisp.go)

    What a flush leaves when any call of it fails, and the failures that lose or refuse
    data. *)
From Stdlib Require Import ZArith Lia Strings.Byte.
From stdpp Require Import base list gmap sorting.
From S2P Require Import Prelude Key Monad Fs WalCodec Block Bloom Reader Merge Tables WalFrame Engine EngineMem EngineInv EngineSpec.
From S2P Require Skiplist Memtable Wal Writer SSTableList Compactor.
Import Memtable (MemTable, memtable_map).
Import Wal (WAL).
Import SSTableList (NewPath).

Definition with_faults (fs : list fault) (wd : world) : world := mkWorld (dirs wd) (files wd) fs.

Lemma wp_on_list {A} (m : M (SSTableList.SSTableList * world) A) w wd (Q : outcome A → Wisp * world → Prop) :
  wp m (λ r s, Q r (set_sstables s.1 w, s.2)) (sstables w, wd) → wp (on_list m) Q (w, wd).
Proof. unfold wp, on_list. by destruct (m (sstables w, wd)) as [r [l wd']]. Qed.

Lemma wp_on_wal {A} (m : M (WAL * world) A) w wd x (Q : outcome A → Wisp * world → Prop) :
  wal w = Some x → wp m (λ r s, Q r (set_wal (Some s.1) w, s.2)) (x, wd) → wp (on_wal m) Q (w, wd).
Proof. unfold wp, on_wal. intros ->. by destruct (m (x, wd)) as [r [x' wd']]. Qed.

Lemma wp_get_mem p w wd m (Q : outcome MemTable → Wisp * world → Prop) :
  mems w !! p = Some m → Q (Ok m) (w, wd) → wp (get_mem p) Q (w, wd).
Proof. intros Hm HQ. unfold wp. by rewrite (get_mem_run _ _ _ _ Hm). Qed.

Lemma wp_eq {S A} (m : M S A) Q s r s' : m s = (r, s') → Q r s' → wp m Q s.
Proof. unfold wp. by intros ->. Qed.

(** What a lookup finds in two memtables of a heap and a list of tables. *)
Definition peek_at `{Snappy, Hash128} (ms : list MemTable) (mut : nat) (imm : option nat) (tables : list (Z * option Reader)) (sid ts : Z)
    : outcome (bytes * bool * bool) :=
  match ms !! mut with
  | None => Panic NilDereference
  | Some m =>
      a ← mem_answer m sid ts;
      match a with
      | Some x => Ok x
      | None =>
          b ← match imm with
              | None => Ok None
              | Some p => match ms !! p with Some mi => mem_answer mi sid ts | None => Panic NilDereference end
              end;
          match b with Some x => Ok x | None => Get_tables tables sid ts end
      end
  end.

(** In the struct: [Get] without its reference counts. *)
Definition peek `{Snappy, Hash128} (w : Wisp) : Z → Z → outcome (bytes * bool * bool) :=
  peek_at (mems w) (mutableMemTable w) (immutableMemTable w) (Compactor.list_tables (sstables w)).

Section faults.
Context `{Snappy, Hash128}.
Implicit Types (km ki : gmap Key (bytes * bool)).

(** ** The sections of a flush *)
(** The table file: from the generation drawn to the reader. No lock is held. *)
Definition flush_file (imm : nat) : E (Z * path * Reader) :=
  w ← get_fst;
  nextGen ← on_list SSTableList.NextGen;
  let path := NewPath (sstPath w) nextGen in
  m ← get_mem imm;
  write_memtable path m;;
  r ← try (on_snd (OpenReader path));
  match r with
  | inr err => modify_fst (set_writer None);; fail err
  | inl reader => mret (nextGen, path, reader)
  end.

(** Under the lock of the list. *)
Definition flush_publish (gen : Z) (path : path) (reader : Reader) : E unit :=
  newSST ← on_list (SSTableList.NewSSTableFile path gen reader);
  on_list (SSTableList.Add newSST).

(** Under the lock of the engine. *)
Definition flush_clear (imm : nat) : E unit :=
  modify_fst (set_writer None);;
  w ← get_fst;
  if decide (immutableMemTable w = Some imm) then modify_fst (set_immutable None) else mret ().

(** Under the lock of the log. *)
Definition flush_reclaim (sealedSegment : Z) : E unit :=
  w ← get_fst;
  match wal w with
  | Some _ => if 0 <? sealedSegment then on_wal (Wal.RemoveSegmentsUpTo sealedSegment) else mret ()
  | None => mret ()
  end.

(** Run without interruption they are the flush. *)
Lemma flush_sections imm s :
  flushImmutable imm s =
  (w ← get_fst;
   if decide (immutableMemTable w = Some imm) then
     '(gen, path, reader) ← flush_file imm;
     flush_publish gen path reader;;
     flush_clear imm;;
     flush_reclaim (immutableWALSegment w)
   else mret ()) s.
Proof.
  destruct s as [w wd]. unfold flushImmutable. rewrite !(bind_Ok get_fst _ (w, wd) w (w, wd)) by reflexivity.
  cbv zeta. case_decide; [|done]. unfold flush_file. rewrite bind_assoc, (bind_Ok get_fst _ (w, wd) w (w, wd)) by reflexivity.
  rewrite bind_assoc. apply bind_ext. intros gen s0. rewrite bind_assoc. apply bind_ext. intros m s1. rewrite bind_assoc.
  apply bind_ext. intros [] s2. rewrite bind_assoc. apply bind_ext. intros [reader|err] s3; [|by rewrite bind_assoc].
  rewrite (bind_Ok (mret _) _ s3 _ s3 eq_refl). unfold flush_publish, flush_clear. rewrite bind_assoc. apply bind_ext. intros n s4.
  apply bind_ext. intros [] s5. rewrite bind_assoc. apply bind_ext. intros [] s6. rewrite bind_assoc. by apply bind_ext.
Qed.

(** The table file, under any schedule of failures: nothing else is touched, and the table
    has the bindings of the memtable if there is one. *)
Record filed (out : path) (ki : gmap Key (bytes * bool)) (wd : world) (reader : Reader) (es : list Entry) : Prop := {
  fl_file : ∃ data, files wd !! out = Some (File data (length data)) ∧ readFooter data = Ok reader;
  fl_readable : readable reader es;
  fl_sorted : esorted es;
  fl_small : Forall Writer.small_entry es;
  fl_bindings : ∀ k, binding_of <$> first_entry k es = ki !! k
}.

Lemma wp_flush_file base N w wd imm mi ki (Q : outcome (Z * path * Reader) → Wisp * world → Prop) :
  let g := SSTableList.nextGen (sstables w) + 1 in
  let out := NewPath base g in
  N < 2^30 → Writer.filters_ok N → sstPath w = base → blockSize w < 2^31 → mems w !! imm = Some mi → memtable_map mi ki → small_map ki →
  Z.of_nat (size ki) ≤ N → is_u64 g → files wd !! out = None → pdir base ∈ dirs wd →
  (∀ r y wd', only out wd wd' → (∀ x, r = Ok x → ∃ reader es, x = (g, out, reader) ∧ filed out ki wd' reader es) →
    Q r (set_writer y (set_sstables (SSTableList.set_nextGen g (sstables w)) w), wd')) →
  wp (flush_file imm) Q (w, wd).
Proof.
  intros g out HN Hfil Hbase Hbs Hmi Hmap Hsm Hsz Hgu Hnone Hdir HQ.
  unfold flush_file. wstep. wstep. wstep. apply wp_on_list. unfold SSTableList.NextGen. wsteps.
  rewrite u64_id by done. fold g. cbn [fst snd]. rewrite Hbase. fold out. set (w1 := set_sstables _ w).
  eapply wp_get_mem; [exact Hmi|]. cbv beta iota. wstep.
  eapply (wp_write_memtable N out mi ki w1); try done; [by rewrite Hnone| |].
  2: { intros e y wd1 Ho _. cbv beta iota. by apply HQ. }
  intros y wd1 kvs bss b Hs Hkm Htb Ho Hfile. cbv beta iota. do 3 wstep.
  eapply wp_OpenReader_written; [exact Htb|exact Hfile| |].
  2: { intros e wd2 He2 _. cbv beta iota. wsteps. apply HQ; [eapply only_trans; [exact Ho|by apply only_same]|done]. }
  intros wd2 He2. cbv beta iota. wsteps. apply HQ; [eapply only_trans; [exact Ho|by apply only_same]|].
  intros x [= <-]. eexists _, (entry_of <$> kvs). split; [reflexivity|]. split.
  - eexists. split; [by rewrite (evolves_files _ _ _ He2)|by apply readFooter_written].
  - by eapply written_readable.
  - by apply entries_esorted.
  - apply small_entries; [done|by rewrite Hkm].
  - intros k. by rewrite first_entry_entries, <-kmap_lookup, Hkm.
Qed.

(** The memtables and tables hold these bindings. *)
Record holds (ms : list MemTable) (mut : nat) (imm : option nat) (tables : list (Z * option Reader)) km ki (tabs : list stream) : Prop := {
  hv_mutable : ∃ m, ms !! mut = Some m ∧ memtable_map m km;
  hv_immutable : match imm with
    | Some p => ∃ m, ms !! p = Some m ∧ memtable_map m ki
    | None => ki = ∅
    end;
  hv_tables : Forall2 readable_table tables tabs
}.
Definition holds_view (w : Wisp) : gmap Key (bytes * bool) → gmap Key (bytes * bool) → list stream → Prop :=
  holds (mems w) (mutableMemTable w) (immutableMemTable w) (Compactor.list_tables (sstables w)).

Definition view km ki (tabs : list stream) (k : Key) : option (bytes * bool) :=
  match km !! k with
  | Some b => Some b
  | None => match ki !! k with Some b => Some b | None => binding_of <$> first_entry k (table_entries tabs) end
  end.

Lemma peek_at_view ms mut imm tables km ki tabs sid ts :
  holds ms mut imm tables km ki tabs → peek_at ms mut imm tables sid ts = Ok (answer (view km ki tabs (mkKey sid ts))).
Proof.
  intros [(m & Hm & Hmap) Hi Ht]. unfold peek_at, view. rewrite Hm, (mem_answer_spec _ _ sid ts Hmap).
  cbn [mbind outcome_bind]. destruct (km !! mkKey sid ts); [done|]. cbn [fmap option_fmap option_map].
  assert (match imm with
    | None => Ok None
    | Some p => match ms !! p with Some mi => mem_answer mi sid ts | None => Panic NilDereference end
    end = Ok (answer ∘ Some <$> ki !! mkKey sid ts)) as ->.
  { destruct imm as [p|]; [|by rewrite Hi, lookup_empty]. destruct Hi as (mi & -> & Hmi). by apply mem_answer_spec. }
  cbn [mbind outcome_bind]. destruct (ki !! mkKey sid ts); [done|]. cbn [fmap option_fmap option_map].
  by rewrite (Get_tables_spec _ _ _ _ Ht), get_result_answer.
Qed.

Lemma peek_view w km ki tabs sid ts : holds_view w km ki tabs → peek w sid ts = Ok (answer (view km ki tabs (mkKey sid ts))).
Proof. apply peek_at_view. Qed.

Lemma engine_holds_view wpath wmax base w wd rs frozen tabs :
  engine wpath wmax base w wd rs frozen tabs → holds_view w (replay_map rs) (replay_map (default [] frozen)) tabs.
Proof.
  intros [_ _ _ _ Htab (m & Hm & Hmap & _) Himm _ _]. split; [by exists m| |exact (ls_tables _ _ _ _ Htab)].
  destruct frozen as [old|], (immutableMemTable w) as [p|]; try done. by destruct Himm as (_ & ?).
Qed.

(** The flush of a frozen memtable under any schedule of failures: the contents stay. *)
Lemma wp_flushImmutable base N w wd km ki tabs imm mi x (Q : outcome unit → Wisp * world → Prop) :
  N < 2^30 → Writer.filters_ok N →
  holds_view w km ki tabs → listing base (sstables w) wd tabs → sstPath w = base → blockSize w < 2^31 →
  immutableMemTable w = Some imm → mems w !! imm = Some mi → memtable_map mi ki → small_map ki → Z.of_nat (size ki) ≤ N →
  SSTableList.nextGen (sstables w) + 1 < 2^64 → zlen (SSTableList.tables (sstables w)) < 2^31 - 3 → wal w = Some x → handle_ok x →
  (∀ r w' wd' ki' tabs', holds_view w' km ki' tabs' → (∀ k, view km ki' tabs' k = view km ki tabs k) → Q r (w', wd')) →
  wp (flushImmutable imm) Q (w, wd).
Proof.
  intros HN Hfil [Hmut _ Htabs] Hl Hbase Hbs Himm Hmi Hmap Hsm Hsz Hg Hb Hx Hh HQ.
  set (g := SSTableList.nextGen (sstables w) + 1) in *. set (out := NewPath base g).
  pose proof (ls_next _ _ _ _ Hl) as Hnext. assert (is_u64 g) as Hgu by (unfold is_u64, g; lia).
  destruct (next_fresh base _ _ _ g Hl ltac:(lia) Hgu) as [_ Hnone]. fold out in Hnone.
  (* every state in which the frozen memtable is still there *)
  assert (∀ r y wd', Q r (set_writer y (set_sstables (SSTableList.set_nextGen g (sstables w)) w), wd')) as Hstay.
  { intros r y wd'. apply (HQ _ _ _ ki tabs); [|done]. split; [exact Hmut| |exact Htabs]. cbn. rewrite Himm. by exists mi. }
  eapply wp_ext; [apply flush_sections|]. wstep. wstep. rewrite decide_True by done. wstep.
  eapply (wp_flush_file base N w wd imm mi ki); try done; [exact (ls_dir _ _ _ _ Hl)|].
  intros r y wd1 Ho Hok. destruct r as [[[g1 path] reader]|e|e|]; [|apply Hstay..]. cbv beta iota.
  destruct (Hok _ eq_refl) as (reader' & es & [= -> -> ->] & [(data & Hfile & Hrd) Hread Hsort Hsmall Hk]).
  destruct (listing_add base (sstables w) wd tabs wd1 reader' es data Hl) as (p & l2 & l3 & Hnew & Hadd & Hl3 & Hg3 & Hlen3); try done.
  fold g out in Hnew, Hl3. wstep. unfold flush_publish. wstep. apply wp_on_list. eapply wp_eq; [exact Hnew|]. cbv beta iota. cbn [fst snd].
  apply wp_on_list. eapply wp_eq; [exact Hadd|]. cbv beta iota. cbn [fst snd]. unfold flush_clear, flush_reclaim. do 4 wstep. cbv beta iota. wstep.
  set (w3 := set_writer None (set_sstables l3 w)). change (set_writer None _) with w3.
  change (immutableMemTable w3) with (immutableMemTable w). rewrite decide_True by done. wsteps. cbn [wal set_immutable w3 set_writer set_sstables].
  rewrite Hx. assert (∀ r z wd', Q r (set_wal z (set_immutable None w3), wd')) as Hdone.
  { intros r z wd'. apply (HQ _ _ _ ∅ ((g, es) :: tabs)).
    - split; [exact Hmut|done|exact (ls_tables _ _ _ _ Hl3)].
    - intros k. unfold view. destruct (km !! k); [done|]. rewrite lookup_empty. unfold table_entries. rewrite fmap_cons. cbn [concat snd].
      rewrite first_entry_app, <-Hk.
      by destruct (first_entry k es). }
  destruct (0 <? immutableWALSegment w).
  - apply (wp_on_wal _ _ _ x); [exact Hx|]. eapply wp_mono; [by apply frame_RemoveSegmentsUpTo|].
    intros r [x' wd3] _. apply Hdone.
  - wsteps. replace (set_immutable None w3) with (set_wal (wal w) (set_immutable None w3)) by (by destruct w). apply Hdone.
Qed.

(** [Flush] from a state of the invariant, with any failing calls. *)
Section flush.
Context (wpath : path) (wmax : Z) (base : path) (N : Z).
Context (HN : N < 2^28) (Hfilters : Writer.filters_ok N) (Hsep : separate wpath wmax base).

Lemma view_same km tabs k : view km km tabs k = view km ∅ tabs k.
Proof. unfold view. rewrite lookup_empty. by destruct (km !! k). Qed.

Lemma view_shift km tabs k : view ∅ km tabs k = view km ∅ tabs k.
Proof. unfold view. rewrite !lookup_empty. by destruct (km !! k). Qed.

Lemma flush_faults w wd rs frozen tabs e s g t fs :
  engine wpath wmax base w wd rs frozen tabs → room N w rs (default [] frozen) tabs e s g t → 0 ≤ e → 1 ≤ g → 1 ≤ t →
  wp Flush (λ _ s', ∀ sid ts, peek s'.1 sid ts = peek w sid ts) (w, with_faults fs wd).
Proof.
  intros He [R1 R2 R3 R4] H1 H2 H3. pose proof (engine_holds_view _ _ _ _ _ _ _ _ He) as Hv.
  pose proof He as [_ (x & Hx & Hlog & Hsame & _) [Hrec Hrec'] _ Htab (m & Hm & Hmap & _) Himm (Hbase & _ & Hbs) _].
  set (wdf := with_faults fs wd). assert (listing base (sstables w) wdf tabs) as Hl by (by apply (listing_outside base _ wd)).
  assert (handle_ok x) as Hh by by eapply log_state_handle.
  pose proof (zlen_nonneg rs). pose proof (zlen_nonneg (default [] frozen)).
  assert (∀ w' km ki tabs', holds_view w' km ki tabs' → (∀ k, view km ki tabs' k = view (replay_map rs) (replay_map (default [] frozen)) tabs k) →
    ∀ sid ts, peek w' sid ts = peek w sid ts) as Hpeek.
  { intros w' km ki tabs' Hv' E sid ts. by rewrite (peek_view _ _ _ _ _ _ Hv), (peek_view _ _ _ _ _ _ Hv'), E. }
  unfold Flush. do 2 wstep. destruct frozen as [old|], (immutableMemTable w) as [p|] eqn:Ep; try done.
  - do 2 wstep. destruct Himm as (_ & mi & Hmi & Hmapi).
    eapply (wp_flushImmutable base N w wdf (replay_map rs) (replay_map old) tabs p mi x); try done; [lia|by apply replay_small| |lia|lia|].
    + pose proof (replay_size old). change (default [] (Some old)) with old in *. unfold zlen in *. lia.
    + intros r w' wd' ki' tabs' Hv' E. by eapply Hpeek.
  - do 2 wstep. eapply wp_get_mem; [exact Hm|]. cbv beta iota. destruct (_ && _); [|wsteps; done].
    wstep. unfold freezeMutableLocked. do 3 wstep. eapply wp_get_mem; [exact Hm|]. cbv beta iota. unfold put_mem. do 4 wstep.
    set (w1 := set_immutable _ _). pose proof (lookup_lt_Some _ _ _ Hm) as Hlt.
    assert (holds_view w1 (replay_map rs) (replay_map rs) tabs) as Hv1.
    { split; [| |exact (ls_tables _ _ _ _ Htab)]; cbn; exists (Memtable.Freeze m); by rewrite list_lookup_insert_eq. }
    wstep. apply (wp_on_wal _ w1 wdf x); [exact Hx|]. eapply wp_mono; [by apply frame_rotateLocked|].
    intros r [x' wd1] (Hframe & Hsame' & Hh'). cbn [fst snd] in *.
    destruct r as [k| | |]; cbv beta iota; try (intros sid ts; by eapply (Hpeek w1 (replay_map rs) (replay_map rs) tabs); [|intros ?; apply view_same]).
    wsteps. set (w2 := set_mutable _ _). change (immutableMemTable w2) with (Some (mutableMemTable w)). cbv iota.
    set (fresh := Memtable.CreateMemTableWithThreshold (threshold w)).
    assert (holds_view w2 ∅ (replay_map rs) tabs) as Hv2.
    { split; [exists fresh|exists (Memtable.Freeze m)|exact (ls_tables _ _ _ _ Htab)]; cbn.
      - split; [|apply Memtable.CreateMemTable_map]. by rewrite lookup_app_r, Nat.sub_diag by lia.
      - split; [|exact Hmap]. rewrite lookup_app_l by (by rewrite length_insert). by rewrite list_lookup_insert_eq. }
    pose proof (hv_immutable _ _ _ _ _ _ _ Hv2) as (mi & Hmi & Hmapi).
    assert (listing base (sstables w) wd1 tabs) as Hl1.
    { eapply listing_outside; [apply Hframe| |exact Hl]. by eapply log_frame_tables. }
    eapply (wp_flushImmutable base N w2 wd1 ∅ (replay_map rs) tabs _ mi x'); try done; [lia|by apply replay_small| |cbn; lia|cbn; lia|].
    + pose proof (replay_size rs). unfold zlen in *. lia.
    + intros r w' wd' ki' tabs' Hv' E. eapply Hpeek; [exact Hv'|]. intros k0. by rewrite E, view_shift.
Qed.
End flush.

(** ** Claims *)

(** C9: a failed flush loses nothing. Whatever calls of a [Flush] fail, at whatever point,
    and whether it returns an error or not, every lookup finds afterwards what it found
    before: the frozen memtable is dropped only once its table is readable and listed. *)
Theorem flush_failure_keeps_contents wpath wmax base N w wd rs frozen tabs e s g t fs res w' wd' :
  N < 2^28 → Writer.filters_ok N → separate wpath wmax base →
  engine wpath wmax base w wd rs frozen tabs → room N w rs (default [] frozen) tabs e s g t → 0 ≤ e → 1 ≤ g → 1 ≤ t →
  Flush (w, with_faults fs wd) = (res, (w', wd')) →
  ∀ sid ts, peek w' sid ts = peek w sid ts.
Proof.
  intros HN Hfil Hsep He Hr H1 H2 H3 Hrun.
  exact (wp_run _ _ _ _ _ (flush_faults wpath wmax base N HN Hfil Hsep w wd rs frozen tabs e s g t fs He Hr H1 H2 H3) Hrun).
Qed.

(** C102: [Flush] does not flush a full memtable. When the mutable memtable has reached its
    threshold and nothing is frozen, [Flush] returns without an error and does nothing:
    the data stays in memory and in the log alone. *)
Lemma flush_skips_full w wd m :
  immutableMemTable w = None → mems w !! mutableMemTable w = Some m → Memtable.IsFull m = true →
  Flush (w, wd) = (Ok (), (w, wd)).
Proof.
  intros Hi Hm Hf. unfold Flush. erewrite bind_Ok by reflexivity. rewrite Hi. rewrite (bind_Ok _ _ _ None (w, wd)); [done|].
  erewrite bind_Ok by (apply get_mem_run; exact Hm). by rewrite Hf, andb_false_r.
Qed.
End faults.

(** ** The claims at small states *)
Lemma flush_skips_full_witness :
  let m := Memtable.mkMemTable (Skiplist.NewSkipList 16) 5 true 5 in
  let w := mkWisp defaultSSTablePath 4096 5 None [m] 0 None 0 None empty_list in
  Memtable.IsFull m = true ∧ @Flush stored toy_hash (w, demo_home) = (Ok (), (w, demo_home)).
Proof. intros m w. split; [reflexivity|]. apply (@flush_skips_full stored toy_hash w demo_home m); reflexivity. Defined.

(** An engine of the default configuration, and one that holds one write. *)
Lemma demo_create : ∃ w wd, @CreateWispWithConfig stored toy_hash no_coins DefaultWispConfig demo_home = (Ok w, wd) ∧
  @engine stored toy_hash defaultWALPath Wal.DefaultMaxSegmentSize defaultSSTablePath w wd [] None [] ∧ room 9 w [] [] [] 9 9 9 9.
Proof.
  apply (@create_fresh_ok stored toy_hash defaultWALPath Wal.DefaultMaxSegmentSize defaultSSTablePath 9 ltac:(lia) ltac:(by vm_compute)
    default_separate no_coins DefaultWispConfig demo_home 9 9 9 9); try done; try lia. exact demo_home_log.
Qed.

Lemma demo_engine : ∃ w wd rs tabs,
  @engine stored toy_hash defaultWALPath Wal.DefaultMaxSegmentSize defaultSSTablePath w wd rs None tabs ∧
  room 9 w rs [] tabs 4 4 4 4 ∧ lookup_view rs [] tabs (demo_key 1) = Some ([x61], false).
Proof.
  destruct demo_create as (w & wd & _ & He & Hr).
  destruct (@write_op_ok stored toy_hash defaultWALPath Wal.DefaultMaxSegmentSize defaultSSTablePath 9 ltac:(lia) (small_filters 9 ltac:(lia))
      default_separate w wd [] None [] [] [true] (mkRecord 1 7 false [x61]) ErrPut 9 9 9 9 He Hr) as (w' & wd' & rs & tabs & _ & He' & Hr' & Hv);
      [by vm_compute|lia..|].
  exists w', wd', rs, tabs. split; [exact He'|]. split; [eapply room_weaken; [exact Hr'|lia..]|]. by rewrite Hv.
Qed.

Lemma flush_failure_keeps_contents_witness :
  ∃ w wd, @peek stored toy_hash w 7 1 = Ok ([x61], true, false) ∧
    ∀ fs res w' wd', @Flush stored toy_hash (w, with_faults fs wd) = (res, (w', wd')) →
      ∀ sid ts, @peek stored toy_hash w' sid ts = @peek stored toy_hash w sid ts.
Proof.
  destruct demo_engine as (w & wd & rs & tabs & He & Hr & Hv). exists w, wd. split.
  - rewrite (@peek_view stored toy_hash w _ _ tabs 7 1 (@engine_holds_view stored toy_hash _ _ _ _ _ _ _ _ He)).
    change (view (replay_map rs) (replay_map (default [] None)) tabs (mkKey 7 1)) with (lookup_view rs [] tabs (demo_key 1)). by rewrite Hv.
  - intros fs res w' wd'.
    apply (@flush_failure_keeps_contents stored toy_hash defaultWALPath Wal.DefaultMaxSegmentSize defaultSSTablePath 9 w wd rs None tabs 4 4 4 4 fs).
    + lia.
    + by apply small_filters.
    + exact default_separate.
    + exact He.
    + exact Hr.
    + lia.
    + lia.
    + lia.
Defined.

(** A write before and after a flush whose first call fails, then a crash and a restart:
    what the calls return, and what the last key looks up to before and after. *)
Definition set_faults (fs : list fault) : E unit := λ '(w, wd), (Ok (), (w, with_faults fs wd)).
Definition after_failed_flush `{Snappy, Hash128} (fs : list fault) : E ((unit + error) * (unit + error) * list (bytes * bool * bool)) :=
  Insert [] [] 7 1 [x61];;
  set_faults fs;;
  e1 ← try Flush;
  e2 ← try (Insert [] [] 7 2 [x62]);
  a ← Get 7 2;
  restart DefaultWispConfig no_coins lose_unsynced;;
  b ← Get 7 2;
  mret (e1, e2, [a; b]).

