(* ===== verification/Concurrent.v ===== *)
(** * Flushes, writes and reads at the same time (wisp.go)

    [flushImmutable] and [Get] hold no lock while they work. Here both run in their
    sections, and other clients write, freeze and read between them, under any schedule of
    failing calls: every read sees the writes of one moment between its start and its end. *)
From Stdlib Require Import ZArith Lia Strings.Byte.
From stdpp Require Import base list gmap sorting relations.
From S2P Require Import Prelude Key Monad Fs WalCodec Block Bloom Reader Merge Tables WalFrame Engine EngineMem EngineInv EngineSpec Snapshot EngineFaults.
From S2P Require Skiplist Memtable Wal Writer SSTableList Compactor.
Import Memtable (MemTable, memtable_map, write_map).
Import SSTableList (SSTableList, NewPath, tables, store, nextGen, Gen, same_list, same_table, inv, all_refs).

Section concurrent.
Context `{Snappy, Hash128}.
Implicit Types (km ki : gmap Key (bytes * bool)) (w : Wisp) (wd : world).

(** ** The sections of a read *)

(** What a [Get] took under the read lock. [since]: the writes made before, for the specification. *)
Record get := mkGet {
  g_mut : nat;
  g_imm : option nat;
  g_tables : list nat;
  since : nat
}.

Definition get_begin (since : nat) : E get :=
  w ← get_fst;
  tables ← on_list SSTableList.GetTables;
  mret (mkGet (mutableMemTable w) (immutableMemTable w) tables since).

(** Without a lock. *)
Definition get_end (g : get) (seriesID timestamp : Z) : E (bytes * bool * bool) :=
  r ← try (
    mut ← get_mem (g_mut g);
    a ← lift (mem_answer mut seriesID timestamp);
    match a with
    | Some answer => mret answer
    | None =>
        a ← match g_imm g with
            | Some p => imm ← get_mem p; lift (mem_answer imm seriesID timestamp)
            | None => mret None
            end;
        match a with
        | Some answer => mret answer
        | None => w ← get_fst; lift (Get_tables (Compactor.table_of (sstables w) <$> g_tables g) seriesID timestamp)
        end
    end);
  on_list (SSTableList.ReleaseTables (g_tables g));;
  match r with inr e => fail e | inl answer => mret answer end.

(** Run without interruption they are [Get]. *)
Lemma get_sections n sid ts s : Get sid ts s = (g ← get_begin n; get_end g sid ts) s.
Proof.
  destruct s as [w wd]. unfold Get, get_begin. rewrite bind_assoc, !(bind_Ok get_fst _ (w, wd) w (w, wd)) by reflexivity.
  rewrite bind_assoc. by apply bind_ext.
Qed.

(** ** Interleavings *)

(** Where the flush is. [sealed] is the segment it read when it began. *)
Inductive phase :=
  | Idle
  | Filed (imm : nat) (sealed gen : Z) (path : path) (reader : Reader)
  | Listed (imm : nat) (sealed : Z)
  | Cleared (sealed : Z).

(** The flush, the reads under way, the writes made so far, and the engine. *)
Record conf := mkConf {
  flush : phase;
  gets : list get;
  writes : list WALRecord;
  engine_of : Wisp * world
}.

(** One flush at a time ([flushMu]) goes from section to section; the sections of writes,
    freezes and reads run between. A call that fails ends its method. *)
Inductive step : conf → conf → Prop :=
  | step_file gs ws imm s r s' :
      immutableMemTable s.1 = Some imm → flush_file imm s = (r, s') →
      step (mkConf Idle gs ws s)
           (mkConf (match r with Ok (gen, path, reader) => Filed imm (immutableWALSegment s.1) gen path reader | _ => Idle end) gs ws s')
  | step_publish gs ws imm sealed gen path reader s r s' :
      flush_publish gen path reader s = (r, s') → step (mkConf (Filed imm sealed gen path reader) gs ws s) (mkConf (Listed imm sealed) gs ws s')
  | step_clear gs ws imm sealed s r s' :
      flush_clear imm s = (r, s') → step (mkConf (Listed imm sealed) gs ws s) (mkConf (Cleared sealed) gs ws s')
  | step_reclaim gs ws sealed s r s' :
      flush_reclaim sealed s = (r, s') → step (mkConf (Cleared sealed) gs ws s) (mkConf Idle gs ws s')
  | step_write ph gs ws pooled coins rec s r s' :
      record_ok rec → put_record pooled coins rec s = (r, s') →
      step (mkConf ph gs ws s) (mkConf ph gs (match r with Ok true => ws ++ [rec] | _ => ws end) s')
  | step_freeze ph gs ws s r s' :
      immutableMemTable s.1 = None → freezeMutableLocked s = (r, s') → step (mkConf ph gs ws s) (mkConf ph gs ws s')
  | step_begin ph gs ws s g s' :
      get_begin (length ws) s = (Ok g, s') → step (mkConf ph gs ws s) (mkConf ph (g :: gs) ws s')
  | step_end ph gs gs' ws g sid ts s r s' :
      gs ≡ₚ g :: gs' → get_end g sid ts s = (r, s') → step (mkConf ph gs ws s) (mkConf ph gs' ws s').

(** ** The bindings after some writes *)
Section now.
Context (v0 : Key → option (bytes * bool)).

Definition now (ws : list WALRecord) (k : Key) : option (bytes * bool) :=
  match replay_map ws !! k with Some b => Some b | None => v0 k end.

Lemma now_snoc ws r k :
  now (ws ++ [r]) k = if decide (Memtable.write_key (record_write r) = k) then Some (Memtable.write_binding (record_write r)) else now ws k.
Proof.
  unfold now. rewrite replay_map_snoc. unfold write_map. case_decide as E.
  - subst k. by rewrite lookup_insert_eq.
  - by rewrite lookup_insert_ne.
Qed.
End now.

Lemma view_write km ki tabs x k :
  view (write_map km x) ki tabs k = if decide (Memtable.write_key x = k) then Some (Memtable.write_binding x) else view km ki tabs k.
Proof.
  unfold view, write_map. case_decide as E.
  - subst k. by rewrite lookup_insert_eq.
  - by rewrite lookup_insert_ne.
Qed.

(** ** The list while its tables are held *)
Section lists.
Context (base : path).
Implicit Types (l : SSTableList) (h : list nat).

Record open_tables l wd h (tabs : list stream) : Prop := {
  ot_inv : inv (SSTableList.mkConf l wd h []);
  ot_tables : Forall2 readable_table (Compactor.list_tables l) tabs;
  ot_gens : StronglySorted Z.gt (fst <$> tabs);
  ot_next : 0 ≤ nextGen l;
  ot_store : ∀ p f, store l !! p = Some f → SSTableList.Path f = NewPath base (Gen f) ∧ 0 ≤ Gen f ≤ nextGen l ∧ is_u64 (Gen f);
  ot_fresh : ∀ g, nextGen l < g → is_u64 g → files wd !! NewPath base g = None;
  ot_dir : pdir base ∈ dirs wd
}.

Lemma listing_open l wd tabs : listing base l wd tabs → open_tables l wd [] tabs.
Proof.
  intros Hl. pose proof Hl as [H1 H2 H3 H4 H5 H6 H7 H8]. split; try done; [lia| |].
  - intros p f Hf. destruct (H5 p f Hf). split_and!; [done|lia..|]. by eapply listing_gen_u64.
  - intros g Hg Hu. by apply (next_fresh base l wd tabs).
Qed.

Lemma open_valid l wd h tabs p : open_tables l wd h tabs → p ∈ tables l → is_Some (store l !! p).
Proof. intros Ho Hp. apply (SSTableList.ct_valid _ _ (SSTableList.iv_counted _ (ot_inv _ _ _ _ Ho))). unfold all_refs. cbn. set_solver. Qed.

(** Other files, and the counts, do not matter. *)
Lemma open_outside l wd wd' h tabs :
  dirs wd' = dirs wd → (∀ q, in_tables base q → files wd' !! q = files wd !! q) → open_tables l wd h tabs → open_tables l wd' h tabs.
Proof.
  intros Hd Hf [H1 H2 H3 H4 H5 H6 H7]. split; try done; [| |by rewrite Hd].
  - eapply SSTableList.inv_env; [exact H1|]. intros q (f & -> & (p & Hp)%list_elem_of_lookup)%list_elem_of_fmap.
    destruct (H5 p f Hp) as (-> & _ & ?). apply Hf. by apply NewPath_in_tables.
  - intros g Hg Hu. rewrite Hf by by apply NewPath_in_tables. by apply H6.
Qed.

Lemma open_same l l' wd h h' tabs :
  open_tables l wd h tabs → inv (SSTableList.mkConf l' wd h' []) → same_list l l' → labels l' = labels l →
  (∀ p, p ∈ tables l → same_table l l' p) → open_tables l' wd h' tabs.
Proof.
  intros Ho Hi [Ht Hg] Hlab Hs. pose proof Ho as [H1 H2 H3 H4 H5 H6 H7]. split; try done; [|by rewrite Hg| |by rewrite Hg].
  - unfold Compactor.list_tables. rewrite Ht, (Compactor.tables_of_same l l'); [done|intros; by eapply open_valid|done].
  - intros p f Hf. destruct (labels_lookup _ _ _ _ Hlab Hf) as (f0 & Hf0 & -> & ->). rewrite Hg. by apply (H5 p).
Qed.

Lemma open_next l wd h tabs wd' g :
  open_tables l wd h tabs → nextGen l < g → is_u64 g → only (NewPath base g) wd wd' → open_tables (SSTableList.set_nextGen g l) wd' h tabs.
Proof.
  intros [H1 H2 H3 H4 H5 H6 H7] Hg Hu (Hd & Hf & _).
  assert (∀ p f, store l !! p = Some f → SSTableList.Path f ≠ NewPath base g) as Hne.
  { intros p f Hp E. destruct (H5 p f Hp) as (E' & ? & ?). rewrite E' in E. apply NewPath_inj in E; [lia|done..]. }
  split; try done; [|cbn; lia| | |by rewrite Hd].
  - eapply (SSTableList.inv_share l wd' h []); [|done..|exact (SSTableList.iv_nodup _ H1)|exact (SSTableList.iv_listed _ H1)|exact (SSTableList.iv_pending _ H1)].
    eapply SSTableList.inv_env; [exact H1|]. intros q (f & -> & (p & Hp)%list_elem_of_lookup)%list_elem_of_fmap. apply Hf. by eapply Hne.
  - intros p f Hp. destruct (H5 p f Hp) as (? & ? & ?). split_and!; [done|cbn; lia..|done].
  - cbn. intros g' Hg' Hu'. rewrite Hf; [apply H6; [lia|done]|]. intros E%NewPath_inj; [lia|done..].
Qed.

(** Publishing a table that is newer than all. *)
Lemma open_add w wd h tabs g reader es data sy :
  let l := sstables w in
  open_tables l wd h tabs → (∀ p f, store l !! p = Some f → Gen f < g) → g ≤ nextGen l → is_u64 g →
  files wd !! NewPath base g = Some (File data sy) → readable reader es → esorted es → zlen (tables l ++ h) < 2^31 - 2 →
  ∃ l', flush_publish g (NewPath base g) reader (w, wd) = (Ok (), (set_sstables l' w, wd)) ∧ open_tables l' wd h ((g, es) :: tabs) ∧
    nextGen l' = nextGen l ∧ (∃ n, tables l' = n :: tables l) ∧ (∀ p, is_Some (store l !! p) → store l' !! p = store l !! p).
Proof.
  intros l Ho Hst Hg Hu Hfile Hread Hsort Hb. pose proof Ho as [H1 H2 H3 H4 H5 H6 H7].
  destruct (list_add l wd h tabs g (NewPath base g) reader data sy H1 H2 H3) as (l2 & Hnew & Hadd & Hi & Hold & Hlt); try done.
  { intros p f Hf. specialize (Hst p f Hf). destruct (H5 p f Hf) as (_ & ? & _). lia. }
  { intros (f & E & (p & Hp)%list_elem_of_lookup)%list_elem_of_fmap. destruct (H5 p f Hp) as (E' & _ & ?). rewrite E' in E.
    apply NewPath_inj in E; [|done..]. specialize (Hst p f Hp). lia. }
  set (n := length (store l)) in *. set (l3 := SSTableList.mkList _ _ _) in *. exists l3. split.
  { unfold flush_publish. erewrite bind_Ok by (apply on_list_run; exact Hnew). erewrite on_list_run by exact Hadd. done. }
  split; [|split_and!; [done|by exists n|done]].
  assert (∀ p f, store l3 !! p = Some f → store l !! p = Some f ∨ f = SSTableList.mkFile (NewPath base g) g (Some reader) 1 false false) as Hcases.
  { intros p f [?|[_ Hf]]%lookup_app_Some; [by left|]. apply list_lookup_singleton_Some in Hf as [_ <-]. by right. }
  split; try done.
  - rewrite Hlt. constructor; [|done]. split; [done|]. by exists reader.
  - rewrite fmap_cons. constructor; [done|]. rewrite (tables_gens _ _ H2). apply Forall_forall. intros g' (p & -> & Hp)%list_elem_of_fmap.
    destruct (open_valid _ _ _ _ _ Ho Hp) as [f Hf]. unfold SSTableList.gen_of. rewrite Hf. cbn. specialize (Hst p f Hf). lia.
  - intros p f [Hf| ->]%Hcases; [by apply (H5 p)|]. cbn. split; [done|]. split; [unfold is_u64 in Hu; lia|done].
Qed.

(** Taking and giving back references. *)
Lemma open_get l wd h tabs :
  open_tables l wd h tabs → 2 * zlen (tables l) + zlen h < 2^31 - 1 →
  ∃ l', SSTableList.GetTables (l, wd) = (Ok (tables l), (l', wd)) ∧ open_tables l' wd (tables l ++ h) tabs ∧ same_list l l' ∧ labels l' = labels l ∧
    ∀ q, same_table l l' q.
Proof.
  intros Ho Hb. destruct (SSTableList.get_loop_spec (tables l) l wd h [] (ot_inv _ _ _ _ Ho) ltac:(done)) as (l1 & Hget & Hi1 & Hsl & _ & Hs1).
  { rewrite app_nil_r, zlen_app. lia. }
  assert (labels l1 = labels l) as Hlab by (by destruct (wp_run _ _ _ _ _ (rl_get_loop (labels l) (tables l) (l, wd) eq_refl) Hget)).
  exists l1. split; [exact Hget|]. split; [|done]. by eapply open_same.
Qed.

Lemma open_release ts l wd h tabs :
  open_tables l wd (ts ++ h) tabs → ts ⊆ tables l →
  ∃ l' wd', SSTableList.ReleaseTables ts (l, wd) = (Ok (), (l', wd')) ∧ open_tables l' wd' h tabs ∧ same_list l l' ∧ labels l' = labels l ∧
    (∀ p, p ∈ tables l → same_table l l' p) ∧ dirs wd' = dirs wd ∧ files wd' = files wd.
Proof.
  revert l wd. induction ts as [|t ts IH]; intros l wd Ho Hsub.
  { exists l, wd. split_and!; try done. intros p _. by apply SSTableList.same_table_store. }
  pose proof (ot_inv _ _ _ _ Ho) as Hi. set (refs := all_refs (SSTableList.mkConf l wd (ts ++ h) [])).
  assert (all_refs (SSTableList.mkConf l wd (t :: ts ++ h) []) ≡ₚ t :: refs) as Hperm.
  { unfold refs, all_refs. cbn. by rewrite <-Permutation_middle. }
  assert (t ∈ tables l) as Ht by (apply Hsub; left). destruct (open_valid _ _ _ _ _ Ho Ht) as [f Hf].
  pose proof (SSTableList.iv_bound _ Hi) as Hb. cbn [app] in Hb. unfold zlen in Hb. rewrite Hperm in Hb. fold (zlen (t :: refs)) in Hb.
  rewrite zlen_cons in Hb. destruct (wp_elim (SSTableList.DecrRef t) (λ r s, (r = Ok () ∨ r = Err ErrIO) ∧ same_list l s.1 ∧ labels s.1 = labels l ∧
    (∀ p, p ∈ tables l → same_table l s.1 p) ∧ dirs s.2 = dirs wd ∧ files s.2 = files wd) (l, wd)) as (r & [l1 wd1] & Hrun & Hr & Hsl & Hlab & Hs & Hd & Hfs).
  { eapply (SSTableList.wp_DecrRef t l wd f refs); [eapply SSTableList.counted_perm; [exact Hperm|exact (SSTableList.iv_counted _ Hi)]|done|lia|].
    intros r l' wd' f' _ Hsl Hst (Hp & Hg & Hun & _) Hrd (Hd & _) Hsame _ _ Hr. cbn [fst snd].
    assert (t ∈ refs) as Hin by (unfold refs, all_refs; cbn; set_solver). split_and!; try done; [| |apply Hsame; by left].
    - unfold labels. rewrite Hst, list_fmap_insert. apply list_insert_id. rewrite list_lookup_fmap, Hf. unfold label. cbn. by rewrite Hp, Hg.
    - intros p _. eapply SSTableList.same_table_insert; [exact Hf|exact Hst|done|done|intros _; by apply Hrd|by rewrite Hun]. }
  cbn [fst snd] in *.
  pose proof (SSTableList.inv_release l wd (t :: ts ++ h) [] t (ts ++ h) r l1 wd1 Hi ltac:(done) Hrun) as Hi1.
  assert (open_tables l1 wd1 (ts ++ h) tabs) as Ho1.
  { apply (open_outside l1 wd); [done|by intros; rewrite Hfs|]. eapply open_same; [exact Ho| |done..].
    eapply SSTableList.inv_env; [exact Hi1|]. intros. by rewrite Hfs. }
  destruct (IH l1 wd1 Ho1) as (l2 & wd2 & Hrun2 & Ho2 & [Ht2 Hg2] & Hlab2 & Hs2 & Hd2 & Hf2).
  { destruct Hsl as [-> _]. intros q Hq. apply Hsub. by right. }
  destruct Hsl as [Ht1 Hg1]. exists l2, wd2. split; [|split; [exact Ho2|split; [split; congruence|split_and!; try congruence]]].
  - cbn [SSTableList.ReleaseTables]. destruct Hr as [-> | ->].
    + by erewrite bind_Ok by (apply try_Ok; exact Hrun).
    + by erewrite bind_Ok by (apply try_Err; exact Hrun).
  - intros p Hp. eapply SSTableList.same_table_trans; [by apply Hs|]. apply Hs2. by rewrite Ht1.
Qed.
End lists.

(** ** The invariant *)

(** Memtables that hold what others held. *)
Definition same_maps (ms ms' : list MemTable) : Prop := ∀ p m, ms !! p = Some m → ∃ m', ms' !! p = Some m' ∧
  (∀ km, memtable_map m km → memtable_map m' km) ∧ (Memtable.mutable m = false → Memtable.mutable m' = false).

Lemma same_maps_refl ms : same_maps ms ms.
Proof. intros p m Hm. by exists m. Qed.

Lemma holds_same ms ms' mut imm ts km ki tabs : same_maps ms ms' → holds ms mut imm ts km ki tabs → holds ms' mut imm ts km ki tabs.
Proof.
  intros Hs [(m & Hm & Hmap) Hi Ht]. split; [| |done].
  - destruct (Hs _ _ Hm) as (m' & Hm' & E & _). exists m'. split; [done|by apply E].
  - destruct imm as [p|]; [|done]. destruct Hi as (mi & Hmi & Hmapi). destruct (Hs _ _ Hmi) as (m' & Hm' & E & _). exists m'. split; [done|by apply E].
Qed.

(** A write to the memtable [p], which is not the frozen one. *)
Lemma holds_write ms mut imm ts km ki tabs p m m' x :
  ms !! p = Some m → (∀ kv, memtable_map m kv → memtable_map m' (write_map kv x)) → imm ≠ Some p → holds ms mut imm ts km ki tabs →
  holds (<[p := m']> ms) mut imm ts (if decide (mut = p) then write_map km x else km) ki tabs.
Proof.
  intros Hp Hw Hne [(m0 & Hm & Hmap) Hi Ht]. pose proof (lookup_lt_Some _ _ _ Hp) as Hlt. split; [| |done].
  - case_decide as E.
    + subst mut. rewrite Hp in Hm. injection Hm as <-. exists m'. split; [by apply list_lookup_insert_eq|by apply Hw].
    + exists m0. by rewrite list_lookup_insert_ne.
  - destruct imm as [q|]; [|done]. destruct Hi as (mi & Hmi & Hmapi). exists mi. rewrite list_lookup_insert_ne by congruence. done.
Qed.

(** The frozen memtable is not written, even where it is also the mutable one. *)
Definition read_only w (imm : option nat) : Prop :=
  ∀ p, imm = Some p → p = mutableMemTable w → ∃ m, mems w !! p = Some m ∧ Memtable.mutable m = false.

Lemma read_only_move w w' imm :
  same_maps (mems w) (mems w') → mutableMemTable w' = mutableMemTable w → read_only w imm → read_only w' imm.
Proof. intros Hs E Hr p Hp E'. destruct (Hr p Hp) as (m & Hm & Hf); [congruence|]. destruct (Hs _ _ Hm) as (m' & Hm' & _ & Hf'). exists m'. by auto. Qed.

Lemma read_only_fresh w w' mut imm ts km ki tabs :
  holds (mems w) mut imm ts km ki tabs → (length (mems w) ≤ mutableMemTable w')%nat → read_only w' imm.
Proof. intros [_ Hi _] E p -> ->. destruct Hi as (m & Hm%lookup_lt_Some & _). lia. Qed.

Section invariant.
Context (wpath : path) (wmax : Z) (base : path) (N : Z) (v0 : Key → option (bytes * bool)).
Context (HN : N < 2^28) (Hfilters : Writer.filters_ok N) (Hsep : separate wpath wmax base).

(** A read under way: what it took gives every key the binding of some moment since. *)
Record get_ok (ws : list WALRecord) w (g : get) : Prop := {
  go_since : (since g ≤ length ws)%nat;
  go_alias : read_only w (g_imm g);
  go_tables : g_tables g ⊆ tables (sstables w);
  go_count : zlen (g_tables g) ≤ zlen (tables (sstables w));
  go_holds : ∃ km ki ts, holds (mems w) (g_mut g) (g_imm g) (Compactor.table_of (sstables w) <$> g_tables g) km ki ts ∧
    ∀ k, ∃ j, (since g ≤ j ≤ length ws)%nat ∧ view km ki ts k = now v0 (take j ws) k
}.

Definition phase_ok (ph : phase) w wd ki (tabs : list stream) : Prop :=
  match ph with
  | Idle | Cleared _ => True
  | Filed imm _ g path reader =>
      immutableMemTable w = Some imm ∧ path = NewPath base g ∧ is_u64 g ∧ g ≤ nextGen (sstables w) ∧
      (∀ p f, store (sstables w) !! p = Some f → Gen f < g) ∧ ∃ es, filed path ki wd reader es
  | Listed imm _ =>
      immutableMemTable w = Some imm ∧ ∃ s tabs', tabs = s :: tabs' ∧ ∀ k, binding_of <$> first_entry k s.2 = ki !! k
  end.

Abbreviation holders gs := (concat (g_tables <$> gs)).

(** [n] more steps. *)
Record serving (n : Z) (ph : phase) (gs : list get) (ws : list WALRecord) w wd km ki tabs : Prop := {
  sv_holds : holds_view w km ki tabs;
  sv_alias : read_only w (immutableMemTable w);
  sv_now : ∀ k, view km ki tabs k = now v0 ws k;
  sv_small : small_map km ∧ small_map ki;
  sv_size : Z.of_nat (size km) + n ≤ N ∧ Z.of_nat (size ki) ≤ N ∧ 0 ≤ n;
  sv_list : open_tables base (sstables w) wd (holders gs) tabs;
  sv_room : nextGen (sstables w) + n < 2^64 ∧ (zlen (tables (sstables w)) + n) * (zlen gs + n + 1) < 2^31 - 2;
  sv_log : ∃ x, wal w = Some x ∧ Wal.same_log (Wal.new_wal wpath wmax) x ∧ handle_ok x;
  sv_config : sstPath w = base ∧ blockSize w < 2^31;
  sv_phase : phase_ok ph w wd ki tabs;
  sv_gets : ∀ g, g ∈ gs → get_ok ws w g
}.

Definition serves (n : Z) (c : conf) : Prop :=
  ∃ km ki tabs, serving n (flush c) (gets c) (writes c) (engine_of c).1 (engine_of c).2 km ki tabs.

Lemma room_step t g n : 0 ≤ t → 0 ≤ g → 1 ≤ n → (t + n) * (g + n + 1) < 2^31 - 2 →
  (t + (n - 1)) * (g + (n - 1) + 1) < 2^31 - 2 ∧ (t + 1 + (n - 1)) * (g + (n - 1) + 1) < 2^31 - 2 ∧
  (t + (n - 1)) * (g + 1 + (n - 1) + 1) < 2^31 - 2 ∧ t * (g + 2) < 2^31 - 2.
Proof. intros. split_and!; nia. Qed.

Lemma holders_bound ws w gs : (∀ g, g ∈ gs → get_ok ws w g) → zlen (holders gs) ≤ zlen gs * zlen (tables (sstables w)).
Proof.
  induction gs as [|g gs IH]; intros Hg; [done|]. rewrite fmap_cons. cbn [concat]. rewrite zlen_app, zlen_cons.
  pose proof (go_count _ _ _ (Hg g ltac:(left))). specialize (IH ltac:(intros; apply Hg; by right)). lia.
Qed.

Lemma zlen_perm {A} (l l' : list A) : l ≡ₚ l' → zlen l = zlen l'.
Proof. unfold zlen. by intros ->. Qed.

(** A read keeps what it has while memtables and tables stay. *)
Lemma get_ok_move ws w w' g :
  same_maps (mems w) (mems w') → mutableMemTable w' = mutableMemTable w ∨ (length (mems w) ≤ mutableMemTable w')%nat →
  tables (sstables w) ⊆ tables (sstables w') → zlen (tables (sstables w)) ≤ zlen (tables (sstables w')) →
  (∀ p, p ∈ tables (sstables w) → Compactor.table_of (sstables w') p = Compactor.table_of (sstables w) p) →
  get_ok ws w g → get_ok ws w' g.
Proof.
  intros Hs Hm Ht Hl Htab [H1 H2 H3 H4 (km & ki & ts & Hh & Hk)]. split; [done| | |lia|].
  - destruct Hm; [by eapply read_only_move|by eapply read_only_fresh].
  - by trans (tables (sstables w)).
  - exists km, ki, ts. split; [|done]. eapply holds_same; [exact Hs|].
    replace (Compactor.table_of (sstables w') <$> g_tables g) with (Compactor.table_of (sstables w) <$> g_tables g); [done|].
    apply list_fmap_ext. intros i p Hp. symmetry. apply Htab, H3. by eapply list_elem_of_lookup_2.
Qed.

(** *** The steps, whatever they return *)
Definition remains {A} (n : Z) (ph : phase) (gs : list get) (ws : list WALRecord) : outcome A → Wisp * world → Prop :=
  λ _ s, serves n (mkConf ph gs ws s).

Lemma room_less n w (gs : list get) :
  1 ≤ n → nextGen (sstables w) + n < 2^64 ∧ (zlen (tables (sstables w)) + n) * (zlen gs + n + 1) < 2^31 - 2 →
  nextGen (sstables w) + (n - 1) < 2^64 ∧ (zlen (tables (sstables w)) + (n - 1)) * (zlen gs + (n - 1) + 1) < 2^31 - 2.
Proof.
  intros Hn [Hg Hr]. split; [lia|]. apply (room_step (zlen (tables (sstables w))) (zlen gs) n); [apply zlen_nonneg..|done|done].
Qed.

(** A call of the log. *)
Lemma wp_log {A} n ph gs ws w wd km ki tabs (m : M (Wal.WAL * world) A) x (Q : outcome A → Wisp * world → Prop) :
  serving n ph gs ws w wd km ki tabs → wal w = Some x → (∀ y wd, handle_ok y → wp m (keeps y wd) (y, wd)) →
  (∀ r x' wd', serving n ph gs ws (set_wal (Some x') w) wd' km ki tabs → Q r (set_wal (Some x') w, wd')) →
  wp (on_wal m) Q (w, wd).
Proof.
  intros [H1 H2 H3 H4 H5 H6 H7 (x0 & Hx & Hsame & Hh) H9 H10 H11] Hx0 Hm HQ. rewrite Hx in Hx0. injection Hx0 as <-.
  apply (wp_on_wal _ _ _ x0); [exact Hx|]. eapply wp_mono; [by apply Hm|]. intros r [x' wd'] (Hframe & Hsame' & Hh'). cbn [fst snd] in *.
  apply HQ. assert (∀ q, in_tables base q → files wd' !! q = files wd !! q) as Hf by (by eapply log_frame_tables).
  split; try done.
  - eapply open_outside; [apply Hframe|exact Hf|exact H6].
  - exists x'. split_and!; [done|by eapply same_log_trans|done].
  - destruct ph; try done. destruct H10 as (E1 & -> & E3 & E4 & E5 & es & [(data & E6 & E7) F1 F2 F3 F4]). split_and!; try done.
    exists es. split; try done. exists data. split; [|done]. rewrite Hf; [done|]. by apply NewPath_in_tables.
  - intros g Hg. destruct (H11 g Hg). by split.
Qed.

(** The flush. *)
Lemma serving_file n gs ws w wd km ki tabs imm :
  serving n Idle gs ws w wd km ki tabs → 1 ≤ n → immutableMemTable w = Some imm →
  wp (flush_file imm) (λ r s', serves (n - 1)
    (mkConf (match r with Ok (gen, path, reader) => Filed imm (immutableWALSegment w) gen path reader | _ => Idle end) gs ws s')) (w, wd).
Proof.
  intros [H1 H2 H3 H4 H5 H6 H7 H8 [Hbase Hbs] H10 H11] Hn Himm. destruct H7 as [Hgen H7].
  pose proof (hv_immutable _ _ _ _ _ _ _ H1) as Hi. rewrite Himm in Hi. destruct Hi as (mi & Hmi & Hmapi).
  set (g := nextGen (sstables w) + 1). pose proof (ot_next _ _ _ _ _ H6) as Hnext. assert (is_u64 g) as Hgu by (unfold is_u64, g; lia).
  eapply (wp_flush_file base N w wd imm mi ki); try done; [lia|by apply H4|lia|apply (ot_fresh _ _ _ _ _ H6); [lia|done]|exact (ot_dir _ _ _ _ _ H6)|].
  fold g. intros r y wd' Ho Hok. exists km, ki, tabs. cbn [flush gets writes engine_of fst snd].
  split; try done; [lia|eapply open_next; [exact H6|lia|done|exact Ho]| | |].
  - destruct (room_less n w gs Hn (conj Hgen H7)). split; [cbn; lia|done].
  - destruct r as [x|e|p|]; try done. destruct (Hok x eq_refl) as (reader & es & -> & Hfl). cbn. split_and!; try done; [|by exists es].
    intros p f Hf. destruct (ot_store _ _ _ _ _ H6 p f Hf) as (_ & ? & _). lia.
  - intros g' Hg'. destruct (H11 g' Hg') as [G1 G2 G3 G4 G5]. by split.
Qed.

Lemma serving_publish n gs ws w wd km ki tabs imm sealed gen path reader :
  serving n (Filed imm sealed gen path reader) gs ws w wd km ki tabs → 1 ≤ n →
  wp (flush_publish gen path reader) (remains (n - 1) (Listed imm sealed) gs ws) (w, wd).
Proof.
  intros [H1 H2 H3 H4 H5 H6 [Hgen H7] H8 H9 (Himm & -> & Hu & Hle & Hst & es & [(data & Hfile & _) Hread Hsort _ Hk]) H11] Hn.
  pose proof (zlen_nonneg (tables (sstables w))) as P1. pose proof (zlen_nonneg gs) as P2. pose proof (holders_bound ws w gs H11) as Hh.
  destruct (room_step _ _ n P1 P2 Hn H7) as (R1 & R2 & R3 & R4).
  destruct (open_add base w wd (holders gs) tabs gen reader es data (length data) H6 Hst Hle Hu Hfile Hread Hsort) as (l' & Hrun & Ho & Hg & (nw & Ht) & Hold).
  { rewrite zlen_app. nia. }
  eapply wp_eq; [exact Hrun|]. exists km, ki, ((gen, es) :: tabs). cbn [flush gets writes engine_of fst snd].
  assert (∀ k, view km ki ((gen, es) :: tabs) k = view km ki tabs k) as Hview.
  { intros k. unfold view. destruct (km !! k); [done|]. specialize (Hk k). destruct (ki !! k); [done|].
    unfold table_entries. rewrite fmap_cons. cbn [concat snd]. rewrite first_entry_app. by destruct (first_entry k es). }
  split; try done.
  - destruct H1 as [V1 V2 V3]. split; [done|done|exact (ot_tables _ _ _ _ _ Ho)].
  - intros k. by rewrite Hview.
  - lia.
  - cbn [sstables set_sstables]. rewrite Hg, Ht, zlen_cons. split; [lia|]. by rewrite (Z.add_comm 1).
  - split; [done|]. by exists (gen, es), tabs.
  - intros g Hin. apply (get_ok_move ws w); [apply same_maps_refl|by left| | | |by apply H11]; cbn [sstables set_sstables].
    + rewrite Ht. set_solver.
    + rewrite Ht, zlen_cons. lia.
    + intros p Hp. unfold Compactor.table_of. by rewrite Hold by (by eapply open_valid).
Qed.

Lemma serving_clear n gs ws w wd km ki tabs imm sealed :
  serving n (Listed imm sealed) gs ws w wd km ki tabs → 1 ≤ n →
  wp (flush_clear imm) (remains (n - 1) (Cleared sealed) gs ws) (w, wd).
Proof.
  intros [H1 H2 H3 H4 H5 H6 H7 H8 H9 (Himm & s & tabs' & -> & Hk) H11] Hn.
  unfold flush_clear. wsteps. cbn [immutableMemTable set_writer]. rewrite decide_True by done. wsteps.
  exists km, ∅, (s :: tabs'). cbn [flush gets writes engine_of fst snd].
  split; try done.
  - destruct H1 as [V1 V2 V3]. by split.
  - intros k. rewrite <-H3. unfold view. destruct (km !! k); [done|]. rewrite lookup_empty, <-Hk.
    unfold table_entries. rewrite fmap_cons. cbn [concat]. rewrite first_entry_app. by destruct (first_entry k s.2).
  - split; [apply H4|]. by intros k b ?%lookup_empty_Some.
  - rewrite map_size_empty. cbn. lia.
  - by apply (room_less n w).
  - intros g Hg. destruct (H11 g Hg) as [G1 G2 G3 G4 G5]. by split.
Qed.

Lemma serving_weaken n ph gs ws w wd km ki tabs :
  serving n ph gs ws w wd km ki tabs → 1 ≤ n → serving (n - 1) ph gs ws w wd km ki tabs.
Proof. intros [H1 H2 H3 H4 H5 H6 H7 H8 H9 H10 H11] Hn. split; try done; [lia|by apply room_less]. Qed.

Lemma serving_reclaim n gs ws w wd km ki tabs sealed :
  serving n (Cleared sealed) gs ws w wd km ki tabs → 1 ≤ n → wp (flush_reclaim sealed) (remains (n - 1) Idle gs ws) (w, wd).
Proof.
  intros Hs Hn. assert (serving (n - 1) Idle gs ws w wd km ki tabs) as Hs' by (destruct (serving_weaken _ _ _ _ _ _ _ _ _ Hs Hn); by split).
  pose proof (sv_log _ _ _ _ _ _ _ _ _ Hs') as (x & Hx & _).
  unfold flush_reclaim. wsteps. rewrite Hx. destruct (0 <? sealed); [|wsteps; by exists km, ki, tabs].
  eapply wp_log; [exact Hs'|exact Hx|by intros; apply frame_RemoveSegmentsUpTo|]. intros r x' wd' H'. by exists km, ki, tabs.
Qed.

(** Writes. *)
Lemma small_map_write km r : small_map km → record_ok r → small_map (write_map km (record_write r)).
Proof. intros Hm Hr k b. unfold write_map. intros [[<- <-]|[_ Hb]]%lookup_insert_Some; [by apply record_small|by apply Hm]. Qed.

Lemma get_ok_write ws w m m' rec g :
  mems w !! mutableMemTable w = Some m → Memtable.mutable m = true →
  (∀ kv, memtable_map m kv → memtable_map m' (write_map kv (record_write rec))) →
  get_ok ws w g → get_ok (ws ++ [rec]) (set_mems (<[mutableMemTable w := m']> (mems w)) w) g.
Proof.
  intros Hm Hmut Hw [G1 G2 G3 G4 (km & ki & ts & Hh & Hk)].
  assert (g_imm g ≠ Some (mutableMemTable w)) as Hne by (intros E; destruct (G2 _ E eq_refl) as (m0 & Hm0 & ?); congruence).
  split; [rewrite length_app; lia|by intros p Hp E; destruct Hne; subst p|done|done|].
  eexists _, ki, ts. split; [exact (holds_write _ _ _ _ _ _ _ _ _ _ _ Hm Hw Hne Hh)|]. intros k.
  destruct (Hk k) as (j & Hj & E). rewrite length_app. cbn [length].
  destruct (decide (g_mut g = mutableMemTable w)); [rewrite view_write; case_decide|].
  - exists (length ws + 1)%nat. split; [lia|]. rewrite take_ge by (rewrite length_app; cbn; lia). rewrite now_snoc. by rewrite decide_True.
  - exists j. split; [lia|]. by rewrite take_app_le by lia.
  - exists j. split; [lia|]. by rewrite take_app_le by lia.
Qed.

Lemma serving_put n ph gs ws w wd km ki tabs coins rec m :
  serving n ph gs ws w wd km ki tabs → 1 ≤ n → record_ok rec → mems w !! mutableMemTable w = Some m →
  ∃ m' ok, Memtable.apply_write m coins (record_write rec) = Ok (m', ok) ∧
    serves (n - 1) (mkConf ph gs (if ok : bool then ws ++ [rec] else ws) (set_mems (<[mutableMemTable w := m']> (mems w)) w, wd)).
Proof.
  intros Hs Hn Hrec Hm. destruct (Memtable.mutable m) eqn:Hmut.
  - pose proof Hs as [H1 H2 H3 [H4 H4'] H5 H6 H7 H8 H9 H10 H11]. pose proof H1 as [(m0 & Hm0 & Hmap) _ _]. rewrite Hm in Hm0. injection Hm0 as <-.
    destruct (Memtable.apply_write_spec m km coins (record_write rec) Hmap Hmut) as (m' & Hrun & _).
    assert (∀ kv, memtable_map m kv → memtable_map m' (write_map kv (record_write rec))) as Hw.
    { intros kv Hkv. destruct (Memtable.apply_write_spec m kv coins (record_write rec) Hkv Hmut) as (m2 & Hrun2 & ? & _). congruence. }
    assert (immutableMemTable w ≠ Some (mutableMemTable w)) as Hne by (intros E; destruct (H2 _ E eq_refl) as (m0 & Hm0 & ?); congruence).
    exists m', true. split; [done|]. exists (write_map km (record_write rec)), ki, tabs. cbn [flush gets writes engine_of fst snd].
    pose proof (holds_write _ _ _ _ _ _ _ _ _ _ _ Hm Hw Hne H1) as Hh. rewrite decide_True in Hh by done.
    split; try done.
    + by intros p Hp E; destruct Hne; subst p.
    + intros k. rewrite view_write, now_snoc. case_decide; [done|apply H3].
    + split; [by apply small_map_write|done].
    + unfold write_map. rewrite map_size_insert. destruct (km !! _); cbn; lia.
    + by apply (room_less n w).
    + intros g Hg. apply (get_ok_write ws w m); auto.
  - exists m, false. split; [by apply Memtable.apply_write_frozen|]. exists km, ki, tabs. rewrite list_insert_id by done.
    apply serving_weaken; [|done]. by destruct w.
Qed.

Lemma serving_write n ph gs ws w wd km ki tabs pooled coins rec :
  serving n ph gs ws w wd km ki tabs → 1 ≤ n → record_ok rec →
  wp (put_record pooled coins rec) (λ r s', serves (n - 1) (mkConf ph gs (match r with Ok true => ws ++ [rec] | _ => ws end) s')) (w, wd).
Proof.
  intros Hs Hn Hrec. pose proof (sv_log _ _ _ _ _ _ _ _ _ Hs) as (x & Hx & _). unfold put_record. wstep.
  eapply wp_log; [exact Hs|exact Hx|by intros; apply frame_AppendRecord|]. intros r x' wd' Hs'.
  destruct r as [[]|e|p|]; [|exists km, ki, tabs; by apply serving_weaken..].
  wsteps. pose proof (sv_holds _ _ _ _ _ _ _ _ _ Hs') as [(m & Hm & _) _ _]. eapply wp_get_mem; [exact Hm|]. cbv beta iota. wstep.
  destruct (serving_put n ph gs ws _ wd' km ki tabs coins rec m Hs' Hn Hrec Hm) as (m' & ok & Hrun & Hput).
  apply wp_lift. rewrite Hrun. cbv beta iota. unfold put_mem. wsteps. by destruct ok.
Qed.

(** Freezes. *)
Lemma freeze_maps ms p m fresh : ms !! p = Some m → same_maps ms (<[p := Memtable.Freeze m]> ms ++ fresh).
Proof.
  intros Hm q m0 Hq. pose proof (lookup_lt_Some _ _ _ Hq). rewrite lookup_app_l by (by rewrite length_insert). destruct (decide (q = p)) as [->|Hne].
  - rewrite Hm in Hq. injection Hq as <-. rewrite list_lookup_insert_eq by done. by exists (Memtable.Freeze m).
  - rewrite list_lookup_insert_ne by done. by exists m0.
Qed.

Lemma serving_frozen n ph gs ws w wd km ki tabs m :
  serving n ph gs ws w wd km ki tabs → 1 ≤ n → immutableMemTable w = None → mems w !! mutableMemTable w = Some m →
  serving n ph gs ws (set_immutable (Some (mutableMemTable w)) (set_mems (<[mutableMemTable w := Memtable.Freeze m]> (mems w)) w)) wd km km tabs.
Proof.
  intros [H1 H2 H3 H4 H5 H6 H7 H8 H9 H10 H11] Hn Himm Hm. pose proof (freeze_maps _ _ _ [] Hm) as Hs. rewrite app_nil_r in Hs.
  pose proof (lookup_lt_Some _ _ _ Hm) as Hlt. pose proof (holds_same _ _ _ _ _ _ _ _ Hs H1) as [V1 V2 V3].
  split; try done; [| | |lia| |].
  - intros p [= <-] _. exists (Memtable.Freeze m). split; [by apply list_lookup_insert_eq|done].
  - intros k. rewrite <-H3. rewrite view_same. pose proof (hv_immutable _ _ _ _ _ _ _ H1) as Hi. rewrite Himm in Hi. by rewrite Hi.
  - by split; apply H4.
  - destruct ph; try done; destruct H10; congruence.
  - intros g Hg. apply (get_ok_move ws w); [done|by left|done|done|done|by apply H11].
Qed.

Lemma serving_fresh n ph gs ws w wd km tabs sealed p :
  serving n ph gs ws w wd km km tabs → immutableMemTable w = Some p → mutableMemTable w = p →
  serves n (mkConf ph gs ws (set_mutable (length (mems w)) (set_mems (mems w ++ [Memtable.CreateMemTableWithThreshold (threshold w)]) (set_segment sealed w)), wd)).
Proof.
  intros [H1 H2 H3 H4 H5 H6 H7 H8 H9 H10 H11] Himm Hmut. exists ∅, km, tabs. cbn [flush gets writes engine_of fst snd].
  assert (same_maps (mems w) (mems w ++ [Memtable.CreateMemTableWithThreshold (threshold w)])) as Hs.
  { intros q m Hq. exists m. split; [by apply lookup_app_l_Some|done]. }
  pose proof (holds_same _ _ _ _ _ _ _ _ Hs H1) as [V1 V2 V3].
  split; try done; [| | | | |].
  - split; [|done..]. exists (Memtable.CreateMemTableWithThreshold (threshold w)). cbn. split; [by rewrite lookup_app_r, Nat.sub_diag by lia|].
    apply Memtable.CreateMemTable_map.
  - by eapply read_only_fresh.
  - intros k. rewrite <-H3, view_same. apply view_shift.
  - split; [by intros k b ?%lookup_empty_Some|apply H4].
  - rewrite map_size_empty. cbn. lia.
  - intros g Hg. apply (get_ok_move ws w); [done|by right|done|done|done|by apply H11].
Qed.

Lemma serving_freeze n ph gs ws w wd km ki tabs :
  serving n ph gs ws w wd km ki tabs → 1 ≤ n → immutableMemTable w = None → wp freezeMutableLocked (remains (n - 1) ph gs ws) (w, wd).
Proof.
  intros Hs Hn Himm. pose proof (sv_holds _ _ _ _ _ _ _ _ _ Hs) as [(m & Hm & _) _ _].
  pose proof (serving_frozen _ _ _ _ _ _ _ _ _ m Hs Hn Himm Hm) as Hs1. apply serving_weaken in Hs1; [|done].
  unfold freezeMutableLocked. do 3 wstep. eapply wp_get_mem; [exact Hm|]. cbv beta iota. unfold put_mem. do 4 wstep.
  set (w1 := set_immutable _ _) in *. pose proof (sv_log _ _ _ _ _ _ _ _ _ Hs1) as (x & Hx & _). wstep.
  eapply wp_log; [exact Hs1|exact Hx|by intros; apply frame_rotateLocked|]. intros r x' wd' Hs2.
  destruct r as [sealed|e|p|]; [|by exists km, km, tabs..]. wsteps.
  apply (serving_fresh (n - 1) ph gs ws (set_wal (Some x') w1) wd' km tabs sealed (mutableMemTable w)); done.
Qed.

(** Reads. *)
Lemma serving_begin n ph gs ws w wd km ki tabs g s' :
  serving n ph gs ws w wd km ki tabs → 1 ≤ n → get_begin (length ws) (w, wd) = (Ok g, s') → serves (n - 1) (mkConf ph (g :: gs) ws s').
Proof.
  intros Hs Hn Hrun. pose proof Hs as [H1 H2 H3 H4 H5 H6 [Hgen H7] H8 H9 H10 H11].
  pose proof (zlen_nonneg (tables (sstables w))) as P1. pose proof (zlen_nonneg gs) as P2. pose proof (holders_bound ws w gs H11) as Hh.
  destruct (room_step _ _ n P1 P2 Hn H7) as (R1 & R2 & R3 & R4).
  destruct (open_get base (sstables w) wd (holders gs) tabs H6) as (l' & Hget & Ho & [Ht Hg] & Hlab & Hst); [nia|].
  unfold get_begin in Hrun. erewrite bind_Ok in Hrun by reflexivity. erewrite bind_Ok in Hrun by (apply on_list_run; exact Hget).
  injection Hrun as <- <-. exists km, ki, tabs. cbn [flush gets writes engine_of fst snd].
  assert (∀ p, p ∈ tables (sstables w) → Compactor.table_of l' p = Compactor.table_of (sstables w) p) as Htab.
  { intros p Hp. apply Compactor.table_of_same; [by eapply open_valid|apply Hst]. }
  assert (Compactor.table_of l' <$> tables (sstables w) = Compactor.list_tables (sstables w)) as Htabs.
  { apply list_fmap_ext. intros i p Hp. by eapply Htab, list_elem_of_lookup_2. }
  pose proof H1 as [V1 V2 V3]. split; try done.
  - split; [done..|exact (ot_tables _ _ _ _ _ Ho)].
  - lia.
  - cbn [sstables set_sstables]. rewrite Hg, Ht, zlen_cons. split; [lia|]. by rewrite (Z.add_comm 1 (zlen gs)).
  - destruct ph; try done. destruct H10 as (E1 & E2 & E3 & E4 & E5 & E6). do 3 (split; [done|]). cbn [sstables set_sstables]. rewrite Hg. split; [done|]. split; [|done].
    intros p f Hf. destruct (labels_lookup _ _ _ _ Hlab Hf) as (f0 & Hf0 & _ & ->). by apply (E5 p).
  - intros g [-> |Hin]%elem_of_cons.
    + split; cbn [since g_imm g_tables g_mut]; [done|done|cbn; by rewrite Ht|cbn; by rewrite Ht|].
      exists km, ki, tabs. cbn [sstables set_sstables mems]. rewrite Htabs. split; [done|]. intros k. exists (length ws). split; [lia|]. by rewrite firstn_all.
    + apply (get_ok_move ws w); [apply same_maps_refl|by left|cbn; by rewrite Ht|cbn; rewrite Ht; lia|done|by apply H11].
Qed.

(** The lookups of a read, and what it returns. *)
Lemma get_end_run g sid ts w wd km ki tabs :
  holds (mems w) (g_mut g) (g_imm g) (Compactor.table_of (sstables w) <$> g_tables g) km ki tabs →
  get_end g sid ts (w, wd) =
    (on_list (SSTableList.ReleaseTables (g_tables g));; mret (answer (view km ki tabs (mkKey sid ts)))) (w, wd).
Proof.
  intros [(m & Hm & Hmap) Hi Ht]. set (k := mkKey sid ts). unfold get_end.
  rewrite (bind_Ok _ _ (w, wd) (inl (answer (view km ki tabs k))) (w, wd)); [done|]. apply try_Ok.
  erewrite bind_Ok by (apply get_mem_run; exact Hm). rewrite (lift_Ok _ _ _ _ (mem_answer_spec _ _ sid ts Hmap)). fold k.
  unfold view. destruct (km !! k); cbn [fmap option_fmap option_map]; [done|].
  erewrite (bind_Ok _ _ _ (answer ∘ Some <$> ki !! k) (w, wd)).
  - destruct (ki !! k); cbn [fmap option_fmap option_map]; [done|]. erewrite bind_Ok by reflexivity.
    unfold lift. rewrite (Get_tables_spec _ _ sid ts Ht). by rewrite get_result_answer.
  - destruct (g_imm g) as [p|]; [|by rewrite Hi, lookup_empty]. destruct Hi as (mi & Hmi & Hmapi).
    erewrite bind_Ok by (apply get_mem_run; exact Hmi). unfold lift. by rewrite (mem_answer_spec _ _ sid ts Hmapi).
Qed.

Lemma serving_end n ph gs gs' ws w wd km ki tabs g sid ts :
  serving n ph gs ws w wd km ki tabs → 1 ≤ n → gs ≡ₚ g :: gs' →
  ∃ s' j, get_end g sid ts (w, wd) = (Ok (answer (now v0 (take j ws) (mkKey sid ts))), s') ∧ (since g ≤ j ≤ length ws)%nat ∧
    serves (n - 1) (mkConf ph gs' ws s').
Proof.
  intros Hs Hn Hgs. apply serving_weaken in Hs; [|done]. destruct Hs as [H1 H2 H3 H4 H5 H6 [Hgen H7] H8 H9 H10 H11].
  assert (g ∈ gs) as Hin by (rewrite Hgs; left). destruct (H11 g Hin) as [G1 G2 G3 G4 (kg & ig & tg & Hh & Hk)].
  destruct (Hk (mkKey sid ts)) as (j & Hj & E).
  assert (open_tables base (sstables w) wd (g_tables g ++ holders gs') tabs) as H6'.
  { destruct H6 as [O1 O2 O3 O4 O5 O6 O7]. split; try done. eapply SSTableList.inv_held_perm; [|exact O1]. by rewrite Hgs. }
  destruct (open_release base (g_tables g) (sstables w) wd (holders gs') tabs H6' G3) as (l' & wd' & Hrel & Ho & [Ht Hg] & Hlab & Hst & Hd & Hf).
  eexists (set_sstables l' w, wd'), j. split; [|split; [done|]].
  { rewrite (get_end_run g sid ts w wd kg ig tg Hh), <-E. by erewrite bind_Ok by (apply on_list_run; exact Hrel). }
  exists km, ki, tabs. cbn [flush gets writes engine_of fst snd].
  assert (∀ p, p ∈ tables (sstables w) → Compactor.table_of l' p = Compactor.table_of (sstables w) p) as Htab.
  { intros p Hp. apply Compactor.table_of_same; [by eapply open_valid|by apply Hst]. }
  pose proof H1 as [V1 V2 V3]. pose proof (zlen_nonneg (tables (sstables w))) as P1.
  split; try done.
  - split; [done..|exact (ot_tables _ _ _ _ _ Ho)].
  - cbn [sstables set_sstables]. rewrite Hg, Ht. split; [done|]. rewrite (zlen_perm _ _ Hgs), zlen_cons in H7. nia.
  - destruct ph; try done. destruct H10 as (E1 & E2 & E3 & E4 & E5 & es & [(data & F0 & F1) F2 F3 F4 F5]). do 3 (split; [done|]).
    cbn [sstables set_sstables]. rewrite Hg. split; [done|]. split.
    + intros p f Hp. destruct (labels_lookup _ _ _ _ Hlab Hp) as (f0 & Hf0 & _ & ->). by apply (E5 p).
    + exists es. split; try done. exists data. by rewrite Hf.
  - intros g' Hin'. apply (get_ok_move ws w); [apply same_maps_refl|by left|cbn; by rewrite Ht|cbn; rewrite Ht; lia|done|].
    apply H11. rewrite Hgs. by right.
Qed.

(** *** One step *)
Lemma serves_step n c c' : serves n c → 1 ≤ n → step c c' → serves (n - 1) c'.
Proof.
  intros (km & ki & tabs & Hs) Hn Hst.
  destruct Hst as [gs ws imm [w wd] r s' Himm Hrun|gs ws imm sealed gen path reader [w wd] r s' Hrun|gs ws imm sealed [w wd] r s' Hrun
    |gs ws sealed [w wd] r s' Hrun|ph gs ws pooled coins rec [w wd] r s' Hrec Hrun|ph gs ws [w wd] r s' Himm Hrun|ph gs ws [w wd] g s' Hrun
    |ph gs gs' ws g sid ts [w wd] r s' Hgs Hrun]; cbn [flush gets writes engine_of fst snd] in *.
  - exact (wp_run _ _ _ _ _ (serving_file _ _ _ _ _ _ _ _ _ Hs Hn Himm) Hrun).
  - exact (wp_run _ _ _ _ _ (serving_publish _ _ _ _ _ _ _ _ _ _ _ _ _ Hs Hn) Hrun).
  - exact (wp_run _ _ _ _ _ (serving_clear _ _ _ _ _ _ _ _ _ _ Hs Hn) Hrun).
  - exact (wp_run _ _ _ _ _ (serving_reclaim _ _ _ _ _ _ _ _ _ Hs Hn) Hrun).
  - exact (wp_run _ _ _ _ _ (serving_write _ _ _ _ _ _ _ _ _ pooled coins _ Hs Hn Hrec) Hrun).
  - exact (wp_run _ _ _ _ _ (serving_freeze _ _ _ _ _ _ _ _ _ Hs Hn Himm) Hrun).
  - exact (serving_begin _ _ _ _ _ _ _ _ _ _ _ Hs Hn Hrun).
  - destruct (serving_end _ _ _ _ _ _ _ _ _ _ _ sid ts Hs Hn Hgs) as (s2 & j & Hrun2 & _ & H'). rewrite Hrun in Hrun2. by injection Hrun2 as _ <-.
Qed.

Lemma serves_steps n m c c' : serves n c → nsteps step m c c' → Z.of_nat m ≤ n → serves (n - Z.of_nat m) c'.
Proof.
  intros Hs Hst. revert n Hs. induction Hst as [c|m c c1 c2 Hst _ IH]; intros n Hs Hm; [by rewrite Z.sub_0_r|].
  replace (n - Z.of_nat (S m)) with (n - 1 - Z.of_nat m) by lia. apply IH; [|lia]. apply (serves_step n c); [done|lia|done].
Qed.

(** The engine between two calls, with any failures to come. *)
Lemma engine_serves w wd rs frozen tabs fs n :
  engine wpath wmax base w wd rs frozen tabs → (∀ k, v0 k = lookup_view rs (default [] frozen) tabs k) →
  0 ≤ n → zlen rs + zlen (default [] frozen) + n ≤ N → nextGen (sstables w) + n < 2^64 →
  (zlen (tables (sstables w)) + n) * (n + 1) < 2^31 - 2 →
  serves n (mkConf Idle [] [] (w, with_faults fs wd)).
Proof.
  intros He Hv0 Hn HNr Hgen Hroom. exists (replay_map rs), (replay_map (default [] frozen)), tabs. cbn [flush gets writes engine_of fst snd].
  pose proof He as [_ (x & Hx & Hlog & Hsame & _) [Hrec Hrec'] _ Htab _ Himm (Hbase & _ & Hbs) _].
  pose proof (zlen_nonneg rs). pose proof (zlen_nonneg (default [] frozen)).
  pose proof (replay_size rs). pose proof (replay_size (default [] frozen)).
  split.
  - by eapply engine_holds_view.
  - intros p Hp E. rewrite Hp in Himm. destruct frozen; [|done]. by destruct Himm as [[] _].
  - intros k. etransitivity; [symmetry; apply Hv0|done].
  - by split; apply replay_small.
  - unfold zlen in *. lia.
  - by apply listing_open, (listing_outside base _ wd).
  - split; [done|]. by rewrite Z.add_0_l.
  - exists x. split_and!; [done|done|]. by eapply log_state_handle.
  - done.
  - done.
  - by intros g ?%not_elem_of_nil.
Qed.
End invariant.

(** ** Claims *)

(** C3: reads are linearizable against flushes, writes and freezes, whatever fails. From
    any state of the engine let a flush run section by section, and let other clients
    write, freeze and begin and end reads in between, in any order, every call free to
    fail. A [Get] that ends then returns, without an error, the binding its key had after
    some of the writes: those made before it began, and possibly some made since. *)
Theorem reads_linearizable wpath wmax base N w wd rs frozen tabs fs n c g gs sid ts r s' :
  N < 2^28 → Writer.filters_ok N → separate wpath wmax base → engine wpath wmax base w wd rs frozen tabs →
  zlen rs + zlen (default [] frozen) + Z.of_nat (S n) ≤ N → nextGen (sstables w) + Z.of_nat (S n) < 2^64 →
  (zlen (tables (sstables w)) + Z.of_nat (S n)) * (Z.of_nat (S n) + 1) < 2^31 - 2 →
  nsteps step n (mkConf Idle [] [] (w, with_faults fs wd)) c →
  gets c ≡ₚ g :: gs → get_end g sid ts (engine_of c) = (r, s') →
  ∃ j, (since g ≤ j ≤ length (writes c))%nat ∧
    r = Ok (answer (now (lookup_view rs (default [] frozen) tabs) (take j (writes c)) (mkKey sid ts))).
Proof.
  intros HN Hfil Hsep He H1 H2 H3 Hst Hgs Hrun.
  pose proof (engine_serves wpath wmax base N (lookup_view rs (default [] frozen) tabs) w wd rs frozen tabs fs (Z.of_nat (S n)) He
    ltac:(done) ltac:(lia) H1 H2 H3) as Hs.
  apply (serves_steps wpath wmax base N _ HN Hfil Hsep _ n _ c) in Hs; [|done|lia]. destruct Hs as (km & ki & tabs' & Hs).
  destruct (engine_of c) as [w1 wd1] eqn:Ec. cbn [fst snd] in Hs.
  destruct (serving_end wpath wmax base N _ _ _ _ _ _ _ _ _ _ _ g sid ts Hs ltac:(lia) Hgs) as (s2 & j & Hrun2 & Hj & _).
  rewrite Hrun in Hrun2. injection Hrun2 as -> _. by exists j.
Qed.
End concurrent.

(** ** The claim on a running engine

    A write; a read begins; the key is overwritten; the memtable is frozen and flushed, each
    section in its turn; the read ends. *)
Definition demo_rec (v : bytes) : WALRecord := mkRecord 1 7 false v.
Definition demo_put (v : bytes) : Wisp * world → outcome bool * (Wisp * world) := put_record [] [] (demo_rec v).
Definition demo_s1 : Wisp * world := (demo_put [x61] demo_opened).2.
Definition demo_get : outcome get * (Wisp * world) := get_begin 1 demo_s1.
Definition demo_g : get := result (mkGet 0 None [] 0) demo_get.
Definition demo_s3 : Wisp * world := (demo_put [x62] demo_get.2).2.
Definition demo_s4 : Wisp * world := (freezeMutableLocked demo_s3).2.
Definition demo_file := @flush_file stored toy_hash 0 demo_s4.
Definition demo_table : Z * path * Reader := result (0, defaultSSTablePath, mkReader [] [] 0 None) demo_file.
Definition demo_s6 : Wisp * world := (flush_publish demo_table.1.1 demo_table.1.2 demo_table.2 demo_file.2).2.
Definition demo_s7 : Wisp * world := (flush_clear 0 demo_s6).2.
Definition demo_s8 : Wisp * world := (flush_reclaim (immutableWALSegment demo_s4.1) demo_s7).2.
Definition demo_end := @get_end stored toy_hash demo_g 7 1 demo_s8.

Lemma pair_result {A B} (r : A * B) a : r.1 = a → r = (a, r.2).
Proof. destruct r. by intros [= <-]. Qed.

Lemma demo_opened_engine : @engine stored toy_hash defaultWALPath Wal.DefaultMaxSegmentSize defaultSSTablePath demo_opened.1 demo_opened.2 [] None [].
Proof.
  destruct demo_create as (w & wd & Hrun & He & _). unfold demo_opened, demo_created. rewrite Hrun. exact He.
Qed.

Lemma demo_steps : nsteps (@step stored toy_hash) 8 (mkConf Idle [] [] demo_opened) (mkConf Idle [demo_g] [demo_rec [x61]; demo_rec [x62]] demo_s8).
Proof.
  assert (demo_get = (Ok demo_g, demo_get.2)) as Hget by (apply succeeds_result; vm_compute; reflexivity).
  assert (put_record [] [] (demo_rec [x61]) demo_opened = (Ok true, demo_s1)) as Hput1 by (apply (pair_result (demo_put [x61] demo_opened)); vm_compute; reflexivity).
  assert (put_record [] [] (demo_rec [x62]) demo_get.2 = (Ok true, demo_s3)) as Hput2 by (apply (pair_result (demo_put [x62] demo_get.2)); vm_compute; reflexivity).
  assert (∀ v, v = [x61] ∨ v = [x62] → record_ok (demo_rec v)) as Hrec by (intros v [-> | ->]; by_decide).
  assert (immutableMemTable demo_s3.1 = None) as Hnone by (vm_compute; reflexivity).
  assert (immutableMemTable demo_s4.1 = Some 0%nat) as Hsome by (vm_compute; reflexivity).
  pose (ws1 := [demo_rec [x61]]). pose (ws2 := [demo_rec [x61]; demo_rec [x62]]).
  pose (sealed := immutableWALSegment demo_s4.1). pose (path := demo_table.1.2). pose (gen := demo_table.1.1). pose (reader := demo_table.2).
  assert (@flush_file stored toy_hash 0 demo_s4 = (Ok (gen, path, reader), demo_file.2)) as Hfile.
  { fold demo_file. unfold gen, path, reader. rewrite <-!surjective_pairing. apply succeeds_result. vm_compute. reflexivity. }
  apply (nsteps_l _ _ _ (mkConf Idle [] ws1 demo_s1)).
  { apply (step_write Idle [] [] [] [] (demo_rec [x61]) demo_opened (Ok true) demo_s1); [apply Hrec; by left|exact Hput1]. }
  apply (nsteps_l _ _ _ (mkConf Idle [demo_g] ws1 demo_get.2)).
  { apply (step_begin Idle [] ws1 demo_s1 demo_g demo_get.2). exact Hget. }
  apply (nsteps_l _ _ _ (mkConf Idle [demo_g] ws2 demo_s3)).
  { apply (step_write Idle [demo_g] ws1 [] [] (demo_rec [x62]) demo_get.2 (Ok true) demo_s3); [apply Hrec; by right|exact Hput2]. }
  apply (nsteps_l _ _ _ (mkConf Idle [demo_g] ws2 demo_s4)).
  { apply (step_freeze Idle [demo_g] ws2 demo_s3 (freezeMutableLocked demo_s3).1 demo_s4); [exact Hnone|apply surjective_pairing]. }
  apply (nsteps_l _ _ _ (mkConf (Filed 0 sealed gen path reader) [demo_g] ws2 demo_file.2)).
  { exact (step_file [demo_g] ws2 0 demo_s4 (Ok (gen, path, reader)) demo_file.2 Hsome Hfile). }
  apply (nsteps_l _ _ _ (mkConf (Listed 0 sealed) [demo_g] ws2 demo_s6)).
  { apply (step_publish [demo_g] ws2 0 sealed gen path reader demo_file.2 (flush_publish gen path reader demo_file.2).1 demo_s6). apply surjective_pairing. }
  apply (nsteps_l _ _ _ (mkConf (Cleared sealed) [demo_g] ws2 demo_s7)).
  { apply (step_clear [demo_g] ws2 0 sealed demo_s6 (flush_clear 0 demo_s6).1 demo_s7). apply surjective_pairing. }
  apply nsteps_once.
  apply (step_reclaim [demo_g] ws2 sealed demo_s7 (flush_reclaim sealed demo_s7).1 demo_s8). apply surjective_pairing.
Qed.

Lemma reads_linearizable_witness :
  demo_end.1 = Ok ([x62], true, false) ∧
  ∃ j, (1 ≤ j ≤ 2)%nat ∧ demo_end.1 = Ok (answer (now (lookup_view [] [] []) (take j [demo_rec [x61]; demo_rec [x62]]) (mkKey 7 1))).
Proof.
  split; [vm_compute; reflexivity|].
  apply (@reads_linearizable stored toy_hash defaultWALPath Wal.DefaultMaxSegmentSize defaultSSTablePath 9 demo_opened.1 demo_opened.2 [] None [] [] 8
    (mkConf Idle [demo_g] [demo_rec [x61]; demo_rec [x62]] demo_s8) demo_g [] 7 1 demo_end.1 demo_end.2).
  - lia.
  - by apply small_filters.
  - exact default_separate.
  - exact demo_opened_engine.
  - done.
  - vm_compute. reflexivity.
  - vm_compute. reflexivity.
  - exact demo_steps.
  - done.
  - apply surjective_pairing.
Defined.
